(* ===== verification/_CoqProject ===== *)
-Q . S2P
Prelude.v
JsNumber.v
JsString.v
Utf8.v
NumberText.v
Errors.v
Signals.v
Chat.v
Provider.v
CircuitBreaker.v
BreakerSystem.v
ConcurrencyLimiter.v
TokenBucket.v
JobStore.v
JobSystem.v
Router.v
RouterProvider.v
JobWorker.v
Lease.v
JobAnswers.v
WorkerLoop.v
Json.v
JsonParse.v
StreamParser.v
CacheKey.v
Adapters.v
Config.v
Schema.v
Auth.v
ChatRoute.v
RedisCache.v
Broker.v
Amqp.v
App.v
Metrics.v
Registry.v
Startup.v
Deadlines.v
Streaming.v
Gateway.v
Application.v
Lifecycle.v
GatewayProcess.v
Scripts.v
