(* ===== verification/Prelude.v ===== *)
(** * ModelMux: a verification library for the inference gateway

    ModelMux is a gateway in front of inference providers.  A request passes
    an API-key guard and a per-key rate limit, may be answered from a cache,
    waits for provider capacity, and is routed to a primary provider behind a
    circuit breaker, or to a fallback.  Requests can also be submitted as
    durable jobs: rows of a PostgreSQL table, dispatched through RabbitMQ to
    workers that execute them through the same router.  This library models
    the TypeScript sources under [src/src/] as Rocq functions and step
    relations and proves the properties each part is written to have.

    ** The files

    - [Prelude]: results, booleans on rationals, labelled runs of a step
      relation with invariants, counting in finite maps, tactics and hint
      databases.  The platform: [JsNumber] and [JsString] (JavaScript numbers
      and string operations), [Utf8] (the incremental decoder of the Encoding
      Standard and the trimming of text), [NumberText] (the conversion of text
      to numbers, with rounding to doubles), [Json] and [JsonParse]
      ([JSON.stringify] and [JSON.parse], with their round trip).
    - [Errors]: the error classes of [errors.ts], [cancellation.ts],
      [providers/failure-policy.ts] and [queue/job-error.ts].  [Signals]: the
      small promise machines [abortable], [requestCancellation] and
      [writeSse].  [Chat]: the types of [types/chat.ts] and the events of
      [observability/telemetry.ts].  [Provider]: the interface of
      [providers/provider.ts]; a streaming call is a tree whose nodes hand
      content to the consumer.
    - [CircuitBreaker]: the class of [providers/circuit-breaker.ts], [execute]
      split at its [await].  [BreakerSystem]: one breaker used by any number
      of overlapping calls.
    - [ConcurrencyLimiter]: [concurrency/in-memory-concurrency-limiter.ts] as
      a transition system of its methods and callbacks.
    - [TokenBucket]: the Lua script and the class of
      [rate-limit/redis-token-bucket.ts], over a type class of the Redis
      commands the script calls, with the laws it relies on.
    - [JobStore]: the SQL statements of [queue/postgres-job-store.ts] as
      functions on the table.  [JobSystem]: the table with the broker, the
      workers, crashes and lost messages, as a transition system.
      [JobWorker]: [queue/rabbitmq.ts] and [jobs/inference-processor.ts],
      against an interface of the store that the job system implements.
      [WorkerLoop]: the whole loop of the worker.  [Lease]: an attempt and
      its lease while everything else goes on.  [JobAnswers]: the answer of a
      job from its submission to its polls.
      [Broker]: the deliveries, settlements and draining of
      [queue/rabbitmq-broker.ts].  [Amqp]: its queue declarations, the bytes
      of its messages and the end of [close].
    - [Router]: [providers/router.ts] against the provider interface and the
      breaker, one routing pass at a time.  [RouterProvider]: the same class
      as an implementation of the provider interface, so that the endpoints
      and the worker can be run on top of it.
    - [StreamParser]: [providers/stream-parser.ts] as generators over bytes.
      [Adapters]: [providers/http-request.ts], [providers/ollama.ts] and
      [providers/openai.ts] over an arbitrary network; both implement the
      provider interface.
    - [CacheKey]: the canonical hashes of [cache/cache-key.ts] and
      [queue/postgres-job-store.ts].  [Config]: [config.ts] and the cache
      namespace.  [Schema]: the JSON schemas of the routes.
    - [Auth]: [auth/api-keys.ts], [auth/postgres-api-key-store.ts] and the
      hook of [auth/guard.ts].
    - [ChatRoute]: the handlers of [routes/chat.ts], against the interfaces of
      cache, limiter and provider, in a small monad of exceptions and state.
      [RedisCache]: [cache/redis-chat-cache.ts], over a type class of the
      Redis commands it uses; it implements the cache interface.
    - [App]: the error handler and the guarded routes of [app.ts],
      [routes/jobs.ts] and [routes/providers.ts].  [Gateway]:
      [POST /v1/chat] behind its guard and over the shared cache.
      [Application]: [buildApp], the table of routes and how each request
      ends.  [Streaming]: the streaming endpoint over the router over the
      adapters.
    - [Metrics]: [observability/metrics.ts], [observability/http.ts] and
      [observability/server.ts].  [Registry]: the declared metrics, on a
      registry whose calls may throw.
    - [Startup]: [providers/create-provider.ts] and the construction of the
      components in [server.ts] and [worker.ts].  [Deadlines]: what a loaded
      configuration makes of the time a job attempt may take.  [Lifecycle]:
      start and shutdown of both processes, one after the other.
      [GatewayProcess]: those of the gateway as two coroutines that
      interleave.  [Scripts]: [scripts/create-api-key.ts] and
      [scripts/migrate.ts].

    ** What the theorems show

    - Circuit breaker: the generation counter implements a breaker that
      forgets the calls in flight when it changes state; at most one probe;
      no admission during the cooldown; late outcomes are ignored.
    - Limiter: it refines a counting semaphore with a bounded first-in
      first-out queue; capacity, order, and single release follow.
    - Rate limiter: the script, with keys that expire, decides as an ideal
      bucket; the number of requests allowed in a window is bounded, in exact
      arithmetic; failures never admit.
    - Jobs: no job is lost, whatever is lost around it; every attempt is
      claimed at most once; results are final; late workers are fenced off;
      retries wait; resubmission is idempotent; tenants are isolated; the
      worker acknowledges a message only when it is no longer needed; a
      delivery is settled once, and a consumer is cancelled only when idle;
      a message survives the wire, and a rejected one always has a queue.
      An attempt through the router and the adapters ends well within its
      lease, and one that ends within its lease is recorded, whatever others
      do.  A poll shows no answer but one produced for what the same owner
      submitted.  A round of the worker's loop publishes what is due, and clears
      the outbox flag of exactly the jobs the broker has confirmed, whatever
      fails; the loop ends when it is stopped, and starts nothing
      afterwards.
    - Router: at most one call per target, fallback only after a transient
      failure and for mapped models, never after output has been attempted;
      cancellation is not charged to a circuit, and a recovery probe it ends
      is handed back at once.  As a provider it does what a
      routing pass does, for every consumer.
    - Adapters: the lines and events of a stream do not depend on how the
      network cuts it; the consumer gets their contents in order, and success
      needs the protocol's end marker; a call arms its timer, sends at most one
      request and releases the timer at the end; deadlines and cancellations
      decide the outcome once they have happened; errors are the provider's
      own, but for one: a finish reason that is an object with a property
      [toString] makes the OpenAI stream fail with a [TypeError].
    - Cache: what was written is read back within its lifetime; a hit is an
      answer to the same request of the same tenant; entries never change.
      Keys and namespaces ignore the order of object keys and separate
      everything else, up to collisions of SHA-256.
    - Configuration and start-up: a configuration that loads is in range and
      is accepted by every constructor, with the options the theorems about
      the components assume; numbers are read exactly.
    - Endpoints: permits are given back on every path; a stream is framed by
      headers and at most one closing event; cache failures are harmless; the
      request schema is exactly the request type, with no further properties;
      errors reach clients in
      public form only; an accepted job can be polled by its owner alone.
      [Gateway] puts guard, validation, handler and cache together: whatever
      other requests do, a tenant only gets answers given to its own request.
      [Streaming] puts endpoint, router and adapters together: the client
      receives exactly the contents of the server's body, or of the fallback's
      when the primary's server is down.  [Application]: only the health check
      is served without a key, under GET and under the HEAD route the
      framework derives from it.
    - Observation and processes: gauges count what is in flight, labels stay
      in fixed finite sets, every operation is on a declared metric with its
      labels, scrapes share a collection; start-up and shutdown open and
      release resources in order and once, and a signal during start-up
      leaves nothing open.

    ** How the code is modelled

    Between two [await]s JavaScript runs without interference, so each
    synchronous piece is one function.  Where many activations share an
    object, the pieces are the steps of a relation and the theorems hold for
    every interleaving (runs of the relation, by induction).  Where one
    activation is followed through its awaits, whatever happens meanwhile is
    an arbitrary function on the rest of the state ([yield], [elapse], the
    providers, the consumer).  Thrown values are the [Err] side of [result].

    Times and other non-integral doubles are rationals: rounding of
    floating-point arithmetic is not modelled, except where text is read as a
    number.  For the token bucket this matters at the boundary: the script's
    doubles can decide a level within a rounding error of a whole token the
    other way, so no theorem speaks of the wait a denial advertises.  Integers are [Z]; where the code validates their range the
    constructors are modelled with their checks.  Text is a sequence of bytes
    in UTF-8; lengths in UTF-16 units are computed from it.

    Recursion is structural except in three places that carry fuel: the loop
    of the worker, which runs until it is stopped and is followed for any
    number of rounds ([WorkerLoop.rounds_end]: one round more than it takes
    to be stopped is enough), the JSON parser, whose fuel of twice the length of the text plus one is proved
    sufficient ([JsonParse.value_fuel]: more fuel changes nothing), and the
    skipping of white space, whose fuel is the length of the text
    ([Utf8.skip_white_fuel]).

    Third-party code is a parameter with its documented behaviour as
    hypotheses: the Redis commands ([RedisLaws] and [RedisStringsLaws], each
    with a concrete server), the SHA-256 function and [randomUUID] (a fresh
    identifier), the URL parser, the JSON-schema validator, the network
    behind [fetch], the RabbitMQ broker (an at-least-once queue, as the code
    declares it), the metric library ([Registry.library], with a concrete
    registry), the web server's listeners (closed for good once told to
    close), PostgreSQL (statements are atomic and locked rows are
    skipped; a statement may be refused, as for a JSON text the column does
    not accept, or its reply lost), and the web framework's option to derive a
    HEAD route from every GET route.

    ** What is not modelled

    Log output; the metric library's text format; the web framework's
    matching of paths, header parsing and serialisation; the connection
    options of clients and the listeners that only log.  [Streaming] follows
    requests that nothing disturbs; what disturbances do is shown layer by
    layer ([ChatRoute], [Router], [Adapters], [Signals]).  Planned next: the
    same composition for requests that are cancelled on the way. *)

From stdpp Require Export base tactics list gmap strings pretty relations.
From Stdlib Require Export ZArith QArith Qround Qminmax Lqa Lia.

(** stdpp opens [Qc]-flavoured scopes; the development uses plain [Z], [Q] and
    [nat] with explicit delimiters where needed. *)
#[global] Open Scope Z_scope.

(** ** Results: the value returned or the exception thrown *)

Inductive result (E A : Type) : Type :=
| Err (e : E)
| Ok (a : A).
Arguments Err {E A} e.
Arguments Ok {E A} a.

#[global] Instance result_mret {E} : MRet (result E) := fun _ a => Ok a.
#[global] Instance result_mbind {E} : MBind (result E) :=
  fun _ _ k m => match m with Err e => Err e | Ok a => k a end.
#[global] Instance result_fmap {E} : FMap (result E) :=
  fun _ _ f m => match m with Err e => Err e | Ok a => Ok (f a) end.

(** [guard_or b e] is the early exit [if (!b) throw e]. *)
Definition guard_or {E} (b : bool) (e : E) : result E () :=
  if b then Ok () else Err e.

Definition is_Ok {E A} (r : result E A) : bool :=
  match r with Ok _ => true | Err _ => false end.

(** Boolean [is_Some], which computes on concrete scenarios. *)
Definition defined {A} (o : option A) : bool :=
  match o with Some _ => true | None => false end.

Definition is_Err {E A} (r : result E A) : bool := negb (is_Ok r).

#[global] Instance result_eq_dec {E A} `{EqDecision E, EqDecision A} :
  EqDecision (result E A).
Proof. solve_decision. Defined.

(** Leibniz equality of rationals is decidable (numerator and denominator). *)
#[global] Instance Q_eq_decision : EqDecision Q.
Proof. solve_decision. Defined.

(** ** Rationals: the numbers JavaScript keeps as doubles *)

Declare Scope js_scope.
Delimit Scope js_scope with js.

Definition Qltb (a b : Q) : bool := negb (Qle_bool b a).

Notation "a <=q b" := (Qle_bool a b) (at level 70) : js_scope.
Notation "a <q b" := (Qltb a b) (at level 70) : js_scope.
#[global] Open Scope js_scope.

(** [Math.max], [Math.min] on finite numbers. *)
Definition Qmaxb (a b : Q) : Q := if a <=q b then b else a.
Definition Qminb (a b : Q) : Q := if a <=q b then a else b.

Lemma Qltb_true a b : (a <q b) = true <-> (a < b)%Q.
Proof.
  unfold Qltb. rewrite negb_true_iff. split; intros H.
  - apply Qnot_le_lt. intros H'. apply Qle_bool_iff in H'. congruence.
  - destruct (Qle_bool b a) eqn:E; [|done].
    apply Qle_bool_iff in E. lra.
Qed.

Lemma Qltb_false a b : (a <q b) = false <-> (b <= a)%Q.
Proof.
  unfold Qltb. rewrite negb_false_iff. apply Qle_bool_iff.
Qed.

Lemma Qleb_false a b : (a <=q b) = false <-> (b < a)%Q.
Proof.
  rewrite <- Qltb_true. unfold Qltb. by rewrite negb_true_iff.
Qed.

(** Turn boolean comparisons of [Z], [nat] and [Q] in the context into
    propositions, so that [lia] and [lra] see them. *)
Create Rewrite HintDb js_bool.
Create HintDb modelmux.
#[export] Hint Rewrite
  @Qltb_true @Qltb_false @Qleb_false @Qle_bool_iff
  Z.ltb_lt Z.ltb_ge Z.leb_le Z.leb_gt Z.eqb_eq Z.eqb_neq Z.gtb_lt Z.geb_le
  Nat.ltb_lt Nat.ltb_ge Nat.leb_le Nat.leb_gt Nat.eqb_eq Nat.eqb_neq
  andb_true_iff orb_true_iff orb_false_iff negb_true_iff negb_false_iff
  String.eqb_eq String.eqb_neq bool_decide_eq_true bool_decide_eq_false
  : js_bool.

Ltac to_prop := autorewrite with js_bool in *.

(** [split_ifs]: case analysis on every [if] and [match] scrutinee in sight,
    remembering the equation. *)
Ltac split_if :=
  match goal with
  | |- context [if ?b then _ else _] => destruct b eqn:?
  | H : context [if ?b then _ else _] |- _ => destruct b eqn:?
  end.
Ltac split_match :=
  match goal with
  | |- context [match ?x with _ => _ end] => destruct x eqn:?
  | H : context [match ?x with _ => _ end] |- _ => destruct x eqn:?
  end.
Ltac split_ifs := repeat (split_if; simplify_eq/=; try done).
Ltac split_matches := repeat (split_match; simplify_eq/=; try done).

Lemma Qmaxb_spec a b :
  (a <= Qmaxb a b)%Q /\ (b <= Qmaxb a b)%Q /\ (Qmaxb a b = a \/ Qmaxb a b = b).
Proof.
  unfold Qmaxb. destruct (a <=q b) eqn:E; to_prop; repeat split; auto; lra.
Qed.

Lemma Qminb_spec a b :
  (Qminb a b <= a)%Q /\ (Qminb a b <= b)%Q /\ (Qminb a b = a \/ Qminb a b = b).
Proof.
  unfold Qminb. destruct (a <=q b) eqn:E; to_prop; repeat split; auto; lra.
Qed.

(** [q_cases]: replace every [Qmaxb]/[Qminb] by its two cases and finish with
    linear arithmetic. *)
Ltac q_minmax :=
  repeat match goal with
  | |- context [Qmaxb ?a ?b] =>
      let H := fresh "Hmax" in
      destruct (Qmaxb_spec a b) as (? & ? & H); generalize dependent (Qmaxb a b); intros
  | |- context [Qminb ?a ?b] =>
      let H := fresh "Hmin" in
      destruct (Qminb_spec a b) as (? & ? & H); generalize dependent (Qminb a b); intros
  | H0 : context [Qmaxb ?a ?b] |- _ =>
      let H := fresh "Hmax" in
      destruct (Qmaxb_spec a b) as (? & ? & H); generalize dependent (Qmaxb a b); intros
  | H0 : context [Qminb ?a ?b] |- _ =>
      let H := fresh "Hmin" in
      destruct (Qminb_spec a b) as (? & ? & H); generalize dependent (Qminb a b); intros
  end.
Ltac q_cases :=
  q_minmax; repeat match goal with H : _ \/ _ |- _ => destruct H end; subst; to_prop; try lra.

(** ** Labelled runs of a step relation *)

Section Runs.
  Context {S L : Type} (step : S -> L -> S -> Prop).

Inductive run : S -> list L -> S -> Prop :=
| run_nil s : run s [] s
| run_cons s l s' ls s'' : step s l s' -> run s' ls s'' -> run s (l :: ls) s''.

Lemma run_app s ls s' ls' s'' :
  run s ls s' -> run s' ls' s'' -> run s (ls ++ ls') s''.
Proof. induction 1; simpl; eauto using run. Qed.

Lemma run_app_inv s ls ls' s'' :
  run s (ls ++ ls') s'' -> exists s', run s ls s' /\ run s' ls' s''.
Proof.
  revert s. induction ls as [|l ls IH]; simpl; intros s H.
  - eauto using run.
  - inversion H; subst. destruct (IH _ H5) as (s1 & ? & ?). eauto using run.
Qed.

(** An invariant preserved by every step holds along every run. *)
Lemma run_invariant (I : S -> Prop) s ls s' :
  (forall s l s', I s -> step s l s' -> I s') ->
  run s ls s' -> I s -> I s'.
Proof. intros Hstep. induction 1; eauto. Qed.

(** A relation that every step establishes and that composes holds across
    every run. *)
Lemma run_relation (I : S -> Prop) (R : S -> S -> Prop) s ls s' :
  (forall s, R s s) -> (forall a b c, R a b -> R b c -> R a c) ->
  (forall s l s', I s -> step s l s' -> I s' /\ R s s') ->
  run s ls s' -> I s -> R s s'.
Proof.
  intros Hr Ht Hstep. induction 1 as [|s0 l s1 ls s2 Hs _ IH]; intros HI; [done|].
  destruct (Hstep _ _ _ HI Hs). eauto.
Qed.

(** An executable version of the relation, for concrete scenarios. *)
Fixpoint exec_run (exec : S -> L -> option S) (s : S) (ls : list L) : option S :=
  match ls with
  | [] => Some s
  | l :: ls' => exec s l ≫= fun s' => exec_run exec s' ls'
  end.

Lemma exec_run_sound exec :
  (forall s l s', exec s l = Some s' -> step s l s') ->
  forall ls s s', exec_run exec s ls = Some s' -> run s ls s'.
Proof.
  intros Hex. induction ls as [|l ls IH]; intros s s'; simpl.
  - intros [= ->]. constructor.
  - intros (s1 & Hs & Hr)%bind_Some. econstructor; eauto.
Qed.
End Runs.

#[export] Hint Constructors run : modelmux.

(** ** Lists *)

(** Array.prototype.indexOf-and-splice of the unique element satisfying [P]:
    [None] when there is none. *)
Section RemoveFirst.
  Context {A : Type} (P : A -> bool).

Fixpoint remove_first (l : list A) : option (A * list A) :=
  match l with
  | [] => None
  | x :: l' =>
      if P x then Some (x, l')
      else match remove_first l' with
           | Some (y, r) => Some (y, x :: r)
           | None => None
           end
  end.

Lemma remove_first_Some l x r :
  remove_first l = Some (x, r) ->
  exists l1 l2, l = l1 ++ x :: l2 /\ r = l1 ++ l2 /\ P x = true /\
    Forall (fun y => P y = false) l1.
Proof.
  revert x r. induction l as [|a l IH]; simpl; intros x r H; [done|].
  destruct (P a) eqn:Ha; simplify_eq.
  - exists [], r. auto.
  - destruct (remove_first l) as [[y r']|]; simplify_eq.
    destruct (IH x r') as (l1 & l2 & -> & -> & HP & HF); [done|].
    exists (a :: l1), l2. auto.
Qed.

Lemma remove_first_None l :
  remove_first l = None <-> Forall (fun y => P y = false) l.
Proof.
  induction l as [|a l IH]; simpl; [by split|].
  destruct (P a) eqn:Ha.
  - split; [done|]. intros H. inversion H. congruence.
  - destruct (remove_first l) as [[y r]|]; split; intros H; try done.
    + inversion H; subst. destruct IH as [_ IH]. by discriminate IH.
    + constructor; [done|]. by apply IH.
Qed.

Lemma remove_first_length l x r :
  remove_first l = Some (x, r) -> length l = S (length r).
Proof.
  intros (l1 & l2 & -> & -> & _)%remove_first_Some.
  rewrite !length_app. simpl. lia.
Qed.
End RemoveFirst.

(** ** Counting the values of a finite map *)

Section MapCount.
  Context {K A : Type} `{Countable K}.
  Implicit Types (P : A -> bool) (m : gmap K A).

Definition map_count P m : nat := size (filter (fun p => P p.2 = true) m).

Lemma map_count_fresh P m i x :
  m !! i = None -> map_count P (<[i := x]> m) = ((if P x then 1 else 0) + map_count P m)%nat.
Proof.
  intros Hi. unfold map_count. destruct (P x) eqn:Hx.
  - rewrite map_filter_insert_True by done.
    rewrite map_size_insert_None; [done|]. apply map_lookup_filter_None. auto.
  - rewrite map_filter_insert_False by (simpl; congruence).
    by rewrite delete_id.
Qed.

Lemma map_count_replace P m i x y :
  m !! i = Some y ->
  ((if P y then 1 else 0) + map_count P (<[i := x]> m) =
   (if P x then 1 else 0) + map_count P m)%nat.
Proof.
  intros Hi. rewrite <- insert_delete_eq.
  rewrite map_count_fresh by apply lookup_delete_eq.
  rewrite <- (insert_id m i y Hi) at 2. rewrite <- (insert_delete_eq m).
  rewrite map_count_fresh by apply lookup_delete_eq. lia.
Qed.

Lemma map_count_empty P : map_count P ∅ = 0%nat.
Proof. unfold map_count. by rewrite map_filter_empty. Qed.

Lemma map_count_zero P m :
  (forall i x, m !! i = Some x -> P x = false) -> map_count P m = 0%nat.
Proof.
  intros HP. unfold map_count. apply map_size_empty_iff, map_empty. intros i.
  apply map_lookup_filter_None. right. intros x Hi. simpl. by rewrite (HP i x Hi).
Qed.
End MapCount.
