(* ===== verification/JsNumber.v ===== *)
(** * JavaScript numbers as the validators see them

    Options and environment values reach the code as JavaScript numbers; the
    constructors and parsers accept them through [Number.isInteger],
    [Number.isSafeInteger], [Number.isFinite] and comparisons.  A number is
    one of the three non-finite values or a finite value, kept as a
    rational (signed zeros are not distinguished: no test in the sources
    does). *)

From S2P Require Import Prelude.

Module JsNumber.

Inductive number : Type :=
| NaN
| PosInfinity
| NegInfinity
| Num (q : Q).

Definition of_Z (z : Z) : number := Num (inject_Z z).

(** [Number.isFinite] *)
Definition isFinite (n : number) : bool :=
  match n with Num _ => true | _ => false end.

(** [Number.isInteger] *)
Definition isInteger (n : number) : bool :=
  match n with Num q => Qeq_bool q (inject_Z (Qfloor q)) | _ => false end.

(** Number.MAX_SAFE_INTEGER *)
Definition MAX_SAFE_INTEGER : Z := 9007199254740991.

(** [Number.isSafeInteger] *)
Definition isSafeInteger (n : number) : bool :=
  match n with
  | Num q => isInteger n && (inject_Z (- MAX_SAFE_INTEGER) <=q q)
             && (q <=q inject_Z MAX_SAFE_INTEGER)
  | _ => false
  end.

(** [a < b]: every comparison with [NaN] is false. *)
Definition ltb (a b : number) : bool :=
  match a, b with
  | NaN, _ | _, NaN => false
  | NegInfinity, NegInfinity => false
  | NegInfinity, _ => true
  | _, NegInfinity => false
  | PosInfinity, _ => false
  | _, PosInfinity => true
  | Num p, Num q => p <q q
  end.

(** [a <= b] *)
Definition leb (a b : number) : bool :=
  match a, b with
  | NaN, _ | _, NaN => false
  | NegInfinity, _ => true
  | _, NegInfinity => false
  | _, PosInfinity => true
  | PosInfinity, _ => false
  | Num p, Num q => p <=q q
  end.

(** The integer denoted by a number that passed [isInteger]. *)
Definition toZ (n : number) : Z :=
  match n with Num q => Qfloor q | _ => 0 end.

(** The value of a number that passed [isFinite]. *)
Definition toQ (n : number) : Q :=
  match n with Num q => q | _ => 0%Q end.

Lemma isInteger_toZ n :
  isInteger n = true -> exists q, n = Num q /\ (q == inject_Z (toZ n))%Q.
Proof.
  destruct n; simpl; try done. intros H%Qeq_bool_iff. eauto.
Qed.

Lemma isSafeInteger_isInteger n : isSafeInteger n = true -> isInteger n = true.
Proof. destruct n; simpl; try done. rewrite !andb_true_iff. tauto. Qed.

Lemma of_Z_isInteger z : isInteger (of_Z z) = true.
Proof. unfold of_Z, isInteger. rewrite Qfloor_Z. apply Qeq_bool_refl. Qed.

Lemma of_Z_toZ z : toZ (of_Z z) = z.
Proof. apply Qfloor_Z. Qed.

(** The comparisons of an integral number with a literal are comparisons of
    the integers. *)
Lemma ltb_integer n z :
  isInteger n = true -> ltb n (of_Z z) = (toZ n <? z).
Proof.
  intros (q & -> & Hq)%isInteger_toZ. unfold of_Z, toZ, ltb in *.
  destruct (Z.ltb_spec (Qfloor q) z) as [H|H].
  - apply Qltb_true. rewrite Hq, <- Zlt_Qlt. done.
  - apply Qltb_false. rewrite Hq, <- Zle_Qle. done.
Qed.

Lemma gtb_integer n z :
  isInteger n = true -> ltb (of_Z z) n = (z <? toZ n).
Proof.
  intros (q & -> & Hq)%isInteger_toZ. unfold of_Z, toZ, ltb in *.
  destruct (Z.ltb_spec z (Qfloor q)) as [H|H].
  - apply Qltb_true. rewrite Hq, <- Zlt_Qlt. done.
  - apply Qltb_false. rewrite Hq, <- Zle_Qle. done.
Qed.

Lemma leb_integer n z :
  isInteger n = true -> leb n (of_Z z) = (toZ n <=? z).
Proof.
  intros (q & -> & Hq)%isInteger_toZ. unfold of_Z, toZ, leb in *.
  destruct (Z.leb_spec (Qfloor q) z) as [H|H].
  - apply Qle_bool_iff. rewrite Hq, <- Zle_Qle. done.
  - apply Qleb_false. rewrite Hq, <- Zlt_Qlt. done.
Qed.

Lemma of_Z_isSafeInteger z :
  - MAX_SAFE_INTEGER <= z <= MAX_SAFE_INTEGER -> isSafeInteger (of_Z z) = true.
Proof.
  intros [H1 H2]. pose proof (of_Z_isInteger z) as Hi. unfold isSafeInteger, of_Z in *.
  rewrite Hi. apply andb_true_iff. split; [|by apply Qle_bool_iff; rewrite <- Zle_Qle].
  by apply Qle_bool_iff; rewrite <- Zle_Qle.
Qed.

Lemma isSafeInteger_bound n :
  isSafeInteger n = true -> - MAX_SAFE_INTEGER <= toZ n <= MAX_SAFE_INTEGER.
Proof.
  intros H. pose proof (isSafeInteger_isInteger _ H) as Hi.
  apply isInteger_toZ in Hi as (q & -> & Hq). unfold isSafeInteger, toZ in *. to_prop.
  destruct H as [[_ H1] H2]. rewrite Hq in H1, H2.
  rewrite <- Zle_Qle in H1, H2. done.
Qed.

End JsNumber.
