(* ===== verification/JsString.v ===== *)
(** * JavaScript string operations

    What the sources use of strings in request headers: white space, case,
    [trim], [split] and the anchored prefixes of their regular expressions.
    A header value is a string of Latin-1 characters, as Node delivers it. *)

From Stdlib Require Import Ascii.
From S2P Require Import Prelude.

Module JsString.

(** The characters below 256 that [\s] matches and [trim] removes. *)
Definition is_space (c : ascii) : bool :=
  let n := nat_of_ascii c in
  (9 <=? n)%nat && (n <=? 13)%nat || (n =? 32)%nat || (n =? 160)%nat.

(** [toLowerCase] of one Latin-1 character. *)
Definition lower (c : ascii) : ascii :=
  let n := nat_of_ascii c in
  if ((65 <=? n)%nat && (n <=? 90)%nat)
     || ((192 <=? n)%nat && (n <=? 222)%nat && negb (n =? 215)%nat)
  then ascii_of_nat (n + 32) else c.

Fixpoint toLowerCase (s : string) : string :=
  match s with
  | EmptyString => EmptyString
  | String c s' => String (lower c) (toLowerCase s')
  end.

(** Strip a prefix, ignoring case. *)
Fixpoint strip_prefix (p s : string) : option string :=
  match p, s with
  | EmptyString, _ => Some s
  | String c p', String d s' => if Ascii.eqb (lower c) (lower d) then strip_prefix p' s' else None
  | _, EmptyString => None
  end.

Fixpoint skip_spaces (s : string) : string :=
  match s with
  | String c s' => if is_space c then skip_spaces s' else s
  | EmptyString => EmptyString
  end.

Fixpoint no_space (s : string) : bool :=
  match s with
  | EmptyString => true
  | String c s' => negb (is_space c) && no_space s'
  end.

(** Only white space follows. *)
Fixpoint all_space (s : string) : bool :=
  match s with
  | EmptyString => true
  | String c s' => is_space c && all_space s'
  end.

Fixpoint trim_end (s : string) : string :=
  match s with
  | EmptyString => EmptyString
  | String c s' => if all_space s then EmptyString else String c (trim_end s')
  end.

Definition trim (s : string) : string := trim_end (skip_spaces s).

(** [s.split(sep)] for a one-character separator. *)
Fixpoint split (sep : ascii) (s : string) : list string :=
  match s with
  | EmptyString => [EmptyString]
  | String c s' =>
      if Ascii.eqb c sep then EmptyString :: split sep s'
      else match split sep s' with
           | x :: l => String c x :: l
           | [] => [String c EmptyString]
           end
  end.

Lemma skip_spaces_token s : no_space s = true -> skip_spaces s = s.
Proof. destruct s as [|c s]; simpl; [done|]. intros [H _]%andb_true_iff. by destruct (is_space c). Qed.

Lemma skip_spaces_app sp s :
  Forall (fun c => is_space c = true) (String.list_ascii_of_string sp) ->
  skip_spaces (sp +:+ s) = skip_spaces s.
Proof.
  induction sp as [|c sp IH]; simpl; [done|]. intros H. inversion H as [|? ? Hc Hl]; subst.
  rewrite Hc. by apply IH.
Qed.

Lemma strip_prefix_Some p s s' :
  strip_prefix p s = Some s' ->
  exists q, s = q +:+ s' /\ strip_prefix p q = Some EmptyString.
Proof.
  revert s. induction p as [|c p IH]; intros s; simpl.
  - intros [= ->]. by exists EmptyString.
  - destruct s as [|d s]; [done|]. destruct (Ascii.eqb _ _) eqn:E; [|done].
    intros (q & -> & Hq)%IH. exists (String d q). simpl. by rewrite E.
Qed.

Lemma strip_prefix_app p q s :
  strip_prefix p q = Some EmptyString -> strip_prefix p (q +:+ s) = Some s.
Proof.
  revert q. induction p as [|c p IH]; intros q; simpl.
  - by intros [= ->].
  - destruct q as [|d q]; [done|]. simpl. destruct (Ascii.eqb _ _); [|done]. apply IH.
Qed.

Lemma skip_spaces_split s :
  exists sp, s = sp +:+ skip_spaces s /\
    Forall (fun c => is_space c = true) (String.list_ascii_of_string sp).
Proof.
  induction s as [|c s (sp & Hs & Hf)]; simpl; [by exists EmptyString|].
  destruct (is_space c) eqn:E; [|by exists EmptyString].
  exists (String c sp). simpl. split; [exact (f_equal (String c) Hs)|]. by constructor.
Qed.

End JsString.
