(* ===== verification/Utf8.v ===== *)
(** * UTF-8: decoding, lengths and white space

    JavaScript strings are kept as their UTF-8 text, byte by byte (a lone
    surrogate, which only an escape can produce, is kept in the three-byte
    form of its code unit).  This file has what the sources use of
    [TextDecoder]: the fatal decoder, whole and streaming, with its byte-order
    mark; the replacing decoder behind [response.json()]; and, on decoded
    text, [length] in UTF-16 units, [slice] and [trim]. *)

From Stdlib Require Import Ascii.
From S2P Require Import Prelude.

Module Utf8.

Abbreviation text := (list ascii).
Abbreviation byte := nat_of_ascii.

Definition between (lo hi : nat) (c : ascii) : bool := (lo <=? byte c)%nat && (byte c <=? hi)%nat.

(** ** The decoder of the Encoding Standard *)

(** A sequence begun: how many bytes are missing, the range of the next one,
    and the bytes seen. *)
Record partial : Type := mkPartial { need : nat; lower : nat; upper : nat; seen : text }.

Definition fresh : partial := mkPartial 0 128 191 [].

(** What one byte does: more bytes are needed, a character is complete, or
    the sequence is malformed, and then the byte may start another one. *)
Inductive progress : Type :=
| More (p : partial)
| Character (c : text)
| Malformed (again : bool).

Definition lead (b : ascii) : progress :=
  if between 0 127 b then Character [b]
  else if between 194 223 b then More (mkPartial 1 128 191 [b])
  else if between 224 224 b then More (mkPartial 2 160 191 [b])
  else if between 237 237 b then More (mkPartial 2 128 159 [b])
  else if between 225 239 b then More (mkPartial 2 128 191 [b])
  else if between 240 240 b then More (mkPartial 3 144 191 [b])
  else if between 241 243 b then More (mkPartial 3 128 191 [b])
  else if between 244 244 b then More (mkPartial 3 128 143 [b])
  else Malformed false.

Definition feed (p : partial) (b : ascii) : progress :=
  match need p with
  | O => lead b
  | S n =>
      if between (lower p) (upper p) b then
        match n with
        | O => Character (seen p ++ [b])
        | _ => More (mkPartial n 128 191 (seen p ++ [b]))
        end
      else Malformed true
  end.

(** ** [new TextDecoder("utf-8", { fatal: true })] *)

(** The decoder's state: the unfinished sequence, and whether the first
    character, dropped when it is a byte-order mark, has been seen. *)
Record decoder : Type := mkDecoder { partial_of : partial; bom_seen : bool }.

Definition new_decoder : decoder := mkDecoder fresh false.

Definition BOM : text := [ascii_of_nat 239; ascii_of_nat 187; ascii_of_nat 191].

Definition emit (d : decoder) (c : text) : text :=
  if bom_seen d then c else if bool_decide (c = BOM) then [] else c.

(** [decoder.decode(bytes, { stream: true })]; [None] when it throws. *)
Fixpoint decode_stream (d : decoder) (bytes : text) : option (decoder * text) :=
  match bytes with
  | [] => Some (d, [])
  | b :: rest =>
      match feed (partial_of d) b with
      | More p => decode_stream (mkDecoder p (bom_seen d)) rest
      | Character c =>
          '(d', t) ← decode_stream (mkDecoder fresh true) rest; Some (d', emit d c ++ t)
      | Malformed _ => None
      end
  end.

(** [decoder.decode()]: an unfinished sequence is malformed. *)
Definition decode_flush (d : decoder) : option text :=
  match need (partial_of d) with O => Some [] | _ => None end.

(** [new TextDecoder("utf-8", { fatal: true }).decode(bytes)] *)
Definition decode_fatal (bytes : text) : option text :=
  '(d, t) ← decode_stream new_decoder bytes;
  _ ← decode_flush d;
  Some t.

(** ** The decoder of [response.json()]: malformed sequences are replaced *)

Definition REPLACEMENT : text := [ascii_of_nat 239; ascii_of_nat 191; ascii_of_nat 189].

Fixpoint decode_lossy (d : decoder) (bytes : text) : text :=
  match bytes with
  | [] => match need (partial_of d) with O => [] | _ => emit d REPLACEMENT end
  | b :: rest =>
      let resume d :=
        match feed (partial_of d) b with
        | More p => decode_lossy (mkDecoder p (bom_seen d)) rest
        | Character c => emit d c ++ decode_lossy (mkDecoder fresh true) rest
        | Malformed _ => emit d REPLACEMENT ++ decode_lossy (mkDecoder fresh true) rest
        end in
      match feed (partial_of d) b with
      | Malformed true => emit d REPLACEMENT ++ resume (mkDecoder fresh true)
      | _ => resume d
      end
  end.

(** ** Decoded text *)

(** The UTF-16 code units a byte accounts for: one per character, two for a
    character outside the basic plane, none for continuation bytes. *)
Definition units (c : ascii) : nat :=
  if between 128 191 c then 0 else if between 240 255 c then 2 else 1.

(** [text.length] *)
Definition length16 (t : text) : nat := foldr (fun c n => (units c + n)%nat) 0%nat t.

(** The white space of [trim] and [Number], by its UTF-8 text. *)
Definition strip_space (t : text) : option text :=
  match t with
  | a :: b :: c :: r =>
      if between 9 13 a || between 32 32 a then Some (b :: c :: r)
      else if between 194 194 a && between 160 160 b then Some (c :: r)
      else if between 225 225 a && between 154 154 b && between 128 128 c then Some r
      else if between 226 226 a && between 128 128 b
              && (between 128 138 c || between 168 169 c || between 175 175 c) then Some r
      else if between 226 226 a && between 129 129 b && between 159 159 c then Some r
      else if between 227 227 a && between 128 128 b && between 128 128 c then Some r
      else if between 239 239 a && between 187 187 b && between 191 191 c then Some r
      else None
  | [a; b] =>
      if between 9 13 a || between 32 32 a then Some [b]
      else if between 194 194 a && between 160 160 b then Some [] else None
  | [a] => if between 9 13 a || between 32 32 a then Some [] else None
  | [] => None
  end.

(** Drop leading white space.  At most [length t] characters are dropped, so
    that fuel is enough. *)
Fixpoint skip_white (fuel : nat) (t : text) : text :=
  match fuel with
  | O => t
  | S n => match strip_space t with Some r => skip_white n r | None => t end
  end.

Definition trim_start (t : text) : text := skip_white (length t) t.

(** Only white space is left. *)
Definition blank (t : text) : bool := match trim_start t with [] => true | _ => false end.

(** Cut where only white space follows. *)
Fixpoint trim_end (t : text) : text :=
  match t with
  | [] => []
  | c :: r => if blank t then [] else c :: trim_end r
  end.

(** [text.trim()] *)
Definition trim (t : text) : text := trim_end (trim_start t).

(** ** Lemmas *)

(** Decoding in pieces is decoding the whole. *)
Lemma decode_stream_app d a b :
  decode_stream d (a ++ b) =
    ('(d1, t1) ← decode_stream d a; '(d2, t2) ← decode_stream d1 b; Some (d2, t1 ++ t2)).
Proof.
  revert d. induction a as [|c a IH]; intros d; simpl.
  - destruct (decode_stream d b) as [[d2 t2]|]; done.
  - destruct (feed (partial_of d) c) as [p|x|]; [apply IH| |done].
    rewrite IH. destruct (decode_stream _ a) as [[d1 t1]|]; simpl; [|done].
    destruct (decode_stream d1 b) as [[d2 t2]|]; simpl; [|done]. by rewrite app_assoc.
Qed.

(** ASCII text decodes to itself. *)
Definition is_ascii (c : ascii) : bool := between 0 127 c.

Lemma lead_ascii c : is_ascii c = true -> lead c = Character [c].
Proof. unfold lead, is_ascii. by intros ->. Qed.

Lemma emit_ascii d c : is_ascii c = true -> emit d [c] = [c].
Proof. intros H. unfold emit. destruct (bom_seen d); [done|]. by rewrite bool_decide_false. Qed.

(** The states between two characters and inside one. *)
Definition partial_ok (p : partial) : Prop :=
  (need p = 0%nat -> p = fresh) /\ (128 <= lower p)%nat.

Lemma fresh_ok : partial_ok fresh.
Proof. split; simpl; [done|lia]. Qed.

Lemma lead_ok b :
  match lead b with
  | More p => partial_ok p /\ seen p = [b] /\ is_ascii b = false
  | Character c => c = [b] /\ is_ascii b = true
  | Malformed _ => is_ascii b = false
  end.
Proof.
  unfold lead, is_ascii. destruct (between 0 127 b); [done|].
  repeat case_match; simplify_eq; try done; (split; [|done]); split; simpl; (done || lia).
Qed.

Lemma feed_ok p b :
  partial_ok p ->
  match feed p b with
  | More p' => partial_ok p' /\ seen p' = seen p ++ [b] /\ is_ascii b = false
  | Character c => c = seen p ++ [b] /\ (need p = 0%nat <-> is_ascii b = true)
  | Malformed _ => True
  end.
Proof.
  intros [Hf Hl]. unfold feed. destruct (need p) as [|n] eqn:Hn.
  - rewrite Hf by done. pose proof (lead_ok b) as H. destruct (lead b); try done. naive_solver.
  - destruct (between (lower p) (upper p) b) eqn:Hb; [|done].
    assert (is_ascii b = false) as Ha.
    { unfold is_ascii, between in *. rewrite andb_true_iff in Hb. destruct Hb as [Hb%Nat.leb_le _].
      apply andb_false_iff. right. apply Nat.leb_gt. lia. }
    destruct n; [by rewrite Ha|]. split; [|done]. split; simpl; [done|lia].
Qed.

(** Decoding keeps the bytes: what comes out and what is held back is what
    went in. *)
Lemma decode_stream_conserves d bytes d' t :
  partial_ok (partial_of d) -> bom_seen d = true -> decode_stream d bytes = Some (d', t) ->
  seen (partial_of d) ++ bytes = t ++ seen (partial_of d') /\ partial_ok (partial_of d').
Proof.
  revert d t. induction bytes as [|b bytes IH]; intros d t Hok Hb H; simpl in H.
  - injection H as <- <-. by rewrite app_nil_r.
  - pose proof (feed_ok _ b Hok) as Hf. destruct (feed (partial_of d) b) as [p|c|]; [| |done].
    + destruct Hf as (Hp & Hs & _). apply IH in H; [|done|done]. simpl in H.
      by rewrite Hs, <- app_assoc in H.
    + destruct Hf as [-> _]. apply bind_Some in H as ([d1 t1] & H & [= <- <-]).
      apply IH in H as [H Hp]; [|apply fresh_ok|done]. split; [|done].
      unfold emit. rewrite Hb, <- !app_assoc. simpl in *. by rewrite <- H.
Qed.

(** Well-formed UTF-8. *)
Definition inside : decoder := mkDecoder fresh true.
Definition well_formed (t : text) : bool :=
  match decode_stream inside t with
  | Some (d, _) => (need (partial_of d) =? 0)%nat
  | None => false
  end.

Lemma well_formed_decodes t :
  well_formed t = true <-> decode_stream inside t = Some (inside, t).
Proof.
  unfold well_formed. split; [|by intros ->].
  destruct (decode_stream inside t) as [[d t']|] eqn:E; [|done]. intros Hn%Nat.eqb_eq.
  assert (bom_seen d = true) as Hb.
  { assert (forall d0 b d1 t0, bom_seen d0 = true -> decode_stream d0 b = Some (d1, t0) ->
      bom_seen d1 = true) as Hk.
    { clear. intros d0 b. revert d0. induction b as [|x b IH]; intros d0 d1 t0 Hb H; simpl in H.
      - by injection H as <- _.
      - destruct (feed _ x); [by eapply IH, H| |done].
        apply bind_Some in H as ([d2 t2] & H & [= <- _]). by eapply IH, H. }
    by eapply Hk, E. }
  apply decode_stream_conserves in E as [E [Hf _]]; [|apply fresh_ok|done].
  specialize (Hf Hn). destruct d as [p b]. simpl in *. subst p b. simpl in E. rewrite app_nil_r in E.
  by subst t'.
Qed.

Lemma well_formed_ascii t : Forall (fun c => is_ascii c = true) t -> well_formed t = true.
Proof.
  intros H. apply well_formed_decodes. induction H as [|c t Hc _ IH]; [done|].
  simpl. rewrite lead_ascii by done. change (mkDecoder fresh true) with inside. by rewrite IH.
Qed.

Lemma well_formed_app a b : well_formed a = true -> well_formed b = true -> well_formed (a ++ b) = true.
Proof.
  intros Ha%well_formed_decodes Hb%well_formed_decodes. apply well_formed_decodes.
  rewrite decode_stream_app, Ha. simpl. by rewrite Hb.
Qed.

Lemma well_formed_cons c t : is_ascii c = true -> well_formed t = true -> well_formed (c :: t) = true.
Proof.
  intros Hc Ht. apply (well_formed_app [c]); [|done]. apply well_formed_ascii. by constructor.
Qed.

(** Text that begins with an ASCII character has no byte-order mark to lose. *)
Lemma decode_fatal_text c t :
  is_ascii c = true -> well_formed t = true -> decode_fatal (c :: t) = Some (c :: t).
Proof.
  intros Hc Ht%well_formed_decodes. unfold decode_fatal. cbn [decode_stream].
  unfold feed. cbn [partial_of new_decoder need fresh]. rewrite lead_ascii by done.
  change (mkDecoder fresh true) with inside. rewrite Ht. cbn [mbind option_bind].
  by rewrite emit_ascii.
Qed.

Lemma length16_app a b : length16 (a ++ b) = (length16 a + length16 b)%nat.
Proof. induction a; simpl; lia. Qed.

Lemma strip_space_shorter t r : strip_space t = Some r -> (length r < length t)%nat.
Proof. unfold strip_space. intros H. split_matches; simpl; lia. Qed.

(** The fuel of [skip_white] does not matter once it covers the text. *)
Lemma skip_white_fuel n m t :
  (length t <= n)%nat -> (length t <= m)%nat -> skip_white n t = skip_white m t.
Proof.
  revert m t. induction n as [|n IH]; intros [|m] t Hn Hm; simpl; try done.
  - destruct t; [done|simpl in Hn; lia].
  - destruct t; [done|simpl in Hm; lia].
  - destruct (strip_space t) as [r|] eqn:E; [|done].
    apply strip_space_shorter in E. apply IH; lia.
Qed.

Lemma trim_start_step t :
  trim_start t = match strip_space t with Some r => trim_start r | None => t end.
Proof.
  unfold trim_start. destruct t as [|c t]; [done|]. cbn [length skip_white].
  destruct (strip_space (c :: t)) as [r|] eqn:E; [|done].
  apply strip_space_shorter in E. simpl in E. apply skip_white_fuel; lia.
Qed.

End Utf8.
