(* ===== verification/NumberText.v ===== *)
(** * Numbers as text: doubles, decimal literals and [Number(string)]

    Numbers read from text are rounded to doubles (round to nearest, ties to
    even, overflow to infinity), as [JSON.parse] and [Number] do: the
    validators of [src/src/config.ts] accept what the rounded value is.
    Integers up to [2^53] are exact. *)

From Stdlib Require Import Ascii.
From S2P Require Import Prelude JsNumber Utf8.
Import JsNumber Utf8.

Module NumberText.

(** ** Rounding to double precision *)

(** [n / d] rounded to an integer, ties to even. *)
Definition round_half_even (n d : Z) : Z :=
  let q := n / d in
  match (2 * (n mod d)) ?= d with
  | Lt => q
  | Gt => q + 1
  | Eq => if Z.even q then q else q + 1
  end.

(** The exponent of the leading bit of [n / d]. *)
Definition floor_log2 (n d : Z) : Z :=
  let k := Z.log2 n - Z.log2 d in
  if (if 0 <=? k then n <? d * 2 ^ k else n * 2 ^ (- k) <? d) then k - 1 else k.

(** The double nearest to [n / d], for positive [n] and [d]; [sign] is 1 or
    -1. *)
Definition double_of (sign n d : Z) : number :=
  let e := Z.max (-1074) (floor_log2 n d - 52) in
  if 0 <=? e then
    let v := round_half_even n (d * 2 ^ e) * 2 ^ e in
    if 2 ^ 1024 <=? v then (if 0 <? sign then PosInfinity else NegInfinity)
    else of_Z (sign * v)
  else Num (Qred (Qmake (sign * round_half_even (n * 2 ^ (- e)) d) (Z.to_pos (2 ^ (- e))))).

Definition round_double (q : Q) : number :=
  match Qnum q with
  | Z0 => of_Z 0
  | Zpos n => double_of 1 (Zpos n) (Zpos (Qden q))
  | Zneg n => double_of (-1) (Zpos n) (Zpos (Qden q))
  end.

(** ** Decimal literals *)

Definition is_digit (c : ascii) : bool := between 48 57 c.
Definition is_char (n : nat) (c : ascii) : bool := (byte c =? n)%nat.
Definition digit (c : ascii) : Z := Z.of_nat (byte c) - 48.

(** The longest run of digits, and the rest. *)
Fixpoint span_digits (t : text) : text * text :=
  match t with
  | c :: r => if is_digit c then let '(ds, r') := span_digits r in (c :: ds, r') else ([], t)
  | [] => ([], [])
  end.

Definition digits_from (acc : Z) (ds : text) : Z := foldl (fun n c => 10 * n + digit c) acc ds.
Definition digits_value (ds : text) : Z := digits_from 0 ds.

(** [mantissa * 10 ^ exponent] *)
Definition scaled (mantissa exponent : Z) : Q :=
  if 0 <=? exponent then inject_Z (mantissa * 10 ^ exponent)
  else Qmake mantissa (Z.to_pos (10 ^ (- exponent))).

(** An optional exponent; [None] when an exponent mark has no digits. *)
Definition read_exponent (t : text) : option (Z * text) :=
  match t with
  | c :: r =>
      if is_char 101 c || is_char 69 c then
        let '(sign, r1) := match r with
          | s :: r' => if is_char 45 s then (-1, r') else if is_char 43 s then (1, r') else (1, r)
          | [] => (1, r)
          end in
        match span_digits r1 with
        | ([], _) => None
        | (ds, r2) => Some (sign * digits_value ds, r2)
        end
      else Some (0, t)
  | [] => Some (0, t)
  end.

(** The digits after a point, when there is one. *)
Definition read_fraction (t : text) : option text * text :=
  match t with
  | c :: r => if is_char 46 c then let '(ds, r') := span_digits r in (Some ds, r') else (None, t)
  | [] => (None, t)
  end.

(** The value of a literal with the given integer and fraction digits. *)
Definition literal_value (sign : Z) (int frac : text) (exponent : Z) : number :=
  round_double (scaled (sign * digits_value (int ++ frac)) (exponent - Z.of_nat (length frac))).

(** ** [Number(string)] *)

(** The digit of a literal with a radix prefix. *)
Definition radix_digit (radix : Z) (c : ascii) : option Z :=
  let d := if is_digit c then digit c
           else if between 97 102 c then Z.of_nat (byte c) - 87
           else if between 65 70 c then Z.of_nat (byte c) - 55 else 16 in
  if d <? radix then Some d else None.

Fixpoint radix_value (radix acc : Z) (t : text) : option Z :=
  match t with
  | [] => Some acc
  | c :: r => d ← radix_digit radix c; radix_value radix (radix * acc + d) r
  end.

Definition radix_prefix (t : text) : option (Z * text) :=
  match t with
  | z :: x :: r =>
      if is_char 48 z then
        if is_char 120 x || is_char 88 x then Some (16, r)
        else if is_char 111 x || is_char 79 x then Some (8, r)
        else if is_char 98 x || is_char 66 x then Some (2, r)
        else None
      else None
  | _ => None
  end.

Definition ascii_text (s : string) : text := String.list_ascii_of_string s.

(** An unsigned decimal literal: digits with an optional fraction, or a
    fraction alone, with an optional exponent, to the end of the text. *)
Definition decimal_literal (sign : Z) (t : text) : number :=
  if bool_decide (t = ascii_text "Infinity") then (if 0 <? sign then PosInfinity else NegInfinity)
  else
    let '(int, r1) := span_digits t in
    let '(frac, r2) := read_fraction r1 in
    match int, default [] frac with
    | [], [] => NaN
    | _, ds =>
        match read_exponent r2 with
        | Some (e, []) => literal_value sign int ds e
        | _ => NaN
        end
    end.

(** [Number(value)] *)
Definition Number (value : text) : number :=
  match trim value with
  | [] => of_Z 0
  | c :: r =>
      match radix_prefix (c :: r) with
      | Some (radix, ds) =>
          match ds, radix_value radix 0 ds with
          | _ :: _, Some v => round_double (inject_Z v)
          | _, _ => NaN
          end
      | None =>
          if is_char 45 c then decimal_literal (-1) r
          else if is_char 43 c then decimal_literal 1 r
          else decimal_literal 1 (c :: r)
      end
  end.

(** ** Integers are exact *)

Lemma round_half_even_exact n : round_half_even n 1 = n.
Proof. unfold round_half_even. rewrite Z.div_1_r, Z.mod_1_r. done. Qed.

Lemma Qred_inject z : Qred (inject_Z z) = inject_Z z.
Proof.
  unfold Qred, inject_Z. pose proof (Z.ggcd_gcd z 1) as Hg.
  pose proof (Z.ggcd_correct_divisors z 1) as Hd.
  destruct (Z.ggcd z 1) as [g [a b]]. simpl in *. rewrite Z.gcd_1_r in Hg. subst g.
  destruct Hd as [Ha Hb]. rewrite Z.mul_1_l in Ha, Hb. by subst.
Qed.

Lemma floor_log2_Z n : 0 < n -> floor_log2 n 1 = Z.log2 n.
Proof.
  intros Hn. unfold floor_log2. change (Z.log2 1) with 0. rewrite Z.sub_0_r.
  pose proof (Z.log2_nonneg n). pose proof (Z.log2_spec n Hn) as [Hl _].
  rewrite (proj2 (Z.leb_le 0 (Z.log2 n))) by done.
  rewrite (proj2 (Z.ltb_ge n (1 * 2 ^ Z.log2 n))); [done|lia].
Qed.

Lemma double_of_Z sign n :
  0 < n <= 2 ^ 53 -> double_of sign n 1 = of_Z (sign * n).
Proof.
  intros [Hn Hm]. unfold double_of. rewrite floor_log2_Z by done.
  assert (Z.log2 n <= 53) as Hl.
  { change 53 with (Z.log2 (2 ^ 53)). by apply Z.log2_le_mono. }
  pose proof (Z.log2_nonneg n). pose proof (Z.log2_spec n Hn) as [Hlo Hhi].
  replace (Z.max (-1074) (Z.log2 n - 52)) with (Z.log2 n - 52) by lia.
  destruct (Z.leb_spec 0 (Z.log2 n - 52)) as [He|He].
  - assert (round_half_even n (1 * 2 ^ (Z.log2 n - 52)) * 2 ^ (Z.log2 n - 52) = n) as ->.
    { assert (Z.log2 n = 52 \/ Z.log2 n = 53) as [E|E] by lia; rewrite E in *.
      - change (1 * 2 ^ (52 - 52)) with 1. change (2 ^ (52 - 52)) with 1.
        rewrite round_half_even_exact. lia.
      - assert (n = 2 ^ 53) as -> by lia. reflexivity. }
    rewrite (proj2 (Z.leb_gt (2 ^ 1024) n)); [done|].
    eapply Z.le_lt_trans; [exact Hm|]. reflexivity.
  - assert (round_half_even (n * 2 ^ (- (Z.log2 n - 52))) 1 = n * 2 ^ (- (Z.log2 n - 52))) as ->
      by apply round_half_even_exact.
    assert (0 < 2 ^ (- (Z.log2 n - 52))) as Hp by (apply Z.pow_pos_nonneg; lia).
    unfold of_Z. f_equal. rewrite <- (Qred_inject (sign * n)). apply Qred_complete.
    unfold Qeq, inject_Z. cbn [Qnum Qden]. rewrite Z2Pos.id by done. lia.
Qed.

Lemma round_double_Z z : - 2 ^ 53 <= z <= 2 ^ 53 -> round_double (inject_Z z) = of_Z z.
Proof.
  intros Hz. unfold round_double. cbn [Qnum Qden inject_Z].
  destruct z as [|n|n]; [done| |]; rewrite double_of_Z by lia; f_equal; lia.
Qed.

(** ** Decimal printing is read back *)

Lemma span_digits_app ds r :
  Forall (fun c => is_digit c = true) ds -> match r with c :: _ => is_digit c = false | [] => True end ->
  span_digits (ds ++ r) = (ds, r).
Proof.
  intros Hd Hr. induction Hd as [|c ds Hc _ IH]; simpl.
  - destruct r as [|c r]; [done|]. simpl. by rewrite Hr.
  - by rewrite Hc, IH.
Qed.

Lemma span_digits_shorter t ds r :
  span_digits t = (ds, r) -> t = ds ++ r.
Proof.
  revert ds r. induction t as [|c t IH]; intros ds r; simpl; [by intros [= <- <-]|].
  destruct (is_digit c); [|by intros [= <- <-]].
  destruct (span_digits t) as [ds' r']. intros [= <- <-]. simpl. f_equal. by apply IH.
Qed.

Lemma pretty_char_digit x :
  is_digit (pretty_N_char (x mod 10)) = true /\
  digit (pretty_N_char (x mod 10)) = Z.of_N (x mod 10).
Proof.
  assert (x mod 10 < 10)%N as H by (by apply N.mod_upper_bound).
  generalize dependent (x mod 10)%N. intros y Hy.
  assert (y = 0 \/ y = 1 \/ y = 2 \/ y = 3 \/ y = 4 \/ y = 5 \/ y = 6 \/ y = 7 \/ y = 8 \/ y = 9)%N
    as Hc by lia.
  by repeat destruct Hc as [->|Hc]; [..|subst].
Qed.

Lemma pretty_digits x s :
  Forall (fun c => is_digit c = true) (ascii_text s) ->
  Forall (fun c => is_digit c = true) (ascii_text (pretty_N_go x s)).
Proof.
  revert s. induction (N.lt_wf_0 x) as [x _ IH]; intros s Hs.
  assert (x = 0 \/ 0 < x)%N as [->|Hx] by lia; [by rewrite pretty_N_go_0|].
  rewrite pretty_N_go_step by done. apply IH; [by apply N.div_lt|].
  simpl. constructor; [apply pretty_char_digit|done].
Qed.

Lemma pretty_value x s :
  digits_value (ascii_text (pretty_N_go x s)) = digits_from (Z.of_N x) (ascii_text s).
Proof.
  revert s. induction (N.lt_wf_0 x) as [x _ IH]; intros s.
  assert (x = 0 \/ 0 < x)%N as [->|Hx] by lia; [by rewrite pretty_N_go_0|].
  rewrite pretty_N_go_step by done. rewrite IH by (by apply N.div_lt).
  cbn [ascii_text String.list_ascii_of_string digits_from foldl].
  rewrite (proj2 (pretty_char_digit x)). f_equal.
  rewrite N2Z.inj_div, N2Z.inj_mod. pose proof (Z.div_mod (Z.of_N x) 10). lia.
Qed.

(** A positive number is printed without leading zero. *)
Lemma pretty_lead x s :
  (0 < x)%N -> exists c r, ascii_text (pretty_N_go x s) = c :: r /\ between 49 57 c = true.
Proof.
  revert s. induction (N.lt_wf_0 x) as [x _ IH]; intros s Hx.
  rewrite pretty_N_go_step by done.
  destruct (N.eq_0_gt_0_cases (x / 10)) as [Hq|Hq]; [|apply IH; [by apply N.div_lt|done]].
  rewrite Hq, pretty_N_go_0. eexists _, _. split; [reflexivity|].
  pose proof (N.div_mod x 10 ltac:(done)) as Hd. rewrite Hq in Hd.
  destruct (pretty_char_digit x) as [H1 H2]. unfold is_digit, digit, between in *. to_prop. lia.
Qed.

Definition decimal (n : N) : text := ascii_text (pretty n).

Lemma decimal_pos n : (0 < n)%N -> decimal n = ascii_text (pretty_N_go n EmptyString).
Proof. destruct n; [lia|done]. Qed.

Lemma decimal_facts n :
  Forall (fun c => is_digit c = true) (decimal n) /\ digits_value (decimal n) = Z.of_N n /\
  decimal n <> [].
Proof.
  destruct (decide (n = 0)%N) as [->|Hn]; [by repeat constructor|].
  rewrite decimal_pos by lia. split; [by apply pretty_digits|].
  split; [apply (pretty_value n EmptyString)|].
  destruct (pretty_lead n EmptyString) as (c & r & -> & _); [lia|done].
Qed.

(** Digits are not white space. *)
Lemma strip_space_digit c r : is_digit c = true -> strip_space (c :: r) = None.
Proof.
  intros H. unfold is_digit in H. unfold strip_space.
  assert (forall lo hi, (57 < lo)%nat -> between lo hi c = false) as Hhi.
  { intros lo hi Hl. unfold between in *. to_prop.
    destruct (Nat.leb_spec lo (byte c)); [lia|done]. }
  assert (between 9 13 c = false /\ between 32 32 c = false) as [H1 H2].
  { unfold between in *. to_prop. rewrite !andb_false_iff, !Nat.leb_gt. lia. }
  rewrite H1, H2. rewrite !Hhi by lia. by destruct r as [|? [|? ?]].
Qed.

Lemma trim_digits t : Forall (fun c => is_digit c = true) t -> trim t = t.
Proof.
  intros H. unfold trim.
  assert (trim_start t = t) as ->.
  { rewrite trim_start_step. destruct H as [|c t Hc _]; [done|]. by rewrite strip_space_digit. }
  induction H as [|c t Hc _ IH]; [done|]. cbn [trim_end]. unfold blank.
  rewrite trim_start_step, strip_space_digit by done. by rewrite IH.
Qed.

Lemma literal_value_integer sign ds :
  - 2 ^ 53 <= sign * digits_value ds <= 2 ^ 53 ->
  literal_value sign ds [] 0 = of_Z (sign * digits_value ds).
Proof.
  intros H. unfold literal_value, scaled. rewrite app_nil_r.
  cbn [length Z.of_nat Z.sub Z.opp Z.add Z.leb Z.compare].
  rewrite Z.pow_0_r, Z.mul_1_r. by apply round_double_Z.
Qed.

(** A decimal literal of digits alone denotes their value. *)
Lemma decimal_literal_digits ds :
  Forall (fun c => is_digit c = true) ds -> ds <> [] -> digits_value ds <= 2 ^ 53 ->
  0 <= digits_value ds -> decimal_literal 1 ds = of_Z (digits_value ds).
Proof.
  intros Hd Hne Hu Hl. unfold decimal_literal. rewrite bool_decide_false.
  - rewrite <- (app_nil_r ds) at 1. rewrite span_digits_app by done. cbn.
    destruct ds as [|c ds]; [done|]. rewrite literal_value_integer by lia. f_equal. lia.
  - intros ->. by inversion Hd.
Qed.

Lemma digits_not_special c r :
  Forall (fun c => is_digit c = true) (c :: r) ->
  radix_prefix (c :: r) = None /\ is_char 45 c = false /\ is_char 43 c = false.
Proof.
  intros H. inversion H as [|? ? Hc Hr]; subst. unfold is_digit, between, is_char in *.
  split.
  - destruct r as [|x r]; [done|]. unfold radix_prefix. inversion Hr as [|? ? Hx _]; subst.
    unfold is_char. repeat case_match; try done; exfalso; to_prop; lia.
  - split; to_prop; lia.
Qed.

Lemma Number_digits ds :
  Forall (fun c => is_digit c = true) ds -> ds <> [] -> 0 <= digits_value ds <= 2 ^ 53 ->
  Number ds = of_Z (digits_value ds).
Proof.
  intros Hd Hne Hv. unfold Number. rewrite trim_digits by done.
  destruct ds as [|c r]; [done|].
  destruct (digits_not_special c r Hd) as (-> & -> & ->).
  apply decimal_literal_digits; [done|done|lia..].
Qed.

(** [Number] reads printed integers back. *)
Lemma Number_decimal n : Z.of_N n <= 2 ^ 53 -> Number (decimal n) = of_Z (Z.of_N n).
Proof.
  intros Hn. destruct (decimal_facts n) as (Hd & Hv & Hne).
  rewrite Number_digits, Hv; [done|done|done|lia].
Qed.

End NumberText.
