(* ===== verification/Errors.v ===== *)
(** * Errors, cancellation and the failure policy

    [src/src/errors.ts], [src/src/cancellation.ts],
    [src/src/providers/failure-policy.ts], [src/src/queue/job-error.ts] and
    the error classes declared next to their users
    ([CircuitOpenError], [StreamConsumerError]).

    A thrown value is one constructor of [error].  The [cause] option of the
    classes is only handed to the logger and is not kept. *)

From S2P Require Import Prelude.

Module Errors.

(** ** job-error.ts *)

Inductive JobErrorCode : Type :=
| PROVIDER_UNAVAILABLE
| PROVIDER_TIMEOUT
| PROVIDER_CIRCUIT_OPEN
| PROVIDER_ERROR
| INVALID_PROVIDER_RESPONSE
| JOB_FAILED.

#[global] Instance JobErrorCode_eq_dec : EqDecision JobErrorCode.
Proof. solve_decision. Defined.

Definition JobErrorCode_name (c : JobErrorCode) : string :=
  match c with
  | PROVIDER_UNAVAILABLE => "PROVIDER_UNAVAILABLE"
  | PROVIDER_TIMEOUT => "PROVIDER_TIMEOUT"
  | PROVIDER_CIRCUIT_OPEN => "PROVIDER_CIRCUIT_OPEN"
  | PROVIDER_ERROR => "PROVIDER_ERROR"
  | INVALID_PROVIDER_RESPONSE => "INVALID_PROVIDER_RESPONSE"
  | JOB_FAILED => "JOB_FAILED"
  end.

Definition publicErrors : list (JobErrorCode * string) :=
  [ (PROVIDER_UNAVAILABLE, "Unable to connect to the inference provider");
    (PROVIDER_TIMEOUT, "Inference provider request timed out");
    (PROVIDER_CIRCUIT_OPEN, "Inference provider is temporarily unavailable");
    (PROVIDER_ERROR, "Inference provider request failed");
    (INVALID_PROVIDER_RESPONSE, "Inference provider returned an invalid response");
    (JOB_FAILED, "Inference job failed") ].

(** [Object.hasOwn(publicErrors, reason) ? reason : "JOB_FAILED"], then the
    entry's message. *)
Definition publicJobError (reason : string) : JobErrorCode * string :=
  default (JOB_FAILED, "Inference job failed")
    (list_find (fun e => JobErrorCode_name e.1 = reason) publicErrors ≫= fun p => Some p.2).

(** ** errors.ts and the other error classes *)

Inductive error : Type :=
| ProviderHttpError (provider : string) (upstreamStatus : Z) (upstreamDetail : option string)
| ProviderConnectionError (provider : string)
| ProviderResponseError (provider : string)
| ProviderTimeoutError (provider : string) (timeoutMs : Z)
| ProviderCircuitOpenError (provider : string) (retryAfterMs : Q)
| ProviderStreamingUnsupportedError
| AuthenticationError
| ApiKeyStoreUnavailableError
| RateLimitExceededError (retryAfterSeconds : Z)
| RateLimiterUnavailableError
| ConcurrencyQueueFullError (maxConcurrent maxQueueSize : Z)
| ConcurrencyWaitTimeoutError (waitTimeoutMs : Z)
| JobQueueUnavailableError
| JobNotFoundError
| IdempotencyConflictError
| RequestAbortedError
| CircuitOpenError (retryAfterMs : Q)
| StreamConsumerError
| JobProcessingError (code : JobErrorCode) (retryable : bool) (retryAfterMs : Q)
| PlainError (message : string).

#[global] Instance error_eq_dec : EqDecision error.
Proof. solve_decision. Defined.

(** The fields an [AppError] carries: [statusCode], [code], [message] and
    [headers]. *)
Record AppError : Type := mkAppError {
  statusCode : Z;
  code : string;
  message : string;
  headers : list (string * string)
}.

(** The one-character string holding a double quote. *)
Definition dquote : string := String (Ascii.ascii_of_nat 34) EmptyString.

(** [String(Math.max(1, Math.ceil(retryAfterMs / 1_000)))], the number. *)
Definition retryAfterHeader (retryAfterMs : Q) : Z :=
  Z.max 1 (Qceiling (retryAfterMs / 1000)).

(** [error instanceof AppError], with the instance's fields. *)
Definition asAppError (e : error) : option AppError :=
  match e with
  | ProviderHttpError p _ _ =>
      Some (mkAppError 502 "PROVIDER_ERROR" (p +:+ " request failed") [])
  | ProviderConnectionError p =>
      Some (mkAppError 503 "PROVIDER_UNAVAILABLE" ("Unable to connect to " +:+ p) [])
  | ProviderResponseError p =>
      Some (mkAppError 502 "INVALID_PROVIDER_RESPONSE" (p +:+ " returned an invalid response") [])
  | ProviderTimeoutError p _ =>
      Some (mkAppError 504 "PROVIDER_TIMEOUT" (p +:+ " request timed out") [])
  | ProviderCircuitOpenError p ms =>
      Some (mkAppError 503 "PROVIDER_CIRCUIT_OPEN" (p +:+ " circuit is temporarily open")
              [("retry-after", pretty (retryAfterHeader ms))])
  | ProviderStreamingUnsupportedError =>
      Some (mkAppError 501 "STREAMING_UNSUPPORTED"
              "The configured provider does not support streaming" [])
  | AuthenticationError =>
      Some (mkAppError 401 "INVALID_API_KEY" "Missing or invalid API key"
              [("www-authenticate", "Bearer realm=" +:+ dquote +:+ "modelmux" +:+ dquote)])
  | ApiKeyStoreUnavailableError =>
      Some (mkAppError 503 "API_KEY_STORE_UNAVAILABLE" "API key service is unavailable" [])
  | RateLimitExceededError s =>
      Some (mkAppError 429 "RATE_LIMIT_EXCEEDED" "Rate limit exceeded"
              [("retry-after", pretty s)])
  | RateLimiterUnavailableError =>
      Some (mkAppError 503 "RATE_LIMITER_UNAVAILABLE" "Rate limiter is unavailable" [])
  | ConcurrencyQueueFullError _ _ =>
      Some (mkAppError 503 "CONCURRENCY_QUEUE_FULL" "Provider execution queue is full"
              [("retry-after", "1")])
  | ConcurrencyWaitTimeoutError _ =>
      Some (mkAppError 503 "CONCURRENCY_WAIT_TIMEOUT"
              "Timed out waiting for provider capacity" [("retry-after", "1")])
  | JobQueueUnavailableError =>
      Some (mkAppError 503 "JOB_QUEUE_UNAVAILABLE" "Inference job queue is unavailable"
              [("retry-after", "1")])
  | JobNotFoundError => Some (mkAppError 404 "JOB_NOT_FOUND" "Job not found" [])
  | IdempotencyConflictError =>
      Some (mkAppError 409 "IDEMPOTENCY_CONFLICT"
              "Idempotency key has already been used with a different request" [])
  | RequestAbortedError | CircuitOpenError _ | StreamConsumerError
  | JobProcessingError _ _ _ | PlainError _ => None
  end.

Definition isAppError (e : error) : bool := bool_decide (is_Some (asAppError e)).

(** ** cancellation.ts *)

Definition isRequestAborted (e : error) : bool :=
  match e with RequestAbortedError => true | _ => false end.

(** [throwIfCancelled(signal)]; [aborted] is [signal?.aborted], false for an
    absent signal. *)
Definition throwIfCancelled (aborted : bool) : result error () :=
  if aborted then Err RequestAbortedError else Ok ().

(** ** failure-policy.ts *)

Definition isRetryableProviderError (e : error) : bool :=
  match e with
  | ProviderCircuitOpenError _ _ => true
  | ProviderConnectionError _ => true
  | ProviderTimeoutError _ _ => true
  | ProviderHttpError _ upstreamStatus _ => (upstreamStatus =? 429) || (500 <=? upstreamStatus)
  | _ => false
  end.

(** router.ts: the errors [execute] is told to ignore. *)
Definition isIgnoredError (e : error) : bool :=
  match e with RequestAbortedError | StreamConsumerError => true | _ => false end.

(** ** Facts *)

(** The header [retry-after] a client reads is never below one second and,
    once the wait is positive, never earlier than the circuit's own delay. *)
Lemma retryAfterHeader_bound ms :
  1 <= retryAfterHeader ms /\ (ms <= inject_Z (retryAfterHeader ms) * 1000)%Q.
Proof.
  unfold retryAfterHeader. split; [lia|].
  assert (ms / 1000 <= inject_Z (Z.max 1 (Qceiling (ms / 1000))))%Q as H.
  { eapply Qle_trans; [apply Qle_ceiling|]. rewrite <- Zle_Qle. lia. }
  assert (ms == ms / 1000 * 1000)%Q by field. lra.
Qed.

Lemma retryable_not_ignored e : isRetryableProviderError e = true -> isIgnoredError e = false.
Proof. by destruct e. Qed.

Lemma retryable_isAppError e : isRetryableProviderError e = true -> is_Some (asAppError e).
Proof. destruct e; simpl; eauto; done. Qed.

(** Every code that leaves the polling endpoint is one of the published ones,
    with its own description. *)
Lemma publicJobError_published reason : publicJobError reason ∈ publicErrors.
Proof.
  unfold publicJobError.
  destruct (list_find _ publicErrors) as [[i e]|] eqn:E; simpl.
  - apply list_find_Some in E as (Hi & _ & _). by eapply list_elem_of_lookup_2.
  - repeat constructor.
Qed.

Lemma publicJobError_known c :
  (publicJobError (JobErrorCode_name c)).1 = c.
Proof. by destruct c. Qed.

End Errors.
