(* ===== verification/Signals.v ===== *)
(** * Races with cancellation

    The promises and listeners behind three functions: [abortable] of
    [src/src/cancellation.ts], [requestCancellation] of
    [src/src/routes/request-cancellation.ts] and [writeSse] of
    [src/src/routes/sse.ts].  Each is a small machine driven by the events of
    the objects it listens to; a promise keeps the first settlement. *)

From S2P Require Import Prelude Errors.
Import Errors.

Module Signals.

(** A promise takes the first value it is given. *)
Definition settle {A} (now : A) (promise : option A) : option A :=
  match promise with Some a => Some a | None => Some now end.

(** ** abortable *)

Section Abortable.
  Context {T : Type}.

Record race : Type := mkRace {
  outcome : option (result error T);
  pending : bool;
  listening : bool;
  reason : option error
}.

(** The executor: [if (signal.aborted) onAbort()]. *)
Definition abortable (aborted : option error) : race :=
  match aborted with
  | Some e => mkRace (Some (Err e)) true false (Some e)
  | None => mkRace None true true None
  end.

Inductive race_event : Type :=
| OperationSettles (r : result error T)
| Aborts (e : error).

(** [operation.then(resolve, reject).finally(...)] and [onAbort]. *)
Definition race_step (s : race) (ev : race_event) : race :=
  match ev with
  | OperationSettles r =>
      if pending s then mkRace (settle r (outcome s)) false false (reason s) else s
  | Aborts e =>
      match reason s with
      | Some _ => s
      | None =>
          if listening s then mkRace (settle (Err e) (outcome s)) (pending s) false (Some e)
          else mkRace (outcome s) (pending s) false (Some e)
      end
  end.

Definition race_run (aborted : option error) (evs : list race_event) : race :=
  foldl race_step (abortable aborted) evs.

Definition event_outcome (ev : race_event) : result error T :=
  match ev with OperationSettles r => r | Aborts e => Err e end.

Lemma race_settled s evs r : outcome s = Some r -> outcome (foldl race_step s evs) = Some r.
Proof.
  revert s. induction evs as [|ev evs IH]; intros s Hs; [done|]. apply IH.
  destruct ev; simpl; repeat case_match; simpl; rewrite ?Hs; done.
Qed.

Lemma race_silent s evs : listening s = false -> listening (foldl race_step s evs) = false.
Proof.
  revert s. induction evs as [|ev evs IH]; intros s Hs; [done|]. apply IH.
  destruct ev; simpl; repeat case_match; done.
Qed.

End Abortable.

(** ** requestCancellation *)

Record cancellation : Type := mkCancellation {
  signal_aborted : bool;
  on_aborted : bool;
  on_close : bool;
  on_error : bool;
  on_shutdown : bool
}.

Inductive connection_event : Type :=
| RequestAborted
| ResponseCloses (writableFinished : bool)
| ResponseErrors
| ShutdownBegins
| Disposed
| AbortCalled.

Definition requestCancellation (request_aborted response_destroyed shutdown_aborted : bool) : cancellation :=
  mkCancellation (request_aborted || response_destroyed || shutdown_aborted) true true true true.

(** Every listener is registered once; [dispose] removes them all. *)
Definition cancellation_step (s : cancellation) (ev : connection_event) : cancellation :=
  match ev with
  | RequestAborted =>
      mkCancellation (signal_aborted s || on_aborted s) false (on_close s) (on_error s) (on_shutdown s)
  | ResponseCloses finished =>
      mkCancellation (signal_aborted s || (on_close s && negb finished))
        (on_aborted s) false (on_error s) (on_shutdown s)
  | ResponseErrors =>
      mkCancellation (signal_aborted s || on_error s) (on_aborted s) (on_close s) false (on_shutdown s)
  | ShutdownBegins =>
      mkCancellation (signal_aborted s || on_shutdown s) (on_aborted s) (on_close s) (on_error s) false
  | Disposed => mkCancellation (signal_aborted s) false false false false
  | AbortCalled => mkCancellation true (on_aborted s) (on_close s) (on_error s) (on_shutdown s)
  end.

Definition cancellation_run (s : cancellation) (evs : list connection_event) : cancellation :=
  foldl cancellation_step s evs.

(** A response that is written out: it closes finished, and nothing else
    happens. *)
Definition benign (ev : connection_event) : bool :=
  match ev with ResponseCloses true | Disposed => true | _ => false end.

(** What a client that goes away, a failing socket or a shutdown looks like. *)
Definition fatal (ev : connection_event) : bool :=
  match ev with RequestAborted | ResponseCloses false | ResponseErrors | ShutdownBegins => true | _ => false end.

Lemma cancellation_aborted s evs :
  signal_aborted s = true -> signal_aborted (cancellation_run s evs) = true.
Proof.
  unfold cancellation_run. revert s. induction evs as [|ev evs IH]; intros s Hs; [done|]. apply IH.
  destruct ev; simpl; rewrite ?Hs; done.
Qed.

Lemma cancellation_benign s evs :
  signal_aborted s = false -> forallb benign evs = true ->
  signal_aborted (cancellation_run s evs) = false.
Proof.
  unfold cancellation_run. revert s. induction evs as [|ev evs IH]; intros s Hs; [done|].
  cbn [forallb]. intros [Hb Hf]%andb_true_iff. apply IH; [|done].
  destruct ev as [|[]| | | |]; try done; simpl; rewrite Hs, ?andb_false_r; done.
Qed.

(** ** writeSse *)

Record writing : Type := mkWriting {
  written : option (result error ());
  on_drain : bool;
  on_gone : bool;
  timer : bool
}.

(** [finish]: settle once and remove every listener and the timer. *)
Definition finish (r : result error ()) (s : writing) : writing :=
  match written s with
  | Some _ => s
  | None => mkWriting (Some r) false false false
  end.

(** How [response.write] goes: accepted, buffered, or throwing. *)
Inductive write_result : Type := Accepted | Buffered | WriteThrows.

Definition writeSse (aborted destroyed : bool) (write : write_result) : writing :=
  if aborted then mkWriting (Some (Err RequestAbortedError)) false false false
  else
    let s := mkWriting None true true false in
    if destroyed then finish (Err RequestAbortedError) s
    else
      match write with
      | Accepted => finish (Ok ()) s
      | Buffered => mkWriting None true true true
      | WriteThrows => finish (Err RequestAbortedError) s
      end.

Inductive write_event : Type := Drains | Gone | TimerFires.

Definition write_step (s : writing) (ev : write_event) : writing :=
  match ev with
  | Drains => if on_drain s then finish (Ok ()) s else s
  | Gone => if on_gone s then finish (Err RequestAbortedError) s else s
  | TimerFires => if timer s then finish (Err RequestAbortedError) s else s
  end.

Definition write_run (s : writing) (evs : list write_event) : writing := foldl write_step s evs.

(** Settled and clean, or waiting with everything in place. *)
Definition write_inv (s : writing) : Prop :=
  match written s with
  | Some _ => on_drain s = false /\ on_gone s = false /\ timer s = false
  | None => on_drain s = true /\ on_gone s = true /\ timer s = true
  end.

Lemma writeSse_inv a d w : write_inv (writeSse a d w).
Proof. by destruct a, d, w. Qed.

Lemma write_step_inv s ev : write_inv s -> write_inv (write_step s ev).
Proof.
  unfold write_inv, write_step, finish. destruct s as [[r|] dr go ti]; simpl; intros (-> & -> & ->); by destruct ev.
Qed.

Lemma write_run_inv s evs : write_inv s -> write_inv (write_run s evs).
Proof.
  unfold write_run. revert s. induction evs as [|ev evs IH]; intros s Hs; [done|]. by apply IH, write_step_inv.
Qed.

Lemma write_settled s evs r : written s = Some r -> written (write_run s evs) = Some r.
Proof.
  unfold write_run. revert s. induction evs as [|ev evs IH]; intros s Hs; [done|]. apply IH.
  destruct ev; simpl; case_match; unfold finish; rewrite ?Hs; done.
Qed.

(** ** The properties *)

(** A wait ends with whatever comes first and leaves nothing behind.  An
    [abortable] wait on a signal that is already aborted fails with its
    reason at once; otherwise its outcome is that of the first event, the
    operation's settlement or the abort, however many follow, and from then
    on the signal carries no listener of it. *)
Theorem abortable_first_wins {T} (aborted : option error) (evs : list (@race_event T)) :
  outcome (race_run aborted evs) =
    match aborted with Some e => Some (Err e) | None => event_outcome <$> head evs end /\
  listening (race_run aborted evs) = match aborted, evs with None, [] => true | _, _ => false end.
Proof.
  unfold race_run. destruct aborted as [e|]; cbn [abortable].
  - split; [by apply race_settled|by apply race_silent].
  - destruct evs as [|ev evs]; [done|]. cbn [foldl head fmap option_fmap option_map].
    split; [apply race_settled|apply race_silent]; by destruct ev.
Qed.

(** A request is cancelled when its client is gone, and only then.  A
    response that is written out and closed normally leaves the signal alone;
    an aborted request, a connection that closes early or fails, or a
    shutdown aborts it for good, unless the handler has already disposed of
    it. *)
Theorem request_cancelled_exactly aborted destroyed shutdown evs ev evs' :
  (forallb benign evs = true ->
   signal_aborted (cancellation_run (requestCancellation aborted destroyed shutdown) evs) =
     aborted || destroyed || shutdown) /\
  (forallb (fun e => match e with Disposed | ResponseCloses _ => false | _ => true end) evs = true ->
   fatal ev = true ->
   signal_aborted (cancellation_run (requestCancellation aborted destroyed shutdown)
     (evs ++ ev :: evs')) = true).
Proof.
  split.
  - intros Hb. destruct (aborted || destroyed || shutdown) eqn:E.
    + by apply cancellation_aborted.
    + by apply cancellation_benign.
  - intros Hd Hf. unfold cancellation_run. rewrite foldl_app. cbn [foldl].
    apply (cancellation_aborted _ evs').
    assert (forall s, on_aborted s || signal_aborted s = true -> on_close s = true ->
      on_error s || signal_aborted s = true -> on_shutdown s || signal_aborted s = true ->
      signal_aborted (cancellation_step (foldl cancellation_step s evs) ev) = true) as H.
    { induction evs as [|x evs IH]; intros s H1 H2 H3 H4; cbn [foldl].
      - destruct ev as [|[]| | | |]; try done; simpl; rewrite ?H2; simpl;
          try (by rewrite orb_comm); by rewrite orb_true_r.
      - cbn [forallb] in Hd. apply andb_true_iff in Hd as [Hx Hd]. apply IH; [done|..];
          destruct x, s as [[] [] [] [] []]; done. }
    by apply H.
Qed.

(** A write to a client settles once and never waits without a timer.
    Whatever the socket does, the promise keeps its first settlement, a
    settled write has no listener and no timer left, and a write that is
    still waiting has its timer running, whose firing ends it. *)
Theorem write_settles_once aborted destroyed write evs ev :
  let s := write_run (writeSse aborted destroyed write) evs in
  (forall r, written s = Some r ->
     on_drain s = false /\ on_gone s = false /\ timer s = false /\
     write_step s ev = s) /\
  (written s = None ->
     timer s = true /\ written (write_step s TimerFires) = Some (Err RequestAbortedError)).
Proof.
  intros s. pose proof (write_run_inv _ evs (writeSse_inv aborted destroyed write)) as Hi.
  fold s in Hi. unfold write_inv in Hi. split.
  - intros r Hr. rewrite Hr in Hi. destruct Hi as (H1 & H2 & H3). repeat split; try done.
    destruct ev; simpl; by rewrite ?H1, ?H2, ?H3.
  - intros Hn. rewrite Hn in Hi. destruct Hi as (_ & _ & H3). split; [done|].
    simpl. rewrite H3. unfold finish. by rewrite Hn.
Qed.

(** ** Scenarios *)

Lemma request_cancelled_exactly_witness :
  signal_aborted (cancellation_run (requestCancellation false false false)
    ([AbortCalled] ++ ResponseCloses false :: [Disposed])) = true /\
  signal_aborted (cancellation_run (requestCancellation false false false)
    [ResponseCloses true; Disposed]) = false.
Proof.
  split.
  - by apply (request_cancelled_exactly false false false [AbortCalled] (ResponseCloses false) [Disposed]).
  - by apply (request_cancelled_exactly false false false [ResponseCloses true; Disposed] Disposed []).
Defined.

Lemma write_settles_once_witness :
  written (write_run (writeSse false false Buffered) []) = None /\
  written (write_step (write_run (writeSse false false Buffered) []) TimerFires) =
    Some (Err RequestAbortedError).
Proof.
  split; [done|]. by apply (write_settles_once false false Buffered [] Drains).
Defined.

End Signals.
