(* ===== verification/Chat.v ===== *)
(** * Chat data and telemetry events

    [src/src/types/chat.ts] and the event types of
    [src/src/observability/telemetry.ts]. *)

From S2P Require Import Prelude.

Module Chat.

Inductive ChatRole : Type := system | user | assistant.

Record ChatMessage : Type := mkChatMessage { role : ChatRole; content : string }.

Record ChatRequest : Type := mkChatRequest { model : string; messages : list ChatMessage }.

(** The message of a response always has the role [assistant]: the type
    [AssistantMessage] leaves only its content free. *)
Record ChatResponse : Type := mkChatResponse { response_content : string }.

#[global] Instance ChatRole_eq_dec : EqDecision ChatRole.
Proof. solve_decision. Defined.
#[global] Instance ChatMessage_eq_dec : EqDecision ChatMessage.
Proof. solve_decision. Defined.
#[global] Instance ChatRequest_eq_dec : EqDecision ChatRequest.
Proof. solve_decision. Defined.
#[global] Instance ChatResponse_eq_dec : EqDecision ChatResponse.
Proof. solve_decision. Defined.

(** [{ ...request, model }] *)
Definition with_model (m : string) (r : ChatRequest) : ChatRequest :=
  mkChatRequest m (messages r).

End Chat.

Module Telemetry.

Inductive CacheStatus : Type := HIT | MISS | BYPASS.

Inductive ProviderOutcome : Type :=
| success | transient_error | permanent_error | cancelled | consumer_error.

Inductive JobOutcome : Type :=
| job_success | job_retrying | job_failed | job_obsolete | infrastructure_error.

Inductive StreamOutcome : Type := stream_completed | stream_failed | stream_cancelled.

Inductive AdmissionOutcome : Type :=
| admitted_ | queue_full_ | timeout_ | cancelled_.

Inductive Mode : Type := mode_chat | mode_stream.

Inductive MetricEvent : Type :=
| http_start
| http_end (method route : string) (status : option Z) (completed : bool) (durationMs : Q)
| rate_limit_rejection
| cache (status : CacheStatus)
| stream_event (outcome : StreamOutcome)
| admission (outcome : AdmissionOutcome) (durationMs : Q)
| provider_start (provider : string) (mode : Mode)
| provider_end (provider : string) (mode : Mode) (outcome : ProviderOutcome) (durationMs : Q)
| circuit_rejection (provider : string) (mode : Mode)
| fallback_event (from to : string)
| job_start (retry : bool) (queueWaitTimeMs : option Q)
| job_end (outcome : JobOutcome) (durationMs : Q).

#[global] Instance CacheStatus_eq_dec : EqDecision CacheStatus.
Proof. solve_decision. Defined.
#[global] Instance ProviderOutcome_eq_dec : EqDecision ProviderOutcome.
Proof. solve_decision. Defined.
#[global] Instance JobOutcome_eq_dec : EqDecision JobOutcome.
Proof. solve_decision. Defined.
#[global] Instance StreamOutcome_eq_dec : EqDecision StreamOutcome.
Proof. solve_decision. Defined.
#[global] Instance AdmissionOutcome_eq_dec : EqDecision AdmissionOutcome.
Proof. solve_decision. Defined.
#[global] Instance Mode_eq_dec : EqDecision Mode.
Proof. solve_decision. Defined.

End Telemetry.
