(* ===== verification/Provider.v ===== *)
(** * The provider interface

    [src/src/providers/provider.ts].  Everything a call may read or change is
    one state type [W]; a call is a function on it.  A streaming call is a
    tree: it ends, or hands a piece of content to the consumer and goes on
    with what the consumer answered, so the consumer is awaited before the
    provider continues. *)

From S2P Require Import Prelude Errors Chat.
Import Errors Chat.

Module Provider.

Section Interface.
  Context (W : Type).

Inductive script : Type :=
| Finish (r : result error ()) (w : W)
| Delta (content : string) (w : W) (next : result error () -> W -> script).

Record LLMProvider : Type := mkProvider {
  provider_chat : ChatRequest -> W -> result error ChatResponse * W;
  provider_stream : option (ChatRequest -> W -> script)
}.

End Interface.

Arguments Finish {W} r w.
Arguments Delta {W} content w next.
Arguments mkProvider {W}.
Arguments provider_chat {W}.
Arguments provider_stream {W}.

(** Run a streaming call for a caller whose own state [S] contains [W];
    [yield] runs before the provider resumes. *)
Fixpoint run_script {W S : Type} (get : S -> W) (put : W -> S -> S) (yield : W -> W)
    (consume : string -> S -> result error () * S) (s : script W) (p : S) : result error () * S :=
  match s with
  | Finish r w => (r, put w p)
  | Delta content w next =>
      let '(r, p1) := consume content (put w p) in
      run_script get put yield consume (next r (yield (get p1))) p1
  end.

(** What holds initially and is kept by every delivery and by the provider's
    own changes holds at the end. *)
Lemma run_script_invariant {W S} (get : S -> W) (put : W -> S -> S) yield consume
    (I : S -> Prop) s :
  (forall w p, I p -> I (put w p)) ->
  (forall c p r p', I p -> consume c p = (r, p') -> I p') ->
  forall p r p', I p -> run_script get put yield consume s p = (r, p') -> I p'.
Proof.
  intros Hput Hcons. induction s as [r0 w|content w next IH]; intros p r p' HI H; simpl in H.
  - simplify_eq. auto.
  - destruct (consume _ _) as [r1 p1] eqn:Hc. eauto.
Qed.

End Provider.
