(* ===== verification/CircuitBreaker.v ===== *)
(** * The circuit breaker, one call at a time

    [src/src/providers/circuit-breaker.ts].  The private fields are the record
    [circuit]; the options checked by the constructor are
    [CircuitBreakerOptions].  [execute] is asynchronous, so it is given in the
    two synchronous pieces between which other calls run: [execute_begin]
    (up to the [await]) and [execute_settle] (what follows it); [execute]
    composes them around an operation that may itself change the circuit.
    Clock readings are rationals (milliseconds of [performance.now()]). *)

From S2P Require Import Prelude JsNumber Errors.
Import JsNumber Errors.

Module CircuitBreaker.

Inductive CircuitState : Type := closed | open | half_open.

#[global] Instance CircuitState_eq_dec : EqDecision CircuitState.
Proof. solve_decision. Defined.

Record CircuitBreakerOptions : Type := mkOptions {
  failureThreshold : Z;
  resetTimeoutMs : Z
}.

Record circuit : Type := mkCircuit {
  state : CircuitState;
  consecutiveFailures : Z;
  openedAt : Q;
  generation : Z
}.

Record CircuitSnapshot : Type := mkSnapshot {
  snap_state : CircuitState;
  snap_consecutiveFailures : Z;
  snap_retryAfterMs : Q
}.

(** The field initialisers. *)
Definition initial : circuit := mkCircuit closed 0 0 0.

(** The constructor.  [now] is [None] for an absent clock and [Some b] for a
    value that is a function iff [b]. *)
Definition new_CircuitBreaker (failureThreshold resetTimeoutMs : number) (now : option bool) :
    result error (CircuitBreakerOptions * circuit) :=
  if negb (isSafeInteger failureThreshold) || ltb failureThreshold (of_Z 1) then
    Err (PlainError "failureThreshold must be a positive safe integer")
  else if negb (isSafeInteger resetTimeoutMs) || ltb resetTimeoutMs (of_Z 1) then
    Err (PlainError "resetTimeoutMs must be a positive safe integer")
  else if match now with Some is_function => negb is_function | None => false end then
    Err (PlainError "now must be a function")
  else
    Ok (mkOptions (toZ failureThreshold) (toZ resetTimeoutMs), initial).

(** What the constructor guarantees of its options. *)
Definition valid_options (o : CircuitBreakerOptions) : Prop :=
  1 <= failureThreshold o <= MAX_SAFE_INTEGER /\ 1 <= resetTimeoutMs o <= MAX_SAFE_INTEGER.

Section WithOptions.
  Context (opts : CircuitBreakerOptions).

Definition snapshot (now : Q) (c : circuit) : CircuitSnapshot :=
  mkSnapshot (state c) (consecutiveFailures c)
    (match state c with
     | open => Qmaxb 0 (inject_Z (resetTimeoutMs opts) - (now - openedAt c))
     | half_open => inject_Z (resetTimeoutMs opts)
     | closed => 0
     end).

Definition recordHealthy (c : circuit) : circuit :=
  mkCircuit closed 0 (openedAt c)
    (match state c with half_open => generation c + 1 | _ => generation c end).

Definition recordFailure (now : Q) (c : circuit) : circuit :=
  let failures := consecutiveFailures c + 1 in
  if bool_decide (state c = half_open) || (failureThreshold opts <=? failures) then
    mkCircuit open failures now (generation c + 1)
  else
    mkCircuit (state c) failures (openedAt c) (generation c).

(** [execute] up to the [await]: refuse, or admit the call and hand it the
    generation it belongs to. *)
Definition execute_begin (now : Q) (c : circuit) : result error (Z * circuit) :=
  let snap := snapshot now c in
  if bool_decide (snap_state snap = half_open) || (0 <q snap_retryAfterMs snap) then
    Err (CircuitOpenError (snap_retryAfterMs snap))
  else
    let c' := match state c with
              | open => mkCircuit half_open (consecutiveFailures c) (openedAt c) (generation c)
              | _ => c
              end in
    Ok (generation c', c').

(** [execute] after the [await]: charge the outcome to the circuit, provided
    the circuit has not moved on to another generation. *)
Definition execute_settle {T} (isFailure isIgnored : error -> bool) (now : Q) (gen : Z)
    (r : result error T) (c : circuit) : circuit :=
  if gen =? generation c then
    match r with
    | Ok _ => recordHealthy c
    | Err e =>
        if isIgnored e then
          match state c with
          | half_open =>
              mkCircuit open (consecutiveFailures c)
                (now - inject_Z (resetTimeoutMs opts)) (generation c + 1)
          | _ => c
          end
        else if isFailure e then recordFailure now c
        else recordHealthy c
    end
  else c.

(** The whole of [execute] on a process state [W] that contains the circuit
    and the clock.  The awaited operation may change all of [W]: other
    requests run while it is pending; [yield] is what runs between the
    operation's completion and the resumption of [execute]. *)
Definition execute {W T : Type} (get : W -> circuit) (put : circuit -> W -> W)
    (clock : W -> Q) (yield : W -> W)
    (operation : W -> result error T * W)
    (isFailure isIgnored : error -> bool) (w : W) : result error T * W :=
  match execute_begin (clock w) (get w) with
  | Err e => (Err e, w)
  | Ok (gen, c) =>
      let '(r, w1) := operation (put c w) in
      let w2 := yield w1 in
      (r, put (execute_settle isFailure isIgnored (clock w2) gen r (get w2)) w2)
  end.

End WithOptions.

(** ** The constructor *)

Lemma positive_safe_integer n :
  negb (isSafeInteger n) || ltb n (of_Z 1) = false ->
  1 <= toZ n <= MAX_SAFE_INTEGER.
Proof.
  intros [Hs%negb_false_iff Hl]%orb_false_iff.
  rewrite ltb_integer in Hl by by apply isSafeInteger_isInteger.
  apply isSafeInteger_bound in Hs. to_prop. lia.
Qed.

Lemma new_CircuitBreaker_valid ft rt now o c :
  new_CircuitBreaker ft rt now = Ok (o, c) -> valid_options o /\ c = initial.
Proof.
  unfold new_CircuitBreaker, valid_options. intros H.
  destruct (_ || _) eqn:E1 in H; [done|].
  destruct (_ || _) eqn:E2 in H; [done|].
  destruct (match now with Some _ => _ | None => _ end) in H; simplify_eq/=.
  apply positive_safe_integer in E1, E2. done.
Qed.

(** ** Case lemmas used by every client *)

Section Cases.
  Context (opts : CircuitBreakerOptions) (Hopts : valid_options opts).

Lemma reset_positive : (0 < inject_Z (resetTimeoutMs opts))%Q.
Proof. destruct Hopts. change 0%Q with (inject_Z 0). rewrite <- Zlt_Qlt. lia. Qed.

(** The four ways [execute_begin] can end, by state. *)
Lemma execute_begin_closed now c :
  state c = closed -> execute_begin opts now c = Ok (generation c, c).
Proof. unfold execute_begin, snapshot. intros ->. done. Qed.

Lemma execute_begin_half_open now c :
  state c = half_open ->
  execute_begin opts now c = Err (CircuitOpenError (inject_Z (resetTimeoutMs opts))).
Proof. unfold execute_begin, snapshot. intros ->. done. Qed.

Lemma execute_begin_open_early now c :
  state c = open -> (now < openedAt c + inject_Z (resetTimeoutMs opts))%Q ->
  execute_begin opts now c =
    Err (CircuitOpenError (Qmaxb 0 (inject_Z (resetTimeoutMs opts) - (now - openedAt c)))).
Proof.
  unfold execute_begin, snapshot. intros -> Hlt. simpl.
  rewrite (proj2 (Qltb_true _ _)); [done|].
  unfold Qmaxb. split_ifs; to_prop; lra.
Qed.

Lemma execute_begin_open_elapsed now c :
  state c = open -> (openedAt c + inject_Z (resetTimeoutMs opts) <= now)%Q ->
  execute_begin opts now c =
    Ok (generation c, mkCircuit half_open (consecutiveFailures c) (openedAt c) (generation c)).
Proof.
  unfold execute_begin, snapshot. intros -> Hlt. simpl.
  rewrite (proj2 (Qltb_false _ _)); [done|].
  unfold Qmaxb. split_ifs; to_prop; lra.
Qed.

(** Admission, inverted: the circuit was closed, or it was open and the
    cooldown has passed, in which case this call is the probe. *)
Lemma execute_begin_Ok now c g c' :
  execute_begin opts now c = Ok (g, c') ->
  g = generation c /\ generation c' = generation c /\
  ((state c = closed /\ c' = c) \/
   (state c = open /\ (openedAt c + inject_Z (resetTimeoutMs opts) <= now)%Q /\
    c' = mkCircuit half_open (consecutiveFailures c) (openedAt c) (generation c))).
Proof.
  destruct (state c) eqn:E.
  - rewrite execute_begin_closed by done. intros [= <- <-]. auto.
  - destruct (Qlt_le_dec now (openedAt c + inject_Z (resetTimeoutMs opts))) as [H|H].
    + by rewrite execute_begin_open_early.
    + rewrite execute_begin_open_elapsed by done. intros [= <- <-]. simpl. auto 10.
  - by rewrite execute_begin_half_open.
Qed.

Lemma execute_begin_Err now c e :
  execute_begin opts now c = Err e ->
  exists ms, e = CircuitOpenError ms /\ (0 < ms)%Q /\
  (state c = half_open \/
   (state c = open /\ (now < openedAt c + inject_Z (resetTimeoutMs opts))%Q)).
Proof.
  pose proof reset_positive. destruct (state c) eqn:E.
  - by rewrite execute_begin_closed.
  - destruct (Qlt_le_dec now (openedAt c + inject_Z (resetTimeoutMs opts))) as [Hl|Hl].
    + rewrite execute_begin_open_early by done. intros [= <-].
      eexists. split; [done|]. split; [|auto].
      unfold Qmaxb. split_ifs; to_prop; lra.
    + by rewrite execute_begin_open_elapsed.
  - rewrite execute_begin_half_open by done. intros [= <-]. eauto.
Qed.

(** Outcomes fall into three classes. *)
Inductive outcome_class : Type := Healthy | Failing | Ignored.

Definition classify {T} (isFailure isIgnored : error -> bool) (r : result error T) :
    outcome_class :=
  match r with
  | Ok _ => Healthy
  | Err e => if isIgnored e then Ignored else if isFailure e then Failing else Healthy
  end.

Definition settle_class (now : Q) (o : outcome_class) (c : circuit) : circuit :=
  match o with
  | Healthy => recordHealthy c
  | Failing => recordFailure opts now c
  | Ignored => match state c with
               | half_open => mkCircuit open (consecutiveFailures c)
                   (now - inject_Z (resetTimeoutMs opts)) (generation c + 1)
               | _ => c
               end
  end.

Lemma execute_settle_class {T} isFailure isIgnored now gen (r : result error T) c :
  execute_settle opts isFailure isIgnored now gen r c =
    if gen =? generation c then settle_class now (classify isFailure isIgnored r) c else c.
Proof. unfold execute_settle, classify, settle_class. by repeat case_match. Qed.

Lemma execute_settle_stale {T} isFailure isIgnored now gen (r : result error T) c :
  gen <> generation c -> execute_settle opts isFailure isIgnored now gen r c = c.
Proof.
  intros H. rewrite execute_settle_class. by apply Z.eqb_neq in H as ->.
Qed.

Lemma settle_class_generation now o c :
  generation c <= generation (settle_class now o c) <= generation c + 1.
Proof.
  destruct o; simpl; unfold recordFailure;
    repeat (case_match; simpl); lia.
Qed.

End Cases.
End CircuitBreaker.
