(* ===== verification/BreakerSystem.v ===== *)
(** * The circuit breaker under concurrent calls

    One breaker shared by any number of overlapping [execute] calls
    ([src/src/providers/circuit-breaker.ts]).  A state holds the circuit, the
    clock and, for every call in flight, the generation it was admitted under
    (the local constant [generation] of its activation of [execute]).  Each
    step is one synchronous piece of [execute], or the passage of time.

    The file proves the safety properties of the breaker in every reachable
    state, and that the generation counter implements the abstract breaker
    [Spec], which has no counter and simply forgets the calls that were in
    flight when the circuit opened or recovered. *)

From S2P Require Import Prelude JsNumber Errors CircuitBreaker.
Import JsNumber Errors CircuitBreaker.

Module BreakerSystem.

Section System.
  Context (opts : CircuitBreakerOptions) (isFailure isIgnored : error -> bool).

Record system : Type := mkSystem {
  circ : circuit;
  clock : Q;
  calls : gmap nat Z
}.

Definition start (t : Q) : system := mkSystem initial t ∅.

Inductive label : Type :=
| Admit (i : nat)
| Reject (e : error)
| Settle (i : nat) (r : result error ())
| Tick (t : Q).

Inductive step : system -> label -> system -> Prop :=
| step_admit s i g c :
    calls s !! i = None ->
    execute_begin opts (clock s) (circ s) = Ok (g, c) ->
    step s (Admit i) (mkSystem c (clock s) (<[i := g]> (calls s)))
| step_reject s e :
    execute_begin opts (clock s) (circ s) = Err e ->
    step s (Reject e) s
| step_settle s i g r :
    calls s !! i = Some g ->
    step s (Settle i r)
      (mkSystem (execute_settle opts isFailure isIgnored (clock s) g r (circ s))
         (clock s) (delete i (calls s)))
| step_tick s t :
    (clock s <= t)%Q ->
    step s (Tick t) (mkSystem (circ s) t (calls s)).

(** The steps as a function, for concrete scenarios. *)
Definition exec_step (s : system) (l : label) : option system :=
  match l with
  | Admit i =>
      match calls s !! i, execute_begin opts (clock s) (circ s) with
      | None, Ok (g, c) => Some (mkSystem c (clock s) (<[i := g]> (calls s)))
      | _, _ => None
      end
  | Reject e =>
      match execute_begin opts (clock s) (circ s) with
      | Err e' => if decide (e = e') then Some s else None
      | Ok _ => None
      end
  | Settle i r =>
      match calls s !! i with
      | Some g => Some (mkSystem (execute_settle opts isFailure isIgnored (clock s) g r (circ s))
                          (clock s) (delete i (calls s)))
      | None => None
      end
  | Tick t => if clock s <=q t then Some (mkSystem (circ s) t (calls s)) else None
  end.

Lemma cb_exec_step_sound s l s' : exec_step s l = Some s' -> step s l s'.
Proof.
  destruct l; simpl; intros H; repeat case_match; simplify_eq; econstructor; eauto.
  by apply Qle_bool_iff.
Qed.

(** ** The invariant *)

(** Calls of the current generation: the only ones whose outcome counts. *)
Definition live (s : system) (i : nat) : Prop := calls s !! i = Some (generation (circ s)).

Record inv (s : system) : Prop := {
  inv_generation : forall i g, calls s !! i = Some g -> g <= generation (circ s);
  inv_failures : 0 <= consecutiveFailures (circ s);
  inv_closed : state (circ s) = closed -> consecutiveFailures (circ s) < failureThreshold opts;
  inv_tripped : state (circ s) <> closed -> failureThreshold opts <= consecutiveFailures (circ s);
  inv_open : state (circ s) = open ->
    (openedAt (circ s) <= clock s)%Q /\ forall i, ~ live s i;
  inv_half_open : state (circ s) = half_open ->
    (openedAt (circ s) <= clock s)%Q /\ exists i, live s i /\ forall j, live s j -> j = i
}.

Definition reachable (s : system) : Prop := exists t ls, run step (start t) ls s.

End System.

(** ** The abstract breaker *)

Module Spec.

Inductive abreaker : Type :=
| AClosed (failures : Z)
| AOpen (since : Q)
| AProbing.

Record asystem : Type := mkASystem {
  abreak : abreaker;
  aclock : Q;
  alive : gset nat;
  astale : gset nat
}.

Section Steps.
  Context (opts : CircuitBreakerOptions) (isFailure isIgnored : error -> bool).

(** What a counted outcome does, and whether it invalidates the calls still
    in flight. *)
Definition react (now : Q) (o : outcome_class) (a : abreaker) : abreaker * bool :=
  match a, o with
  | AClosed _, Healthy => (AClosed 0, false)
  | AClosed k, Failing =>
      if failureThreshold opts <=? k + 1 then (AOpen now, true) else (AClosed (k + 1), false)
  | AClosed k, Ignored => (AClosed k, false)
  | AProbing, Healthy => (AClosed 0, true)
  | AProbing, Failing => (AOpen now, true)
  | AProbing, Ignored => (AOpen (now - inject_Z (resetTimeoutMs opts)), true)
  | AOpen t, _ => (AOpen t, false)
  end.

Inductive astep : asystem -> label -> asystem -> Prop :=
| astep_admit_closed s i k :
    i ∉ alive s ∪ astale s -> abreak s = AClosed k ->
    astep s (Admit i) (mkASystem (AClosed k) (aclock s) ({[i]} ∪ alive s) (astale s))
| astep_admit_probe s i t :
    i ∉ alive s ∪ astale s -> abreak s = AOpen t -> alive s = ∅ ->
    (t + inject_Z (resetTimeoutMs opts) <= aclock s)%Q ->
    astep s (Admit i) (mkASystem AProbing (aclock s) {[i]} (astale s))
| astep_reject_open s t ms :
    abreak s = AOpen t -> (aclock s < t + inject_Z (resetTimeoutMs opts))%Q -> (0 < ms)%Q ->
    astep s (Reject (CircuitOpenError ms)) s
| astep_reject_probing s ms :
    abreak s = AProbing -> (0 < ms)%Q ->
    astep s (Reject (CircuitOpenError ms)) s
| astep_settle_live s i r a inval :
    i ∈ alive s -> react (aclock s) (classify isFailure isIgnored r) (abreak s) = (a, inval) ->
    astep s (Settle i r)
      (if inval : bool
       then mkASystem a (aclock s) ∅ ((alive s ∖ {[i]}) ∪ astale s)
       else mkASystem a (aclock s) (alive s ∖ {[i]}) (astale s))
| astep_settle_stale s i r :
    i ∈ astale s ->
    astep s (Settle i r) (mkASystem (abreak s) (aclock s) (alive s) (astale s ∖ {[i]}))
| astep_tick s t :
    (aclock s <= t)%Q ->
    astep s (Tick t) (mkASystem (abreak s) t (alive s) (astale s)).

Definition astart (t : Q) : asystem := mkASystem (AClosed 0) t ∅ ∅.
End Steps.
End Spec.
Import Spec.

(** The abstraction function: forget the generation numbers, remembering only
    whether each call's generation is still current. *)
Definition abs_breaker (c : circuit) : abreaker :=
  match state c with
  | closed => AClosed (consecutiveFailures c)
  | open => AOpen (openedAt c)
  | half_open => AProbing
  end.

Definition abstract (s : system) : asystem :=
  mkASystem (abs_breaker (circ s)) (clock s)
    (dom (filter (fun p => p.2 = generation (circ s)) (calls s)))
    (dom (filter (fun p => p.2 <> generation (circ s)) (calls s))).

(** ** Preservation of the invariant *)

Section Invariant.
  Context (opts : CircuitBreakerOptions) (Hopts : valid_options opts).
  Context (isFailure isIgnored : error -> bool).
  Abbreviation step := (step opts isFailure isIgnored).
  Abbreviation inv := (inv opts).

Lemma cb_inv_start t : inv (start t).
Proof.
  destruct Hopts. constructor; simpl; try done; try lia.
Qed.

Lemma inv_admit s i g c :
  inv s -> calls s !! i = None -> execute_begin opts (clock s) (circ s) = Ok (g, c) ->
  inv (mkSystem c (clock s) (<[i := g]> (calls s))).
Proof.
  intros Hinv Hi (-> & Hg & Hcase)%execute_begin_Ok.
  assert (forall j g', <[i:=generation (circ s)]> (calls s) !! j = Some g' ->
    g' <= generation c) as Hgen.
  { intros j g' [[<- <-]|[_ Hj]]%lookup_insert_Some; [lia|].
    apply Hinv in Hj. lia. }
  destruct Hcase as [[Hst ->]|(Hst & Hel & ->)].
  - destruct Hinv. constructor; simpl; try done; congruence.
  - pose proof (inv_open _ _ Hinv Hst) as [Hle Hno].
    constructor; simpl; try done; try by apply Hinv.
    + intros _. apply (inv_tripped _ _ Hinv). by rewrite Hst.
    + intros _. split; [done|]. exists i. unfold live. simpl.
      split; [by rewrite lookup_insert_eq|].
      intros j [[? ?]|[Hne Hj]]%lookup_insert_Some; [done|]. by destruct (Hno j).
Qed.

(** Removing a finished call that no longer counts. *)
Lemma inv_stale s i g :
  inv s -> calls s !! i = Some g -> g <> generation (circ s) ->
  inv (mkSystem (circ s) (clock s) (delete i (calls s))).
Proof.
  intros Hinv Hi Hg.
  assert (forall j g', delete i (calls s) !! j = Some g' -> calls s !! j = Some g') as Hdel
    by (by intros j g' [_ ?]%lookup_delete_Some).
  constructor; simpl; try apply Hinv; eauto using inv_generation.
  - intros Ho. destruct (inv_open _ _ Hinv Ho) as [? Hno]. split; [done|].
    intros j Hj. apply (Hno j), Hdel, Hj.
  - intros Hh. destruct (inv_half_open _ _ Hinv Hh) as (? & k & Hk & Huniq).
    split; [done|]. exists k. unfold live in *. simpl. split.
    + rewrite lookup_delete_ne; [done|]. congruence.
    + intros j Hj. apply Huniq, Hdel, Hj.
Qed.

(** A new generation: nothing in flight counts any more. *)
Lemma inv_new_generation s c i :
  inv s -> generation c = generation (circ s) + 1 ->
  0 <= consecutiveFailures c ->
  (state c = closed -> consecutiveFailures c < failureThreshold opts) ->
  (state c = open -> (openedAt c <= clock s)%Q /\ failureThreshold opts <= consecutiveFailures c) ->
  state c <> half_open ->
  inv (mkSystem c (clock s) (delete i (calls s))).
Proof.
  intros Hinv Hgen Hf Hcl Hop Hh.
  assert (forall j g, delete i (calls s) !! j = Some g -> g <= generation (circ s)) as Hold.
  { intros j g [_ Hj]%lookup_delete_Some. by eapply inv_generation. }
  constructor; simpl; try done.
  - intros j g Hj%Hold. lia.
  - intros Hne. destruct (state c) eqn:E; [done| |done]. by apply Hop.
  - intros Ho. split; [by apply Hop|]. intros j Hj%Hold. simpl in Hj. lia.
Qed.

(** Settling a live call, on each class of outcome. *)
Lemma inv_settle_live s i o :
  inv s -> live s i ->
  inv (mkSystem (settle_class opts (clock s) o (circ s)) (clock s) (delete i (calls s))).
Proof.
  intros Hinv Hlive. destruct Hopts as [[Hft _] [Hrt _]].
  assert (state (circ s) <> open) as Hno.
  { intros Ho. by destruct (inv_open _ _ Hinv Ho) as [_ []%(fun H => H i)]. }
  pose proof (inv_failures _ _ Hinv) as Hf.
  destruct (state (circ s)) eqn:Hst; [|done|].
  - (* closed *)
    assert (forall c, c = circ s \/ (state c = closed /\ generation c = generation (circ s) /\
      0 <= consecutiveFailures c < failureThreshold opts) ->
      inv (mkSystem c (clock s) (delete i (calls s)))) as Hsame.
    { intros c Hc. assert (state c = closed /\ generation c = generation (circ s) /\
        0 <= consecutiveFailures c < failureThreshold opts) as (Hsc & Hgc & ? & ?).
      { destruct Hc as [->|Hc]; [|done]. pose proof (inv_closed _ _ Hinv Hst). auto. }
      constructor; simpl; try congruence; try done.
      intros j g [_ Hj]%lookup_delete_Some. rewrite Hgc. by eapply inv_generation. }
    destruct o; simpl; rewrite ?Hst.
    + apply Hsame. right. unfold recordHealthy. rewrite Hst. simpl. auto with lia.
    + unfold recordFailure. rewrite Hst. simpl. split_ifs; to_prop.
      * apply inv_new_generation; simpl; try done; try lia. intros _. split; [lra|lia].
      * apply Hsame. right. simpl. auto with lia.
    + apply Hsame. auto.
  - (* half-open *)
    pose proof (inv_tripped _ _ Hinv) as Htr. rewrite Hst in Htr.
    specialize (Htr ltac:(done)).
    destruct o; simpl; unfold recordHealthy, recordFailure; rewrite ?Hst; simpl;
      apply inv_new_generation; simpl; try done; try lia;
      intros _; (split; [|lia]); try lra.
    pose proof (reset_positive opts Hopts). lra.
Qed.

Lemma inv_tick s t : inv s -> (clock s <= t)%Q -> inv (mkSystem (circ s) t (calls s)).
Proof.
  intros Hinv Ht. constructor; simpl; try apply Hinv.
  - intros Ho. destruct (inv_open _ _ Hinv Ho). split; [lra|done].
  - intros Hh. destruct (inv_half_open _ _ Hinv Hh). split; [lra|done].
Qed.

Lemma cb_inv_step s l s' : inv s -> step s l s' -> inv s'.
Proof.
  intros Hinv. destruct 1 as [? i g c ? ?|? e ?|? i g r Hi|? t ?]; eauto using inv_admit, inv_tick.
  rewrite execute_settle_class. destruct (Z.eqb_spec g (generation (circ s))) as [->|Hg].
  - by apply inv_settle_live.
  - by eapply inv_stale.
Qed.

Lemma cb_inv_run s ls s' : run step s ls s' -> inv s -> inv s'.
Proof. apply run_invariant. eauto using cb_inv_step. Qed.

Lemma cb_inv_reachable s : reachable opts isFailure isIgnored s -> inv s.
Proof. intros (t & ls & H). eapply cb_inv_run; eauto using cb_inv_start. Qed.

End Invariant.

(** ** Refinement: the generation counter implements the abstract breaker *)

Section Refinement.
  Context (opts : CircuitBreakerOptions) (Hopts : valid_options opts).
  Context (isFailure isIgnored : error -> bool).
  Abbreviation step := (step opts isFailure isIgnored).
  Abbreviation astep := (astep opts isFailure isIgnored).
  Abbreviation inv := (inv opts).

Lemma elem_alive s i : i ∈ alive (abstract s) <-> live s i.
Proof.
  unfold live. simpl. rewrite elem_of_dom. split.
  - intros [g [Hg Heq]%map_lookup_filter_Some]. simpl in Heq. congruence.
  - intros H. eexists. apply map_lookup_filter_Some. done.
Qed.

Lemma elem_astale s i :
  i ∈ astale (abstract s) <-> exists g, calls s !! i = Some g /\ g <> generation (circ s).
Proof.
  simpl. rewrite elem_of_dom. split.
  - intros [g [Hg Heq]%map_lookup_filter_Some]. eauto.
  - intros (g & Hg & Hne). exists g. apply map_lookup_filter_Some. done.
Qed.

Lemma not_in_flight s i :
  calls s !! i = None -> i ∉ alive (abstract s) ∪ astale (abstract s).
Proof.
  intros Hi. rewrite elem_of_union, elem_alive, elem_astale. unfold live.
  intros [?|(g & ? & _)]; congruence.
Qed.

(** Two abstract states are equal when their parts are, sets pointwise. *)
Lemma abstract_ext s a t L S :
  abs_breaker (circ s) = a -> clock s = t ->
  (forall i, live s i <-> i ∈ L) ->
  (forall i, (exists g, calls s !! i = Some g /\ g <> generation (circ s)) <-> i ∈ S) ->
  abstract s = mkASystem a t L S.
Proof.
  intros Ha Ht HL HS. unfold abstract. f_equal; [done|done| |].
  - apply set_eq. intros i. by rewrite <- HL, <- elem_alive.
  - apply set_eq. intros i. by rewrite <- HS, <- elem_astale.
Qed.

Lemma astep_to a l x s' : astep a l x -> abstract s' = x -> astep a l (abstract s').
Proof. by intros ? ->. Qed.

Lemma sim_admit s i g c :
  inv s -> calls s !! i = None -> execute_begin opts (clock s) (circ s) = Ok (g, c) ->
  astep (abstract s) (Admit i) (abstract (mkSystem c (clock s) (<[i := g]> (calls s)))).
Proof.
  intros Hinv Hi (-> & Hg & Hcase)%execute_begin_Ok.
  assert (forall j, live (mkSystem c (clock s) (<[i:=generation (circ s)]> (calls s))) j <->
    j = i \/ live s j) as Hlive.
  { intros j. unfold live. simpl. rewrite lookup_insert_Some, Hg.
    destruct (decide (i = j)) as [->|]; [tauto|]. split; [intros [[]|[]]|intros []]; auto; congruence. }
  assert (forall j, (exists g, <[i:=generation (circ s)]> (calls s) !! j = Some g /\
      g <> generation c) <-> j ∈ astale (abstract s)) as Hstale.
  { intros j. rewrite elem_astale. setoid_rewrite lookup_insert_Some. rewrite Hg. split.
    - intros (g & [[_ <-]|[_ ?]] & ?); [done|eauto].
    - intros (g & ? & ?). exists g. split; [right|done]. split; [|done]. congruence. }
  destruct Hcase as [[Hst ->]|(Hst & Hel & ->)].
  - eapply astep_to; [eapply astep_admit_closed|apply abstract_ext]; try done.
    + by apply not_in_flight.
    + simpl. unfold abs_breaker. by rewrite Hst.
    + simpl. unfold abs_breaker. by rewrite Hst.
    + intros j. rewrite Hlive, elem_of_union, elem_of_singleton, elem_alive. done.
  - eapply astep_to; [eapply astep_admit_probe|apply abstract_ext]; try done.
    + by apply not_in_flight.
    + simpl. unfold abs_breaker. by rewrite Hst.
    + apply set_eq. intros j. change (j ∈ alive (abstract s) <-> j ∈ (∅ : gset nat)).
      rewrite elem_alive. destruct (inv_open _ _ Hinv Hst) as [_ Hno].
      split; [by intros ?%Hno|by intros ?%not_elem_of_empty].
    + intros j. rewrite Hlive, elem_of_singleton.
      destruct (inv_open _ _ Hinv Hst) as [_ Hno]. naive_solver.
Qed.

Lemma sim_reject s e :
  execute_begin opts (clock s) (circ s) = Err e ->
  astep (abstract s) (Reject e) (abstract s).
Proof.
  intros (ms & -> & Hms & [Hst|[Hst Hl]])%execute_begin_Err; [| |done].
  - apply astep_reject_probing; [|done]. simpl. unfold abs_breaker. by rewrite Hst.
  - eapply astep_reject_open; [|done|done]. simpl. unfold abs_breaker. by rewrite Hst.
Qed.

Lemma sim_settle_stale s i g r :
  calls s !! i = Some g -> g <> generation (circ s) ->
  astep (abstract s) (Settle i r)
    (abstract (mkSystem (circ s) (clock s) (delete i (calls s)))).
Proof.
  intros Hi Hg. eapply astep_to; [eapply astep_settle_stale|apply abstract_ext]; try done.
  - rewrite elem_astale. eauto.
  - intros j. rewrite elem_alive. unfold live. simpl.
    rewrite lookup_delete_Some. split; [by intros [_ ?]|]. intros ?. split; [congruence|done].
  - intros j. rewrite elem_of_difference, elem_of_singleton, elem_astale. simpl.
    setoid_rewrite lookup_delete_Some. naive_solver.
Qed.

(** How a counted outcome moves the circuit, seen abstractly: the reaction of
    the abstract breaker, and a new generation exactly when it invalidates. *)
Lemma settle_class_react now o c a inval :
  state c <> open -> react opts now o (abs_breaker c) = (a, inval) ->
  abs_breaker (settle_class opts now o c) = a /\
  generation (settle_class opts now o c) = (if inval : bool then generation c + 1 else generation c).
Proof.
  unfold abs_breaker, react. intros Hno H.
  destruct (state c) eqn:E, o; simpl in *; try done;
    unfold recordHealthy, recordFailure in *; rewrite ?E in *; simpl in *;
    repeat (case_match; simplify_eq/=); auto.
Qed.

Lemma sim_settle_live s i r :
  inv s -> live s i ->
  astep (abstract s) (Settle i r)
    (abstract (mkSystem (settle_class opts (clock s) (classify isFailure isIgnored r) (circ s))
       (clock s) (delete i (calls s)))).
Proof.
  intros Hinv Hlive.
  destruct (react opts (clock s) (classify isFailure isIgnored r) (abs_breaker (circ s)))
    as [a inval] eqn:Hr.
  assert (state (circ s) <> open) as Hno.
  { intros Ho. by destruct (inv_open _ _ Hinv Ho) as [_ []%(fun H => H i)]. }
  destruct (settle_class_react _ _ _ _ _ Hno Hr) as [Ha Hgen].
  set (c := settle_class _ _ _ _) in *.
  eapply astep_to; [eapply astep_settle_live; [by apply elem_alive|done]|].
  destruct inval; apply abstract_ext; try done; simpl; rewrite ?Hgen.
  - intros j. unfold live. simpl. rewrite Hgen, lookup_delete_Some.
    split; [|by intros ?%not_elem_of_empty].
    intros [_ Hj%(inv_generation _ _ Hinv)]. lia.
  - intros j. change (dom (filter _ (calls s))) with (alive (abstract s)) at 1.
    change (dom (filter _ (calls s))) with (astale (abstract s)).
    rewrite elem_of_union, elem_of_difference, elem_of_singleton, elem_alive, elem_astale.
    setoid_rewrite lookup_delete_Some. unfold live in *. split.
    + intros (g & [Hne Hg] & _). destruct (decide (g = generation (circ s))); naive_solver.
    + intros [[Hj Hne]|(g & Hg & Hne)].
      * exists (generation (circ s)). split; [done|lia].
      * exists g. apply (inv_generation _ _ Hinv) in Hg as Hle.
        split; [split; [congruence|done]|lia].
  - intros j. change (dom (filter _ (calls s))) with (alive (abstract s)).
    rewrite elem_of_difference, elem_of_singleton, elem_alive. unfold live. simpl.
    rewrite Hgen, lookup_delete_Some. naive_solver.
  - intros j. change (dom (filter _ (calls s))) with (astale (abstract s)).
    rewrite elem_astale. setoid_rewrite lookup_delete_Some. unfold live in *. naive_solver.
Qed.

Lemma cb_sim_step s l s' :
  inv s -> step s l s' -> astep (abstract s) l (abstract s').
Proof.
  intros Hinv. destruct 1 as [? i g c ? ?|? e ?|? i g r Hi|? t ?].
  - by apply sim_admit.
  - by apply sim_reject.
  - rewrite execute_settle_class. destruct (Z.eqb_spec g (generation (circ s))) as [->|Hg].
    + by apply sim_settle_live.
    + by eapply sim_settle_stale.
  - by apply (astep_tick opts isFailure isIgnored (abstract s)).
Qed.

Lemma cb_sim_run s ls s' :
  run step s ls s' -> inv s -> run astep (abstract s) ls (abstract s').
Proof.
  induction 1; intros Hinv; [constructor|].
  econstructor; eauto using cb_sim_step. apply IHrun. by eapply (cb_inv_step opts Hopts).
Qed.

Lemma abstract_start t : abstract (start t) = astart t.
Proof. done. Qed.
End Refinement.

(** ** Safety along runs *)

Section Safety.
  Context (opts : CircuitBreakerOptions) (Hopts : valid_options opts).
  Context (isFailure isIgnored : error -> bool).
  Abbreviation step := (step opts isFailure isIgnored).
  Abbreviation inv := (inv opts).

Lemma step_clock s l s' : step s l s' -> (clock s <= clock s')%Q.
Proof. destruct 1; simpl; lra. Qed.

Lemma run_clock s ls s' : run step s ls s' -> (clock s <= clock s')%Q.
Proof. induction 1 as [|? ? ? ? ? H%step_clock]; lra. Qed.

Lemma step_generation s l s' :
  step s l s' -> generation (circ s) <= generation (circ s').
Proof.
  destruct 1 as [? ? ? ? _ (_ & H & _)%execute_begin_Ok| |? i g r Hi|]; simpl; try lia.
  rewrite execute_settle_class. case_match; [|lia].
  pose proof (settle_class_generation opts (clock s) (classify isFailure isIgnored r) (circ s)). lia.
Qed.

Lemma run_generation s ls s' :
  run step s ls s' -> generation (circ s) <= generation (circ s').
Proof. induction 1 as [|? ? ? ? ? H%step_generation]; lia. Qed.

(** A call keeps the generation it was admitted under until it settles. *)
Lemma run_call_stays s ls s' i g :
  run step s ls s' -> calls s !! i = Some g -> (forall r, Settle i r ∉ ls) ->
  calls s' !! i = Some g.
Proof.
  induction 1 as [|s l s1 ls s2 Hs _ IH]; intros Hi Hno; [done|].
  apply IH; [|intros r Hr; apply (Hno r); by right].
  destruct Hs as [? j ? ? Hj| |? j|]; simpl; try done.
  - rewrite lookup_insert_ne; [done|]. congruence.
  - rewrite lookup_delete_ne; [done|]. intros ->. apply (Hno r). by left.
Qed.

(** While the circuit is open and cooling down, no step changes it. *)
Lemma cooling_step s l s' :
  inv s -> state (circ s) = open ->
  (clock s < openedAt (circ s) + inject_Z (resetTimeoutMs opts))%Q ->
  step s l s' -> circ s' = circ s /\ forall j, l <> Admit j.
Proof.
  intros Hinv Hst Hcl. destruct 1 as [? i g c _ Hb| |? i g r Hi|]; simpl; try done.
  - by rewrite execute_begin_open_early in Hb.
  - split; [|done]. apply execute_settle_stale. intros ->.
    by apply (inv_open _ _ Hinv) in Hst as [_ []%(fun H => H i)].
Qed.

Lemma cooling_run s ls s' :
  run step s ls s' -> inv s -> state (circ s) = open ->
  (clock s' < openedAt (circ s) + inject_Z (resetTimeoutMs opts))%Q ->
  circ s' = circ s /\ forall j, Admit j ∉ ls.
Proof.
  induction 1 as [|s l s1 ls s2 Hs Hrun IH]; intros Hinv Hst Hcl.
  - split; [done|]. intros j. apply not_elem_of_nil.
  - pose proof (step_clock _ _ _ Hs). pose proof (run_clock _ _ _ Hrun).
    destruct (cooling_step _ _ _ Hinv Hst ltac:(lra) Hs) as [Heq Hno].
    destruct IH as [IH1 IH2]; rewrite ?Heq; try done.
    { by eapply (cb_inv_step opts Hopts). }
    split; [congruence|]. intros j [Hl|Hl]%elem_of_cons; [by apply (Hno j)|by apply (IH2 j)].
Qed.

(** A counted failure that leaves the circuit open stamps it with the time. *)
Lemma failing_settle_opens s i r s' :
  step s (Settle i r) s' -> classify isFailure isIgnored r = Failing ->
  state (circ s) <> open -> state (circ s') = open ->
  openedAt (circ s') = clock s /\ clock s' = clock s.
Proof.
  inversion 1 as [| |? ? g ? Hi|]; subst; simpl. intros Hc.
  rewrite execute_settle_class, Hc. case_match; [|done]. simpl.
  unfold recordFailure. case_match; done.
Qed.

End Safety.

(** ** The properties *)

(** C1: the breaker with its generation counter refines the abstract breaker:
    every run of overlapping calls, whatever their interleaving and outcomes,
    is a run of the abstract machine with the same labels (admissions,
    refusals, completions), in which the calls in flight when the circuit
    opens, recovers or gives up a probe are simply forgotten. *)
Theorem breaker_refines_spec opts isFailure isIgnored t ls s :
  valid_options opts ->
  run (step opts isFailure isIgnored) (start t) ls s ->
  run (astep opts isFailure isIgnored) (astart t) ls (abstract s).
Proof.
  intros Hopts Hrun. rewrite <- abstract_start.
  eapply cb_sim_run; eauto using cb_inv_start.
Qed.

(** Single probe.  In every reachable half-open state exactly one call in
    flight belongs to the current generation, and no further call is
    admitted. *)
Theorem breaker_single_probe opts isFailure isIgnored s :
  valid_options opts ->
  reachable opts isFailure isIgnored s -> state (circ s) = half_open ->
  (exists i, live s i /\ forall j, live s j -> j = i) /\
  forall j s', ~ step opts isFailure isIgnored s (Admit j) s'.
Proof.
  intros Hopts Hr%cb_inv_reachable Hh; [|done].
  split; [by apply (inv_half_open _ _ Hr Hh)|].
  intros j s'. inversion 1 as [? ? ? ? _ Hb| | |].
  by rewrite execute_begin_half_open in Hb.
Qed.

(** Cooldown.  Once a counted failure opens the circuit at time [t], the
    circuit stays as it is and no call is admitted until [t +
    resetTimeoutMs], whatever the calls still in flight report. *)
Theorem breaker_cooldown opts isFailure isIgnored s i r s1 ls s2 :
  valid_options opts ->
  reachable opts isFailure isIgnored s -> state (circ s) <> open ->
  step opts isFailure isIgnored s (Settle i r) s1 ->
  classify isFailure isIgnored r = Failing -> state (circ s1) = open ->
  run (step opts isFailure isIgnored) s1 ls s2 ->
  (clock s2 < clock s + inject_Z (resetTimeoutMs opts))%Q ->
  circ s2 = circ s1 /\ forall j, Admit j ∉ ls.
Proof.
  intros Hopts Hr%cb_inv_reachable Hst Hs Hc Ho Hrun Hcl; [|done].
  destruct (failing_settle_opens _ _ _ _ _ _ _ Hs Hc Hst Ho) as [Hat _].
  eapply cooling_run; eauto; [by eapply (cb_inv_step opts Hopts)|]. by rewrite Hat.
Qed.

(** Late outcomes.  A call that was in flight when the circuit was open
    can never change the circuit afterwards: however long it takes, and
    whatever happens in between, its completion leaves the circuit as it
    finds it. *)
Theorem breaker_late_outcome_ignored opts isFailure isIgnored s i g ls s1 r s2 :
  valid_options opts ->
  reachable opts isFailure isIgnored s -> state (circ s) = open ->
  calls s !! i = Some g ->
  run (step opts isFailure isIgnored) s ls s1 -> (forall r', Settle i r' ∉ ls) ->
  step opts isFailure isIgnored s1 (Settle i r) s2 ->
  circ s2 = circ s1.
Proof.
  intros Hopts Hr%cb_inv_reachable Hst Hi Hrun Hno Hs; [|done].
  assert (g < generation (circ s)) as Hlt.
  { pose proof (inv_generation _ _ Hr _ _ Hi).
    destruct (inv_open _ _ Hr Hst) as [_ Hnl]. specialize (Hnl i). unfold live in Hnl.
    assert (g <> generation (circ s)) by congruence. lia. }
  pose proof (run_call_stays _ _ _ _ _ _ _ _ Hrun Hi Hno) as Hi1.
  apply run_generation in Hrun.
  inversion Hs as [| |? ? g' ? Hi'|]; subst; simpl.
  apply execute_settle_stale. assert (g' = g) as -> by congruence. lia.
Qed.

(** Recovery.  In a reachable open state whose cooldown has elapsed, the
    next call is admitted as the probe; its success closes the circuit with
    no failure on record, its failure starts a fresh cooldown, and when it is
    abandoned the very next call may probe at once. *)
Theorem breaker_recovers opts isFailure isIgnored s i :
  valid_options opts ->
  reachable opts isFailure isIgnored s -> state (circ s) = open -> calls s !! i = None ->
  (openedAt (circ s) + inject_Z (resetTimeoutMs opts) <= clock s)%Q ->
  exists s1, step opts isFailure isIgnored s (Admit i) s1 /\ state (circ s1) = half_open /\
  forall t r, (clock s <= t)%Q ->
  exists s2, run (step opts isFailure isIgnored) s1 [Tick t; Settle i r] s2 /\
  match classify isFailure isIgnored r with
  | Healthy => state (circ s2) = closed /\ consecutiveFailures (circ s2) = 0
  | Failing => state (circ s2) = open /\ openedAt (circ s2) = t
  | Ignored => state (circ s2) = open /\ consecutiveFailures (circ s2) = consecutiveFailures (circ s) /\
      forall j, calls s2 !! j = None -> exists s3, step opts isFailure isIgnored s2 (Admit j) s3
  end.
Proof.
  intros Hopts Hr%cb_inv_reachable Hst Hi Hel; [|done].
  pose proof (execute_begin_open_elapsed opts (clock s) (circ s) Hst Hel) as Hb.
  eexists. split; [by eapply step_admit|]. split; [done|]. intros t r Ht.
  eexists. split.
  { eapply run_cons; [by apply step_tick|].
    eapply run_cons; [|constructor].
    apply (step_settle _ _ _ (mkSystem _ _ _)). simpl. by rewrite lookup_insert_eq. }
  cbn [circ clock calls]. rewrite execute_settle_class, Z.eqb_refl.
  destruct (classify _ _ _); simpl; [done|done|].
  split; [done|]. split; [done|]. intros j Hj. eexists.
  eapply step_admit; [done|]. apply execute_begin_open_elapsed; simpl; [done|lra].
Qed.

(** What clients see.  In every reachable state the snapshot's
    [retryAfterMs] lies between 0 and [resetTimeoutMs], it is 0 exactly when
    the next call would be admitted, and the failure count reported for a
    closed circuit is below the threshold. *)
Theorem breaker_snapshot_bounds opts isFailure isIgnored s :
  valid_options opts -> reachable opts isFailure isIgnored s ->
  let snap := snapshot opts (clock s) (circ s) in
  (0 <= snap_retryAfterMs snap <= inject_Z (resetTimeoutMs opts))%Q /\
  ((snap_retryAfterMs snap == 0)%Q <-> is_Ok (execute_begin opts (clock s) (circ s)) = true) /\
  0 <= snap_consecutiveFailures snap /\
  (snap_state snap = closed <-> snap_consecutiveFailures snap < failureThreshold opts).
Proof.
  intros Hopts Hr%cb_inv_reachable; [|done]. pose proof (reset_positive opts Hopts) as Hpos.
  simpl. split; [|split; [|split]].
  - destruct (state (circ s)) eqn:E; try lra.
    destruct (inv_open _ _ Hr E). unfold Qmaxb. split_ifs; to_prop; lra.
  - destruct (execute_begin opts (clock s) (circ s)) as [e|[g c]] eqn:Hb; simpl.
    + split; [|done]. unfold execute_begin, snapshot in Hb. destruct (_ || _) eqn:Hc in Hb; [|done].
      apply orb_true_iff in Hc as [Hc|Hc]; to_prop; simpl in *.
      * rewrite Hc. lra.
      * lra.
    + split; [done|]. intros _. apply execute_begin_Ok in Hb as (_ & _ & [[-> _]|(-> & Hel & _)]); [lra|].
      unfold Qmaxb. split_ifs; to_prop; lra.
  - apply Hr.
  - split; [apply Hr|]. intros Hlt. destruct (state (circ s)) eqn:E; [done|..];
      pose proof (inv_tripped _ _ Hr) as Ht; rewrite E in Ht; specialize (Ht ltac:(done)); lia.
Qed.

(** ** Concrete scenarios: threshold 1, cooldown one second *)

Definition ex_opts : CircuitBreakerOptions := mkOptions 1 1000.
Definition ex_down : result error () := Err (ProviderConnectionError "ollama").
Definition ex_step := exec_step ex_opts isRetryableProviderError isIgnoredError.

(** Two calls admitted at time 0; the first fails and opens the circuit. *)
Definition ex_open_labels : list label := [Admit 0; Admit 1; Settle 0 ex_down].
(** A second later a third call probes. *)
Definition ex_probe_labels : list label := ex_open_labels ++ [Tick 1000; Admit 2].

Definition ex_after (ls : list label) : system :=
  default (start 0) (exec_run ex_step (start 0) ls).

Lemma cb_ex_valid : valid_options ex_opts.
Proof. unfold valid_options. simpl. split; split; by vm_compute. Qed.

Lemma ex_reaches ls :
  defined (exec_run ex_step (start 0) ls) = true ->
  run (step ex_opts isRetryableProviderError isIgnoredError) (start 0) ls (ex_after ls).
Proof.
  unfold ex_after. destruct (exec_run _ _ _) as [s|] eqn:Hs; [|done]. intros _.
  eapply exec_run_sound; [|exact Hs]. apply cb_exec_step_sound.
Qed.

Lemma cb_ex_reachable ls :
  defined (exec_run ex_step (start 0) ls) = true ->
  reachable ex_opts isRetryableProviderError isIgnoredError (ex_after ls).
Proof. intros H. exists 0%Q, ls. by apply ex_reaches. Qed.

Lemma breaker_refines_spec_witness :
  run (astep ex_opts isRetryableProviderError isIgnoredError) (astart 0) ex_probe_labels
    (abstract (ex_after ex_probe_labels)).
Proof.
  apply breaker_refines_spec; [apply cb_ex_valid|].
  apply ex_reaches. by vm_compute.
Defined.

Lemma breaker_single_probe_witness :
  exists i, live (ex_after ex_probe_labels) i.
Proof.
  destruct (breaker_single_probe ex_opts isRetryableProviderError isIgnoredError
    (ex_after ex_probe_labels)) as [(i & Hi & _) _];
    [apply cb_ex_valid|apply cb_ex_reachable; by vm_compute|by vm_compute|].
  by exists i.
Defined.

Lemma breaker_cooldown_witness :
  circ (mkSystem (circ (ex_after ex_open_labels)) 999 (calls (ex_after ex_open_labels)))
  = circ (ex_after ex_open_labels).
Proof.
  apply (breaker_cooldown ex_opts isRetryableProviderError isIgnoredError
    (ex_after [Admit 0; Admit 1]) 0%nat ex_down (ex_after ex_open_labels) [Tick 999]);
    [apply cb_ex_valid|apply cb_ex_reachable; by vm_compute|by vm_compute| |done|by vm_compute| |by vm_compute].
  - apply cb_exec_step_sound. by vm_compute.
  - econstructor; [by apply step_tick|constructor].
Defined.

Lemma breaker_late_outcome_ignored_witness :
  circ (ex_after (ex_probe_labels ++ [Settle 1 (Ok ())])) = circ (ex_after ex_probe_labels).
Proof.
  apply (breaker_late_outcome_ignored ex_opts isRetryableProviderError isIgnoredError
    (ex_after ex_open_labels) 1%nat 0 [Tick 1000; Admit 2] _ (Ok ()));
    [apply cb_ex_valid|apply cb_ex_reachable; by vm_compute|by vm_compute|by vm_compute| | |].
  - apply (exec_run_sound _ ex_step); [apply cb_exec_step_sound|by vm_compute].
  - intros r'. set_solver.
  - apply cb_exec_step_sound. by vm_compute.
Defined.

Lemma breaker_recovers_witness :
  exists s1, step ex_opts isRetryableProviderError isIgnoredError
    (ex_after (ex_open_labels ++ [Tick 1000])) (Admit 2) s1.
Proof.
  destruct (breaker_recovers ex_opts isRetryableProviderError isIgnoredError
    (ex_after (ex_open_labels ++ [Tick 1000])) 2%nat) as (s1 & Hs & _);
    [apply cb_ex_valid|apply cb_ex_reachable; by vm_compute|by vm_compute|by vm_compute|by vm_compute|].
  by exists s1.
Defined.

Lemma breaker_snapshot_bounds_witness :
  (0 <= snap_retryAfterMs (snapshot ex_opts 0 (circ (ex_after ex_open_labels))))%Q.
Proof.
  apply (breaker_snapshot_bounds ex_opts isRetryableProviderError isIgnoredError
    (ex_after ex_open_labels)); [apply cb_ex_valid|apply cb_ex_reachable; by vm_compute].
Defined.

End BreakerSystem.
