(* ===== verification/ConcurrencyLimiter.v ===== *)
(** * The process-local concurrency limiter

    [src/src/concurrency/in-memory-concurrency-limiter.ts] and the interface
    [concurrency-limiter.ts].  The private fields are the record [limiter];
    three further components make the closures' variables explicit: the
    settlement of every promise returned by [acquire] ([promises], which for a
    granted permit holds the permit object with its [released] flag), the
    timers still armed and the abort listeners still registered.  Calls of
    [acquire] are identified by a number, which plays the role of the identity
    of the [pending] object.

    Each entry point is one function: [acquire], the timer callback
    [onTimeout], the listener [onAbort] and a permit's [release]; the step
    relation lets them occur in any order. *)

From S2P Require Import Prelude JsNumber Errors Chat.
Import JsNumber Errors Telemetry.

Module ConcurrencyLimiter.

Record LimiterOptions : Type := mkLimiterOptions {
  maxConcurrent : Z;
  maxQueueSize : Z;
  waitTimeoutMs : Z
}.

Record PendingAcquire : Type := mkPending { pid : nat; enqueuedAt : Q }.

Record ConcurrencyPermit : Type := mkPermit {
  waitTimeMs : Q;
  activeAtAdmission : Z;
  queuedAtAdmission : Z;
  released : bool
}.

Record ConcurrencySnapshot : Type := mkConcurrencySnapshot {
  snap_active : Z;
  snap_queued : Z;
  snap_admitted : Z;
  snap_rejected : Z;
  snap_timedOut : Z;
  snap_aborted : Z;
  snap_totalWaitTimeMs : Q;
  snap_maxWaitTimeMs : Q
}.

Record limiter : Type := mkLimiter {
  active : Z;
  queue : list PendingAcquire;
  admitted : Z;
  rejected : Z;
  timedOut : Z;
  aborted : Z;
  totalWaitTimeMs : Q;
  maxWaitTimeMs : Q;
  promises : gmap nat (result error ConcurrencyPermit);
  timers : gset nat;
  listeners : gset nat;
  events : list MetricEvent
}.

Definition initial : limiter := mkLimiter 0 [] 0 0 0 0 0 0 ∅ ∅ ∅ [].

(** [validateOptions] *)
Definition validateOptions (maxConcurrent maxQueueSize waitTimeoutMs : number) :
    result error LimiterOptions :=
  if negb (isInteger maxConcurrent) || ltb maxConcurrent (of_Z 1) then
    Err (PlainError "maxConcurrent must be a positive integer")
  else if negb (isInteger maxQueueSize) || ltb maxQueueSize (of_Z 0) then
    Err (PlainError "maxQueueSize must be a non-negative integer")
  else if negb (isInteger waitTimeoutMs) || ltb waitTimeoutMs (of_Z 1) then
    Err (PlainError "waitTimeoutMs must be a positive integer")
  else Ok (mkLimiterOptions (toZ maxConcurrent) (toZ maxQueueSize) (toZ waitTimeoutMs)).

Definition valid_options (o : LimiterOptions) : Prop :=
  1 <= maxConcurrent o /\ 0 <= maxQueueSize o /\ 1 <= waitTimeoutMs o.

(** Field updates. *)
Definition queueLength (s : limiter) : Z := Z.of_nat (length (queue s)).

Definition emit (e : MetricEvent) (s : limiter) : limiter :=
  mkLimiter (active s) (queue s) (admitted s) (rejected s) (timedOut s) (aborted s)
    (totalWaitTimeMs s) (maxWaitTimeMs s) (promises s) (timers s) (listeners s)
    (events s ++ [e]).

Definition settle (i : nat) (r : result error ConcurrencyPermit) (s : limiter) : limiter :=
  mkLimiter (active s) (queue s) (admitted s) (rejected s) (timedOut s) (aborted s)
    (totalWaitTimeMs s) (maxWaitTimeMs s) (<[i := r]> (promises s)) (timers s) (listeners s)
    (events s).

Definition set_active (a : Z) (s : limiter) : limiter :=
  mkLimiter a (queue s) (admitted s) (rejected s) (timedOut s) (aborted s)
    (totalWaitTimeMs s) (maxWaitTimeMs s) (promises s) (timers s) (listeners s) (events s).

Definition set_queue (q : list PendingAcquire) (s : limiter) : limiter :=
  mkLimiter (active s) q (admitted s) (rejected s) (timedOut s) (aborted s)
    (totalWaitTimeMs s) (maxWaitTimeMs s) (promises s) (timers s) (listeners s) (events s).

Definition count_rejected (s : limiter) : limiter :=
  mkLimiter (active s) (queue s) (admitted s) (rejected s + 1) (timedOut s) (aborted s)
    (totalWaitTimeMs s) (maxWaitTimeMs s) (promises s) (timers s) (listeners s) (events s).

Definition count_timedOut (s : limiter) : limiter :=
  mkLimiter (active s) (queue s) (admitted s) (rejected s) (timedOut s + 1) (aborted s)
    (totalWaitTimeMs s) (maxWaitTimeMs s) (promises s) (timers s) (listeners s) (events s).

Definition count_aborted (s : limiter) : limiter :=
  mkLimiter (active s) (queue s) (admitted s) (rejected s) (timedOut s) (aborted s + 1)
    (totalWaitTimeMs s) (maxWaitTimeMs s) (promises s) (timers s) (listeners s) (events s).

(** [pending.cleanup()] *)
Definition cleanup (i : nat) (s : limiter) : limiter :=
  mkLimiter (active s) (queue s) (admitted s) (rejected s) (timedOut s) (aborted s)
    (totalWaitTimeMs s) (maxWaitTimeMs s) (promises s)
    (timers s ∖ {[i]}) (listeners s ∖ {[i]}) (events s).

(** The method [admit(waitTimeMs)], resolving the promise of call [i] with the permit. *)
Definition admit_permit (i : nat) (wait : Q) (s : limiter) : limiter :=
  let s := emit (admission admitted_ wait) s in
  let s := mkLimiter (active s) (queue s) (admitted s + 1) (rejected s) (timedOut s) (aborted s)
             (totalWaitTimeMs s + wait) (Qmaxb (maxWaitTimeMs s) wait)
             (promises s) (timers s) (listeners s) (events s) in
  settle i (Ok (mkPermit wait (active s) (queueLength s) false)) s.

Section Operations.
  Context (opts : LimiterOptions).

(** [acquire(signal)], up to its first suspension: [signal] is [None] when
    absent and [Some b] with [b] its [aborted] flag. *)
Definition acquire (now : Q) (i : nat) (signal : option bool) (s : limiter) : limiter :=
  if default false signal then
    settle i (Err RequestAbortedError) (emit (admission cancelled_ 0) (count_aborted s))
  else if active s <? maxConcurrent opts then
    admit_permit i 0 (set_active (active s + 1) s)
  else if maxQueueSize opts <=? queueLength s then
    settle i (Err (ConcurrencyQueueFullError (maxConcurrent opts) (maxQueueSize opts)))
      (emit (admission queue_full_ 0) (count_rejected s))
  else
    mkLimiter (active s) (queue s ++ [mkPending i now]) (admitted s) (rejected s) (timedOut s)
      (aborted s) (totalWaitTimeMs s) (maxWaitTimeMs s) (promises s)
      ({[i]} ∪ timers s)
      (match signal with Some _ => {[i]} ∪ listeners s | None => listeners s end)
      (events s).

(** The closure [remove]: take the pending call out of the queue if it is
    still there. *)
Definition remove (i : nat) (s : limiter) : option (PendingAcquire * limiter) :=
  match remove_first (fun p => Nat.eqb (pid p) i) (queue s) with
  | None => None
  | Some (p, q) => Some (p, cleanup i (set_queue q s))
  end.

(** The abort listener. *)
Definition onAbort (now : Q) (i : nat) (s : limiter) : limiter :=
  match remove i s with
  | None => s
  | Some (p, s) =>
      settle i (Err RequestAbortedError)
        (emit (admission cancelled_ (now - enqueuedAt p)) (count_aborted s))
  end.

(** The timer callback. *)
Definition onTimeout (now : Q) (i : nat) (s : limiter) : limiter :=
  match remove i s with
  | None => s
  | Some (p, s) =>
      settle i (Err (ConcurrencyWaitTimeoutError (waitTimeoutMs opts)))
        (emit (admission timeout_ (now - enqueuedAt p)) (count_timedOut s))
  end.

(** The limiter's private [release()]. *)
Definition release (now : Q) (s : limiter) : limiter :=
  match queue s with
  | [] => set_active (active s - 1) s
  | next :: q =>
      let s := cleanup (pid next) (set_queue q s) in
      admit_permit (pid next) (now - enqueuedAt next) s
  end.

(** A permit's [release()]. *)
Definition permit_release (now : Q) (i : nat) (s : limiter) : limiter :=
  match promises s !! i with
  | Some (Ok p) =>
      if released p then s
      else release now (settle i (Ok (mkPermit (waitTimeMs p) (activeAtAdmission p)
                                        (queuedAtAdmission p) true)) s)
  | _ => s
  end.

Definition snapshot (s : limiter) : ConcurrencySnapshot :=
  mkConcurrencySnapshot (active s) (queueLength s) (admitted s) (rejected s) (timedOut s)
    (aborted s) (totalWaitTimeMs s) (maxWaitTimeMs s).

(** ** Steps *)

Inductive label : Type :=
| Acquire (i : nat) (signal : option bool)
| Timeout (i : nat)
| Abort (i : nat)
| Release (i : nat).

(** The identities already handed out. *)
Definition known (s : limiter) (i : nat) : Prop :=
  is_Some (promises s !! i) \/ i ∈ (pid <$> queue s).

(** A step happens at some time [now]; [acquire] always concerns a new call,
    the callbacks and [release] may come at any moment and more than once. *)
Inductive step : limiter -> label -> limiter -> Prop :=
| step_acquire s now i signal :
    ~ known s i -> step s (Acquire i signal) (acquire now i signal s)
| step_timeout s now i : step s (Timeout i) (onTimeout now i s)
| step_abort s now i : step s (Abort i) (onAbort now i s)
| step_release s now i : step s (Release i) (permit_release now i s).

Definition reachable (s : limiter) : Prop := exists ls, run step initial ls s.
End Operations.

(** ** The abstract semaphore *)

Module Semaphore.

Record sem : Type := mkSem { holders : gset nat; waiting : list nat }.

Section Steps.
  Context (opts : LimiterOptions).

Inductive sem_step : sem -> label -> sem -> Prop :=
| sem_cancelled a i : sem_step a (Acquire i (Some true)) a
| sem_grant a i sg :
    sg <> Some true -> i ∉ holders a -> i ∉ waiting a ->
    Z.of_nat (size (holders a)) < maxConcurrent opts ->
    waiting a = [] ->
    sem_step a (Acquire i sg) (mkSem ({[i]} ∪ holders a) [])
| sem_enqueue a i sg :
    sg <> Some true -> i ∉ holders a -> i ∉ waiting a ->
    Z.of_nat (size (holders a)) = maxConcurrent opts ->
    Z.of_nat (length (waiting a)) < maxQueueSize opts ->
    sem_step a (Acquire i sg) (mkSem (holders a) (waiting a ++ [i]))
| sem_refuse a i sg :
    sg <> Some true ->
    Z.of_nat (size (holders a)) = maxConcurrent opts ->
    Z.of_nat (length (waiting a)) = maxQueueSize opts ->
    sem_step a (Acquire i sg) a
| sem_leave a l i w1 w2 :
    l = Timeout i \/ l = Abort i -> waiting a = w1 ++ i :: w2 ->
    sem_step a l (mkSem (holders a) (w1 ++ w2))
| sem_late a l i :
    l = Timeout i \/ l = Abort i -> i ∉ waiting a -> sem_step a l a
| sem_release a i :
    i ∈ holders a -> waiting a = [] ->
    sem_step a (Release i) (mkSem (holders a ∖ {[i]}) [])
| sem_hand_over a i j w :
    i ∈ holders a -> waiting a = j :: w ->
    sem_step a (Release i) (mkSem ({[j]} ∪ holders a ∖ {[i]}) w)
| sem_double_release a i :
    i ∉ holders a -> sem_step a (Release i) a.
End Steps.
End Semaphore.
Import Semaphore.

Definition unreleased (r : result error ConcurrencyPermit) : bool :=
  match r with Ok p => negb (released p) | Err _ => false end.

Definition permit_holders (s : limiter) : gset nat :=
  dom (filter (fun p => unreleased p.2 = true) (promises s)).

Definition abstract (s : limiter) : sem := mkSem (permit_holders s) (pid <$> queue s).

(** ** The invariant *)

(** How a settled promise counts, and how an event counts. *)
Definition kind (r : result error ConcurrencyPermit) : option AdmissionOutcome :=
  match r with
  | Ok _ => Some admitted_
  | Err (ConcurrencyQueueFullError _ _) => Some queue_full_
  | Err (ConcurrencyWaitTimeoutError _) => Some timeout_
  | Err RequestAbortedError => Some cancelled_
  | Err _ => None
  end.

Definition has_kind (k : AdmissionOutcome) (r : result error ConcurrencyPermit) : bool :=
  bool_decide (kind r = Some k).

Definition is_admission (k : AdmissionOutcome) (e : MetricEvent) : bool :=
  match e with admission k' _ => bool_decide (k' = k) | _ => false end.

Definition counter (k : AdmissionOutcome) (s : limiter) : Z :=
  match k with
  | admitted_ => admitted s
  | queue_full_ => rejected s
  | timeout_ => timedOut s
  | cancelled_ => aborted s
  end.

Definition event_count (k : AdmissionOutcome) (es : list MetricEvent) : nat :=
  length (filter (fun e => is_admission k e = true) es).

Record inv (opts : LimiterOptions) (s : limiter) : Prop := {
  inv_active : active s = Z.of_nat (map_count unreleased (promises s));
  inv_max : active s <= maxConcurrent opts;
  inv_busy : queue s <> [] -> active s = maxConcurrent opts;
  inv_queue : queueLength s <= maxQueueSize opts;
  inv_nodup : NoDup (pid <$> queue s);
  inv_pending : forall i, i ∈ (pid <$> queue s) -> promises s !! i = None;
  inv_timers : timers s = list_to_set (pid <$> queue s);
  inv_listeners : listeners s ⊆ timers s;
  inv_counts : forall k, counter k s = Z.of_nat (map_count (has_kind k) (promises s));
  inv_events : forall k, counter k s = Z.of_nat (event_count k (events s));
  inv_wait : forall i p, promises s !! i = Some (Ok p) -> (waitTimeMs p <= maxWaitTimeMs s)%Q
}.

Lemma event_count_snoc k es e :
  event_count k (es ++ [e]) = (event_count k es + if is_admission k e then 1 else 0)%nat.
Proof.
  unfold event_count. rewrite filter_app, length_app. f_equal.
  rewrite filter_cons, filter_nil. destruct (is_admission k e); by case_decide.
Qed.

Lemma has_kind_eq r k k' : kind r = Some k -> has_kind k' r = bool_decide (k = k').
Proof. unfold has_kind. intros ->. repeat case_bool_decide; congruence. Qed.

Lemma counter_admit k i w s :
  counter k (admit_permit i w s) = counter k s + if bool_decide (admitted_ = k) then 1 else 0.
Proof. destruct k; simpl; lia. Qed.

Lemma size_permit_holders s : size (permit_holders s) = map_count unreleased (promises s).
Proof. unfold permit_holders, map_count. by rewrite size_dom. Qed.

(** [Qmaxb] keeps the wait bound when a permit with wait [w] is added. *)
Lemma wait_bound_insert (m : gmap nat (result error ConcurrencyPermit)) mx j q w :
  (forall i p, m !! i = Some (Ok p) -> (waitTimeMs p <= mx)%Q) -> waitTimeMs q = w ->
  forall i p, <[j := Ok q]> m !! i = Some (Ok p) -> (waitTimeMs p <= Qmaxb mx w)%Q.
Proof.
  intros Hm Hq i p [[_ [= <-]]|[_ Hi%Hm]]%lookup_insert_Some;
    destruct (Qmaxb_spec mx w) as (? & ? & _); [rewrite Hq|]; lra.
Qed.

Lemma wait_bound_err (m : gmap nat (result error ConcurrencyPermit)) mx j e :
  (forall i p, m !! i = Some (Ok p) -> (waitTimeMs p <= mx)%Q) ->
  forall i p, <[j := Err e]> m !! i = Some (Ok p) -> (waitTimeMs p <= mx)%Q.
Proof. intros Hm i p [[_ ?]|[_ Hi%Hm]]%lookup_insert_Some; done. Qed.

(** The queue around a waiting call. *)
Lemma remove_spec i s p s' :
  remove i s = Some (p, s') ->
  exists q1 q2, queue s = q1 ++ p :: q2 /\ pid p = i /\ s' = cleanup i (set_queue (q1 ++ q2) s).
Proof.
  unfold remove. intros H. destruct (remove_first _ _) as [[p' q]|] eqn:E; simplify_eq.
  apply remove_first_Some in E as (q1 & q2 & ? & -> & Hp & _). to_prop. eauto.
Qed.

Lemma remove_none i s : remove i s = None <-> i ∉ (pid <$> queue s).
Proof.
  unfold remove. destruct (remove_first _ _) as [[p' q]|] eqn:E.
  - apply remove_first_Some in E as (q1 & q2 & -> & -> & Hp & _). to_prop. subst.
    split; [done|]. rewrite fmap_app. set_solver.
  - split; [|done]. intros _ Hi. apply remove_first_None in E. rewrite Forall_forall in E.
    apply list_elem_of_fmap in Hi as (p & -> & Hp%E). by rewrite Nat.eqb_refl in Hp.
Qed.

Section Preservation.
  Context (opts : LimiterOptions) (Hopts : valid_options opts).
  Abbreviation inv := (inv opts).

Lemma inv_initial : inv initial.
Proof.
  destruct Hopts as (? & ? & ?).
  constructor; simpl; try done; try lia; try set_solver; try by intros [].
  constructor.
Qed.

Lemma not_known s i : ~ known s i -> promises s !! i = None /\ i ∉ (pid <$> queue s).
Proof. unfold known. intros H. split; [apply eq_None_not_Some|]; tauto. Qed.

(** An [acquire] that settles at once with an error counted under [k]. *)
Lemma inv_acquire_err s i e k d s' :
  inv s -> ~ known s i -> kind (Err e) = Some k ->
  active s' = active s -> queue s' = queue s -> maxWaitTimeMs s' = maxWaitTimeMs s ->
  promises s' = <[i := Err e]> (promises s) -> timers s' = timers s ->
  listeners s' = listeners s -> events s' = events s ++ [admission k d] ->
  (forall k', counter k' s' = counter k' s + if bool_decide (k = k') then 1 else 0) ->
  inv s'.
Proof.
  intros Hinv [Hp Hq]%not_known Hk Ha Hqu Hw Hpr Ht Hl He Hc.
  constructor; unfold queueLength; rewrite ?Ha, ?Hqu, ?Hw, ?Hpr, ?Ht, ?Hl, ?He; try apply Hinv.
  - rewrite map_count_fresh by done. apply Hinv.
  - intros j Hj. rewrite lookup_insert_ne by congruence. by apply Hinv.
  - intros k'. rewrite Hc, map_count_fresh, (has_kind_eq _ k) by done.
    rewrite (inv_counts _ _ Hinv). repeat case_bool_decide; simplify_eq; lia.
  - intros k'. rewrite Hc, event_count_snoc. simpl. rewrite (inv_events _ _ Hinv).
    repeat case_bool_decide; simplify_eq; lia.
  - apply wait_bound_err, Hinv.
Qed.

Lemma inv_acquire s now i signal :
  inv s -> ~ known s i -> inv (acquire opts now i signal s).
Proof.
  intros Hinv Hk. unfold acquire. destruct (default false signal).
  { eapply (inv_acquire_err s i RequestAbortedError cancelled_ 0); try done.
    intros []; simpl; lia. }
  destruct (active s <? maxConcurrent opts) eqn:Hact; to_prop.
  { apply not_known in Hk as [Hp Hq].
    assert (queue s = []) as Hnil.
    { destruct (queue s) eqn:E; [done|]. exfalso.
      assert (active s = maxConcurrent opts); [|lia]. apply Hinv. by rewrite E. }
    pose proof (inv_active _ _ Hinv) as Hac.
    constructor; unfold queueLength; simpl; rewrite ?Hnil; simpl; try by apply Hinv; try done.
    - rewrite map_count_fresh by done. simpl. lia.
    - lia.
    - by intros [].
    - destruct Hopts as (? & ? & ?). lia.
    - constructor.
    - set_solver.
    - rewrite (inv_timers _ _ Hinv), Hnil. done.
    - intros k. rewrite map_count_fresh, (has_kind_eq _ admitted_) by done.
      pose proof (inv_counts _ _ Hinv k). destruct k; simpl in *; lia.
    - intros k. rewrite event_count_snoc.
      pose proof (inv_events _ _ Hinv k). destruct k; simpl in *; lia.
    - by apply wait_bound_insert; [apply Hinv|]. }
  destruct (maxQueueSize opts <=? queueLength s) eqn:Hfull; to_prop.
  { eapply (inv_acquire_err s i (ConcurrencyQueueFullError _ _) queue_full_ 0); try done; []. intros []; simpl; lia. }
  apply not_known in Hk as [Hp Hq].
  constructor; unfold queueLength in *; simpl; try by apply Hinv.
  - pose proof (inv_max _ _ Hinv). lia.
  - rewrite length_app. simpl. lia.
  - rewrite fmap_app. apply NoDup_app. split; [apply Hinv|]. split.
    + intros j Hj ->%list_elem_of_singleton. done.
    + apply NoDup_singleton.
  - intros j. rewrite fmap_app. intros [Hj| ->%list_elem_of_singleton]%elem_of_app; [|done].
    by apply Hinv.
  - rewrite fmap_app, list_to_set_app_L. simpl. rewrite (inv_timers _ _ Hinv). set_solver.
  - pose proof (inv_listeners _ _ Hinv). destruct signal; set_solver.
Qed.

(** A waiting call that leaves the queue with an error counted under [k]. *)
Lemma inv_leave s i p s1 e k d s' :
  inv s -> remove i s = Some (p, s1) -> kind (Err e) = Some k ->
  active s' = active s1 -> queue s' = queue s1 -> maxWaitTimeMs s' = maxWaitTimeMs s1 ->
  promises s' = <[i := Err e]> (promises s1) -> timers s' = timers s1 ->
  listeners s' = listeners s1 -> events s' = events s1 ++ [admission k d] ->
  (forall k', counter k' s' = counter k' s1 + if bool_decide (k = k') then 1 else 0) ->
  inv s'.
Proof.
  intros Hinv (q1 & q2 & Hq & Hpi & ->)%remove_spec Hk Ha Hqu Hw Hpr Ht Hl He Hc. subst i.
  pose proof (inv_nodup _ _ Hinv) as Hnd. pose proof (inv_pending _ _ Hinv) as Hpend.
  rewrite Hq, fmap_app in Hnd, Hpend. simpl in *.
  assert (promises s !! pid p = None) as Hnone by (apply Hpend; set_solver).
  apply NoDup_app in Hnd as (Hnd1 & Hnd2 & Hnd3). apply NoDup_cons in Hnd3 as [Hnd3 Hnd4].
  assert (active s = maxConcurrent opts) as Hbusy.
  { apply Hinv. rewrite Hq. by destruct q1. }
  constructor; unfold queueLength; rewrite ?Ha, ?Hqu, ?Hw, ?Hpr, ?Ht, ?Hl, ?He; simpl;
    try by apply Hinv; try done.
  - rewrite map_count_fresh by done. apply Hinv.
  - done.
  - pose proof (inv_queue _ _ Hinv) as Hlen. unfold queueLength in Hlen. rewrite Hq in Hlen.
    rewrite !length_app in *. simpl in Hlen. lia.
  - rewrite fmap_app. apply NoDup_app. split; [done|]. split; [|done].
    intros x Hx Hx2. apply (Hnd2 x Hx). by right.
  - intros j Hj. rewrite fmap_app in Hj. rewrite lookup_insert_ne.
    + apply Hpend. set_solver.
    + intros <-. apply elem_of_app in Hj as [Hj|Hj]; [|done]. apply (Hnd2 _ Hj). by left.
  - rewrite (inv_timers _ _ Hinv), Hq, !fmap_app. simpl. rewrite !list_to_set_app_L. simpl.
    assert (pid p ∉ (list_to_set (pid <$> q1) : gset nat)) by
      (rewrite elem_of_list_to_set; intros Hx; apply (Hnd2 _ Hx); by left).
    assert (pid p ∉ (list_to_set (pid <$> q2) : gset nat)) by (by rewrite elem_of_list_to_set).
    set_solver.
  - pose proof (inv_listeners _ _ Hinv). set_solver.
  - intros k'. rewrite Hc, map_count_fresh, (has_kind_eq _ k) by done.
    pose proof (inv_counts _ _ Hinv k') as Hck.
    destruct k'; simpl in *; repeat case_bool_decide; simplify_eq; lia.
  - intros k'. rewrite Hc, event_count_snoc. simpl. pose proof (inv_events _ _ Hinv k') as Hck.
    destruct k'; simpl in *; repeat case_bool_decide; simplify_eq; lia.
  - apply wait_bound_err, Hinv.
Qed.

Lemma inv_onTimeout s now i : inv s -> inv (onTimeout opts now i s).
Proof.
  intros Hinv. unfold onTimeout. destruct (remove i s) as [[p s1]|] eqn:E; [|done].
  eapply (inv_leave s i p s1 (ConcurrencyWaitTimeoutError _) timeout_); try done. intros []; simpl; lia.
Qed.

Lemma inv_onAbort s now i : inv s -> inv (onAbort now i s).
Proof.
  intros Hinv. unfold onAbort. destruct (remove i s) as [[p s1]|] eqn:E; [|done].
  eapply (inv_leave s i p s1 RequestAbortedError cancelled_); try done. intros []; simpl; lia.
Qed.

(** Flipping the [released] flag of a held permit. *)
Definition returned (p : ConcurrencyPermit) : ConcurrencyPermit :=
  mkPermit (waitTimeMs p) (activeAtAdmission p) (queuedAtAdmission p) true.

Lemma returned_unreleased (m : gmap nat (result error ConcurrencyPermit)) i p :
  m !! i = Some (Ok p) -> released p = false ->
  S (map_count unreleased (<[i := Ok (returned p)]> m)) = map_count unreleased m.
Proof.
  intros Hi Hr. pose proof (map_count_replace unreleased m i (Ok (returned p)) _ Hi) as H.
  simpl in H. rewrite Hr in H. done.
Qed.

Lemma returned_kind (m : gmap nat (result error ConcurrencyPermit)) i p k :
  m !! i = Some (Ok p) ->
  map_count (has_kind k) (<[i := Ok (returned p)]> m) = map_count (has_kind k) m.
Proof.
  intros Hi. pose proof (map_count_replace (has_kind k) m i (Ok (returned p)) _ Hi) as H.
  rewrite !(has_kind_eq _ admitted_) in H by done. lia.
Qed.

Lemma returned_wait (m : gmap nat (result error ConcurrencyPermit)) i p mx :
  m !! i = Some (Ok p) ->
  (forall j q, m !! j = Some (Ok q) -> (waitTimeMs q <= mx)%Q) ->
  forall j q, <[i := Ok (returned p)]> m !! j = Some (Ok q) -> (waitTimeMs q <= mx)%Q.
Proof.
  intros Hi Hm j q [[_ [= <-]]|[_ Hj]]%lookup_insert_Some; [|by eapply Hm].
  by apply (Hm _ _ Hi).
Qed.

Lemma inv_release_idle s i p :
  inv s -> promises s !! i = Some (Ok p) -> released p = false -> queue s = [] ->
  inv (set_active (active s - 1) (settle i (Ok (returned p)) s)).
Proof.
  intros Hinv Hi Hr Hq.
  pose proof (returned_unreleased _ _ _ Hi Hr) as Hcnt. pose proof (inv_active _ _ Hinv).
  constructor; unfold queueLength; simpl; try by apply Hinv.
  - lia.
  - pose proof (inv_max _ _ Hinv). lia.
  - by rewrite Hq.
  - rewrite Hq. set_solver.
  - intros k. rewrite returned_kind by done. apply (inv_counts _ _ Hinv).
  - apply returned_wait; [done|apply Hinv].
Qed.

Lemma inv_hand_over s now i p next q :
  inv s -> promises s !! i = Some (Ok p) -> released p = false -> queue s = next :: q ->
  inv (admit_permit (pid next) (now - enqueuedAt next)
         (cleanup (pid next) (set_queue q (settle i (Ok (returned p)) s)))).
Proof.
  intros Hinv Hi Hr Hq.
  pose proof (returned_unreleased _ _ _ Hi Hr) as Hcnt. pose proof (inv_active _ _ Hinv).
  pose proof (inv_nodup _ _ Hinv) as Hnd. pose proof (inv_pending _ _ Hinv) as Hpend.
  pose proof (inv_timers _ _ Hinv) as Htim. pose proof (inv_queue _ _ Hinv) as Hlen.
  unfold queueLength in Hlen. rewrite Hq in Hnd, Hpend, Htim, Hlen. simpl in *.
  apply NoDup_cons in Hnd as [Hnd1 Hnd2].
  assert (active s = maxConcurrent opts) by (apply Hinv; by rewrite Hq).
  assert (promises s !! pid next = None) as Hnone by (apply Hpend; by left).
  assert (<[i:=Ok (returned p)]> (promises s) !! pid next = None) as Hnone'.
  { rewrite lookup_insert_ne; [done|]. congruence. }
  constructor; unfold queueLength; simpl; try by apply Hinv.
  - rewrite map_count_fresh by done. simpl. lia.
  - lia.
  - lia.
  - done.
  - intros j Hj. rewrite lookup_insert_ne by (by intros <-). rewrite lookup_insert_ne.
    + apply Hpend. by right.
    + intros <-. rewrite Hpend in Hi; [done|by right].
  - rewrite Htim. assert (pid next ∉ (list_to_set (pid <$> q) : gset nat))
      by (by rewrite elem_of_list_to_set). set_solver.
  - pose proof (inv_listeners _ _ Hinv). set_solver.
  - intros k. rewrite map_count_fresh, returned_kind, (has_kind_eq _ admitted_) by done.
    pose proof (inv_counts _ _ Hinv k). destruct k; simpl in *; lia.
  - intros k. rewrite event_count_snoc.
    pose proof (inv_events _ _ Hinv k). destruct k; simpl in *; lia.
  - apply wait_bound_insert; [|done]. apply returned_wait; [done|apply Hinv].
Qed.

Lemma inv_permit_release s now i : inv s -> inv (permit_release now i s).
Proof.
  intros Hinv. unfold permit_release.
  destruct (promises s !! i) as [[e|p]|] eqn:Hi; try done.
  destruct (released p) eqn:Hr; [done|]. unfold release. simpl.
  destruct (queue s) as [|next q] eqn:Hq.
  - by apply inv_release_idle.
  - by apply inv_hand_over.
Qed.

Lemma lim_inv_step s l s' : inv s -> step opts s l s' -> inv s'.
Proof.
  intros Hinv Hs. destruct Hs;
    eauto using inv_acquire, inv_onTimeout, inv_onAbort, inv_permit_release.
Qed.

Lemma lim_inv_reachable s : reachable opts s -> inv s.
Proof.
  intros (ls & Hrun). eapply run_invariant; eauto using lim_inv_step, inv_initial.
Qed.

End Preservation.

(** ** Refinement of the semaphore *)

Section Refinement.
  Context (opts : LimiterOptions) (Hopts : valid_options opts).
  Abbreviation inv := (inv opts).
  Abbreviation sem_step := (sem_step opts).

Lemma elem_permit_holders s i :
  i ∈ permit_holders s <-> exists p, promises s !! i = Some (Ok p) /\ released p = false.
Proof.
  unfold permit_holders. rewrite elem_of_dom. split.
  - intros [[e|p] [Hi Hu]%map_lookup_filter_Some]; simpl in *; [done|].
    exists p. by to_prop.
  - intros (p & Hi & Hr). exists (Ok p). apply map_lookup_filter_Some. simpl. by rewrite Hr.
Qed.

Lemma sem_step_to a l H W s' :
  sem_step a l (mkSem H W) -> (forall i, i ∈ permit_holders s' <-> i ∈ H) ->
  pid <$> queue s' = W -> sem_step a l (abstract s').
Proof.
  intros Hs HH HW. unfold abstract. rewrite HW.
  assert (permit_holders s' = H) as -> by (apply set_eq; done). done.
Qed.

(** Settling a call with an error leaves the holders alone. *)
Lemma holders_err s s' i e :
  promises s' = <[i := Err e]> (promises s) -> promises s !! i = None ->
  forall j, j ∈ permit_holders s' <-> j ∈ permit_holders s.
Proof.
  intros Hp Hn j. rewrite !elem_permit_holders, Hp. setoid_rewrite lookup_insert_Some.
  split; intros (p & ? & ?); [naive_solver|]. exists p. split; [right|done].
  split; [congruence|done].
Qed.

Lemma sim_acquire s now i sg :
  inv s -> ~ known s i -> sem_step (abstract s) (Acquire i sg) (abstract (acquire opts now i sg s)).
Proof.
  intros Hinv [Hp Hq]%not_known. unfold acquire.
  assert (i ∉ permit_holders s) as Hnh.
  { rewrite elem_permit_holders. intros (p & ? & _). congruence. }
  pose proof (inv_active _ _ Hinv) as Hact. rewrite <- size_permit_holders in Hact.
  destruct (default false sg) eqn:Hsg.
  { destruct sg as [[]|]; try done.
    eapply sem_step_to; [apply (sem_cancelled _ (abstract s))| |done]. by eapply holders_err. }
  assert (sg <> Some true) by (by intros ->).
  destruct (active s <? maxConcurrent opts) eqn:Hlt; to_prop.
  { assert (queue s = []) as Hnil.
    { destruct (queue s) eqn:E; [done|]. exfalso.
      assert (active s = maxConcurrent opts); [|lia]. apply Hinv. by rewrite E. }
    eapply sem_step_to; [eapply (sem_grant _ (abstract s))| |]; simpl; rewrite ?Hnil; try done.
    - apply not_elem_of_nil.
    - by rewrite <- Hact.
    - intros j. rewrite elem_of_union, elem_of_singleton, !elem_permit_holders. simpl.
      setoid_rewrite lookup_insert_Some. split.
      + intros (p & [[-> _]|[_ ?]] & ?); eauto.
      + intros [->|(p & ? & ?)]; [by eexists; split; [by left|]|].
        exists p. split; [right; split; [congruence|done]|done]. }
  assert (active s = maxConcurrent opts) by (pose proof (inv_max _ _ Hinv); lia).
  destruct (maxQueueSize opts <=? queueLength s) eqn:Hfull; to_prop; unfold queueLength in *.
  { eapply sem_step_to; [apply (sem_refuse _ (abstract s))| |]; simpl; try done.
    - by rewrite <- Hact.
    - rewrite length_fmap. pose proof (inv_queue _ _ Hinv) as Hl. unfold queueLength in Hl. lia.
    - by eapply holders_err. }
  eapply sem_step_to; [apply (sem_enqueue _ (abstract s))| |]; simpl; try done.
  - by rewrite <- Hact.
  - rewrite length_fmap. lia.
  - by rewrite fmap_app.
Qed.

Lemma sim_leave s l i p s1 s' e :
  inv s -> l = Timeout i \/ l = Abort i -> remove i s = Some (p, s1) ->
  queue s' = queue s1 -> promises s' = <[i := Err e]> (promises s1) ->
  sem_step (abstract s) l (abstract s').
Proof.
  intros Hinv Hl (q1 & q2 & Hq & Hpi & ->)%remove_spec Hqu Hpr. simpl in *.
  eapply sem_step_to; [eapply (sem_leave _ (abstract s) l i (pid <$> q1) (pid <$> q2) Hl)| |].
  - simpl. by rewrite Hq, fmap_app, <- Hpi.
  - eapply holders_err; [exact Hpr|]. apply Hinv. rewrite Hq, fmap_app. set_solver.
  - by rewrite Hqu, fmap_app.
Qed.

Lemma sim_late s l i :
  l = Timeout i \/ l = Abort i -> remove i s = None -> sem_step (abstract s) l (abstract s).
Proof. intros Hl Hr%remove_none. by eapply (sem_late _ (abstract s)). Qed.

Lemma holders_returned s i p :
  promises s !! i = Some (Ok p) ->
  forall j, j ∈ permit_holders (settle i (Ok (returned p)) s) <-> j ∈ permit_holders s /\ j <> i.
Proof.
  intros Hi j. rewrite !elem_permit_holders. simpl. setoid_rewrite lookup_insert_Some.
  split; [|naive_solver]. intros (p' & [[_ [= <-]]|[? ?]] & ?); [done|eauto].
Qed.

Lemma sim_release s now i :
  inv s -> sem_step (abstract s) (Release i) (abstract (permit_release now i s)).
Proof.
  intros Hinv. unfold permit_release.
  destruct (decide (i ∈ permit_holders s)) as [Hin|Hout].
  - pose proof Hin as (p & Hi & Hr)%elem_permit_holders. rewrite Hi, Hr. unfold release. simpl.
    pose proof (holders_returned _ _ _ Hi) as Hret.
    destruct (queue s) as [|next q] eqn:Hq.
    + eapply sem_step_to; [apply (sem_release _ (abstract s) i Hin)| |]; simpl; rewrite ?Hq; try done.
      intros j. rewrite elem_of_difference, elem_of_singleton. by rewrite <- Hret.
    + assert (promises s !! pid next = None) as Hnone.
      { apply Hinv. rewrite Hq. by left. }
      eapply sem_step_to; [eapply (sem_hand_over _ (abstract s) i (pid next) (pid <$> q) Hin)| |];
        simpl; rewrite ?Hq; try done.
      intros j. rewrite elem_of_union, elem_of_difference, !elem_of_singleton, <- Hret.
      rewrite !elem_permit_holders. simpl. split.
      * intros (p' & [[<- _]|[? ?]]%lookup_insert_Some & ?); [by left|eauto].
      * intros [->|(p' & ? & ?)].
        -- eexists. by rewrite lookup_insert_eq.
        -- exists p'. rewrite lookup_insert_ne; [done|]. intros <-.
           rewrite lookup_insert_ne in H; congruence.
  - assert (permit_release now i s = s) as Hsame.
    { unfold permit_release. destruct (promises s !! i) as [[e|p]|] eqn:Hi; try done.
      destruct (released p) eqn:Hr; [done|]. exfalso. apply Hout, elem_permit_holders. eauto. }
    unfold permit_release in Hsame. rewrite Hsame. by apply (sem_double_release _ (abstract s)).
Qed.

Lemma lim_sim_step s l s' :
  inv s -> step opts s l s' -> sem_step (abstract s) l (abstract s').
Proof.
  intros Hinv Hs. destruct Hs as [? now i sg Hk|? now i|? now i|? now i].
  - by apply sim_acquire.
  - unfold onTimeout. destruct (remove i _) as [[p s1]|] eqn:E.
    + eapply sim_leave; eauto.
    + eapply sim_late; eauto.
  - unfold onAbort. destruct (remove i _) as [[p s1]|] eqn:E.
    + eapply sim_leave; eauto.
    + eapply sim_late; eauto.
  - by apply sim_release.
Qed.

Lemma lim_sim_run s ls s' :
  run (step opts) s ls s' -> inv s -> run sem_step (abstract s) ls (abstract s').
Proof.
  induction 1; intros Hinv; [constructor|].
  econstructor; eauto using lim_sim_step. apply IHrun. by eapply (lim_inv_step opts Hopts).
Qed.
End Refinement.

(** ** Order of service *)

Definition before (i j : nat) (l : list nat) : Prop :=
  exists l1 l2 l3, l = l1 ++ i :: l2 ++ j :: l3.

Lemma before_app i j l k : before i j l -> before i j (l ++ k).
Proof.
  intros (l1 & l2 & l3 & ->). exists l1, l2, (l3 ++ k).
  by rewrite <- !app_assoc, <- !app_comm_cons, <- !app_assoc.
Qed.

Lemma before_cons_inv i j x l : before i j (x :: l) -> i <> x -> before i j l.
Proof.
  intros (l1 & l2 & l3 & H) Hne. destruct l1; simplify_eq/=. by exists l1, l2, l3.
Qed.

Lemma before_cons_hit i j x l : before i j (x :: l) -> i = x \/ before i j l.
Proof.
  destruct (decide (i = x)); [by left|]. right. by eapply before_cons_inv.
Qed.

Lemma before_cons i j x l : before i j l -> before i j (x :: l).
Proof. intros (l1 & l2 & l3 & ->). by exists (x :: l1), l2, l3. Qed.

Lemma before_head i j l : j ∈ l -> before i j (i :: l).
Proof. intros (l2 & l3 & ->)%list_elem_of_split. by exists [], l2, l3. Qed.

Lemma before_in i j x l : before i j (x :: l) -> j ∈ l.
Proof. intros (l1 & l2 & l3 & H). destruct l1; simplify_eq/=; set_solver. Qed.

(** Taking another call out of the middle keeps the order of the two. *)
Lemma before_remove i j k w1 w2 :
  before i j (w1 ++ k :: w2) -> k <> i -> k <> j -> before i j (w1 ++ w2).
Proof.
  intros H Hi Hj. induction w1 as [|x w1 IH]; simpl in *.
  - eapply before_cons_inv; eauto.
  - destruct (before_cons_hit _ _ _ _ H) as [->|Hb]; [|by apply before_cons, IH].
    apply before_head. apply before_in in H. set_solver.
Qed.

Section Fifo.
  Context (opts : LimiterOptions) (Hopts : valid_options opts).
  Abbreviation inv := (inv opts).

(** What can have become of two waiting calls [i], [j], with [i] first. *)
Definition in_order (i j : nat) (s : limiter) : Prop :=
  before i j (pid <$> queue s) \/ is_Some (promises s !! i) \/
  exists e, promises s !! j = Some (Err e).

(** Settled promises stay settled, and rejected ones stay rejected. *)
Lemma step_settled s l s' k :
  inv s -> step opts s l s' ->
  (is_Some (promises s !! k) -> is_Some (promises s' !! k)) /\
  forall e, promises s !! k = Some (Err e) -> promises s' !! k = Some (Err e).
Proof.
  intros Hinv Hs.
  assert (forall m m' : gmap nat (result error ConcurrencyPermit),
    (exists i r, m !! i = None /\ m' = <[i := r]> m) ->
    (is_Some (m !! k) -> is_Some (m' !! k)) /\
    forall e, m !! k = Some (Err e) -> m' !! k = Some (Err e)) as Hfresh.
  { intros m m' (i & r & Hi & ->). rewrite lookup_insert.
    case_decide; simplify_eq; [|done]. rewrite Hi. split; [by intros []|done]. }
  destruct Hs as [? now i sg [Hp Hq]%not_known|? now i|? now i|? now i].
  - unfold acquire. repeat case_match; simpl; try done; apply Hfresh; eauto.
  - unfold onTimeout. destruct (remove i s) as [[p s1]|] eqn:E; [|done].
    apply remove_spec in E as (q1 & q2 & Hq & <- & ->). simpl. apply Hfresh.
    do 2 eexists. split; [|done]. apply Hinv. rewrite Hq, fmap_app. set_solver.
  - unfold onAbort. destruct (remove i s) as [[p s1]|] eqn:E; [|done].
    apply remove_spec in E as (q1 & q2 & Hq & <- & ->). simpl. apply Hfresh.
    do 2 eexists. split; [|done]. apply Hinv. rewrite Hq, fmap_app. set_solver.
  - unfold permit_release. destruct (promises s !! i) as [[e|p]|] eqn:Hi; try done.
    case_match; [done|]. unfold release. simpl.
    assert ((is_Some (promises s !! k) -> is_Some (<[i:=Ok (returned p)]> (promises s) !! k)) /\
      forall e, promises s !! k = Some (Err e) ->
        <[i:=Ok (returned p)]> (promises s) !! k = Some (Err e)) as [H1 H2].
    { rewrite lookup_insert. case_decide; simplify_eq; [|done]. rewrite Hi. done. }
    destruct (queue s) as [|next q] eqn:Hq; simpl; [done|].
    destruct (Hfresh (<[i:=Ok (returned p)]> (promises s))
      (<[pid next := Ok (mkPermit (now - enqueuedAt next) (active s)
         (Z.of_nat (length q)) false)]> (<[i:=Ok (returned p)]> (promises s)))) as [H3 H4].
    { do 2 eexists. split; [|done]. rewrite lookup_insert_ne.
      - apply Hinv. rewrite Hq. by left.
      - intros ->. assert (promises s !! pid next = None); [|congruence].
        apply Hinv. rewrite Hq. by left. }
    split; [tauto|]. intros e He. by apply H4, H2.
Qed.

(** A released permit is never touched again. *)
Lemma step_granted s l s' k p :
  inv s -> step opts s l s' -> promises s !! k = Some (Ok p) -> released p = true ->
  promises s' !! k = Some (Ok p).
Proof.
  intros Hinv Hs Hk Hr.
  assert (forall i, promises s !! i = None \/ i ∈ (pid <$> queue s) -> i <> k) as Hne.
  { intros i [Hi|Hi%(inv_pending _ _ Hinv)]; congruence. }
  destruct Hs as [? now i sg [Hp Hq]%not_known|? now i|? now i|? now i].
  - unfold acquire. repeat case_match; simpl; try done; rewrite lookup_insert_ne; auto.
  - unfold onTimeout. destruct (remove i s) as [[p' s1]|] eqn:E; [|done].
    apply remove_spec in E as (q1 & q2 & Hq & <- & ->). simpl. rewrite lookup_insert_ne; [done|].
    apply Hne. right. rewrite Hq, fmap_app. set_solver.
  - unfold onAbort. destruct (remove i s) as [[p' s1]|] eqn:E; [|done].
    apply remove_spec in E as (q1 & q2 & Hq & <- & ->). simpl. rewrite lookup_insert_ne; [done|].
    apply Hne. right. rewrite Hq, fmap_app. set_solver.
  - unfold permit_release. destruct (promises s !! i) as [[e|p']|] eqn:Hi; try done.
    destruct (released p') eqn:Hr'; [done|].
    assert (i <> k) by congruence. unfold release. simpl.
    destruct (queue s) as [|next q] eqn:Hq; simpl; [by rewrite lookup_insert_ne|].
    rewrite !lookup_insert_ne; [done|done|]. apply Hne. right. rewrite ?Hq. by left.
Qed.

(** What a step does to the list of waiting calls. *)
Lemma step_queue s l s' :
  step opts s l s' ->
  (exists k, pid <$> queue s' = (pid <$> queue s) ++ k) \/
  (exists k w1 w2 e, pid <$> queue s = w1 ++ k :: w2 /\ pid <$> queue s' = w1 ++ w2 /\
     promises s' !! k = Some (Err e)) \/
  (exists k w, pid <$> queue s = k :: w /\ pid <$> queue s' = w /\ is_Some (promises s' !! k)).
Proof.
  assert (forall s1 : limiter, exists k, pid <$> queue s1 = (pid <$> queue s1) ++ k) as Hsame
    by (intros s1; exists []; by rewrite app_nil_r).
  destruct 1 as [? now i sg _|? now i|? now i|? now i].
  - left. unfold acquire. repeat case_match; simpl; try apply Hsame;
      rewrite fmap_app; eauto.
  - unfold onTimeout. destruct (remove i s) as [[p s1]|] eqn:E; [|by left; apply Hsame].
    right. left. apply remove_spec in E as (q1 & q2 & Hq & <- & ->). simpl.
    rewrite Hq, !fmap_app. do 4 eexists. split; [done|]. split; [done|].
    apply lookup_insert_eq.
  - unfold onAbort. destruct (remove i s) as [[p s1]|] eqn:E; [|by left; apply Hsame].
    right. left. apply remove_spec in E as (q1 & q2 & Hq & <- & ->). simpl.
    rewrite Hq, !fmap_app. do 4 eexists. split; [done|]. split; [done|].
    apply lookup_insert_eq.
  - unfold permit_release. repeat case_match; try by left; apply Hsame.
    unfold release. simpl. destruct (queue s) as [|next q] eqn:Hq; simpl.
    + left. rewrite Hq. by exists [].
    + right. right. do 2 eexists. split; [done|]. split; [done|]. by rewrite lookup_insert_eq.
Qed.

Lemma in_order_step s l s' i j :
  inv s -> step opts s l s' -> in_order i j s -> in_order i j s'.
Proof.
  intros Hinv Hs [Hb|[Hi|(e & Hj)]]; unfold in_order.
  - destruct (step_queue _ _ _ Hs) as
      [(k & ->)|[(k & w1 & w2 & e & Hw & -> & Hk)|(k & w & Hw & -> & Hk)]].
    + left. by apply before_app.
    + rewrite Hw in Hb. destruct (decide (k = i)) as [->|]; [by right; left; rewrite Hk|].
      destruct (decide (k = j)) as [->|]; [by right; right; eauto|].
      left. by eapply before_remove.
    + rewrite Hw in Hb. destruct (before_cons_hit _ _ _ _ Hb) as [->|?]; auto.
  - right; left. by eapply step_settled.
  - right; right. exists e. by eapply step_settled.
Qed.
End Fifo.

(** ** Conservation of requests *)

Definition accounted (s : limiter) : Z :=
  admitted s + rejected s + timedOut s + aborted s + queueLength s.

Definition is_acquire (l : label) : bool :=
  match l with Acquire _ _ => true | _ => false end.

Lemma accounted_step opts s l s' :
  step opts s l s' -> accounted s' = accounted s + if is_acquire l then 1 else 0.
Proof.
  unfold accounted, queueLength. destruct 1 as [? now i sg _|? now i|? now i|? now i]; simpl.
  - unfold acquire. repeat case_match; simpl; rewrite ?length_app; simpl; lia.
  - unfold onTimeout. destruct (remove i s) as [[p s1]|] eqn:E; [|lia].
    apply remove_spec in E as (q1 & q2 & Hq & _ & ->). rewrite Hq. simpl.
    rewrite !length_app. simpl. lia.
  - unfold onAbort. destruct (remove i s) as [[p s1]|] eqn:E; [|lia].
    apply remove_spec in E as (q1 & q2 & Hq & _ & ->). rewrite Hq. simpl.
    rewrite !length_app. simpl. lia.
  - unfold permit_release. repeat case_match; try lia.
    unfold release. simpl. destruct (queue s) as [|next q] eqn:Hq; simpl; rewrite ?Hq; simpl; lia.
Qed.

Lemma accounted_run opts s ls s' :
  run (step opts) s ls s' ->
  accounted s' = accounted s + Z.of_nat (length (filter (fun l => is_acquire l = true) ls)).
Proof.
  induction 1 as [|s l s1 ls s2 Hs%accounted_step _ IH]; [rewrite filter_nil; simpl; lia|].
  rewrite filter_cons. destruct (is_acquire l); case_decide; try done; simpl; lia.
Qed.

(** ** The properties *)

(** C4: the limiter refines a counting semaphore with a bounded first-in
    first-out queue: the counter [active] and the permits' [released] flags
    behave as a set of holders, a release hands its slot to the oldest waiter,
    releasing twice and late timers do nothing. *)
Theorem limiter_refines_semaphore opts ls s :
  valid_options opts -> run (step opts) initial ls s ->
  run (sem_step opts) (mkSem ∅ []) ls (abstract s).
Proof.
  intros Hopts Hrun. change (mkSem ∅ []) with (abstract initial).
  eapply lim_sim_run; eauto using inv_initial.
Qed.

(** Capacity.  In every reachable state the permits handed out and not
    yet released are counted by [active] and number at most [maxConcurrent];
    the queue is within [maxQueueSize]; and nobody waits while a slot is
    free. *)
Theorem limiter_capacity opts s :
  valid_options opts -> reachable opts s ->
  active s = Z.of_nat (size (permit_holders s)) /\
  0 <= active s <= maxConcurrent opts /\
  queueLength s <= maxQueueSize opts /\
  (queue s <> [] -> Z.of_nat (size (permit_holders s)) = maxConcurrent opts).
Proof.
  intros Hopts Hr%lim_inv_reachable; [|done]. rewrite size_permit_holders.
  pose proof (inv_active _ _ Hr) as Ha. pose proof (inv_max _ _ Hr).
  split; [done|]. split; [lia|]. split; [apply Hr|]. intros Hq. rewrite <- Ha. by apply Hr.
Qed.

(** First come, first served.  If [i] is ahead of [j] in the queue, then
    whenever [j] has been given a permit [i] is no longer waiting. *)
Theorem limiter_fifo opts s i j ls s' p :
  valid_options opts -> reachable opts s -> before i j (pid <$> queue s) ->
  run (step opts) s ls s' -> promises s' !! j = Some (Ok p) ->
  is_Some (promises s' !! i).
Proof.
  intros Hopts Hr%lim_inv_reachable Hb Hrun Hj; [|done].
  assert (in_order i j s') as [Hb'|[Hi|(e & Hj')]].
  { assert (inv opts s' /\ in_order i j s') as [_ H]; [|exact H].
    eapply (run_invariant _ (fun s => inv opts s /\ in_order i j s)); [|exact Hrun|].
    - intros s1 l s2 [H1 H2] Hs. split; [by eapply lim_inv_step|by eapply in_order_step].
    - split; [done|]. by left. }
  - exfalso. assert (inv opts s') as Hinv'.
    { eapply run_invariant; [|exact Hrun|exact Hr]. eauto using lim_inv_step. }
    assert (promises s' !! j = None); [|congruence].
    apply Hinv'. destruct Hb' as (l1 & l2 & l3 & ->). set_solver.
  - done.
  - congruence.
Qed.

(** Conservation.  Every [acquire] is accounted for exactly once: the
    number of calls made equals the admitted, rejected, timed-out and aborted
    ones plus those still queued, each counter equals the number of promises
    settled that way and the number of telemetry events emitted for it. *)
Theorem limiter_accounting opts ls s :
  valid_options opts -> run (step opts) initial ls s ->
  accounted s = Z.of_nat (length (filter (fun l => is_acquire l = true) ls)) /\
  forall k, counter k s = Z.of_nat (map_count (has_kind k) (promises s)) /\
            counter k s = Z.of_nat (event_count k (events s)).
Proof.
  intros Hopts Hrun. split; [by rewrite (accounted_run _ _ _ _ Hrun)|].
  assert (inv opts s) as Hinv by (apply lim_inv_reachable; [done|by exists ls]).
  intros k. split; by apply Hinv.
Qed.

(** No leaks and bounded waiting.  In every reachable state a timer is
    armed for exactly the calls still in the queue, a listener is registered
    only for those, and firing a waiting call's timer settles it with the
    timeout error. *)
Theorem limiter_timers opts s i now :
  valid_options opts -> reachable opts s ->
  (i ∈ timers s <-> i ∈ (pid <$> queue s)) /\
  (i ∈ listeners s -> i ∈ (pid <$> queue s)) /\
  (i ∈ timers s ->
   promises s !! i = None /\
   promises (onTimeout opts now i s) !! i
     = Some (Err (ConcurrencyWaitTimeoutError (waitTimeoutMs opts))) /\
   i ∉ timers (onTimeout opts now i s)).
Proof.
  intros Hopts Hr%lim_inv_reachable; [|done]. rewrite (inv_timers _ _ Hr), elem_of_list_to_set.
  split; [done|]. split.
  { intros Hi%(inv_listeners _ _ Hr). rewrite (inv_timers _ _ Hr) in Hi. set_solver. }
  intros Hi. split; [by apply Hr|]. unfold onTimeout.
  destruct (remove i s) as [[p s1]|] eqn:E; [|by apply remove_none in E].
  apply remove_spec in E as (q1 & q2 & _ & _ & ->). simpl.
  split; [apply lookup_insert_eq|set_solver].
Qed.

(** A permit releases its slot at most once: releasing it again, at any
    later moment of a run in which it was already released, changes nothing. *)
Theorem limiter_release_once opts s i now ls s' now' :
  valid_options opts -> reachable opts s -> i ∈ permit_holders s ->
  run (step opts) (permit_release now i s) ls s' ->
  permit_release now' i s' = s'.
Proof.
  intros Hopts Hr%lim_inv_reachable (p & Hp & Hrel)%elem_permit_holders Hrun; [|done].
  assert (forall s1, (exists p, promises s1 !! i = Some (Ok p) /\ released p = true) ->
    forall now, permit_release now i s1 = s1) as Hnoop.
  { intros s1 (p1 & Hp1 & Hr1) t. unfold permit_release. by rewrite Hp1, Hr1. }
  apply Hnoop. eapply (run_invariant _ (fun s => inv opts s /\
    exists p, promises s !! i = Some (Ok p) /\ released p = true)); [|exact Hrun|].
  - intros s1 l s2 [H1 Hp1] Hs. split; [by eapply lim_inv_step|].
    destruct Hp1 as (p1 & Hp1 & Hr1).
    exists p1. split; [|done]. by eapply step_granted.
  - split; [by apply inv_permit_release|]. unfold permit_release. rewrite Hp, Hrel.
    unfold release. simpl. destruct (queue s) as [|next q] eqn:Hq; simpl.
    + rewrite lookup_insert_eq. eauto.
    + rewrite lookup_insert_ne, lookup_insert_eq; [eauto|]. intros Heq.
      assert (promises s !! pid next = None) by (apply Hr; rewrite Hq; by left). congruence.
Qed.

(** ** Concrete scenarios: one slot, a queue of two *)

Definition ex_opts : LimiterOptions := mkLimiterOptions 1 2 100.

Definition exec_step (s : limiter) (l : label) : option limiter :=
  match l with
  | Acquire i sg =>
      if defined (promises s !! i) || bool_decide (i ∈ (pid <$> queue s)) then None
      else Some (acquire ex_opts 0 i sg s)
  | Timeout i => Some (onTimeout ex_opts 5 i s)
  | Abort i => Some (onAbort 5 i s)
  | Release i => Some (permit_release 5 i s)
  end.

Lemma lim_exec_step_sound s l s' : exec_step s l = Some s' -> step ex_opts s l s'.
Proof.
  destruct l; simpl; intros H; simplify_eq; try constructor.
  destruct (_ || _) eqn:E in H; simplify_eq. to_prop. destruct E as [E1 E2].
  constructor. intros [[r Hr]|Hq]; [by rewrite Hr in E1|done].
Qed.

Definition ex_after (ls : list label) : limiter :=
  default initial (exec_run exec_step initial ls).

(** A holder, two waiters, and a refused fourth call. *)
Definition ex_labels : list label :=
  [Acquire 0 None; Acquire 1 (Some false); Acquire 2 None; Acquire 3 None].

Lemma lim_ex_valid : valid_options ex_opts.
Proof. by vm_compute. Qed.

Lemma ex_run ls ls' :
  defined (exec_run exec_step (ex_after ls) ls') = true ->
  run (step ex_opts) (ex_after ls) ls' (default initial (exec_run exec_step (ex_after ls) ls')).
Proof.
  destruct (exec_run _ _ ls') as [s|] eqn:E; [|done]. intros _.
  eapply exec_run_sound; [apply lim_exec_step_sound|exact E].
Qed.

Lemma lim_ex_reachable ls :
  defined (exec_run exec_step initial ls) = true -> reachable ex_opts (ex_after ls).
Proof. intros H. exists ls. apply (ex_run [] ls H). Qed.

Lemma limiter_refines_semaphore_witness :
  run (sem_step ex_opts) (mkSem ∅ []) (ex_labels ++ [Release 0])
    (abstract (ex_after (ex_labels ++ [Release 0]))).
Proof.
  apply limiter_refines_semaphore; [apply lim_ex_valid|].
  apply (ex_run [] (ex_labels ++ [Release 0])). by vm_compute.
Defined.

Lemma limiter_capacity_witness :
  active (ex_after ex_labels) <= 1 /\ queueLength (ex_after ex_labels) = 2.
Proof.
  destruct (limiter_capacity ex_opts (ex_after ex_labels)) as (_ & [_ H] & _);
    [apply lim_ex_valid|apply lim_ex_reachable; by vm_compute|].
  split; [exact H|by vm_compute].
Defined.

Lemma limiter_fifo_witness :
  is_Some (promises (default initial
    (exec_run exec_step (ex_after ex_labels) [Release 0; Release 1])) !! 1%nat).
Proof.
  eapply (limiter_fifo ex_opts (ex_after ex_labels) 1 2 [Release 0; Release 1]);
    [apply lim_ex_valid|apply lim_ex_reachable; by vm_compute| | |].
  - by exists [], [], [].
  - apply (ex_run ex_labels [Release 0; Release 1]). by vm_compute.
  - by vm_compute.
Defined.

Lemma limiter_accounting_witness :
  accounted (ex_after ex_labels) = 4 /\ counter queue_full_ (ex_after ex_labels) = 1.
Proof.
  destruct (limiter_accounting ex_opts ex_labels (ex_after ex_labels)) as [H Hk];
    [apply lim_ex_valid|apply (ex_run [] ex_labels); by vm_compute|].
  split; [exact H|]. rewrite (proj1 (Hk queue_full_)). by vm_compute.
Defined.

Lemma limiter_timers_witness :
  promises (onTimeout ex_opts 5 1 (ex_after ex_labels)) !! 1%nat
    = Some (Err (ConcurrencyWaitTimeoutError 100)).
Proof.
  apply (limiter_timers ex_opts (ex_after ex_labels) 1%nat 5);
    [apply lim_ex_valid|apply lim_ex_reachable; by vm_compute|by vm_compute].
Defined.

Lemma limiter_release_once_witness :
  permit_release 9 0 (permit_release 5 0 (ex_after ex_labels))
  = permit_release 5 0 (ex_after ex_labels).
Proof.
  apply (limiter_release_once ex_opts (ex_after ex_labels) 0%nat 5 []);
    [apply lim_ex_valid|apply lim_ex_reachable; by vm_compute|by vm_compute|constructor].
Defined.

End ConcurrencyLimiter.
