(* ===== verification/TokenBucket.v ===== *)
(** * The Redis token bucket

    [src/src/rate-limit/redis-token-bucket.ts] and [rate-limiter.ts].  The Lua
    script [TOKEN_BUCKET_SCRIPT] is the function [token_bucket_script] over a
    Redis server; the server itself is not part of the sources, so it is an
    interface: the class [RedisServer] has the four commands the script
    issues, and [RedisLaws] states the documented behaviour the bucket relies
    on (hash fields read back, keys expire after their time to live, the
    server clock does not go backwards).  [consume] wraps the evaluation of
    the script as the TypeScript class does.

    Lua and JavaScript numbers are exact rationals; instants are whole
    milliseconds as in the script.  The script computes in doubles: a level
    within a rounding error of a whole token may be decided the other way
    there, so nothing is claimed here about the instant at which a denied
    request would be admitted, and the bounds below are those of the exact
    arithmetic. *)

From Stdlib Require Import Sorting.Sorted.
From S2P Require Import Prelude JsNumber Errors.
Import JsNumber Errors.

Module TokenBucket.

Record RateLimitPolicy : Type := mkPolicy { capacity : number; refillPerSecond : number }.

Record RateLimitDecision : Type := mkDecision {
  allowed : bool;
  remaining : number;
  retryAfterSeconds : number
}.

(** ** The server interface *)

Class RedisServer (R : Type) : Type := {
  (** seconds and microseconds *)
  TIME : R -> Z * Z;
  (** the fields [tokens] and [updated_at_ms], through [tonumber] *)
  HMGET : string -> R -> option Q * option Z;
  HSET : string -> Q -> Z -> R -> R;
  EXPIRE : string -> Z -> R -> R;
  (** the states the server can be in later, as far as one key is concerned,
      when no client writes that key *)
  later : string -> R -> R -> Prop
}.

(** [tonumber(redis_time[1]) * 1000 + math.floor(tonumber(redis_time[2]) / 1000)] *)
Definition now_ms `{RedisServer R} (r : R) : Z :=
  (TIME r).1 * 1000 + (TIME r).2 / 1000.

Class RedisLaws (R : Type) `{RedisServer R} : Prop := {
  time_hset k t u (r : R) : TIME (HSET k t u r) = TIME r;
  time_expire k s (r : R) : TIME (EXPIRE k s r) = TIME r;
  later_refl k (r : R) : later k r r;
  later_trans k (r1 r2 r3 : R) : later k r1 r2 -> later k r2 r3 -> later k r1 r3;
  later_time k (r r' : R) : later k r r' -> now_ms r <= now_ms r';
  later_absent k (r r' : R) :
    later k r r' -> HMGET k r = (None, None) -> HMGET k r' = (None, None);
  (** a key written with a time to live of [s] seconds stays readable until
      it has elapsed, and disappears as a whole *)
  expire_spec k t u s (r r' : R) :
    later k (EXPIRE k s (HSET k t u r)) r' ->
    HMGET k r' = (Some t, Some u) \/
    (now_ms r + s * 1000 <= now_ms r' /\ HMGET k r' = (None, None))
}.

(** ** The script *)

(** Tokens gained in [elapsed_ms], without the rounding of doubles. *)
Definition gain (refill_per_second : Q) (elapsed_ms : Z) : Q :=
  (inject_Z elapsed_ms / 1000) * refill_per_second.

(** The script's arithmetic, from the values read to the decision and the
    level written back, without the rounding of doubles. *)
Definition bucket_update (capacity : Z) (refill_per_second : Q) (now_ms : Z)
    (tokens0 : option Q) (updated0 : option Z) : bool * Q * Z :=
  let tokens := default (inject_Z capacity) tokens0 in
  let updated_at_ms := default now_ms updated0 in
  let elapsed_ms := Z.max 0 (now_ms - updated_at_ms) in
  let tokens := Qminb (inject_Z capacity) (tokens + gain refill_per_second elapsed_ms) in
  if 1 <=q tokens then (true, tokens - 1, 0%Z)%Q
  else (false, tokens, Z.max 1 (Qceiling ((1 - tokens) / refill_per_second))).

Definition ttl_seconds (capacity : Z) (refill_per_second : Q) : Z :=
  Z.max 1 (Qceiling ((inject_Z capacity / refill_per_second) * 2)).

Definition token_bucket_script `{RedisServer R} (key : string) (capacity : Z)
    (refill_per_second : Q) (r : R) : (Z * Z * Z) * R :=
  let now := now_ms r in
  let '(tokens0, updated0) := HMGET key r in
  let '(allowed, tokens, retry_after_seconds) :=
    bucket_update capacity refill_per_second now tokens0 updated0 in
  let r := HSET key tokens now r in
  let r := EXPIRE key (ttl_seconds capacity refill_per_second) r in
  (((if allowed : bool then 1 else 0), Qfloor tokens, retry_after_seconds), r).

(** ** The TypeScript class *)

(** What [redis.eval] may resolve to. *)
Inductive reply_item : Type := ReplyNumber (n : number) | ReplyOther.
Inductive reply : Type := ReplyArray (items : list reply_item) | ReplyScalar.

Definition validatePolicy (policy : RateLimitPolicy) : result error () :=
  if negb (isInteger (capacity policy)) || ltb (capacity policy) (of_Z 1)
     || negb (isFinite (refillPerSecond policy)) || leb (refillPerSecond policy) (of_Z 0)
  then Err RateLimiterUnavailableError
  else Ok ().

(** [isTokenBucketResult], returning the three numbers. *)
Definition isTokenBucketResult (value : reply) : option (number * number * number) :=
  match value with
  | ReplyArray [ReplyNumber a; ReplyNumber b; ReplyNumber c] =>
      if isFinite a && isFinite b && isFinite c then Some (a, b, c) else None
  | _ => None
  end.

(** [=== 1] *)
Definition is_one (n : number) : bool :=
  match n with Num q => Qeq_bool q 1 | _ => false end.

Definition redis_key (subject : string) : string :=
  "modelmux:rate-limit:{" +:+ subject +:+ "}".

(** [consume].  [eval] stands for the connection: it may fail, or evaluate
    the script and return a reply. *)
Definition consume {R} (eval : string -> Z -> Q -> R -> result error reply * R)
    (subject : string) (policy : RateLimitPolicy) (r : R) :
    result error RateLimitDecision * R :=
  match validatePolicy policy with
  | Err e => (Err e, r)
  | Ok _ =>
      let '(res, r') := eval (redis_key subject) (toZ (capacity policy))
                          (toQ (refillPerSecond policy)) r in
      match res with
      | Err _ => (Err RateLimiterUnavailableError, r')
      | Ok value =>
          match isTokenBucketResult value with
          | None => (Err RateLimiterUnavailableError, r')
          | Some (a, b, c) => (Ok (mkDecision (is_one a) b c), r')
          end
      end
  end.

(** A healthy connection evaluates the script and returns its three
    integers. *)
Definition eval_script `{RedisServer R} (key : string) (capacity : Z) (refill : Q) (r : R) :
    result error reply * R :=
  let '((a, b, c), r') := token_bucket_script key capacity refill r in
  (Ok (ReplyArray [ReplyNumber (of_Z a); ReplyNumber (of_Z b); ReplyNumber (of_Z c)]), r').

(** ** Histories of one key *)

Section Histories.
  Context `{RedisServer R} (key : string) (cap : Z) (refill : Q).

(** Evaluations of the script for [key], separated by stretches in which no
    one else writes the key; each is recorded with its time and verdict. *)
Inductive history : R -> list (Z * bool) -> R -> Prop :=
| history_nil r : history r [] r
| history_later r r1 outs r2 :
    later key r r1 -> history r1 outs r2 -> history r outs r2
| history_eval r a b c r1 outs r2 :
    token_bucket_script key cap refill r = ((a, b, c), r1) ->
    history r1 outs r2 ->
    history r ((now_ms r, (a =? 1)) :: outs) r2.
End Histories.

(** ** The reference: a bucket that never expires *)

Definition ref_bucket : Type := option (Q * Z).

Definition ref_step (cap : Z) (refill : Q) (g : ref_bucket) (now : Z) : bool * (Q * Z) :=
  let '(a, t, _) := bucket_update cap refill now (fst <$> g) (snd <$> g) in (a, (t, now)).

Fixpoint ref_run (cap : Z) (refill : Q) (g : ref_bucket) (times : list Z) : list bool :=
  match times with
  | [] => []
  | now :: times' =>
      let '(a, g') := ref_step cap refill g now in a :: ref_run cap refill (Some g') times'
  end.

Definition count_allowed (outs : list bool) : Z :=
  Z.of_nat (length (filter (fun b => b = true) outs)).

(** ** Arithmetic of the refill *)

Section Gain.
  Context (refill : Q) (Hrefill : (0 < refill)%Q).

Lemma gain_plus a b : (gain refill (a + b) == gain refill a + gain refill b)%Q.
Proof. unfold gain. rewrite inject_Z_plus. field. Qed.

Lemma gain_0 : (gain refill 0 == 0)%Q.
Proof. unfold gain. change (inject_Z 0) with 0%Q. field. Qed.

Lemma gain_nonneg a : 0 <= a -> (0 <= gain refill a)%Q.
Proof.
  intros Ha. unfold gain. apply Qmult_le_0_compat; [|lra].
  apply Qle_shift_div_l; [lra|]. rewrite Qmult_0_l.
  change 0%Q with (inject_Z 0). by rewrite <- Zle_Qle.
Qed.

Lemma gain_mono a b : a <= b -> (gain refill a <= gain refill b)%Q.
Proof.
  intros Hab. replace b with (a + (b - a)) by lia. rewrite gain_plus.
  pose proof (gain_nonneg (b - a) ltac:(lia)). lra.
Qed.

Lemma gain_seconds s : (gain refill (s * 1000) == inject_Z s * refill)%Q.
Proof. unfold gain. rewrite inject_Z_mult. field. Qed.

(** Waiting [ceil (need / refill)] seconds yields at least [need] tokens. *)
Lemma gain_ceiling need s :
  Qceiling (need / refill) <= s -> (need <= gain refill (s * 1000))%Q.
Proof.
  intros Hs. rewrite gain_seconds.
  assert (need / refill <= inject_Z s)%Q as H.
  { eapply Qle_trans; [apply Qle_ceiling|]. by rewrite <- Zle_Qle. }
  setoid_replace need with (need / refill * refill)%Q using relation Qeq at 1 by (field; lra).
  apply Qmult_le_compat_r; [done|lra].
Qed.

End Gain.

(** A stored level that is within the capacity. *)
Definition level_ok (cap : Z) (t : Q) : Prop := (0 <= t <= inject_Z cap)%Q.

Section Bucket.
  Context (cap : Z) (refill : Q) (Hcap : 1 <= cap) (Hrefill : (0 < refill)%Q).

Lemma cap_ge_1 : (1 <= inject_Z cap)%Q.
Proof. change 1%Q with (inject_Z 1). by rewrite <- Zle_Qle. Qed.

(** The level the request finds, for the values read. *)
Definition found (now : Z) (g : ref_bucket) : Q :=
  Qminb (inject_Z cap)
    (default (inject_Z cap) (fst <$> g) + gain refill (Z.max 0 (now - default now (snd <$> g)))).

Lemma bucket_update_found now g :
  bucket_update cap refill now (fst <$> g) (snd <$> g) =
    if 1 <=q found now g then (true, found now g - 1, 0%Z)%Q
    else (false, found now g, Z.max 1 (Qceiling ((1 - found now g) / refill))).
Proof. done. Qed.

Definition ref_ok (g : ref_bucket) : Prop :=
  match g with Some (t, _) => level_ok cap t | None => True end.

Lemma found_ok now g : ref_ok g -> level_ok cap (found now g).
Proof.
  pose proof cap_ge_1 as Hc. unfold level_ok, found. intros Hg.
  destruct (Qminb_spec (inject_Z cap) (default (inject_Z cap) (fst <$> g) +
    gain refill (Z.max 0 (now - default now (snd <$> g))))) as (H1 & _ & H2).
  split; [|done]. destruct H2 as [->| ->]; [lra|].
  pose proof (gain_nonneg refill Hrefill (Z.max 0 (now - default now (snd <$> g))) ltac:(lia)).
  destruct g as [[t u]|]; simpl in *; [destruct Hg|]; lra.
Qed.

Lemma ref_step_ok g now a t u :
  ref_ok g -> ref_step cap refill g now = (a, (t, u)) -> level_ok cap t /\ u = now.
Proof.
  intros Hg. unfold ref_step. rewrite bucket_update_found.
  pose proof (found_ok now g Hg) as [H1 H2].
  destruct (1 <=q found now g) eqn:E; to_prop; intros [= <- <- <-]; split; try done; split; lra.
Qed.

(** One step never hands out more than the level plus what time has added. *)
Lemma ref_step_budget t u now a t' u' :
  level_ok cap t -> u <= now -> ref_step cap refill (Some (t, u)) now = (a, (t', u')) ->
  ((if a then 1 else 0) + t' <= t + gain refill (now - u))%Q.
Proof.
  intros Ht Hu. unfold ref_step. rewrite bucket_update_found. unfold found. simpl.
  rewrite Z.max_r by lia.
  destruct (Qminb_spec (inject_Z cap) (t + gain refill (now - u))) as (_ & H & _).
  destruct (1 <=q _) eqn:E; to_prop; intros [= <- <- <-]; lra.
Qed.

(** Every run is bounded by the initial level plus the refill over its
    duration. *)
Lemma ref_run_budget times t u :
  level_ok cap t -> Sorted Z.le (u :: times) ->
  (inject_Z (count_allowed (ref_run cap refill (Some (t, u)) times))
     <= t + gain refill (default u (last times) - u))%Q.
Proof.
  revert t u. induction times as [|now times IH]; intros t u Ht Hs.
  - simpl. rewrite Z.sub_diag, gain_0. destruct Ht.
    change (inject_Z (count_allowed [])) with 0%Q. lra.
  - simpl. destruct (ref_step cap refill (Some (t, u)) now) as [a [t' u']] eqn:E.
    apply Sorted_inv in Hs as [Hs Hh]. assert (u <= now) as Hle by by inversion Hh.
    pose proof (ref_step_budget _ _ _ _ _ _ Ht Hle E) as Hb.
    apply ref_step_ok in E as [Ht' ->]; [|done].
    specialize (IH t' now Ht' Hs).
    assert (count_allowed (a :: ref_run cap refill (Some (t', now)) times) =
      (if a then 1 else 0) + count_allowed (ref_run cap refill (Some (t', now)) times)) as ->.
    { unfold count_allowed. rewrite filter_cons. destruct a; case_decide; try done; simpl; lia. }
    rewrite inject_Z_plus.
    assert (default u (last (now :: times)) = default now (last times)) as ->.
    { rewrite last_cons. by destruct (last times). }
    replace (default now (last times) - u) with
      ((now - u) + (default now (last times) - now)) by lia.
    rewrite gain_plus.
    destruct a; [change (inject_Z 1) with 1%Q|change (inject_Z 0) with 0%Q]; lra.
Qed.

End Bucket.

(** ** The server implements the reference bucket *)

Section Server.
  Context `{RedisLaws R} (key : string) (cap : Z) (refill : Q).
  Context (Hcap : 1 <= cap) (Hrefill : (0 < refill)%Q).
  Abbreviation ttl := (ttl_seconds cap refill).

(** The server state [r] represents the reference bucket [g]: absent, or last
    written with [g] and its time to live, at some earlier moment. *)
Definition represents (r : R) (g : ref_bucket) : Prop :=
  match g with
  | None => HMGET key r = (None, None)
  | Some (t, u) => level_ok cap t /\
      exists r0, u = now_ms r0 /\ later key (EXPIRE key ttl (HSET key t u r0)) r
  end.

Lemma now_ms_written k t u s (r : R) : now_ms (EXPIRE k s (HSET k t u r)) = now_ms r.
Proof. unfold now_ms. by rewrite time_expire, time_hset. Qed.

Lemma represents_later r r' g : later key r r' -> represents r g -> represents r' g.
Proof.
  intros Hl. destruct g as [[t u]|]; simpl.
  - intros (Ht & r0 & -> & Hr0). split; [done|]. exists r0. split; [done|]. by eapply later_trans.
  - by apply later_absent.
Qed.

(** By the time a bucket expires it is full again. *)
Lemma expired_full t u now :
  level_ok cap t -> u + ttl * 1000 <= now -> found cap refill now (Some (t, u)) = inject_Z cap.
Proof.
  intros [Ht _] Hu. unfold found, Qminb. simpl.
  assert (inject_Z cap <= t + gain refill (Z.max 0 (now - u)))%Q as Hle.
  { assert (inject_Z cap * 2 <= gain refill (ttl * 1000))%Q as Hg.
    { apply gain_ceiling; [done|]. unfold ttl_seconds.
      rewrite (Qceiling_comp (inject_Z cap * 2 / refill) (inject_Z cap / refill * 2)); [lia|].
      field. lra. }
    pose proof (gain_mono refill Hrefill (ttl * 1000) (Z.max 0 (now - u)) ltac:(lia)).
    pose proof (cap_ge_1 cap Hcap). lra. }
  apply Qle_bool_iff in Hle. by rewrite Hle.
Qed.

Lemma absent_full now : found cap refill now None = inject_Z cap.
Proof.
  unfold found, Qminb. simpl. rewrite Z.sub_diag.
  assert (inject_Z cap <= inject_Z cap + gain refill (Z.max 0 0))%Q as Hle.
  { pose proof (gain_nonneg refill Hrefill (Z.max 0 0) ltac:(lia)). lra. }
  apply Qle_bool_iff in Hle. by rewrite Hle.
Qed.

(** What the request finds on the server is what it would find in the
    reference bucket, expired or not. *)
Lemma represents_update r g :
  represents r g ->
  bucket_update cap refill (now_ms r) (HMGET key r).1 (HMGET key r).2 =
  bucket_update cap refill (now_ms r) (fst <$> g) (snd <$> g).
Proof.
  destruct g as [[t u]|]; simpl.
  - intros (Ht & r0 & -> & Hl). destruct (expire_spec _ _ _ _ _ _ Hl) as [->|[Hgone ->]]; [done|].
    change (bucket_update cap refill (now_ms r) (fst <$> (None : ref_bucket)) (snd <$> (None : ref_bucket))
      = bucket_update cap refill (now_ms r) (fst <$> Some (t, now_ms r0)) (snd <$> Some (t, now_ms r0))).
    rewrite !bucket_update_found, absent_full, expired_full; done.
  - by intros ->.
Qed.

Lemma script_step r g a b c r1 :
  represents r g -> token_bucket_script key cap refill r = ((a, b, c), r1) ->
  exists g', ref_step cap refill g (now_ms r) = ((a =? 1), g') /\ represents r1 (Some g') /\
    now_ms r1 = now_ms r.
Proof.
  intros Hrep. unfold token_bucket_script.
  rewrite (surjective_pairing (HMGET key r)), represents_update with (g := g) by done.
  destruct (bucket_update cap refill (now_ms r) (fst <$> g) (snd <$> g)) as [[al t] s] eqn:E.
  intros [= <- _ _ <-].
  assert (ref_step cap refill g (now_ms r) = (al, (t, now_ms r))) as Hstep
    by (unfold ref_step; by rewrite E).
  exists (t, now_ms r). split; [by rewrite Hstep; destruct al|]. split.
  - simpl. split; [|exists r; eauto using later_refl].
    eapply ref_step_ok; [done|done| |exact Hstep].
    destruct g as [[t0 u0]|]; simpl in *; [apply Hrep|done].
  - apply now_ms_written.
Qed.

Lemma history_reference r outs r' g :
  history key cap refill r outs r' -> represents r g ->
  outs.*2 = ref_run cap refill g outs.*1.
Proof.
  intros Hh. revert g. induction Hh as [r|r r1 outs r2 Hl _ IH|r a b c r1 outs r2 Hs _ IH];
    intros g Hrep; simpl.
  - done.
  - apply IH. by eapply represents_later.
  - destruct (script_step _ _ _ _ _ _ Hrep Hs) as (g' & -> & Hrep' & _). f_equal. by apply IH.
Qed.

Lemma history_times r outs r' :
  history key cap refill r outs r' -> Sorted Z.le (now_ms r :: outs.*1).
Proof.
  induction 1 as [r|r r1 outs r2 Hl%later_time _ IH|r a b c r1 outs r2 Hs _ IH]; simpl.
  - repeat constructor.
  - apply Sorted_inv in IH as [IH1 IH2]. constructor; [done|].
    destruct outs as [|o outs]; simpl in *; constructor. inversion IH2; subst. lia.
  - assert (now_ms r1 = now_ms r) as Heq.
    { unfold token_bucket_script in Hs. destruct (HMGET key r) as [t0 u0].
      destruct (bucket_update _ _ _ _ _) as [[al t] s]. injection Hs as _ _ _ <-.
      apply now_ms_written. }
    rewrite Heq in IH. constructor; [done|]. constructor. lia.
Qed.

Lemma history_represents r outs r' g :
  history key cap refill r outs r' -> represents r g -> exists g', represents r' g'.
Proof.
  intros Hh. revert g. induction Hh as [|? ? ? ? Hl _ IH|? ? ? ? ? ? ? Hs _ IH]; intros g Hrep.
  - eauto.
  - eapply IH, represents_later; eauto.
  - destruct (script_step _ _ _ _ _ _ Hrep Hs) as (g' & _ & Hrep' & _). eauto.
Qed.

(** Histories split, with the bucket they have reached in between. *)
Lemma history_app_inv r o1 o2 r' g :
  history key cap refill r (o1 ++ o2) r' -> represents r g ->
  exists r1 g1, history key cap refill r1 o2 r' /\ represents r1 g1.
Proof.
  remember (o1 ++ o2) as outs eqn:Ho. intros Hh. revert o1 g Ho.
  induction Hh as [r|r r1 outs r2 Hl Hh IH|r a b c r1 outs r2 Hs Hh IH]; intros o1 g Ho Hrep.
  - symmetry in Ho. apply app_eq_nil in Ho as [-> ->]. exists r, g. split; [constructor|done].
  - eapply IH; [done|]. by eapply represents_later.
  - destruct o1 as [|x o1]; simplify_eq/=.
    + exists r, g. split; [by econstructor|done].
    + destruct (script_step _ _ _ _ _ _ Hrep Hs) as (g' & _ & Hrep' & _). by eapply IH.
Qed.
End Server.

(** ** Denials *)

Section Denials.
  Context `{RedisLaws R} (key : string) (cap : Z) (refill : Q).
  Context (Hcap : 1 <= cap) (Hrefill : (0 < refill)%Q).

Lemma ref_step_cap g now a t u :
  ref_ok cap g -> ref_step cap refill g now = (a, (t, u)) ->
  ((if a then 1 else 0) + t <= inject_Z cap)%Q.
Proof.
  intros Hg. unfold ref_step. rewrite bucket_update_found.
  destruct (found_ok cap refill Hcap Hrefill now g Hg) as [_ Hc].
  destruct (1 <=q _); intros [= <- <- <-]; lra.
Qed.

(** The script's reply and the bucket it leaves. *)
Lemma script_reply r g a b c r1 :
  represents key cap refill r g -> token_bucket_script key cap refill r = ((a, b, c), r1) ->
  exists t, represents key cap refill r1 (Some (t, now_ms r)) /\ level_ok cap t /\ b = Qfloor t /\
    ((a = 1 /\ c = 0 /\ (t <= inject_Z cap - 1)%Q) \/
     (a = 0 /\ (t < 1)%Q /\ c = Z.max 1 (Qceiling ((1 - t) / refill)))).
Proof.
  intros Hrep Hs. pose proof Hs as Hs'.
  unfold token_bucket_script in Hs'.
  rewrite (surjective_pairing (HMGET key r)), represents_update with (g := g) in Hs' by done.
  rewrite bucket_update_found in Hs'.
  assert (ref_ok cap g) as Hg by (destruct g as [[]|]; simpl in *; [apply Hrep|done]).
  pose proof (found_ok cap refill Hcap Hrefill (now_ms r) g Hg) as [Hf1 Hf2].
  destruct (script_step key cap refill Hcap Hrefill _ _ _ _ _ _ Hrep Hs) as ([t u] & Hst & Hr1 & _).
  unfold ref_step in Hst. rewrite bucket_update_found in Hst.
  destruct (1 <=q found cap refill (now_ms r) g) eqn:E; to_prop; simplify_eq;
    eexists; (split; [exact Hr1|]); (split; [split; lra|]); (split; [done|]).
  - left. split; [done|]. split; [done|]. lra.
  - right. split; [done|]. split; [lra|done].
Qed.

End Denials.

(** ** The properties *)

(** Expiry is invisible.  On any server obeying the laws, the verdicts of
    a history of requests on a key are exactly those of the reference bucket
    that is kept forever: dropping the key after [ttl_seconds] never changes
    a decision. *)
Theorem bucket_expiry_transparent `{RedisLaws R} key cap refill (r : R) outs r' :
  1 <= cap -> (0 < refill)%Q -> HMGET key r = (None, None) ->
  history key cap refill r outs r' ->
  outs.*2 = ref_run cap refill None outs.*1.
Proof. intros Hcap Hrefill Habs Hh. by eapply history_reference. Qed.

(** C5: the rate bound.  In any window of consecutive requests on a key, the
    number allowed is at most the capacity plus the refill over the window's
    duration. *)
Theorem bucket_rate_bound `{RedisLaws R} key cap refill (r : R) o1 t1 a1 o2 r' :
  1 <= cap -> (0 < refill)%Q -> HMGET key r = (None, None) ->
  history key cap refill r (o1 ++ (t1, a1) :: o2) r' ->
  (inject_Z (count_allowed (a1 :: o2.*2))
     <= inject_Z cap + gain refill (default t1 (last o2.*1) - t1))%Q.
Proof.
  intros Hcap Hrefill Habs Hh.
  destruct (history_app_inv _ _ _ Hcap Hrefill _ _ _ _ None Hh Habs) as (r1 & g1 & Hh1 & Hg1).
  clear Hh. rename Hh1 into Hh.
  pose proof (history_times _ _ _ _ _ _ Hh) as Hsort.
  pose proof (history_reference _ _ _ Hcap Hrefill _ _ _ _ Hh Hg1) as Hrun.
  rewrite !fmap_cons in Hrun. cbn [ref_run fst snd] in Hrun.
  destruct (ref_step cap refill g1 t1) as [a [t u]] eqn:E. injection Hrun as -> Hrun.
  assert (ref_ok cap g1) as Hok by (destruct g1 as [[]|]; simpl in *; [apply Hg1|done]).
  pose proof (ref_step_cap _ _ Hcap Hrefill _ _ _ _ _ Hok E) as Hfirst.
  pose proof (ref_step_ok _ _ Hcap Hrefill _ _ _ _ _ Hok E) as [Ht ->].
  rewrite Hrun.
  pose proof (ref_run_budget _ _ Hcap Hrefill (o2.*1) t t1 Ht) as Hb.
  apply Sorted_inv in Hsort as [Hsort _]. specialize (Hb Hsort).
  assert (count_allowed (a :: ref_run cap refill (Some (t, t1)) o2.*1) =
    (if a then 1 else 0) + count_allowed (ref_run cap refill (Some (t, t1)) o2.*1)) as ->.
  { unfold count_allowed. rewrite filter_cons. destruct a; case_decide; try done; simpl; lia. }
  rewrite inject_Z_plus.
  destruct a; [change (inject_Z 1) with 1%Q|change (inject_Z 0) with 0%Q]; lra.
Qed.

(** What a client reads.  In every history the script's reply has
    [allowed] 0 or 1, [remaining] between 0 and the capacity, a wait of at
    least one second exactly on denial, and a denial reports no remaining
    request. *)
Theorem bucket_reply_bounds `{RedisLaws R} key cap refill (r0 r : R) outs a b s r1 :
  1 <= cap -> (0 < refill)%Q -> HMGET key r0 = (None, None) ->
  history key cap refill r0 outs r ->
  token_bucket_script key cap refill r = ((a, b, s), r1) ->
  (a = 1 /\ s = 0 /\ 0 <= b <= cap - 1) \/ (a = 0 /\ 1 <= s /\ b = 0).
Proof.
  intros Hcap Hrefill Habs Hh Hs.
  destruct (history_represents _ _ _ Hcap Hrefill _ _ _ None Hh Habs) as [g Hg].
  destruct (script_reply _ _ _ Hcap Hrefill _ _ _ _ _ _ Hg Hs) as (t & _ & [Ht1 Ht2] & -> & Hc).
  assert (0 <= Qfloor t) as Hpos by (change 0 with (Qfloor 0); by apply Qfloor_resp_le).
  destruct Hc as [(-> & -> & Hle)|(-> & Hlt & ->)].
  - left. split; [done|]. split; [done|]. split; [done|].
    rewrite <- (Qfloor_Z (cap - 1)). apply Qfloor_resp_le.
    unfold Z.sub. rewrite inject_Z_plus. change (inject_Z (- (1))) with (-1)%Q. lra.
  - right. split; [done|]. split; [lia|].
    assert (Qfloor t < 1); [|lia]. rewrite Zlt_Qlt.
    eapply Qle_lt_trans; [apply Qfloor_le|]. change (inject_Z 1) with 1%Q. lra.
Qed.

(** Failing closed.  Whatever the connection does, [consume] either
    reports [RateLimiterUnavailableError], or the policy was valid and Redis
    answered with three finite numbers, and the request is allowed only if
    the first of them is 1. *)
Theorem consume_fails_closed {R} eval subject policy (r : R) :
  match consume eval subject policy r with
  | (Err e, _) => e = RateLimiterUnavailableError
  | (Ok d, r') =>
      1 <= toZ (capacity policy) /\ (0 < toQ (refillPerSecond policy))%Q /\
      exists a, eval (redis_key subject) (toZ (capacity policy)) (toQ (refillPerSecond policy)) r =
        (Ok (ReplyArray [ReplyNumber a; ReplyNumber (remaining d);
                         ReplyNumber (retryAfterSeconds d)]), r') /\
        isFinite a = true /\ (allowed d = true -> exists q, a = Num q /\ (q == 1)%Q)
  end.
Proof.
  unfold consume, validatePolicy.
  destruct (_ || _) eqn:Hv; [done|]. rewrite !orb_false_iff, !negb_false_iff in Hv.
  destruct Hv as (((Hint & Hcap) & Hfin) & Hpos).
  rewrite ltb_integer in Hcap by done. to_prop.
  assert (0 < toQ (refillPerSecond policy))%Q as Hrefill.
  { destruct (refillPerSecond policy); simpl in *; try done. by apply Qleb_false in Hpos. }
  destruct (eval _ _ _ r) as [[e|[items|]] r'] eqn:E; try done. simpl.
  destruct items as [|[a|] [|[b|] [|[c|] [|? ?]]]]; try done.
  destruct (isFinite a && isFinite b && isFinite c) eqn:Hf; [|done]. simpl.
  split; [done|]. split; [done|]. exists a. split; [done|]. to_prop. split; [tauto|].
  intros Hone. destruct a; try done. exists q. split; [done|]. by apply Qeq_bool_iff.
Qed.

(** End to end.  With a healthy server and a valid policy, [consume]
    always answers, and its verdict is the one of the reference bucket. *)
Theorem consume_follows_reference `{RedisLaws R} subject cap refill (r0 r : R) outs :
  1 <= cap -> (0 < refill)%Q -> HMGET (redis_key subject) r0 = (None, None) ->
  history (redis_key subject) cap refill r0 outs r ->
  exists d r', consume eval_script subject (mkPolicy (of_Z cap) (Num refill)) r = (Ok d, r') /\
    history (redis_key subject) cap refill r0 (outs ++ [(now_ms r, allowed d)]) r' /\
    (outs ++ [(now_ms r, allowed d)]).*2
      = ref_run cap refill None (outs ++ [(now_ms r, allowed d)]).*1.
Proof.
  intros Hcap Hrefill Habs Hh.
  assert (validatePolicy (mkPolicy (of_Z cap) (Num refill)) = Ok ()) as Hval.
  { unfold validatePolicy. simpl capacity. simpl refillPerSecond.
    rewrite of_Z_isInteger, ltb_integer, of_Z_toZ by apply of_Z_isInteger.
    assert ((cap <? 1) = false) as -> by (apply Z.ltb_ge; lia).
    assert (leb (Num refill) (of_Z 0) = false) as -> by (apply Qleb_false; exact Hrefill). done. }
  destruct (token_bucket_script (redis_key subject) cap refill r) as [[[a b] c] r'] eqn:Hs.
  assert (consume eval_script subject (mkPolicy (of_Z cap) (Num refill)) r =
    (Ok (mkDecision (a =? 1) (of_Z b) (of_Z c)), r')) as Hc.
  { unfold consume, eval_script. rewrite Hval. simpl capacity. simpl refillPerSecond.
    rewrite of_Z_toZ. simpl toQ. rewrite Hs. simpl. do 2 f_equal.
    destruct (Z.eqb_spec a 1) as [->|Hne]; [done|].
    destruct (Qeq_bool (inject_Z a) 1) eqn:E; [|done].
    apply Qeq_bool_iff in E. exfalso. apply Hne. by apply inject_Z_injective. }
  assert (history (redis_key subject) cap refill r0 (outs ++ [(now_ms r, (a =? 1))]) r') as Hh'.
  { clear Hc Habs. induction Hh; simpl.
    - eapply history_eval; [exact Hs|constructor].
    - eapply history_later; eauto.
    - eapply history_eval; eauto. }
  eexists _, r'. split; [exact Hc|]. split; [exact Hh'|].
  eapply history_reference; [done|done|exact Hh'|exact Habs].
Qed.

(** ** A concrete server *)

Module Server.

Record server : Type := mkServer {
  micros : Z;
  store : gmap string (Q * Z * option Z)
}.

(** An entry is gone once the clock has passed its deadline. *)
Definition entry (k : string) (r : server) : option (Q * Z) :=
  match store r !! k with
  | Some (t, u, Some deadline) => if deadline <=? micros r / 1000 then None else Some (t, u)
  | Some (t, u, None) => Some (t, u)
  | None => None
  end.

#[global] Instance server_redis : RedisServer server := {
  TIME r := (micros r / 1000000, micros r mod 1000000);
  HMGET k r := (fst <$> entry k r, snd <$> entry k r);
  HSET k t u r :=
    mkServer (micros r)
      (<[k := (t, u, match store r !! k with
                     | Some (_, _, Some d) => if d <=? micros r / 1000 then None else Some d
                     | _ => None end)]> (store r));
  EXPIRE k s r :=
    mkServer (micros r)
      (alter (fun e => (e.1, Some (micros r / 1000 + s * 1000))) k (store r));
  later k r r' := micros r <= micros r' /\ store r' !! k = store r !! k
}.

Lemma server_now r : now_ms r = micros r / 1000.
Proof.
  unfold now_ms. simpl. pose proof (Z.div_mod (micros r) 1000000 ltac:(lia)) as Hd.
  set (q := micros r / 1000000) in *. set (m := micros r mod 1000000) in *.
  rewrite Hd at 1. rewrite <- Z.div_add_l by lia.
  f_equal. lia.
Qed.

#[global] Instance server_laws : RedisLaws server.
Proof.
  constructor; try done.
  - intros k r1 r2 r3 [? Ha] [? Hb]. split; [lia|congruence].
  - intros k r r' [Hm _]. rewrite !server_now. apply Z.div_le_mono; lia.
  - intros k r r' [Hm Hs]. simpl. unfold entry. rewrite Hs.
    destruct (store r !! k) as [[[t u] [d|]]|]; try done.
    destruct (d <=? micros r / 1000) eqn:E; [|done]. intros _. to_prop.
    assert (micros r / 1000 <= micros r' / 1000) by (apply Z.div_le_mono; lia).
    assert ((d <=? micros r' / 1000) = true) as -> by (to_prop; lia). done.
  - intros k t u s r r' [Hm Hs]. rewrite !server_now. simpl in *. unfold entry.
    rewrite lookup_alter_eq, lookup_insert_eq in Hs. simpl in Hs. rewrite Hs.
    destruct (_ <=? _) eqn:E; [right|by left]. to_prop. done.
Qed.

End Server.
Import Server.

(** Capacity 2, one token every two seconds. *)
Definition ex_key : string := redis_key "k".
Definition ex_refill : Q := 1 # 2.
Definition ex_server (t : Z) : server := mkServer (t * 1000) ∅.
Definition ex_eval (r : server) : (Z * Z * Z) * server := token_bucket_script ex_key 2 ex_refill r.

(** Three requests at once, the third denied. *)
Definition ex_r1 : server := (ex_eval (ex_server 0)).2.
Definition ex_r2 : server := (ex_eval ex_r1).2.
Definition ex_r3 : server := (ex_eval ex_r2).2.

Lemma ex_history : history ex_key 2 ex_refill (ex_server 0) [(0, true); (0, true)] ex_r2.
Proof.
  change [(0, true); (0, true)] with
    [(now_ms (ex_server 0), (1 =? 1)); (now_ms ex_r1, (1 =? 1))].
  eapply (history_eval ex_key 2 ex_refill (ex_server 0) 1 1 0 ex_r1); [by vm_compute|].
  eapply (history_eval ex_key 2 ex_refill ex_r1 1 0 0 ex_r2); [by vm_compute|].
  constructor.
Qed.

Lemma bucket_expiry_transparent_witness :
  [true; true] = ref_run 2 ex_refill None [0; 0].
Proof.
  apply (bucket_expiry_transparent ex_key 2 ex_refill (ex_server 0) [(0, true); (0, true)] ex_r2);
    [lia|done|by vm_compute|apply ex_history].
Defined.

Lemma bucket_rate_bound_witness :
  (inject_Z (count_allowed [true; true]) <= inject_Z 2 + gain ex_refill (0 - 0))%Q.
Proof.
  apply (bucket_rate_bound ex_key 2 ex_refill (ex_server 0) [] 0 true [(0, true)] ex_r2);
    [lia|done|by vm_compute|apply ex_history].
Defined.

Lemma bucket_reply_bounds_witness :
  (0 = 1 /\ 2 = 0 /\ 0 <= 0 <= 2 - 1) \/ (0 = 0 /\ 1 <= 2 /\ 0 = 0).
Proof.
  apply (bucket_reply_bounds ex_key 2 ex_refill (ex_server 0) ex_r2 [(0, true); (0, true)]
    0 0 2 ex_r3); [lia|done|by vm_compute|apply ex_history|by vm_compute].
Defined.

Lemma consume_follows_reference_witness :
  exists d r', consume eval_script "k" (mkPolicy (of_Z 2) (Num ex_refill)) ex_r2 = (Ok d, r').
Proof.
  destruct (consume_follows_reference "k" 2 ex_refill (ex_server 0) ex_r2 [(0, true); (0, true)])
    as (d & r' & H & _); [lia|done|by vm_compute|apply ex_history|].
  by exists d, r'.
Defined.

End TokenBucket.
