(* ===== verification/JobStore.v ===== *)
(** * The durable job store

    [src/src/queue/postgres-job-store.ts], with the table of
    [src/db/migrations/002_create_inference_jobs.sql] and the types of
    [src/src/queue/job-queue.ts].

    The table [inference_jobs] is a finite map from job ids to rows; each SQL
    statement is a function on it, evaluated at one reading of [NOW()].  A
    method that issues several statements is given as the composition of
    them, with a function [yield] (or the publication callback) standing for
    what other sessions commit in between.  Timestamps are rationals, in
    milliseconds.  [randomUUID] and the two uses of the SHA-256 [hash] are
    parameters. *)

From S2P Require Import Prelude Errors.
Import Errors.

Module JobStore.

Inductive JobState : Type := queued | active | retrying | completed | failed.

#[global] Instance JobState_eq_dec : EqDecision JobState.
Proof. solve_decision. Defined.

Record JobEnvelope : Type := mkEnvelope { env_id : string; env_attempt : Z }.

#[global] Instance JobEnvelope_eq_dec : EqDecision JobEnvelope.
Proof. solve_decision. Defined.

Record JobStoreOptions : Type := mkStoreOptions {
  name : string;
  maxAttempts : Z;
  backoffMs : Z;
  leaseMs : Z
}.

Record JobReceipt : Type := mkReceipt { receipt_id : string; receipt_requestId : string }.

Section Store.
  Context {TData TResult : Type}.

Record JobSubmission : Type := mkSubmission {
  sub_ownerId : string;
  sub_requestId : string;
  sub_idempotencyKey : string;
  sub_data : TData
}.

Record JobStatus : Type := mkStatus {
  st_receipt : JobReceipt;
  st_status : JobState;
  st_attemptsMade : Z;
  st_response : option TResult;
  st_error : option (JobErrorCode * string)
}.

Record ProcessingJob : Type := mkProcessing {
  pj_receipt : JobReceipt;
  pj_ownerId : string;
  pj_data : TData;
  pj_attempt : Z;
  pj_queueWaitTimeMs : option Q
}.

(** A row of [inference_jobs]; the key [id] is the index of the map. *)
Record JobRow : Type := mkRow {
  queue_name : string;
  owner_id : string;
  idempotency_hash : string;
  payload_hash : string;
  request_id : string;
  data : TData;
  status : JobState;
  attempts_made : Z;
  max_attempts : Z;
  backoff_ms : Z;
  response : option TResult;
  error_code : option string;
  dispatch_pending : bool;
  available_at : Q;
  lease_until : option Q;
  finished_at : option Q
}.

Abbreviation db := (gmap string JobRow).

Context (opts : JobStoreOptions).
Context (hash_key : string -> string) (hash_data : TData -> string).

(** ** enqueue *)

Definition same_key (q o h : string) (row : JobRow) : bool :=
  String.eqb (queue_name row) q && String.eqb (owner_id row) o
  && String.eqb (idempotency_hash row) h.

(** [SELECT * ... WHERE queue_name = $1 AND owner_id = $2 AND idempotency_hash = $3] *)
Definition select_by_key (q o h : string) (t : db) : option (string * JobRow) :=
  snd <$> list_find (fun p => same_key q o h p.2 = true) (map_to_list t).

(** The row an INSERT creates, with the column defaults. *)
Definition new_row (now : Q) (sub : JobSubmission) : JobRow :=
  mkRow (name opts) (sub_ownerId sub) (hash_key (sub_idempotencyKey sub))
    (hash_data (sub_data sub)) (sub_requestId sub) (sub_data sub)
    queued 0 (maxAttempts opts) (backoffMs opts) None None true now None None.

(** [INSERT ... ON CONFLICT (queue_name, owner_id, idempotency_hash) DO
    NOTHING RETURNING *]; a clash of the primary key raises. *)
Definition insert_job (now : Q) (id : string) (sub : JobSubmission) (t : db) :
    result error (option (string * JobRow) * db) :=
  match select_by_key (name opts) (sub_ownerId sub) (hash_key (sub_idempotencyKey sub)) t with
  | Some _ => Ok (None, t)
  | None =>
      match t !! id with
      | Some _ => Err (PlainError "duplicate key value violates unique constraint")
      | None => Ok (Some (id, new_row now sub), <[id := new_row now sub]> t)
      end
  end.

Definition check_receipt (sub : JobSubmission) (row : option (string * JobRow)) :
    result error JobReceipt :=
  match row with
  | None => Err (PlainError "Job disappeared during submission; retry the request")
  | Some (id, row) =>
      if String.eqb (payload_hash row) (hash_data (sub_data sub))
      then Ok (mkReceipt id (request_id row))
      else Err IdempotencyConflictError
  end.

Definition enqueue (now : Q) (id : string) (yield : db -> db) (sub : JobSubmission) (t : db) :
    result error JobReceipt * db :=
  match insert_job now id sub t with
  | Err e => (Err e, t)
  | Ok (Some row, t') => (check_receipt sub (Some row), t')
  | Ok (None, t') =>
      let t'' := yield t' in
      (check_receipt sub
         (select_by_key (name opts) (sub_ownerId sub) (hash_key (sub_idempotencyKey sub)) t''),
       t'')
  end.

(** ** getJob *)

Definition getJob (id ownerId : string) (t : db) : result error JobStatus :=
  match t !! id with
  | Some row =>
      if String.eqb (owner_id row) ownerId && String.eqb (queue_name row) (name opts) then
        Ok (mkStatus (mkReceipt id (request_id row)) (status row) (attempts_made row)
              (match status row with completed => response row | _ => None end)
              (match status row with
               | failed => Some (publicJobError (default "JOB_FAILED" (error_code row)))
               | _ => None
               end))
      else Err JobNotFoundError
  | None => Err JobNotFoundError
  end.

(** ** dispatchOne *)

Definition waiting (s : JobState) : bool :=
  match s with queued | retrying => true | _ => false end.

Definition due (now : Q) (row : JobRow) : bool :=
  String.eqb (queue_name row) (name opts) && dispatch_pending row
  && waiting (status row) && (available_at row <=q now).

(** [ORDER BY available_at, id] *)
Definition dispatch_before (p q : string * JobRow) : bool :=
  (available_at p.2 <q available_at q.2)
  || (Qeq_bool (available_at p.2) (available_at q.2) && String.leb p.1 q.1).

Definition least (best : option (string * JobRow)) (p : string * JobRow) :
    option (string * JobRow) :=
  match best with
  | None => Some p
  | Some b => if dispatch_before b p then Some b else Some p
  end.

(** The SELECT ... LIMIT 1 FOR UPDATE SKIP LOCKED; [locked] are the rows other
    transactions hold. *)
Definition select_due (now : Q) (locked : string -> bool) (t : db) : option (string * JobRow) :=
  foldl least None
    (filter (fun p => due now p.2 && negb (locked p.1) = true) (map_to_list t)).

Definition clear_pending (row : JobRow) : JobRow :=
  mkRow (queue_name row) (owner_id row) (idempotency_hash row) (payload_hash row)
    (request_id row) (data row) (status row) (attempts_made row) (max_attempts row)
    (backoff_ms row) (response row) (error_code row) false (available_at row)
    (lease_until row) (finished_at row).

(** The transaction.  [begin] is the outcome of the connection, the BEGIN and
    the SELECT.  [publish] may fail, and whatever other sessions commit while
    it is pending is part of the table it returns; the row itself is locked
    meanwhile.  [commit] is the outcome of the UPDATE and COMMIT round trips:
    when they fail the transaction is rolled back although the message is
    already out. *)
Definition dispatchOne (now : Q) (locked : string -> bool) (begin : result error ())
    (publish : JobEnvelope -> db -> result error () * db) (commit : result error ()) (t : db) :
    result error bool * db :=
  match begin with
  | Err e => (Err e, t)
  | Ok _ =>
      match select_due now locked t with
      | None => (match commit with Ok _ => Ok false | Err e => Err e end, t)
      | Some (id, row) =>
          match publish (mkEnvelope id (attempts_made row + 1)) t with
          | (Err e, t') => (Err e, t')
          | (Ok _, t') =>
              match commit with
              | Ok _ => (Ok true, alter clear_pending id t')
              | Err e => (Err e, t')
              end
          end
      end
  end.

(** ** claim *)

Definition claimable (now : Q) (m : JobEnvelope) (row : JobRow) : bool :=
  String.eqb (queue_name row) (name opts) && waiting (status row)
  && (attempts_made row =? env_attempt m - 1) && (attempts_made row <? max_attempts row)
  && (available_at row <=q now).

Definition claim_row (now : Q) (m : JobEnvelope) (row : JobRow) : JobRow :=
  mkRow (queue_name row) (owner_id row) (idempotency_hash row) (payload_hash row)
    (request_id row) (data row) active (env_attempt m) (max_attempts row)
    (backoff_ms row) (response row) (error_code row) (dispatch_pending row) (available_at row)
    (Some (now + inject_Z (leaseMs opts))%Q) (finished_at row).

Definition claim (now : Q) (m : JobEnvelope) (t : db) : option ProcessingJob * db :=
  match t !! env_id m with
  | Some row =>
      if claimable now m row then
        let row' := claim_row now m row in
        (Some (mkProcessing (mkReceipt (env_id m) (request_id row')) (owner_id row') (data row')
                 (attempts_made row') (Some (Qmaxb 0 (now - available_at row')))),
         <[env_id m := row']> t)
      else (None, t)
  | None => (None, t)
  end.

(** ** complete and fail *)

(** [WHERE id = $1 AND attempts_made = $2 AND queue_name = $3 AND status = 'active'] *)
Definition owns_attempt (m : JobEnvelope) (row : JobRow) : bool :=
  (attempts_made row =? env_attempt m) && String.eqb (queue_name row) (name opts)
  && bool_decide (status row = active).

(** The result column is JSONB.  A result the column accepts is kept as it
    is; for one PostgreSQL refuses (a text with U+0000 or a lone surrogate)
    the statement fails and changes nothing, like any other statement that is
    refused: the callers have that outcome as an argument. *)
Definition complete_row (now : Q) (r : TResult) (row : JobRow) : JobRow :=
  mkRow (queue_name row) (owner_id row) (idempotency_hash row) (payload_hash row)
    (request_id row) (data row) completed (attempts_made row) (max_attempts row)
    (backoff_ms row) (Some r) None false (available_at row) None (Some now).

Definition complete (now : Q) (m : JobEnvelope) (r : TResult) (t : db) : db :=
  match t !! env_id m with
  | Some row => if owns_attempt m row then <[env_id m := complete_row now r row]> t else t
  | None => t
  end.

Definition retry_delay (retryAfterMs : Q) (row : JobRow) : Q :=
  Qmaxb retryAfterMs
    (Qminb 3600000 (inject_Z (backoff_ms row) * inject_Z (2 ^ Z.min (attempts_made row - 1) 30))).

Definition fail_row (now : Q) (code : string) (retryable : bool) (retryAfterMs : Q) (row : JobRow) :
    JobRow :=
  let again := retryable && (attempts_made row <? max_attempts row) in
  mkRow (queue_name row) (owner_id row) (idempotency_hash row) (payload_hash row)
    (request_id row) (data row) (if again then retrying else failed) (attempts_made row)
    (max_attempts row) (backoff_ms row) (response row) (Some code) again
    (now + retry_delay retryAfterMs row) None (if again then None else Some now).

(** The statement's [RETURNING status]. *)
Definition fail (now : Q) (m : JobEnvelope) (code : JobErrorCode) (retryable : bool)
    (retryAfterMs : Q) (t : db) : option JobState * db :=
  match t !! env_id m with
  | Some row =>
      if owns_attempt m row then
        let row' := fail_row now (JobErrorCode_name code) retryable retryAfterMs row in
        (Some (status row'), <[env_id m := row']> t)
      else (None, t)
  | None => (None, t)
  end.

(** ** maintain *)

Definition expired (now : Q) (row : JobRow) : bool :=
  String.eqb (queue_name row) (name opts) && bool_decide (status row = active)
  && match lease_until row with Some l => l <q now | None => false end.

Definition expire_row (now : Q) (row : JobRow) : JobRow :=
  let again := attempts_made row <? max_attempts row in
  mkRow (queue_name row) (owner_id row) (idempotency_hash row) (payload_hash row)
    (request_id row) (data row) (if again then queued else failed) (attempts_made row)
    (max_attempts row) (backoff_ms row) (response row) (Some "JOB_FAILED") again now None
    (if again then None else Some now).

Definition expire_leases (now : Q) (t : db) : db :=
  (fun row => if expired now row then expire_row now row else row) <$> t.

(** 24 hours, in milliseconds. *)
Definition retention : Q := 86400000.

Definition stale (now : Q) (row : JobRow) : bool :=
  String.eqb (queue_name row) (name opts)
  && match finished_at row with Some f => f <q now - retention | None => false end.

Definition delete_finished (now : Q) (t : db) : db :=
  filter (fun p => stale now p.2 = false) t.

Definition maintain (now now' : Q) (yield : db -> db) (t : db) : db :=
  delete_finished now' (yield (expire_leases now t)).

(** ** queueDepth *)

Definition depth_of (s : JobState) (t : db) : nat :=
  map_count (fun row => String.eqb (queue_name row) (name opts) && bool_decide (status row = s)) t.

Definition queueDepth (t : db) : nat * nat * nat :=
  (depth_of queued t, depth_of retrying t, depth_of active t).

(** ** The statements, row by row *)

(** Every statement other than the INSERT and the DELETE leaves each row as
    it was or changes it in one of these ways; [d] tells whether the row is
    the one a dispatcher has just published. *)
Inductive change (now : Q) (d : bool) (row : JobRow) : JobRow -> Prop :=
| change_none : change now d row row
| change_clear : d = true -> due now row = true -> change now d row (clear_pending row)
| change_claim m : claimable now m row = true -> change now d row (claim_row now m row)
| change_complete m r : owns_attempt m row = true -> change now d row (complete_row now r row)
| change_fail m code retryable ra :
    owns_attempt m row = true -> change now d row (fail_row now code retryable ra row)
| change_expire : expired now row = true -> change now d row (expire_row now row).

(** [t'] comes from [t] by changing rows (and possibly dropping some). *)
Definition changed (now : Q) (t t' : db) : Prop :=
  forall id row', t' !! id = Some row' -> exists row, t !! id = Some row /\ change now false row row'.

Lemma changed_refl now t : changed now t t.
Proof. intros id row H. eauto using change. Qed.

Lemma changed_insert now t i row row' :
  t !! i = Some row -> change now false row row' -> changed now t (<[i := row']> t).
Proof.
  intros Hi Hc id r [[<- <-]|[_ Hr]]%lookup_insert_Some; eauto using change.
Qed.

Lemma claim_changed now m t : changed now t (claim now m t).2.
Proof.
  unfold claim. repeat case_match; simpl; try apply changed_refl.
  eapply changed_insert; eauto using change.
Qed.

Lemma complete_changed now m r t : changed now t (complete now m r t).
Proof.
  unfold complete. repeat case_match; simpl; try apply changed_refl.
  eapply changed_insert; eauto using change.
Qed.

Lemma fail_changed now m c b ra t : changed now t (fail now m c b ra t).2.
Proof.
  unfold fail. repeat case_match; simpl; try apply changed_refl.
  eapply changed_insert; eauto using change.
Qed.

Lemma expire_changed now t : changed now t (expire_leases now t).
Proof.
  intros id row'. unfold expire_leases. rewrite lookup_fmap.
  intros (row & Hrow & ->)%fmap_Some. exists row. split; [done|].
  destruct (expired now row) eqn:E; by constructor.
Qed.

Lemma delete_changed now t : changed now t (delete_finished now t).
Proof.
  intros id row' [H _]%map_lookup_filter_Some. eauto using change.
Qed.

(** What [select_due] returns: a due row nobody else holds, before every
    other one in the dispatch order. *)
Lemma least_spec l b :
  match foldl least b l with
  | Some p => b = Some p \/ p ∈ l
  | None => b = None /\ l = []
  end.
Proof.
  revert b. induction l as [|x l IH]; intros b; simpl; [destruct b; auto|].
  specialize (IH (least b x)). destruct (foldl least (least b x) l) as [p|].
  - destruct IH as [Hb|Hin]; [|by right; right].
    unfold least in Hb. repeat case_match; simplify_eq; auto using list_elem_of_here.
  - destruct IH as [Hb _]. unfold least in Hb. by repeat case_match.
Qed.

Lemma select_due_Some now locked t id row :
  select_due now locked t = Some (id, row) ->
  t !! id = Some row /\ due now row = true /\ locked id = false.
Proof.
  unfold select_due. intros H. pose proof (least_spec
    (filter (fun p => due now p.2 && negb (locked p.1) = true) (map_to_list t)) None) as Hs.
  rewrite H in Hs. destruct Hs as [?|Hin]; [done|].
  apply list_elem_of_filter in Hin as [Hd Hin%elem_of_map_to_list]. simpl in Hd. to_prop.
  destruct Hd. auto.
Qed.

Lemma select_due_None now locked t :
  select_due now locked t = None ->
  forall id row, t !! id = Some row -> due now row = true -> locked id = true.
Proof.
  unfold select_due. intros H id row Hi Hd. pose proof (least_spec
    (filter (fun p => due now p.2 && negb (locked p.1) = true) (map_to_list t)) None) as Hs.
  rewrite H in Hs. destruct Hs as [_ Hnil]. destruct (locked id) eqn:Hl; [done|].
  assert ((id, row) ∈ filter (fun p => due now p.2 && negb (locked p.1) = true) (map_to_list t)) as Hin.
  { apply list_elem_of_filter. split; [simpl; by rewrite Hd, Hl|]. by apply elem_of_map_to_list. }
  rewrite Hnil in Hin. by apply not_elem_of_nil in Hin.
Qed.

(** The row chosen is one of the longest due. *)
Lemma least_min l b p :
  foldl least b l = Some p ->
  (forall q, b = Some q -> (available_at p.2 <= available_at q.2)%Q) /\
  forall q, q ∈ l -> (available_at p.2 <= available_at q.2)%Q.
Proof.
  revert b. induction l as [|x l IH]; intros b; simpl.
  - intros ->. split; [intros q [= <-]; lra|by intros q ?%not_elem_of_nil].
  - intros [H1 H2]%IH.
    assert ((available_at p.2 <= available_at x.2)%Q /\
      forall q, b = Some q -> (available_at p.2 <= available_at q.2)%Q) as [Hx Hb].
    { unfold least, dispatch_before in H1. destruct b as [q|]; [|split; [by apply H1|done]].
      destruct (_ || _) eqn:E.
      - specialize (H1 _ eq_refl). apply orb_true_iff in E as [E|E]; to_prop;
          [|destruct E as [E%Qeq_bool_iff _]]; (split; [|intros ? [= <-]]); lra.
      - specialize (H1 _ eq_refl). apply orb_false_iff in E as [E _]. to_prop.
        split; [done|]. intros ? [= <-]. lra. }
    split; [done|]. intros q [->|Hq]%elem_of_cons; auto.
Qed.

Lemma select_due_first now locked t id row :
  select_due now locked t = Some (id, row) ->
  forall id' row', t !! id' = Some row' -> due now row' = true -> locked id' = false ->
    (available_at row <= available_at row')%Q.
Proof.
  unfold select_due. intros [_ H]%least_min id' row' Hi Hd Hl.
  apply (H (id', row')), list_elem_of_filter. split; [simpl; by rewrite Hd, Hl|].
  by apply elem_of_map_to_list.
Qed.

Lemma select_by_key_Some q o h t id row :
  select_by_key q o h t = Some (id, row) ->
  t !! id = Some row /\ queue_name row = q /\ owner_id row = o /\ idempotency_hash row = h.
Proof.
  unfold select_by_key. intros ([i p] & Hf & Hp)%fmap_Some. simpl in Hp. subst p.
  apply list_find_Some in Hf as (Hl & Hk & _). unfold same_key in Hk. simpl in Hk. to_prop.
  apply list_elem_of_lookup_2, elem_of_map_to_list in Hl.
  destruct Hk as [[? ?] ?]. auto.
Qed.

Lemma select_by_key_None q o h t :
  select_by_key q o h t = None ->
  forall id row, t !! id = Some row ->
    ~ (queue_name row = q /\ owner_id row = o /\ idempotency_hash row = h).
Proof.
  unfold select_by_key. intros H%fmap_None id row Hi (<- & <- & <-).
  apply list_find_None in H. rewrite Forall_forall in H.
  apply elem_of_map_to_list, H in Hi. apply Hi. unfold same_key. simpl.
  by rewrite !String.eqb_refl.
Qed.

Lemma due_unfold now row :
  due now row = true ->
  queue_name row = name opts /\ dispatch_pending row = true /\ waiting (status row) = true /\
  (available_at row <= now)%Q.
Proof. unfold due. intros H. to_prop. tauto. Qed.

Lemma claimable_unfold now m row :
  claimable now m row = true ->
  queue_name row = name opts /\ waiting (status row) = true /\
  attempts_made row = env_attempt m - 1 /\ attempts_made row < max_attempts row /\
  (available_at row <= now)%Q.
Proof. unfold claimable. intros H. to_prop. tauto. Qed.

Lemma owns_attempt_unfold m row :
  owns_attempt m row = true ->
  attempts_made row = env_attempt m /\ queue_name row = name opts /\ status row = active.
Proof. unfold owns_attempt. intros H. to_prop. tauto. Qed.

Lemma expired_unfold now row :
  expired now row = true ->
  queue_name row = name opts /\ status row = active /\
  exists l, lease_until row = Some l /\ (l < now)%Q.
Proof.
  unfold expired. intros H. destruct (lease_until row); to_prop; [|by destruct H].
  destruct H as [[? ?] ?]. eauto.
Qed.

(** Identity columns never change. *)
Lemma change_identity now d row row' :
  change now d row row' ->
  queue_name row' = queue_name row /\ owner_id row' = owner_id row /\
  idempotency_hash row' = idempotency_hash row /\ payload_hash row' = payload_hash row /\
  request_id row' = request_id row /\ data row' = data row /\
  max_attempts row' = max_attempts row /\ backoff_ms row' = backoff_ms row.
Proof. by destruct 1. Qed.

(** Attempts only grow, by one at a claim; a waiting row keeps its schedule. *)
Lemma change_attempts now d row row' :
  change now d row row' ->
  attempts_made row <= attempts_made row' /\
  (waiting (status row) = true -> attempts_made row' = attempts_made row ->
   waiting (status row') = true /\ available_at row' = available_at row).
Proof.
  destruct 1 as [|Hd Hdue|m Hc|m r Ho|m c b ra Ho|He]; simpl; try (split; [lia|done]).
  - apply claimable_unfold in Hc as (_ & _ & Ha & _). split; [lia|]. lia.
  - apply owns_attempt_unfold in Ho as (_ & _ & ->). split; [lia|done].
  - apply owns_attempt_unfold in Ho as (_ & _ & ->). split; [lia|done].
  - apply expired_unfold in He as (_ & -> & _). split; [lia|done].
Qed.

(** Terminal rows are never changed. *)
Definition terminal (s : JobState) : bool :=
  match s with completed | failed => true | _ => false end.

Lemma change_terminal now d row row' :
  change now d row row' -> terminal (status row) = true -> row' = row.
Proof.
  destruct 1 as [|? Hd|m Hc|m r Ho|m c b ra Ho|He]; [done|..]; intros Ht; exfalso.
  - apply due_unfold in Hd as (_ & _ & Hw & _). by destruct (status row).
  - apply claimable_unfold in Hc as (_ & Hw & _). by destruct (status row).
  - apply owns_attempt_unfold in Ho as (_ & _ & Hs). by rewrite Hs in Ht.
  - apply owns_attempt_unfold in Ho as (_ & _ & Hs). by rewrite Hs in Ht.
  - apply expired_unfold in He as (_ & Hs & _). by rewrite Hs in Ht.
Qed.

(** A row that waits without pending publication was not just rescheduled. *)
Lemma change_unpublished now d row row' :
  change now d row row' -> waiting (status row') = true -> dispatch_pending row' = false ->
  waiting (status row) = true /\ attempts_made row' = attempts_made row /\
  (dispatch_pending row = false \/ d = true).
Proof.
  destruct 1 as [|? Hd|m Hc|m r Ho|m c b ra Ho|He]; simpl; try done; auto.
  - intros. destruct b, (attempts_made row <? max_attempts row); simpl in *; done.
  - intros. destruct (attempts_made row <? max_attempts row); done.
Qed.

End Store.

Arguments JobSubmission : clear implicits.
Arguments JobStatus : clear implicits.
Arguments ProcessingJob : clear implicits.
Arguments JobRow : clear implicits.

(** ** The properties *)

(** Tenants are isolated.  The answer of [getJob] to an owner depends
    only on that owner's rows: jobs of other owners are indistinguishable
    from jobs that do not exist. *)
Theorem getJob_isolation {TData TResult} opts (t1 t2 : gmap string (JobRow TData TResult)) owner id :
  (forall i row, owner_id row = owner -> (t1 !! i = Some row <-> t2 !! i = Some row)) ->
  getJob opts id owner t1 = getJob opts id owner t2.
Proof.
  intros Hsame. unfold getJob.
  destruct (t1 !! id) as [r1|] eqn:H1, (t2 !! id) as [r2|] eqn:H2; try done.
  - destruct (decide (owner_id r1 = owner)) as [Ho|Ho].
    { apply (Hsame id r1 Ho) in H1. by simplify_eq. }
    destruct (decide (owner_id r2 = owner)) as [Ho2|Ho2].
    { apply (Hsame id r2 Ho2) in H2. by simplify_eq. }
    apply String.eqb_neq in Ho, Ho2. by rewrite Ho, Ho2.
  - destruct (decide (owner_id r1 = owner)) as [Ho|Ho].
    { apply (Hsame id r1 Ho) in H1. congruence. }
    apply String.eqb_neq in Ho. by rewrite Ho.
  - destruct (decide (owner_id r2 = owner)) as [Ho|Ho].
    { apply (Hsame id r2 Ho) in H2. congruence. }
    apply String.eqb_neq in Ho. by rewrite Ho.
Qed.

(** What polling reveals.  A status answer carries a response exactly
    when the row is completed, and for a failed row one of the published
    error descriptions, never the stored text itself. *)
Theorem getJob_reveals {TData TResult} opts (t : gmap string (JobRow TData TResult)) id owner st :
  getJob opts id owner t = Ok st ->
  exists row, t !! id = Some row /\ owner_id row = owner /\
    st_status st = status row /\
    (st_response st = if decide (status row = completed) then response row else None) /\
    match st_error st with
    | None => status row <> failed
    | Some e => status row = failed /\ e ∈ publicErrors
    end.
Proof.
  unfold getJob. destruct (t !! id) as [row|]; [|done].
  destruct (_ && _) eqn:E; [|done]. to_prop. intros [= <-]. exists row. simpl.
  split; [done|]. split; [tauto|]. split; [done|].
  destruct (status row); simpl; repeat case_decide; try done.
  split; [done|]. split; [done|]. apply publicJobError_published.
Qed.

(** Dispatching picks a job that is due, held by no other dispatcher, and
    among those one that has been due the longest; it finds none only when
    every due job is held. *)
Theorem dispatch_longest_due {TData TResult} opts now locked (t : gmap string (JobRow TData TResult)) :
  match select_due opts now locked t with
  | Some (id, row) =>
      t !! id = Some row /\ due opts now row = true /\ locked id = false /\
      forall id' row', t !! id' = Some row' -> due opts now row' = true -> locked id' = false ->
        (available_at row <= available_at row')%Q
  | None => forall id row, t !! id = Some row -> due opts now row = true -> locked id = true
  end.
Proof.
  destruct (select_due opts now locked t) as [[id row]|] eqn:E.
  - pose proof (select_due_Some _ _ _ _ _ _ E) as (H1 & H2 & H3).
    pose proof (select_due_first _ _ _ _ _ _ E). auto.
  - by apply select_due_None.
Qed.

(** ** Concrete rows *)

Definition ex_opts : JobStoreOptions := mkStoreOptions "q" 2 1000 60000.
Definition ex_row (o : string) (s : JobState) (k : Z) : JobRow string string :=
  mkRow "q" o "h" "p" "req" "d" s k 2 1000 (Some "answer") (Some "oops") true 0 None None.
Definition ex_table : gmap string (JobRow string string) :=
  {[ "a" := ex_row "alice" completed 1; "b" := ex_row "bob" failed 2 ]}.

Lemma getJob_isolation_witness :
  getJob ex_opts "b" "alice" ex_table = getJob ex_opts "b" "alice" (delete "b" ex_table).
Proof.
  apply (getJob_isolation ex_opts ex_table (delete "b" ex_table) "alice" "b").
  intros i row Ho. rewrite lookup_delete_Some. split; [|tauto]. intros Hi. split; [|done].
  intros <-. vm_compute in Hi. injection Hi as <-. done.
Defined.

Lemma getJob_reveals_witness :
  exists row, ex_table !! "b" = Some row /\ owner_id row = "bob".
Proof.
  destruct (getJob_reveals ex_opts ex_table "b" "bob"
    (mkStatus (mkReceipt "b" "req") failed 2 None (Some (JOB_FAILED, "Inference job failed"))))
    as (row & H1 & H2 & _); [by vm_compute|].
  by exists row.
Defined.

End JobStore.
