(* ===== verification/JobSystem.v ===== *)
(** * Jobs end to end: table, broker, workers and crashes

    The durable store of [JobStore] together with the RabbitMQ queue that
    carries envelopes and the worker processes that execute them
    ([src/src/queue/postgres-job-store.ts], [rabbitmq.ts],
    [rabbitmq-broker.ts]).  A state has the table, the clock, the envelopes
    ready in the queue, those delivered to a consumer and not acknowledged,
    the attempts some worker is executing, the deliveries a worker has decided
    to acknowledge, and two history variables: the job ids ever handed out and
    the attempts ever claimed.

    The steps are the statements of the store, run by any number of gateways
    and workers in any order, and the failures the design is meant for: a
    publication whose transaction does not commit, deliveries returned to the
    queue by a lost connection, workers that die or that outlive their lease.
    The broker is assumed to be what the code configures it to be, a durable
    at-least-once queue: it loses no message, and redelivers those not
    acknowledged. *)

From S2P Require Import Prelude Errors JobStore.
Import Errors JobStore.

Module JobSystem.

Section System.
  Context {TData TResult : Type}.
  Context (opts : JobStoreOptions).
  Context (hash_key : string -> string) (hash_data : TData -> string).
  Abbreviation row_t := (JobRow TData TResult).

Record system : Type := mkSystem {
  table : gmap string row_t;
  clock : Q;
  broker : list JobEnvelope;
  delivered : list JobEnvelope;
  running : list JobEnvelope;
  settled : list JobEnvelope;
  used : gset string;
  claims : list JobEnvelope
}.

Definition start (t : Q) : system := mkSystem ∅ t [] [] [] [] ∅ [].

(** Take one copy of [m] out of a list. *)
Definition take_out (m : JobEnvelope) (l : list JobEnvelope) : option (list JobEnvelope) :=
  snd <$> remove_first (fun x => bool_decide (x = m)) l.

Inductive label : Type :=
| Submit (id : string) (sub : JobSubmission TData)
| Dispatch (m : JobEnvelope)
| PublishLost (m : JobEnvelope)
| Deliver (m : JobEnvelope)
| Requeue (m : JobEnvelope)
| Claim (m : JobEnvelope)
| Skip (m : JobEnvelope)
| Complete (m : JobEnvelope) (r : TResult)
| Fail (m : JobEnvelope) (code : JobErrorCode) (retryable : bool) (retryAfterMs : Q)
| WorkerLost (m : JobEnvelope)
| Acknowledge (m : JobEnvelope)
| Expire
| Purge
| Tick (t : Q).

Definition with_table (t : gmap string row_t) (s : system) : system :=
  mkSystem t (clock s) (broker s) (delivered s) (running s) (settled s) (used s) (claims s).

Definition published_ok : JobEnvelope -> gmap string row_t -> result error () * gmap string row_t :=
  fun _ t => (Ok (), t).

(** Finishing attempt [m]: out of [running], to be acknowledged. *)
Definition finish (m : JobEnvelope) (t : gmap string row_t) (run : list JobEnvelope) (s : system) :
    system :=
  mkSystem t (clock s) (broker s) (delivered s) run (m :: settled s) (used s) (claims s).

Inductive step : system -> label -> system -> Prop :=
| step_submit s id sub row t :
    id ∉ used s ->
    insert_job opts hash_key hash_data (clock s) id sub (table s) = Ok (row, t) ->
    step s (Submit id sub)
      (mkSystem t (clock s) (broker s) (delivered s) (running s) (settled s)
         ({[id]} ∪ used s) (claims s))
| step_dispatch s locked id row t :
    select_due opts (clock s) locked (table s) = Some (id, row) ->
    dispatchOne opts (clock s) locked (Ok ()) published_ok (Ok ()) (table s) = (Ok true, t) ->
    step s (Dispatch (mkEnvelope id (attempts_made row + 1)))
      (mkSystem t (clock s) (mkEnvelope id (attempts_made row + 1) :: broker s) (delivered s)
         (running s) (settled s) (used s) (claims s))
| step_publish_lost s locked id row e t :
    select_due opts (clock s) locked (table s) = Some (id, row) ->
    dispatchOne opts (clock s) locked (Ok ()) published_ok (Err e) (table s) = (Err e, t) ->
    step s (PublishLost (mkEnvelope id (attempts_made row + 1)))
      (mkSystem t (clock s) (mkEnvelope id (attempts_made row + 1) :: broker s) (delivered s)
         (running s) (settled s) (used s) (claims s))
| step_deliver s m b :
    take_out m (broker s) = Some b ->
    step s (Deliver m)
      (mkSystem (table s) (clock s) b (m :: delivered s) (running s) (settled s) (used s) (claims s))
| step_requeue s m d :
    take_out m (delivered s) = Some d ->
    step s (Requeue m)
      (mkSystem (table s) (clock s) (m :: broker s) d (running s) (settled s) (used s) (claims s))
| step_claim s m job t :
    m ∈ delivered s -> claim opts (clock s) m (table s) = (Some job, t) ->
    step s (Claim m)
      (mkSystem t (clock s) (broker s) (delivered s) (m :: running s) (settled s) (used s)
         (m :: claims s))
| step_skip s m t :
    m ∈ delivered s -> claim opts (clock s) m (table s) = (None, t) ->
    step s (Skip m)
      (mkSystem t (clock s) (broker s) (delivered s) (running s) (m :: settled s) (used s) (claims s))
| step_complete s m r run :
    take_out m (running s) = Some run ->
    step s (Complete m r) (finish m (complete opts (clock s) m r (table s)) run s)
| step_fail s m code retryable ra run :
    take_out m (running s) = Some run ->
    step s (Fail m code retryable ra)
      (finish m (fail opts (clock s) m code retryable ra (table s)).2 run s)
| step_worker_lost s m run :
    take_out m (running s) = Some run ->
    step s (WorkerLost m)
      (mkSystem (table s) (clock s) (broker s) (delivered s) run (settled s) (used s) (claims s))
| step_acknowledge s m st d :
    take_out m (settled s) = Some st -> take_out m (delivered s) = Some d ->
    step s (Acknowledge m)
      (mkSystem (table s) (clock s) (broker s) d (running s) st (used s) (claims s))
| step_expire s : step s Expire (with_table (expire_leases opts (clock s) (table s)) s)
| step_purge s : step s Purge (with_table (delete_finished opts (clock s) (table s)) s)
| step_tick s t :
    (clock s <= t)%Q ->
    step s (Tick t)
      (mkSystem (table s) t (broker s) (delivered s) (running s) (settled s) (used s) (claims s)).

Definition reachable (s : system) : Prop := exists t ls, run step (start t) ls s.

(** ** The invariant *)

Record row_ok (now : Q) (row : row_t) : Prop := {
  ro_queue : queue_name row = name opts;
  ro_max : max_attempts row = maxAttempts opts;
  ro_attempts : 0 <= attempts_made row <= maxAttempts opts;
  ro_waiting : waiting (status row) = true ->
    attempts_made row < maxAttempts opts /\ lease_until row = None /\ finished_at row = None /\
    (dispatch_pending row = false -> (available_at row <= now)%Q);
  ro_active : status row = active ->
    1 <= attempts_made row /\ is_Some (lease_until row) /\ finished_at row = None;
  ro_completed : status row = completed ->
    1 <= attempts_made row /\ is_Some (response row) /\ error_code row = None /\
    lease_until row = None /\ is_Some (finished_at row);
  ro_failed : status row = failed ->
    is_Some (error_code row) /\ lease_until row = None /\ is_Some (finished_at row)
}.

(** An envelope that can still be claimed, or that the job has moved past. *)
Definition relevant (s : system) (m : JobEnvelope) : Prop :=
  env_id m ∈ used s /\ 1 <= env_attempt m /\
  forall row, table s !! env_id m = Some row ->
    env_attempt m <= attempts_made row \/
    (env_attempt m = attempts_made row + 1 /\ waiting (status row) = true /\
     (available_at row <= clock s)%Q).

(** An attempt the job has moved past or is executing. *)
Definition spent (s : system) (m : JobEnvelope) : Prop :=
  env_id m ∈ used s /\
  forall row, table s !! env_id m = Some row -> env_attempt m <= attempts_made row.

Record inv (s : system) : Prop := {
  inv_rows : forall id row, table s !! id = Some row -> id ∈ used s /\ row_ok (clock s) row;
  inv_unique : forall i j ri rj, table s !! i = Some ri -> table s !! j = Some rj ->
    owner_id ri = owner_id rj -> idempotency_hash ri = idempotency_hash rj -> i = j;
  inv_messages : forall m, m ∈ broker s ++ delivered s -> relevant s m;
  inv_needed : forall id row, table s !! id = Some row ->
    waiting (status row) = true -> dispatch_pending row = false ->
    mkEnvelope id (attempts_made row + 1) ∈ broker s ++ delivered s;
  inv_spent : forall m, m ∈ running s ++ settled s ++ claims s -> spent s m;
  inv_claims : NoDup (claims s);
  inv_bounds : forall m, m ∈ claims s -> 1 <= env_attempt m <= maxAttempts opts
}.

(** ** Lists of envelopes *)

Lemma take_out_perm m l l' : take_out m l = Some l' -> l ≡ₚ m :: l'.
Proof.
  unfold take_out. intros ([x r] & Hr & ->)%fmap_Some.
  apply remove_first_Some in Hr as (l1 & l2 & -> & -> & Hx & _). to_prop. subst.
  simpl. by rewrite Permutation_middle.
Qed.

Lemma take_out_subset m l l' x : take_out m l = Some l' -> x ∈ l' -> x ∈ l.
Proof. intros ->%take_out_perm Hx. by right. Qed.

Lemma take_out_other m l l' x : take_out m l = Some l' -> x ∈ l -> x <> m -> x ∈ l'.
Proof. intros Hp%take_out_perm Hx Hne. rewrite Hp in Hx. set_solver. Qed.

Lemma take_out_elem m l l' x : take_out m l = Some l' -> x ∈ l <-> x = m \/ x ∈ l'.
Proof. intros ->%take_out_perm. apply elem_of_cons. Qed.

(** ** Rows *)

Context (Hopts : 1 <= maxAttempts opts).

Lemma new_row_ok now sub : row_ok now (new_row opts hash_key hash_data now sub : row_t).
Proof.
  constructor; simpl; try done; try lia. intros _. repeat split; try done. lia.
Qed.

Lemma row_ok_later now now' row : row_ok now row -> (now <= now')%Q -> row_ok now' row.
Proof.
  intros H Hle. constructor; try apply H.
  intros Hw. destruct (ro_waiting _ _ H Hw) as (? & ? & ? & Hp). repeat split; auto.
  intros Hd%Hp. lra.
Qed.

Lemma change_row_ok now d row row' : change opts now d row row' -> row_ok now row -> row_ok now row'.
Proof.
  intros Hc Hr. destruct Hc as [|? Hd|m Hc|m r Ho|m c b ra Ho|He]; [done|..].
  - apply due_unfold in Hd as (_ & _ & Hw & Ha).
    destruct (ro_waiting _ _ Hr Hw) as (? & ? & ? & _).
    constructor; simpl; try apply Hr. auto.
  - apply claimable_unfold in Hc as (_ & Hw & Ha & Hlt & _).
    destruct (ro_waiting _ _ Hr Hw) as (? & ? & ? & _). pose proof (ro_attempts _ _ Hr).
    constructor; simpl; try apply Hr; try done; [lia|]. intros _. repeat split; [lia|eauto|done].
  - apply owns_attempt_unfold in Ho as (_ & _ & Hs).
    destruct (ro_active _ _ Hr Hs) as (? & _ & _).
    constructor; simpl; try apply Hr; done.
  - apply owns_attempt_unfold in Ho as (_ & _ & Hs). pose proof (ro_max _ _ Hr).
    constructor; simpl; try apply Hr;
      destruct b, (attempts_made row <? max_attempts row) eqn:E; simpl; try done; to_prop; intros _;
      repeat split; eauto; try lia; done.
  - apply expired_unfold in He as (_ & Hs & _). pose proof (ro_max _ _ Hr).
    constructor; simpl; try apply Hr;
      destruct (attempts_made row <? max_attempts row) eqn:E; simpl; try done; to_prop; intros _;
      repeat split; eauto; try lia; done.
Qed.

(** ** Every step changes rows only through the statements *)

Definition tables_change (s s' : system) : Prop :=
  used s ⊆ used s' /\ (clock s <= clock s')%Q /\
  forall id row', table s' !! id = Some row' ->
    (exists d row, table s !! id = Some row /\ change opts (clock s) d row row' /\
       (d = true -> mkEnvelope id (attempts_made row + 1) ∈ broker s')) \/
    (~ (id ∈ used s) /\ id ∈ used s' /\
     (exists sub, row' = new_row opts hash_key hash_data (clock s) sub) /\
     forall j rj, table s !! j = Some rj ->
       ~ (queue_name rj = name opts /\ owner_id rj = owner_id row' /\
          idempotency_hash rj = idempotency_hash row')).

Lemma changed_tables (s s' : system) :
  used s' = used s -> clock s' = clock s -> changed opts (clock s) (table s) (table s') ->
  tables_change s s'.
Proof.
  clear Hopts. intros Hu Hc Ht. split; [set_solver|]. split; [rewrite Hc; lra|].
  intros id row' (row & Hrow & Hch)%Ht. left. by exists false, row.
Qed.

Lemma unchanged_row s (b : list JobEnvelope) id row :
  table s !! id = Some row ->
  exists d row0, table s !! id = Some row0 /\ change opts (clock s) d row0 row /\
    (d = true -> mkEnvelope id (attempts_made row0 + 1) ∈ b).
Proof. intros H. exists false, row. split; [done|]. split; [constructor|done]. Qed.

Lemma insert_job_Ok now id sub t row (t' : gmap string row_t) :
  insert_job opts hash_key hash_data now id sub t = Ok (row, t') ->
  (row = None /\ t' = t) \/
  (t !! id = None /\ t' = <[id := new_row opts hash_key hash_data now sub]> t /\
   select_by_key (name opts) (sub_ownerId sub) (hash_key (sub_idempotencyKey sub)) t = None).
Proof. unfold insert_job. intros H. repeat case_match; simplify_eq; auto. Qed.

Lemma step_tables s l s' : step s l s' -> tables_change s s'.
Proof.
  clear Hopts.
  destruct 1 as [s id sub row t Hid Hi|s locked id row t Hs Hd|s locked id row e t Hs Hd
    |s m b Hm|s m d Hm|s m job t Hm Hc|s m t Hm Hc|s m r run Hm|s m code rt ra run Hm|s m run Hm
    |s m st d Hst Hm|s|s|s t Ht]; try (apply changed_tables; [done|done|]; simpl; apply changed_refl).
  - split; [set_solver|]. split; [simpl; lra|]. simpl. intros j row' Hj.
    apply insert_job_Ok in Hi as [[-> ->]|(Hn & -> & Hk)]; [left; by apply unchanged_row|].
    apply lookup_insert_Some in Hj as [[<- <-]|[_ Hj]]; [|left; by apply unchanged_row].
    right. split; [done|]. split; [set_solver|]. split; [eauto|]. simpl.
    intros j rj Hj. eapply select_by_key_None; [exact Hk|exact Hj].
  - split; [set_solver|]. split; [simpl; lra|]. simpl. unfold dispatchOne in Hd. rewrite Hs in Hd.
    simpl in Hd. simplify_eq. apply select_due_Some in Hs as (Hi & Hdue & _).
    intros j row' Hj. rewrite lookup_alter_Some in Hj.
    destruct Hj as [(<- & r & Hr & ->)|[_ Hj]]; [|left; by apply unchanged_row].
    simplify_eq. left. exists true, row. split; [done|]. split; [by constructor|]. by left.
  - apply changed_tables; [done|done|]. simpl. unfold dispatchOne in Hd. rewrite Hs in Hd.
    simpl in Hd. simplify_eq. apply changed_refl.
  - apply changed_tables; [done|done|]. simpl.
    pose proof (claim_changed opts (clock s) m (table s)) as H. by rewrite Hc in H.
  - apply changed_tables; [done|done|]. simpl.
    pose proof (claim_changed opts (clock s) m (table s)) as H. by rewrite Hc in H.
  - apply changed_tables; [done|done|]. simpl. apply complete_changed.
  - apply changed_tables; [done|done|]. simpl. apply fail_changed.
  - apply changed_tables; [done|done|]. simpl. apply expire_changed.
  - apply changed_tables; [done|done|]. simpl. apply delete_changed.
  - split; [set_solver|]. split; [done|]. simpl. intros j row' Hj. left. by apply unchanged_row.
Qed.

(** ** What survives a change of tables *)

Lemma relevant_change s s' m : inv s -> tables_change s s' -> relevant s m -> relevant s' m.
Proof.
  intros Hinv (Hu & Hclk & Ht) (Hid & Hk & Hm). split; [set_solver|]. split; [done|].
  intros row' Hrow'. destruct (Ht _ _ Hrow') as [(d & row & Hrow & Hc & _)|(Hnew & _)]; [|done].
  pose proof (change_attempts _ _ _ _ _ Hc) as [Hle Hw].
  destruct (Hm _ Hrow) as [?|(Heq & Hwait & Hav)]; [left; lia|].
  destruct (decide (attempts_made row' = attempts_made row)) as [Ha|Ha]; [|left; lia].
  right. destruct (Hw Hwait Ha) as [Hw' Hav']. rewrite Hav'. split; [lia|]. split; [done|]. lra.
Qed.

Lemma spent_change s s' m : tables_change s s' -> spent s m -> spent s' m.
Proof.
  clear Hopts. intros (Hu & _ & Ht) (Hid & Hm). split; [set_solver|]. intros row' Hrow'.
  destruct (Ht _ _ Hrow') as [(d & row & Hrow & Hc & _)|(Hnew & _)]; [|done].
  pose proof (change_attempts _ _ _ _ _ Hc) as [Hle _]. specialize (Hm _ Hrow). lia.
Qed.

Lemma rows_change s s' :
  inv s -> tables_change s s' ->
  forall id row, table s' !! id = Some row -> id ∈ used s' /\ row_ok (clock s') row.
Proof.
  intros Hinv (Hu & Hclk & Ht) id row' Hrow'.
  destruct (Ht _ _ Hrow') as [(d & row & Hrow & Hc & _)|(_ & Hin & (sub & ->) & _)].
  - destruct (inv_rows _ Hinv _ _ Hrow) as [Hid Hok]. split; [set_solver|].
    eapply row_ok_later; [|done]. by eapply change_row_ok.
  - split; [done|]. eapply row_ok_later; [|done]. apply new_row_ok.
Qed.

Lemma unique_change s s' :
  inv s -> tables_change s s' ->
  (forall i j, i ∉ used s -> j ∉ used s -> i ∈ used s' -> j ∈ used s' -> i = j) ->
  forall i j ri rj, table s' !! i = Some ri -> table s' !! j = Some rj ->
    owner_id ri = owner_id rj -> idempotency_hash ri = idempotency_hash rj -> i = j.
Proof.
  intros Hinv (Hu & Hclk & Ht) Hone i j ri rj Hi Hj Ho Hh.
  destruct (Ht _ _ Hi) as [(di & ri0 & Hi0 & Hci & _)|(Hi1 & Hi2 & _ & Hki)];
    destruct (Ht _ _ Hj) as [(dj & rj0 & Hj0 & Hcj & _)|(Hj1 & Hj2 & _ & Hkj)].
  - apply change_identity in Hci as (_ & Ho1 & Hh1 & _), Hcj as (_ & Ho2 & Hh2 & _).
    eapply (inv_unique _ Hinv); [exact Hi0|exact Hj0|congruence|congruence].
  - exfalso. apply (Hkj _ _ Hi0). apply change_identity in Hci as (Hq & Ho1 & Hh1 & _).
    split; [|split; congruence]. by apply (inv_rows _ Hinv _ _ Hi0).
  - exfalso. apply (Hki _ _ Hj0). apply change_identity in Hcj as (Hq & Ho1 & Hh1 & _).
    split; [|split; congruence]. by apply (inv_rows _ Hinv _ _ Hj0).
  - by apply Hone.
Qed.

Lemma step_used_one s l s' :
  step s l s' -> forall i j, i ∉ used s -> j ∉ used s -> i ∈ used s' -> j ∈ used s' -> i = j.
Proof. destruct 1; simpl; set_solver. Qed.

(** ** Claims *)

Lemma claim_Some now m (t t' : gmap string row_t) job :
  claim opts now m t = (Some job, t') ->
  exists row, t !! env_id m = Some row /\ claimable opts now m row = true /\
    t' = <[env_id m := claim_row opts now m row]> t.
Proof. unfold claim. intros H. repeat case_match; simplify_eq; eauto. Qed.

Lemma claim_None now m (t t' : gmap string row_t) :
  claim opts now m t = (None, t') ->
  t' = t /\ forall row, t !! env_id m = Some row -> claimable opts now m row = false.
Proof. unfold claim. intros H. repeat case_match; simplify_eq; split; congruence. Qed.

(** A message that could not be claimed is no longer needed. *)
Lemma skip_spent s m t :
  inv s -> relevant s m -> claim opts (clock s) m (table s) = (None, t) -> spent s m.
Proof.
  intros Hinv (Hid & Hk & Hm) [_ Hno]%claim_None. split; [done|]. intros row Hrow.
  destruct (Hm _ Hrow) as [?|(Heq & Hw & Hav)]; [done|]. exfalso.
  destruct (inv_rows _ Hinv _ _ Hrow) as [_ Hok].
  destruct (ro_waiting _ _ Hok Hw) as (Hlt & _).
  specialize (Hno _ Hrow). unfold claimable in Hno.
  rewrite (ro_queue _ _ Hok), String.eqb_refl, Hw, (ro_max _ _ Hok) in Hno. simpl in Hno.
  assert ((attempts_made row =? env_attempt m - 1) = true) as Heq' by (apply Z.eqb_eq; lia).
  assert ((attempts_made row <? maxAttempts opts) = true) as Hlt' by (apply Z.ltb_lt; lia).
  apply Qle_bool_iff in Hav. by rewrite Heq', Hlt', Hav in Hno.
Qed.

Lemma step_messages s l s' m :
  inv s -> step s l s' -> m ∈ broker s' ++ delivered s' -> relevant s m.
Proof.
  intros Hinv Hs Hm.
  assert (forall id row locked, select_due opts (clock s) locked (table s) = Some (id, row) ->
    relevant s (mkEnvelope id (attempts_made row + 1))) as Hnew.
  { intros id row locked (Hi & (_ & _ & Hw & Ha)%due_unfold & _)%select_due_Some.
    destruct (inv_rows _ Hinv _ _ Hi) as [Hid Hok]. pose proof (ro_attempts _ _ Hok).
    split; [done|]. split; [simpl; lia|]. simpl. intros r Hr. simplify_eq. auto. }
  assert (forall m, m ∈ broker s \/ m ∈ delivered s -> relevant s m) as Hold.
  { intros x Hx. apply (inv_messages _ Hinv), elem_of_app, Hx. }
  apply elem_of_app in Hm. destruct Hs; simpl in Hm; destruct Hm as [Hm|Hm]; eauto;
    try (apply elem_of_cons in Hm as [->|Hm]; eauto);
    apply Hold; eauto using take_out_subset;
    match goal with H : take_out _ _ = Some _ |- _ => rewrite !(take_out_elem _ _ _ _ H) end; auto.
Qed.

Lemma step_needed s l s' :
  inv s -> step s l s' ->
  forall id row, table s' !! id = Some row -> waiting (status row) = true ->
    dispatch_pending row = false -> mkEnvelope id (attempts_made row + 1) ∈ broker s' ++ delivered s'.
Proof.
  intros Hinv Hs id row' Hrow' Hw Hp.
  destruct (step_tables _ _ _ Hs) as (_ & _ & Ht).
  destruct (Ht _ _ Hrow') as [(d & row & Hrow & Hc & Hd)|(_ & _ & (sub & ->) & _)]; [|done].
  destruct (change_unpublished _ _ _ _ _ Hc Hw Hp) as (Hw0 & Ha & [Hp0|Hd0]);
    [|rewrite Ha; apply elem_of_app; left; by apply Hd].
  pose proof (inv_needed _ Hinv _ _ Hrow Hw0 Hp0) as Hin. rewrite Ha.
  clear Ht Hd Hc. destruct Hs; simpl in *; try done;
    rewrite ?elem_of_cons, ?elem_of_app in *; try tauto.
  - match goal with H : take_out _ _ = Some _ |- _ => rewrite (take_out_elem _ _ _ _ H) in Hin end.
    rewrite elem_of_cons. tauto.
  - match goal with H : take_out _ _ = Some _ |- _ => rewrite (take_out_elem _ _ _ _ H) in Hin end.
    tauto.
  - destruct Hin as [Hin|Hin]; [by left|right].
    eapply take_out_other; [done|done|]. intros <-.
    assert (spent s (mkEnvelope id (attempts_made row + 1))) as [_ Hsp].
    { apply (inv_spent _ Hinv).
      match goal with H : take_out _ (settled _) = Some _ |- _ =>
        rewrite !elem_of_app, (take_out_elem _ _ _ _ H) end. auto. }
    specialize (Hsp _ Hrow). simpl in Hsp. lia.
Qed.

Lemma step_spent s l s' :
  inv s -> step s l s' -> forall m, m ∈ running s' ++ settled s' ++ claims s' -> spent s' m.
Proof.
  intros Hinv Hs m Hm. pose proof (step_tables _ _ _ Hs) as Ht.
  assert (spent s m -> spent s' m) as Hkeep by (by apply spent_change).
  pose proof (inv_spent _ Hinv) as Hold.
  assert (forall x, x ∈ running s \/ x ∈ settled s \/ x ∈ claims s -> spent s x) as Hold'.
  { intros x Hx. apply Hold. rewrite !elem_of_app. tauto. }
  rewrite !elem_of_app in Hm.
  destruct Hs as [| | | | |s x job t Hx Hc|s x t Hx Hc|s x r run Hx|s x code rt ra run Hx|s x run Hx
    |s x st d Hst Hx| | |]; simpl in Hm; auto.
  - assert (m = x \/ (m ∈ running s \/ m ∈ settled s \/ m ∈ claims s)) as [->|?] by set_solver;
      [|auto].
    apply claim_Some in Hc as (row & Hrow & Hcl & ->).
    split; simpl.
    + apply (inv_rows _ Hinv _ _ Hrow).
    + rewrite lookup_insert_eq. intros r [= <-]. simpl. lia.
  - assert (m = x \/ (m ∈ running s \/ m ∈ settled s \/ m ∈ claims s)) as [->|?] by set_solver;
      [|auto].
    apply Hkeep. eapply skip_spent; [done| |done]. apply (inv_messages _ Hinv). set_solver.
  - pose proof (fun y => take_out_elem _ _ _ y Hx). apply Hkeep, Hold'. set_solver.
  - pose proof (fun y => take_out_elem _ _ _ y Hx). apply Hkeep, Hold'. set_solver.
  - pose proof (fun y => take_out_elem _ _ _ y Hx). apply Hkeep, Hold'. set_solver.
  - pose proof (fun y => take_out_elem _ _ _ y Hst). apply Hkeep, Hold'. set_solver.
Qed.

Lemma step_claims s l s' :
  inv s -> step s l s' ->
  NoDup (claims s') /\ forall m, m ∈ claims s' -> 1 <= env_attempt m <= maxAttempts opts.
Proof.
  intros Hinv Hs. destruct Hs as [| | | | |s x job t Hx Hc| | | | | | | |]; simpl;
    try (split; [apply (inv_claims _ Hinv)|apply (inv_bounds _ Hinv)]).
  apply claim_Some in Hc as (row & Hrow & (_ & Hw & Ha & Hlt & _)%claimable_unfold & _).
  destruct (inv_rows _ Hinv _ _ Hrow) as [_ Hok]. split.
  - apply NoDup_cons. split; [|apply Hinv]. intros Hin.
    assert (spent s x) as [_ Hsp] by (apply (inv_spent _ Hinv); rewrite !elem_of_app; auto).
    specialize (Hsp _ Hrow). lia.
  - intros m [->|Hm]%elem_of_cons; [|by apply (inv_bounds _ Hinv)].
    pose proof (ro_attempts _ _ Hok). rewrite (ro_max _ _ Hok) in Hlt. lia.
Qed.

Lemma inv_step s l s' : inv s -> step s l s' -> inv s'.
Proof.
  intros Hinv Hs. pose proof (step_tables _ _ _ Hs) as Ht. constructor.
  - by apply (rows_change s).
  - apply (unique_change s); [done|done|]. by eapply step_used_one.
  - intros m Hm. eapply relevant_change; eauto using step_messages.
  - by eapply step_needed.
  - by eapply step_spent.
  - by eapply step_claims.
  - by eapply step_claims.
Qed.

Lemma inv_start t : inv (start t).
Proof.
  constructor; simpl; try done; try (intros *; by rewrite lookup_empty);
    try (intros *; by intros ?%not_elem_of_nil). constructor.
Qed.

Lemma inv_run s ls s' : run step s ls s' -> inv s -> inv s'.
Proof. apply run_invariant. eauto using inv_step. Qed.

Lemma inv_reachable s : reachable s -> inv s.
Proof. intros (t & ls & H). eapply inv_run; eauto using inv_start. Qed.

(** ** Following one job along a run *)

(** What a run does to a row that is still there at the end. *)
Lemma run_tables s ls s' :
  run step s ls s' -> used s ⊆ used s' /\ (clock s <= clock s')%Q.
Proof.
  induction 1 as [|s l s1 ls s2 Hs _ [IH1 IH2]]; [split; [done|lra]|].
  destruct (step_tables _ _ _ Hs) as (Hu & Hc & _). split; [set_solver|lra].
Qed.

(** A property of the rows of job [id] that every statement preserves is kept
    along every run, as long as [id] is already taken. *)
Lemma run_row (P : row_t -> Prop) s ls s' id :
  (forall now d row row', change opts now d row row' -> P row -> P row') ->
  run step s ls s' -> id ∈ used s ->
  (forall row, table s !! id = Some row -> P row) ->
  forall row, table s' !! id = Some row -> P row.
Proof.
  intros HP. induction 1 as [|s l s1 ls s2 Hs _ IH]; intros Hid H0; [done|].
  destruct (step_tables _ _ _ Hs) as (Hu & _ & Ht). apply IH; [set_solver|].
  intros row' Hrow'. destruct (Ht _ _ Hrow') as [(d & row & Hrow & Hc & _)|(Hnew & _)]; [|done].
  eapply HP; eauto.
Qed.

Lemma take_out_head m l : exists l', take_out m (m :: l) = Some l' /\ l' = l.
Proof.
  exists l. split; [|done]. unfold take_out. simpl. by rewrite bool_decide_eq_true_2.
Qed.

Lemma take_out_in m l : m ∈ l -> exists l', take_out m l = Some l'.
Proof.
  intros Hm. unfold take_out. destruct (remove_first _ l) as [[x r]|] eqn:E; [by exists r|].
  apply remove_first_None in E. rewrite Forall_forall in E. specialize (E _ Hm).
  by rewrite bool_decide_eq_true_2 in E.
Qed.

(** A dispatcher that finds every other row locked publishes the given one. *)
Lemma select_only s id row :
  table s !! id = Some row -> due opts (clock s) row = true ->
  select_due opts (clock s) (fun j => negb (String.eqb j id)) (table s) = Some (id, row).
Proof.
  intros Hi Hd. destruct (select_due _ _ _ _) as [[j rj]|] eqn:E.
  - apply select_due_Some in E as (Hj & _ & Hl). to_prop. subst. congruence.
  - pose proof (select_due_None _ _ _ _ E _ _ Hi Hd) as Hl. simpl in Hl.
    by rewrite String.eqb_refl in Hl.
Qed.

(** From a published job to its completion. *)
Lemma finish_published s id row r :
  inv s -> table s !! id = Some row -> waiting (status row) = true ->
  dispatch_pending row = false ->
  exists ls s' row', run step s ls s' /\ table s' !! id = Some row' /\
    status row' = completed /\ response row' = Some r.
Proof.
  intros Hinv Hrow Hw Hp.
  set (m := mkEnvelope id (attempts_made row + 1)).
  destruct (inv_rows _ Hinv _ _ Hrow) as [_ Hok].
  destruct (ro_waiting _ _ Hok Hw) as (Hlt & _ & _ & Hav).
  assert (exists ls1 s1, run step s ls1 s1 /\ table s1 = table s /\ clock s1 = clock s /\
    m ∈ delivered s1) as (ls1 & s1 & Hr1 & Ht1 & Hc1 & Hd1).
  { pose proof (inv_needed _ Hinv _ _ Hrow Hw Hp) as [Hb|Hd]%elem_of_app.
    - destruct (take_out_in _ _ Hb) as [b Hb']. eexists [Deliver m], _.
      split; [eapply run_cons; [by apply step_deliver|constructor]|].
      split; [done|]. split; [done|]. by left.
    - exists [], s. split; [constructor|auto]. }
  assert (claimable opts (clock s) m row = true) as Hcl.
  { unfold claimable. rewrite (ro_queue _ _ Hok), String.eqb_refl, Hw, (ro_max _ _ Hok). simpl.
    specialize (Hav Hp). apply Qle_bool_iff in Hav. rewrite Hav.
    replace (attempts_made row + 1 - 1) with (attempts_made row) by lia.
    rewrite Z.eqb_refl. apply Z.ltb_lt in Hlt. by rewrite Hlt. }
  assert (exists job, claim opts (clock s1) m (table s1) =
    (Some job, <[id := claim_row opts (clock s) m row]> (table s))) as [job Hclaim].
  { unfold claim. rewrite Ht1, Hc1. simpl. rewrite Hrow, Hcl. eauto. }
  destruct (take_out_head m (running s1)) as (rn & Hrn & _).
  eexists (ls1 ++ [Claim m; Complete m r]), _, _. split.
  { eapply run_app; [exact Hr1|]. eapply run_cons; [by eapply step_claim|].
    eapply run_cons; [by eapply step_complete|constructor]. }
  simpl. unfold complete. simpl. rewrite lookup_insert_eq. unfold owns_attempt. simpl.
  rewrite Z.eqb_refl, (ro_queue _ _ Hok), String.eqb_refl. simpl. rewrite lookup_insert_eq. auto.
Qed.

(** From a job waiting for publication to its completion. *)
Lemma finish_waiting s id row r :
  inv s -> table s !! id = Some row -> waiting (status row) = true ->
  exists ls s' row', run step s ls s' /\ table s' !! id = Some row' /\
    status row' = completed /\ response row' = Some r.
Proof.
  intros Hinv Hrow Hw. destruct (dispatch_pending row) eqn:Hp; [|by eapply finish_published].
  set (t := Qmaxb (clock s) (available_at row)).
  destruct (Qmaxb_spec (clock s) (available_at row)) as (Ht1 & Ht2 & _). fold t in Ht1, Ht2.
  pose proof (step_tick s t Ht1) as Hs1. set (s1 := mkSystem _ t _ _ _ _ _ _) in Hs1.
  pose proof (inv_step _ _ _ Hinv Hs1) as Hinv1.
  assert (due opts (clock s1) row = true) as Hdue.
  { destruct (inv_rows _ Hinv _ _ Hrow) as [_ Hok]. unfold due.
    rewrite (ro_queue _ _ Hok), String.eqb_refl, Hp, Hw. simpl. by apply Qle_bool_iff. }
  pose proof (select_only s1 id row Hrow Hdue) as Hsel.
  assert (step s1 (Dispatch (mkEnvelope id (attempts_made row + 1)))
    (mkSystem (alter clear_pending id (table s1)) (clock s1)
       (mkEnvelope id (attempts_made row + 1) :: broker s1) (delivered s1)
       (running s1) (settled s1) (used s1) (claims s1))) as Hs2.
  { eapply step_dispatch; [exact Hsel|]. unfold dispatchOne. by rewrite Hsel. }
  pose proof (inv_step _ _ _ Hinv1 Hs2) as Hinv2.
  destruct (finish_published _ id (clear_pending row) r Hinv2) as (ls & s' & row' & Hr & Hrest);
    [simpl; by rewrite lookup_alter_eq, Hrow|done|done|].
  exists (Tick t :: Dispatch (mkEnvelope id (attempts_made row + 1)) :: ls), s', row'.
  split; [|done]. eapply run_cons; [exact Hs1|]. eapply run_cons; [exact Hs2|exact Hr].
Qed.

(** An attempt whose worker is gone is taken back once its lease is over. *)
Lemma reclaim_active s id row :
  inv s -> table s !! id = Some row -> status row = active ->
  exists ls s', run step s ls s' /\
    table s' !! id = Some (expire_row (clock s') row).
Proof.
  intros Hinv Hrow Hst. destruct (inv_rows _ Hinv _ _ Hrow) as [_ Hok].
  destruct (ro_active _ _ Hok Hst) as (_ & [l Hl] & _).
  set (t := (Qmaxb (clock s) l + 1)%Q).
  destruct (Qmaxb_spec (clock s) l) as (Ht1 & Ht2 & _).
  assert (clock s <= t)%Q as Ht by (unfold t; lra).
  pose proof (step_tick s t Ht) as Hs1. set (s1 := mkSystem _ t _ _ _ _ _ _) in Hs1.
  exists [Tick t; Expire], (with_table (expire_leases opts (clock s1) (table s1)) s1). split.
  { eapply run_cons; [exact Hs1|]. eapply run_cons; [apply step_expire|constructor]. }
  simpl. unfold expire_leases. rewrite lookup_fmap, Hrow. simpl. unfold expired.
  rewrite (ro_queue _ _ Hok), String.eqb_refl, bool_decide_eq_true_2, Hl by done. simpl.
  assert ((l <q t) = true) as -> by (apply Qltb_true; unfold t; lra). done.
Qed.

(** What remains true of attempt [k] of a job once it is over: the job is
    past it, or no longer executing it. *)
Definition over (k : Z) (row : row_t) : Prop :=
  k < attempts_made row \/ (attempts_made row = k /\ status row <> active).

Lemma change_over now d row row' k : change opts now d row row' -> over k row -> over k row'.
Proof.
  intros Hc [Hlt|[Heq Hst]].
  - left. pose proof (change_attempts _ _ _ _ _ Hc) as [Hle _]. lia.
  - destruct Hc as [|? ?|m Hc|m r Ho|m c b ra Ho|He]; [by right|by right|..]; simpl.
    + left. apply claimable_unfold in Hc as (_ & _ & Ha & _). simpl. lia.
    + by apply owns_attempt_unfold in Ho as (_ & _ & ?).
    + by apply owns_attempt_unfold in Ho as (_ & _ & ?).
    + by apply expired_unfold in He as (_ & ? & _).
Qed.

(** A job scheduled for retry at time [t] is not touched before it. *)
Definition scheduled (t : Q) (k : Z) (row : row_t) : Prop :=
  attempts_made row = k /\ waiting (status row) = true /\ available_at row = t.

Lemma scheduled_step s l s' id t k :
  inv s -> step s l s' -> (clock s < t)%Q -> id ∈ used s ->
  (forall row, table s !! id = Some row -> scheduled t k row) ->
  (forall row, table s' !! id = Some row -> scheduled t k row) /\
  forall m, l = Claim m -> env_id m <> id.
Proof.
  intros Hinv Hs Ht Hid H0. split.
  - intros row' Hrow'. destruct (step_tables _ _ _ Hs) as (_ & _ & Htab).
    destruct (Htab _ _ Hrow') as [(d & row & Hrow & Hc & _)|(Hnew & _)]; [|done].
    destruct (H0 _ Hrow) as (Ha & Hw & Hav). rewrite <- Hav in Ht.
    destruct Hc as [|? Hd|m Hc|m r Ho|m c b ra Ho|He]; [done|..]; exfalso.
    + apply due_unfold in Hd as (_ & _ & _ & ?). lra.
    + apply claimable_unfold in Hc as (_ & _ & _ & _ & ?). lra.
    + apply owns_attempt_unfold in Ho as (_ & _ & Hst). by rewrite Hst in Hw.
    + apply owns_attempt_unfold in Ho as (_ & _ & Hst). by rewrite Hst in Hw.
    + apply expired_unfold in He as (_ & Hst & _). by rewrite Hst in Hw.
  - intros m -> <-. inversion Hs as [| | | | |? ? job tt Hm Hc| | | | | | | |]; subst.
    apply claim_Some in Hc as (row & Hrow & (_ & _ & _ & _ & Hav)%claimable_unfold & _).
    destruct (H0 _ Hrow) as (_ & _ & Heq). rewrite <- Heq in Ht. lra.
Qed.

Lemma scheduled_run s ls s' id t k :
  run step s ls s' -> inv s -> (clock s' < t)%Q -> id ∈ used s ->
  (forall row, table s !! id = Some row -> scheduled t k row) ->
  forall m, Claim m ∈ ls -> env_id m <> id.
Proof.
  induction 1 as [|s l s1 ls s2 Hs Hrun IH]; intros Hinv Ht Hid H0 m Hm.
  - by apply not_elem_of_nil in Hm.
  - destruct (step_tables _ _ _ Hs) as (Hu & Hc & _).
    destruct (run_tables _ _ _ Hrun) as [_ Hc2].
    assert (clock s < t)%Q as Hlt by lra.
    destruct (scheduled_step _ _ _ _ _ _ Hinv Hs Hlt Hid H0) as [H1 H2].
    apply elem_of_cons in Hm as [Hm|Hm]; [by apply H2|].
    eapply IH; eauto using inv_step.
Qed.

End System.

Arguments system : clear implicits.
Arguments label : clear implicits.

(** ** The properties *)



(** C9: at most once per attempt.  In every reachable state each attempt of
    each job has been claimed at most once, however often its message was
    published and delivered, and a job has had at most [maxAttempts]
    claims. *)
Theorem attempt_claimed_once {TData TResult} opts hash_key hash_data (s : system TData TResult) id :
  1 <= maxAttempts opts -> reachable opts hash_key hash_data s ->
  NoDup (claims s) /\
  Z.of_nat (length (filter (fun m => env_id m = id) (claims s))) <= maxAttempts opts.
Proof.
  intros Hopts Hr%inv_reachable; [|done]. split; [apply Hr|].
  set (l := filter _ _).
  assert (NoDup (env_attempt <$> l)) as Hnd.
  { assert (NoDup l) as Hl by (apply NoDup_filter, Hr).
    assert (forall m, m ∈ l -> env_id m = id) as Hid by (by intros m [? _]%list_elem_of_filter).
    clearbody l. induction Hl as [|[i k] l Hni _ IH]; [constructor|]. simpl. constructor.
    - intros ([j k'] & Hk & Hin)%list_elem_of_fmap. simpl in Hk. subst k'.
      pose proof (Hid _ (list_elem_of_here _ _)) as H1. simpl in H1.
      pose proof (Hid (mkEnvelope j k) ltac:(by right)) as H2. simpl in H2. congruence.
    - apply IH. intros m Hm. apply Hid. by right. }
  assert (forall k, k ∈ (env_attempt <$> l) -> 1 <= k <= maxAttempts opts) as Hb.
  { intros k (m & -> & [_ Hm]%list_elem_of_filter)%list_elem_of_fmap. by apply Hr. }
  rewrite <- (length_fmap env_attempt l). clearbody l.
  assert (length (env_attempt <$> l) <= length (seqZ 1 (maxAttempts opts)))%nat as Hlen.
  { apply submseteq_length, NoDup_submseteq; [done|]. intros k Hk%Hb. apply elem_of_seqZ. lia. }
  rewrite length_seqZ in Hlen. lia.
Qed.

(** C26: results are final.  A completed or failed job is never changed again:
    as long as its row exists it is the same row, response and error code
    included. *)
Theorem result_immutable {TData TResult} opts hash_key hash_data (s : system TData TResult)
    id row ls s' row' :
  1 <= maxAttempts opts -> reachable opts hash_key hash_data s ->
  table s !! id = Some row -> terminal (status row) = true ->
  run (step opts hash_key hash_data) s ls s' -> table s' !! id = Some row' -> row' = row.
Proof.
  intros Hopts Hr%inv_reachable Hrow Ht Hrun Hrow'; [|done].
  eapply (run_row opts hash_key hash_data Hopts (fun r => r = row) s ls s' id); [|exact Hrun| | |exact Hrow'].
  - intros now d r r' Hc ->. by eapply change_terminal.
  - by apply (inv_rows _ _ Hr _ _ Hrow).
  - congruence.
Qed.

(** C10: fencing.  Once the lease of attempt [k] has been taken back, nothing
    the worker still executing that attempt reports, success or failure and
    however late, changes the table. *)
Theorem expired_attempt_fenced {TData TResult} opts hash_key hash_data (s : system TData TResult)
    id row ls s' :
  1 <= maxAttempts opts -> reachable opts hash_key hash_data s ->
  table s !! id = Some row -> expired opts (clock s) row = true ->
  run (step opts hash_key hash_data)
    (with_table (expire_leases opts (clock s) (table s)) s) ls s' ->
  let m := mkEnvelope id (attempts_made row) in
  (forall now r, complete opts now m r (table s') = table s') /\
  (forall now code rt ra, fail opts now m code rt ra (table s') = (None, table s')).
Proof.
  intros Hopts Hr%inv_reachable Hrow He Hrun; [|done]. simpl.
  assert (forall r, table s' !! id = Some r -> over (attempts_made row) r) as Hover.
  { eapply (run_row opts hash_key hash_data Hopts (over (attempts_made row))); [|exact Hrun| |].
    - intros now d r r'. apply change_over.
    - simpl. by apply (inv_rows _ _ Hr _ _ Hrow).
    - simpl. unfold expire_leases. intros r. rewrite lookup_fmap, Hrow. simpl. rewrite He.
      intros [= <-]. right. split; [done|]. simpl. by case_match. }
  assert (forall r, table s' !! id = Some r ->
    owns_attempt opts (mkEnvelope id (attempts_made row)) r = false) as Hno.
  { intros r Hr'. destruct (owns_attempt _ _ _) eqn:Ho; [|done].
    apply owns_attempt_unfold in Ho as (Ha & _ & Hst). simpl in Ha.
    destruct (Hover _ Hr') as [?|[_ ?]]; [lia|done]. }
  split; intros; [unfold complete|unfold fail]; simpl;
    destruct (table s' !! id) as [r'|] eqn:E; try done; by rewrite Hno.
Qed.

(** C28: retries wait.  When a transient failure reschedules a job at time
    [t], no attempt of it is claimed before the delay has passed: at least
    the remaining circuit cooldown the error carried, and at least the
    exponential backoff, capped at one hour. *)
Theorem retry_respects_delay {TData TResult} opts hash_key hash_data (s : system TData TResult)
    m code ra row s1 ls s2 :
  1 <= maxAttempts opts -> reachable opts hash_key hash_data s ->
  table s !! env_id m = Some row ->
  step opts hash_key hash_data s (Fail m code true ra) s1 ->
  (fail opts (clock s) m code true ra (table s)).1 = Some retrying ->
  run (step opts hash_key hash_data) s1 ls s2 ->
  (clock s2 < clock s + Qmaxb ra (Qminb 3600000
     (inject_Z (backoff_ms row) * inject_Z (2 ^ Z.min (attempts_made row - 1) 30))))%Q ->
  forall m', Claim m' ∈ ls -> env_id m' <> env_id m.
Proof.
  intros Hopts Hr%inv_reachable Hrow Hs Hf Hrun Ht; [|done].
  pose proof (inv_step opts hash_key hash_data Hopts _ _ _ Hr Hs) as Hr1.
  assert (exists row1, table s1 !! env_id m = Some row1 /\
    row1 = fail_row (clock s) (JobErrorCode_name code) true ra row /\
    status row1 = retrying) as (row1 & Hrow1 & Heq & Hst).
  { unfold fail in Hf. rewrite Hrow in Hf. destruct (owns_attempt opts m row) eqn:Ho; [|done].
    inversion Hs; subst. unfold finish, fail. simpl. rewrite Hrow, Ho. simpl.
    rewrite lookup_insert_eq. eexists. split; [done|]. split; [done|]. simpl in *. congruence. }
  eapply (scheduled_run opts hash_key hash_data Hopts s1 ls s2 (env_id m) _ (attempts_made row)
    Hrun Hr1 Ht).
  - by apply (inv_rows _ _ Hr1 _ _ Hrow1).
  - intros r' Hr'. rewrite Hrow1 in Hr'. simplify_eq. unfold scheduled. rewrite Hst. done.
Qed.

(** Submission, case by case.  With no row for the owner and key, a fresh
    job is recorded as queued with its publication pending and acknowledged
    under the new id; with such a row, nothing is written and the answer is
    the original job if the payload hashes agree, a conflict otherwise. *)
Theorem enqueue_spec {TData TResult} opts hash_key hash_data (s : system TData TResult) now id sub :
  1 <= maxAttempts opts -> reachable opts hash_key hash_data s -> id ∉ used s ->
  (forall id0 row, table s !! id0 = Some row -> owner_id row = sub_ownerId sub ->
    idempotency_hash row = hash_key (sub_idempotencyKey sub) ->
    enqueue opts hash_key hash_data now id (fun t => t) sub (table s) =
      (if String.eqb (payload_hash row) (hash_data (sub_data sub))
       then Ok (mkReceipt id0 (request_id row)) else Err IdempotencyConflictError, table s)) /\
  ((forall id0 row, table s !! id0 = Some row ->
      ~ (owner_id row = sub_ownerId sub /\
         idempotency_hash row = hash_key (sub_idempotencyKey sub))) ->
    enqueue opts hash_key hash_data now id (fun t => t) sub (table s) =
      (Ok (mkReceipt id (sub_requestId sub)),
       <[id := new_row opts hash_key hash_data now sub]> (table s))).
Proof.
  intros Hopts Hr%inv_reachable Hid; [|done]. unfold enqueue, insert_job. split.
  - intros id0 row Hrow Ho Hh. destruct (select_by_key _ _ _ _) as [[j rj]|] eqn:E.
    + simpl. rewrite E. apply select_by_key_Some in E as (Hj & _ & Ho' & Hh').
      assert (j = id0) as -> by (eapply (inv_unique _ _ Hr); eauto; congruence). by simplify_eq.
    + exfalso. eapply select_by_key_None; [exact E|exact Hrow|].
      split; [|done]. by apply (inv_rows _ _ Hr _ _ Hrow).
  - intros Hno. destruct (select_by_key _ _ _ _) as [[j rj]|] eqn:E.
    + exfalso. apply select_by_key_Some in E as (Hj & _ & ?). by eapply Hno.
    + destruct (table s !! id) as [r|] eqn:Hi; [by apply (inv_rows _ _ Hr) in Hi as []|].
      simpl. by rewrite String.eqb_refl.
Qed.

(** C27: resubmission.  Submitting again with the same owner, idempotency key
    and payload returns the original job's id and request id, at any later
    time as long as the job is retained and whatever has happened to it;
    submitting a payload with a different hash is refused.  Neither writes
    anything. *)
Theorem resubmission_same_job {TData TResult} opts hash_key hash_data (s : system TData TResult)
    id sub row s1 ls s2 row2 now id' sub' :
  1 <= maxAttempts opts -> reachable opts hash_key hash_data s ->
  step opts hash_key hash_data s (Submit id sub) s1 ->
  insert_job opts hash_key hash_data (clock s) id sub (table s) = Ok (Some row, table s1) ->
  run (step opts hash_key hash_data) s1 ls s2 -> table s2 !! id = Some row2 ->
  sub_ownerId sub' = sub_ownerId sub -> sub_idempotencyKey sub' = sub_idempotencyKey sub ->
  enqueue opts hash_key hash_data now id' (fun t => t) sub' (table s2) =
    (if String.eqb (hash_data (sub_data sub)) (hash_data (sub_data sub'))
     then Ok (mkReceipt id (sub_requestId sub)) else Err IdempotencyConflictError, table s2).
Proof.
  intros Hopts Hr%inv_reachable Hs Hins Hrun Hrow2 Ho Hk; [|done].
  pose proof (inv_step opts hash_key hash_data Hopts _ _ _ Hr Hs) as Hr1.
  pose proof (inv_run opts hash_key hash_data Hopts _ _ _ Hrun Hr1) as Hr2.
  assert (table s1 !! id = Some (new_row opts hash_key hash_data (clock s) sub)) as Hrow1.
  { unfold insert_job in Hins. repeat case_match; simplify_eq.
    match goal with H : _ = table s1 |- _ => rewrite <- H end. apply lookup_insert_eq. }
  assert (owner_id row2 = sub_ownerId sub /\
    idempotency_hash row2 = hash_key (sub_idempotencyKey sub) /\
    payload_hash row2 = hash_data (sub_data sub) /\ request_id row2 = sub_requestId sub)
    as (Ho2 & Hh2 & Hp2 & Hq2).
  { eapply (run_row opts hash_key hash_data Hopts (fun r => owner_id r = sub_ownerId sub /\
      idempotency_hash r = hash_key (sub_idempotencyKey sub) /\
      payload_hash r = hash_data (sub_data sub) /\ request_id r = sub_requestId sub));
      [|exact Hrun| | |exact Hrow2].
    - intros nw d r r' (_ & -> & -> & -> & -> & _)%change_identity. done.
    - by apply (inv_rows _ _ Hr1 _ _ Hrow1).
    - intros r Hr'. simplify_eq. done. }
  unfold enqueue, insert_job. rewrite Ho, Hk.
  destruct (select_by_key _ _ _ _) as [[j rj]|] eqn:E.
  - simpl. rewrite E. apply select_by_key_Some in E as (Hj & _ & Ho' & Hh').
    assert (j = id) as -> by (eapply (inv_unique _ _ Hr2); eauto; congruence). simplify_eq.
    simpl. by rewrite Hp2, Hq2.
  - exfalso. eapply select_by_key_None; [exact E|exact Hrow2|].
    split; [|done]. by apply (inv_rows _ _ Hr2 _ _ Hrow2).
Qed.

(** ** Concrete runs *)

Section Examples.

Definition ex_hash (x : string) : string := x.
Definition ex_sub : JobSubmission string := mkSubmission "alice" "req-1" "key" "prompt".
Definition ex_state : Type := system string string.

Abbreviation ex_insert := (@insert_job string string ex_opts ex_hash ex_hash).
Abbreviation ex_system_step := (@step string string ex_opts ex_hash ex_hash).

(** The steps as a function, for the labels the examples use. *)
Definition exec_step (s : ex_state) (l : label string string) : option ex_state :=
  match l with
  | Submit id sub =>
      if bool_decide (id ∈ used s) then None else
      match ex_insert (clock s) id sub (table s) with
      | Ok (_, t) =>
          Some (mkSystem t (clock s) (broker s) (delivered s) (running s) (settled s)
                  ({[id]} ∪ used s) (claims s))
      | Err _ => None
      end
  | Dispatch m =>
      match select_due ex_opts (clock s) (fun _ => false) (table s),
            dispatchOne ex_opts (clock s) (fun _ => false) (Ok ()) published_ok (Ok ()) (table s) with
      | Some (id, row), (Ok true, t) =>
          if bool_decide (m = mkEnvelope id (attempts_made row + 1)) then
            Some (mkSystem t (clock s) (mkEnvelope id (attempts_made row + 1) :: broker s)
                    (delivered s) (running s) (settled s) (used s) (claims s))
          else None
      | _, _ => None
      end
  | Deliver m =>
      b ← take_out m (broker s);
      Some (mkSystem (table s) (clock s) b (m :: delivered s) (running s) (settled s)
              (used s) (claims s))
  | Claim m =>
      if bool_decide (m ∈ delivered s) then
        match claim ex_opts (clock s) m (table s) with
        | (Some _, t) =>
            Some (mkSystem t (clock s) (broker s) (delivered s) (m :: running s) (settled s)
                    (used s) (m :: claims s))
        | _ => None
        end
      else None
  | Complete m r =>
      run ← take_out m (running s);
      Some (finish m (complete ex_opts (clock s) m r (table s)) run s)
  | Fail m code rt ra =>
      run ← take_out m (running s);
      Some (finish m (fail ex_opts (clock s) m code rt ra (table s)).2 run s)
  | Tick t =>
      if clock s <=q t then
        Some (mkSystem (table s) t (broker s) (delivered s) (running s) (settled s)
                (used s) (claims s))
      else None
  | _ => None
  end.

Lemma exec_step_sound s l s' : exec_step s l = Some s' -> ex_system_step s l s'.
Proof.
  unfold exec_step. intros H. destruct l; try done.
  - case_bool_decide as Hu; [done|]. destruct (insert_job _ _ _ _ _ _ _) as [|[? ?]] eqn:Hi; [done|].
    simplify_eq. by eapply step_submit.
  - destruct (select_due _ _ _ _) as [[id row]|] eqn:Hs; [|done].
    destruct (dispatchOne _ _ _ _ _ _ _) as [[|[]] t] eqn:Hd; try done.
    case_bool_decide as Hm; [|done]. simplify_eq. by eapply step_dispatch.
  - apply bind_Some in H as (b & Hb & H). simplify_eq. by apply step_deliver.
  - case_bool_decide as Hm; [|done]. destruct (claim _ _ _ _) as [[]] eqn:Hc; [|done].
    simplify_eq. by eapply step_claim.
  - apply bind_Some in H as (b & Hb & H). simplify_eq. by apply step_complete.
  - apply bind_Some in H as (b & Hb & H). simplify_eq. by apply step_fail.
  - destruct (_ <=q _) eqn:Hle; [|done]. to_prop. simplify_eq. by apply step_tick.
Qed.

Definition ex_after (ls : list (label string string)) : ex_state :=
  default (start 0) (exec_run exec_step (start 0) ls).

Lemma ex_after_run ls :
  defined (exec_run exec_step (start 0) ls) = true ->
  run ex_system_step (start 0) ls (ex_after ls).
Proof.
  unfold ex_after. destruct (exec_run _ _ ls) as [s|] eqn:E; [|done]. intros _.
  eapply exec_run_sound; [apply exec_step_sound|exact E].
Qed.

Lemma ex_after_reachable ls :
  defined (exec_run exec_step (start 0) ls) = true ->
  reachable ex_opts ex_hash ex_hash (ex_after ls).
Proof. intros H. exists 0%Q, ls. by apply ex_after_run. Qed.

Definition ex_row_at (ls : list (label string string)) : option (JobRow string string) :=
  table (ex_after ls) !! "a".

(** Submitted, dispatched, delivered, claimed. *)
Definition ex_claimed : list (label string string) :=
  let m := mkEnvelope "a" 1 in [Submit "a" ex_sub; Dispatch m; Deliver m; Claim m].

Definition ex_completed : list (label string string) :=
  ex_claimed ++ [Complete (mkEnvelope "a" 1) "answer"].
Definition ex_dispatched : list (label string string) := take 2 ex_claimed.

Definition ex_default : JobRow string string := ex_row "alice" failed 0.
Definition ex_job (ls : list (label string string)) : JobRow string string :=
  default ex_default (ex_row_at ls).

Lemma ex_job_lookup ls :
  defined (ex_row_at ls) = true -> table (ex_after ls) !! "a" = Some (ex_job ls).
Proof. unfold ex_job, ex_row_at. by destruct (table _ !! _). Qed.

Lemma ex_attempts : 1 <= maxAttempts ex_opts.
Proof. simpl. lia. Qed.



Lemma attempt_claimed_once_witness : NoDup (claims (ex_after ex_claimed)).
Proof.
  exact (proj1 (attempt_claimed_once ex_opts ex_hash ex_hash (ex_after ex_claimed) "a"
    ex_attempts (ex_after_reachable ex_claimed ltac:(by vm_compute)))).
Defined.

Definition ex_again : list (label string string) := [Tick 5; Submit "b" ex_sub].

Lemma ex_run_from ls ls' :
  defined (exec_run exec_step (ex_after ls) ls') = true ->
  run ex_system_step (ex_after ls) ls' (default (start 0) (exec_run exec_step (ex_after ls) ls')).
Proof.
  destruct (exec_run _ _ ls') as [s|] eqn:E; [|done]. intros _.
  eapply exec_run_sound; [apply exec_step_sound|exact E].
Qed.

Lemma result_immutable_witness :
  table (default (start 0) (exec_run exec_step (ex_after ex_completed) ex_again)) !! "a"
  = Some (ex_job ex_completed).
Proof.
  destruct (table (default _ _) !! "a") as [row'|] eqn:E; [|by vm_compute in E]. f_equal.
  exact (result_immutable ex_opts ex_hash ex_hash (ex_after ex_completed) "a"
    (ex_job ex_completed) ex_again _ row' ex_attempts (ex_after_reachable ex_completed ltac:(by vm_compute))
    (ex_job_lookup ex_completed ltac:(by vm_compute)) ltac:(by vm_compute)
    (ex_run_from ex_completed ex_again ltac:(by vm_compute)) E).
Defined.

(** The lease of the first attempt ends at 60000. *)
Definition ex_outlived : list (label string string) := ex_claimed ++ [Tick 60001].

Lemma expired_attempt_fenced_witness :
  let t := expire_leases ex_opts 60001 (table (ex_after ex_outlived)) in
  complete ex_opts 60002 (mkEnvelope "a" 1) "late" t = t.
Proof.
  destruct (expired_attempt_fenced ex_opts ex_hash ex_hash (ex_after ex_outlived) "a"
    (ex_job ex_outlived) []
    (with_table (expire_leases ex_opts (clock (ex_after ex_outlived)) (table (ex_after ex_outlived)))
       (ex_after ex_outlived)) ex_attempts (ex_after_reachable ex_outlived ltac:(by vm_compute))
    (ex_job_lookup ex_outlived ltac:(by vm_compute)) ltac:(by vm_compute) ltac:(constructor)) as [H _].
  exact (H 60002%Q "late").
Defined.

Definition ex_failed : list (label string string) :=
  ex_claimed ++ [Fail (mkEnvelope "a" 1) PROVIDER_TIMEOUT true 5000].

Lemma ex_failed_step :
  ex_system_step (ex_after ex_claimed) (Fail (mkEnvelope "a" 1) PROVIDER_TIMEOUT true 5000)
    (ex_after ex_failed).
Proof. apply exec_step_sound. by vm_compute. Qed.

Lemma retry_respects_delay_witness :
  status (ex_job ex_failed) = retrying /\
  forall m', Claim m' ∈ [Tick 4999 : label string string] -> env_id m' <> "a".
Proof.
  split; [by vm_compute|].
  exact (retry_respects_delay ex_opts ex_hash ex_hash (ex_after ex_claimed)
    (mkEnvelope "a" 1) PROVIDER_TIMEOUT 5000 (ex_job ex_claimed) (ex_after ex_failed)
    [Tick 4999] _ ex_attempts (ex_after_reachable ex_claimed ltac:(by vm_compute))
    (ex_job_lookup ex_claimed ltac:(by vm_compute)) ex_failed_step ltac:(by vm_compute)
    (ex_run_from ex_failed [Tick 4999] ltac:(by vm_compute)) ltac:(by vm_compute)).
Defined.

Lemma enqueue_spec_witness :
  @enqueue string string ex_opts ex_hash ex_hash 7 "c" (fun t => t) ex_sub
    (table (ex_after ex_claimed)) = (Ok (mkReceipt "a" "req-1"), table (ex_after ex_claimed)).
Proof.
  destruct (enqueue_spec ex_opts ex_hash ex_hash (ex_after ex_claimed) 7 "c" ex_sub
    ex_attempts (ex_after_reachable ex_claimed ltac:(by vm_compute))
    ltac:(apply (bool_decide_unpack _); by vm_compute)) as [H _].
  exact (H "a" (ex_job ex_claimed) (ex_job_lookup ex_claimed ltac:(by vm_compute))
    ltac:(by vm_compute) ltac:(by vm_compute)).
Defined.

Lemma resubmission_same_job_witness :
  @enqueue string string ex_opts ex_hash ex_hash 7 "c" (fun t => t) ex_sub
    (table (ex_after ex_completed)) = (Ok (mkReceipt "a" "req-1"), table (ex_after ex_completed)).
Proof.
  exact (resubmission_same_job ex_opts ex_hash ex_hash (start 0) "a" ex_sub
    ("a", ex_job [Submit "a" ex_sub]) (ex_after [Submit "a" ex_sub]) (tail ex_completed)
    (ex_after ex_completed) (ex_job ex_completed) 7 "c" ex_sub ex_attempts
    (ex_after_reachable [] ltac:(by vm_compute))
    ltac:(apply exec_step_sound; by vm_compute) ltac:(by vm_compute)
    (ex_run_from [Submit "a" ex_sub] (tail ex_completed) ltac:(by vm_compute))
    (ex_job_lookup ex_completed ltac:(by vm_compute)) ltac:(done) ltac:(done)).
Defined.

End Examples.

End JobSystem.
