(* ===== verification/Router.v ===== *)
(** * Routing between the primary and the fallback provider

    [src/src/providers/router.ts], on the breakers of [CircuitBreaker] and the
    interface of [Provider].

    A routing pass runs in a [process]: the two circuits, the clock, the
    caller's abort signal and everything else ([others], an arbitrary type).
    Whatever is awaited (a provider, the consumer of the deltas, the
    microtasks that run before an [await] resumes) is an arbitrary function
    on processes, so other requests may use the same circuits meanwhile.
    What belongs to the pass alone is kept apart from the process: the
    variable [emitted] of [stream] and the log of the calls, writes and
    metrics the pass makes, in order. *)

From S2P Require Import Prelude Errors Chat Provider CircuitBreaker.
Import Errors Chat Telemetry Provider CircuitBreaker.

Module Router.

Section Router.
  Context {env : Type}.

Record process : Type := mkProcess {
  primary_circuit : circuit;
  fallback_circuit : circuit;
  clock : Q;
  aborted : bool;
  others : env
}.

Inductive which : Type := Primary | Fallback.

Record ProviderTarget : Type := mkTarget {
  target_name : string;
  target_provider : LLMProvider process;
  target_circuit : CircuitBreakerOptions
}.

Record FallbackTarget : Type := mkFallback {
  fallback_target : ProviderTarget;
  modelMap : gmap string string
}.

Inductive event : Type :=
| Metric (m : MetricEvent)
| Invoked (t : which) (request : ChatRequest)
| Wrote (content : string).

Record pass : Type := mkPass {
  proc : process;
  emitted : bool;
  log : list event
}.

Definition on_proc (f : process -> process) (p : pass) : pass :=
  mkPass (f (proc p)) (emitted p) (log p).
Definition with_proc (g : process) (p : pass) : pass := on_proc (fun _ => g) p.
Definition append (e : event) (p : pass) : pass := mkPass (proc p) (emitted p) (log p ++ [e]).
Definition recordMetric (m : MetricEvent) (p : pass) : pass := append (Metric m) p.

Definition get_circuit (t : which) (g : process) : circuit :=
  match t with Primary => primary_circuit g | Fallback => fallback_circuit g end.

Definition put_circuit (t : which) (c : circuit) (g : process) : process :=
  match t with
  | Primary => mkProcess c (fallback_circuit g) (clock g) (aborted g) (others g)
  | Fallback => mkProcess (primary_circuit g) c (clock g) (aborted g) (others g)
  end.

Section Pass.
  Context (primary : ProviderTarget) (fallback : option FallbackTarget).
  Context (yield : process -> process).

Definition target_of (t : which) : ProviderTarget :=
  match t with
  | Primary => primary
  | Fallback => match fallback with Some f => fallback_target f | None => primary end
  end.

(** ** snapshot *)

Definition snapshot (g : process) : list (string * CircuitSnapshot) :=
  let health t :=
    (target_name (target_of t),
     CircuitBreaker.snapshot (target_circuit (target_of t)) (clock g) (get_circuit t g)) in
  match fallback with Some _ => [health Primary; health Fallback] | None => [health Primary] end.

(** ** call *)

Definition outcome_of (cause : error) : ProviderOutcome :=
  match cause with
  | RequestAbortedError => cancelled
  | StreamConsumerError => consumer_error
  | _ => if isRetryableProviderError cause then transient_error else permanent_error
  end.

Definition isCircuitOpen (cause : error) : bool :=
  match cause with CircuitOpenError _ => true | _ => false end.

Definition translate (name : string) (cause : error) : error :=
  match cause with CircuitOpenError ms => ProviderCircuitOpenError name ms | _ => cause end.

(** The function handed to [circuit.execute]; the flag is [attempted]. *)
Definition attempt {T} (name : string) (mode : Mode) (operation : pass -> result error T * pass)
    (w : pass * bool) : result error T * (pass * bool) :=
  match throwIfCancelled (aborted (proc w.1)) with
  | Err e => (Err e, w)
  | Ok _ =>
      let '(r, p) := operation (recordMetric (provider_start name mode) w.1) in
      let p' := on_proc yield p in
      (match throwIfCancelled (aborted (proc p')) with Err e => Err e | Ok _ => r end, (p', true))
  end.

Definition call {T} (t : which) (operation : pass -> result error T * pass) (mode : Mode)
    (p : pass) : result error T * pass :=
  let name := target_name (target_of t) in
  let startedAt := clock (proc p) in
  let '(r, (p1, attempted)) :=
    execute (target_circuit (target_of t))
      (fun w => get_circuit t (proc w.1)) (fun c w => (on_proc (put_circuit t c) w.1, w.2))
      (fun w => clock (proc w.1)) (fun w => (on_proc yield w.1, w.2))
      (attempt name mode operation) isRetryableProviderError isIgnoredError (p, false) in
  let p2 := on_proc yield p1 in
  let finally (outcome : ProviderOutcome) (p : pass) :=
    if attempted then recordMetric (provider_end name mode outcome (clock (proc p) - startedAt)) p
    else p in
  match r with
  | Ok x => (Ok x, finally success p2)
  | Err cause =>
      let p3 := if isCircuitOpen cause then recordMetric (circuit_rejection name mode) p2 else p2 in
      (Err (translate name cause), finally (outcome_of cause) p3)
  end.

(** ** route *)

Definition route {T} (request : ChatRequest)
    (invoke : which -> ChatRequest -> pass -> result error T * pass)
    (canFallback : pass -> bool) (mode : Mode) (p : pass) : result error T * pass :=
  match throwIfCancelled (aborted (proc p)) with
  | Err e => (Err e, p)
  | Ok _ =>
      let '(r, p1) := call Primary (invoke Primary request) mode p in
      let p2 := on_proc yield p1 in
      match r with
      | Ok x => (Ok x, p2)
      | Err error =>
          match throwIfCancelled (aborted (proc p2)) with
          | Err e => (Err e, p2)
          | Ok _ =>
              if negb (canFallback p2) || negb (isRetryableProviderError error) then (Err error, p2)
              else match fallback with
              | None => (Err error, p2)
              | Some f =>
                  match modelMap f !! model request with
                  | None => (Err error, p2)
                  | Some m =>
                      if String.eqb m EmptyString then (Err error, p2)
                      else
                        call Fallback (invoke Fallback (with_model m request)) mode
                          (recordMetric
                             (fallback_event (target_name primary) (target_name (fallback_target f)))
                             p2)
                  end
              end
          end
      end
  end.

(** ** chat *)

Definition invoke_chat (t : which) (request : ChatRequest) (p : pass) :
    result error ChatResponse * pass :=
  let p1 := append (Invoked t request) p in
  let '(r, g) := provider_chat (target_provider (target_of t)) request (proc p1) in
  (r, with_proc g p1).

Definition chat (request : ChatRequest) (p : pass) : result error ChatResponse * pass :=
  route request invoke_chat (fun _ => true) mode_chat p.

(** ** stream *)

Section Stream.
  Context (onDelta : string -> process -> result error () * process).

Definition consume (content : string) (p : pass) : result error () * pass :=
  match throwIfCancelled (aborted (proc p)) with
  | Err e => (Err e, p)
  | Ok _ =>
      if String.eqb content EmptyString then (Ok (), p)
      else
        let p1 := append (Wrote content) (mkPass (proc p) true (log p)) in
        let '(r, g) := onDelta content (proc p1) in
        let p2 := on_proc yield (with_proc g p1) in
        match r with
        | Ok _ => (Ok (), p2)
        | Err _ =>
            match throwIfCancelled (aborted (proc p2)) with
            | Err e => (Err e, p2)
            | Ok _ => (Err StreamConsumerError, p2)
            end
        end
  end.

Definition invoke_stream (t : which) (request : ChatRequest) (p : pass) : result error () * pass :=
  match provider_stream (target_provider (target_of t)) with
  | None => (Err ProviderStreamingUnsupportedError, p)
  | Some f =>
      let p1 := append (Invoked t request) p in
      run_script proc with_proc yield consume (f request (proc p1)) p1
  end.

Definition stream (request : ChatRequest) (p : pass) : result error () * pass :=
  route request invoke_stream (fun p => negb (emitted p)) mode_stream
    (mkPass (proc p) false (log p)).

End Stream.

(** ** The log of a pass *)

Definition is_write (e : event) : bool := match e with Wrote _ => true | _ => false end.
Definition has_write (l : list event) : bool := existsb is_write l.

(** What an operation handed to [call] adds to the log. *)
Inductive body_log (t : which) (request : ChatRequest) : list event -> Prop :=
| body_unsupported : body_log t request []
| body_called ws : body_log t request (Invoked t request :: (Wrote <$> ws)).

(** What [call] adds: a rejection, nothing (cancelled before the provider was
    reached), or a provider call between its start and end metrics, the end
    carrying the outcome the caller sees. *)
Inductive call_log (t : which) (request : ChatRequest) (mode : Mode) {T} :
    result error T -> list event -> Prop :=
| log_rejected ms :
    call_log t request mode (Err (ProviderCircuitOpenError (target_name (target_of t)) ms))
      [Metric (circuit_rejection (target_name (target_of t)) mode)]
| log_unstarted : call_log t request mode (Err RequestAbortedError) []
| log_succeeded x body d :
    body_log t request body ->
    call_log t request mode (Ok x)
      (Metric (provider_start (target_name (target_of t)) mode) :: body ++
       [Metric (provider_end (target_name (target_of t)) mode success d)])
| log_failed cause body d :
    body_log t request body ->
    call_log t request mode (Err (translate (target_name (target_of t)) cause))
      (Metric (provider_start (target_name (target_of t)) mode) :: body ++
       (if isCircuitOpen cause
        then [Metric (circuit_rejection (target_name (target_of t)) mode)] else []) ++
       [Metric (provider_end (target_name (target_of t)) mode (outcome_of cause) d)]).

(** The operation adds a body to the log and sets [emitted] as it writes. *)
Definition grows {T} (t : which) (request : ChatRequest)
    (operation : pass -> result error T * pass) : Prop :=
  forall p r p', operation p = (r, p') ->
    exists l, log p' = log p ++ l /\ body_log t request l /\
      emitted p' = emitted p || has_write l.

Lemma has_write_app l1 l2 : has_write (l1 ++ l2) = has_write l1 || has_write l2.
Proof. apply existsb_app. Qed.

Lemma attempt_log {T} t request mode (operation : pass -> result error T * pass) p r p' b :
  grows t request operation ->
  attempt (target_name (target_of t)) mode operation (p, false) = (r, (p', b)) ->
  (b = false /\ r = Err RequestAbortedError /\ p' = p) \/
  (b = true /\ exists body, body_log t request body /\
    log p' = log p ++ Metric (provider_start (target_name (target_of t)) mode) :: body /\
    emitted p' = emitted p || has_write body).
Proof.
  unfold attempt. intros Hg H. simpl in H.
  destruct (throwIfCancelled _) eqn:Ha in H.
  { unfold throwIfCancelled in Ha. case_match; simplify_eq. auto. }
  destruct (operation _) as [r1 p1] eqn:Ho. apply Hg in Ho as (l & Hl & Hb & He).
  simplify_eq. right. split; [done|]. exists l. split; [done|]. simpl in *.
  by rewrite Hl, <- app_assoc, He.
Qed.

Lemma call_spec {T} t request mode (operation : pass -> result error T * pass) p r p' :
  grows t request operation -> call t operation mode p = (r, p') ->
  exists l, log p' = log p ++ l /\ call_log t request mode r l /\
    emitted p' = emitted p || has_write l.
Proof.
  unfold call, execute. intros Hg H.
  destruct (execute_begin _ _ _) as [e|[gen c]] eqn:Hb.
  - assert (exists ms, e = CircuitOpenError ms) as [ms ->].
    { unfold execute_begin in Hb. destruct (_ || _) in Hb; simplify_eq. eauto. }
    simplify_eq/=. eexists. split; [done|]. split; [constructor|]. by rewrite orb_false_r.
  - destruct (attempt _ _ _ _) as [r1 [p1 b]] eqn:Ha. simpl in Ha.
    apply (attempt_log _ _ _ _ _ _ _ _ Hg) in Ha as
      [(-> & -> & ->)|(-> & body & Hbody & Hlog & Hem)]; simpl in *.
    + simplify_eq/=. exists []. split; [by rewrite app_nil_r|]. split; [constructor|].
      by rewrite orb_false_r.
    + destruct r1 as [cause|x]; simplify_eq/=.
      * eexists. split; [|split; [by apply (log_failed t request mode cause body)|]];
          destruct (isCircuitOpen cause); simpl in *; rewrite ?Hlog, <- ?app_assoc; try done;
          by rewrite Hem, !has_write_app, ?orb_false_r.
      * eexists. split; [|split; [by apply (log_succeeded t request mode x body)|]].
        { by rewrite Hlog, <- app_assoc. }
        simpl. by rewrite Hem, has_write_app, orb_false_r.
Qed.

(** The operations of [chat] and [stream]. *)
Lemma invoke_chat_grows t request : grows t request (invoke_chat t request).
Proof.
  intros p r p'. unfold invoke_chat. destruct (provider_chat _ _ _) as [r1 g].
  intros [= <- <-]. exists [Invoked t request]. split; [done|].
  split; [apply (body_called t request [])|]. simpl. by rewrite orb_false_r.
Qed.

Lemma consume_log onDelta content p r p' :
  consume onDelta content p = (r, p') ->
  exists ws, log p' = log p ++ (Wrote <$> ws) /\
    emitted p' = emitted p || has_write (Wrote <$> ws).
Proof.
  unfold consume. intros H. destruct (throwIfCancelled _) in H.
  { simplify_eq. exists []. by rewrite app_nil_r, orb_false_r. }
  destruct (String.eqb _ _); [simplify_eq; exists []; by rewrite app_nil_r, orb_false_r|].
  destruct (onDelta _ _) as [r1 g]. exists [content]. simpl in *.
  repeat case_match; simplify_eq; simpl; by rewrite orb_true_r.
Qed.

Lemma run_script_log onDelta s : forall p r p',
  run_script proc with_proc yield (consume onDelta) s p = (r, p') ->
  exists ws, log p' = log p ++ (Wrote <$> ws) /\
    emitted p' = emitted p || has_write (Wrote <$> ws).
Proof.
  induction s as [r0 g|content g next IH]; intros p r p' H; simpl in H.
  - simplify_eq. exists []. by rewrite app_nil_r, orb_false_r.
  - destruct (consume _ _ _) as [r1 p1] eqn:Hc.
    apply consume_log in Hc as (ws1 & Hl1 & He1). apply IH in H as (ws2 & Hl2 & He2).
    exists (ws1 ++ ws2). rewrite fmap_app, has_write_app, Hl2, He2, Hl1, He1.
    by rewrite app_assoc, orb_assoc.
Qed.

Lemma invoke_stream_grows onDelta t request : grows t request (invoke_stream onDelta t request).
Proof.
  intros p r p'. unfold invoke_stream. destruct (provider_stream _) as [f|].
  - intros (ws & Hl & He)%run_script_log. exists (Invoked t request :: (Wrote <$> ws)).
    split; [rewrite Hl; simpl; by rewrite <- app_assoc|]. split; [constructor|]. done.
  - intros [= <- <-]. exists []. rewrite app_nil_r, orb_false_r. split; [done|].
    split; [constructor|done].
Qed.

(** ** The log of a routing pass *)

Inductive route_log (request : ChatRequest) (mode : Mode) {T} :
    result error T -> list event -> Prop :=
| route_refused : route_log request mode (Err RequestAbortedError) []
| route_primary r l : call_log Primary request mode r l -> route_log request mode r l
| route_cancelled (e : error) l :
    call_log Primary request mode (Err e : result error T) l ->
    route_log request mode (Err RequestAbortedError) l
| route_both f m (e : error) l1 r l2 :
    fallback = Some f -> modelMap f !! model request = Some m -> m <> EmptyString ->
    isRetryableProviderError e = true ->
    call_log Primary request mode (Err e : result error T) l1 ->
    (mode = mode_stream -> has_write l1 = false) ->
    call_log Fallback (with_model m request) mode r l2 ->
    route_log request mode r
      (l1 ++ Metric (fallback_event (target_name primary) (target_name (fallback_target f))) :: l2).

Lemma route_spec {T} request (invoke : which -> ChatRequest -> pass -> result error T * pass)
    canFallback mode p r p' :
  (forall t req, grows t req (invoke t req)) ->
  (mode = mode_stream -> emitted p = false /\ forall q, canFallback q = negb (emitted q)) ->
  route request invoke canFallback mode p = (r, p') ->
  exists l, log p' = log p ++ l /\ route_log request mode r l.
Proof.
  unfold route. intros Hg Hcan H.
  destruct (throwIfCancelled (aborted (proc p))) eqn:Ha in H.
  { unfold throwIfCancelled in Ha. case_match; simplify_eq. exists [].
    rewrite app_nil_r. split; [done|constructor]. }
  destruct (call Primary _ _ _) as [r1 p1] eqn:Hc.
  apply (call_spec _ request) in Hc as (l1 & Hl1 & Hlog1 & Hem1); [|done].
  destruct r1 as [e|x]; simpl in H; [|simplify_eq; eauto using route_log].
  destruct (throwIfCancelled (aborted _)) eqn:Ha2 in H.
  { unfold throwIfCancelled in Ha2. case_match; simplify_eq. eauto using route_log. }
  destruct (negb _ || _) eqn:Hd in H; [simplify_eq; eauto using route_log|].
  to_prop. destruct Hd as [Hcf Hret].
  destruct fallback as [f|] eqn:Hf; [|simplify_eq; eauto using route_log].
  destruct (modelMap f !! _) as [m|] eqn:Hm; [|simplify_eq; eauto using route_log].
  destruct (String.eqb m _) eqn:He; [simplify_eq; eauto using route_log|]. to_prop.
  apply (call_spec _ (with_model m request)) in H as (l2 & Hl2 & Hlog2 & _); [|done].
  eexists. split; [|eapply (route_both request mode f m e l1 r l2)]; try done.
  - rewrite Hl2. simpl. by rewrite Hl1, <- !app_assoc.
  - intros Hms. destruct (Hcan Hms) as [Hp Hq]. rewrite Hq in Hcf. simpl in Hcf. to_prop.
    rewrite Hem1, Hp in Hcf. done.
Qed.

(** ** Projections of the log *)

Definition call_of (e : event) : option (which * ChatRequest) :=
  match e with Invoked t request => Some (t, request) | _ => None end.
Definition start_of (e : event) : option (string * Mode) :=
  match e with Metric (provider_start n mode) => Some (n, mode) | _ => None end.
Definition end_of (e : event) : option (string * Mode) :=
  match e with Metric (provider_end n mode _ _) => Some (n, mode) | _ => None end.
Definition success_of (e : event) : option () :=
  match e with Metric (provider_end _ _ success _) => Some () | _ => None end.

Lemma omap_writes {B} (f : event -> option B) ws :
  (forall c, f (Wrote c) = None) -> omap f (Wrote <$> ws) = [].
Proof. intros Hf. induction ws as [|c ws IH]; [done|]. simpl. by rewrite Hf. Qed.

Lemma omap_skip {B} (f : event -> option B) l1 e l2 :
  f e = None -> omap f (l1 ++ e :: l2) = omap f l1 ++ omap f l2.
Proof. intros He. rewrite omap_app. simpl. by rewrite He. Qed.

Lemma body_log_calls t request l :
  body_log t request l -> omap call_of l = [] \/ omap call_of l = [(t, request)].
Proof. destruct 1; [by left|]. right. simpl. by rewrite omap_writes. Qed.

Lemma body_log_marks {B} (f : event -> option B) t request l :
  (forall c, f (Wrote c) = None) -> (forall t request, f (Invoked t request) = None) ->
  body_log t request l -> omap f l = [].
Proof. intros Hw Hi. destruct 1; [done|]. simpl. by rewrite Hi, omap_writes. Qed.

Lemma call_log_calls t request mode {T} (r : result error T) l :
  call_log t request mode r l -> omap call_of l = [] \/ omap call_of l = [(t, request)].
Proof.
  destruct 1 as [| |x body d Hb|cause body d Hb]; simpl; auto; rewrite !omap_app; simpl;
    [|destruct (isCircuitOpen cause); simpl]; rewrite app_nil_r; by eapply body_log_calls.
Qed.

Lemma call_log_balanced t request mode {T} (r : result error T) l :
  call_log t request mode r l -> omap start_of l = omap end_of l.
Proof.
  destruct 1 as [| |x body d Hb|cause body d Hb]; simpl; auto; rewrite !omap_app; simpl;
    rewrite !(body_log_marks _ _ _ _ (fun _ => eq_refl) (fun _ _ => eq_refl) Hb);
    [done|by case_match].
Qed.

Lemma outcome_of_not_success cause : outcome_of cause <> success.
Proof. unfold outcome_of. by repeat case_match. Qed.

Lemma call_log_success t request mode {T} (r : result error T) l :
  call_log t request mode r l -> omap success_of l = if is_Ok r then [()] else [].
Proof.
  destruct 1 as [| |x body d Hb|cause body d Hb]; simpl; auto; rewrite !omap_app; simpl;
    rewrite (body_log_marks _ _ _ _ (fun _ => eq_refl) (fun _ _ => eq_refl) Hb); [done|].
  pose proof (outcome_of_not_success cause). destruct (isCircuitOpen cause); simpl;
    by destruct (outcome_of cause).
Qed.

(** A retryable failure leaves its mark in the log. *)
Lemma call_log_transient t request mode {T} e l :
  call_log t request mode (Err e : result error T) l -> isRetryableProviderError e = true ->
  Metric (circuit_rejection (target_name (target_of t)) mode) ∈ l \/
  exists d, Metric (provider_end (target_name (target_of t)) mode transient_error d) ∈ l.
Proof.
  intros H He. inversion H as [ms| | |cause body d Hb Hc Hl]; subst; [left; by left|done|].
  destruct (isCircuitOpen cause) eqn:Ho; [left; set_solver|right]. exists d.
  assert (outcome_of cause = transient_error) as ->; [by destruct cause; simpl in *; rewrite ?He|]. set_solver.
Qed.

(** No provider is called once something has been written. *)
Definition settled (l : list event) : Prop :=
  forall l1 c l2, l = l1 ++ Wrote c :: l2 -> omap call_of l2 = [].

Lemma settled_no_write l k : has_write l = false -> settled k -> settled (l ++ k).
Proof.
  intros Hw Hk l1 c l2 Heq. revert l1 Heq.
  induction l as [|e l IH]; intros l1 Heq; simpl in *; [by eapply Hk|].
  apply orb_false_iff in Hw as [He Hw].
  destruct l1 as [|e1 l1]; injection Heq as -> Heq; [done|]. by eapply IH.
Qed.

Lemma settled_no_call l k : settled l -> omap call_of k = [] -> settled (l ++ k).
Proof.
  intros Hl Hk l1 c l2 Heq. apply app_eq_inv in Heq as [(k1 & Hl1 & Hk1)|(k1 & -> & ->)].
  - destruct k1 as [|e k1]; simpl in *.
    + rewrite <- Hk1 in Hk. done.
    + injection Hk1 as <- ->. rewrite omap_app, Hk, app_nil_r. by eapply Hl.
  - rewrite omap_app in Hk. apply app_eq_nil in Hk as [_ Hk]. done.
Qed.

Lemma body_log_settled t request l : body_log t request l -> settled l.
Proof.
  destruct 1 as [|ws]; intros l1 c l2 Heq; [by destruct l1|].
  destruct l1 as [|e l1]; [done|]. injection Heq as <- Heq.
  apply (f_equal (omap call_of)) in Heq. rewrite omap_writes in Heq by done.
  rewrite omap_app in Heq. symmetry in Heq. by apply app_eq_nil in Heq as [_ Heq].
Qed.

Lemma call_log_settled t request mode {T} (r : result error T) l :
  call_log t request mode r l -> settled l.
Proof.
  destruct 1 as [| |x body d Hb|cause body d Hb].
  - intros l1 c l2 Heq. destruct l1 as [|? [|]]; done.
  - intros l1 c l2 Heq. by destruct l1.
  - apply (settled_no_write [_]); [done|]. apply settled_no_call; [|done].
    by eapply body_log_settled.
  - apply (settled_no_write [_]); [done|]. apply settled_no_call; [by eapply body_log_settled|].
    by destruct (isCircuitOpen cause).
Qed.

(** ** A circuit nobody else touches *)

(** The operation leaves the circuit of [t] to [execute]. *)
Definition frames {T} (t : which) (operation : pass -> result error T * pass) : Prop :=
  forall q r q', operation q = (r, q') -> get_circuit t (proc q') = get_circuit t (proc q).

Lemma get_put_circuit t c g : get_circuit t (put_circuit t c g) = c.
Proof. by destruct t. Qed.

Lemma attempt_circuit {T} t name mode (operation : pass -> result error T * pass) p b r p' b' :
  (forall g, get_circuit t (yield g) = get_circuit t g) -> frames t operation ->
  attempt name mode operation (p, b) = (r, (p', b')) ->
  get_circuit t (proc p') = get_circuit t (proc p).
Proof.
  intros Hy Hf. unfold attempt. simpl. destruct (throwIfCancelled _); [by intros [= _ <- _]|].
  destruct (operation _) as [r1 p1] eqn:Ho. apply Hf in Ho. intros [= _ <- _]. simpl in *.
  by rewrite Hy.
Qed.

Lemma clock_put_circuit t c g : clock (put_circuit t c g) = clock g.
Proof. by destruct t. Qed.

(** On a circuit left to itself, [call] is one run of the breaker, whose
    outcome is charged before [call] returns. *)
Lemma call_circuit {T} t mode (operation : pass -> result error T * pass) p r p' :
  (forall g, get_circuit t (yield g) = get_circuit t g) ->
  (forall g, (clock g <= clock (yield g))%Q) -> frames t operation ->
  call t operation mode p = (r, p') ->
  let opts := target_circuit (target_of t) in
  let c := get_circuit t (proc p) in
  match execute_begin opts (clock (proc p)) c with
  | Err e => get_circuit t (proc p') = c /\ r = Err (translate (target_name (target_of t)) e)
  | Ok (gen, c1) =>
      exists now r1, (now <= clock (proc p'))%Q /\ get_circuit t (proc p') =
        execute_settle opts isRetryableProviderError isIgnoredError now gen r1 c1 /\
      match r1 with
      | Ok x => r = Ok x
      | Err cause => r = Err (translate (target_name (target_of t)) cause)
      end
  end.
Proof.
  intros Hy Hk Hf. unfold call, execute. simpl.
  destruct (execute_begin _ _ _) as [e|[gen c1]].
  - intros [= <- <-]. split; [|done]. destruct (isCircuitOpen e); simpl; by rewrite Hy.
  - destruct (attempt _ _ _ _) as [r1 [p1 b]] eqn:Ha. simpl in Ha.
    apply (attempt_circuit _ _ _ _ _ _ _ _ _ Hy Hf) in Ha. simpl in Ha.
    rewrite get_put_circuit in Ha.
    assert (get_circuit t (yield (proc p1)) = c1) as Hc by (by rewrite Hy).
    assert (forall c, clock (yield (proc p1)) <= clock (yield (put_circuit t c (yield (proc p1)))))%Q
      as Hle by (intros c; by rewrite <- (clock_put_circuit t c (yield (proc p1))) at 1).
    intros Heq. exists (clock (yield (proc p1))), r1.
    destruct r1 as [cause|x]; injection Heq as <- <-.
    + destruct b, (isCircuitOpen cause); simpl; (split; [apply Hle|]);
        rewrite Hy, get_put_circuit, Hc; done.
    + destruct b; simpl; (split; [apply Hle|]); rewrite Hy, get_put_circuit, Hc; done.
Qed.

End Pass.
End Router.

Arguments process : clear implicits.
Arguments pass : clear implicits.
Arguments ProviderTarget : clear implicits.
Arguments FallbackTarget : clear implicits.

(** ** The properties *)

(** C6: one answer, one model.  In a streaming pass no provider is called
    after the first attempted write, whatever the providers, the consumer and
    concurrent requests do: a client never sees deltas of two providers, and
    a failure after the first delta ends the stream. *)
Theorem stream_never_switches {env} primary fallback (yield : process env -> process env)
    onDelta request p r p' :
  stream primary fallback yield onDelta request p = (r, p') ->
  exists l, log p' = log p ++ l /\
    forall l1 content l2, l = l1 ++ Wrote content :: l2 -> omap call_of l2 = [].
Proof.
  unfold stream. intros H. apply route_spec in H as (l & Hl & Hr);
    [|apply invoke_stream_grows|done].
  exists l. split; [done|]. destruct Hr as [|r l Hc|e l Hc|f m e l1 r l2 Hf Hm Hne He H1 Hw H2];
    try by eapply call_log_settled.
  { intros l1 c l2 Heq. by destruct l1. }
  apply settled_no_write; [by apply Hw|]. apply (settled_no_write [_]); [done|].
  by eapply call_log_settled.
Qed.

(** C16: the call budget.  A chat pass calls the primary at most once, with
    the request as given, and the fallback at most once and last, only for a
    model with a non-empty mapping, with nothing but the model replaced, and
    only after the primary was refused by its circuit or failed
    transiently. *)
Theorem chat_call_budget {env} primary fallback (yield : process env -> process env)
    request p r p' :
  chat primary fallback yield request p = (r, p') ->
  exists l, log p' = log p ++ l /\
    (omap call_of l = [] \/ omap call_of l = [(Primary, request)] \/
     exists f m, fallback = Some f /\ modelMap f !! model request = Some m /\ m <> EmptyString /\
       (omap call_of l = [(Fallback, with_model m request)] \/
        omap call_of l = [(Primary, request); (Fallback, with_model m request)]) /\
       (Metric (circuit_rejection (target_name primary) mode_chat) ∈ l \/
        exists d, Metric (provider_end (target_name primary) mode_chat transient_error d) ∈ l)).
Proof.
  unfold chat. intros H. apply route_spec in H as (l & Hl & Hr);
    [|apply invoke_chat_grows|done].
  exists l. split; [done|]. destruct Hr as [|r l Hc|e l Hc|f m e l1 r l2 Hf Hm Hne He H1 _ H2].
  - by left.
  - apply call_log_calls in Hc. tauto.
  - apply call_log_calls in Hc. tauto.
  - pose proof (call_log_transient _ _ _ _ _ _ _ H1 He) as Hmark.
    apply call_log_calls in H1, H2.
    rewrite omap_skip by done.
    destruct H2 as [H2|H2]; rewrite H2; [rewrite app_nil_r; tauto|].
    right; right. exists f, m. split; [done|]. split; [done|]. split; [done|].
    split; [destruct H1 as [->| ->]; auto|].
    destruct Hmark as [?|[d ?]]; [left; set_solver|right; exists d; set_solver].
Qed.

(** Telemetry is balanced.  In the log of a streaming pass every provider
    call that starts also ends, in order and for the same target, and an
    outcome [success] is recorded exactly when the pass succeeds. *)
Theorem stream_telemetry_balanced {env} primary fallback (yield : process env -> process env)
    onDelta request p r p' :
  stream primary fallback yield onDelta request p = (r, p') ->
  exists l, log p' = log p ++ l /\ omap start_of l = omap end_of l /\
    omap success_of l = if is_Ok r then [()] else [].
Proof.
  unfold stream. intros H. apply route_spec in H as (l & Hl & Hr);
    [|apply invoke_stream_grows|done].
  exists l. split; [done|]. destruct Hr as [|r l Hc|e l Hc|f m e l1 r l2 Hf Hm Hne He H1 Hw H2].
  - done.
  - eauto using call_log_balanced, call_log_success.
  - split; [by eapply call_log_balanced|]. by rewrite (call_log_success _ _ _ _ _ _ _ Hc).
  - rewrite !omap_skip by done.
    rewrite (call_log_balanced _ _ _ _ _ _ _ H1), (call_log_balanced _ _ _ _ _ _ _ H2).
    by rewrite (call_log_success _ _ _ _ _ _ _ H1), (call_log_success _ _ _ _ _ _ _ H2).
Qed.

(** C31: cancellation and a broken consumer are no evidence against a
    provider.  When nothing else uses the circuit meanwhile, a call that ends
    with either error leaves a closed circuit as it was, with its failure
    count, and hands the probe of an open one back: when the call returns the
    circuit is open with the same count, under a new generation, and it admits
    a call at that very instant and at every later one, without a new
    cooldown. *)
Theorem cancellation_not_charged {env} primary fallback (yield : process env -> process env)
    t mode {T} (operation : pass env -> result error T * pass env) p e p' :
  valid_options (target_circuit (target_of primary fallback t)) ->
  (forall g, get_circuit t (yield g) = get_circuit t g) ->
  (forall g, (clock g <= clock (yield g))%Q) -> frames t operation ->
  isIgnoredError e = true ->
  call primary fallback yield t operation mode p = (Err e, p') ->
  let opts := target_circuit (target_of primary fallback t) in
  let c := get_circuit t (proc p) in
  let c' := get_circuit t (proc p') in
  (state c = closed /\ c' = c) \/
  (state c = open /\ state c' = open /\ consecutiveFailures c' = consecutiveFailures c /\
   generation c' = generation c + 1 /\
   forall now, (clock (proc p') <= now)%Q -> is_Ok (execute_begin opts now c') = true).
Proof.
  intros Hv Hy Hk Hf He H. apply (call_circuit _ _ _ _ _ _ _ _ _ Hy Hk Hf) in H. simpl in *.
  destruct (execute_begin _ _ _) as [e0|[gen c1]] eqn:Hb.
  - destruct H as [_ [= ->]]. apply (execute_begin_Err _ Hv) in Hb as (ms & -> & _). done.
  - destruct H as (now & [cause|x] & Hle & Hc' & [= ->]).
    assert (isIgnoredError cause = true) as Hi by (by destruct cause).
    rewrite execute_settle_class in Hc'. unfold classify in Hc'. rewrite Hi in Hc'.
    apply execute_begin_Ok in Hb as (-> & Hg & [[Hs ->]|(Hs & _ & ->)]); simpl in Hc';
      rewrite Z.eqb_refl in Hc'; rewrite Hc'.
    + left. by rewrite Hs.
    + right. simpl. split; [done|]. split; [done|]. split; [done|]. split; [done|].
      intros now' Hle'. rewrite execute_begin_open_elapsed; [done|done|simpl; lra].
Qed.

(** Failover.  When the primary is refused by its circuit or fails
    transiently, the request is still wanted, its model is mapped, the
    fallback's circuit admits the call and the fallback answers, the pass
    returns the fallback's answer. *)
Theorem chat_fails_over {env} primary f m (yield : process env -> process env)
    request p e p1 gen c x g :
  aborted (proc p) = false ->
  call primary (Some f) yield Primary (invoke_chat primary (Some f) Primary request) mode_chat p
    = (Err e, p1) ->
  isRetryableProviderError e = true ->
  modelMap f !! model request = Some m -> m <> EmptyString ->
  let g1 := yield (proc p1) in
  aborted g1 = false ->
  execute_begin (target_circuit (fallback_target f)) (clock g1) (fallback_circuit g1)
    = Ok (gen, c) ->
  provider_chat (target_provider (fallback_target f)) (with_model m request)
    (put_circuit Fallback c g1) = (Ok x, g) ->
  aborted (yield g) = false ->
  (chat primary (Some f) yield request p).1 = Ok x.
Proof.
  intros Ha Hc He Hm Hne g1 Ha1 Hb Hp Ha2. subst g1. unfold chat, route. rewrite Ha. simpl.
  rewrite Hc. simpl. rewrite Ha1. simpl. rewrite He. simpl. rewrite Hm.
  rewrite (proj2 (String.eqb_neq _ _) Hne). unfold call, execute. simpl. rewrite Hb.
  unfold attempt, invoke_chat. simpl in *. rewrite Ha1 in *. rewrite Hp. simpl.
  by rewrite Ha2.
Qed.

(** ** Concrete passes *)

Section Examples.

Definition ex_provider (r : result error ChatResponse) (deltas : list string)
    (s : result error ()) : LLMProvider (process ()) :=
  mkProvider (fun _ g => (r, g))
    (Some (fun _ g => foldr (fun d k => Delta d g (fun r _ => match r with Ok _ => k | _ => Finish r g end))
                        (Finish s g) deltas)).

Definition ex_circuit : CircuitBreakerOptions := mkOptions 3 1000.
Definition ex_down : LLMProvider (process ()) :=
  ex_provider (Err (ProviderConnectionError "Ollama")) ["Hel"; "lo"]
    (Err (ProviderConnectionError "Ollama")).
Definition ex_up : LLMProvider (process ()) := ex_provider (Ok (mkChatResponse "Hi")) ["Hi"] (Ok ()).
Definition ex_primary : ProviderTarget () := mkTarget "ollama" ex_down ex_circuit.
Definition ex_fallback : FallbackTarget () :=
  mkFallback (mkTarget "openai" ex_up ex_circuit) {[ "llama3" := "gpt-4o-mini" ]}.
Definition ex_request : ChatRequest := mkChatRequest "llama3" [mkChatMessage user "Hello"].
Definition ex_pass : pass () := mkPass (mkProcess initial initial 0 false ()) false [].
Definition ex_chat := chat ex_primary (Some ex_fallback) id ex_request ex_pass.
Definition ex_stream :=
  stream ex_primary (Some ex_fallback) id (fun _ g => (Ok (), g)) ex_request ex_pass.

Lemma stream_never_switches_witness :
  exists l, log ex_stream.2 = [] ++ l /\ has_write l = true /\
    forall l1 content l2, l = l1 ++ Wrote content :: l2 -> omap call_of l2 = [].
Proof.
  destruct (stream_never_switches ex_primary (Some ex_fallback) id (fun _ g => (Ok (), g))
    ex_request ex_pass ex_stream.1 ex_stream.2 ltac:(by vm_compute)) as (l & Hl & H).
  exists l. split; [exact Hl|]. split; [|exact H].
  change (log ex_pass ++ l) with l in Hl. rewrite <- Hl.
  by vm_compute.
Defined.

Lemma chat_call_budget_witness :
  exists l, log ex_chat.2 = [] ++ l /\
    omap call_of l = [(Primary, ex_request); (Fallback, with_model "gpt-4o-mini" ex_request)].
Proof.
  destruct (chat_call_budget ex_primary (Some ex_fallback) id
    ex_request ex_pass ex_chat.1 ex_chat.2 ltac:(by vm_compute)) as (l & Hl & _).
  exists l. split; [exact Hl|]. change (log ex_pass ++ l) with l in Hl. rewrite <- Hl.
  by vm_compute.
Defined.

Lemma stream_telemetry_balanced_witness :
  exists l, log ex_stream.2 = [] ++ l /\ omap start_of l = omap end_of l /\
    omap start_of l = [("ollama", mode_stream)] /\ omap success_of l = [].
Proof.
  destruct (stream_telemetry_balanced ex_primary (Some ex_fallback) id (fun _ g => (Ok (), g))
    ex_request ex_pass ex_stream.1 ex_stream.2 ltac:(by vm_compute)) as (l & Hl & H1 & H2).
  exists l. split; [exact Hl|]. split; [exact H1|]. change (log ex_pass ++ l) with l in Hl.
  rewrite <- Hl. split; by vm_compute.
Defined.

(** A call whose client leaves while the provider is working. *)
Definition ex_leaving (p : pass ()) : result error () * pass () :=
  (Ok (), on_proc (fun g => mkProcess (primary_circuit g) (fallback_circuit g) (clock g) true ()) p).

(** The recovery probe of an open circuit, after its cooldown. *)
Definition ex_probe : pass () :=
  on_proc (fun g => mkProcess (mkCircuit open 5 0 1) (fallback_circuit g) 1000000 false ()) ex_pass.
Definition ex_left : pass () :=
  (call ex_primary (Some ex_fallback) id Primary ex_leaving mode_stream ex_probe).2.

Lemma cancellation_not_charged_witness :
  is_Ok (execute_begin (target_circuit ex_primary) 1000000 (primary_circuit (proc ex_left))) = true.
Proof.
  destruct (cancellation_not_charged ex_primary (Some ex_fallback) id Primary mode_stream
    ex_leaving ex_probe RequestAbortedError ex_left) as [[H _]|(_ & _ & _ & _ & H)].
  - split; split; by vm_compute.
  - done.
  - intros g. apply Qle_refl.
  - intros q r q' [= _ <-]. done.
  - done.
  - by vm_compute.
  - by vm_compute in H.
  - apply H. by vm_compute.
Defined.

Lemma chat_fails_over_witness : ex_chat.1 = Ok (mkChatResponse "Hi").
Proof.
  exact (chat_fails_over ex_primary ex_fallback "gpt-4o-mini" id ex_request ex_pass
    (ProviderConnectionError "Ollama")
    (call ex_primary (Some ex_fallback) id Primary
       (invoke_chat ex_primary (Some ex_fallback) Primary ex_request) mode_chat ex_pass).2
    0 initial (mkChatResponse "Hi")
    (mkProcess (mkCircuit closed 1 0 0) initial 0 false ())
    ltac:(by vm_compute) ltac:(by vm_compute) ltac:(by vm_compute) ltac:(by vm_compute)
    ltac:(done) ltac:(by vm_compute) ltac:(by vm_compute) ltac:(by vm_compute)
    ltac:(by vm_compute)).
Defined.

End Examples.

End Router.
