(* ===== verification/RouterProvider.v ===== *)
(** * The router as a provider

    [ProviderRouter] of [src/src/providers/router.ts] implements the provider
    interface it consumes.  [Router] follows one routing pass for a given
    consumer; here the streaming method is the tree the interface asks for, so
    that the endpoints and the worker can be run on top of it.  The two are
    the same function: running the tree for a consumer is the routing pass
    for it ([stream_script_runs]). *)

From S2P Require Import Prelude Errors Chat Provider CircuitBreaker Router.
Import Errors Chat Telemetry Provider CircuitBreaker Router.

Module RouterProvider.

Section Script.
  Context {env : Type}.
  Context (primary : ProviderTarget env) (fallback : option (FallbackTarget env)).
  Context (yield : process env -> process env).
  Abbreviation process := (Router.process env).
  Abbreviation pass := (Router.pass env).

(** The consumer [stream] hands to a provider, and what the provider does with
    it; [k] goes on when the provider's call has ended. *)
Fixpoint consume_script (s : script process) (p : pass) (k : result error () -> pass -> script process) :
    script process :=
  match s with
  | Finish r w => k r (with_proc w p)
  | Delta content w next =>
      let p0 := with_proc w p in
      match throwIfCancelled (aborted (proc p0)) with
      | Err e => consume_script (next (Err e) (yield (proc p0))) p0 k
      | Ok _ =>
          if String.eqb content EmptyString then consume_script (next (Ok ()) (yield (proc p0))) p0 k
          else
            let p1 := append (Wrote content) (mkPass (proc p0) true (log p0)) in
            Delta content (proc p1) (fun r g =>
              let p2 := with_proc g p1 in
              let r' :=
                match r with
                | Ok _ => Ok ()
                | Err _ =>
                    match throwIfCancelled (aborted (proc p2)) with
                    | Err e => Err e
                    | Ok _ => Err StreamConsumerError
                    end
                end in
              consume_script (next r' (yield (proc p2))) p2 k)
      end
  end.

(** The rest of [call] once the function given to [execute] has ended. *)
Definition after_attempt {T} (r : result error T) (p : pass) : result error T * pass :=
  let p' := on_proc yield p in
  (match throwIfCancelled (aborted (proc p')) with Err e => Err e | Ok _ => r end, p').

Definition after_execute {T} (t : which) (gen : Z) (r : result error T) (p : pass) : pass :=
  let p' := on_proc yield p in
  on_proc (put_circuit t (execute_settle (target_circuit (target_of primary fallback t))
    isRetryableProviderError isIgnoredError (clock (proc p')) gen r (get_circuit t (proc p')))) p'.

Definition after_call {T} (t : which) (mode : Mode) (startedAt : Q) (attempted : bool)
    (r : result error T) (p : pass) : result error T * pass :=
  let name := target_name (target_of primary fallback t) in
  let p2 := on_proc yield p in
  let finally (outcome : ProviderOutcome) (p : pass) :=
    if attempted then recordMetric (provider_end name mode outcome (clock (proc p) - startedAt)) p
    else p in
  match r with
  | Ok x => (Ok x, finally success p2)
  | Err cause =>
      let p3 := if isCircuitOpen cause then recordMetric (circuit_rejection name mode) p2 else p2 in
      (Err (translate name cause), finally (outcome_of cause) p3)
  end.

(** [call] for a streaming request. *)
Definition call_script (t : which) (request : ChatRequest) (p : pass)
    (k : result error () -> pass -> script process) : script process :=
  let target := target_of primary fallback t in
  let startedAt := clock (proc p) in
  let finish (attempted : bool) (r : result error ()) (p : pass) :=
    let '(r', p') := after_call t mode_stream startedAt attempted r p in k r' p' in
  match execute_begin (target_circuit target) (clock (proc p)) (get_circuit t (proc p)) with
  | Err e => finish false (Err e) p
  | Ok (gen, c) =>
      let p0 := on_proc (put_circuit t c) p in
      match throwIfCancelled (aborted (proc p0)) with
      | Err e => finish false (Err e) (after_execute t gen (Err e : result error ()) p0)
      | Ok _ =>
          let p1 := recordMetric (provider_start (target_name target) mode_stream) p0 in
          let settled r p :=
            let '(r1, p2) := after_attempt r p in finish true r1 (after_execute t gen r1 p2) in
          match provider_stream (target_provider target) with
          | None => settled (Err ProviderStreamingUnsupportedError) p1
          | Some f =>
              let p2 := append (Invoked t request) p1 in
              consume_script (f request (proc p2)) p2 settled
          end
      end
  end.

Definition route_script (request : ChatRequest) (p : pass) : script process :=
  let finish (r : result error ()) (p : pass) := Finish r (proc p) in
  match throwIfCancelled (aborted (proc p)) with
  | Err e => finish (Err e) p
  | Ok _ =>
      call_script Primary request p (fun r p1 =>
        let p2 := on_proc yield p1 in
        match r with
        | Ok x => finish (Ok x) p2
        | Err error =>
            match throwIfCancelled (aborted (proc p2)) with
            | Err e => finish (Err e) p2
            | Ok _ =>
                if emitted p2 || negb (isRetryableProviderError error) then finish (Err error) p2
                else match fallback with
                | None => finish (Err error) p2
                | Some f =>
                    match modelMap f !! model request with
                    | None => finish (Err error) p2
                    | Some m =>
                        if String.eqb m EmptyString then finish (Err error) p2
                        else
                          call_script Fallback (with_model m request)
                            (recordMetric
                               (fallback_event (target_name primary) (target_name (fallback_target f)))
                               p2) finish
                    end
                end
            end
        end)
  end.

Definition stream_script (request : ChatRequest) (w : process) : script process :=
  route_script request (mkPass w false []).

Definition chat_result (request : ChatRequest) (w : process) : result error ChatResponse * process :=
  let '(r, p) := Router.chat primary fallback yield request (mkPass w false []) in (r, proc p).

Definition ProviderRouter : LLMProvider process := mkProvider chat_result (Some stream_script).

(** ** The tree and the pass agree *)

Context (onDelta : string -> process -> result error () * process).

(** Run a tree for the consumer; the state is the process itself. *)
Definition runs (s : script process) (g : process) : result error () * process :=
  run_script id (fun w _ => w) yield onDelta s g.

Lemma runs_any s g g' : runs s g = runs s g'.
Proof. by destruct s. Qed.

Lemma consume_script_runs s : forall p k g,
  runs (consume_script s p k) g =
  let '(r, p') := run_script proc with_proc yield (consume yield onDelta) s p in
  runs (k r p') (proc p').
Proof.
  induction s as [r w|content w next IH]; intros p k g; cbn [consume_script run_script].
  { apply runs_any. }
  unfold consume at 1. destruct (throwIfCancelled (aborted (proc (with_proc w p)))); [apply IH|].
  destruct (String.eqb content EmptyString); [apply IH|].
  unfold runs at 1. cbn [run_script]. destruct (onDelta content _) as [r1 g1]. cbv zeta.
  destruct r1 as [e|[]]; [|exact (IH _ _ _ _ _)].
  change (aborted (proc (on_proc yield (with_proc g1 (append (Wrote content)
    (mkPass (proc (with_proc w p)) true (log (with_proc w p)))))))) with (aborted (yield g1)).
  cbn [proc with_proc on_proc]. destruct (throwIfCancelled (aborted (yield (id g1)))) eqn:E;
    change (yield (id g1)) with (yield g1) in E; rewrite E; exact (IH _ _ _ _ _).
Qed.

Lemma call_stages {T} t (operation : pass -> result error T * pass) mode p :
  Router.call primary fallback yield t operation mode p =
  let target := target_of primary fallback t in
  match execute_begin (target_circuit target) (clock (proc p)) (get_circuit t (proc p)) with
  | Err e => after_call t mode (clock (proc p)) false (Err e) p
  | Ok (gen, c) =>
      let p0 := on_proc (put_circuit t c) p in
      match throwIfCancelled (aborted (proc p0)) with
      | Err e => after_call t mode (clock (proc p)) false (Err e) (after_execute t gen (Err e : result error T) p0)
      | Ok _ =>
          let '(r, p2) := operation (recordMetric (provider_start (target_name target) mode) p0) in
          let '(r1, p3) := after_attempt r p2 in
          after_call t mode (clock (proc p)) true r1 (after_execute t gen r1 p3)
      end
  end.
Proof.
  unfold Router.call, execute, attempt. cbv zeta. cbn [fst snd].
  destruct (execute_begin _ _ _) as [e|[gen c]]; [reflexivity|].
  destruct (throwIfCancelled _) as [e|]; [reflexivity|].
  destruct (operation _) as [r p2]. reflexivity.
Qed.

Lemma call_script_runs t request p k g :
  runs (call_script t request p k) g =
  let '(r, p') := Router.call primary fallback yield t (invoke_stream primary fallback yield onDelta t request)
                    mode_stream p in
  runs (k r p') (proc p').
Proof.
  rewrite call_stages. unfold call_script. cbv zeta.
  assert (Hfin : forall b r q,
    runs (let '(r', p') := after_call t mode_stream (clock (proc p)) b r q in k r' p') g =
    let '(r', p') := after_call t mode_stream (clock (proc p)) b r q in runs (k r' p') (proc p')).
  { intros b r q. destruct (after_call _ _ _ _ _ _). apply runs_any. }
  destruct (execute_begin _ _ _) as [e|[gen c]]; [apply Hfin|].
  destruct (throwIfCancelled _) as [e|]; [apply Hfin|].
  unfold invoke_stream. destruct (provider_stream _) as [f|].
  - rewrite consume_script_runs. destruct (run_script _ _ _ _ _ _) as [r p'].
    destruct (after_attempt r p') as [r1 p2]. rewrite (runs_any _ _ g). apply Hfin.
  - destruct (after_attempt _ _) as [r1 p2]. apply Hfin.
Qed.

Lemma route_script_runs request p g :
  runs (route_script request p) g =
  let '(r, p') := Router.route primary fallback yield request
                    (invoke_stream primary fallback yield onDelta)
                    (fun p => negb (emitted p)) mode_stream p in
  (r, proc p').
Proof.
  unfold route_script, Router.route. destruct (throwIfCancelled _) as [e|]; [reflexivity|].
  rewrite call_script_runs. destruct (Router.call _ _ _ _ _ _ _) as [r p1]. cbv zeta.
  destruct r as [error|]; [|reflexivity]. destruct (throwIfCancelled _); [reflexivity|].
  rewrite negb_involutive. destruct (_ || _); [reflexivity|].
  destruct fallback as [f|] eqn:Ef; [|reflexivity].
  destruct (modelMap f !! model request) as [m|]; [|reflexivity].
  destruct (String.eqb m EmptyString); [reflexivity|].
  rewrite <- Ef, call_script_runs. by destruct (Router.call _ _ _ _ _ _ _).
Qed.

(** The router is a provider: its streaming method, run for any consumer,
    answers what the routing pass with that consumer answers and leaves the
    process the pass leaves, whatever the two targets, the request, the
    circuits and the code running between the awaits are. *)
Theorem stream_script_runs request w :
  runs (stream_script request w) w =
  let '(r, p) := Router.stream primary fallback yield onDelta request (mkPass w false []) in
  (r, proc p).
Proof. apply route_script_runs. Qed.

End Script.

End RouterProvider.
