(* ===== verification/JobWorker.v ===== *)
(** * The job queue adapter, the worker and the inference processor

    [src/src/queue/rabbitmq.ts] and [src/src/jobs/inference-processor.ts].

    The worker is written against the operations it uses of the store
    ([WorkerStore]); the instance [SystemStore] performs them on the states of
    [JobSystem], with a database that may refuse a statement or lose its
    reply.  What other gateways, workers and the broker do while the worker
    awaits is a function [yield]. *)

From S2P Require Import Prelude Errors Chat JobStore JobSystem.
Import Errors Chat Telemetry JobStore JobSystem.

Module JobWorker.

(** ** RabbitMqJobQueue *)

(** The [catch] of [enqueue] and [getJob]: errors meant for clients pass,
    everything else is reported as an unavailable queue. *)
Definition wrap {A} (r : result error A) : result error A :=
  match r with
  | Ok a => Ok a
  | Err e => if isAppError e then Err e else Err JobQueueUnavailableError
  end.

Lemma wrap_public {A} (r : result error A) e : wrap r = Err e -> is_Some (asAppError e).
Proof.
  destruct r as [e0|]; simpl; [|done]. destruct (isAppError e0) eqn:E; intros [= <-].
  - by apply bool_decide_eq_true in E.
  - by eexists.
Qed.

(** ** createInferenceProcessor *)

(** [error.code] of the retryable provider errors. *)
Definition provider_code (e : error) : JobErrorCode :=
  match e with
  | ProviderHttpError _ _ _ => PROVIDER_ERROR
  | ProviderConnectionError _ => PROVIDER_UNAVAILABLE
  | ProviderResponseError _ => INVALID_PROVIDER_RESPONSE
  | ProviderTimeoutError _ _ => PROVIDER_TIMEOUT
  | ProviderCircuitOpenError _ _ => PROVIDER_CIRCUIT_OPEN
  | _ => JOB_FAILED
  end.

Definition processing_error (e : error) : error :=
  if isRetryableProviderError e then
    JobProcessingError (provider_code e) true
      (match e with ProviderCircuitOpenError _ ms => ms | _ => 0 end)
  else match e with
  | ProviderHttpError _ _ _ => JobProcessingError (provider_code e) false 0
  | ProviderResponseError _ => JobProcessingError (provider_code e) false 0
  | _ => JobProcessingError JOB_FAILED false 0
  end.

Definition inference_processor {W} (chat : ChatRequest -> W -> result error ChatResponse * W)
    (job : ProcessingJob ChatRequest) (w : W) : result error ChatResponse * W :=
  match chat (pj_data job) w with
  | (Ok response, w') => (Ok response, w')
  | (Err e, w') => (Err (processing_error e), w')
  end.

(** The published code is the one the error class itself carries. *)
Lemma provider_code_app e a :
  asAppError e = Some a ->
  isRetryableProviderError e = true \/
  (exists p s d, e = ProviderHttpError p s d) \/ (exists p, e = ProviderResponseError p) ->
  JobErrorCode_name (provider_code e) = code a.
Proof.
  intros Ha [H|[(p & s & d & ->)|(p & ->)]]; [|by simplify_eq/=|by simplify_eq/=].
  destruct e; simplify_eq/=; done.
Qed.

(** ** RabbitMqJobWorker.execute *)

Inductive action : Type := ack | dead_letter.

Section Execute.
  Context {TData TResult S : Type}.

Class WorkerStore : Type := {
  claim_op : JobEnvelope -> S -> result error (option (ProcessingJob TData)) * S;
  complete_op : JobEnvelope -> TResult -> S -> result error () * S;
  fail_op : JobEnvelope -> JobErrorCode -> bool -> Q -> S -> result error (option JobState) * S
}.

(** [error instanceof JobProcessingError ? error : new
    JobProcessingError("JOB_FAILED", false)] *)
Definition failure_of (e : error) : JobErrorCode * bool * Q :=
  match e with
  | JobProcessingError c retryable ms => (c, retryable, ms)
  | _ => (JOB_FAILED, false, 0%Q)
  end.

(** [status ?? "obsolete"] *)
Definition job_outcome (st : option JobState) : JobOutcome :=
  match st with
  | None => job_obsolete
  | Some retrying => job_retrying
  | Some _ => job_failed
  end.

Context {store : WorkerStore}.
Context (processor : ProcessingJob TData -> S -> result error TResult * S).
Context (yield : S -> S) (durationMs : Q).

Definition execute (m : JobEnvelope) (s : S) : result error action * S * list MetricEvent :=
  let '(claimed, s1) := claim_op m s in
  let s2 := yield s1 in
  match claimed with
  | Err e => (Err e, s2, [])
  | Ok None => (Ok ack, s2, [])
  | Ok (Some job) =>
      let started := job_start (1 <? pj_attempt job) (pj_queueWaitTimeMs job) in
      let finally outcome := [started; job_end outcome durationMs] in
      let '(r, s3) := processor job s2 in
      let s4 := yield s3 in
      match r with
      | Err e =>
          let '(c, retryable, ms) := failure_of e in
          let '(rf, s5) := fail_op m c retryable ms s4 in
          let s6 := yield s5 in
          match rf with
          | Err e' => (Err e', s6, finally infrastructure_error)
          | Ok st =>
              (Ok (if decide (st = Some failed) then dead_letter else ack), s6,
               finally (job_outcome st))
          end
      | Ok response =>
          let '(rc, s5) := complete_op m response s4 in
          let s6 := yield s5 in
          match rc with
          | Err e' => (Err e', s6, finally infrastructure_error)
          | Ok _ => (Ok ack, s6, finally job_success)
          end
      end
  end.

(** ** RabbitMqJobWorker.loop *)

Context (stopped : S -> bool) (dispatch : S -> result error bool * S).

(** The [for] loop, [count] rounds left. *)
Fixpoint dispatch_batch (count : nat) (s : S) : result error () * S :=
  match count with
  | O => (Ok (), s)
  | Datatypes.S count' =>
      if stopped s then (Ok (), s)
      else
        let '(sent, s') := dispatch s in
        let s'' := yield s' in
        match sent with
        | Err e => (Err e, s'')
        | Ok false => (Ok (), s'')
        | Ok true => dispatch_batch count' s''
        end
  end.

Context (failure : S -> option error) (maintain_op : S -> result error () * S).

(** One round of the [while] loop up to the delay; [None] when the loop ends
    because the worker was stopped. *)
Definition loop_round (s : S) : option (result error ()) * S :=
  if stopped s then (None, s)
  else match failure s with
  | Some e => (Some (Err e), s)
  | None =>
      let '(r, s1) := maintain_op s in
      let s2 := yield s1 in
      match r with
      | Err e => (Some (Err e), s2)
      | Ok _ => let '(r', s3) := dispatch_batch 100 s2 in (Some r', s3)
      end
  end.

End Execute.
Arguments WorkerStore : clear implicits.

(** ** The store of the job system *)

(** What happened to a statement: executed and answered; executed but the
    answer never arrived; never executed. *)
Inductive io : Type := Served | Lost (e : error) | Refused (e : error).

Section System.
  Context {TData TResult : Type} (opts : JobStoreOptions).
  Context (hash_key : string -> string) (hash_data : TData -> string).
  Context (claim_io end_io : io).
  Abbreviation sys := (system TData TResult).
  Abbreviation sys_step := (step opts hash_key hash_data).

Definition answer {A} (f : io) (a : A) : result error A :=
  match f with Served => Ok a | Lost e | Refused e => Err e end.

Definition sys_claim (m : JobEnvelope) (s : sys) : result error (option (ProcessingJob TData)) * sys :=
  match claim_io with
  | Refused e => (Err e, s)
  | f =>
      let '(job, t) := claim opts (clock s) m (table s) in
      (answer f job,
       match job with
       | Some _ => mkSystem t (clock s) (broker s) (delivered s) (m :: running s) (settled s)
                     (used s) (m :: claims s)
       | None => mkSystem t (clock s) (broker s) (delivered s) (running s) (m :: settled s)
                   (used s) (claims s)
       end)
  end.

Definition without (m : JobEnvelope) (l : list JobEnvelope) : list JobEnvelope :=
  default l (take_out m l).

Definition sys_complete (m : JobEnvelope) (r : TResult) (s : sys) : result error () * sys :=
  match end_io with
  | Refused e => (Err e, s)
  | f => (answer f (), finish m (complete opts (clock s) m r (table s)) (without m (running s)) s)
  end.

Definition sys_fail (m : JobEnvelope) (c : JobErrorCode) (retryable : bool) (ms : Q) (s : sys) :
    result error (option JobState) * sys :=
  match end_io with
  | Refused e => (Err e, s)
  | f =>
      let '(st, t) := fail opts (clock s) m c retryable ms (table s) in
      (answer f st, finish m t (without m (running s)) s)
  end.

#[global] Instance SystemStore : WorkerStore TData TResult sys :=
  { claim_op := sys_claim; complete_op := sys_complete; fail_op := sys_fail }.

(** Each operation is a step of the system, or nothing. *)
Lemma sys_claim_step m s r s' :
  m ∈ delivered s -> sys_claim m s = (r, s') ->
  (s' = s /\ exists e, r = Err e) \/
  (exists l, sys_step s l s' /\
    match r with Ok None => m ∈ settled s' | Ok (Some _) => m ∈ running s' | Err _ => True end).
Proof.
  unfold sys_claim. intros Hm H. destruct claim_io as [|e|e];
    [| |left; simplify_eq; eauto]; right;
    (destruct (claim _ _ _ _) as [[job|] t] eqn:Hc; simplify_eq/=;
     [exists (Claim m); split; [by eapply step_claim|]; first [done|by left]
     |exists (Skip m); split; [by eapply step_skip|]; first [done|by left]]).
Qed.

Lemma without_take_out m l : m ∈ l -> take_out m l = Some (without m l).
Proof. intros [l' Hl]%take_out_in. unfold without. by rewrite Hl. Qed.

Lemma sys_complete_step m r s q s' :
  m ∈ running s -> sys_complete m r s = (q, s') ->
  (s' = s /\ exists e, q = Err e) \/
  (exists l, sys_step s l s' /\ m ∈ settled s').
Proof.
  unfold sys_complete. intros Hm H. destruct end_io as [|e|e];
    [| |left; simplify_eq; eauto]; right; simplify_eq/=;
    (eexists; split; [eapply step_complete; by apply without_take_out|by left]).
Qed.

Lemma sys_fail_step m c rt ms s q s' :
  m ∈ running s -> sys_fail m c rt ms s = (q, s') ->
  (s' = s /\ exists e, q = Err e) \/
  (exists l, sys_step s l s' /\ m ∈ settled s' /\
     forall st, q = Ok st -> st = (fail opts (clock s) m c rt ms (table s)).1 /\
       table s' = (fail opts (clock s) m c rt ms (table s)).2).
Proof.
  unfold sys_fail. intros Hm H. destruct end_io as [|e|e];
    [| |left; simplify_eq; eauto]; right;
    pose proof (step_fail opts hash_key hash_data s m c rt ms (without m (running s))) as Hs;
    (destruct (fail _ _ _ _ _ _ _) as [st t] eqn:Hf; simplify_eq/=;
     exists (Fail m c rt ms); split; [by apply Hs, without_take_out|];
     split; [by left|]; intros ? [= <-]; done).
Qed.

(** ** Execution as steps of the system *)

(** What the rest of the system does while this worker waits: steps, none of
    which ends this worker's attempt [m]. *)
Definition others_step (m : JobEnvelope) (s s' : sys) : Prop :=
  (exists ls, run sys_step s ls s') /\ (m ∈ running s -> m ∈ running s').

Definition leads (s s' : sys) : Prop := exists ls, run sys_step s ls s'.

Lemma leads_refl s : leads s s.
Proof. exists []. constructor. Qed.

Lemma leads_trans s1 s2 s3 : leads s1 s2 -> leads s2 s3 -> leads s1 s3.
Proof. intros [l1 H1] [l2 H2]. exists (l1 ++ l2). by eapply run_app. Qed.

Lemma leads_step s l s' : sys_step s l s' -> leads s s'.
Proof. intros H. exists [l]. eapply run_cons; [done|constructor]. Qed.

Lemma leads_inv s s' : 1 <= maxAttempts opts -> leads s s' -> inv opts s -> inv opts s'.
Proof. intros Ho [ls H]. by apply (inv_run opts hash_key hash_data Ho s ls). Qed.

Lemma leads_spent s s' m : leads s s' -> spent s m -> spent s' m.
Proof.
  intros [ls H]. revert H. apply (run_invariant _ (fun s => spent s m)). intros s1 l s2 H1 H2.
  apply (spent_change opts hash_key hash_data s1 s2); [exact (step_tables opts hash_key hash_data s1 l s2 H2)|done].
Qed.

(** Once failed, the job stays as it is. *)
Lemma leads_failed s s' id k :
  1 <= maxAttempts opts -> inv opts s -> leads s s' ->
  (exists row, table s !! id = Some row /\ status row = failed /\ attempts_made row = k) ->
  forall row, table s' !! id = Some row -> status row = failed /\ attempts_made row = k.
Proof.
  intros Ho Hinv [ls H] (row & Hrow & Hst & Hk) row' Hrow'.
  enough (row' = row) as -> by done.
  eapply (run_row opts hash_key hash_data Ho (fun r => r = row) s ls s' id); [|exact H| | |exact Hrow'].
  - intros now d r r' Hc ->. eapply change_terminal; [done|]. by rewrite Hst.
  - by apply (inv_rows _ _ Hinv _ _ Hrow).
  - congruence.
Qed.

Lemma fail_failed now m c rt ms (t : gmap string (JobRow TData TResult)) :
  (fail opts now m c rt ms t).1 = Some failed ->
  exists row, (fail opts now m c rt ms t).2 !! env_id m = Some row /\ status row = failed /\
    attempts_made row = env_attempt m.
Proof.
  unfold fail. destruct (t !! env_id m) as [row|] eqn:Hr; [|done].
  destruct (owns_attempt opts m row) eqn:Ho; [|done]. intros H. simpl in *.
  rewrite lookup_insert_eq. eexists. split; [done|]. simpl.
  apply owns_attempt_unfold in Ho as (Ha & _). split; [congruence|done].
Qed.

Section Safe.
  Context (m : JobEnvelope).
  Context (processor : ProcessingJob TData -> sys -> result error TResult * sys).
  Context (yield : sys -> sys) (durationMs : Q).
  Context (Hattempts : 1 <= maxAttempts opts).
  Context (Hyield : forall s, others_step m s (yield s)).
  Context (Hprocessor : forall job s, others_step m s (processor job s).2).

(** What the delivery may be settled on. *)
Definition safe_to_settle (a : action) (s : sys) : Prop :=
  spent s m /\
  (a = dead_letter -> forall row, table s !! env_id m = Some row ->
     status row = failed /\ attempts_made row = env_attempt m).

Lemma settled_safe s s' :
  inv opts s -> m ∈ settled s -> leads s s' -> safe_to_settle ack s'.
Proof.
  intros Hinv Hm Hl. split; [|done]. eapply leads_spent; [done|].
  apply (inv_spent _ _ Hinv). set_solver.
Qed.

Lemma execute_end_fail c rt ms s q s5 :
  inv opts s -> m ∈ running s -> sys_fail m c rt ms s = (q, s5) ->
  leads s (yield s5) /\
  forall st, q = Ok st ->
    safe_to_settle (if decide (st = Some failed) then dead_letter else ack) (yield s5).
Proof.
  intros Hinv Hm H. destruct (Hyield s5) as [Hy _].
  apply sys_fail_step in H as [(-> & e & ->)|(l & Hs & Hset & Hst)]; [|..|done].
  { split; [done|]. done. }
  apply leads_step in Hs. split; [by eapply leads_trans|]. intros st Hq.
  assert (inv opts s5) as Hinv5 by (by eapply leads_inv).
  pose proof (settled_safe s5 (yield s5) Hinv5 Hset Hy) as [Hsp _].
  split; [done|]. case_decide as Hd; [|done]. intros _.
  destruct (Hst _ Hq) as [H1 H2]. rewrite Hd in H1. symmetry in H1.
  apply fail_failed in H1 as (row & Hrow & Hf & Hk). rewrite <- H2 in Hrow.
  eapply leads_failed; [done|exact Hinv5|done|eauto].
Qed.

Lemma execute_end_complete r s q s5 :
  inv opts s -> m ∈ running s -> sys_complete m r s = (q, s5) ->
  leads s (yield s5) /\ (is_Ok q = true -> safe_to_settle ack (yield s5)).
Proof.
  intros Hinv Hm H. destruct (Hyield s5) as [Hy _].
  apply sys_complete_step in H as [(-> & e & ->)|(l & Hs & Hset)]; [done| |done].
  apply leads_step in Hs. split; [by eapply leads_trans|]. intros _.
  eapply settled_safe; [|done|done]. by eapply leads_inv.
Qed.

(** The whole of [execute]. *)
Lemma execute_steps s q s' ms :
  inv opts s -> m ∈ delivered s -> execute processor yield durationMs m s = (q, s', ms) ->
  leads s s' /\ forall a, q = Ok a -> safe_to_settle a s'.
Proof.
  intros Hinv Hm. unfold execute. simpl.
  destruct (sys_claim m s) as [rc s1] eqn:Hc. destruct (Hyield s1) as [Hy Hown].
  assert (leads s s1 /\ match rc with
    | Ok None => m ∈ settled s1 | Ok (Some _) => m ∈ running s1 | Err _ => True end) as [Hl1 Hrc].
  { apply sys_claim_step in Hc as [(-> & e & ->)|(l & Hs & Hr)]; [|..|done].
    - split; [apply leads_refl|done].
    - split; [by eapply leads_step|done]. }
  assert (leads s (yield s1)) as Hl2 by (by eapply leads_trans).
  destruct rc as [e|[job|]]; [by intros [= <- <- _]| |].
  2: { intros [= <- <- _]. split; [done|]. intros a [= <-].
       eapply settled_safe; [|done|done]. by eapply leads_inv. }
  destruct (processor job (yield s1)) as [rp s3] eqn:Hp.
  destruct (Hprocessor job (yield s1)) as [Hl3 Hown3]. rewrite Hp in Hl3, Hown3. simpl in *.
  destruct (Hyield s3) as [Hl4 Hown4].
  assert (leads s (yield s3)) as Hl by (eauto using leads_trans).
  assert (inv opts (yield s3)) as Hinv4 by (by eapply leads_inv).
  assert (m ∈ running (yield s3)) as Hrun by auto.
  destruct rp as [e|resp].
  - destruct (failure_of e) as [[c rt] msx]. destruct (sys_fail _ _ _ _ _) as [rf s5] eqn:Hf.
    destruct (execute_end_fail _ _ _ _ _ _ Hinv4 Hrun Hf) as [Hl5 Hsafe].
    destruct rf as [e'|st]; intros [= <- <- _];
      (split; [by eapply leads_trans|]); [done|]. intros a [= <-]. by apply Hsafe.
  - destruct (sys_complete _ _ _) as [rd s5] eqn:Hd.
    destruct (execute_end_complete _ _ _ _ Hinv4 Hrun Hd) as [Hl5 Hsafe].
    destruct rd as [e'|[]]; intros [= <- <- _];
      (split; [by eapply leads_trans|]); [done|]. intros a [= <-]. by apply Hsafe.
Qed.

End Safe.
End System.

(** ** One round of the dispatcher *)

(** The round as one process sees it: the table and the database clock.  The
    broker's answer to a message, the outcomes of the statements before and
    after it, the rows other dispatchers hold and the stop flag are arbitrary functions of
    the instant; every [await] lets time pass. *)
Section Round.
  Context {TData TResult : Type} (opts : JobStoreOptions).
  Context (broker : Q -> JobEnvelope -> result error ()) (begin commit : Q -> result error ())
          (locked : Q -> string -> bool) (stopped : Q -> bool) (tick : Q -> Q).
  Abbreviation table_t := (gmap string (JobRow TData TResult)).

Definition dispatch_now (s : table_t * Q) : result error bool * (table_t * Q) :=
  let '(r, t') := dispatchOne opts s.2 (locked s.2) (begin s.2) (fun m t => (broker s.2 m, t))
                    (commit s.2) s.1 in
  (r, (t', s.2)).

Definition maintain_now (s : table_t * Q) : result error () * (table_t * Q) :=
  (Ok (), (maintain opts s.2 s.2 id s.1, s.2)).

Definition wait_tick (s : table_t * Q) : table_t * Q := (s.1, tick s.2).

(** The message that starts the next attempt of a job. *)
Definition next_message (id : string) (row : JobRow TData TResult) : JobEnvelope :=
  mkEnvelope id (attempts_made row + 1).

(** At instant [n] the row of [id] is due and free. *)
Definition ready (t : table_t) (n : Q) (id : string) (row : JobRow TData TResult) : Prop :=
  t !! id = Some row /\ due opts n row = true /\ locked n id = false.

(** [sent], jobs with the instant of their publication, were all ready, each
    was confirmed by the broker and committed. *)
Definition confirmed (t : table_t) (sent : list (string * Q)) : Prop :=
  NoDup sent.*1 /\
  forall id n, (id, n) ∈ sent -> exists row, ready t n id row /\
    broker n (next_message id row) = Ok () /\ commit n = Ok ().

(** [t'] is [t] with the outbox flag of the jobs in [sent] cleared. *)
Definition cleared (t : table_t) (sent : list (string * Q)) (t' : table_t) : Prop :=
  forall id, t' !! id = if decide (id ∈ sent.*1) then clear_pending <$> t !! id else t !! id.

(** Nothing free is due. *)
Definition drained (t : table_t) (n : Q) : Prop :=
  forall id row, t !! id = Some row -> due opts n row = true -> locked n id = true.

(** A transaction that fails at [n] with [e]: it could not be opened, it had
    nothing to publish and could not be committed, or a job that is still due
    could not be published or committed. *)
Definition dispatch_error (t : table_t) (n : Q) (e : error) : Prop :=
  begin n = Err e \/ (drained t n /\ commit n = Err e) \/
  exists id row, ready t n id row /\
    (broker n (next_message id row) = Err e \/
     broker n (next_message id row) = Ok () /\ commit n = Err e).

(** Why a batch of [count] ends at [t'] and [now']: its budget is spent, the
    worker was stopped, nothing free was due at the last look, or a
    transaction failed. *)
Definition batch_end (count : nat) (sent : list (string * Q)) (r : result error ())
    (t' : table_t) (now' : Q) : Prop :=
  match r with
  | Ok _ =>
      length sent = count \/ stopped now' = true \/
      exists n, now' = tick n /\ drained t' n
  | Err e => exists n, now' = tick n /\ dispatch_error t' n e
  end.

Lemma due_clear_pending n (row : JobRow TData TResult) : due opts n (clear_pending row) = false.
Proof. unfold due. simpl. by rewrite andb_false_r. Qed.

(** A row that is ready once another's flag is cleared was ready before. *)
Lemma ready_clear t n id i row :
  ready (alter clear_pending id t) n i row -> i <> id /\ ready t n i row.
Proof.
  intros (Hi & Hd & Hl). destruct (decide (i = id)) as [->|Hne].
  - rewrite lookup_alter_eq in Hi. destruct (t !! id); simplify_eq/=.
    by rewrite due_clear_pending in Hd.
  - rewrite lookup_alter_ne in Hi by done. by repeat split.
Qed.

Lemma cleared_cons t id n sent t' :
  id ∉ sent.*1 -> cleared (alter clear_pending id t) sent t' -> cleared t ((id, n) :: sent) t'.
Proof.
  intros Hn H i. rewrite (H i). csimpl. destruct (decide (i = id)) as [->|Hne].
  - rewrite decide_False by done. rewrite decide_True by left. by rewrite lookup_alter_eq.
  - rewrite lookup_alter_ne by done. repeat case_decide; set_solver.
Qed.

Lemma confirmed_cons t id n row sent :
  ready t n id row -> broker n (next_message id row) = Ok () -> commit n = Ok () ->
  confirmed (alter clear_pending id t) sent -> (id ∉ sent.*1) /\ confirmed t ((id, n) :: sent).
Proof.
  intros Hr Hb Hc [Hnd H]. assert (id ∉ sent.*1) as Hn.
  { intros ([i k] & -> & Hin)%list_elem_of_fmap. destruct (H _ _ Hin) as (r & Hk & _).
    by destruct (ready_clear _ _ _ _ _ Hk). }
  split; [done|]. split; [by constructor|]. intros i k Hin.
  apply elem_of_cons in Hin as [[= -> ->]|Hin]; [by exists row|].
  destruct (H _ _ Hin) as (r & Hk & ?). exists r. split; [|done]. by eapply ready_clear.
Qed.

(** A call of [dispatchOne] publishes a ready job and clears its flag, finds
    none, or fails and changes nothing. *)
Lemma dispatch_now_spec t n :
  let '(r, s') := dispatch_now (t, n) in
  match r with
  | Ok false => s' = (t, n) /\ drained t n
  | Ok true => exists id row, ready t n id row /\ s' = (alter clear_pending id t, n) /\
      broker n (next_message id row) = Ok () /\ commit n = Ok ()
  | Err e => s' = (t, n) /\ dispatch_error t n e
  end.
Proof.
  unfold dispatch_now, dispatchOne, dispatch_error, next_message. cbn [fst snd].
  destruct (begin n) as [e|[]]; [by auto|].
  destruct (select_due opts n (locked n) t) as [[id row]|] eqn:Hs.
  - apply select_due_Some in Hs.
    destruct (broker n _) as [e|[]] eqn:Hb; [by eauto 9|].
    destruct (commit n) as [e|[]] eqn:Hc; by eauto 9.
  - pose proof (select_due_None _ _ _ _ Hs : drained t n) as Hd.
    destruct (commit n) as [e|[]]; auto.
Qed.

Lemma dispatch_batch_exact count t now :
  let '(r, (t', now')) := dispatch_batch wait_tick (fun s => stopped s.2) dispatch_now count (t, now) in
  exists sent, (length sent <= count)%nat /\ confirmed t sent /\ cleared t sent t' /\
    batch_end count sent r t' now'.
Proof.
  assert (forall t, confirmed t []) as Hc0.
  { intros. split; [constructor|]. by intros ? ? ?%elem_of_nil. }
  assert (forall t, cleared t [] t) as Hl0 by (intros ? ?; by rewrite decide_False by set_solver).
  revert t now. induction count as [|count IH]; intros t now; cbn [dispatch_batch].
  { exists []. repeat split; try apply Hc0; try apply Hl0; simpl; auto. }
  cbn [snd]. destruct (stopped now) eqn:Hst.
  { exists []. repeat split; try apply Hc0; try apply Hl0; simpl; auto with lia. }
  pose proof (dispatch_now_spec t now) as H. destruct (dispatch_now (t, now)) as [[e|[]] s'].
  - destruct H as [-> H]. exists []. cbn.
    split; [lia|]. split; [apply Hc0|]. split; [apply Hl0|]. by exists now.
  - destruct H as (id & row & Hr & -> & Hb & Hc). unfold wait_tick at 2. cbn [fst snd].
    specialize (IH (alter clear_pending id t) (tick now)).
    destruct (dispatch_batch _ _ _ _ _) as [r [t' now']].
    destruct IH as (sent & Hlen & Hconf & Hcl & Hend).
    destruct (confirmed_cons _ _ _ _ _ Hr Hb Hc Hconf) as [Hn Hconf'].
    exists ((id, now) :: sent). split; [simpl; lia|]. split; [done|].
    split; [by apply cleared_cons|].
    destruct r; [done|]. destruct Hend as [Hl|Hend]; [left; simpl; lia|by right].
  - destruct H as [-> H]. exists []. cbn. split; [lia|]. split; [apply Hc0|].
    split; [apply Hl0|]. right. right. by exists now.
Qed.

End Round.

(** ** The properties *)

(** C7: persist first, acknowledge second.  Whatever the database refuses or
    loses and whatever other workers do meanwhile, running [execute] on a
    delivered message takes the job system through its own steps only; and
    when it returns an action, the message is no longer needed: its job has
    reached at least this attempt.  A message is dead-lettered only when its
    job has failed for good at this attempt. *)
Theorem worker_settles_safely {TData TResult} opts hash_key hash_data claim_io end_io m
    (processor : ProcessingJob TData -> system TData TResult -> result error TResult * system TData TResult)
    yield durationMs s q s' ms :
  1 <= maxAttempts opts -> reachable opts hash_key hash_data s -> m ∈ delivered s ->
  (forall s, others_step opts hash_key hash_data m s (yield s)) ->
  (forall job s, others_step opts hash_key hash_data m s (processor job s).2) ->
  execute (store := SystemStore opts claim_io end_io) processor yield durationMs m s = (q, s', ms) ->
  reachable opts hash_key hash_data s' /\
  match q with
  | Err _ => True
  | Ok a =>
      spent s' m /\
      (a = dead_letter -> forall row, table s' !! env_id m = Some row ->
         status row = failed /\ attempts_made row = env_attempt m)
  end.
Proof.
  intros Ho Hr Hm Hy Hp He.
  destruct (execute_steps opts hash_key hash_data claim_io end_io m processor yield durationMs
    Ho Hy Hp s q s' ms (inv_reachable _ _ _ Ho _ Hr) Hm He) as [[ls Hl] Hs].
  split; [|destruct q; [done|by apply Hs]].
  destruct Hr as (t & ls0 & H0). exists t, (ls0 ++ ls). by eapply run_app.
Qed.

(** C32: which failures are retried.  When an attempt that still owns its row
    fails with provider error [e], the job is retried exactly if [e] is
    transient and attempts remain; polling will show the code of [e] itself
    for a final provider failure; and after a rejection by an open circuit
    the next attempt is not available before the circuit's own delay is
    over. *)
Theorem job_retry_policy {TData TResult} opts now m (t : gmap string (JobRow TData TResult)) row e :
  t !! env_id m = Some row -> owns_attempt opts m row = true ->
  let '(c, retryable, ms) := failure_of (processing_error e) in
  let '(st, t') := fail opts now m c retryable ms t in
  st = Some (if isRetryableProviderError e && (attempts_made row <? max_attempts row)
             then retrying else failed) /\
  exists row', t' !! env_id m = Some row' /\ error_code row' = Some (JobErrorCode_name c) /\
    (publicJobError (JobErrorCode_name c)).1 = c /\
    (forall p d, e = ProviderCircuitOpenError p d -> (now + d <= available_at row')%Q).
Proof.
  intros Hrow Ho.
  assert (forall c rt ms, fail opts now m c rt ms t =
    (Some (status (fail_row now (JobErrorCode_name c) rt ms row)),
     <[env_id m := fail_row now (JobErrorCode_name c) rt ms row]> t)) as Hfail.
  { intros c rt ms. unfold fail. by rewrite Hrow, Ho. }
  destruct (failure_of (processing_error e)) as [[c rt] ms] eqn:Hf. rewrite Hfail.
  assert (rt = isRetryableProviderError e) as ->.
  { unfold processing_error in Hf. destruct (isRetryableProviderError e) eqn:He;
      [by simplify_eq/=|by destruct e; simplify_eq/=]. }
  split; [done|]. eexists. rewrite lookup_insert_eq. split; [done|]. split; [done|].
  split; [apply publicJobError_known|].
  intros p d ->. simplify_eq/=. unfold retry_delay.
  destruct (Qmaxb_spec ms (Qminb 3600000 (inject_Z (backoff_ms row) *
    inject_Z (2 ^ Z.min (attempts_made row - 1) 30)))) as [H _]. lra.
Qed.


(** ** Concrete executions *)

Definition ex_delivered : list (label string string) := take 3 ex_claimed.
Definition ex_processor (r : result error string) :
    ProcessingJob string -> ex_state -> result error string * ex_state := fun _ s => (r, s).
Definition ex_execute (r : result error string) : result error action * ex_state * list MetricEvent :=
  execute (store := SystemStore ex_opts Served Served) (ex_processor r) id 5 (mkEnvelope "a" 1)
    (ex_after ex_delivered).

Lemma others_step_refl m (s : ex_state) : others_step ex_opts ex_hash ex_hash m s s.
Proof. split; [exists []; constructor|done]. Qed.

Lemma worker_settles_safely_witness :
  (ex_execute (Err (PlainError "bug"))).1.1 = Ok dead_letter /\
  forall row, table (ex_execute (Err (PlainError "bug"))).1.2 !! "a" = Some row ->
    status row = failed /\ attempts_made row = 1.
Proof.
  destruct (worker_settles_safely ex_opts ex_hash ex_hash Served Served (mkEnvelope "a" 1)
    (ex_processor (Err (PlainError "bug"))) id 5 (ex_after ex_delivered) (Ok dead_letter)
    (ex_execute (Err (PlainError "bug"))).1.2 (ex_execute (Err (PlainError "bug"))).2
    ex_attempts (ex_after_reachable ex_delivered ltac:(by vm_compute))
    ltac:(apply (bool_decide_unpack _); by vm_compute)
    (others_step_refl _) (fun _ => others_step_refl _) ltac:(by vm_compute)) as (_ & _ & H).
  split; [by vm_compute|]. exact (H eq_refl).
Defined.

Lemma job_retry_policy_witness :
  (fail ex_opts 7 (mkEnvelope "a" 1) PROVIDER_CIRCUIT_OPEN true 9000
     (table (ex_after ex_claimed))).1 = Some retrying.
Proof.
  exact (proj1 (job_retry_policy ex_opts 7 (mkEnvelope "a" 1) (table (ex_after ex_claimed))
    (ex_job ex_claimed) (ProviderCircuitOpenError "ollama" 9000)
    (ex_job_lookup ex_claimed ltac:(by vm_compute)) ltac:(by vm_compute))).
Defined.

(** Two due jobs; the broker refuses the second. *)
Definition ex_due : gmap string (JobRow string string) :=
  {[ "a" := ex_row "alice" queued 0; "b" := ex_row "bob" queued 1 ]}.
Definition ex_refusal : error := PlainError "refused".
Definition ex_broker (_ : Q) (m : JobEnvelope) : result error () :=
  if String.eqb (env_id m) "b" then Err ex_refusal else Ok ().
Definition ex_round : option (result error ()) * (gmap string (JobRow string string) * Q) :=
  loop_round (wait_tick (fun n => n + 1)%Q) (fun _ => false)
    (dispatch_now ex_opts ex_broker (fun _ => Ok ()) (fun _ => Ok ()) (fun _ _ => false)) (fun _ => None)
    (maintain_now ex_opts) (ex_due, 5%Q).


End JobWorker.
