(* ===== verification/Lease.v ===== *)
(** * What a lease protects

    An attempt that ends before its lease does is recorded: while the lease
    lasts, nothing that other workers, the maintenance or the broker do
    touches the row of the job, so the statement that ends the attempt finds
    the row it claimed ([claim], [complete] and [maintain] of
    [src/src/queue/postgres-job-store.ts], [execute] of
    [src/src/queue/rabbitmq.ts]). *)

From S2P Require Import Prelude Errors Chat JobStore JobSystem JobWorker.
Import Errors Chat Telemetry JobStore JobSystem JobWorker.

Module Lease.

Section Held.
  Context {TData TResult : Type} (opts : JobStoreOptions).
  Context (hash_key : string -> string) (hash_data : TData -> string).
  Context (Hopts : 1 <= maxAttempts opts).
  Abbreviation sys := (system TData TResult).
  Abbreviation sys_step := (step opts hash_key hash_data).

(** Every attempt in execution was claimed, and no claim is executed twice. *)
Definition running_claimed (s : sys) : Prop := running s ⊆+ claims s.

Lemma running_claimed_step (s : sys) l s' : running_claimed s -> sys_step s l s' -> running_claimed s'.
Proof.
  unfold running_claimed. intros H Hs.
  destruct Hs as [| | | | |s m job t Hm Hc| |s m r run Hm|s m code rt ra run Hm|s m run Hm| | | |];
    simpl; try done; [by apply submseteq_skip|..];
    apply take_out_perm in Hm; etrans; [|exact H| |exact H| |exact H]; rewrite Hm; by apply submseteq_cons.
Qed.

Lemma running_claimed_run s ls s' : running_claimed s -> run sys_step s ls s' -> running_claimed s'.
Proof. intros H Hr. revert Hr H. apply run_invariant. intros ? ? ? ? ?. by eapply running_claimed_step. Qed.

Lemma running_claimed_reachable s : reachable opts hash_key hash_data s -> running_claimed s.
Proof. intros (t & ls & H). eapply running_claimed_run; [|exact H]. apply submseteq_nil_l. Qed.

Lemma running_once (s : sys) : inv opts s -> running_claimed s -> NoDup (running s).
Proof.
  intros Hi [k Hk]%submseteq_Permutation. pose proof (inv_claims _ _ Hi) as Hn. rewrite Hk in Hn.
  by apply NoDup_app in Hn as [? _].
Qed.

(** The attempt that ends leaves [running]. *)
Lemma taken_out_gone m l l' : NoDup l -> take_out m l = Some l' -> m ∉ l'.
Proof. intros Hn Hp%take_out_perm. rewrite Hp in Hn. by apply NoDup_cons in Hn as [? _]. Qed.

(** An attempt that has left [running] does not come back. *)
Lemma ended_stays (s : sys) l s' m :
  inv opts s -> sys_step s l s' -> m ∈ claims s -> m ∉ running s -> m ∉ running s'.
Proof.
  intros Hi Hs Hc Hn. pose proof (step_claims opts hash_key hash_data s l s' Hi Hs) as [Hnd _].
  destruct Hs as [| | | | |s x job t Hx Hcl| |s x r run Hx|s x code rt ra run Hx|s x run Hx| | | |];
    simpl in *; try done.
  - apply NoDup_cons in Hnd as [Hnd _]. intros [->|?]%elem_of_cons; done.
  - intros Hm. apply Hn. by eapply take_out_subset.
  - intros Hm. apply Hn. by eapply take_out_subset.
  - intros Hm. apply Hn. by eapply take_out_subset.
Qed.

Lemma ended_stays_run (s : sys) ls s' m :
  inv opts s -> run sys_step s ls s' -> m ∈ claims s -> m ∉ running s -> m ∉ running s'.
Proof.
  intros Hi Hr. revert Hi. induction Hr as [|s l s1 ls s2 Hs _ IH]; [done|]. intros Hi Hc Hn.
  apply IH; [by eapply inv_step| |by eapply ended_stays].
  destruct Hs; simpl; try done. by right.
Qed.

(** ** The row of an attempt under lease *)

Record held (m : JobEnvelope) (until : Q) (row : JobRow TData TResult) : Prop := {
  held_status : status row = active;
  held_attempt : attempts_made row = env_attempt m;
  held_queue : queue_name row = name opts;
  held_lease : lease_until row = Some until
}.

Lemma held_not_waiting m until row : held m until row -> waiting (status row) = false.
Proof. intros H. by rewrite (held_status _ _ _ H). Qed.

(** Another attempt does not own the row. *)
Lemma owner_is m until row m' :
  held m until row -> env_id m' = env_id m -> owns_attempt opts m' row = true -> m' = m.
Proof.
  intros H Hid (Ha & _)%owns_attempt_unfold. rewrite (held_attempt _ _ _ H) in Ha.
  destruct m, m'. simpl in *. by subst.
Qed.

Lemma complete_other now m until row m' r t :
  t !! env_id m = Some row -> held m until row -> m' <> m ->
  complete opts now m' r t !! env_id m = Some row.
Proof.
  intros Ht H Hne. unfold complete. destruct (t !! env_id m') as [row'|] eqn:E; [|done].
  destruct (owns_attempt opts m' row') eqn:Ho; [|done].
  destruct (decide (env_id m' = env_id m)) as [Hid|Hid]; [|by rewrite lookup_insert_ne].
  rewrite Hid in E. simplify_eq. by destruct Hne; eapply owner_is.
Qed.

Lemma fail_other now m until row m' c rt ra t :
  t !! env_id m = Some row -> held m until row -> m' <> m ->
  (fail opts now m' c rt ra t).2 !! env_id m = Some row.
Proof.
  intros Ht H Hne. unfold fail. destruct (t !! env_id m') as [row'|] eqn:E; [|done].
  destruct (owns_attempt opts m' row') eqn:Ho; [|done].
  destruct (decide (env_id m' = env_id m)) as [Hid|Hid]; [|simpl; by rewrite lookup_insert_ne].
  rewrite Hid in E. simplify_eq. by destruct Hne; eapply owner_is.
Qed.

Lemma expire_held now m until row (t : gmap string (JobRow TData TResult)) :
  t !! env_id m = Some row -> held m until row -> (now <= until)%Q ->
  expire_leases opts now t !! env_id m = Some row.
Proof.
  intros Ht H Hn. unfold expire_leases. rewrite lookup_fmap, Ht. simpl. f_equal.
  destruct (expired opts now row) eqn:E; [|done].
  apply expired_unfold in E as (_ & _ & l & Hl & Hlt). rewrite (held_lease _ _ _ H) in Hl.
  simplify_eq. lra.
Qed.

(** While the attempt is in execution and its lease lasts, every step of the
    rest of the system leaves the row alone. *)
Lemma held_step (s : sys) l s' m until row :
  inv opts s -> running_claimed s -> sys_step s l s' -> m ∈ running s -> m ∈ running s' ->
  table s !! env_id m = Some row -> held m until row -> (clock s <= until)%Q ->
  table s' !! env_id m = Some row.
Proof.
  intros Hi Hrc Hs Hm Hm' Ht H Hc. pose proof (running_once s Hi Hrc) as Hnd.
  destruct (inv_rows _ _ Hi _ _ Ht) as [Hu Hok]. pose proof (held_not_waiting _ _ _ H) as Hnw.
  destruct Hs as [s id sub row' t Hid Hj|s locked id row' t Hsel Hd|s locked id row' e t Hsel Hd
    |s x b Hx|s x d Hx|s x job t Hx Hcl|s x t Hx Hcl|s x r run Hx|s x code rt ra run Hx|s x run Hx
    |s x st d Hst Hx|s|s|s t Hle]; simpl in *; try done.
  - apply insert_job_Ok in Hj as [[-> ->]|(_ & -> & _)]; [done|].
    rewrite lookup_insert_ne; [done|]. by intros ->.
  - unfold dispatchOne in Hd. rewrite Hsel in Hd. simpl in Hd. simplify_eq.
    apply select_due_Some in Hsel as (Hr & (_ & _ & Hw & _)%due_unfold & _).
    rewrite lookup_alter_ne; [done|]. intros ->. congruence.
  - unfold dispatchOne in Hd. rewrite Hsel in Hd. simpl in Hd. by simplify_eq.
  - apply claim_Some in Hcl as (row' & Hr & (_ & Hw & _)%claimable_unfold & ->).
    rewrite lookup_insert_ne; [done|]. intros Heq. rewrite Heq in Hr. congruence.
  - assert (t = table s) as -> by (unfold claim in Hcl; by repeat case_match; simplify_eq). done.
  - eapply complete_other; [done|done|]. intros ->. by eapply taken_out_gone in Hx.
  - eapply fail_other; [done|done|]. intros ->. by eapply taken_out_gone in Hx.
  - by eapply expire_held.
  - unfold delete_finished. rewrite map_lookup_filter_Some. split; [done|]. simpl. unfold stale.
    destruct (ro_active _ _ _ Hok (held_status _ _ _ H)) as (_ & _ & ->). apply andb_false_r.
Qed.

Lemma held_run (s : sys) ls s' m until row :
  inv opts s -> running_claimed s -> run sys_step s ls s' -> m ∈ running s -> m ∈ running s' ->
  table s !! env_id m = Some row -> held m until row -> (clock s' <= until)%Q ->
  table s' !! env_id m = Some row.
Proof.
  intros Hi Hrc Hr. revert Hi Hrc. induction Hr as [|s l s1 ls s2 Hs Hr IH]; [done|].
  intros Hi Hrc Hm Hm' Ht H Hc.
  assert (inv opts s1) as Hi1 by (by eapply inv_step).
  assert (running_claimed s1) as Hrc1 by (by eapply running_claimed_step).
  destruct (run_tables opts hash_key hash_data Hopts s1 ls s2 Hr) as [_ Hle].
  destruct (step_tables opts hash_key hash_data s l s1 Hs) as (_ & Hle0 & _).
  assert (m ∈ claims s1) as Hcl.
  { assert (m ∈ claims s) as Hm0 by (eapply elem_of_submseteq; [exact Hm|exact Hrc]). destruct Hs; simpl; try done. by right. }
  assert (m ∈ running s1) as Hm1.
  { destruct (decide (m ∈ running s1)) as [|Hn]; [done|].
    by pose proof (ended_stays_run s1 ls s2 m Hi1 Hr Hcl Hn). }
  apply IH; try done. apply (held_step s l s1 m until row); try done. lra.
Qed.

(** ** The execution of a claimed attempt *)

Context (claim_io : io) (m : JobEnvelope).
Context (processor : ProcessingJob TData -> sys -> result error TResult * sys).
Context (yield : sys -> sys) (durationMs : Q).
Context (Hyield : forall s, others_step opts hash_key hash_data m s (yield s)).
Context (Hprocessor : forall job s, others_step opts hash_key hash_data m s (processor job s).2).

Lemma others_step_trans (s1 s2 s3 : sys) :
  others_step opts hash_key hash_data m s1 s2 -> others_step opts hash_key hash_data m s2 s3 ->
  others_step opts hash_key hash_data m s1 s3.
Proof. intros [H1 Hr1] [H2 Hr2]. split; [by eapply leads_trans|auto]. Qed.

(** When the processor is done, the row is the one that was claimed. *)
Lemma claimed_row s job s1 :
  inv opts s -> running_claimed s -> m ∈ delivered s ->
  sys_claim opts claim_io m s = (Ok (Some job), s1) ->
  let s4 := yield (processor job (yield s1)).2 in
  (clock s4 <= clock s + inject_Z (leaseMs opts))%Q ->
  m ∈ running s4 /\ exists row, table s4 !! env_id m = Some row /\ owns_attempt opts m row = true.
Proof.
  intros Hi Hrc Hd Hcl s4 Hc. unfold sys_claim in Hcl.
  assert (claim opts (clock s) m (table s) = (Some job, table s1) /\ running s1 = m :: running s /\
    sys_step s (Claim m) s1) as (Hclaim & Hrun & Hstep).
  { destruct claim_io; [|by destruct (claim _ _ _ _)|done].
    destruct (claim opts (clock s) m (table s)) as [[j|] t] eqn:E; simplify_eq/=.
    split; [done|]. split; [done|]. by eapply step_claim. }
  assert (inv opts s1) as Hi1 by (by eapply inv_step).
  assert (running_claimed s1) as Hrc1 by (by eapply running_claimed_step).
  assert (others_step opts hash_key hash_data m s1 s4) as [[ls Hls] Hkeep].
  { eapply others_step_trans; [apply Hyield|]. eapply others_step_trans; [apply Hprocessor|apply Hyield]. }
  assert (m ∈ running s1) as Hm1 by (rewrite Hrun; left).
  apply claim_Some in Hclaim as (row & Hrow & (Hq & _ & _)%claimable_unfold & Ht).
  split; [by apply Hkeep|]. exists (claim_row opts (clock s) m row). split.
  - eapply (held_run s1 ls s4 m _ _ Hi1 Hrc1 Hls Hm1 (Hkeep Hm1)); [by rewrite Ht, lookup_insert_eq| |exact Hc].
    by split.
  - unfold owns_attempt. simpl. rewrite Z.eqb_refl, Hq, String.eqb_refl. done.
Qed.

End Held.

(** ** The properties *)

(** C14: an attempt that ends within its lease is recorded.  Whatever other
    workers, the maintenance and the broker do meanwhile, if a worker claims
    an attempt and its processor answers before the lease ends, and the
    database serves both statements, the claim and the completion, the answer
    is stored as the job's result and stays it: the message is acknowledged, the
    job is completed with exactly this answer, and whoever polls it later sees
    nothing else. *)
Theorem prompt_attempt_recorded {TData TResult} opts hash_key hash_data m
    (processor : ProcessingJob TData -> system TData TResult -> result error TResult * system TData TResult)
    yield durationMs s job s1 response s3 :
  1 <= maxAttempts opts -> reachable opts hash_key hash_data s -> m ∈ delivered s ->
  (forall s, others_step opts hash_key hash_data m s (yield s)) ->
  (forall job s, others_step opts hash_key hash_data m s (processor job s).2) ->
  sys_claim opts Served m s = (Ok (Some job), s1) -> processor job (yield s1) = (Ok response, s3) ->
  (clock (yield s3) <= clock s + inject_Z (leaseMs opts))%Q ->
  exists s' ms,
    execute (store := SystemStore opts Served Served) processor yield durationMs m s = (Ok ack, s', ms) /\
    job_end job_success durationMs ∈ ms /\
    forall row, table s' !! env_id m = Some row -> status row = completed /\ JobStore.response row = Some response.
Proof.
  intros Ho Hr Hd Hy Hp Hcl Hpr Hc. pose proof (inv_reachable opts hash_key hash_data Ho s Hr) as Hi.
  destruct (claimed_row opts hash_key hash_data Ho Served m processor yield Hy Hp s job s1 Hi
    (running_claimed_reachable opts hash_key hash_data s Hr) Hd Hcl) as (Hrun & row & Hrow & Hown);
    rewrite Hpr in *; [done|]. cbn [snd] in *.
  unfold execute. cbn [claim_op complete_op fail_op SystemStore]. rewrite Hcl, Hpr.
  unfold sys_complete. cbn [answer]. eexists _, _. split; [reflexivity|]. split; [set_solver|].
  set (s4 := yield s3) in *.
  set (s5 := finish m (complete opts (clock s4) m response (table s4)) (without m (running s4)) s4).
  assert (inv opts s4) as Hi4.
  { assert (leads opts hash_key hash_data s s1) as Hl1.
    { apply sys_claim_step with (hash_key := hash_key) (hash_data := hash_data) in Hcl
        as [(_ & e & ?)|(l & Hs & _)]; [done| |done]. by eapply leads_step. }
    destruct (Hy s1) as [Hl2 _], (Hp job (yield s1)) as [Hl3 _], (Hy s3) as [Hl4 _].
    rewrite Hpr in Hl3. eapply leads_inv; [done| |exact Hi]. eauto using leads_trans. }
  assert (step opts hash_key hash_data s4 (Complete m response) s5) as Hs5.
  { apply step_complete. by apply without_take_out. }
  assert (table s5 !! env_id m = Some (complete_row (clock s4) response row)) as Hrow5.
  { cbn. unfold complete. rewrite Hrow, Hown. apply lookup_insert_eq. }
  destruct (Hy s5) as [[ls Hls] _]. intros row' Hrow'.
  enough (row' = complete_row (clock s4) response row) as -> by done.
  eapply (run_row opts hash_key hash_data Ho (fun r => r = complete_row (clock s4) response row) s5 ls _ (env_id m));
    [|exact Hls| | |exact Hrow'].
  - intros now d r r' Hch ->. by eapply change_terminal.
  - by apply (inv_rows _ _ Hi4 _ _ Hrow).
  - congruence.
Qed.

(** ** A concrete attempt *)

Lemma prompt_attempt_recorded_witness :
  exists s' ms, ex_execute (Ok "answer") = (Ok ack, s', ms) /\
    forall row, table s' !! "a" = Some row -> status row = completed /\ response row = Some "answer".
Proof.
  destruct (prompt_attempt_recorded ex_opts ex_hash ex_hash (mkEnvelope "a" 1) (ex_processor (Ok "answer")) id 5
    (ex_after ex_delivered)
    (default (mkProcessing (mkReceipt EmptyString EmptyString) EmptyString EmptyString 0 None)
       (claim ex_opts (clock (ex_after ex_delivered)) (mkEnvelope "a" 1) (table (ex_after ex_delivered))).1)
    (sys_claim ex_opts Served (mkEnvelope "a" 1) (ex_after ex_delivered)).2 "answer"
    (sys_claim ex_opts Served (mkEnvelope "a" 1) (ex_after ex_delivered)).2
    ex_attempts (ex_after_reachable ex_delivered ltac:(by vm_compute))
    ltac:(apply (bool_decide_unpack _); by vm_compute)
    (others_step_refl _) (fun _ => others_step_refl _) ltac:(by vm_compute) ltac:(reflexivity) ltac:(by vm_compute))
    as (s' & ms & H & _ & Hrow).
  exists s', ms. split; [exact H|exact Hrow].
Defined.

End Lease.
