(* ===== verification/JobAnswers.v ===== *)
(** * Whose answer a polled job carries

    The asynchronous path from end to end: a submission through
    [src/src/routes/jobs.ts], the life of its row in
    [src/src/queue/postgres-job-store.ts], its execution by the workers of
    [src/src/queue/rabbitmq.ts] with the processor of
    [src/src/jobs/inference-processor.ts], and the poll that returns the
    answer.  A history is honest when every result that is stored was
    produced for the data of the job it is stored in; the theorem is that
    workers keep histories honest, and that in an honest history a poll only
    returns an answer produced for what its own tenant submitted. *)

From S2P Require Import Prelude Errors Chat JobStore JobSystem JobWorker.
Import Errors Chat Telemetry JobStore JobSystem JobWorker.

Module JobAnswers.

Section Honest.
  Context {TData TResult : Type} (opts : JobStoreOptions).
  Context (hash_key : string -> string) (hash_data : TData -> string).
  (** an answer that was given to this data *)
  Context (produced : TData -> TResult -> Prop).
  Abbreviation sys := (system TData TResult).
  Abbreviation row_t := (JobRow TData TResult).
  Abbreviation sys_step := (step opts hash_key hash_data).
  Abbreviation label := (JobSystem.label TData TResult).

Definition honest (s : sys) (l : label) : Prop :=
  match l with
  | Complete m r => forall row, table s !! env_id m = Some row -> produced (data row) r
  | _ => True
  end.

Definition honest_step (s : sys) (l : label) (s' : sys) : Prop := sys_step s l s' /\ honest s l.

(** The submissions of a history, with the identifier each was offered. *)
Definition submitted (ls : list label) : list (string * JobSubmission TData) :=
  omap (fun l => match l with Submit id sub => Some (id, sub) | _ => None end) ls.

(** ** What a step does to answers *)

(** The same job, and the same answer or lack of one. *)
Definition same_answer (row row' : row_t) : Prop :=
  owner_id row' = owner_id row /\ request_id row' = request_id row /\ data row' = data row /\
  response row' = response row.

Inductive row_from (s : sys) (l : label) (id : string) (row' : row_t) : Prop :=
| from_row row : table s !! id = Some row -> same_answer row row' -> row_from s l id row'
| from_result row m r :
    table s !! id = Some row -> l = Complete m r -> env_id m = id ->
    owner_id row' = owner_id row -> request_id row' = request_id row -> data row' = data row ->
    response row' = Some r -> row_from s l id row'
| from_submission sub :
    l = Submit id sub -> owner_id row' = sub_ownerId sub -> request_id row' = sub_requestId sub ->
    data row' = sub_data sub -> response row' = None -> row_from s l id row'.

Lemma from_same s l id row : table s !! id = Some row -> row_from s l id row.
Proof. intros H. by apply (from_row _ _ _ _ row). Qed.

Lemma from_insert s l id k (row row' : row_t) row1 :
  table s !! k = Some row -> same_answer row row1 ->
  <[k := row1]> (table s) !! id = Some row' -> row_from s l id row'.
Proof.
  intros Hk Hs [[<- <-]|[_ H]]%lookup_insert_Some; [by eapply from_row|by apply from_same].
Qed.

Lemma step_answers s l s' id row' :
  sys_step s l s' -> table s' !! id = Some row' -> row_from s l id row'.
Proof.
  destruct 1 as [s i sub row t Hid Hj|s locked i row t Hsel Hd|s locked i row e t Hsel Hd
    |s x b Hx|s x d Hx|s x job t Hx Hcl|s x t Hx Hcl|s x r run Hx|s x code rt ra run Hx|s x run Hx
    |s x st d Hst Hx|s|s|s t Hle]; simpl; try apply from_same.
  - apply insert_job_Ok in Hj as [[-> ->]|(_ & -> & _)]; [apply from_same|].
    intros [[<- <-]|[_ H]]%lookup_insert_Some; [by eapply from_submission|by apply from_same].
  - unfold dispatchOne in Hd. rewrite Hsel in Hd. simpl in Hd. simplify_eq.
    intros [(<- & r & Hr & ->)|[_ H]]%lookup_alter_Some; [by eapply from_row|by apply from_same].
  - unfold dispatchOne in Hd. rewrite Hsel in Hd. simpl in Hd. simplify_eq. apply from_same.
  - apply claim_Some in Hcl as (row & Hr & _ & ->). by eapply from_insert.
  - assert (t = table s) as -> by (unfold claim in Hcl; by repeat case_match; simplify_eq). apply from_same.
  - unfold complete. destruct (table s !! env_id x) as [row|] eqn:E; [|apply from_same].
    destruct (owns_attempt opts x row); [|apply from_same].
    intros [[<- <-]|[_ H]]%lookup_insert_Some; [by eapply from_result|by apply from_same].
  - unfold fail. destruct (table s !! env_id x) as [row|] eqn:E; [|apply from_same].
    destruct (owns_attempt opts x row); [|apply from_same]. by eapply from_insert.
  - unfold expire_leases. rewrite lookup_fmap. intros (row & Hr & ->)%fmap_Some.
    apply (from_row _ _ _ _ row); [done|]. by destruct (expired _ _ _).
  - intros [H _]%map_lookup_filter_Some. by apply from_same.
Qed.

(** ** The history of a row *)

(** Every row is a submission's, and its answer was produced for it. *)
Definition genuine (ls : list label) (s : sys) : Prop :=
  forall id row, table s !! id = Some row ->
    (exists sub, (id, sub) ∈ submitted ls /\ owner_id row = sub_ownerId sub /\
       request_id row = sub_requestId sub /\ data row = sub_data sub) /\
    forall r, response row = Some r -> produced (data row) r.

Lemma submitted_app ls ls' : submitted (ls ++ ls') = submitted ls ++ submitted ls'.
Proof. apply omap_app. Qed.

Lemma genuine_step ls s l s' : genuine ls s -> honest_step s l s' -> genuine (ls ++ [l]) s'.
Proof.
  intros Hg [Hs Hh] id row' Hrow'. rewrite submitted_app.
  destruct (step_answers s l s' id row' Hs Hrow')
    as [row Hrow (Ho & Hq & Hd & Hr)|row m r Hrow -> <- Ho Hq Hd Hr|sub -> Ho Hq Hd Hr].
  - destruct (Hg _ _ Hrow) as [(sub & Hsub & ?) Hp]. rewrite Ho, Hq, Hd, Hr. split; [|done].
    exists sub. rewrite elem_of_app. auto.
  - destruct (Hg _ _ Hrow) as [(sub & Hsub & ?) Hp]. rewrite Ho, Hq, Hd, Hr. split.
    + exists sub. rewrite elem_of_app. auto.
    + intros x [= <-]. by apply Hh.
  - split; [|by rewrite Hr]. exists sub. rewrite elem_of_app. split; [right; by left|done].
Qed.

Lemma genuine_run ls s ls' s' :
  genuine ls s -> run honest_step s ls' s' -> genuine (ls ++ ls') s'.
Proof.
  intros Hg Hr. revert ls Hg. induction Hr as [|s l s1 ls' s2 Hs _ IH]; intros ls Hg.
  { by rewrite app_nil_r. }
  change (l :: ls') with ([l] ++ ls'). rewrite app_assoc. apply IH. by eapply genuine_step.
Qed.

Lemma genuine_start t : genuine [] (start t).
Proof. intros id row H. cbn in H. by rewrite lookup_empty in H. Qed.

Lemma honest_run_step s ls s' : run honest_step s ls s' -> run sys_step s ls s'.
Proof. induction 1 as [|s l s1 ls s2 [Hs _] _ IH]; [constructor|by econstructor]. Qed.

(** ** Workers keep histories honest *)

Definition honest_leads (s s' : sys) : Prop := exists ls, run honest_step s ls s'.

Lemma honest_refl s : honest_leads s s.
Proof. exists []. constructor. Qed.

Lemma honest_trans s1 s2 s3 : honest_leads s1 s2 -> honest_leads s2 s3 -> honest_leads s1 s3.
Proof. intros [l1 H1] [l2 H2]. exists (l1 ++ l2). by eapply run_app. Qed.

Lemma honest_one s l s' : sys_step s l s' -> honest s l -> honest_leads s s'.
Proof. intros Hs Hh. exists [l]. eapply run_cons; [by split|constructor]. Qed.

Lemma honest_leads_step s s' : honest_leads s s' -> leads opts hash_key hash_data s s'.
Proof. intros [ls H]. exists ls. by apply honest_run_step. Qed.

(** What may happen while a worker awaits: anything honest, by anyone else. *)
Definition meanwhile (m : JobEnvelope) (s s' : sys) : Prop :=
  honest_leads s s' /\ (m ∈ running s -> m ∈ running s').

Context (Hopts : 1 <= maxAttempts opts).
Context (claim_io end_io : io) (m : JobEnvelope).
Context (processor : ProcessingJob TData -> sys -> result error TResult * sys).
Context (yield : sys -> sys) (durationMs : Q).
Context (Hyield : forall s, meanwhile m s (yield s)).
Context (Hprocessor : forall job s, meanwhile m s (processor job s).2).
Context (Hproduced : forall job s r, (processor job s).1 = Ok r -> produced (pj_data job) r).

(** A claim is honest, and hands the worker the data of the row. *)
Lemma claim_honest s rc s1 :
  inv opts s -> m ∈ delivered s -> sys_claim opts claim_io m s = (rc, s1) ->
  honest_leads s s1 /\
  forall job, rc = Ok (Some job) -> m ∈ running s1 /\ env_id m ∈ used s1 /\
    forall row, table s1 !! env_id m = Some row -> data row = pj_data job.
Proof.
  intros Hi Hm Hc. unfold sys_claim in Hc.
  assert (forall t, claim opts (clock s) m (table s) = (None, t) -> sys_step s (Skip m)
    (mkSystem t (clock s) (broker s) (delivered s) (running s) (m :: settled s) (used s) (claims s))) as Hskip
    by (intros t Ht; by apply step_skip).
  assert (forall job t, claim opts (clock s) m (table s) = (Some job, t) -> sys_step s (Claim m)
    (mkSystem t (clock s) (broker s) (delivered s) (m :: running s) (settled s) (used s) (m :: claims s))) as Hclaim
    by (intros job t Ht; by eapply step_claim).
  destruct claim_io as [|e|e]; [| |simplify_eq; split; [apply honest_refl|done]];
    (destruct (claim opts (clock s) m (table s)) as [[job|] t] eqn:E; simplify_eq/=;
     [|split; [apply (honest_one _ (Skip m)); [by apply Hskip|done]|done]]);
    (split; [apply (honest_one _ (Claim m)); [by eapply Hclaim|done]|]); [|done].
  intros j [= <-]. split; [by left|]. unfold claim in E.
  destruct (table s !! env_id m) as [row|] eqn:Hrow; [|done].
  destruct (claimable opts (clock s) m row); [|done]. injection E as <- <-. split.
  - by apply (inv_rows _ _ Hi _ _ Hrow).
  - intros row'. rewrite lookup_insert_eq. by intros [= <-].
Qed.

Lemma fail_honest c rt msx s q s' :
  m ∈ running s -> sys_fail opts end_io m c rt msx s = (q, s') -> honest_leads s s'.
Proof.
  intros Hm%without_take_out H. unfold sys_fail in H.
  pose proof (step_fail opts hash_key hash_data s m c rt msx _ Hm) as Hs.
  destruct (fail opts (clock s) m c rt msx (table s)) as [st t].
  destruct end_io as [|e|e]; simplify_eq/=; try apply honest_refl;
    by apply (honest_one _ (Fail m c rt msx)).
Qed.

Lemma complete_honest r s q s' :
  m ∈ running s -> (forall row, table s !! env_id m = Some row -> produced (data row) r) ->
  sys_complete opts end_io m r s = (q, s') -> honest_leads s s'.
Proof.
  intros Hm%without_take_out Hr H. unfold sys_complete in H.
  pose proof (step_complete opts hash_key hash_data s m r _ Hm) as Hs.
  destruct end_io as [|e|e]; simplify_eq/=; try apply honest_refl;
    by apply (honest_one _ (Complete m r)).
Qed.

Lemma execute_honest s q s' ms :
  inv opts s -> m ∈ delivered s ->
  execute (store := SystemStore opts claim_io end_io) processor yield durationMs m s = (q, s', ms) ->
  honest_leads s s'.
Proof.
  intros Hi Hm. unfold execute. simpl. destruct (sys_claim opts claim_io m s) as [rc s1] eqn:Hc.
  destruct (claim_honest s rc s1 Hi Hm Hc) as [Hl1 Hjob]. destruct (Hyield s1) as [Hl2 Hrun2].
  assert (honest_leads s (yield s1)) as Hl by (by eapply honest_trans).
  destruct rc as [e|[job|]]; [by intros [= _ <- _]| |by intros [= _ <- _]].
  destruct (Hjob job eq_refl) as (Hr1 & Hu1 & Hd1).
  destruct (processor job (yield s1)) as [rp s3] eqn:Hp.
  destruct (Hprocessor job (yield s1)) as [Hl3 Hrun3]. rewrite Hp in Hl3, Hrun3. simpl in Hl3, Hrun3.
  destruct (Hyield s3) as [Hl4 Hrun4].
  assert (honest_leads s1 (yield s3)) as H14 by (eauto using honest_trans).
  assert (honest_leads s (yield s3)) as H4 by (exact (honest_trans _ _ _ Hl1 H14)).
  assert (m ∈ running (yield s3)) as Hrun by auto.
  destruct rp as [e|resp].
  - destruct (failure_of e) as [[c rt] msx]. destruct (sys_fail _ _ _ _ _ _ _) as [rf s5] eqn:Hf.
    apply fail_honest in Hf; [|done]. destruct (Hyield s5) as [Hl5 _].
    destruct rf as [e'|st]; intros [= _ <- _]; eauto using honest_trans.
  - destruct (sys_complete _ _ _ _ _) as [rd s5] eqn:Hd.
    apply complete_honest in Hd; [|done|].
    2: { destruct H14 as [ls Hls]. intros row Hrow.
         rewrite (run_row opts hash_key hash_data Hopts (fun r => data r = pj_data job) s1 ls (yield s3) (env_id m)
           (fun now d r r' Hch Hr => eq_trans (proj1 (proj2 (proj2 (proj2 (proj2 (proj2
              (change_identity _ _ _ _ _ Hch))))))) Hr)
           (honest_run_step _ _ _ Hls) Hu1 Hd1 row Hrow).
         apply (Hproduced job (yield s1)). by rewrite Hp. }
    destruct (Hyield s5) as [Hl5 _]. destruct rd as [e'|[]]; intros [= _ <- _]; eauto using honest_trans.
Qed.

End Honest.

(** ** The property *)

(** C15: a polled answer is an answer to one's own submission.  Take any
    history of gateways, dispatchers, workers, crashes and maintenance in
    which every stored result was produced for the data of its job.  A worker
    whose processor answers the data it is given extends it to such a history,
    whatever the database refuses or loses and whatever others do meanwhile;
    and whoever polls a job and is not told that there is none sees a job
    that the same owner submitted under this identifier, with its request
    identifier, and no answer but one produced for the submitted data. *)
Theorem polled_answers_genuine {TData TResult} opts hash_key hash_data
    (produced : TData -> TResult -> Prop) t ls s :
  1 <= maxAttempts opts -> run (honest_step opts hash_key hash_data produced) (start t) ls s ->
  (forall claim_io end_io m processor yield durationMs q s' ms,
     m ∈ delivered s ->
     (forall s, meanwhile opts hash_key hash_data produced m s (yield s)) ->
     (forall job s, meanwhile opts hash_key hash_data produced m s (processor job s).2) ->
     (forall job s r, (processor job s).1 = Ok r -> produced (pj_data job) r) ->
     execute (store := SystemStore opts claim_io end_io) processor yield durationMs m s = (q, s', ms) ->
     exists ls', run (honest_step opts hash_key hash_data produced) (start t) (ls ++ ls') s') /\
  (forall id owner st, getJob opts id owner (table s) = Ok st ->
     exists sub, (id, sub) ∈ submitted ls /\ sub_ownerId sub = owner /\
       st_receipt st = mkReceipt id (sub_requestId sub) /\
       forall x, st_response st = Some x -> produced (sub_data sub) x).
Proof.
  intros Ho Hr. split.
  - intros claim_io end_io m processor yield durationMs q s' ms Hm Hy Hp Hok He.
    assert (inv opts s) as Hi.
    { apply (inv_reachable opts hash_key hash_data Ho). exists t, ls. by eapply honest_run_step. }
    destruct (execute_honest opts hash_key hash_data produced Ho claim_io end_io m processor yield
      durationMs Hy Hp Hok s q s' ms Hi Hm He) as [ls' Hls].
    exists ls'. by eapply run_app.
  - intros id owner st Hg.
    pose proof (genuine_run opts hash_key hash_data produced [] _ ls s (genuine_start produced t) Hr) as Hgen.
    unfold getJob in Hg. destruct (table s !! id) as [row|] eqn:Hrow; [|done].
    destruct (String.eqb (owner_id row) owner && _) eqn:Ec; [|done]. injection Hg as <-.
    apply andb_true_iff in Ec as [Hown%String.eqb_eq _].
    destruct (Hgen _ _ Hrow) as [(sub & Hsub & Ho' & Hq & Hd) Hp]. cbn [app] in Hsub.
    exists sub. cbn. rewrite <- Ho', <- Hq, <- Hd. repeat split; try done.
    intros x Hx. apply Hp. by destruct (status row).
Qed.

(** ** A job from submission to answer *)

Definition ex_answers (d r : string) : Prop := r = "re: " +:+ d.

(** Steps whose results answer the data of their jobs. *)
Definition ex_honest (s : ex_state) (l : label string string) : option ex_state :=
  match l with
  | Complete m r =>
      match table s !! env_id m with
      | Some row => if String.eqb r ("re: " +:+ data row) then exec_step s l else None
      | None => None
      end
  | _ => exec_step s l
  end.

Lemma ex_honest_sound s l s' :
  ex_honest s l = Some s' -> honest_step ex_opts ex_hash ex_hash ex_answers s l s'.
Proof.
  intros H. destruct l as [| | | | | | |m r| | | | | |]; try (split; [by apply exec_step_sound|done]).
  unfold ex_honest in H. destruct (table s !! env_id m) as [row|] eqn:E; [|done].
  destruct (String.eqb_spec r ("re: " +:+ data row)) as [->|]; [|done].
  split; [by apply exec_step_sound|]. intros row' Hrow'. by simplify_eq.
Qed.

Definition ex_answered : list (label string string) :=
  ex_claimed ++ [Complete (mkEnvelope "a" 1) ("re: " +:+ sub_data ex_sub)].

Lemma polled_answers_genuine_witness :
  exists s st sub, run (honest_step ex_opts ex_hash ex_hash ex_answers) (start 0) ex_answered s /\
    getJob ex_opts "a" (sub_ownerId ex_sub) (table s) = Ok st /\ st_status st = completed /\
    (("a", sub) ∈ submitted ex_answered /\ sub_ownerId sub = sub_ownerId ex_sub /\
     st_receipt st = mkReceipt "a" (sub_requestId sub) /\
     forall x, st_response st = Some x -> ex_answers (sub_data sub) x).
Proof.
  destruct (exec_run ex_honest (start 0) ex_answered) as [s|] eqn:E; [|by vm_compute in E].
  pose proof (exec_run_sound _ _ ex_honest_sound _ _ _ E) as Hr.
  destruct (getJob ex_opts "a" (sub_ownerId ex_sub) (table s)) as [e|st] eqn:Hg.
  { vm_compute in E. injection E as <-. by vm_compute in Hg. }
  destruct (proj2 (polled_answers_genuine ex_opts ex_hash ex_hash ex_answers 0 ex_answered s
    ex_attempts Hr) "a" (sub_ownerId ex_sub) st Hg) as (sub & Hsub).
  exists s, st, sub. split; [exact Hr|]. split; [exact Hg|]. split; [|exact Hsub].
  vm_compute in E. injection E as <-. vm_compute in Hg. by injection Hg as <-.
Defined.

End JobAnswers.
