(* ===== verification/WorkerLoop.v ===== *)
(** * The loop of the job worker

    The whole of [loop] of [src/src/queue/rabbitmq.ts], around the round of
    [JobWorker.loop_round]: connect, consume, and then rounds with a pause of
    a second between them, until the worker is stopped or something fails.
    The state is arbitrary and every call is a function on it, so [close] may
    stop the worker during any of them.  The loop of a worker that is never
    stopped does not end; it is followed for a given number of rounds. *)

From S2P Require Import Prelude Errors Chat JobStore JobSystem JobWorker.
Import Errors Chat JobStore JobSystem JobWorker.

Module WorkerLoop.

Section Loop.
  Context {S : Type} (yield : S -> S) (stopped : S -> bool).
  Context (dispatch : S -> result error bool * S).
  Context (failure : S -> option error) (maintain_op : S -> result error () * S).
  Context (connect consume delay : S -> result error () * S).

Abbreviation round := (loop_round yield stopped dispatch failure maintain_op).

(** [await delay(...).catch((error) => { if (!aborted) throw error; })] *)
Definition pause (s : S) : result error () * S :=
  let '(r, s1) := delay s in
  let s2 := yield s1 in
  (match r with Err e => if stopped s2 then Ok () else Err e | Ok _ => Ok () end, s2).

(** The [while] loop, for [fuel] rounds; [None] when it is still running. *)
Fixpoint rounds (fuel : nat) (s : S) : option (result error ()) * S :=
  match fuel with
  | O => (None, s)
  | Datatypes.S fuel' =>
      match round s with
      | (None, s1) => (Some (Ok ()), s1)
      | (Some (Err e), s1) => (Some (Err e), s1)
      | (Some (Ok _), s1) =>
          match pause s1 with
          | (Err e, s2) => (Some (Err e), s2)
          | (Ok _, s2) => rounds fuel' s2
          end
      end
  end.

Definition loop (fuel : nat) (s : S) : option (result error ()) * S :=
  let '(r, s1) := connect s in
  let s2 := yield s1 in
  match r with
  | Err e => (Some (Err e), s2)
  | Ok _ =>
      if stopped s2 then (Some (Ok ()), s2)
      else
        let '(r', s3) := consume s2 in
        let s4 := yield s3 in
        match r' with Err e => (Some (Err e), s4) | Ok _ => rounds fuel s4 end
  end.

(** The state after a round and its pause. *)
Definition turn (s : S) : S := (pause (round s).2).2.

Lemma round_None s s' : round s = (None, s') -> s' = s /\ stopped s = true.
Proof.
  unfold loop_round. destruct (stopped s) eqn:E; [by intros [= <-]|].
  destruct (failure s); [done|]. destruct (maintain_op s) as [[e|] s1]; [done|].
  by destruct (dispatch_batch _ _ _ _ _).
Qed.

Lemma rounds_Ok fuel s s' : rounds fuel s = (Some (Ok ()), s') -> stopped s' = true.
Proof.
  revert s. induction fuel as [|fuel IH]; intros s; [done|]. cbn [rounds].
  destruct (round s) as [[[e|x]|] s1] eqn:E; [done| |].
  - destruct (pause s1) as [[e|y] s2]; [done|apply IH].
  - apply round_None in E as [-> E]. by intros [= <-].
Qed.

Lemma loop_Ok fuel s s' : loop fuel s = (Some (Ok ()), s') -> stopped s' = true.
Proof.
  unfold loop. destruct (connect s) as [[e|] s1]; [done|]. destruct (stopped (yield s1)) eqn:E.
  - by intros [= <-].
  - destruct (consume _) as [[e|] s3]; [done|]. apply rounds_Ok.
Qed.

(** The rounds after the first start where it has left off. *)
Lemma rounds_turn fuel s :
  (exists r s', rounds (Datatypes.S fuel) s = (Some r, s')) \/
  rounds (Datatypes.S fuel) s = rounds fuel (turn s).
Proof.
  cbn [rounds]. unfold turn. destruct (round s) as [[[e|x]|] s1]; [eauto| |eauto]. cbn [snd].
  destruct (pause s1) as [[e|y] s2]; eauto.
Qed.

(** A worker that is stopped by the end of its [n]th round ends there. *)
Lemma rounds_end n s :
  stopped (Nat.iter n turn s) = true -> exists r s', rounds (Datatypes.S n) s = (Some r, s').
Proof.
  revert s. induction n as [|n IH]; intros s Hs.
  - cbn [rounds]. unfold loop_round. cbn in Hs. rewrite Hs. eauto.
  - destruct (rounds_turn (Datatypes.S n) s) as [H|H]; [done|]. rewrite H. apply IH.
    by rewrite <- Nat.iter_succ_r.
Qed.

Lemma round_failure s e : stopped s = false -> failure s = Some e -> round s = (Some (Err e), s).
Proof. intros Hs Hf. unfold loop_round. by rewrite Hs, Hf. Qed.

End Loop.

(** ** Only while running *)

(** Two stores that answer alike as long as the worker is not stopped. *)
Section Idle.
  Context {S : Type} (yield : S -> S) (stopped : S -> bool) (failure : S -> option error).
  Context (dispatch dispatch' : S -> result error bool * S).
  Context (maintain_op maintain_op' : S -> result error () * S).
  Context (connect consume consume' delay : S -> result error () * S).
  Context (Hd : forall s, stopped s = false -> dispatch s = dispatch' s).
  Context (Hm : forall s, stopped s = false -> maintain_op s = maintain_op' s).
  Context (Hc : forall s, stopped s = false -> consume s = consume' s).

Lemma dispatch_batch_idle n s :
  dispatch_batch yield stopped dispatch n s = dispatch_batch yield stopped dispatch' n s.
Proof.
  revert s. induction n as [|n IH]; intros s; [done|]. cbn [dispatch_batch].
  destruct (stopped s) eqn:E; [done|]. rewrite Hd by done.
  destruct (dispatch' s) as [[e|[]] s']; [done|apply IH|done].
Qed.

Lemma loop_round_idle s :
  loop_round yield stopped dispatch failure maintain_op s =
  loop_round yield stopped dispatch' failure maintain_op' s.
Proof.
  unfold loop_round. destruct (stopped s) eqn:E; [done|]. destruct (failure s); [done|].
  rewrite Hm by done. destruct (maintain_op' s) as [[e|] s1]; [done|]. by rewrite dispatch_batch_idle.
Qed.

Lemma rounds_idle fuel s :
  rounds yield stopped dispatch failure maintain_op delay fuel s =
  rounds yield stopped dispatch' failure maintain_op' delay fuel s.
Proof.
  revert s. induction fuel as [|fuel IH]; intros s; [done|]. cbn [rounds]. rewrite loop_round_idle.
  destruct (loop_round _ _ _ _ _ s) as [[[e|x]|] s1]; [done| |done].
  destruct (pause _ _ _ s1) as [[e|y] s2]; [done|apply IH].
Qed.

Lemma loop_idle fuel s :
  loop yield stopped dispatch failure maintain_op connect consume delay fuel s =
  loop yield stopped dispatch' failure maintain_op' connect consume' delay fuel s.
Proof.
  unfold loop. destruct (connect s) as [[e|] s1]; [done|].
  destruct (stopped (yield s1)) eqn:E; [done|]. rewrite Hc by done.
  destruct (consume' _) as [[e|] s3]; [done|apply rounds_idle].
Qed.

End Idle.

(** ** The property *)

(** C29: the loop ends when it is told to, and only then or with an error.  It
    returns only in a stopped worker; it ends with the first round at whose
    end the worker is stopped; a failed connection to the broker ends it with
    that failure; and in a stopped worker it starts nothing: neither a
    consumer nor a statement on the store, so that its course does not depend
    on what those would do. *)
Theorem worker_loop_ends {S} yield stopped dispatch failure maintain_op connect consume delay fuel (s : S) :
  (forall s', loop yield stopped dispatch failure maintain_op connect consume delay fuel s =
     (Some (Ok ()), s') -> stopped s' = true) /\
  (forall n s, stopped (Nat.iter n (turn yield stopped dispatch failure maintain_op delay) s) = true ->
     exists r s', rounds yield stopped dispatch failure maintain_op delay (Datatypes.S n) s = (Some r, s')) /\
  (forall n s e, stopped s = false -> failure s = Some e ->
     rounds yield stopped dispatch failure maintain_op delay (Datatypes.S n) s = (Some (Err e), s)) /\
  (forall dispatch' maintain_op' consume',
     (forall s, stopped s = false -> dispatch s = dispatch' s /\ maintain_op s = maintain_op' s /\
        consume s = consume' s) ->
     loop yield stopped dispatch failure maintain_op connect consume delay fuel s =
     loop yield stopped dispatch' failure maintain_op' connect consume' delay fuel s).
Proof.
  split; [intros s'; apply loop_Ok|]. split; [intros n s0; apply rounds_end|]. split.
  - intros n s0 e Hs Hf. cbn [rounds]. by rewrite (round_failure _ _ _ _ _ _ _ Hs Hf).
  - intros d m c H. apply loop_idle; intros s0 Hs; by apply H.
Qed.

(** A worker stopped during its second round. *)
Definition ex_turn (s : nat) : result error () * nat := (Ok (), Datatypes.S s).

Lemma worker_loop_ends_witness :
  exists s', loop id (fun s => Nat.leb 3 s) (fun s => (Ok false, s)) (fun _ => None) (fun s => (Ok (), s))
      ex_turn (fun s => (Ok (), s)) ex_turn 5 0%nat = (Some (Ok ()), s') /\ Nat.leb 3 s' = true.
Proof.
  eexists. split; [by vm_compute|].
  by apply (proj1 (worker_loop_ends id (fun s => Nat.leb 3 s) (fun s => (Ok false, s)) (fun _ => None)
    (fun s => (Ok (), s)) ex_turn (fun s => (Ok (), s)) ex_turn 5 0%nat)).
Defined.

End WorkerLoop.
