(* ===== verification/Json.v ===== *)
(** * JSON values and their canonical text

    What the sources use of JSON: values, [JSON.stringify], and the replacer
    that sorts object entries, shared (in two copies) by
    [src/src/cache/cache-key.ts] and [src/src/queue/postgres-job-store.ts].

    Numbers are a parameter of the type of values: parsed values carry any
    JavaScript number, the values the program prints only integers.  Text is
    UTF-8, byte by byte; the escapes are those of [JSON.stringify] on
    well-formed text. *)

From stdpp Require Import sorting.
From Stdlib Require Import Ascii.
From S2P Require Import Prelude JsNumber.
Import JsNumber.

Module Json.

Set Warnings "-register-all".
Inductive json (N : Type) : Type :=
| JNull
| JBool (b : bool)
| JNum (n : N)
| JStr (s : string)
| JArr (items : list (json N))
| JObj (entries : list (string * json N)).
Arguments JNull {N}.
Arguments JBool {N} b.
Arguments JNum {N} n.
Arguments JStr {N} s.
Arguments JArr {N} items.
Arguments JObj {N} entries.

(** Induction with hypotheses for the items and the entries. *)
Lemma json_rect_nested {N} (P : json N -> Prop) :
  P JNull -> (forall b, P (JBool b)) -> (forall n, P (JNum n)) -> (forall s, P (JStr s)) ->
  (forall l, Forall P l -> P (JArr l)) -> (forall l, Forall (fun e => P e.2) l -> P (JObj l)) ->
  forall v, P v.
Proof.
  intros H0 Hb Hn Hs Ha Ho. fix IH 1. intros [|b|n|s|l|l].
  - exact H0.
  - exact (Hb b).
  - exact (Hn n).
  - exact (Hs s).
  - apply Ha. induction l as [|x l IHl]; constructor; [exact (IH x)|exact IHl].
  - apply Ho. induction l as [|x l IHl]; constructor; [exact (IH x.2)|exact IHl].
Qed.

(** [value.key] *)
Definition field {N} (key : string) (v : json N) : option (json N) :=
  match v with
  | JObj l => snd <$> (snd <$> list_find (fun e => e.1 = key) l)
  | _ => None
  end.

(** ** JSON.stringify *)

Abbreviation text := (list ascii).
Definition chars (s : string) : text := String.list_ascii_of_string s.
Definition code (n : nat) : ascii := Ascii.ascii_of_nat n.

Definition hex (n : nat) : ascii :=
  if (n <? 10)%nat then code (48 + n) else code (87 + n).

(** One character inside a string literal. *)
Definition escape (c : ascii) : text :=
  let n := Ascii.nat_of_ascii c in
  if (n =? 34)%nat then [code 92; code 34]
  else if (n =? 92)%nat then [code 92; code 92]
  else if (n =? 8)%nat then [code 92; code 98]
  else if (n =? 12)%nat then [code 92; code 102]
  else if (n =? 10)%nat then [code 92; code 110]
  else if (n =? 13)%nat then [code 92; code 114]
  else if (n =? 9)%nat then [code 92; code 116]
  else if (n <? 32)%nat then
    [code 92; code 117; code 48; code 48; hex (n / 16); hex (n mod 16)]
  else [c].

Fixpoint escape_all (s : string) : text :=
  match s with
  | EmptyString => []
  | String c s' => escape c ++ escape_all s'
  end.

Definition quote (s : string) : text := code 34 :: escape_all s ++ [code 34].

Fixpoint join (sep : ascii) (l : list text) : text :=
  match l with
  | [] => []
  | [x] => x
  | x :: l' => x ++ sep :: join sep l'
  end.

Fixpoint print (v : json Z) : text :=
  match v with
  | JNull => chars "null"
  | JBool true => chars "true"
  | JBool false => chars "false"
  | JNum n => chars (pretty n)
  | JStr s => quote s
  | JArr l => code 91 :: join (code 44) (map print l) ++ [code 93]
  | JObj l =>
      code 123 :: join (code 44) (map (fun e => quote e.1 ++ code 58 :: print e.2) l) ++ [code 125]
  end.

Definition stringify (v : json Z) : string := String.string_of_list_ascii (print v).

(** ** The replacer: entries sorted by key *)

(** [Object.entries(item).sort(([a], [b]) => a < b ? -1 : a > b ? 1 : 0)] *)
Definition key_le {A} (p q : string * A) : Prop := String.le p.1 q.1.
#[global] Instance key_le_dec {A} (p q : string * A) : Decision (key_le p q).
Proof. unfold key_le. apply _. Defined.
Definition sort_entries {A} (l : list (string * A)) : list (string * A) := merge_sort key_le l.

(** The order in which an object lists its own keys: array indices first, in
    numeric order, then the others as inserted. *)
Definition digits_value (s : string) : N :=
  foldl (fun n c => (10 * n + (Ascii.N_of_ascii c - 48))%N) 0%N (chars s).
Definition array_index (k : string) : option N :=
  let n := digits_value k in
  if String.eqb (pretty n) k && (n <? 4294967295)%N then Some n else None.

Definition index_le {A} (p q : N * A) : Prop := (p.1 <= q.1)%N.
#[global] Instance index_le_dec {A} (p q : N * A) : Decision (index_le p q).
Proof. unfold index_le. apply _. Defined.
Definition own_order {A} (l : list (string * A)) : list (string * A) :=
  map snd (merge_sort index_le (omap (fun p => (fun n => (n, p)) <$> array_index p.1) l)) ++
  filter (fun p => array_index p.1 = None) l.

Fixpoint normal {N} (v : json N) : json N :=
  match v with
  | JArr l => JArr (map normal l)
  | JObj l => JObj (own_order (sort_entries (map (fun e => (e.1, normal e.2)) l)))
  | _ => v
  end.

(** [JSON.stringify(value, replacer)] *)
Definition canonical (v : json Z) : string := stringify (normal v).

(** ** Key order does not matter *)

Inductive same_value {N} : json N -> json N -> Prop :=
| same_null : same_value JNull JNull
| same_bool b : same_value (JBool b) (JBool b)
| same_num n : same_value (JNum n) (JNum n)
| same_str s : same_value (JStr s) (JStr s)
| same_arr l l' : Forall2 same_value l l' -> same_value (JArr l) (JArr l')
| same_obj l l' k :
    NoDup (map fst l) -> Permutation l k ->
    Forall2 (fun a b => a.1 = b.1 /\ same_value a.2 b.2) k l' ->
    same_value (JObj l) (JObj l').

#[global] Instance key_le_total {A} : Total (@key_le A).
Proof. intros p q. unfold key_le. apply (total String.le). Qed.

#[global] Instance key_le_trans {A} : Transitive (@key_le A).
Proof. intros p q r. unfold key_le. apply transitivity. Qed.

(** Sorting forgets the order of entries with distinct keys. *)
Lemma sort_entries_perm {A} (l k : list (string * A)) :
  NoDup (map fst l) -> Permutation l k -> sort_entries l = sort_entries k.
Proof.
  intros Hnd Hp. unfold sort_entries.
  apply (StronglySorted_unique_strong key_le); [|apply StronglySorted_merge_sort; apply _..|].
  - intros x1 x2 H1 H2 Hle1 Hle2. rewrite merge_sort_Permutation in H1, H2.
    rewrite <- Hp in H2. assert (x1.1 = x2.1) as Hk by (by apply (anti_symm String.le)).
    apply list_elem_of_lookup in H1 as [i1 H1]. apply list_elem_of_lookup in H2 as [i2 H2].
    assert (i1 = i2) as ->; [|congruence].
    eapply NoDup_lookup; [exact Hnd| |]; rewrite list_lookup_fmap; [by rewrite H1|].
    rewrite H2. simpl. by rewrite Hk.
  - by rewrite !merge_sort_Permutation.
Qed.

Lemma map_Forall2_eq {A B} (f : A -> B) (R : A -> A -> Prop) l l' :
  Forall2 R l l' -> Forall (fun x => forall y, R x y -> f x = f y) l -> map f l = map f l'.
Proof.
  induction 1 as [|x y l l' Hxy _ IH]; intros Hf; [done|]. inversion Hf; subst. simpl.
  f_equal; auto.
Qed.

Lemma same_value_normal {N} (v w : json N) : same_value v w -> normal v = normal w.
Proof.
  revert w. induction v as [| | | |l IH|l IH] using json_rect_nested; intros w Hs;
    inversion Hs as [| | | |? l' Hf|? l' k Hnd Hp Hf]; subst; try done; simpl; f_equal.
  - by eapply map_Forall2_eq.
  - f_equal. rewrite (sort_entries_perm _ (map (fun e => (e.1, normal e.2)) k)).
    + f_equal. eapply map_Forall2_eq; [exact Hf|]. rewrite <- Hp.
      eapply Forall_impl; [exact IH|]. simpl. intros [a x] Hx [b y] [-> Hxy]. simpl in *.
      f_equal. by apply Hx.
    + rewrite map_map. done.
    + by rewrite Hp.
Qed.

(** Listing and sorting the entries of an object loses none. *)
Lemma own_order_perm {A} (l : list (string * A)) : Permutation (own_order l) l.
Proof.
  unfold own_order. rewrite merge_sort_Permutation.
  induction l as [|p l IH]; [done|]. rewrite filter_cons. cbn [omap list_omap].
  destruct (array_index p.1) as [n|] eqn:E; cbn [fmap option_fmap option_map].
  - rewrite decide_False by done. cbn [map snd app]. by rewrite IH.
  - rewrite decide_True by done. rewrite <- Permutation_middle. by rewrite IH.
Qed.

Lemma normal_object_perm {N} (l l' : list (string * json N)) :
  normal (JObj l) = normal (JObj l') ->
  Permutation (map (fun e => (e.1, normal e.2)) l) (map (fun e => (e.1, normal e.2)) l').
Proof.
  cbn [normal]. intros [= H]. unfold sort_entries in H.
  rewrite <- (merge_sort_Permutation key_le (map (fun e => (e.1, normal e.2)) l)).
  rewrite <- (merge_sort_Permutation key_le (map (fun e => (e.1, normal e.2)) l')).
  rewrite <- (own_order_perm (merge_sort key_le (map _ l))), H. apply own_order_perm.
Qed.

(** ** The text determines the value *)

(** Reading one possibly escaped character back. *)
Definition unhex (c : ascii) : nat :=
  let n := nat_of_ascii c in if (n <? 58)%nat then n - 48 else n - 87.

Definition unescape (t : text) : option (ascii * text) :=
  match t with
  | c :: r =>
      if Ascii.eqb c (code 92) then
        match r with
        | d :: r' =>
            match nat_of_ascii d with
            | 98%nat => Some (code 8, r')
            | 102%nat => Some (code 12, r')
            | 110%nat => Some (code 10, r')
            | 114%nat => Some (code 13, r')
            | 116%nat => Some (code 9, r')
            | 117%nat =>
                match r' with
                | _ :: _ :: x :: y :: r'' => Some (code (16 * unhex x + unhex y), r'')
                | _ => None
                end
            | _ => Some (d, r')
            end
        | [] => None
        end
      else Some (c, r)
  | [] => None
  end.

Lemma unescape_escape c r : unescape (escape c ++ r) = Some (c, r).
Proof. destruct c as [[] [] [] [] [] [] [] []]; reflexivity. Qed.

Lemma escape_no_quote c r r' : escape c ++ r <> code 34 :: r'.
Proof. by destruct c as [[] [] [] [] [] [] [] []]. Qed.

Lemma escaped_inj s : forall s' r r',
  escape_all s ++ code 34 :: r = escape_all s' ++ code 34 :: r' ->
  s = s' /\ r = r'.
Proof.
  induction s as [|c s IH]; intros [|c' s'] r r' H; simpl in H; rewrite <- ?app_assoc in H.
  - by injection H as ->.
  - symmetry in H. by apply escape_no_quote in H.
  - by apply escape_no_quote in H.
  - assert (Some (c, escape_all s ++ code 34 :: r) =
            Some (c', escape_all s' ++ code 34 :: r')) as Heq.
    { by rewrite <- !unescape_escape, H. }
    injection Heq as -> Heq. by apply IH in Heq as [-> ->].
Qed.

Lemma quote_inj s s' r r' : quote s ++ r = quote s' ++ r' -> s = s' /\ r = r'.
Proof.
  unfold quote. simpl. rewrite <- !app_assoc. simpl. intros [= H]. by apply escaped_inj in H.
Qed.

(** Integers: nothing but digits and a sign, and what follows a number in a
    text is neither. *)
Definition numeric (c : ascii) : bool :=
  (48 <=? nat_of_ascii c)%nat && (nat_of_ascii c <=? 57)%nat || Ascii.eqb c (code 45).

Definition ends (r : text) : Prop := match r with [] => True | c :: _ => numeric c = false end.

Lemma pretty_N_numeric x s : Forall (fun c => numeric c = true) (chars s) ->
  Forall (fun c => numeric c = true) (chars (pretty_N_go x s)).
Proof.
  revert s. induction (N.lt_wf_0 x) as [x _ IH]; intros s Hs.
  assert (x = 0 \/ 0 < x)%N as [->|Hx] by lia; [by rewrite pretty_N_go_0|].
  rewrite pretty_N_go_step by done. apply IH; [by apply N.div_lt|]. simpl. constructor; [|done].
  unfold pretty_N_char. by repeat case_match.
Qed.

Lemma pretty_N_go_ne_empty x s : s <> EmptyString -> pretty_N_go x s <> EmptyString.
Proof.
  revert s. induction (N.lt_wf_0 x) as [x _ IH]; intros s Hs.
  assert (x = 0 \/ 0 < x)%N as [->|Hx] by lia; [by rewrite pretty_N_go_0|].
  rewrite pretty_N_go_step by done. apply IH; [by apply N.div_lt|done].
Qed.

Lemma pretty_ne_empty (z : Z) : pretty z <> EmptyString.
Proof.
  destruct z as [|x|x]; [done| |done].
  change (pretty (Z.pos x)) with (pretty_N_go (N.pos x) EmptyString).
  rewrite pretty_N_go_step by done. by apply pretty_N_go_ne_empty.
Qed.

Lemma pretty_numeric (z : Z) : Forall (fun c => numeric c = true) (chars (pretty z)).
Proof.
  destruct z as [|x|x]; [by repeat constructor|..].
  - apply (pretty_N_numeric (N.pos x) EmptyString). constructor.
  - change (chars (pretty (Z.neg x))) with (code 45 :: chars (pretty_N_go (N.pos x) EmptyString)).
    constructor; [done|]. apply pretty_N_numeric. constructor.
Qed.

Lemma span_inj (l l' r r' : text) :
  Forall (fun c => numeric c = true) l -> Forall (fun c => numeric c = true) l' ->
  ends r -> ends r' -> l ++ r = l' ++ r' -> l = l' /\ r = r'.
Proof.
  intros Hl. revert l'. induction Hl as [|c l Hc Hl IH]; intros l' Hl' Hr Hr' H; simpl in H.
  - destruct Hl' as [|c' l' Hc' _]; [done|]. simpl in H. subst r. simpl in Hr. congruence.
  - destruct Hl' as [|c' l' Hc' Hl'']; simpl in H.
    + subst r'. simpl in Hr'. congruence.
    + injection H as -> H. by apply IH in H as [-> ->].
Qed.

Lemma chars_inj s s' : chars s = chars s' -> s = s'.
Proof.
  intros H. rewrite <- (String.string_of_list_ascii_of_string s).
  rewrite <- (String.string_of_list_ascii_of_string s'). unfold chars in H. by rewrite H.
Qed.

(** The first character tells the kind of the value. *)
Inductive kind : Type := KNull | KTrue | KFalse | KNum | KStr | KArr | KObj | KOther.

Definition kind_of (v : json Z) : kind :=
  match v with
  | JNull => KNull | JBool true => KTrue | JBool false => KFalse | JNum _ => KNum
  | JStr _ => KStr | JArr _ => KArr | JObj _ => KObj
  end.

Definition kind_of_char (c : ascii) : kind :=
  if numeric c then KNum
  else match nat_of_ascii c with
  | 110%nat => KNull | 116%nat => KTrue | 102%nat => KFalse
  | 34%nat => KStr | 91%nat => KArr | 123%nat => KObj | _ => KOther
  end.

Lemma print_kind v : exists c t, print v = c :: t /\ kind_of_char c = kind_of v.
Proof.
  destruct v as [|[]|n|s|l|l]; simpl; try (eexists _, _; split; [reflexivity|done]).
  pose proof (pretty_numeric n) as H. destruct (chars (pretty n)) as [|c t] eqn:E.
  - by apply (chars_inj _ EmptyString), pretty_ne_empty in E.
  - inversion H as [|? ? Hc]; subst. exists c, t. split; [done|]. unfold kind_of_char. by rewrite Hc.
Qed.

(** Texts of items that can be told apart, separated by commas and closed by
    a bracket, determine the items. *)
Definition separable {A} (f : A -> text) (x : A) : Prop :=
  forall y r r', ends r -> ends r' -> f x ++ r = f y ++ r' -> x = y /\ r = r'.

Definition join_tail {A} (f : A -> text) (l : list A) : text :=
  match l with [] => [] | _ => code 44 :: join (code 44) (map f l) end.

Lemma join_cons {A} (f : A -> text) x l :
  join (code 44) (map f (x :: l)) = f x ++ join_tail f l.
Proof. destruct l; simpl; [by rewrite app_nil_r|done]. Qed.

Lemma join_tail_ends {A} (f : A -> text) l c r :
  numeric c = false -> ends (join_tail f l ++ c :: r).
Proof. by destruct l. Qed.

Lemma join_inj {A} (f : A -> text) (close : ascii) l :
  numeric close = false -> close <> code 44 ->
  (forall x r r', f x ++ r <> close :: r') -> Forall (separable f) l ->
  forall l' r r', join (code 44) (map f l) ++ close :: r = join (code 44) (map f l') ++ close :: r' ->
    l = l' /\ r = r'.
Proof.
  intros Hn Hc Hf. induction 1 as [|x l Hx _ IH]; intros [|y l'] r r' H.
  - by injection H.
  - rewrite join_cons, <- app_assoc in H. symmetry in H. by apply Hf in H.
  - rewrite join_cons, <- app_assoc in H. by apply Hf in H.
  - rewrite !join_cons, <- !app_assoc in H. apply Hx in H as [-> H]; [|by apply join_tail_ends..].
    destruct l as [|x' l], l' as [|y' l']; simpl in H.
    + by injection H as ->.
    + by injection H.
    + by injection H.
    + injection H as H. by apply (IH (y' :: l')) in H as [-> ->].
Qed.

Lemma print_head v c r r' : kind_of_char c = KOther -> print v ++ r <> c :: r'.
Proof.
  destruct (print_kind v) as (c' & t & -> & Hk). intros Hc [= -> _]. rewrite Hc in Hk.
  by destruct v as [|[]| | | |].
Qed.

Lemma print_same_kind v w r r' : print v ++ r = print w ++ r' -> kind_of v = kind_of w.
Proof.
  destruct (print_kind v) as (c & t & -> & <-), (print_kind w) as (c' & t' & -> & <-).
  by intros [= -> _].
Qed.

Lemma print_separable v : separable print v.
Proof.
  induction v as [|b|n|s|l IH|l IH] using json_rect_nested; intros w r r' Hr Hr' H;
    pose proof (print_same_kind _ _ _ _ H) as Hk.
  - destruct w as [|[]| | | |]; try done. by injection H.
  - destruct b, w as [|[]| | | |]; try done; by injection H.
  - destruct w as [|[]|n'| | |]; try done. simpl in H.
    apply span_inj in H as [H ->]; eauto using pretty_numeric.
    apply chars_inj in H. split; [|done]. f_equal. by apply (inj pretty).
  - destruct w as [|[]| |s'| |]; try done. simpl in H. by apply quote_inj in H as [-> ->].
  - destruct w as [|[]| | |l'|]; try done. simpl in H. rewrite <- !app_assoc in H. simpl in H.
    injection H as H. apply join_inj in H as [-> ->]; auto.
    intros x q q'. by apply print_head.
  - destruct w as [|[]| | | |l']; try done. simpl in H. rewrite <- !app_assoc in H. simpl in H.
    injection H as H. apply join_inj in H as [-> ->]; auto.
    eapply Forall_impl; [exact IH|]. intros [k x] Hx [k' y] q q' Hq Hq' He.
    assert (quote k ++ code 58 :: print x ++ q = quote k' ++ code 58 :: print y ++ q') as He'.
    { etrans; [|etrans; [exact He|]]; simpl; by rewrite <- !app_assoc. }
    clear He. apply quote_inj in He' as [-> He].
    injection He as He. simpl in Hx. by apply Hx in He as [-> ->].
Qed.

Lemma stringify_inj v w : stringify v = stringify w -> v = w.
Proof.
  unfold stringify. intros H. apply (f_equal String.list_ascii_of_string) in H.
  rewrite !String.list_ascii_of_string_of_list_ascii in H.
  apply (print_separable v w [] []); [done|done|]. by rewrite !app_nil_r.
Qed.

End Json.
