(* ===== verification/JsonParse.v ===== *)
(** * [JSON.parse]

    The grammar of JSON on decoded text: a recursive-descent reader that
    returns the value and the rest of the text, or [None] where [JSON.parse]
    throws.  The recursion is on fuel, twice the length of the text and one
    more, which never runs out ([value_fuel]); the reader undoes
    [Json.stringify] ([parse_print]). *)

From Stdlib Require Import Ascii.
From S2P Require Import Prelude JsNumber Utf8 NumberText Json.
Import JsNumber Utf8 NumberText Json.

Module JsonParse.

Abbreviation value_json := (json number).

(** The white space of JSON. *)
Definition is_ws (c : ascii) : bool :=
  is_char 32 c || is_char 9 c || is_char 10 c || is_char 13 c.

Fixpoint skip_ws (t : text) : text :=
  match t with c :: r => if is_ws c then skip_ws r else t | [] => [] end.

(** ** Strings *)

Definition byte_of (n : Z) : ascii := ascii_of_nat (Z.to_nat n).

(** The UTF-8 text of a code point (the three-byte form for a surrogate). *)
Definition encode (cp : Z) : text :=
  if cp <? 128 then [byte_of cp]
  else if cp <? 2048 then [byte_of (192 + cp / 64); byte_of (128 + cp mod 64)]
  else if cp <? 65536 then
    [byte_of (224 + cp / 4096); byte_of (128 + cp / 64 mod 64); byte_of (128 + cp mod 64)]
  else [byte_of (240 + cp / 262144); byte_of (128 + cp / 4096 mod 64);
        byte_of (128 + cp / 64 mod 64); byte_of (128 + cp mod 64)].

(** Four hexadecimal digits. *)
Definition hex4 (a b c d : ascii) : option Z := radix_value 16 0 [a; b; c; d].

Definition is_high (u : Z) : bool := (55296 <=? u) && (u <=? 56319).
Definition is_low (u : Z) : bool := (56320 <=? u) && (u <=? 57343).

(** The escapes of one character. *)
Definition simple_escape (c : ascii) : option ascii :=
  match byte c with
  | 34%nat => Some (code 34) | 92%nat => Some (code 92) | 47%nat => Some (code 47)
  | 98%nat => Some (code 8) | 102%nat => Some (code 12) | 110%nat => Some (code 10)
  | 114%nat => Some (code 13) | 116%nat => Some (code 9)
  | _ => None
  end.

(** The rest of a string after its opening quote. *)
Fixpoint string_rest (t : text) : option (text * text) :=
  match t with
  | [] => None
  | c :: r =>
      if is_char 34 c then Some ([], r)
      else if is_char 92 c then
        match r with
        | e :: r1 =>
            if is_char 117 e then
              match r1 with
              | a :: b :: c' :: d :: r2 =>
                  u ← hex4 a b c' d;
                  let single := '(s, rest) ← string_rest r2; Some (encode u ++ s, rest) in
                  if is_high u then
                    match r2 with
                    | k :: x :: a2 :: b2 :: c2 :: d2 :: r3 =>
                        match is_char 92 k && is_char 117 x, hex4 a2 b2 c2 d2 with
                        | true, Some u2 =>
                            if is_low u2 then
                              '(s, rest) ← string_rest r3;
                              Some (encode (65536 + (u - 55296) * 1024 + (u2 - 56320)) ++ s, rest)
                            else single
                        | _, _ => single
                        end
                    | _ => single
                    end
                  else single
              | _ => None
              end
            else
              ch ← simple_escape e; '(s, rest) ← string_rest r1; Some (ch :: s, rest)
        | [] => None
        end
      else if between 0 31 c then None
      else '(s, rest) ← string_rest r; Some (c :: s, rest)
  end.

Definition to_string (t : text) : string := String.string_of_list_ascii t.

(** ** Numbers *)

Definition read_number (t : text) : option (number * text) :=
  let '(sign, r0) := match t with
    | c :: r => if is_char 45 c then (-1, r) else (1, t)
    | [] => (1, t)
    end in
  let '(int, r1) := span_digits r0 in
  match int with
  | [] => None
  | z :: more =>
      if is_char 48 z && negb (bool_decide (more = [])) then None
      else
        let '(frac, r2) := read_fraction r1 in
        match frac with
        | Some [] => None
        | _ =>
            '(e, r3) ← read_exponent r2;
            Some (literal_value sign int (default [] frac) e, r3)
        end
  end.

(** ** Values *)

(** A property of an object literal: a repeated name replaces the value. *)
Fixpoint put {A} (k : string) (v : A) (l : list (string * A)) : list (string * A) :=
  match l with
  | [] => [(k, v)]
  | (k', v') :: l' => if String.eqb k k' then (k, v) :: l' else (k', v') :: put k v l'
  end.

Fixpoint expect (w t : text) : option text :=
  match w, t with
  | [], _ => Some t
  | a :: w', b :: t' => if Ascii.eqb a b then expect w' t' else None
  | _, [] => None
  end.

(** [value]; [items] after the opening bracket or a comma, [members] the
    same for objects, with the properties read so far. *)
Fixpoint value (n : nat) (t : text) : option (value_json * text) :=
  match n with
  | O => None
  | S n' =>
      match skip_ws t with
      | [] => None
      | c :: r =>
          if is_char 123 c then
            match skip_ws r with
            | c' :: r' =>
                if is_char 125 c' then Some (JObj [], r')
                else '(l, rest) ← members n' r []; Some (JObj l, rest)
            | [] => None
            end
          else if is_char 91 c then
            match skip_ws r with
            | c' :: r' =>
                if is_char 93 c' then Some (JArr [], r')
                else '(l, rest) ← items n' r; Some (JArr l, rest)
            | [] => None
            end
          else if is_char 34 c then
            '(s, rest) ← string_rest r; Some (JStr (to_string s), rest)
          else if is_char 116 c then rest ← expect (chars "true") (c :: r); Some (JBool true, rest)
          else if is_char 102 c then rest ← expect (chars "false") (c :: r); Some (JBool false, rest)
          else if is_char 110 c then rest ← expect (chars "null") (c :: r); Some (JNull, rest)
          else '(x, rest) ← read_number (c :: r); Some (JNum x, rest)
      end
  end
with items (n : nat) (t : text) : option (list value_json * text) :=
  match n with
  | O => None
  | S n' =>
      '(v, r) ← value n' t;
      match skip_ws r with
      | c :: r' =>
          if is_char 44 c then '(l, rest) ← items n' r'; Some (v :: l, rest)
          else if is_char 93 c then Some ([v], r')
          else None
      | [] => None
      end
  end
with members (n : nat) (t : text) (acc : list (string * value_json)) :
    option (list (string * value_json) * text) :=
  match n with
  | O => None
  | S n' =>
      match skip_ws t with
      | q :: r =>
          if is_char 34 q then
            '(k, r1) ← string_rest r;
            match skip_ws r1 with
            | colon :: r2 =>
                if is_char 58 colon then
                  '(v, r3) ← value n' r2;
                  let acc' := put (to_string k) v acc in
                  match skip_ws r3 with
                  | c :: r4 =>
                      if is_char 44 c then members n' r4 acc'
                      else if is_char 125 c then Some (acc', r4)
                      else None
                  | [] => None
                  end
                else None
            | [] => None
            end
          else None
      | [] => None
      end
  end.

Definition fuel (t : text) : nat := S (2 * length t).

(** [JSON.parse(text)] *)
Definition parse (t : text) : option value_json :=
  '(v, r) ← value (fuel t) t;
  match skip_ws r with [] => Some v | _ => None end.

(** ** The reader consumes its input *)

Lemma skip_ws_le t : (length (skip_ws t) <= length t)%nat.
Proof. induction t as [|c t IH]; simpl; [lia|]. destruct (is_ws c); simpl; lia. Qed.

(** A string goes on with [t']. *)
Lemma string_rest_bind t' (f : text -> text) s r :
  ('(s', rest) ← string_rest t'; Some (f s', rest)) = Some (s, r) ->
  exists s', string_rest t' = Some (s', r).
Proof. intros ([s' r'] & H & Heq)%bind_Some. injection Heq as <- <-. eauto. Qed.

Lemma string_rest_shorter t s r : string_rest t = Some (s, r) -> (length r < length t)%nat.
Proof.
  revert s r. induction (well_founded_ltof _ (@length ascii) t) as [t _ IH]; intros s r H.
  assert (forall t' f, (length t' < length t)%nat ->
    ('(s', rest) ← string_rest t'; Some (f s', rest)) = Some (s, r) -> (length r < length t)%nat)
    as Hrec.
  { intros t' f Hl (s' & Hs)%string_rest_bind. apply IH in Hs; [lia|exact Hl]. }
  clear IH. destruct t as [|c t]; [done|]. cbn [string_rest] in H.
  destruct (is_char 34 c); [injection H as <- <-; simpl; lia|].
  destruct (is_char 92 c); [|destruct (between 0 31 c); [done|]; eapply Hrec; [|exact H]; simpl; lia].
  destruct t as [|e t]; [done|]. destruct (is_char 117 e).
  - destruct t as [|a [|b [|c' [|d t]]]]; try done. apply bind_Some in H as (u & _ & H). cbv zeta in H.
    assert (forall f, ('(s', rest) ← string_rest t; Some (f s', rest)) = Some (s, r) ->
      (length r < length (c :: e :: a :: b :: c' :: d :: t))%nat) as Hone.
    { intros f. apply Hrec. simpl. lia. }
    destruct (is_high u); [|by eapply Hone].
    destruct t as [|k [|x [|a2 [|b2 [|c2 [|d2 t]]]]]]; try (by eapply Hone).
    destruct (is_char 92 k && is_char 117 x); [|by eapply Hone].
    destruct (hex4 a2 b2 c2 d2) as [u2|]; [|by eapply Hone].
    destruct (is_low u2); [|by eapply Hone]. eapply Hrec; [|exact H]. simpl. lia.
  - apply bind_Some in H as (ch & _ & H). eapply Hrec; [|exact H]. simpl. lia.
Qed.

Lemma expect_shorter w t r : w <> [] -> expect w t = Some r -> (length r < length t)%nat.
Proof.
  assert (forall w t r, expect w t = Some r -> length t = (length w + length r)%nat) as H.
  { clear. induction w as [|a w IH]; intros [|b t] r; simpl; try (by intros [= <-]).
    destruct (Ascii.eqb a b); [|done]. intros ->%IH. done. }
  intros Hw ->%H. destruct w; [done|]. simpl. lia.
Qed.

Lemma read_number_shorter t x r : read_number t = Some (x, r) -> (length r < length t)%nat.
Proof.
  unfold read_number. intros H.
  assert (exists sign r0, (match t with c :: r => if is_char 45 c then (-1, r) else (1, t)
    | [] => (1, t) end) = (sign, r0) /\ (length r0 <= length t)%nat) as (sign & r0 & E & Hl).
  { destruct t as [|c t]; [eauto|]. destruct (is_char 45 c); eexists _, _; split; eauto; simpl; lia. }
  rewrite E in H. clear E. destruct (span_digits r0) as [int r1] eqn:E1.
  apply span_digits_shorter in E1. destruct int as [|z more]; [done|]. case_match; [done|].
  assert (exists frac r2, read_fraction r1 = (frac, r2) /\ (length r2 <= length r1)%nat)
    as (frac & r2 & E2 & Hl2).
  { unfold read_fraction. destruct r1 as [|c r1]; [eauto|]. destruct (is_char 46 c); [|eauto].
    destruct (span_digits r1) as [ds r'] eqn:E'. apply span_digits_shorter in E' as ->.
    eexists _, _. split; [done|]. simpl. rewrite length_app. lia. }
  rewrite E2 in H.
  assert (exists e r3, read_exponent r2 = Some (e, r3) /\ r = r3) as (e & r3 & E3 & ->).
  { destruct (read_exponent r2) as [[e r3]|] eqn:E3; [|by destruct frac as [[]|]].
    eexists _, _. split; [done|]. destruct frac as [[|]|]; by simplify_eq/=. }
  assert (length r3 <= length r2)%nat as Hl3.
  { clear -E3. unfold read_exponent in E3.
    repeat (case_match; simplify_eq/=; try done);
    repeat match goal with E : span_digits _ = _ |- _ => apply span_digits_shorter in E; subst end;
    rewrite ?length_app; simpl; lia. }
  subst r0. simpl in Hl. rewrite length_app in Hl. lia.
Qed.

Lemma value_shorter n :
  (forall t v r, value n t = Some (v, r) -> (length r < length t)%nat) /\
  (forall t l r, items n t = Some (l, r) -> (length r < length t)%nat) /\
  (forall t acc l r, members n t acc = Some (l, r) -> (length r < length t)%nat).
Proof.
  induction n as [|n (IHv & IHi & IHm)]; [done|]. split; [|split].
  - intros t v r H. cbn [value] in H. pose proof (skip_ws_le t) as Hl.
    destruct (skip_ws t) as [|c t']; [done|]. simpl in Hl. pose proof (skip_ws_le t') as Hl'.
    destruct (is_char 123 c).
    { destruct (skip_ws t') as [|c' r']; [done|]. simpl in Hl'.
      destruct (is_char 125 c'); [injection H as <- <-; lia|].
      apply bind_Some in H as ([l r1] & H & [= <- <-]). apply IHm in H. lia. }
    destruct (is_char 91 c).
    { destruct (skip_ws t') as [|c' r']; [done|]. simpl in Hl'.
      destruct (is_char 93 c'); [injection H as <- <-; lia|].
      apply bind_Some in H as ([l r1] & H & [= <- <-]). apply IHi in H. lia. }
    destruct (is_char 34 c).
    { apply bind_Some in H as ([s r1] & H & [= <- <-]). apply string_rest_shorter in H. lia. }
    do 3 (case_match; [apply bind_Some in H as (r1 & H & [= <- <-]);
      apply expect_shorter in H; simpl in *; [lia|done]|]).
    apply bind_Some in H as ([x r1] & H & [= <- <-]). apply read_number_shorter in H. simpl in H. lia.
  - intros t l r H. cbn [items] in H. apply bind_Some in H as ([v r1] & Hv & H).
    apply IHv in Hv. pose proof (skip_ws_le r1). destruct (skip_ws r1) as [|c r2]; [done|]. simpl in *.
    destruct (is_char 44 c).
    + apply bind_Some in H as ([l' r3] & H & [= <- <-]). apply IHi in H. lia.
    + destruct (is_char 93 c); [injection H as <- <-; lia|done].
  - intros t acc l r H. cbn [members] in H. pose proof (skip_ws_le t).
    destruct (skip_ws t) as [|q t1]; [done|]. destruct (is_char 34 q); [|done].
    apply bind_Some in H as ([k r1] & Hk & H). apply string_rest_shorter in Hk.
    pose proof (skip_ws_le r1). destruct (skip_ws r1) as [|colon r2]; [done|].
    destruct (is_char 58 colon); [|done]. apply bind_Some in H as ([v r3] & Hv & H).
    apply IHv in Hv. cbv zeta in H. pose proof (skip_ws_le r3).
    destruct (skip_ws r3) as [|c r4]; [done|]. simpl in *. destruct (is_char 44 c).
    + apply IHm in H. lia.
    + destruct (is_char 125 c); [injection H as <- <-; lia|done].
Qed.

Lemma bind_ext_Some {A B} (o : option A) (f g : A -> option B) :
  (forall a, o = Some a -> f a = g a) -> (o ≫= f) = (o ≫= g).
Proof. destruct o; simpl; auto. Qed.

(** Enough fuel is as good as more: with [fuel t] the reader never stops for
    want of it. *)
Lemma value_fuel n :
  (forall t m, (2 * length t < n)%nat -> (2 * length t < m)%nat -> value n t = value m t) /\
  (forall t m, (2 * length t + 1 < n)%nat -> (2 * length t + 1 < m)%nat -> items n t = items m t) /\
  (forall t m acc, (2 * length t + 1 < n)%nat -> (2 * length t + 1 < m)%nat ->
     members n t acc = members m t acc).
Proof.
  induction n as [|n (IHv & IHi & IHm)]; [repeat split; intros; lia|]. split; [|split].
  - intros t [|m] Hn Hm; [lia|]. cbn [value]. pose proof (skip_ws_le t) as Hl.
    destruct (skip_ws t) as [|c r]; [done|]. simpl in Hl.
    rewrite (IHi r m), (IHm r m []) by lia. done.
  - intros t [|m] Hn Hm; [lia|]. cbn [items]. rewrite (IHv t m) by lia.
    apply bind_ext_Some. intros [v r] Hv. apply value_shorter in Hv.
    pose proof (skip_ws_le r). destruct (skip_ws r) as [|c r']; [done|]. simpl in *.
    by rewrite (IHi r' m) by lia.
  - intros t [|m] acc Hn Hm; [lia|]. cbn [members]. pose proof (skip_ws_le t).
    destruct (skip_ws t) as [|q r]; [done|]. simpl in *. destruct (is_char 34 q); [|done].
    apply bind_ext_Some. intros [k r1] Hk. apply string_rest_shorter in Hk.
    pose proof (skip_ws_le r1). destruct (skip_ws r1) as [|colon r2]; [done|]. simpl in *.
    destruct (is_char 58 colon); [|done]. rewrite (IHv r2 m) by lia.
    apply bind_ext_Some. intros [v r3] Hv. apply value_shorter in Hv. cbv zeta.
    pose proof (skip_ws_le r3). destruct (skip_ws r3) as [|c r4]; [done|]. simpl in *.
    by rewrite (IHm r4 m) by lia.
Qed.

(** ** Reading back what [JSON.stringify] wrote *)

(** Values a program can print and read back: numbers are exact and no
    property is repeated. *)
Fixpoint printable (v : json Z) : bool :=
  match v with
  | JNum n => (- 2 ^ 53 <=? n) && (n <=? 2 ^ 53)
  | JArr l => forallb printable l
  | JObj l => bool_decide (NoDup (map fst l)) && forallb (fun e => printable e.2) l
  | _ => true
  end.

(** The same value with its numbers as JavaScript numbers. *)
Fixpoint embed (v : json Z) : value_json :=
  match v with
  | JNull => JNull
  | JBool b => JBool b
  | JNum n => JNum (of_Z n)
  | JStr s => JStr s
  | JArr l => JArr (map embed l)
  | JObj l => JObj (map (fun e => (e.1, embed e.2)) l)
  end.

Lemma string_rest_escape c t :
  string_rest (escape c ++ t) = ('(s, rest) ← string_rest t; Some (c :: s, rest)).
Proof. destruct c as [[] [] [] [] [] [] [] []]; reflexivity. Qed.

Lemma string_rest_quoted s r : string_rest (escape_all s ++ code 34 :: r) = Some (chars s, r).
Proof.
  induction s as [|c s IH]; [done|]. cbn [escape_all]. rewrite <- app_assoc, string_rest_escape, IH.
  done.
Qed.

Lemma to_string_chars s : to_string (chars s) = s.
Proof. apply String.string_of_list_ascii_of_string. Qed.

(** What may follow a value inside a text. *)
Definition follow (r : text) : Prop :=
  match r with [] => True | c :: _ => is_char 44 c || is_char 93 c || is_char 125 c = true end.

Lemma follow_cases r :
  follow r -> r = [] \/ exists r', r = code 44 :: r' \/ r = code 93 :: r' \/ r = code 125 :: r'.
Proof.
  destruct r as [|c r]; [by left|]. simpl. unfold is_char. intros H. right. exists r.
  to_prop. destruct H as [[H|H]|H]; rewrite <- (ascii_nat_embedding c), H; auto.
Qed.

Lemma read_number_unsigned sign n r :
  follow r -> - 2 ^ 53 <= sign * Z.of_N n <= 2 ^ 53 ->
  (let '(int, r1) := span_digits (decimal n ++ r) in
   match int with
   | [] => None
   | z :: more =>
       if is_char 48 z && negb (bool_decide (more = [])) then None
       else
         let '(frac, r2) := read_fraction r1 in
         match frac with
         | Some [] => None
         | _ => '(e, r3) ← read_exponent r2; Some (literal_value sign int (default [] frac) e, r3)
         end
   end) = Some (of_Z (sign * Z.of_N n), r).
Proof.
  intros Hr Hn. destruct (decimal_facts n) as (Hd & Hv & Hne). apply follow_cases in Hr.
  rewrite span_digits_app; [|done|by destruct Hr as [->|(r' & [->|[->| ->]])]].
  assert (exists z more, decimal n = z :: more /\
    is_char 48 z && negb (bool_decide (more = [])) = false) as (z & more & E & Hz).
  { destruct (decide (n = 0)%N) as [->|Hn0]; [by eexists _, _|].
    destruct (pretty_lead n EmptyString) as (c & m & Hc & Hb); [lia|].
    rewrite decimal_pos, Hc by lia. eexists _, _. split; [done|].
    unfold is_char, between in *. to_prop. destruct (Nat.eqb_spec (byte c) 48); [lia|done]. }
  rewrite E, Hz, <- E.
  assert (read_fraction r = (None, r) /\ read_exponent r = Some (0, r)) as [-> He]
    by (by destruct Hr as [->|(r' & [->|[->| ->]])]).
  rewrite He. cbn [mbind option_bind default]. rewrite literal_value_integer; rewrite Hv; done.
Qed.

Lemma read_number_print z r :
  follow r -> - 2 ^ 53 <= z <= 2 ^ 53 -> read_number (chars (pretty z) ++ r) = Some (of_Z z, r).
Proof.
  intros Hr Hz. destruct z as [|p|p].
  - apply (read_number_unsigned 1 0 r Hr). lia.
  - change (chars (pretty (Z.pos p))) with (decimal (N.pos p)).
    destruct (decimal_facts (N.pos p)) as (Hd & _ & Hne).
    pose proof (read_number_unsigned 1 (N.pos p) r Hr ltac:(lia)) as H.
    destruct (decimal (N.pos p)) as [|c ds] eqn:E; [done|]. inversion Hd as [|? ? Hc _]; subst.
    unfold read_number. cbn [app]. replace (is_char 45 c) with false; [exact H|].
    unfold is_digit, between, is_char in *. symmetry. to_prop. lia.
  - change (chars (pretty (Z.neg p))) with (code 45 :: decimal (N.pos p)).
    apply (read_number_unsigned (-1) (N.pos p) r Hr). lia.
Qed.

Lemma kind_other c : kind_of_char c <> KOther ->
  is_ws c = false /\ is_char 93 c = false /\ is_char 125 c = false.
Proof. destruct c as [[] [] [] [] [] [] [] []]; vm_compute; auto; by intros []. Qed.

Lemma print_start v :
  exists c t, print v = c :: t /\ kind_of_char c = kind_of v /\
    is_ws c = false /\ is_char 93 c = false /\ is_char 125 c = false.
Proof.
  destruct (print_kind v) as (c & t & Hp & Hk). exists c, t. split; [done|]. split; [done|].
  apply kind_other. rewrite Hk. by destruct v as [|[]| | | |].
Qed.

Lemma skip_ws_nonblank c t : is_ws c = false -> skip_ws (c :: t) = c :: t.
Proof. simpl. by intros ->. Qed.

(** The reader returns the printed value, with enough fuel and a proper
    continuation. *)
Definition reads_back (v : json Z) : Prop :=
  printable v = true -> forall r n, follow r -> (2 * length (print v) < n)%nat ->
    value n (print v ++ r) = Some (embed v, r).

Lemma items_print l r n :
  l <> [] -> Forall reads_back l -> forallb printable l = true ->
  (2 * length (join (code 44) (map print l)) + 1 < n)%nat ->
  items n (join (code 44) (map print l) ++ code 93 :: r) = Some (map embed l, r).
Proof.
  intros Hne Hf. revert n. induction Hf as [|x l Hx Hf IH]; [done|]. intros n Hp Hn.
  cbn [forallb] in Hp. apply andb_true_iff in Hp as [Hpx Hpl].
  rewrite join_cons in *. rewrite length_app in Hn. rewrite <- app_assoc.
  destruct n as [|n]; [lia|]. cbn [items].
  rewrite (Hx Hpx) by (first [by destruct l | lia]). cbn [mbind option_bind].
  destruct l as [|y l]; [done|]. cbn [join_tail app length] in Hn |- *.
  cbn [skip_ws is_ws]. change (is_ws (code 44)) with false. cbv iota.
  change (is_char 44 (code 44)) with true. cbv iota.
  rewrite IH; [done|done|done|]. lia.
Qed.

Lemma put_new {A} k (v : A) l : k ∉ map fst l -> put k v l = l ++ [(k, v)].
Proof.
  induction l as [|[k' v'] l IH]; simpl; [done|]. intros H.
  rewrite elem_of_cons in H. destruct (String.eqb_spec k k'); [tauto|].
  rewrite IH; tauto.
Qed.

Definition print_entry (e : string * json Z) : text := quote e.1 ++ code 58 :: print e.2.
Definition embed_entry (e : string * json Z) : string * value_json := (e.1, embed e.2).

Lemma members_print l r n acc :
  l <> [] -> Forall (fun e => reads_back e.2) l -> forallb (fun e => printable e.2) l = true ->
  NoDup (map fst acc ++ map fst l) ->
  (2 * length (join (code 44) (map print_entry l)) + 1 < n)%nat ->
  members n (join (code 44) (map print_entry l) ++ code 125 :: r) acc =
    Some (acc ++ map embed_entry l, r).
Proof.
  intros Hne Hf. revert n acc. induction Hf as [|[k x] l Hx Hf IH]; [done|]. intros n acc Hp Hd Hn.
  cbn [forallb snd] in Hp, Hx. apply andb_true_iff in Hp as [Hpx Hpl].
  rewrite join_cons in *. unfold print_entry at 1 in Hn. unfold print_entry at 1.
  cbn [fst snd] in *. rewrite !length_app in Hn. cbn [length] in Hn.
  rewrite <- !app_assoc. unfold quote at 1. cbn [app].
  destruct n as [|n]; [lia|]. cbn [members]. rewrite skip_ws_nonblank by done.
  change (is_char 34 (code 34)) with true. cbv iota. rewrite <- app_assoc. cbn [app].
  rewrite string_rest_quoted. cbn [mbind option_bind]. rewrite skip_ws_nonblank by done.
  change (is_char 58 (code 58)) with true. cbv iota.
  rewrite (Hx Hpx) by (first [by destruct l | lia]). cbn [mbind option_bind]. cbv zeta.
  rewrite to_string_chars, put_new.
  2: { intros Hk. cbn [map fst] in Hd. apply NoDup_app in Hd as (_ & Hd & _).
       apply (Hd k Hk). by left. }
  destruct l as [|y l].
  { cbn [join_tail app]. rewrite skip_ws_nonblank by done. done. }
  cbn [join_tail app length] in Hn |- *. rewrite skip_ws_nonblank by done.
  change (is_char 44 (code 44)) with true. cbv iota.
  rewrite IH; [by rewrite <- app_assoc|done|done| |lia].
  cbn [map fst] in Hd |- *. rewrite map_app. cbn [map fst]. by rewrite <- app_assoc.
Qed.

Lemma value_print v : reads_back v.
Proof.
  induction v as [|b|z|s|l IH|l IH] using json_rect_nested; intros Hp r n Hr Hn;
    (destruct n as [|n]; [lia|]).
  - done.
  - by destruct b.
  - cbn [printable] in Hp. apply andb_true_iff in Hp as [H1%Z.leb_le H2%Z.leb_le].
    destruct (print_start (JNum z)) as (c & t & Hc & Hk & Hw & _). cbn [value].
    rewrite Hc. cbn [app]. rewrite skip_ws_nonblank by done.
    assert (is_char 123 c = false /\ is_char 91 c = false /\ is_char 34 c = false /\
      is_char 116 c = false /\ is_char 102 c = false /\ is_char 110 c = false)
      as (-> & -> & -> & -> & -> & ->).
    { clear -Hk. by destruct c as [[] [] [] [] [] [] [] []]. }
    pose proof (read_number_print z r Hr (conj H1 H2)) as E.
    change (chars (pretty z)) with (print (JNum z)) in E. rewrite Hc in E. cbn [app] in E.
    by rewrite E.
  - cbn [print quote app value]. rewrite skip_ws_nonblank by done.
    change (is_char 34 (code 34)) with true. change (is_char 123 (code 34)) with false.
    change (is_char 91 (code 34)) with false. cbv iota. rewrite <- app_assoc. cbn [app].
    rewrite string_rest_quoted. cbn [mbind option_bind]. by rewrite to_string_chars.
  - destruct l as [|x l]; [done|]. cbn [print app value] in Hn |- *.
    rewrite skip_ws_nonblank by done. change (is_char 123 (code 91)) with false.
    change (is_char 91 (code 91)) with true. cbv iota. rewrite <- app_assoc. cbn [app].
    cbn [length] in Hn. rewrite length_app in Hn. cbn [length] in Hn.
    rewrite (items_print (x :: l)); [|done|done|done|lia].
    destruct (print_start x) as (c & t & Hc & _ & Hw & Hb & _).
    rewrite join_cons, Hc. cbn [app]. rewrite skip_ws_nonblank by done. by rewrite Hb.
  - destruct l as [|[k x] l]; [done|]. cbn [printable] in Hp.
    apply andb_true_iff in Hp as [Hd%bool_decide_eq_true Hp].
    cbn [print app value] in Hn |- *. rewrite skip_ws_nonblank by done.
    change (is_char 123 (code 123)) with true. cbv iota. rewrite <- app_assoc. cbn [app].
    change (fun e => quote e.1 ++ code 58 :: print e.2) with print_entry in *.
    cbn [length] in Hn. rewrite length_app in Hn. cbn [length] in Hn.
    rewrite (members_print ((k, x) :: l)); [|done|done|done|done|lia].
    rewrite join_cons. unfold print_entry at 1, quote at 1. cbn [app].
    rewrite skip_ws_nonblank by done. done.
Qed.

(** [JSON.parse(JSON.stringify(v))] is [v]. *)
Lemma parse_print v : printable v = true -> parse (print v) = Some (embed v).
Proof.
  intros Hp. unfold parse, fuel. rewrite <- (app_nil_r (print v)) at 2.
  rewrite value_print; [done|done|done|lia].
Qed.

Lemma parse_stringify v :
  printable v = true -> parse (chars (stringify v)) = Some (embed v).
Proof.
  intros Hp. unfold stringify, chars. rewrite String.list_ascii_of_string_of_list_ascii.
  by apply parse_print.
Qed.

(** ** Objects have each property once *)

Lemma put_keys {A} k (v : A) l :
  map fst (put k v l) = if bool_decide (k ∈ map fst l) then map fst l else map fst l ++ [k].
Proof.
  induction l as [|[k' v'] l IH]; [done|]. cbn [put map fst]. destruct (String.eqb_spec k k') as [->|Hne].
  - rewrite bool_decide_true; [done|]. by left.
  - cbn [map fst]. rewrite IH. do 2 case_bool_decide; try done; exfalso.
    + apply H0. by right.
    + apply elem_of_cons in H0 as [|]; done.
Qed.

Lemma put_NoDup {A} k (v : A) l : NoDup (map fst l) -> NoDup (map fst (put k v l)).
Proof.
  intros H. rewrite put_keys. case_bool_decide as Hk; [done|]. apply NoDup_app.
  split; [done|]. split; [|apply NoDup_singleton]. by intros x Hx ->%list_elem_of_singleton.
Qed.

Lemma members_NoDup n t acc l r :
  NoDup (map fst acc) -> members n t acc = Some (l, r) -> NoDup (map fst l).
Proof.
  revert t acc. induction n as [|n IH]; intros t acc Hd H; [done|]. cbn [members] in H.
  destruct (skip_ws t) as [|q t1]; [done|]. destruct (is_char 34 q); [|done].
  apply bind_Some in H as ([k r1] & _ & H). destruct (skip_ws r1) as [|colon r2]; [done|].
  destruct (is_char 58 colon); [|done]. apply bind_Some in H as ([v r3] & _ & H). cbv zeta in H.
  apply (put_NoDup (to_string k) v) in Hd. destruct (skip_ws r3) as [|c r4]; [done|].
  destruct (is_char 44 c); [by eapply IH, H|]. destruct (is_char 125 c); [|done]. by injection H as <- _.
Qed.

Lemma parse_object_NoDup t l : parse t = Some (JObj l) -> NoDup (map fst l).
Proof.
  unfold parse, fuel. intros ([v r] & H & Hr)%bind_Some. destruct (skip_ws r); [|done].
  injection Hr as ->. cbn [value] in H. destruct (skip_ws t) as [|c t']; [done|].
  destruct (is_char 123 c).
  { destruct (skip_ws t') as [|c' r']; [done|].
    destruct (is_char 125 c'); [injection H as <- _; constructor|].
    apply bind_Some in H as ([l' r1] & H & [= <- <-]). eapply members_NoDup, H. constructor. }
  destruct (is_char 91 c).
  { destruct (skip_ws t') as [|c' r']; [done|]. destruct (is_char 93 c'); [done|].
    by apply bind_Some in H as ([l' r1] & H & ?). }
  repeat (case_match; [by apply bind_Some in H as (? & H & ?); try case_match|]).
  by apply bind_Some in H as ([x r1] & H & ?).
Qed.

(** ** Printed text is well-formed UTF-8 when its strings are *)

Lemma escape_other c : is_ascii c = false -> escape c = [c].
Proof. by destruct c as [[] [] [] [] [] [] [] []]. Qed.

Lemma escape_ascii c : is_ascii c = true -> Forall (fun x => is_ascii x = true) (escape c).
Proof. destruct c as [[] [] [] [] [] [] [] []]; try done; intros _; repeat constructor. Qed.

Lemma escape_all_decodes s d d' t :
  partial_ok (partial_of d) -> decode_stream d (chars s) = Some (d', t) -> bom_seen d = true ->
  exists t', decode_stream d (escape_all s) = Some (d', t').
Proof.
  revert d t. induction s as [|c s IH]; intros d t Hok H Hb; [eauto|].
  cbn [chars String.list_ascii_of_string decode_stream] in H. cbn [escape_all].
  pose proof (feed_ok _ c Hok) as Hf. destruct (feed (partial_of d) c) as [p|x|] eqn:E; [| |done].
  - destruct Hf as (Hp & _ & Ha). rewrite escape_other by done. cbn [app decode_stream]. rewrite E.
    by eapply IH.
  - apply bind_Some in H as ([d1 t1] & H & [= <- _]).
    apply IH in H as [t' Ht']; [|apply fresh_ok|done].
    destruct Hf as [_ Ha]. destruct (is_ascii c) eqn:Hc.
    + assert (d = inside) as ->.
      { destruct d as [p b]. simpl in *. destruct Hok as [Hn _]. rewrite Hn by tauto. by subst b. }
      rewrite decode_stream_app.
      rewrite (proj1 (well_formed_decodes (escape c))) by (by apply well_formed_ascii, escape_ascii).
      simpl. change (mkDecoder fresh true) with inside in Ht'. rewrite Ht'. simpl. eauto.
    + rewrite escape_other by done. cbn [app decode_stream]. rewrite E, Ht'. simpl. eauto.
Qed.

Lemma escape_all_well_formed s : well_formed (chars s) = true -> well_formed (escape_all s) = true.
Proof.
  intros H%well_formed_decodes.
  eapply escape_all_decodes in H as [t' H]; [|apply fresh_ok|done].
  unfold well_formed. by rewrite H.
Qed.

Lemma quote_well_formed s : well_formed (chars s) = true -> well_formed (quote s) = true.
Proof.
  intros H. unfold quote. change (code 34 :: escape_all s ++ [code 34])
    with ([code 34] ++ escape_all s ++ [code 34]).
  apply well_formed_app; [done|]. apply well_formed_app; [by apply escape_all_well_formed|done].
Qed.

End JsonParse.
