(* ===== verification/StreamParser.v ===== *)
(** * Reading provider streams

    [src/src/providers/stream-parser.ts]: the lines and the server-sent events
    of a response body that arrives in pieces.  An async generator is a tree
    ([gen]): it stops, or yields a value and goes on in the world its consumer
    leaves behind.  The body is the finite list of what [reader.read()]
    returns; the end of the list is [done].

    [reference] says what a body means whole: decoded, cut at line feeds, up
    to the first frame that is too long.  The theorem is that any cutting of
    the bytes into network chunks gives the same. *)

From Stdlib Require Import Ascii.
From S2P Require Import Prelude JsNumber Utf8 NumberText Errors Json JsonParse.
Import JsNumber Utf8 NumberText Errors Json JsonParse.

Module StreamParser.

Definition MAX_FRAME_SIZE : Z := 65536.

(** A frame of more than [MAX_FRAME_SIZE] UTF-16 units. *)
Definition too_long (t : text) : bool := MAX_FRAME_SIZE <? Z.of_nat (length16 t).

Definition isRecord (v : json number) : bool := match v with JObj _ => true | _ => false end.

Definition parseStreamJson (value : text) (provider : string) : result error (json number) :=
  match parse value with
  | Some v => if isRecord v then Ok v else Err (ProviderResponseError provider)
  | None => Err (ProviderResponseError provider)
  end.

(** One [reader.read()] that is not [done]. *)
Inductive read_outcome : Type := Chunk (bytes : text) | ReadFails.

(** [pending.endsWith("\r") ? pending.slice(0, -1) : pending] *)
Definition strip_cr (t : text) : text :=
  match rev t with c :: r => if is_char 13 c then rev r else t | [] => t end.

Section Generators.
  Context {W : Type}.

Inductive gen : Type :=
| Stop (r : result error ()) (w : W)
| Yield (item : text) (w : W) (next : W -> gen).

  (** The abort reason of the call's signal, and whatever happens during an
      [await]. *)
  Context (signal : W -> option error) (elapse : W -> W) (provider : string).

(** The loop over the decoded text: complete lines are yielded, then [k]
    continues with the unfinished one. *)
Fixpoint frames (pending decoded : text) (w : W) (k : text -> W -> gen) : gen :=
  match decoded with
  | [] => if too_long pending then Stop (Err (ProviderResponseError provider)) w else k pending w
  | c :: rest =>
      if is_char 10 c then
        if too_long pending then Stop (Err (ProviderResponseError provider)) w
        else Yield (strip_cr pending) w (fun w' => frames [] rest w' k)
      else frames (pending ++ [c]) rest w k
  end.

(** What remains when the body is done. *)
Definition last_line (pending : text) (w : W) : gen :=
  match pending with
  | [] => Stop (Ok ()) w
  | _ => Yield (strip_cr pending) w (fun w' => Stop (Ok ()) w')
  end.

Fixpoint read_loop (parts : list read_outcome) (d : decoder) (pending : text) (w : W) : gen :=
  match signal w with
  | Some reason => Stop (Err reason) w
  | None =>
      let w1 := elapse w in
      match signal w1 with
      | Some reason => Stop (Err reason) w1
      | None =>
          match parts with
          | [] =>
              match decode_flush d with
              | Some decoded => frames pending decoded w1 last_line
              | None => Stop (Err (ProviderResponseError provider)) w1
              end
          | ReadFails :: _ => Stop (Err (ProviderConnectionError provider)) w1
          | Chunk bytes :: rest =>
              match decode_stream d bytes with
              | Some (d', decoded) => frames pending decoded w1 (read_loop rest d')
              | None => Stop (Err (ProviderResponseError provider)) w1
              end
          end
      end
  end.

Definition readLines (body : option (list read_outcome)) (w : W) : gen :=
  match body with
  | None => Stop (Err (ProviderResponseError provider)) w
  | Some parts => read_loop parts new_decoder [] w
  end.

(** [line.startsWith("data:")], with what follows the prefix and one space. *)
Definition data_field (line : text) : option text :=
  match expect (chars "data:") line with
  | Some (c :: r) => Some (if is_char 32 c then r else c :: r)
  | Some [] => Some []
  | None => None
  end.

Fixpoint sse_loop (lines : gen) (data : list text) (size : Z) : gen :=
  match lines with
  | Stop r w => Stop r w
  | Yield line w next =>
      match line with
      | [] =>
          match data with
          | [] => sse_loop (next w) [] 0
          | _ => Yield (Json.join (code 10) data) w (fun w' => sse_loop (next w') [] 0)
          end
      | _ =>
          match data_field line with
          | Some value =>
              let size' := size + Z.of_nat (length16 value) + 1 in
              if MAX_FRAME_SIZE <? size' then Stop (Err (ProviderResponseError provider)) w
              else sse_loop (next w) (data ++ [value]) size'
          | None => sse_loop (next w) data size
          end
      end
  end.

Definition readSseData (body : option (list read_outcome)) (w : W) : gen :=
  sse_loop (readLines body w) [] 0.

(** Everything a generator yields to a consumer that [resume]s it. *)
Fixpoint collect (resume : W -> W) (g : gen) : list text * result error () :=
  match g with
  | Stop r _ => ([], r)
  | Yield x w next => let '(l, r) := collect resume (next (resume w)) in (x :: l, r)
  end.

  (** The worlds of an undisturbed call. *)
  Context (calm : W -> Prop).

(** A generator that yields these items and ends this way, in calm worlds
    only, whatever its consumer does to the world while keeping it calm. *)
Inductive yields : gen -> list text * result error () -> Prop :=
| yields_stop r w : calm w -> yields (Stop r w) ([], r)
| yields_item x w next l r :
    calm w -> (forall w', calm w' -> yields (next w') (l, r)) -> yields (Yield x w next) (x :: l, r).

(** ** The meaning of a whole body *)

(** The complete lines and the unfinished one. *)
Fixpoint split_lines (pending t : text) : list text * text :=
  match t with
  | [] => ([], pending)
  | c :: rest =>
      if is_char 10 c then let '(ls, r) := split_lines [] rest in (pending :: ls, r)
      else split_lines (pending ++ [c]) rest
  end.

Fixpoint check (ls : list text) (tail : list text * result error ()) : list text * result error () :=
  match ls with
  | [] => tail
  | l :: ls' =>
      if too_long l then ([], Err (ProviderResponseError provider))
      else let '(a, r) := check ls' tail in (strip_cr l :: a, r)
  end.

Definition final (rest : text) : list text * result error () :=
  if too_long rest then ([], Err (ProviderResponseError provider))
  else match rest with [] => ([], Ok ()) | _ => ([strip_cr rest], Ok ()) end.

Definition reference (t : text) : list text * result error () :=
  let '(ls, rest) := split_lines [] t in check ls (final rest).

(** The events of a sequence of lines. *)
Fixpoint sse_events (ls : list text) (r : result error ()) (data : list text) (size : Z) :
    list text * result error () :=
  match ls with
  | [] => ([], r)
  | [] :: ls' =>
      match data with
      | [] => sse_events ls' r [] 0
      | _ => let '(l, r') := sse_events ls' r [] 0 in (Json.join (code 10) data :: l, r')
      end
  | line :: ls' =>
      match data_field line with
      | Some value =>
          let size' := size + Z.of_nat (length16 value) + 1 in
          if MAX_FRAME_SIZE <? size' then ([], Err (ProviderResponseError provider))
          else sse_events ls' r (data ++ [value]) size'
      | None => sse_events ls' r data size
      end
  end.

(** ** Lemmas *)

Lemma collect_yields resume g p :
  (forall w, calm w -> calm (resume w)) -> yields g p -> collect resume g = p.
Proof.
  intros Hr. induction 1 as [r w|x w next l r Hw _ IH]; [done|]. simpl. rewrite IH by auto. done.
Qed.

Lemma sse_loop_yields g ls r data size :
  yields g (ls, r) -> yields (sse_loop g data size) (sse_events ls r data size).
Proof.
  intros Hg. remember (ls, r) as p eqn:Hp. revert ls r Hp data size.
  induction Hg as [r0 w Hw|x w next l r0 Hw _ IH]; intros ls r [= <- <-] data size.
  - by constructor.
  - cbn [sse_loop sse_events]. destruct x as [|c x].
    + destruct data as [|v data]; [by apply IH|].
      destruct (sse_events l r0 [] 0) as [l' r'] eqn:E. constructor; [done|]. intros w' Hw'.
      rewrite <- E. by apply IH.
    + destruct (data_field (c :: x)); [|by apply IH]. cbv zeta.
      case_match; [by constructor|by apply IH].
Qed.

Lemma split_lines_app p a b :
  split_lines p (a ++ b) =
    let '(ls, r) := split_lines p a in let '(ls', r') := split_lines r b in (ls ++ ls', r').
Proof.
  revert p. induction a as [|c a IH]; intros p; simpl.
  - by destruct (split_lines p b).
  - destruct (is_char 10 c); rewrite IH; [|done].
    destruct (split_lines [] a) as [ls r]. by destruct (split_lines r b).
Qed.

Lemma check_app a b tail : check (a ++ b) tail = check a (check b tail).
Proof. induction a as [|l a IH]; simpl; [done|]. by rewrite IH. Qed.

Lemma too_long_app a b : too_long a = true -> too_long (a ++ b) = true.
Proof. unfold too_long. rewrite length16_app. to_prop. lia. Qed.

(** An unfinished line that is already too long stays so. *)
Lemma check_too_long p t ls rest :
  too_long p = true -> split_lines p t = (ls, rest) ->
  check ls (final rest) = ([], Err (ProviderResponseError provider)).
Proof.
  revert p. induction t as [|c t IH]; intros p Hp; simpl.
  - intros [= <- <-]. simpl. unfold final. by rewrite Hp.
  - destruct (is_char 10 c).
    + destruct (split_lines [] t) as [ls' r']. intros [= <- <-]. simpl. by rewrite Hp.
    + apply IH. by apply too_long_app.
Qed.

Lemma frames_yields p t w k (X : text -> list text * result error ()) :
  (forall rest w', calm w' -> yields (k rest w') (X rest)) -> calm w ->
  yields (frames p t w k)
    (let '(ls, rest) := split_lines p t in
     check ls (if too_long rest then ([], Err (ProviderResponseError provider)) else X rest)).
Proof.
  intros Hk. revert p w. induction t as [|c t IH]; intros p w Hw; cbn [frames split_lines].
  - cbn [check]. destruct (too_long p); [by constructor|by apply Hk].
  - destruct (is_char 10 c); [|by apply IH]. pose proof (IH []) as IH'.
    destruct (split_lines [] t) as [ls rest]. cbn [check]. destruct (too_long p); [by constructor|].
    destruct (check ls _) as [l r]. by constructor.
Qed.

Lemma last_yields rest w : calm w -> yields (frames rest [] w last_line) (final rest).
Proof.
  intros Hw. unfold final. cbn [frames]. destruct (too_long rest); [by constructor|].
  destruct rest; [by constructor|]. constructor; [done|]. by constructor.
Qed.

Context (quiet : forall w, calm w -> signal w = None).
Context (calm_elapse : forall w, calm w -> calm (elapse w)).

Lemma read_loop_yields bytes d p w d' t :
  decode_stream d (concat bytes) = Some (d', t) -> need (partial_of d') = 0%nat -> calm w ->
  yields (read_loop (map Chunk bytes) d p w)
    (let '(ls, rest) := split_lines p t in check ls (final rest)).
Proof.
  revert d p w t. induction bytes as [|b bytes IH]; intros d p w t Hd Hn Hw; cbn [map read_loop];
    rewrite !quiet by auto.
  - injection Hd as <- <-. unfold decode_flush. rewrite Hn. apply last_yields. auto.
  - cbn [concat] in Hd. rewrite decode_stream_app in Hd.
    apply bind_Some in Hd as ([d1 t1] & Hd1 & Hd). apply bind_Some in Hd as ([d2 t2] & Hd2 & [= <- <-]).
    rewrite Hd1.
    pose proof (frames_yields p t1 (elapse w) (read_loop (map Chunk bytes) d1) (fun rest =>
      let '(ls, rest') := split_lines rest t2 in check ls (final rest'))
      (fun rest w' => IH d1 rest w' t2 Hd2 Hn) (calm_elapse w Hw)) as H.
    rewrite split_lines_app. destruct (split_lines p t1) as [ls1 r1].
    destruct (split_lines r1 t2) as [ls2 r2] eqn:E. rewrite check_app.
    destruct (too_long r1) eqn:Hl; [|exact H].
    by rewrite (check_too_long _ _ _ _ Hl E).
Qed.

Lemma readLines_yields chunks w t :
  decode_fatal (concat chunks) = Some t -> calm w ->
  yields (readLines (Some (map Chunk chunks)) w) (reference t).
Proof.
  intros Hd Hw. unfold decode_fatal in Hd. apply bind_Some in Hd as ([d t'] & Hd & Hf).
  apply bind_Some in Hf as (u & Hu & [= ->]). unfold decode_flush in Hu.
  destruct (need (partial_of d)) eqn:Hn; [|done].
  unfold reference. cbn [readLines]. by eapply read_loop_yields.
Qed.

End Generators.
Arguments Stop {W} r w.
Arguments Yield {W} item w next.
Arguments gen : clear implicits.

(** ** The properties *)

(** C17: network boundaries do not matter.  However the bytes of a body are
    cut into chunks, between the bytes of a character or the characters of a
    line, the lines yielded and the outcome are those of the whole decoded
    text: its lines up to the first that exceeds the frame limit, which is an
    error. *)
Theorem lines_independent_of_chunks {W} signal elapse resume provider (chunks : list text) (w : W) t :
  (forall w, signal w = None) -> decode_fatal (concat chunks) = Some t ->
  collect resume (readLines signal elapse provider (Some (map Chunk chunks)) w) = reference provider t.
Proof.
  intros Hq Hd. apply (collect_yields (fun _ => True)); [done|]. by apply readLines_yields.
Qed.

(** ** A concrete stream *)

Definition ex_bytes (s : string) : text := chars s.
(** Two lines, the first with a carriage return and a euro sign, cut inside
    the sign. *)
Definition ex_chunks : list text :=
  [ex_bytes "a" ++ [code 226; code 130]; [code 172; code 13]; [code 10; code 98]].

Lemma lines_independent_of_chunks_witness :
  collect id (readLines (fun _ => None) id "P" (Some (map Chunk ex_chunks)) ()) =
    ([ex_bytes "a" ++ [code 226; code 130; code 172]; [code 98]], Ok ()).
Proof.
  etransitivity.
  - apply (lines_independent_of_chunks (fun _ => None) id id "P" ex_chunks () (concat ex_chunks));
      [done|by vm_compute].
  - by vm_compute.
Defined.

End StreamParser.
