(* ===== verification/CacheKey.v ===== *)
(** * Hashes of requests: cache keys and payload hashes

    [hash] and [chatCacheKey] of [src/src/cache/cache-key.ts], and the [hash]
    of [src/src/queue/postgres-job-store.ts] that identifies payloads and
    idempotency keys.  SHA-256 is a parameter: the theorems say that two
    different inputs with one hash are a collision of SHA-256 itself. *)

From S2P Require Import Prelude Chat Json.
Import Chat Json.

Module CacheKey.

(** The validated body of a chat request, as JSON. *)
Definition role_name (r : ChatRole) : string :=
  match r with system => "system" | user => "user" | assistant => "assistant" end.

Definition message_json (m : ChatMessage) : json Z :=
  JObj [("role", JStr (role_name (role m))); ("content", JStr (content m))].

Definition chat_json (r : ChatRequest) : json Z :=
  JObj [("model", JStr (model r)); ("messages", JArr (map message_json (messages r)))].

Section Hash.
  Context (sha256 : string -> string).

Definition hash (v : json Z) : string := sha256 (canonical v).

Definition chatCacheKey (namespace ownerId : string) (request : ChatRequest) : string :=
  "modelmux:chat-cache:v1:" +:+ hash (JArr [JStr namespace; JStr ownerId; chat_json request]).

(** Two inputs the hash function confuses. *)
Definition collision : Prop := exists x y, x <> y /\ sha256 x = sha256 y.

Lemma hash_inj v w : hash v = hash w -> normal v = normal w \/ collision.
Proof.
  unfold hash, canonical. intros H.
  destruct (decide (stringify (normal v) = stringify (normal w))) as [He|Hne].
  - left. by apply stringify_inj.
  - right. by exists (stringify (normal v)), (stringify (normal w)).
Qed.

Lemma message_json_normal m :
  normal (message_json m) =
    JObj [("content", JStr (content m)); ("role", JStr (role_name (role m)))].
Proof. reflexivity. Qed.

Lemma chat_json_normal r :
  normal (chat_json r) =
    JObj [("messages", JArr (map normal (map message_json (messages r)))); ("model", JStr (model r))].
Proof. reflexivity. Qed.

Lemma role_name_inj r r' : role_name r = role_name r' -> r = r'.
Proof. by destruct r, r'. Qed.

Lemma messages_inj l l' :
  map normal (map message_json l) = map normal (map message_json l') -> l = l'.
Proof.
  revert l'. induction l as [|[r c] l IH]; intros [|[r' c'] l']; cbn [map]; try done.
  rewrite !message_json_normal. cbn [role content]. intros [= -> Hr Hl].
  apply role_name_inj in Hr as ->. by apply IH in Hl as ->.
Qed.

Lemma chat_json_inj r r' : normal (chat_json r) = normal (chat_json r') -> r = r'.
Proof.
  rewrite !chat_json_normal. destruct r as [m l], r' as [m' l']. simpl. intros [= Hl ->].
  by apply messages_inj in Hl as ->.
Qed.

Lemma string_app_inj (p s s' : string) : p +:+ s = p +:+ s' -> s = s'.
Proof. induction p; simpl; [done|]. intros [= H]. auto. Qed.

End Hash.

(** ** The properties *)

(** Cache keys separate tenants, deployments and requests.  Two requests
    share a cache key only if namespace, owner, model and all messages are
    the same, unless SHA-256 itself collides. *)
Theorem cache_key_separates sha256 ns owner request ns' owner' request' :
  chatCacheKey sha256 ns owner request = chatCacheKey sha256 ns' owner' request' ->
  (ns = ns' /\ owner = owner' /\ request = request') \/ collision sha256.
Proof.
  unfold chatCacheKey. intros H%string_app_inj. apply hash_inj in H as [H|H]; [|by right].
  left. cbn [normal map] in H.
  assert (normal (chat_json request) = normal (chat_json request') /\ ns = ns' /\ owner = owner')
    as (Hr & -> & ->) by (split; [|split]; congruence).
  by apply chat_json_inj in Hr as ->.
Qed.

(** Payload hashes identify payloads.  The hash a job submission is
    compared by does not depend on the order of object keys, and separates
    any two values that differ otherwise, unless SHA-256 itself collides. *)
Theorem payload_hash_identifies sha256 (v w : json Z) :
  (same_value v w -> hash sha256 v = hash sha256 w) /\
  (hash sha256 v = hash sha256 w -> normal v = normal w \/ collision sha256).
Proof.
  split; [|apply hash_inj]. intros H. unfold hash, canonical. by rewrite (same_value_normal _ _ H).
Qed.

(** ** Concrete keys *)

Definition ex_ask (c : string) : ChatRequest := mkChatRequest "llama3" [mkChatMessage user c].

Lemma cache_key_separates_witness :
  chatCacheKey id "n" "alice" (ex_ask "hi") = chatCacheKey id "n" "alice" (ex_ask "hi") /\
  (("n" = "n" /\ "alice" = "alice" /\ ex_ask "hi" = ex_ask "hi") \/ collision id).
Proof.
  split; [reflexivity|]. apply (cache_key_separates id "n" "alice" (ex_ask "hi")). reflexivity.
Defined.

Lemma payload_hash_identifies_witness :
  hash id (JObj [("b", JNum 1); ("a", JNull)]) = hash id (JObj [("a", JNull); ("b", JNum 1)]).
Proof.
  apply (payload_hash_identifies id). eapply same_obj with (k := [("a", JNull); ("b", JNum 1)]).
  - simpl. apply (bool_decide_unpack _). by vm_compute.
  - apply perm_swap.
  - repeat constructor.
Defined.

End CacheKey.
