(* ===== verification/Adapters.v ===== *)
(** * The provider adapters

    [withProviderDeadline] of [src/src/providers/http-request.ts], the classes
    of [src/src/providers/ollama.ts] and [src/src/providers/openai.ts], as
    implementations of the provider interface.

    The network is a parameter: [fetch], the call's abort controller (with its
    listener on the caller's signal and its timer), and whatever happens
    during an [await].  The outer race of [withProviderDeadline] is won by the
    abort whenever there is one, so its outcome is the abort reason if the
    controller has aborted by the end of the operation, and the operation's
    otherwise. *)

From Stdlib Require Import Ascii.
From S2P Require Import Prelude JsNumber Utf8 NumberText Errors Chat Provider Json JsonParse CacheKey StreamParser.
Import JsNumber Utf8 NumberText Errors Chat Provider Json JsonParse CacheKey StreamParser.

Module Adapters.

(** ** The network *)

Inductive abort_cause : Type := ParentAborted | DeadlinePassed.

Record http_request : Type := mkHttpRequest {
  url : string;
  request_headers : list (string * string);
  request_body : string
}.

Record http_response : Type := mkHttpResponse {
  status : Z;
  response_body : option (list read_outcome)
}.

(** [response.ok] *)
Definition ok (r : http_response) : bool := (200 <=? status r) && (status r <=? 299).

Record network (W : Type) : Type := mkNetwork {
  (** the caller's signal *)
  parent_aborted : W -> bool;
  (** a new controller, listening to the caller's signal, and its timer *)
  begin_call : Z -> W -> W;
  (** why the controller has aborted *)
  cause : W -> option abort_cause;
  (** the timer cleared, the listener removed, the controller aborted *)
  end_call : W -> W;
  (** [None] when the promise of [fetch] is rejected *)
  fetch : http_request -> W -> option http_response * W;
  elapse : W -> W
}.
Arguments parent_aborted {W}.
Arguments begin_call {W}.
Arguments cause {W}.
Arguments end_call {W}.
Arguments fetch {W}.
Arguments elapse {W}.

Section Deadline.
  Context {W : Type} (net : network W) (provider : string) (timeoutMs : Z).

(** [controller.signal.reason] *)
Definition signal (w : W) : option error :=
  match cause net w with
  | Some ParentAborted => Some RequestAbortedError
  | Some DeadlinePassed => Some (ProviderTimeoutError provider timeoutMs)
  | None => None
  end.

(** The outcome of the race, for a result [r] of the operation. *)
Definition settle {T} (r : result error T) (w : W) : result error T :=
  match signal w with Some reason => Err reason | None => r end.

Definition withProviderDeadline {T} (operation : W -> result error T * W) (w : W) :
    result error T * W :=
  match throwIfCancelled (parent_aborted net w) with
  | Err e => (Err e, w)
  | Ok _ =>
      let '(r, w1) := operation (begin_call net timeoutMs w) in
      (settle r w1, end_call net w1)
  end.

(** The same for an operation that hands content to a consumer. *)
Fixpoint settle_script (s : script W) : script W :=
  match s with
  | Finish r w => Finish (settle r w) (end_call net w)
  | Delta content w next => Delta content w (fun r w' => settle_script (next r w'))
  end.

Definition withProviderDeadline_stream (operation : W -> script W) (w : W) : script W :=
  match throwIfCancelled (parent_aborted net w) with
  | Err e => Finish (Err e) w
  | Ok _ => settle_script (operation (begin_call net timeoutMs w))
  end.

(** ** [response.json()] *)

Fixpoint body_bytes (parts : list read_outcome) : option text :=
  match parts with
  | [] => Some []
  | Chunk b :: rest => t ← body_bytes rest; Some (b ++ t)
  | ReadFails :: _ => None
  end.

Definition body_json (r : http_response) : option (json number) :=
  bytes ← body_bytes (default [] (response_body r));
  parse (decode_lossy new_decoder bytes).

(** [try { data = await response.json(); } catch { signal.throwIfAborted();
    throw new ProviderResponseError(provider); }] *)
Definition await_json (r : http_response) (w : W) : result error (json number) * W :=
  let w1 := elapse net w in
  match signal w1, body_json r with
  | Some reason, _ => (Err reason, w1)
  | None, Some v => (Ok v, w1)
  | None, None => (Err (ProviderResponseError provider), w1)
  end.

(** [try { response = await fetch(...); } catch { signal.throwIfAborted();
    throw new ProviderConnectionError(provider); }], after
    [signal.throwIfAborted()]. *)
Definition await_fetch (request : http_request) (w : W) : result error http_response * W :=
  match signal w with
  | Some reason => (Err reason, w)
  | None =>
      let '(r, w1) := fetch net request w in
      match r with
      | Some response => (Ok response, w1)
      | None =>
          (match signal w1 with
           | Some reason => Err reason
           | None => Err (ProviderConnectionError provider)
           end, w1)
      end
  end.

End Deadline.

(** A number the constructors accept as a request timeout. *)
Definition timeout_ok (n : number) : bool :=
  negb (negb (isInteger n) || ltb n (of_Z 1) || ltb (of_Z 2147483647) n).

(** [v.key], [undefined] when absent. *)
Definition is_string (v : option (json number)) : option string :=
  match v with Some (JStr s) => Some s | _ => None end.

(** [v == null] *)
Definition nullish (v : option (json number)) : bool :=
  match v with None | Some JNull => true | _ => false end.

(** ** Ollama *)

Module Ollama.

Record OllamaProvider : Type := mkOllama { chatUrl : string; requestTimeoutMs : Z }.

Definition normalizedBaseUrl (baseUrl : string) : string :=
  match rev (chars baseUrl) with
  | c :: _ => if is_char 47 c then baseUrl else baseUrl +:+ "/"
  | [] => "/"
  end.

(** The constructor; [resolve] is [new URL(path, base)], [None] when it
    throws. *)
Definition new_OllamaProvider (resolve : string -> string -> option string) (baseUrl : string)
    (requestTimeoutMs : number) : result error OllamaProvider :=
  if negb (timeout_ok requestTimeoutMs) then
    Err (PlainError "Ollama request timeout must be a positive integer")
  else
    match resolve "api/chat" (normalizedBaseUrl baseUrl) with
    | Some chatUrl => Ok (mkOllama chatUrl (toZ requestTimeoutMs))
    | None => Err (PlainError ("Invalid Ollama base URL: " +:+ baseUrl))
    end.

(** The first 300 UTF-16 units; a character of two units that does not fit is
    cut to its first surrogate. *)
Fixpoint slice (n : nat) (t : text) : text :=
  match t with
  | [] => []
  | c :: r =>
      match units c, n with
      | O, _ => c :: slice n r
      | S O, S n' => c :: slice n' r
      | S (S _), S (S n') => c :: slice n' r
      | S (S _), S O =>
          match r with
          | b1 :: b2 :: b3 :: _ =>
              let cp := ((Z.of_nat (byte c) - 240) * 64 + (Z.of_nat (byte b1) - 128)) * 4096
                        + (Z.of_nat (byte b2) - 128) * 64 + (Z.of_nat (byte b3) - 128) in
              encode (55296 + (cp - 65536) / 1024)
          | _ => []
          end
      | _, O => []
      end
  end.

Definition readErrorDetail (r : http_response) : option string :=
  match body_json r with
  | Some body =>
      if isRecord body then
        (fun s => to_string (slice 300 (chars s))) <$> is_string (field "error" body)
      else None
  | None => None
  end.

(** [JSON.stringify({ model, messages, stream })] *)
Definition request_json (request : ChatRequest) (stream : bool) : json Z :=
  JObj [("model", JStr (model request)); ("messages", JArr (map message_json (messages request)));
        ("stream", JBool stream)].

Definition provider_error : error := ProviderResponseError "Ollama".

(** One line of a stream: the content it carries, empty for none, and whether
    it is the last. *)
Definition read_line (line : text) : result error (string * bool) :=
  data ← parseStreamJson line "Ollama";
  match field "error" data, field "done" data with
  | None, Some (JBool done) =>
      match field "message" data with
      | Some message =>
          match is_string (field "content" message) with
          | Some content =>
              if isRecord message
                 && match field "role" message with
                    | None => true
                    | Some (JStr r) => String.eqb r "assistant"
                    | Some _ => false
                    end
                 && match field "tool_calls" message with Some (JArr (_ :: _)) => false | _ => true end
              then Ok (content, done) else Err provider_error
          | None => Err provider_error
          end
      | None => if done then Ok (EmptyString, true) else Err provider_error
      end
  | _, _ => Err provider_error
  end.

Section Calls.
  Context {W : Type} (net : network W) (self : OllamaProvider).
  Abbreviation signal := (Adapters.signal net "Ollama" (requestTimeoutMs self)).

Definition send (request : ChatRequest) (stream : bool) (w : W) : result error http_response * W :=
  let '(r, w1) := await_fetch net "Ollama" (requestTimeoutMs self)
    (mkHttpRequest (chatUrl self) [("content-type", "application/json")]
       (stringify (request_json request stream))) w in
  match r with
  | Err e => (Err e, w1)
  | Ok response =>
      if ok response then (Ok response, w1)
      else
        let w2 := elapse net w1 in
        (match signal w2 with
         | Some reason => Err reason
         | None => Err (ProviderHttpError "Ollama" (status response) (readErrorDetail response))
         end, w2)
  end.

Definition chat (request : ChatRequest) : W -> result error ChatResponse * W :=
  withProviderDeadline net "Ollama" (requestTimeoutMs self) (fun w =>
    let '(r, w1) := send request false w in
    match r with
    | Err e => (Err e, w1)
    | Ok response =>
        let '(d, w2) := await_json net "Ollama" (requestTimeoutMs self) response w1 in
        match d with
        | Err e => (Err e, w2)
        | Ok data =>
            (match field "message" data with
             | Some message =>
                 match is_string (field "content" message) with
                 | Some content => Ok (mkChatResponse content)
                 | None => Err provider_error
                 end
             | None => Err provider_error
             end, w2)
        end
    end).

(** The loop over the lines. *)
Fixpoint stream_loop (lines : gen W) : script W :=
  match lines with
  | Stop (Err e) w => Finish (Err e) w
  | Stop (Ok _) w => Finish (Err provider_error) w
  | Yield line w next =>
      if blank line then stream_loop (next w)
      else
        match signal w, read_line line with
        | Some reason, _ => Finish (Err reason) w
        | None, Err e => Finish (Err e) w
        | None, Ok (content, done) =>
            if String.eqb content EmptyString then
              if done then Finish (Ok ()) w else stream_loop (next w)
            else
              Delta content w (fun r w' =>
                match r with
                | Err e => Finish (Err e) w'
                | Ok _ => if done then Finish (Ok ()) w' else stream_loop (next w')
                end)
        end
  end.

Definition stream (request : ChatRequest) : W -> script W :=
  withProviderDeadline_stream net "Ollama" (requestTimeoutMs self) (fun w =>
    let '(r, w1) := send request true w in
    match r with
    | Err e => Finish (Err e) w1
    | Ok response => stream_loop (readLines signal (elapse net) "Ollama" (response_body response) w1)
    end).

Definition provider : LLMProvider W := mkProvider chat (Some stream).

End Calls.

(** What a sequence of lines means: the contents in order, and success only
    at a line marked as the last. *)
Fixpoint line_contents (ls : list text) (r : result error ()) : list string * result error () :=
  match ls with
  | [] => ([], match r with Err e => Err e | Ok _ => Err provider_error end)
  | line :: ls' =>
      if blank line then line_contents ls' r
      else
        match read_line line with
        | Err e => ([], Err e)
        | Ok (content, done) =>
            let d := if String.eqb content EmptyString then [] else [content] in
            if done then (d, Ok ())
            else let '(cs, r') := line_contents ls' r in (d ++ cs, r')
        end
  end.

End Ollama.

(** ** OpenAI *)

Module OpenAI.

Record OpenAIProvider : Type := mkOpenAI { apiKey : string; requestTimeoutMs : Z }.

(** [/^[\x21-\x7E]+$/.test(apiKey)] *)
Definition token (key : string) : bool :=
  match key with
  | EmptyString => false
  | _ => forallb (between 33 126) (chars key)
  end.

Definition new_OpenAIProvider (key : string) (requestTimeoutMs : number) :
    result error OpenAIProvider :=
  if negb (token key) then
    Err (PlainError "OpenAI API key must be a non-empty token without whitespace")
  else if negb (timeout_ok requestTimeoutMs) then
    Err (PlainError "OpenAI request timeout must be a positive integer")
  else Ok (mkOpenAI key (toZ requestTimeoutMs)).

Definition provider_error : error := ProviderResponseError "OpenAI".

Definition textContent (message : json number) : result error string :=
  match is_string (field "content" message) with
  | Some content => Ok content
  | None =>
      match is_string (field "refusal" message) with
      | Some refusal => if nullish (field "content" message) then Ok refusal else Err provider_error
      | None => Err provider_error
      end
  end.

(** [JSON.stringify({ model, messages, stream, store: false })] *)
Definition request_json (request : ChatRequest) (stream : bool) : json Z :=
  JObj [("model", JStr (model request)); ("messages", JArr (map message_json (messages request)));
        ("stream", JBool stream); ("store", JBool false)].

(** Whether [String(v)] throws: an object with a property [toString] of its
    own, which is no function in parsed JSON, cannot be converted, nor can an
    array that contains one. *)
Fixpoint string_throws (v : json number) : bool :=
  match v with
  | JObj _ => defined (field "toString" v)
  | JArr vs => existsb string_throws vs
  | _ => false
  end.

(** The [TypeError] it throws. *)
Definition conversion_error : error := PlainError "Cannot convert object to primitive value".

(** [String(v) === s] when it does not throw, for a non-empty [s] without
    comma that is not the text of another value: an array of one element has
    the text of its element. *)
Fixpoint string_is (s : string) (v : json number) : bool :=
  match v with
  | JStr x => String.eqb x s
  | JArr [x] => string_is s x
  | _ => false
  end.

(** One event other than the terminal one.  [None]: nothing but usage.  The
    content, empty for none, is delivered before the finish reason is looked
    at: the last component says whether the stream is then finished, goes on,
    or fails. *)
Definition read_event (finished : bool) (event : text) :
    result error (option (string * result error bool)) :=
  data ← parseStreamJson event "OpenAI";
  match field "error" data, field "choices" data with
  | None, Some (JArr []) => Ok None
  | None, Some (JArr (choice :: _)) =>
      match field "delta" choice with
      | Some delta =>
          if finished || negb (isRecord choice) || negb (isRecord delta)
             || match field "index" choice with
                | None => false
                | Some (JNum (Num q)) => negb (Qeq_bool q 0)
                | Some _ => true
                end
             || match field "role" delta with
                | None => false
                | Some (JStr r) => negb (String.eqb r "assistant")
                | Some _ => true
                end
             || defined (field "tool_calls" delta) || defined (field "function_call" delta)
          then Err provider_error
          else
            content ← (if nullish (field "content" delta) && nullish (field "refusal" delta)
                       then Ok EmptyString else textContent delta);
            Ok (Some (content,
              match field "finish_reason" choice with
              | None | Some JNull => Ok false
              | Some reason =>
                  if string_throws reason then Err conversion_error
                  else if string_is "stop" reason || string_is "length" reason
                     || string_is "content_filter" reason
                  then Ok true else Err provider_error
              end))
      | None => Err provider_error
      end
  | _, _ => Err provider_error
  end.

Definition is_done (event : text) : bool := bool_decide (event = chars "[DONE]").

Section Calls.
  Context {W : Type} (net : network W) (self : OpenAIProvider).
  Abbreviation signal := (Adapters.signal net "OpenAI" (requestTimeoutMs self)).

Definition send (request : ChatRequest) (stream : bool) (w : W) : result error http_response * W :=
  let '(r, w1) := await_fetch net "OpenAI" (requestTimeoutMs self)
    (mkHttpRequest "https://api.openai.com/v1/chat/completions"
       [("authorization", "Bearer " +:+ apiKey self); ("content-type", "application/json")]
       (stringify (request_json request stream))) w in
  match r with
  | Err e => (Err e, w1)
  | Ok response =>
      if ok response then (Ok response, w1)
      else (Err (ProviderHttpError "OpenAI" (status response) None), w1)
  end.

Definition chat (request : ChatRequest) : W -> result error ChatResponse * W :=
  withProviderDeadline net "OpenAI" (requestTimeoutMs self) (fun w =>
    let '(r, w1) := send request false w in
    match r with
    | Err e => (Err e, w1)
    | Ok response =>
        let '(d, w2) := await_json net "OpenAI" (requestTimeoutMs self) response w1 in
        match d with
        | Err e => (Err e, w2)
        | Ok data =>
            (match field "choices" data with
             | Some (JArr (choice :: _)) =>
                 match field "message" choice with
                 | Some message =>
                     match is_string (field "role" message) with
                     | Some r =>
                         if String.eqb r "assistant" then mkChatResponse <$> textContent message
                         else Err provider_error
                     | None => Err provider_error
                     end
                 | None => Err provider_error
                 end
             | _ => Err provider_error
             end, w2)
        end
    end).

(** The loop over the events. *)
Fixpoint stream_loop (events : gen W) (finished : bool) : script W :=
  match events with
  | Stop (Err e) w => Finish (Err e) w
  | Stop (Ok _) w => Finish (Err provider_error) w
  | Yield event w next =>
      match signal w with
      | Some reason => Finish (Err reason) w
      | None =>
          if is_done event then Finish (if finished then Ok () else Err provider_error) w
          else
            match read_event finished event with
            | Err e => Finish (Err e) w
            | Ok None => stream_loop (next w) finished
            | Ok (Some (content, finish)) =>
                let continue w' :=
                  match finish with
                  | Err e => Finish (Err e) w'
                  | Ok f => stream_loop (next w') (finished || f)
                  end in
                if String.eqb content EmptyString then continue w
                else
                  Delta content w (fun r w' =>
                    match r with Err e => Finish (Err e) w' | Ok _ => continue w' end)
            end
      end
  end.

Definition stream (request : ChatRequest) : W -> script W :=
  withProviderDeadline_stream net "OpenAI" (requestTimeoutMs self) (fun w =>
    let '(r, w1) := send request true w in
    match r with
    | Err e => Finish (Err e) w1
    | Ok response =>
        stream_loop (readSseData signal (elapse net) "OpenAI" (response_body response) w1) false
    end).

Definition provider : LLMProvider W := mkProvider chat (Some stream).

End Calls.

(** What a sequence of events means: the contents in order, and success only
    at the terminal event after a finish reason. *)
Fixpoint event_contents (es : list text) (r : result error ()) (finished : bool) :
    list string * result error () :=
  match es with
  | [] => ([], match r with Err e => Err e | Ok _ => Err provider_error end)
  | event :: es' =>
      if is_done event then ([], if finished then Ok () else Err provider_error)
      else
        match read_event finished event with
        | Err e => ([], Err e)
        | Ok None => event_contents es' r finished
        | Ok (Some (content, finish)) =>
            let d := if String.eqb content EmptyString then [] else [content] in
            match finish with
            | Err e => (d, Err e)
            | Ok f => let '(cs, r') := event_contents es' r (finished || f) in (d ++ cs, r')
            end
        end
  end.

End OpenAI.

(** ** Streams that arrive *)

(** Run a stream for a consumer that accepts and records every piece. *)
Definition deliver {W} (s : script W) (p : W * list string) : result error () * (W * list string) :=
  run_script fst (fun w p => (w, p.2)) id (fun c p => (Ok (), (p.1, p.2 ++ [c]))) s p.

(** The outcome of a recorded stream: its contents and how it ended. *)
Definition delivered {W} (s : script W) (w : W) : list string * result error () :=
  let '(r, p) := deliver s (w, []) in (p.2, r).

(** A stream that delivers these pieces to an accepting consumer and ends
    this way, in calm worlds as long as the consumer leaves calm ones. *)
Inductive delivers {W} (calm : W -> Prop) : script W -> list string * result error () -> Prop :=
| delivers_finish r w : calm w -> delivers calm (Finish r w) ([], r)
| delivers_delta c w next l r :
    calm w -> (forall w', calm w' -> delivers calm (next (Ok ()) w') (l, r)) ->
    delivers calm (Delta c w next) (c :: l, r).

Lemma delivers_delivered {W} calm (s : script W) w out : delivers calm s out -> delivered s w = out.
Proof.
  intros H. assert (forall p, (deliver s p).1 = out.2 /\ (deliver s p).2.2 = p.2 ++ out.1) as Hd.
  { induction H as [r w0|c w0 next l r Hw _ IH]; intros p.
    - split; [done|]. simpl. by rewrite app_nil_r.
    - destruct (IH w0 Hw (w0, p.2 ++ [c])) as [H1 H2]. split; [exact H1|].
      etransitivity; [exact H2|]. simpl. by rewrite <- app_assoc. }
  unfold delivered. destruct (Hd (w, [])) as [H1 H2].
  destruct (deliver s (w, [])) as [r p]. simpl in *. rewrite H1, H2. by destruct out.
Qed.

(** A piece of content, when it is not empty. *)
Lemma delivers_content {W} (calm : W -> Prop) (content : string) (w : W) (k : W -> script W) e l r :
  (forall w', calm w' -> delivers calm (k w') (l, r)) -> calm w ->
  delivers calm (if String.eqb content EmptyString then k w
            else Delta content w (fun o w' => match o with Err x => e x w' | Ok _ => k w' end))
    ((if String.eqb content EmptyString then [] else [content]) ++ l, r).
Proof. intros H Hw. destruct (String.eqb content EmptyString); [by apply H|]. by constructor. Qed.

Section Quiet.
  Context {W : Type} (net : network W) (calm : W -> Prop).
  Context (quiet : forall w, calm w -> cause net w = None).
  Context (calm_end : forall w, calm w -> calm (end_call net w)).

Lemma quiet_signal p t w : calm w -> signal net p t w = None.
Proof. intros Hw. unfold signal. by rewrite quiet. Qed.

Lemma delivers_settle p t s out :
  delivers calm s out -> delivers calm (settle_script net p t s) out.
Proof.
  induction 1 as [r w Hw|c w next l r Hw _ IH]; cbn [settle_script].
  - unfold settle. rewrite quiet_signal by done. constructor. auto.
  - by constructor.
Qed.

Lemma ollama_loop_delivers self g ls r :
  yields calm g (ls, r) -> delivers calm (Ollama.stream_loop net self g) (Ollama.line_contents ls r).
Proof.
  intros Hg. remember (ls, r) as p eqn:Hp. revert ls r Hp.
  induction Hg as [r0 w Hw|x w next l r0 Hw _ IH]; intros ls r [= <- <-].
  - destruct r0; by constructor.
  - cbn [Ollama.stream_loop Ollama.line_contents]. destruct (blank x); [by apply IH|].
    rewrite quiet_signal by done.
    destruct (Ollama.read_line x) as [e|[content done]]; [by constructor|].
    specialize (fun w' Hw' => IH w' Hw' l r0 eq_refl). destruct done; cbv zeta.
    + pose proof (delivers_content calm content w (fun w' => Finish (Ok ()) w')
        (fun e w' => Finish (Err e) w') [] (Ok ()) (delivers_finish calm _) Hw) as H.
      rewrite app_nil_r in H. exact H.
    + destruct (Ollama.line_contents l r0) as [cs r'].
      by apply (delivers_content calm content w (fun w' => Ollama.stream_loop net self (next w'))
        (fun e w' => Finish (Err e) w')).
Qed.

Lemma openai_loop_delivers self g es r finished :
  yields calm g (es, r) ->
  delivers calm (OpenAI.stream_loop net self g finished) (OpenAI.event_contents es r finished).
Proof.
  intros Hg. remember (es, r) as p eqn:Hp. revert es r Hp finished.
  induction Hg as [r0 w Hw|x w next l r0 Hw _ IH]; intros es r [= <- <-] finished.
  - destruct r0; by constructor.
  - cbn [OpenAI.stream_loop OpenAI.event_contents]. rewrite quiet_signal by done.
    destruct (OpenAI.is_done x); [by constructor|].
    destruct (OpenAI.read_event finished x) as [e|[[content finish]|]];
      [by constructor| |by apply IH].
    cbv zeta. destruct finish as [e|f].
    + pose proof (delivers_content calm content w (fun w' => Finish (Err e) w')
        (fun e w' => Finish (Err e) w') [] (Err e) (delivers_finish calm _) Hw) as H.
      rewrite app_nil_r in H. exact H.
    + specialize (fun w' Hw' => IH w' Hw' l r0 eq_refl (finished || f)).
      destruct (OpenAI.event_contents l r0 (finished || f)) as [cs r'].
      by apply (delivers_content calm content w
        (fun w' => OpenAI.stream_loop net self (next w') (finished || f))
        (fun e w' => Finish (Err e) w')).
Qed.

Context (calm_elapse : forall w, calm w -> calm (elapse net w)).
Context (request : ChatRequest) (w w1 : W) (chunks : list text) (t : text).
Context (wanted : parent_aborted net w = false).
Context (decoded : decode_fatal (concat chunks) = Some t).

(** [fetch], called in the world [w0], answers with these chunks. *)
Definition answers (w0 : W) : Prop :=
  forall r, fetch net r w0 = (Some (mkHttpResponse 200 (Some (map Chunk chunks))), w1).

Lemma ollama_stream_delivers self :
  calm (begin_call net (Ollama.requestTimeoutMs self) w) -> calm w1 ->
  answers (begin_call net (Ollama.requestTimeoutMs self) w) ->
  delivers calm (Ollama.stream net self request w)
    (let '(lines, r) := reference "Ollama" t in Ollama.line_contents lines r).
Proof.
  intros Hb H1 Hf. unfold Ollama.stream, withProviderDeadline_stream. rewrite wanted.
  cbn [throwIfCancelled]. apply delivers_settle.
  unfold Ollama.send, await_fetch. rewrite quiet_signal, Hf by done. cbn [ok status response_body].
  pose proof (readLines_yields (signal net "Ollama" (Ollama.requestTimeoutMs self)) (elapse net)
    "Ollama" calm (fun w => quiet_signal _ _ w) calm_elapse chunks w1 t decoded H1) as Hy.
  destruct (reference "Ollama" t) as [lines r]. by apply ollama_loop_delivers.
Qed.

Lemma openai_stream_delivers self :
  calm (begin_call net (OpenAI.requestTimeoutMs self) w) -> calm w1 ->
  answers (begin_call net (OpenAI.requestTimeoutMs self) w) ->
  delivers calm (OpenAI.stream net self request w)
    (let '(lines, r) := reference "OpenAI" t in
     let '(events, r') := sse_events "OpenAI" lines r [] 0 in
     OpenAI.event_contents events r' false).
Proof.
  intros Hb H1 Hf. unfold OpenAI.stream, withProviderDeadline_stream. rewrite wanted.
  cbn [throwIfCancelled]. apply delivers_settle.
  unfold OpenAI.send, await_fetch. rewrite quiet_signal, Hf by done. cbn [ok status response_body].
  pose proof (readLines_yields (signal net "OpenAI" (OpenAI.requestTimeoutMs self)) (elapse net)
    "OpenAI" calm (fun w => quiet_signal _ _ w) calm_elapse chunks w1 t decoded H1) as Hy.
  destruct (reference "OpenAI" t) as [lines r].
  apply (sse_loop_yields "OpenAI" _ _ _ _ [] 0) in Hy.
  destruct (sse_events "OpenAI" lines r [] 0) as [events r']. by apply openai_loop_delivers.
Qed.

End Quiet.

(** ** Errors and aborts *)

(** The network with a record of the timers armed and released and of the
    requests sent. *)
Inductive net_op : Type := Armed (ms : Z) | Sent (r : http_request) | Released.

Definition logged {W} (net : network W) : network (W * list net_op) :=
  mkNetwork _ (fun p => parent_aborted net p.1)
    (fun ms p => (begin_call net ms p.1, p.2 ++ [Armed ms]))
    (fun p => cause net p.1)
    (fun p => (end_call net p.1, p.2 ++ [Released]))
    (fun r p => let '(o, w) := fetch net r p.1 in (o, (w, p.2 ++ [Sent r])))
    (fun p => (elapse net p.1, p.2)).

(** At most one request is sent. *)
Definition one_request (ops : list net_op) : Prop := ops = [] \/ exists r, ops = [Sent r].

(** What a call may fail with by itself. *)
Inductive adapter_error (provider : string) (timeoutMs : Z) : error -> Prop :=
| ae_aborted : adapter_error provider timeoutMs RequestAbortedError
| ae_timeout : adapter_error provider timeoutMs (ProviderTimeoutError provider timeoutMs)
| ae_connection : adapter_error provider timeoutMs (ProviderConnectionError provider)
| ae_response : adapter_error provider timeoutMs (ProviderResponseError provider)
| ae_http s d : adapter_error provider timeoutMs (ProviderHttpError provider s d).
#[local] Hint Constructors adapter_error : modelmux.

(** What a stream may fail with by itself: besides, the OpenAI adapter lets
    the conversion of a finish reason throw. *)
Inductive stream_error (provider : string) (timeoutMs : Z) : error -> Prop :=
| se_own e : adapter_error provider timeoutMs e -> stream_error provider timeoutMs e
| se_conversion : provider = "OpenAI" -> stream_error provider timeoutMs OpenAI.conversion_error.
#[local] Hint Constructors stream_error : modelmux.

Section Discipline.
  Context {W : Type} (net : network W) (provider : string) (timeoutMs : Z).
  Abbreviation sig := (signal net provider timeoutMs).
  Abbreviation own_error := (adapter_error provider timeoutMs).
  Abbreviation script_error := (stream_error provider timeoutMs).

(** A generator fails only with the call's own errors. *)
Inductive gen_ok : gen W -> Prop :=
| gen_ok_stop r w : (forall e, r = Err e -> own_error e) -> gen_ok (Stop r w)
| gen_ok_yield x w next : (forall w', gen_ok (next w')) -> gen_ok (Yield x w next).

(** The body of a streaming call: content is handed over only while the call
    is alive, and the body fails with the call's own errors or with the error
    of the consumer. *)
Inductive body_ok : option error -> script W -> Prop :=
| body_ok_finish last r w :
    (forall e, r = Err e -> script_error e \/ last = Some e) -> body_ok last (Finish r w)
| body_ok_delta last c w next :
    sig w = None -> (forall w', body_ok None (next (Ok ()) w')) ->
    (forall e w', body_ok (Some e) (next (Err e) w')) -> body_ok last (Delta c w next).

(** The call as its caller sees it: besides, once the controller has aborted,
    the outcome is the reason of the abort. *)
Inductive disciplined : option error -> script W -> Prop :=
| dis_refused last w :
    parent_aborted net w = true -> disciplined last (Finish (Err RequestAbortedError) w)
| dis_finish last r w :
    (forall reason, sig w = Some reason -> r = Err reason) ->
    (forall e, r = Err e -> script_error e \/ last = Some e) ->
    disciplined last (Finish r (end_call net w))
| dis_delta last c w next :
    sig w = None -> (forall w', disciplined None (next (Ok ()) w')) ->
    (forall e w', disciplined (Some e) (next (Err e) w')) -> disciplined last (Delta c w next).

Lemma sig_own w reason : sig w = Some reason -> own_error reason.
Proof. unfold signal. destruct (cause net w) as [[]|]; intros [= <-]; auto with modelmux. Qed.

Lemma settle_ok {T} (r : result error T) w (P : error -> Prop) :
  (forall e, own_error e -> P e) -> (forall e, r = Err e -> P e) ->
  forall e, settle net provider timeoutMs r w = Err e -> P e.
Proof.
  intros HP Hr e. unfold settle. destruct (sig w) as [reason|] eqn:E; [|apply Hr].
  intros [= <-]. apply HP. by eapply sig_own.
Qed.

(** After an abort, the abort wins the race. *)
Lemma settle_aborted {T} (r : result error T) w reason :
  sig w = Some reason -> settle net provider timeoutMs r w = Err reason.
Proof. intros H. unfold settle. by rewrite H. Qed.

Lemma settle_script_ok last s : body_ok last s -> disciplined last (settle_script net provider timeoutMs s).
Proof.
  induction 1 as [last r w Hr|last c w next Hs _ IHok _ IHerr]; cbn [settle_script].
  - constructor; [intros reason; apply settle_aborted|]. apply settle_ok; auto with modelmux.
  - by constructor.
Qed.

Lemma deadline_stream_ok operation w :
  (forall w', body_ok None (operation w')) ->
  disciplined None (withProviderDeadline_stream net provider timeoutMs operation w).
Proof.
  intros H. unfold withProviderDeadline_stream, throwIfCancelled.
  destruct (parent_aborted net w) eqn:E; [by constructor|]. by apply settle_script_ok.
Qed.

(** A call that answers once, on a fresh record: refused when the caller has
    already gone; otherwise the timer is armed with the time limit, at most
    one request is sent, the outcome is the reason of the abort if the
    controller has aborted by then, every failure is one of the call's own,
    and the timer and the controller are released at the end. *)
Definition timed_call {T} (w : W) (out : result error T * (W * list net_op)) : Prop :=
  if parent_aborted net w then out = (Err RequestAbortedError, (w, []))
  else exists r w1 sent,
    out = (r, (end_call net w1, Armed timeoutMs :: sent ++ [Released])) /\ one_request sent /\
    (forall reason, sig w1 = Some reason -> r = Err reason) /\
    (forall e, r = Err e -> own_error e).

(** What such a call does under its deadline. *)
Definition polite {T} (operation : W * list net_op -> result error T * (W * list net_op)) : Prop :=
  forall p, (exists sent, (operation p).2.2 = p.2 ++ sent /\ one_request sent) /\
    forall e, (operation p).1 = Err e -> own_error e.

Lemma signal_logged p : signal (logged net) provider timeoutMs p = sig p.1.
Proof. done. Qed.

Lemma deadline_timed {T} (operation : W * list net_op -> result error T * (W * list net_op)) w :
  polite operation ->
  timed_call w (withProviderDeadline (logged net) provider timeoutMs operation (w, [])).
Proof.
  intros H. unfold timed_call, withProviderDeadline. cbn [parent_aborted logged fst].
  destruct (parent_aborted net w); [done|]. cbn [throwIfCancelled].
  destruct (H (begin_call (logged net) timeoutMs (w, []))) as [(sent & Hl & Hs) He].
  destruct (operation _) as [r [w1 l]]. simpl in Hl, He. subst l.
  exists (settle net provider timeoutMs r w1), w1, sent. split; [done|]. split; [done|].
  split; [intros reason; apply settle_aborted|]. by apply settle_ok.
Qed.

Lemma frames_ok p t w k : (forall p w, gen_ok (k p w)) -> gen_ok (frames provider p t w k).
Proof.
  intros Hk. revert p w. induction t as [|c t IH]; intros p w; cbn [frames].
  - destruct (too_long p); [|apply Hk]. constructor. intros e [= <-]. auto with modelmux.
  - destruct (is_char 10 c); [|apply IH]. destruct (too_long p); constructor; auto.
    intros e [= <-]. auto with modelmux.
Qed.

Lemma readLines_ok body w : gen_ok (readLines sig (elapse net) provider body w).
Proof.
  destruct body as [parts|]; cbn [readLines]; [|constructor; intros e [= <-]; auto with modelmux].
  generalize new_decoder ([] : text). revert w.
  induction parts as [|part parts IH]; intros w d p; cbn [read_loop];
    (destruct (sig w) as [reason|] eqn:E;
      [constructor; intros e [= <-]; by eapply sig_own|]);
    (destruct (sig (elapse net w)) as [reason|] eqn:E1;
      [constructor; intros e [= <-]; by eapply sig_own|]).
  - destruct (decode_flush d); [|constructor; intros e [= <-]; auto with modelmux].
    apply frames_ok. intros [|c q] w'; [by constructor|]. constructor. intros w''. by constructor.
  - destruct part as [bytes|]; [|constructor; intros e [= <-]; auto with modelmux].
    destruct (decode_stream d bytes) as [[d' t]|]; [|constructor; intros e [= <-]; auto with modelmux].
    by apply frames_ok.
Qed.

Lemma sse_loop_ok g data size : gen_ok g -> gen_ok (sse_loop provider g data size).
Proof.
  intros Hg. revert data size. induction Hg as [r w Hr|x w next _ IH]; intros data size; cbn [sse_loop].
  - by constructor.
  - destruct x as [|c x].
    + destruct data; [by apply IH|]. by constructor.
    + destruct (data_field (c :: x)); [|by apply IH]. cbv zeta. case_match; [|by apply IH].
      constructor. intros e [= <-]. auto with modelmux.
Qed.

Lemma await_fetch_ok request w e w' :
  await_fetch net provider timeoutMs request w = (Err e, w') -> own_error e.
Proof.
  unfold await_fetch. destruct (sig w) as [reason|] eqn:E.
  - intros [= <- _]. by eapply sig_own.
  - destruct (fetch net request w) as [[r|] w1]; [done|]. intros [= He _].
    destruct (sig w1) as [reason|] eqn:E1; injection He as <-; [by eapply sig_own|auto with modelmux].
Qed.

Lemma await_fetch_polite request : polite (await_fetch (logged net) provider timeoutMs request).
Proof.
  intros p. unfold await_fetch. rewrite signal_logged.
  destruct (sig p.1) as [reason|] eqn:E.
  { split; [exists []; split; [by rewrite app_nil_r|by left]|].
    intros e [= <-]. by eapply sig_own. }
  cbn [fetch logged]. destruct (fetch net request p.1) as [[r|] w1]; cbn [fst snd].
  - split; [exists [Sent request]; split; [done|by right; eauto]|done].
  - rewrite signal_logged. cbn [fst].
    split; [exists [Sent request]; split; [done|by right; eauto]|].
    destruct (sig w1) as [reason|] eqn:E1; intros e [= <-]; [by eapply sig_own|auto with modelmux].
Qed.

Lemma await_json_polite r p :
  let '(d, p') := await_json (logged net) provider timeoutMs r p in
  p'.2 = p.2 /\ forall e, d = Err e -> own_error e.
Proof.
  unfold await_json. cbv zeta. rewrite signal_logged. cbn [elapse logged fst snd].
  destruct (sig _) as [reason|] eqn:E; [|destruct (body_json r)];
    (split; [done|]); intros e [= <-]; [by eapply sig_own|auto with modelmux].
Qed.

(** A request, then the reading of its answer. *)
Lemma polite_read {T} (send : W * list net_op -> result error http_response * (W * list net_op))
    (read : json number -> result error T) :
  polite send -> (forall data e, read data = Err e -> own_error e) ->
  polite (fun p =>
    let '(r, p1) := send p in
    match r with
    | Err e => (Err e, p1)
    | Ok response =>
        let '(d, p2) := await_json (logged net) provider timeoutMs response p1 in
        match d with Err e => (Err e, p2) | Ok data => (read data, p2) end
    end).
Proof.
  intros Hs Hr p. destruct (Hs p) as [Hl He]. destruct (send p) as [[e|response] p1].
  { split; [done|]. intros e' [= <-]. by apply He. }
  pose proof (await_json_polite response p1) as H. destruct (await_json _ _ _ _ _) as [[e|data] p2];
    destruct H as [Hl' He']; simpl in *; rewrite Hl'; split; try done; [|apply Hr].
  intros e' [= <-]. by apply He'.
Qed.

End Discipline.

#[local] Hint Resolve sig_own await_fetch_ok : modelmux.

Section BothAdapters.
  Context {W : Type} (net : network W).

(** Lines and events are rejected with the response error. *)
Lemma read_line_error line e : Ollama.read_line line = Err e -> e = Ollama.provider_error.
Proof.
  unfold Ollama.read_line, parseStreamJson. destruct (parse line) as [v|]; [|by intros [= <-]].
  destruct (isRecord v); [|by intros [= <-]]. cbn [mbind result_mbind].
  intros H. repeat (case_match; simplify_eq; try done).
Qed.

Lemma textContent_error m e : OpenAI.textContent m = Err e -> e = OpenAI.provider_error.
Proof. unfold OpenAI.textContent. intros H. repeat (case_match; simplify_eq; try done). Qed.

Lemma read_event_error f event :
  match OpenAI.read_event f event with
  | Err e => e = OpenAI.provider_error
  | Ok (Some (_, Err e)) => e = OpenAI.provider_error \/ e = OpenAI.conversion_error
  | _ => True
  end.
Proof.
  unfold OpenAI.read_event, parseStreamJson. destruct (parse event) as [v|]; [|done].
  destruct (isRecord v); [|done]. cbn [mbind result_mbind].
  destruct (field "error" v); [done|]. destruct (field "choices" v) as [[| | | |[|choice l]|]|]; try done.
  destruct (field "delta" choice) as [delta|]; [|done].
  match goal with |- match (if ?b then _ else _) with _ => _ end => destruct b; [done|] end.
  match goal with |- match (?m ≫= ?k) with _ => _ end => destruct m as [e|content] eqn:Ec end.
  - cbn [mbind result_mbind]. destruct (nullish _ && nullish _); [done|]. by eapply textContent_error.
  - cbn [mbind result_mbind]. destruct (field "finish_reason" choice) as [r|]; [|done].
    destruct r as [| | | | |]; try done;
      (match goal with |- context [if ?b then Err OpenAI.conversion_error else _] =>
         destruct b; [by right|] end);
      match goal with |- context [if ?b then Ok true else _] => destruct b end; auto.
Qed.

Lemma ollama_send_error self q b w e w' :
  Ollama.send net self q b w = (Err e, w') -> adapter_error "Ollama" (Ollama.requestTimeoutMs self) e.
Proof.
  unfold Ollama.send. destruct (await_fetch _ _ _ _ _) as [[x|r] w1] eqn:E.
  - intros [= <- _]. eauto with modelmux.
  - destruct (ok r); [done|]. cbv zeta. destruct (signal _ _ _ _) as [reason|] eqn:Es;
      intros [= <- _]; eauto with modelmux.
Qed.

Lemma openai_send_error self q b w e w' :
  OpenAI.send net self q b w = (Err e, w') -> adapter_error "OpenAI" (OpenAI.requestTimeoutMs self) e.
Proof.
  unfold OpenAI.send. destruct (await_fetch _ _ _ _ _) as [[x|r] w1] eqn:E.
  - intros [= <- _]. eauto with modelmux.
  - destruct (ok r); [done|]. intros [= <- _]. eauto with modelmux.
Qed.

End BothAdapters.

Section TimedCalls.
  Context {W : Type} (net : network W).

Lemma ollama_send_polite self q b :
  polite "Ollama" (Ollama.requestTimeoutMs self) (Ollama.send (logged net) self q b).
Proof.
  intros p. split; [|intros e He; destruct (Ollama.send _ _ _ _ _) eqn:E; simpl in He; subst;
    by eapply (ollama_send_error (logged net))].
  unfold Ollama.send. pose proof (proj1 (await_fetch_polite net "Ollama" (Ollama.requestTimeoutMs self)
    (mkHttpRequest (Ollama.chatUrl self) [("content-type", "application/json")]
      (stringify (Ollama.request_json q b))) p)) as H.
  destruct (await_fetch _ _ _ _ _) as [[x|r] p1]; [done|]. by destruct (ok r).
Qed.

Lemma openai_send_polite self q b :
  polite "OpenAI" (OpenAI.requestTimeoutMs self) (OpenAI.send (logged net) self q b).
Proof.
  intros p. split; [|intros e He; destruct (OpenAI.send _ _ _ _ _) eqn:E; simpl in He; subst;
    by eapply (openai_send_error (logged net))].
  unfold OpenAI.send. pose proof (proj1 (await_fetch_polite net "OpenAI" (OpenAI.requestTimeoutMs self)
    (mkHttpRequest "https://api.openai.com/v1/chat/completions"
       [("authorization", "Bearer " +:+ OpenAI.apiKey self); ("content-type", "application/json")]
       (stringify (OpenAI.request_json q b))) p)) as H.
  destruct (await_fetch _ _ _ _ _) as [[x|r] p1]; [done|]. by destruct (ok r).
Qed.

Lemma ollama_chat_timed self q w :
  timed_call net "Ollama" (Ollama.requestTimeoutMs self) w
    (Ollama.chat (logged net) self q (w, [])).
Proof.
  apply deadline_timed, polite_read; [apply ollama_send_polite|].
  intros data e He. repeat (case_match; simplify_eq); auto with modelmux.
Qed.

Lemma openai_chat_timed self q w :
  timed_call net "OpenAI" (OpenAI.requestTimeoutMs self) w
    (OpenAI.chat (logged net) self q (w, [])).
Proof.
  apply deadline_timed, polite_read; [apply openai_send_polite|]. intros data e He.
  destruct (field "choices" data) as [[| | | |[|choice l]|]|]; simplify_eq; eauto with modelmux.
  destruct (field "message" choice) as [m|]; simplify_eq; eauto with modelmux.
  destruct (is_string _) as [role|]; simplify_eq; eauto with modelmux.
  destruct (String.eqb role _); simplify_eq; eauto with modelmux.
  destruct (OpenAI.textContent m) eqn:Et; simplify_eq/=.
  apply textContent_error in Et as ->. eauto with modelmux.
Qed.

Lemma ollama_loop_ok self g :
  gen_ok "Ollama" (Ollama.requestTimeoutMs self) g ->
  forall last, body_ok net "Ollama" (Ollama.requestTimeoutMs self) last (Ollama.stream_loop net self g).
Proof.
  induction 1 as [r w Hr|x w next _ IH]; intros last; cbn [Ollama.stream_loop].
  - destruct r as [e|[]]; constructor; [intros e' [= <-]; left; auto with modelmux|]. intros e [= <-]. left. auto with modelmux.
  - destruct (blank x); [apply IH|]. destruct (signal _ _ _ w) as [reason|] eqn:Es.
    { constructor. intros e [= <-]. left. eauto with modelmux. }
    destruct (Ollama.read_line x) as [e|[content done]] eqn:Er.
    { apply read_line_error in Er as ->. constructor. intros e [= <-]. left. auto with modelmux. }
    destruct (String.eqb content EmptyString).
    { destruct done; [by constructor|apply IH]. }
    constructor; [done| |].
    + intros w'. destruct done; [by constructor|apply IH].
    + intros e w'. constructor. intros e' [= <-]. by right.
Qed.

Lemma openai_loop_ok self g :
  gen_ok "OpenAI" (OpenAI.requestTimeoutMs self) g ->
  forall last f, body_ok net "OpenAI" (OpenAI.requestTimeoutMs self) last (OpenAI.stream_loop net self g f).
Proof.
  induction 1 as [r w Hr|x w next _ IH]; intros last f; cbn [OpenAI.stream_loop].
  - destruct r as [e|[]]; constructor; [intros e' [= <-]; left; auto with modelmux|]. intros e [= <-]. left. auto with modelmux.
  - destruct (signal _ _ _ w) as [reason|] eqn:Es.
    { constructor. intros e [= <-]. left. eauto with modelmux. }
    destruct (OpenAI.is_done x).
    { constructor. destruct f; [done|]. intros e [= <-]. left. auto with modelmux. }
    pose proof (read_event_error f x) as He.
    destruct (OpenAI.read_event f x) as [e|[[content finish]|]]; [|cbv zeta|apply IH].
    { subst e. constructor. intros e [= <-]. left. auto with modelmux. }
    assert (forall last w', body_ok net "OpenAI" (OpenAI.requestTimeoutMs self) last
      (match finish with Err e => Finish (Err e) w'
       | Ok f' => OpenAI.stream_loop net self (next w') (f || f') end)) as Hk.
    { intros last' w'. destruct finish as [e|f']; [|apply IH]. constructor.
      intros e' [= <-]. left. destruct He as [-> | ->]; auto with modelmux. }
    destruct (String.eqb content EmptyString); [apply Hk|].
    constructor; [done|intros; apply Hk|]. intros e w'. constructor. intros e' [= <-]. by right.
Qed.

End TimedCalls.

(** ** The properties *)

(** The Ollama adapter delivers the stream, however it is cut.  When the
    body arrives, in any chunks, the consumer receives exactly the contents
    of its lines in order; the call succeeds only at a line marked as the
    last, and a body that ends without one, or has a malformed line or
    encoding, is an error. *)
Theorem ollama_stream_meaning {W} (net : network W) self request w w1 chunks t :
  (forall w, cause net w = None) -> parent_aborted net w = false ->
  (forall r, fetch net r (begin_call net (Ollama.requestTimeoutMs self) w) =
     (Some (mkHttpResponse 200 (Some (map Chunk chunks))), w1)) ->
  decode_fatal (concat chunks) = Some t ->
  delivered (Ollama.stream net self request w) w =
    let '(lines, r) := reference "Ollama" t in Ollama.line_contents lines r.
Proof.
  intros Hq Hp Hf Hd. apply (delivers_delivered (fun _ => True)).
  by apply (ollama_stream_delivers net _ (fun w _ => Hq w) (fun _ _ => I) (fun _ _ => I)
    request w w1 chunks t).
Qed.

(** C18: the OpenAI adapter delivers the stream, however it is cut.  The
    consumer receives the contents of the events' deltas in order; the call
    succeeds only at the terminal event and only after a finish reason;
    anything after the finish reason, a tool call, an error event or a body
    that just ends is an error. *)
Theorem openai_stream_meaning {W} (net : network W) self request w w1 chunks t :
  (forall w, cause net w = None) -> parent_aborted net w = false ->
  (forall r, fetch net r (begin_call net (OpenAI.requestTimeoutMs self) w) =
     (Some (mkHttpResponse 200 (Some (map Chunk chunks))), w1)) ->
  decode_fatal (concat chunks) = Some t ->
  delivered (OpenAI.stream net self request w) w =
    let '(lines, r) := reference "OpenAI" t in
    let '(events, r') := sse_events "OpenAI" lines r [] 0 in
    OpenAI.event_contents events r' false.
Proof.
  intros Hq Hp Hf Hd. apply (delivers_delivered (fun _ => True)).
  by apply (openai_stream_delivers net _ (fun w _ => Hq w) (fun _ _ => I) (fun _ _ => I)
    request w w1 chunks t).
Qed.

(** C20: calls end when they are told to, and fail as themselves.  Whatever
    the network and the consumer do.  A call is refused when its caller has
    already gone.  A chat call arms a timer with the configured limit, sends
    at most one request and always releases the timer and the controller at
    the end; if the deadline has passed or the caller has gone by then, the
    outcome is the timeout or the cancellation, never an answer and never
    another error; every other failure is a connection, HTTP or response error
    of that provider.  A stream hands content over only while the call is
    alive and ends in the same way; it may also fail with the consumer's own
    error, and that of OpenAI with the error of a finish reason that has no
    text. *)
Theorem adapters_disciplined {W} (net : network W) ollama openai request w :
  disciplined net "Ollama" (Ollama.requestTimeoutMs ollama) None (Ollama.stream net ollama request w) /\
  disciplined net "OpenAI" (OpenAI.requestTimeoutMs openai) None (OpenAI.stream net openai request w) /\
  timed_call net "Ollama" (Ollama.requestTimeoutMs ollama) w
    (Ollama.chat (logged net) ollama request (w, [])) /\
  timed_call net "OpenAI" (OpenAI.requestTimeoutMs openai) w
    (OpenAI.chat (logged net) openai request (w, [])).
Proof.
  split; [|split; [|split; [apply ollama_chat_timed|apply openai_chat_timed]]].
  - apply deadline_stream_ok. intros w0.
    destruct (Ollama.send net ollama request true w0) as [[e|r] w1] eqn:E.
    + constructor. intros e' [= <-]. left. constructor. by eapply ollama_send_error.
    + apply ollama_loop_ok, readLines_ok.
  - apply deadline_stream_ok. intros w0.
    destruct (OpenAI.send net openai request true w0) as [[e|r] w1] eqn:E.
    + constructor. intros e' [= <-]. left. constructor. by eapply openai_send_error.
    + apply openai_loop_ok, sse_loop_ok, readLines_ok.
Qed.

(** ** Scenarios *)

(** A network that answers every request with one body. *)
Definition ex_net (chunks : list text) : network () :=
  mkNetwork () (fun _ => false) (fun _ w => w) (fun _ => None) (fun w => w)
    (fun _ w => (Some (mkHttpResponse 200 (Some (map Chunk chunks))), w)) (fun w => w).

(** JSON text written with single quotes. *)
Definition q (s : string) : text :=
  map (fun c => if is_char 39 c then code 34 else c) (chars s).

Definition ex_request : ChatRequest := mkChatRequest "llama3" [mkChatMessage user "hi"].
Definition ex_ollama : Ollama.OllamaProvider := Ollama.mkOllama "http://localhost:11434/api/chat" 1000.
Definition ex_openai : OpenAI.OpenAIProvider := OpenAI.mkOpenAI "key" 1000.

Definition ex_ollama_chunks : list text :=
  [q "{'message':{'role':'assistant','content':'He"; q "llo'},'done':false}" ++ [code 10];
   q "{'message':{'content':' there'},'done':tr"; q "ue}" ++ [code 10]].

Definition ex_openai_chunks : list text :=
  [q "data: {'choices':[{'index':0,'delta':{'content':'Hi'}}]}" ++ [code 10];
   [code 10] ++ q "data: {'choices':[{'delta':{},'finish_reason':'stop'}]}" ++ [code 10; code 10];
   q "data: [DONE]" ++ [code 10; code 10]].

Lemma ollama_stream_meaning_witness :
  delivered (Ollama.stream (ex_net ex_ollama_chunks) ex_ollama ex_request ()) () =
    (["Hello"; " there"], Ok ()).
Proof.
  etransitivity.
  - apply (ollama_stream_meaning (ex_net ex_ollama_chunks) ex_ollama ex_request () () ex_ollama_chunks
      (concat ex_ollama_chunks)); by vm_compute.
  - by vm_compute.
Defined.

Lemma openai_stream_meaning_witness :
  delivered (OpenAI.stream (ex_net ex_openai_chunks) ex_openai ex_request ()) () = (["Hi"], Ok ()).
Proof.
  etransitivity.
  - apply (openai_stream_meaning (ex_net ex_openai_chunks) ex_openai ex_request () () ex_openai_chunks
      (concat ex_openai_chunks)); by vm_compute.
  - by vm_compute.
Defined.

(** A network whose answer, an error, comes after the deadline; the world
    says whether the deadline has passed. *)
Definition ex_late : network bool :=
  mkNetwork bool (fun _ => false) (fun _ _ => false)
    (fun late => if late then Some DeadlinePassed else None) (fun w => w)
    (fun _ _ => (Some (mkHttpResponse 500 None), true)) (fun w => w).

Lemma adapters_disciplined_witness :
  (OpenAI.chat (logged ex_late) ex_openai ex_request (false, [])).1 =
    Err (ProviderTimeoutError "OpenAI" 1000).
Proof.
  destruct (adapters_disciplined ex_late ex_ollama ex_openai ex_request false) as (_ & _ & _ & H).
  destruct H as (r & w1 & sent & Hout & _ & Hs & _). rewrite Hout. cbn [fst].
  apply Hs. destruct w1; [done|]. by vm_compute in Hout.
Defined.

(** A finish reason that cannot be converted to text fails the stream with a
    [TypeError], which is not the provider's response error. *)
Lemma finish_reason_escapes :
  OpenAI.read_event false
    (q "{'choices':[{'delta':{'content':'Hi'},'finish_reason':{'toString':1}}]}") =
    Ok (Some ("Hi", Err OpenAI.conversion_error)).
Proof. by vm_compute. Qed.

End Adapters.
