(* ===== verification/Schema.v ===== *)
(** * Request and response schemas

    [src/src/routes/chat-schema.ts] and the schemas of
    [src/src/routes/jobs.ts] and [src/src/routes/providers.ts], as values of a
    type of JSON schemas with the keywords the sources use, and what it means
    for a JSON value to satisfy one.  The validator itself (Ajv, through
    Fastify) is a parameter of the routes: it returns a value that satisfies
    the schema, or the violations. *)

From Stdlib Require Import Ascii.
From S2P Require Import Prelude JsNumber Utf8 NumberText Errors Chat Json JsonParse CacheKey.
Import JsNumber Utf8 NumberText Errors Chat Json JsonParse CacheKey.

Module Schema.

Set Warnings "-register-all".
Inductive schema : Type :=
(** [type: "string"] with [minLength], [maxLength], [enum] and a [pattern]
    of the form [^[class]+$] *)
| SString (minLength : nat) (maxLength : option nat) (enum : option (list string))
    (pattern : option (ascii -> bool))
| SInteger (minimum : option Z)
| SNumber (minimum : option Z)
| SArray (minItems : nat) (items : schema)
| SObject (additionalProperties : bool) (required : list string)
    (properties : list (string * schema)).

(** The length of a string, in characters. *)
Definition characters (s : string) : nat :=
  length (filter (fun c => between 128 191 c = false) (chars s)).

Definition matches (class : ascii -> bool) (s : string) : bool :=
  match s with EmptyString => false | _ => forallb class (chars s) end.

Definition at_least (minimum : option Z) (n : number) : bool :=
  match minimum with Some m => leb (of_Z m) n | None => true end.

Fixpoint valid (s : schema) (v : json number) {struct s} : bool :=
  match s, v with
  | SString lo hi enum pattern, JStr x =>
      (lo <=? characters x)%nat
      && match hi with Some h => (characters x <=? h)%nat | None => true end
      && match enum with Some l => bool_decide (x ∈ l) | None => true end
      && match pattern with Some class => matches class x | None => true end
  | SInteger m, JNum n => isInteger n && at_least m n
  | SNumber m, JNum n => isFinite n && at_least m n
  | SArray lo item, JArr l => (lo <=? length l)%nat && forallb (valid item) l
  | SObject additional required properties, JObj l =>
      forallb (fun k => defined (field k v)) required
      && (fix all (ps : list (string * schema)) : bool :=
            match ps with
            | [] => true
            | (k, s') :: ps' =>
                match field k v with Some x => valid s' x | None => true end && all ps'
            end) properties
      && (additional || forallb (fun k => bool_decide (k ∈ map fst properties)) (map fst l))
  | _, _ => false
  end.

(** ** chat-schema.ts *)

Definition any_string : schema := SString 0 None None None.
Definition nonempty_string : schema := SString 1 None None None.
Definition one_of (l : list string) : schema := SString 0 None (Some l) None.

Definition messageSchema : schema :=
  SObject false ["role"; "content"]
    [("role", one_of ["system"; "user"; "assistant"]); ("content", nonempty_string)].

Definition chatRequestSchema : schema :=
  SObject false ["model"; "messages"]
    [("model", nonempty_string); ("messages", SArray 1 messageSchema)].

(** [chatSchema.headers] of [routes/chat.ts] *)
Definition chatHeadersSchema : schema :=
  SObject true [] [("x-cache-mode", one_of ["use"; "bypass"])].

Definition chatResponseSchema : schema :=
  SObject false ["message"]
    [("message", SObject false ["role"; "content"]
       [("role", one_of ["assistant"]); ("content", any_string)])].

(** ** jobs.ts *)

Definition alphanumeric (c : ascii) : bool := between 65 90 c || between 97 122 c || between 48 57 c.
(** [A-Za-z0-9._-] and [A-Za-z0-9_-] *)
Definition key_char (c : ascii) : bool :=
  alphanumeric c || is_char 46 c || is_char 95 c || is_char 45 c.
Definition id_char (c : ascii) : bool := alphanumeric c || is_char 95 c || is_char 45 c.

Definition receiptProperties : list (string * schema) := [("id", any_string); ("requestId", any_string)].

Definition jobHeadersSchema : schema :=
  SObject true ["idempotency-key"] [("idempotency-key", SString 1 (Some 128%nat) None (Some key_char))].

Definition receiptSchema : schema := SObject false ["id"; "requestId"] receiptProperties.

Definition jobParamsSchema : schema :=
  SObject true ["id"] [("id", SString 1 (Some 128%nat) None (Some id_char))].

Definition jobStatusSchema : schema :=
  SObject false ["id"; "requestId"; "status"; "attemptsMade"]
    (receiptProperties ++
     [("status", one_of ["queued"; "active"; "retrying"; "completed"; "failed"]);
      ("attemptsMade", SInteger None);
      ("response", chatResponseSchema);
      ("error", SObject false ["code"; "message"] [("code", any_string); ("message", any_string)])]).

(** ** providers.ts *)

Definition healthSchema : schema :=
  SObject false ["name"; "state"; "consecutiveFailures"; "retryAfterMs"]
    [("name", any_string); ("state", one_of ["closed"; "open"; "half-open"]);
     ("consecutiveFailures", SInteger (Some 0)); ("retryAfterMs", SNumber (Some 0))].

Definition providersSchema : schema :=
  SObject false ["scope"; "providers"]
    [("scope", one_of ["process"]); ("providers", SArray 0 healthSchema)].

(** ** Typed requests *)

Definition role_of (s : string) : option ChatRole :=
  if String.eqb s "system" then Some system
  else if String.eqb s "user" then Some user
  else if String.eqb s "assistant" then Some assistant
  else None.

(** The value as the type [ChatMessage], [ChatRequest]. *)
Definition to_message (v : json number) : option ChatMessage :=
  match field "role" v, field "content" v with
  | Some (JStr r), Some (JStr c) => role ← role_of r; Some (mkChatMessage role c)
  | _, _ => None
  end.

Definition to_request (v : json number) : option ChatRequest :=
  match field "model" v, field "messages" v with
  | Some (JStr m), Some (JArr l) => ms ← mapM to_message l; Some (mkChatRequest m ms)
  | _, _ => None
  end.

(** What the schema promises of a typed request. *)
Definition request_ok (r : ChatRequest) : Prop :=
  (1 <= characters (model r))%nat /\ messages r <> [] /\
  Forall (fun m => (1 <= characters (content m))%nat) (messages r).

(** An object with no property but these. *)
Definition only_keys (keys : list string) (v : json number) : Prop :=
  exists l, v = JObj l /\ forall k, k ∈ map fst l -> k ∈ keys.

(** Neither the request nor a message of it has a property the type does not
    name. *)
Definition request_shape (v : json number) : Prop :=
  only_keys ["model"; "messages"] v /\
  forall l, field "messages" v = Some (JArr l) -> Forall (only_keys ["role"; "content"]) l.

(** ** Lemmas *)

Lemma valid_string lo hi enum pattern v :
  valid (SString lo hi enum pattern) v = true ->
  exists s, v = JStr s /\ (lo <= characters s)%nat /\
    (forall l, enum = Some l -> s ∈ l) /\ (forall class, pattern = Some class -> matches class s = true).
Proof.
  destruct v as [| | |s| |]; try done. cbn [valid]. intros H. exists s. split; [done|].
  apply andb_true_iff in H as [H Hp]. apply andb_true_iff in H as [H He].
  apply andb_true_iff in H as [Hl _]. apply Nat.leb_le in Hl. split; [done|]. split.
  - intros l ->. by apply bool_decide_eq_true in He.
  - by intros class ->.
Qed.

(** A required property of a valid object is present and satisfies its own
    schema. *)
Lemma valid_property additional required properties v k s :
  valid (SObject additional required properties) v = true ->
  k ∈ required -> (k, s) ∈ properties -> exists x, field k v = Some x /\ valid s x = true.
Proof.
  destruct v as [| | | | |l]; try done. cbn [valid]. intros H Hr Hp.
  apply andb_true_iff in H as [H _]. apply andb_true_iff in H as [Hreq Hprops].
  rewrite forallb_forall in Hreq. specialize (Hreq k). rewrite <- list_elem_of_In in Hreq.
  specialize (Hreq Hr). destruct (field k (JObj l)) as [x|] eqn:E; [|done]. exists x. split; [done|].
  clear Hreq Hr. induction properties as [|[k' s'] ps IH]; [by apply elem_of_nil in Hp|].
  apply andb_true_iff in Hprops as [Hx Hps]. apply elem_of_cons in Hp as [[= <- <-]|Hp]; [|auto].
  by rewrite E in Hx.
Qed.

(** Without additional properties, only the named ones occur. *)
Lemma valid_only_keys required properties v :
  valid (SObject false required properties) v = true -> only_keys (map fst properties) v.
Proof.
  destruct v as [| | | | |l]; try done. cbn [valid]. intros [_ H]%andb_true_iff. exists l.
  split; [done|]. intros k Hk. rewrite orb_false_l, forallb_forall in H.
  apply list_elem_of_In, H in Hk. by apply bool_decide_eq_true in Hk.
Qed.

(** An object with two properties, both required, and no other. *)
Lemma valid_pair k1 s1 k2 s2 v x y :
  only_keys [k1; k2] v -> field k1 v = Some x -> field k2 v = Some y ->
  valid s1 x = true -> valid s2 y = true ->
  valid (SObject false [k1; k2] [(k1, s1); (k2, s2)]) v = true.
Proof.
  intros (l & -> & Hk) H1 H2 Hx Hy. cbn [valid forallb map fst]. rewrite H1, H2, Hx, Hy.
  cbn. apply forallb_forall. intros k Hin. apply bool_decide_eq_true, Hk. by apply list_elem_of_In.
Qed.

Lemma role_of_enum s : s ∈ ["system"; "user"; "assistant"] -> exists r, role_of s = Some r /\ role_name r = s.
Proof.
  intros H. repeat (apply elem_of_cons in H as [->|H]; [by eexists|]). by apply elem_of_nil in H.
Qed.

Lemma role_of_Some s r : role_of s = Some r -> s ∈ ["system"; "user"; "assistant"].
Proof.
  unfold role_of. intros H.
  repeat (case_match; [match goal with E : String.eqb _ _ = true |- _ =>
    apply String.eqb_eq in E as ->; set_solver end|]). done.
Qed.

Lemma role_of_name r : role_of (role_name r) = Some r.
Proof. by destruct r. Qed.

Lemma valid_message v :
  valid messageSchema v = true ->
  exists m, to_message v = Some m /\ (1 <= characters (content m))%nat.
Proof.
  intros H. unfold messageSchema in H.
  destruct (valid_property _ _ _ _ "role" (one_of ["system"; "user"; "assistant"]) H) as (x & Hx & Hvx);
    [set_solver|set_solver|].
  destruct (valid_property _ _ _ _ "content" nonempty_string H) as (y & Hy & Hvy); [set_solver|set_solver|].
  apply valid_string in Hvx as (r & -> & _ & He & _). apply valid_string in Hvy as (c & -> & Hc & _).
  destruct (role_of_enum r (He _ eq_refl)) as (role & Hr & _).
  exists (mkChatMessage role c). unfold to_message. by rewrite Hx, Hy, Hr.
Qed.

Lemma valid_messages l :
  forallb (valid messageSchema) l = true ->
  Forall (only_keys ["role"; "content"]) l /\
  exists ms, mapM to_message l = Some ms /\ length ms = length l /\
    Forall (fun m => (1 <= characters (content m))%nat) ms.
Proof.
  induction l as [|v l IH]; cbn [forallb]; [by split; [|exists []]|].
  intros [Hv (Hk & ms & Hms & Hl & Hf)%IH]%andb_true_iff.
  split; [constructor; [exact (valid_only_keys _ _ _ Hv)|done]|].
  destruct (valid_message v Hv) as (m & Hm & Hc).
  exists (m :: ms). cbn. rewrite Hm. cbn. rewrite Hms. cbn. rewrite Hl. auto.
Qed.

(** The converse: a typed message without other properties is valid. *)
Lemma to_message_valid v m :
  only_keys ["role"; "content"] v -> to_message v = Some m -> (1 <= characters (content m))%nat ->
  valid messageSchema v = true.
Proof.
  intros Hk Hm Hc%Nat.leb_le. unfold to_message in Hm.
  destruct (field "role" v) as [[| | |r| |]|] eqn:Hr; try done.
  destruct (field "content" v) as [[| | |c| |]|] eqn:Hcn; try done.
  destruct (role_of r) as [role|] eqn:Ho; [|done]. injection Hm as <-.
  apply (valid_pair _ _ _ _ _ _ _ Hk Hr Hcn).
  - cbn [valid one_of]. rewrite bool_decide_eq_true_2 by (by eapply role_of_Some). done.
  - cbn [valid nonempty_string content] in *. by rewrite Hc.
Qed.

Lemma to_messages_valid l ms :
  Forall (only_keys ["role"; "content"]) l -> mapM to_message l = Some ms ->
  Forall (fun m => (1 <= characters (content m))%nat) ms ->
  length l = length ms /\ forallb (valid messageSchema) l = true.
Proof.
  intros Hk. revert ms. induction Hk as [|v l Hv _ IH]; intros ms Hm Hf.
  - by injection Hm as <-.
  - apply mapM_Some in Hm. inversion Hm as [|? m ? ms' Hvm Hl']; subst.
    inversion Hf; subst. destruct (IH ms') as [Hlen Hall]; [by apply mapM_Some|done|].
    cbn [length forallb]. by rewrite Hlen, Hall, (to_message_valid v m) by done.
Qed.

Lemma valid_message_json m :
  (1 <= characters (content m))%nat -> valid messageSchema (embed (message_json m)) = true.
Proof.
  intros H%Nat.leb_le. destruct m as [r c]. cbn [content] in H.
  change ((0 <=? characters (role_name r))%nat && true &&
    bool_decide (role_name r ∈ ["system"; "user"; "assistant"]) && true &&
    ((1 <=? characters c)%nat && true && true && true && true) && true = true).
  rewrite H. by destruct r.
Qed.

Lemma to_message_json m : to_message (embed (message_json m)) = Some m.
Proof. destruct m as [[] c]; done. Qed.

Lemma to_messages_json ms : mapM to_message (map embed (map message_json ms)) = Some ms.
Proof.
  induction ms as [|m ms IH]; [done|]. cbn [map mapM]. rewrite to_message_json.
  cbn [mbind option_bind]. by rewrite IH.
Qed.

Lemma to_request_json r : to_request (embed (chat_json r)) = Some r.
Proof.
  destruct r as [m ms]. unfold to_request.
  change (field "model" (embed (chat_json (mkChatRequest m ms)))) with (Some (JStr m) : option (json number)).
  change (field "messages" (embed (chat_json (mkChatRequest m ms))))
    with (Some (JArr (map embed (map message_json ms)))).
  cbv iota. by rewrite to_messages_json.
Qed.

Lemma valid_request_json r : request_ok r -> valid chatRequestSchema (embed (chat_json r)) = true.
Proof.
  destruct r as [m ms]. intros (Hm & Hne & Hf). cbn [model messages] in *. apply Nat.leb_le in Hm.
  change ((1 <=? characters m)%nat && true && true && true &&
    ((1 <=? length (map embed (map message_json ms)))%nat &&
     forallb (valid messageSchema) (map embed (map message_json ms)) && true) && true = true).
  rewrite Hm, !length_map. destruct ms as [|x ms]; [done|].
  assert (forallb (valid messageSchema) (map embed (map message_json (x :: ms))) = true) as ->; [|done].
  apply forallb_forall. intros v. rewrite map_map. intros (y & <- & Hy)%in_map_iff.
  apply valid_message_json. rewrite Forall_forall in Hf. apply Hf. by apply list_elem_of_In.
Qed.

Lemma valid_request v :
  valid chatRequestSchema v = true ->
  request_shape v /\ exists r, to_request v = Some r /\ request_ok r.
Proof.
  intros H. pose proof (valid_only_keys _ _ _ H) as Hk. unfold chatRequestSchema in H.
  destruct (valid_property _ _ _ _ "model" nonempty_string H) as (x & Hx & Hvx); [set_solver|set_solver|].
  destruct (valid_property _ _ _ _ "messages" (SArray 1 messageSchema) H) as (y & Hy & Hvy);
    [set_solver|set_solver|].
  apply valid_string in Hvx as (m & -> & Hm & _).
  destruct y as [| | | |l|]; try done. cbn [valid] in Hvy.
  apply andb_true_iff in Hvy as [Hl%Nat.leb_le (Hks & ms & Hms & Hlen & Hf)%valid_messages].
  split; [split; [done|]; intros l'; rewrite Hy; by intros [= <-]|].
  exists (mkChatRequest m ms). unfold to_request. rewrite Hx, Hy, Hms. split; [done|].
  split; [done|]. split; [|done]. cbn. destruct ms; [simpl in Hlen; lia|done].
Qed.

Lemma to_request_valid v r :
  request_shape v -> to_request v = Some r -> request_ok r -> valid chatRequestSchema v = true.
Proof.
  intros [Hk Hks] Hr (Hm & Hne & Hf). unfold to_request in Hr.
  destruct (field "model" v) as [[| | |m| |]|] eqn:Hmo; try done.
  destruct (field "messages" v) as [[| | | |l|]|] eqn:Hms; try done.
  destruct (mapM to_message l) as [ms|] eqn:Hl; [|done]. injection Hr as <-.
  cbn [model messages] in *. apply Nat.leb_le in Hm.
  destruct (to_messages_valid l ms (Hks l eq_refl) Hl Hf) as [Hlen Hall].
  apply (valid_pair _ _ _ _ _ _ _ Hk Hmo Hms).
  - cbn [valid nonempty_string]. by rewrite Hm.
  - cbn [valid]. rewrite Hall, Hlen. by destruct ms.
Qed.

(** ** The properties *)

(** C24: the request schema is exactly the request type.  A body satisfies
    the schema if and only if it is an object with a model and at least one
    message, each with a known role and some content, in which neither the
    request nor a message has any other property; and every such request,
    written as JSON, satisfies the schema and is read back unchanged. *)
Theorem request_schema_exact :
  (forall v, valid chatRequestSchema v = true <->
     request_shape v /\ exists r, to_request v = Some r /\ request_ok r) /\
  (forall r, request_ok r ->
     valid chatRequestSchema (embed (chat_json r)) = true /\ to_request (embed (chat_json r)) = Some r).
Proof.
  split; [|intros r Hr; split; [by apply valid_request_json|apply to_request_json]].
  intros v. split; [apply valid_request|]. intros (Hs & r & Hr & Hok).
  by apply (to_request_valid v r).
Qed.

Lemma request_schema_exact_witness :
  valid chatRequestSchema (embed (chat_json (ex_ask "hi"))) = true /\
  to_request (embed (chat_json (ex_ask "hi"))) = Some (ex_ask "hi").
Proof.
  apply (proj2 request_schema_exact). split; [by apply Nat.leb_le; vm_compute|].
  split; [done|]. repeat constructor.
Defined.

End Schema.
