(* ===== verification/Auth.v ===== *)
(** * API keys: authentication and admission

    [src/src/auth/api-keys.ts], [postgres-api-key-store.ts] and the request
    hook of [guard.ts], with the table of
    [src/db/migrations/001_create_api_keys.sql].

    SHA-256, the database connection and the rate limiter are parameters. *)

From Stdlib Require Import Ascii.
From S2P Require Import Prelude JsNumber JsString Errors Chat TokenBucket.
Import JsNumber JsString Errors Telemetry TokenBucket.

Module Auth.

Record ApiKeyPrincipal : Type := mkPrincipal {
  principal_id : string;
  principal_name : string;
  keyPrefix : string;
  rateLimit : RateLimitPolicy
}.

(** ** parseBearerToken *)

(** [header?.match(/^Bearer\s+(\S+)$/i)] and the first group; [\s] and [\S]
    are complementary, so the group is what follows the spaces. *)
Definition parseBearerToken (header : option string) : result error string :=
  match mbind (strip_prefix "Bearer") header with
  | Some (String c rest) =>
      let token := skip_spaces rest in
      if is_space c && negb (String.eqb token EmptyString) && no_space token
      then Ok token else Err AuthenticationError
  | _ => Err AuthenticationError
  end.

(** ** PostgresApiKeyStore *)

Record ApiKeyRow : Type := mkKeyRow {
  row_id : string;
  row_name : string;
  key_prefix : string;
  key_hash : string;
  rate_limit_capacity : number;
  rate_limit_refill_per_second : number;
  enabled : bool
}.

Definition valid_limits (row : ApiKeyRow) : bool :=
  isInteger (rate_limit_capacity row) && negb (ltb (rate_limit_capacity row) (of_Z 1))
  && isFinite (rate_limit_refill_per_second row)
  && negb (leb (rate_limit_refill_per_second row) (of_Z 0)).

Definition principal_of (row : ApiKeyRow) : ApiKeyPrincipal :=
  mkPrincipal (row_id row) (row_name row) (key_prefix row)
    (mkPolicy (rate_limit_capacity row) (rate_limit_refill_per_second row)).

(** The SELECT; an [Err] table stands for a query that fails. *)
Definition findEnabledByHash (table : result error (list ApiKeyRow)) (keyHash : string) :
    result error (option ApiKeyPrincipal) :=
  match table with
  | Err _ => Err ApiKeyStoreUnavailableError
  | Ok rows =>
      match list_find (fun row => key_hash row = keyHash /\ enabled row = true) rows with
      | None => Ok None
      | Some (_, row) =>
          if valid_limits row then Ok (Some (principal_of row)) else Err ApiKeyStoreUnavailableError
      end
  end.

Section Guard.
  Context (sha256 : string -> string).

Definition hashApiKey (rawApiKey : string) : string := sha256 rawApiKey.

Definition authenticate (table : result error (list ApiKeyRow)) (header : option string) :
    result error ApiKeyPrincipal :=
  rawApiKey ← parseBearerToken header;
  apiKey ← findEnabledByHash table (hashApiKey rawApiKey);
  match apiKey with
  | None => Err AuthenticationError
  | Some apiKey => Ok apiKey
  end.

(** ** The onRequest hook *)

(** What the hook leaves behind: the verdict, the headers set on the reply,
    the events recorded and the state of the limiter. *)
Record admission : Type := mkAdmission {
  verdict : result error ApiKeyPrincipal;
  reply_headers : list (string * number);
  events : list MetricEvent
}.

Definition onRequest {R} (consume : string -> RateLimitPolicy -> R -> result error RateLimitDecision * R)
    (table : result error (list ApiKeyRow)) (header : option string) (r : R) : admission * R :=
  match authenticate table header with
  | Err e => (mkAdmission (Err e) [] [], r)
  | Ok apiKey =>
      let '(res, r') := consume (principal_id apiKey) (rateLimit apiKey) r in
      match res with
      | Err e => (mkAdmission (Err e) [] [], r')
      | Ok decision =>
          let hs := [("x-ratelimit-limit", capacity (rateLimit apiKey));
                     ("x-ratelimit-remaining", remaining decision)] in
          if allowed decision then (mkAdmission (Ok apiKey) hs [], r')
          else
            (mkAdmission (Err (RateLimitExceededError (toZ (retryAfterSeconds decision)))) hs
               [rate_limit_rejection], r')
      end
  end.

End Guard.

(** ** The properties *)

(** The accepted credentials are exactly the documented ones.  A header
    is accepted as token [t] if and only if it is the word Bearer in any
    case, one or more white-space characters and [t], where [t] is not empty
    and contains no white space. *)
Theorem bearer_token_exact header t :
  parseBearerToken header = Ok t <->
  exists scheme sp, header = Some (scheme +:+ sp +:+ t) /\
    strip_prefix "Bearer" scheme = Some EmptyString /\
    sp <> EmptyString /\ Forall (fun c => is_space c = true) (String.list_ascii_of_string sp) /\
    t <> EmptyString /\ no_space t = true.
Proof.
  unfold parseBearerToken. split.
  - destruct header as [h|]; [|done]. cbn [mbind option_bind].
    destruct (strip_prefix "Bearer" h) as [[|c rest]|] eqn:Hp; [intros [=]| |intros [=]].
    destruct (_ && _) eqn:Hc; [|done]. intros [= <-].
    apply strip_prefix_Some in Hp as (scheme & -> & Hs).
    to_prop. destruct Hc as [[Hsp Hne] Hno].
    destruct (skip_spaces_split rest) as (sp & Hrest & Hf).
    exists scheme, (String c sp).
    change (String c sp +:+ skip_spaces rest) with (String c (sp +:+ skip_spaces rest)).
    rewrite <- Hrest. repeat split; try done. by constructor.
  - intros (scheme & sp & -> & Hs & Hne & Hf & Ht & Hno).
    cbn [mbind option_bind]. rewrite (strip_prefix_app _ _ _ Hs). destruct sp as [|c sp]; [done|].
    inversion Hf as [|? ? Hc Hf']; subst.
    change (String c sp +:+ t) with (String c (sp +:+ t)). cbv iota beta zeta.
    rewrite (skip_spaces_app _ _ Hf'), (skip_spaces_token _ Hno), Hc, Hno.
    by rewrite (proj2 (String.eqb_neq _ _) Ht).
Qed.

(** C35: admission fails closed.  A request passes the guard only with a
    well-formed token whose hash belongs to an enabled key with usable limits
    and only when the limiter, asked about exactly that key with exactly its
    stored policy, allowed it.  A failing database or limiter never admits,
    and a request without a valid key never reaches the limiter. *)
Theorem guard_fails_closed sha256 {R} consume table header (r r' : R) a :
  onRequest sha256 consume table header r = (a, r') ->
  (forall p, verdict a = Ok p ->
    exists token rows row decision,
      parseBearerToken header = Ok token /\ table = Ok rows /\ row ∈ rows /\
      key_hash row = sha256 token /\ enabled row = true /\ valid_limits row = true /\
      p = principal_of row /\
      consume (row_id row) (rateLimit p) r = (Ok decision, r') /\ allowed decision = true) /\
  (forall e, authenticate sha256 table header = Err e -> verdict a = Err e /\ r' = r).
Proof.
  unfold onRequest. intros H. split.
  - intros p Hp. unfold authenticate in H.
    destruct (parseBearerToken header) as [|token]; [by simplify_eq/=|]. simpl in H.
    unfold findEnabledByHash in H. destruct table as [|rows]; [by simplify_eq/=|].
    destruct (list_find _ rows) as [[i row]|] eqn:Hrow; [|by simplify_eq/=].
    apply list_find_Some in Hrow as (Hi & [Hh He] & _).
    destruct (valid_limits row) eqn:Hv; [|by simplify_eq/=]. simpl in H.
    destruct (consume _ _ _) as [[|decision] r1] eqn:Hcons; [by simplify_eq/=|].
    destruct (allowed decision) eqn:Ha; simplify_eq/=.
    exists token, rows, row, decision. by eauto 12 using list_elem_of_lookup_2.
  - intros e He. rewrite He in H. by simplify_eq/=.
Qed.

(** ** A concrete admission *)

Definition ex_key : ApiKeyRow :=
  mkKeyRow "k1" "Alice" "mm_abc" "secret" (of_Z 10) (of_Z 1) true.
Definition ex_consume (id : string) (p : RateLimitPolicy) (n : nat) :
    result error RateLimitDecision * nat :=
  (Ok (mkDecision true (of_Z 9) (of_Z 0)), S n).

Lemma guard_fails_closed_witness :
  exists token rows row decision,
    parseBearerToken (Some "bearer  secret") = Ok token /\ (Ok [ex_key] : result error _) = Ok rows /\ row ∈ rows /\
    key_hash row = token /\ enabled row = true /\ valid_limits row = true /\
    principal_of ex_key = principal_of row /\
    ex_consume (row_id row) (rateLimit (principal_of ex_key)) 0 = (Ok decision, 1%nat) /\
    allowed decision = true.
Proof.
  exact (proj1 (guard_fails_closed id ex_consume (Ok [ex_key]) (Some "bearer  secret") 0%nat 1%nat
    (onRequest id ex_consume (Ok [ex_key]) (Some "bearer  secret") 0%nat).1 ltac:(by vm_compute))
    (principal_of ex_key) ltac:(by vm_compute)).
Defined.

End Auth.
