(* ===== verification/ChatRoute.v ===== *)
(** * The chat endpoints

    The two handlers of [src/src/routes/chat.ts], with [writeSse] of
    [src/src/routes/sse.ts], against the interfaces of the components they
    call: the provider, the concurrency limiter and the chat cache.

    Everything outside the activation of a handler is a state [W]; each
    awaited call is a function on it.  The activation has its own state: the
    permit it holds, its local variables and the trace of what it did.  Log
    lines and the reply headers other than the start of a stream are not
    kept. *)

From Stdlib Require Import Ascii.
From S2P Require Import Prelude JsString Errors Chat Provider.
Import JsString Errors Chat Telemetry Provider.

Module ChatRoute.

(** ** What the handlers call *)

Record ChatCache (W : Type) : Type := mkCache {
  cache_get : string -> ChatRequest -> W -> result error (option ChatResponse) * W;
  cache_put : string -> ChatRequest -> ChatResponse -> W -> result error () * W
}.
Arguments cache_get {W}.
Arguments cache_put {W}.

Inductive sse : Type :=
| sse_delta (content : string)
| sse_done
| sse_error (code : string).

Record services (W : Type) : Type := mkServices {
  provider : LLMProvider W;
  chatCache : option (ChatCache W);
  (** [concurrencyLimiter.acquire] and [permit.release] *)
  acquire : W -> result error () * W;
  release : W -> W;
  (** the request's abort signal *)
  aborted : W -> bool;
  abort : W -> W;
  (** the response: destroyed, its buffer full, and one [write] with the wait
      for [drain], false when the response closes, fails or stalls *)
  destroyed : W -> bool;
  writableNeedDrain : W -> bool;
  write : sse -> W -> bool * W;
  (** whatever runs before an [await] resumes *)
  yield : W -> W
}.
Arguments provider {W}.
Arguments chatCache {W}.
Arguments acquire {W}.
Arguments release {W}.
Arguments aborted {W}.
Arguments abort {W}.
Arguments destroyed {W}.
Arguments writableNeedDrain {W}.
Arguments write {W}.
Arguments yield {W}.

Record HttpRequest : Type := mkHttpRequest {
  ownerId : string;
  x_cache_mode : option string;
  cache_control : option string;
  body : ChatRequest
}.

(** ** Cache opt-in *)

(** [/^(no-store|no-cache)(?:\s*=|$)/.test(directive.trim())] *)
Definition forbids_cache (directive : string) : bool :=
  let d := trim directive in
  let rest := match strip_prefix "no-store" d with
              | Some r => Some r
              | None => strip_prefix "no-cache" d
              end in
  match rest with
  | None => false
  | Some EmptyString => true
  | Some r => match skip_spaces r with String "="%char _ => true | _ => false end
  end.

Definition wants_cache {W} (srv : services W) (req : HttpRequest) : bool :=
  match chatCache srv with Some _ => true | None => false end
  && bool_decide (x_cache_mode req = Some "use")
  && negb (existsb forbids_cache
       (split (Ascii.ascii_of_nat 44) (toLowerCase (default EmptyString (cache_control req))))).

(** ** The activation of a handler *)

Inductive event : Type :=
| CacheRead
| CacheWrite
| Acquired
| Called (request : ChatRequest)
| Released
| HeadersSent
| Sse (e : sse)
| Ended
| Destroyed
| Recorded (m : MetricEvent).

Record activation (W : Type) : Type := mkActivation {
  world : W;
  permit : bool;
  cacheStatus : CacheStatus;
  started : bool;
  outcome : StreamOutcome;
  trace : list event
}.
Arguments mkActivation {W}.
Arguments world {W}.
Arguments permit {W}.
Arguments cacheStatus {W}.
Arguments started {W}.
Arguments outcome {W}.
Arguments trace {W}.

Definition enter {W} (w : W) : activation W := mkActivation w false BYPASS false stream_failed [].

(** Computations that may throw and change the activation. *)
Definition M (W A : Type) : Type := activation W -> result error A * activation W.

Section Handlers.
  Context {W : Type} (srv : services W).
  Abbreviation act := (activation W).

#[global] Instance M_ret : MRet (M W) := fun _ a s => (Ok a, s).
#[global] Instance M_bind : MBind (M W) := fun _ _ k m s =>
  match m s with (Ok a, s') => k a s' | (Err e, s') => (Err e, s') end.

Definition throw {A} (e : error) : M W A := fun s => (Err e, s).
Definition catch {A} (m : M W A) (h : error -> M W A) : M W A := fun s =>
  match m s with (Ok a, s') => (Ok a, s') | (Err e, s') => h e s' end.
Definition finally {A} (m : M W A) (f : act -> act) : M W A := fun s =>
  let '(r, s') := m s in (r, f s').

Definition set_world (w : W) (s : act) : act :=
  mkActivation w (permit s) (cacheStatus s) (started s) (outcome s) (trace s).
Definition set_permit (b : bool) (s : act) : act :=
  mkActivation (world s) b (cacheStatus s) (started s) (outcome s) (trace s).
Definition set_status (c : CacheStatus) (s : act) : act :=
  mkActivation (world s) (permit s) c (started s) (outcome s) (trace s).
Definition set_started (s : act) : act :=
  mkActivation (world s) (permit s) (cacheStatus s) true (outcome s) (trace s).
Definition set_outcome (o : StreamOutcome) (s : act) : act :=
  mkActivation (world s) (permit s) (cacheStatus s) (started s) o (trace s).
Definition record (e : event) (s : act) : act :=
  mkActivation (world s) (permit s) (cacheStatus s) (started s) (outcome s) (trace s ++ [e]).

Definition modify (f : act -> act) : M W () := fun s => (Ok (), f s).
Definition await {A} (op : W -> result error A * W) : M W A := fun s =>
  let '(r, w) := op (world s) in (r, set_world (yield srv w) s).
Definition throw_if_cancelled : M W () := fun s =>
  (throwIfCancelled (aborted srv (world s)), s).

(** [permit = await concurrencyLimiter.acquire(signal)] *)
Definition acquire_permit : M W () :=
  await (acquire srv);; modify (fun s => record Acquired (set_permit true s)).

(** [permit.release(); permit = undefined], and [permit?.release()] *)
Definition release_permit (s : act) : act :=
  record Released (set_permit false (set_world (release srv (world s)) s)).
Definition release_if_held (s : act) : act := if permit s then release_permit s else s.

(** ** POST /v1/chat *)

Definition read_cache (store : ChatCache W) (owner : string) (request : ChatRequest) :
    M W (option ChatResponse * bool) :=
  catch
    (modify (record CacheRead);;
     cached ← await (cache_get store owner request);
     throw_if_cancelled;;
     modify (set_status (match cached with Some _ => HIT | None => MISS end));;
     mret (cached, true))
    (fun e =>
     throw_if_cancelled;;
     if isRequestAborted e then throw e else mret (None, false)).

Definition write_cache (store : ChatCache W) (owner : string) (request : ChatRequest)
    (response : ChatResponse) : M W () :=
  catch
    (modify (record CacheWrite);; await (cache_put store owner request response))
    (fun e => throw_if_cancelled;; if isRequestAborted e then throw e else mret ()).

Definition generate (req : HttpRequest) : M W ChatResponse :=
  acquire_permit;;
  throw_if_cancelled;;
  finally
    (modify (record (Called (body req)));; await (provider_chat (provider srv) (body req)))
    release_permit.

Definition chat_body (req : HttpRequest) : M W ChatResponse :=
  '(cached, useCache) ← match chatCache srv with
    | Some store =>
        if wants_cache srv req then read_cache store (ownerId req) (body req)
        else mret (None, false)
    | None => mret (None, false)
    end;
  match cached with
  | Some response => mret response
  | None =>
      result ← generate req;
      throw_if_cancelled;;
      match chatCache srv with
      | Some store =>
          if useCache : bool then write_cache store (ownerId req) (body req) result else mret ()
      | None => mret ()
      end;;
      throw_if_cancelled;;
      mret result
  end.

(** The [catch]: [None] when the response is destroyed without an answer. *)
Definition chat_answer (req : HttpRequest) : M W (option ChatResponse) :=
  catch
    (result ← chat_body req; mret (Some result))
    (fun e s =>
     if isRequestAborted e || aborted srv (world s) then (Ok None, record Destroyed s)
     else (Err e, s)).

Definition chat_cleanup (s : act) : act :=
  let s1 := record (Recorded (cache (cacheStatus s))) s in
  release_if_held (set_world (abort srv (world s1)) s1).

Definition chat_handler (req : HttpRequest) : M W (option ChatResponse) :=
  finally (chat_answer req) chat_cleanup.

(** ** POST /v1/chat/stream *)

Definition writeSse (e : sse) : M W () := fun s =>
  if aborted srv (world s) || destroyed srv (world s) then (Err RequestAbortedError, s)
  else
    let '(ok, w) := write srv e (world s) in
    (if ok then Ok () else Err RequestAbortedError, record (Sse e) (set_world (yield srv w) s)).

Definition start_response : M W () :=
  throw_if_cancelled;;
  modify (fun s => if started s then s else set_started (record HeadersSent s)).

Definition onDelta (content : string) : M W () :=
  if String.eqb content EmptyString then mret ()
  else
    start_response;;
    catch (writeSse (sse_delta content))
      (fun e => modify (fun s => set_world (abort srv (world s)) s);; throw e).

Definition run_stream (f : ChatRequest -> W -> script W) (request : ChatRequest) : M W () := fun s =>
  let s1 := record (Called request) s in
  let '(r, s2) := run_script world set_world (yield srv) onDelta (f request (world s1)) s1 in
  (r, set_world (yield srv (world s2)) s2).

Definition stream_body (req : HttpRequest) : M W () :=
  acquire_permit;;
  throw_if_cancelled;;
  match provider_stream (provider srv) with
  | None => throw ProviderStreamingUnsupportedError
  | Some f =>
      run_stream f (body req);;
      start_response;;
      writeSse sse_done;;
      modify (fun s => record Ended (set_outcome stream_completed s))
  end.

Definition error_code (e : error) : string :=
  match asAppError e with Some a => code a | None => "INTERNAL_SERVER_ERROR" end.

Definition stream_failure (e : error) : M W () := fun s =>
  if isRequestAborted e || aborted srv (world s) then
    (Ok (), record Destroyed (set_outcome stream_cancelled s))
  else if negb (started s) then (Err e, s)
  else if writableNeedDrain srv (world s) then (Ok (), record Destroyed s)
  else
    catch (writeSse (sse_error (error_code e));; modify (record Ended))
      (fun _ => modify (record Destroyed)) s.

Definition stream_cleanup (s : act) : act :=
  let s1 := record (Recorded (stream_event (outcome s))) s in
  release_if_held (set_world (abort srv (world s1)) s1).

Definition stream_handler (req : HttpRequest) : M W () :=
  finally (catch (stream_body req) stream_failure) stream_cleanup.

(** ** Executing handlers symbolically *)

Lemma throw_if_cancelled_Ok s s' :
  throw_if_cancelled s = (Ok (), s') -> s' = s /\ aborted srv (world s) = false.
Proof. unfold throw_if_cancelled, throwIfCancelled. destruct (aborted _ _); intros [=]; auto. Qed.

Lemma throw_if_cancelled_Err s e s' :
  throw_if_cancelled s = (Err e, s') -> s' = s /\ e = RequestAbortedError.
Proof. unfold throw_if_cancelled, throwIfCancelled. destruct (aborted _ _); intros [=]; auto. Qed.

End Handlers.

Ltac handler_unfold :=
  unfold chat_answer, chat_body, generate, read_cache, write_cache, acquire_permit,
    stream_body, stream_failure, onDelta, start_response, writeSse, catch, finally, modify, await,
    throw, throw_if_cancelled, throwIfCancelled, mbind, M_bind, mret, M_ret in *.

(** Follow every path: the outcome of each call and of each check. *)
Ltac handler_paths :=
  handler_unfold; cbn -[wants_cache] in *;
  repeat (case_match; simplify_eq/=; try done).

(** ** The work of a chat request *)

Definition is_work (e : event) : bool :=
  match e with CacheRead | CacheWrite | Acquired | Called _ | Released => true | _ => false end.
Definition work (l : list event) : list event := filter (fun e => is_work e = true) l.

Section Chat.
  Context {W : Type} (srv : services W) (req : HttpRequest).

(** The ways [generate] can end. *)
Lemma generate_paths s r s' :
  permit s = false -> generate srv req s = (r, s') ->
  cacheStatus s' = cacheStatus s /\
  ((is_Ok r = false /\ permit s' = false /\ trace s' = trace s) \/
   (r = Err RequestAbortedError /\ permit s' = true /\ trace s' = trace s ++ [Acquired]) \/
   (permit s' = false /\ trace s' = trace s ++ [Acquired; Called (body req); Released] /\
    exists w, (provider_chat (provider srv) (body req) w).1 = r)).
Proof.
  intros Hp H. handler_paths; (split; [done|]); auto.
  all: right; right; rewrite <- !app_assoc; split; [done|]; split; [done|].
  all: eexists; match goal with E : provider_chat _ _ ?w = _ |- _ => by rewrite E end.
Qed.

Lemma read_cache_paths store s r s' :
  read_cache srv store (ownerId req) (body req) s = (r, s') ->
  permit s' = permit s /\ trace s' = trace s ++ [CacheRead] /\
  match r with
  | Ok (Some x, u) =>
      u = true /\ cacheStatus s' = HIT /\ aborted srv (world s') = false /\
      exists w, (cache_get store (ownerId req) (body req) w).1 = Ok (Some x)
  | Ok (None, u) => cacheStatus s' = if u : bool then MISS else cacheStatus s
  | Err e => e = RequestAbortedError /\ cacheStatus s' = cacheStatus s
  end.
Proof.
  intros H. handler_paths; repeat split; try done;
    repeat match goal with
    | E : isRequestAborted ?e = true |- _ => destruct e; try done; clear E
    | E : cache_get _ _ _ ?w = _ |- exists _, _ => exists w; by rewrite E
    end.
Qed.

Lemma write_cache_paths store x s r s' :
  write_cache srv store (ownerId req) (body req) x s = (r, s') ->
  permit s' = permit s /\ trace s' = trace s ++ [CacheWrite] /\ cacheStatus s' = cacheStatus s /\
  (forall e, r = Err e -> e = RequestAbortedError).
Proof.
  intros H. handler_paths; repeat split; try done; intros ? [= <-]; try done;
    match goal with
    | E : isRequestAborted ?e = true |- _ => by destruct e
    end.
Qed.

(** The work of one request: at most one read of the cache, then nothing, or
    a permit without a call, or one call under a permit and possibly a write
    to the cache after the permit is given back. *)
Inductive request_work : bool -> bool -> list event -> Prop :=
| work_none : request_work false false []
| work_refused : request_work false true [Acquired]
| work_called : request_work false false [Acquired; Called (body req); Released]
| work_cached : request_work true false [Acquired; Called (body req); Released; CacheWrite].

(** Where an answer comes from. *)
Definition sourced (x : ChatResponse) (status : CacheStatus) : Prop :=
  (status = HIT /\ exists store w, chatCache srv = Some store /\
     (cache_get store (ownerId req) (body req) w).1 = Ok (Some x)) \/
  (status <> HIT /\ exists w, (provider_chat (provider srv) (body req) w).1 = Ok x).

Lemma bind_inv {A B} (m : M W A) (k : A -> M W B) s r s' :
  (m ≫= k) s = (r, s') ->
  (exists e, m s = (Err e, s') /\ r = Err e) \/ (exists a s1, m s = (Ok a, s1) /\ k a s1 = (r, s')).
Proof.
  unfold mbind, M_bind. destruct (m s) as [[e|a] s1]; [intros [= <- <-]; eauto|eauto].
Qed.

(** The part of [chat_body] after the cache was read. *)
Lemma answer_paths (useCache : bool) s r s' :
  permit s = false -> cacheStatus s <> HIT ->
  (result ← generate srv req;
   throw_if_cancelled srv;;
   match chatCache srv with
   | Some store =>
       if useCache then write_cache srv store (ownerId req) (body req) result else mret ()
   | None => mret ()
   end;;
   throw_if_cancelled srv;;
   mret result) s = (r, s') ->
  exists put held b, trace s' = trace s ++ b /\ request_work put held b /\ permit s' = held /\
    (put = true -> useCache = true) /\ cacheStatus s' = cacheStatus s /\
    match r with
    | Ok x => held = false /\ aborted srv (world s') = false /\ sourced x (cacheStatus s')
    | Err _ => True
    end.
Proof.
  intros Hp Hst H. apply bind_inv in H as [(e & Hg & ->)|(x & s1 & Hg & H)].
  { apply generate_paths in Hg as (Hc & [(_ & Hp1 & Ht)|[(_ & Hp1 & Ht)|(Hp1 & Ht & _)]]); [..|done];
      eexists _, _, _; rewrite Ht; (split; [try done; by rewrite app_nil_r|]);
      (split; [econstructor|done]). }
  apply generate_paths in Hg as (Hc & [(Hr & _)|[(Hr & _)|(Hp1 & Ht & w & Hw)]]); [done|done| |done].
  apply bind_inv in H as [(e & Hg & ->)|([] & s2 & Hg & H)].
  { apply throw_if_cancelled_Err in Hg as [-> _]. eexists false, false, _. rewrite Ht.
    split; [done|]. split; [constructor|done]. }
  apply throw_if_cancelled_Ok in Hg as [-> _].
  apply bind_inv in H as [(e & Hg & ->)|([] & s3 & Hg & H)].
  { destruct (chatCache srv) as [store|]; [|done]. destruct useCache; [|done].
    apply write_cache_paths in Hg as (Hp3 & Ht3 & Hc3 & _). eexists true, false, _.
    rewrite Ht3, Ht, <- app_assoc. split; [done|]. split; [constructor|]. by rewrite Hp3, Hc3. }
  assert (exists put, request_work put false
      ([Acquired; Called (body req); Released] ++ if put then [CacheWrite] else []) /\
    trace s3 = trace s ++ [Acquired; Called (body req); Released] ++ (if put then [CacheWrite] else []) /\
    permit s3 = false /\ cacheStatus s3 = cacheStatus s /\ (put = true -> useCache = true))
    as (put & Hw3 & Ht3 & Hp3 & Hc3 & Hu).
  { destruct (chatCache srv) as [store|]; [destruct useCache|].
    - apply write_cache_paths in Hg as (Hp3 & Ht3 & Hc3 & _). exists true.
      rewrite Ht3, Ht, <- app_assoc, Hp3, Hc3. split; [constructor|done].
    - injection Hg as <-. exists false. split; [constructor|done].
    - injection Hg as <-. exists false. split; [constructor|done]. }
  eexists put, false, _. rewrite <- Hc3.
  apply bind_inv in H as [(e & Hg' & ->)|([] & s4 & Hg' & H)].
  { apply throw_if_cancelled_Err in Hg' as [-> _]. done. }
  apply throw_if_cancelled_Ok in Hg' as [-> Ha]. injection H as <- <-.
  repeat split; try done. right. rewrite Hc3. split; [done|]. by exists w.
Qed.

Lemma chat_body_paths w r s' :
  chat_body srv req (enter w) = (r, s') ->
  exists put held b, trace s' = (if wants_cache srv req then [CacheRead] else []) ++ b /\
    request_work put held b /\ permit s' = held /\
    (put = true -> wants_cache srv req = true) /\
    match r with
    | Ok x => held = false /\ aborted srv (world s') = false /\ sourced x (cacheStatus s')
    | Err _ => True
    end.
Proof.
  unfold chat_body. intros H. apply bind_inv in H as [(e & Hg & ->)|([cached u] & s1 & Hg & H)].
  { destruct (chatCache srv) as [store|] eqn:Hs; [|done].
    destruct (wants_cache srv req); [|done].
    apply read_cache_paths in Hg as (Hp & Ht & _). exists false, false, [].
    rewrite Ht, Hp. split; [done|]. split; [constructor|done]. }
  assert (permit s1 = false /\ trace s1 = (if wants_cache srv req then [CacheRead] else []) /\
    (u = true -> wants_cache srv req = true) /\
    match cached with
    | Some x => sourced x (cacheStatus s1) /\ aborted srv (world s1) = false
    | None => cacheStatus s1 <> HIT
    end) as (Hp & Ht & Hu & Hx).
  { unfold sourced. destruct (chatCache srv) as [store|] eqn:Hs.
    - destruct (wants_cache srv req) eqn:Hwant; [|by injection Hg as <- <- <-].
      apply read_cache_paths in Hg as (Hp & Ht & Hx). rewrite Hp, Ht.
      split; [done|]. split; [done|]. split; [done|].
      destruct cached as [x|]; [|rewrite Hx; by destruct u].
      destruct Hx as (_ & Hh & Ha & w0 & Hw0). split; [|done]. left. split; [done|].
      by exists store, w0.
    - injection Hg as <- <- <-. by destruct (wants_cache srv req) eqn:Hwant;
        [unfold wants_cache in Hwant; rewrite Hs in Hwant|]. }
  destruct cached as [x|].
  - injection H as <- <-. exists false, false, []. rewrite app_nil_r. destruct Hx.
    split; [done|]. split; [constructor|done].
  - apply (answer_paths u) in H as (put & held & b & Htr & Hwk & Hpm & Hpu & Hc & Hr); [|done|done].
    exists put, held, b. rewrite Htr, Ht. eauto 10.
Qed.

(** [chat_answer] adds at most the destruction of the response, and answers
    or throws only while the request is wanted. *)
Lemma chat_answer_paths w r s' :
  chat_answer srv req (enter w) = (r, s') ->
  exists s1 rb, chat_body srv req (enter w) = (rb, s1) /\ permit s' = permit s1 /\
    cacheStatus s' = cacheStatus s1 /\
    match r with
    | Ok (Some x) => rb = Ok x /\ s' = s1
    | Ok None => exists e, rb = Err e /\ trace s' = trace s1 ++ [Destroyed] /\
        (e = RequestAbortedError \/ aborted srv (world s') = true)
    | Err e => rb = Err e /\ s' = s1 /\ e <> RequestAbortedError /\
        aborted srv (world s') = false
    end.
Proof.
  unfold chat_answer, catch, mbind, M_bind, mret, M_ret.
  destruct (chat_body srv req (enter w)) as [[e|x] s1]; intros H; [|by simplify_eq; eauto 10].
  destruct (_ || _) eqn:E; injection H as <- <-; exists s1, (Err e); repeat split.
  - exists e. split; [done|]. split; [done|]. simpl. apply orb_true_iff in E as [E|E]; [|by right].
    left. by destruct e.
  - intros ->. done.
  - by apply orb_false_iff in E as [_ E].
Qed.

Lemma work_app l k : work (l ++ k) = work l ++ work k.
Proof. apply filter_app. Qed.

Lemma request_work_work put held b : request_work put held b -> work b = b.
Proof. by destruct 1. Qed.

(** *** Requests that are not cancelled *)

Section Wanted.
  Context (Haborted : forall w, aborted srv w = false).
  Context (Hacquire : forall w, is_Ok (acquire srv w).1 = true).
  Context (Hprovider : forall w, is_Ok (provider_chat (provider srv) (body req) w).1 = true).
  Context (Hcache : forall store w, chatCache srv = Some store ->
    (cache_get store (ownerId req) (body req) w).1 <> Err RequestAbortedError /\
    forall x, (cache_put store (ownerId req) (body req) x w).1 <> Err RequestAbortedError).

Lemma never_cancelled s : throw_if_cancelled srv s = (Ok (), s).
Proof. unfold throw_if_cancelled. by rewrite Haborted. Qed.

Lemma generate_answers s : exists x s', generate srv req s = (Ok x, s').
Proof.
  unfold generate, acquire_permit, await, finally, mbind, M_bind, modify, throw_if_cancelled.
  pose proof (Hacquire (world s)) as Ha. destruct (acquire srv (world s)) as [[|[]] w1]; [done|].
  simpl. rewrite Haborted. simpl.
  pose proof (Hprovider (yield srv w1)) as Hp.
  destruct (provider_chat (provider srv) (body req) (yield srv w1)) as [[|x] w2]; [done|]. eauto.
Qed.

Lemma recover_cache {A} (m : M W A) (d : A) s :
  (forall s', m s <> (Err RequestAbortedError, s')) ->
  exists a s', catch m (fun e => throw_if_cancelled srv;;
    if isRequestAborted e then throw e else mret d) s = (Ok a, s').
Proof.
  intros Hm. unfold catch. destruct (m s) as [[e|a] s'] eqn:E; [|eauto].
  unfold mbind, M_bind. rewrite never_cancelled.
  destruct (isRequestAborted e) eqn:He; [|unfold mret, M_ret; eauto].
  destruct e; try done. by destruct (Hm s').
Qed.

Lemma read_cache_answers store s :
  chatCache srv = Some store ->
  exists a s', read_cache srv store (ownerId req) (body req) s = (Ok a, s').
Proof.
  intros Hs. apply recover_cache. intros s'. unfold mbind, M_bind, modify, await. simpl.
  destruct (Hcache store (world s) Hs) as [Hg _].
  destruct (cache_get _ _ _ _) as [[e|c] w]; simpl in *; [congruence|].
  unfold throw_if_cancelled. simpl. by rewrite Haborted.
Qed.

Lemma write_cache_answers store x s :
  chatCache srv = Some store ->
  exists s', write_cache srv store (ownerId req) (body req) x s = (Ok (), s').
Proof.
  intros Hs. destruct (recover_cache
    (modify (record CacheWrite);; await srv (cache_put store (ownerId req) (body req) x)) () s)
    as ([] & s' & H); [|by exists s'].
  intros s'. unfold mbind, M_bind, modify, await. simpl.
  destruct (Hcache store (world s) Hs) as [_ Hg]. specialize (Hg x).
  destruct (cache_put _ _ _ _ _) as [[e|c] w]; simpl in *; congruence.
Qed.

Lemma chat_body_answers s rb s' : chat_body srv req s = (rb, s') -> exists x, rb = Ok x.
Proof.
  pose proof read_cache_answers as Hread. pose proof write_cache_answers as Hwrite.
  intros H. apply bind_inv in H as [(e & Hg & _)|([cached u] & s1 & _ & H)].
  { destruct (chatCache srv) as [store|]; [|done]. destruct (wants_cache srv req); [|done].
    destruct (Hread store s eq_refl) as (a & s1 & Hr). congruence. }
  destruct cached as [x|]; [injection H as <- <-; eauto|].
  destruct (generate_answers s1) as (x & s2 & Hg).
  apply bind_inv in H as [(e & He & _)|(x' & s2' & _ & H)]; [congruence|].
  apply bind_inv in H as [(e & He & _)|([] & s3 & _ & H)]; [by rewrite never_cancelled in He|].
  apply bind_inv in H as [(e & He & _)|([] & s4 & _ & H)].
  - destruct (chatCache srv) as [store|]; [|done]. destruct u; [|done].
    destruct (Hwrite store x' s3 eq_refl) as (s5 & Hw). congruence.
  - apply bind_inv in H as [(e & He & _)|([] & s5 & _ & H)]; [by rewrite never_cancelled in He|].
    injection H as <- <-. eauto.
Qed.

End Wanted.
End Chat.

(** ** The properties *)

(** C8: provider capacity is never leaked.  However a chat request ends
    (answered from the cache or by the provider, refused, failed or
    cancelled at any point), it has done one of four things: no work under a
    permit, a permit taken and given back, one provider call between taking
    and giving back a permit, or that followed by a cache write with the
    permit already given back.  The cache is read first, and touched at all
    only if the request opted in. *)
Theorem chat_permit_discipline {W} (srv : services W) req w r s' :
  chat_handler srv req (enter w) = (r, s') ->
  permit s' = false /\
  exists b, work (trace s') = (if wants_cache srv req then [CacheRead] else []) ++ b /\
    (b = [] \/ b = [Acquired; Released] \/ b = [Acquired; Called (body req); Released] \/
     (wants_cache srv req = true /\ b = [Acquired; Called (body req); Released; CacheWrite])).
Proof.
  unfold chat_handler, finally. destruct (chat_answer _ _ _) as [ra s1] eqn:Ha. intros [= <- <-].
  apply chat_answer_paths in Ha as (s0 & rb & Hb & Hp & Hc & Hr).
  assert (work (trace s1) = work (trace s0)) as Ht.
  { destruct ra as [e|[x|]]; [by destruct Hr as (_ & -> & _)|by destruct Hr as (_ & ->)|].
    destruct Hr as (e & _ & -> & _). by rewrite work_app, app_nil_r. }
  apply chat_body_paths in Hb as (put & held & b & Htr & Hw & Hpm & Hput & _).
  pose proof (request_work_work _ _ _ _ Hw) as Hwb.
  assert (work (trace s0) = (if wants_cache srv req then [CacheRead] else []) ++ b) as Hwork.
  { rewrite Htr, work_app, Hwb. by destruct (wants_cache srv req). }
  unfold chat_cleanup, release_if_held. simpl. rewrite Hp, Hpm.
  destruct Hw; simpl; (split; [congruence|]); rewrite ?work_app, Ht, Hwork; simpl;
    eexists; rewrite <- ?app_assoc; (split; [done|]); rewrite ?app_nil_r; auto 10.
Qed.

(** Answers are genuine and wanted.  A reply is the cached answer when
    the status is HIT and the provider's answer otherwise, and a reply or an
    error is sent only if the request has not been cancelled; a request is
    dropped without an answer only if it was cancelled. *)
Theorem chat_answer_faithful {W} (srv : services W) req w r s' :
  chat_answer srv req (enter w) = (r, s') ->
  match r with
  | Ok (Some x) => sourced srv req x (cacheStatus s') /\ aborted srv (world s') = false
  | Err e => e <> RequestAbortedError /\ aborted srv (world s') = false
  | Ok None => Destroyed ∈ trace s' /\
      (aborted srv (world s') = true \/
       exists s1, chat_body srv req (enter w) = (Err RequestAbortedError, s1))
  end.
Proof.
  intros Ha. apply chat_answer_paths in Ha as (s1 & rb & Hb & _ & Hc & Hr).
  destruct r as [e|[x|]].
  - by destruct Hr as (_ & _ & ? & ?).
  - destruct Hr as [-> ->]. apply chat_body_paths in Hb as (put & held & b & _ & _ & _ & _ & Hx).
    tauto.
  - destruct Hr as (e & -> & Ht & He). split; [rewrite Ht; set_solver|].
    destruct He as [->|He]; [right; eauto|by left].
Qed.

(** The cache is an optimisation only.  If the request is not cancelled,
    capacity is granted and the provider answers, the request is answered,
    however the cache behaves: its errors, on reading or writing, never
    reach the client. *)
Theorem chat_cache_failures_harmless {W} (srv : services W) req w :
  (forall w, aborted srv w = false) -> (forall w, is_Ok (acquire srv w).1 = true) ->
  (forall w, is_Ok (provider_chat (provider srv) (body req) w).1 = true) ->
  (forall store w, chatCache srv = Some store ->
    (cache_get store (ownerId req) (body req) w).1 <> Err RequestAbortedError /\
    forall x, (cache_put store (ownerId req) (body req) x w).1 <> Err RequestAbortedError) ->
  exists x, (chat_handler srv req (enter w)).1 = Ok (Some x).
Proof.
  intros Ha Hq Hp Hc. unfold chat_handler, finally.
  destruct (chat_answer srv req (enter w)) as [r s'] eqn:E. simpl.
  apply chat_answer_paths in E as (s1 & rb & Hb & _ & _ & Hr).
  assert (exists x, rb = Ok x) as [x ->].
  { apply (chat_body_answers srv req Ha Hq Hp Hc) in Hb. done. }
  destruct r as [e|[y|]]; [by destruct Hr|by exists y|by destruct Hr as (? & ? & _)].
Qed.

(** ** The protocol of a streamed answer *)

Inductive sent : Type := Head | Event (e : sse).
Definition sent_of (e : event) : option sent :=
  match e with HeadersSent => Some Head | Sse e => Some (Event e) | _ => None end.
Definition sent_view (l : list event) : list sent := omap sent_of l.
Definition deltas (cs : list string) : list sent := map (fun c => Event (sse_delta c)) cs.

Section Stream.
  Context {W : Type} (srv : services W) (req : HttpRequest).

(** While the provider is streaming. *)
Definition streaming (s : activation W) : Prop :=
  permit s = true /\ outcome s = stream_failed /\
  work (trace s) = [Acquired; Called (body req)] /\
  exists cs, sent_view (trace s) = if started s then Head :: deltas cs else [].

Lemma sent_view_app l k : sent_view (l ++ k) = sent_view l ++ sent_view k.
Proof. apply omap_app. Qed.

Lemma deltas_snoc cs c : deltas cs ++ [Event (sse_delta c)] = deltas (cs ++ [c]).
Proof. unfold deltas. by rewrite map_app. Qed.

Lemma streaming_world w s : streaming s -> streaming (set_world w s).
Proof. done. Qed.

Lemma start_response_paths s r s' :
  streaming s -> start_response srv s = (r, s') ->
  streaming s' /\
  match r with Ok _ => started s' = true | Err e => s' = s /\ e = RequestAbortedError end.
Proof.
  intros Hs H. apply bind_inv in H as [(e & H & ->)|([] & s1 & H & Hm)].
  { apply throw_if_cancelled_Err in H as [-> ->]. done. }
  apply throw_if_cancelled_Ok in H as [-> _]. injection Hm as <- <-.
  destruct (started s) eqn:E; [done|]. split; [|done].
  destruct Hs as (Hp & Ho & Hw & cs & Hv). rewrite E in Hv. repeat split; simpl; try done.
  - by rewrite work_app, Hw.
  - exists []. by rewrite sent_view_app, Hv.
Qed.

(** [writeSse]: nothing is written, or the event is. *)
Lemma writeSse_paths e s r s' :
  writeSse srv e s = (r, s') ->
  (forall x, r = Err x -> x = RequestAbortedError) /\
  ((is_Ok r = false /\ s' = s) \/ exists w, s' = record (Sse e) (set_world w s)).
Proof.
  unfold writeSse. destruct (_ || _); [intros [= <- <-]; split; [by intros ? [= <-]|by left]|].
  destruct (write srv e (world s)) as [[] w]; intros [= <- <-]; split; eauto; by intros ? [= <-].
Qed.

Lemma onDelta_streaming c s r s' : streaming s -> onDelta srv c s = (r, s') -> streaming s'.
Proof.
  intros Hs. unfold onDelta. destruct (String.eqb _ _); [by intros [= _ <-]|].
  intros [(e & H & _)|([] & s1 & H & Hc)]%bind_inv.
  { by apply start_response_paths in H as [H _]. }
  apply start_response_paths in H as [Hs1 Hst]; [|done]. unfold catch in Hc.
  destruct (writeSse srv (sse_delta c) s1) as [rw s2] eqn:Hw.
  assert (streaming s2) as Hs2.
  { apply writeSse_paths in Hw as [_ [[_ ->]|[w ->]]]; [done|].
    destruct Hs1 as (Hp & Ho & Hk & cs & Hv). repeat split; simpl; try done.
    - by rewrite work_app, Hk.
    - exists (cs ++ [c]). rewrite sent_view_app, Hv, Hst. simpl. by rewrite deltas_snoc. }
  destruct rw as [e|]; injection Hc as _ <-; done.
Qed.

Lemma run_stream_streaming f s r s' :
  permit s = true -> outcome s = stream_failed -> started s = false -> trace s = [Acquired] ->
  run_stream srv f (body req) s = (r, s') -> streaming s'.
Proof.
  intros Hp Ho Hst Ht. unfold run_stream.
  destruct (run_script _ _ _ _ _ _) as [r1 s1] eqn:Hr. intros [= _ <-]. apply streaming_world.
  eapply (run_script_invariant _ _ _ _ streaming); [intros ? ?; apply streaming_world| | |exact Hr].
  - intros c p q p' Hs. by apply onDelta_streaming.
  - repeat split; simpl; try done; rewrite Ht, ?Hst; [done|]. by exists [].
Qed.

(** How the body of a streaming request can end. *)
Inductive stream_end (s : activation W) : result error () -> Prop :=
| end_refused e :
    permit s = false -> trace s = [] -> outcome s = stream_failed -> started s = false ->
    stream_end s (Err e)
| end_uncalled e :
    permit s = true -> trace s = [Acquired] -> outcome s = stream_failed -> started s = false ->
    stream_end s (Err e)
| end_broken e : streaming s -> stream_end s (Err e)
| end_done r cs :
    permit s = true -> started s = true -> work (trace s) = [Acquired; Called (body req)] ->
    sent_view (trace s) = Head :: deltas cs ++ [Event sse_done] ->
    match r with
    | Ok _ => outcome s = stream_completed
    | Err e => e = RequestAbortedError /\ outcome s = stream_failed
    end -> stream_end s r.

Lemma stream_body_paths w r s' : stream_body srv req (enter w) = (r, s') -> stream_end s' r.
Proof.
  intros [(e & H & ->)|([] & s1 & H & Hk)]%bind_inv.
  { apply bind_inv in H as [(e0 & H & [= ->])|([] & s0 & _ & [=])].
    unfold await in H. destruct (acquire srv _) as [ra w']. injection H as -> <-.
    by apply end_refused. }
  apply bind_inv in H as [(? & _ & [=])|([] & s0 & Hacq & Hm)].
  unfold await in Hacq. destruct (acquire srv _) as [ra w']. injection Hacq as -> <-.
  injection Hm as <-.
  apply bind_inv in Hk as [(e & H & ->)|([] & s2 & H & Hk)].
  { apply throw_if_cancelled_Err in H as [-> ->]. by apply end_uncalled. }
  apply throw_if_cancelled_Ok in H as [-> _].
  destruct (provider_stream (provider srv)) as [f|]; [|injection Hk as <- <-; by apply end_uncalled].
  apply bind_inv in Hk as [(e & H & ->)|([] & s2 & H & Hk)].
  { apply end_broken. eapply run_stream_streaming; [..|exact H]; done. }
  apply run_stream_streaming in H; [|done..].
  apply bind_inv in Hk as [(e & Hs & ->)|([] & s3 & Hs & Hk)].
  { apply start_response_paths in Hs as [Hs _]; [|done]. by apply end_broken. }
  apply start_response_paths in Hs as [Hs Hst]; [|done].
  destruct Hs as (Hp & Ho & Hw & cs & Hv). rewrite Hst in Hv.
  apply bind_inv in Hk as [(e & Hd & ->)|([] & s4 & Hd & Hk)];
    apply writeSse_paths in Hd as [He [[Hr Heq]|[w4 ->]]]; try done.
  - subst s'. apply end_broken. repeat split; try done. exists cs. by rewrite Hst.
  - apply (end_done _ _ cs); simpl; try done; rewrite ?work_app, ?sent_view_app, ?Hw, ?Hv; try done.
    split; [by apply He|done].
  - injection Hk as <- <-.
    apply (end_done _ _ cs); simpl; try done; rewrite !work_app || rewrite !sent_view_app;
      rewrite ?Hw, ?Hv; try done. simpl. by rewrite app_nil_r.
Qed.

(** The work so far and what is on the wire: [cs] and [closing]. *)
Definition well_formed (s : activation W) (cs : list string) (closing : list sent) : Prop :=
  (if permit s
   then work (trace s) = [Acquired] \/ work (trace s) = [Acquired; Called (body req)]
   else work (trace s) = []) /\
  sent_view (trace s) = (if started s then Head :: deltas cs ++ closing else []).

Lemma well_formed_record e s cs closing :
  is_work e = false -> sent_of e = None ->
  well_formed s cs closing -> well_formed (record e s) cs closing.
Proof.
  intros He Hs [Hw Hv]. unfold well_formed. simpl. rewrite work_app, sent_view_app. unfold work at 2 4 6.
  unfold sent_view at 2. rewrite !filter_cons_False by (by rewrite He). simpl. rewrite Hs.
  by rewrite !app_nil_r.
Qed.

Lemma well_formed_event e s cs :
  started s = true -> well_formed s cs [] -> well_formed (record (Sse e) s) cs [Event e].
Proof.
  intros Hst [Hw Hv]. unfold well_formed. simpl. rewrite !work_app, sent_view_app, Hv, Hst. simpl.
  by rewrite !app_nil_r.
Qed.

Lemma stream_end_facts s r :
  stream_end s r -> exists cs closing, well_formed s cs closing /\
    (closing = [] \/ closing = [Event sse_done]) /\
    match r with
    | Ok _ => closing = [Event sse_done]
    | Err e => outcome s = stream_failed /\ (e <> RequestAbortedError -> closing = [])
    end.
Proof.
  unfold well_formed.
  destruct 1 as [e Hp Ht Ho Hst|e Hp Ht Ho Hst|e (Hp & Ho & Hw & cs & Hv)|r cs Hp Hst Hw Hv Hend].
  - exists [], []. rewrite Hp, Ht, Hst. auto.
  - exists [], []. rewrite Hp, Ht, Hst. auto.
  - exists cs, []. rewrite Hp, Hw, Hv, app_nil_r. auto.
  - exists cs, [Event sse_done]. rewrite Hp, Hw, Hv, Hst. split; [auto|]. split; [auto|].
    destruct r as [e|]; [|done]. destruct Hend as [-> ->]. done.
Qed.

(** An error event at the end of a stream, or not even that. *)
Lemma stream_error_paths e s cs r s' :
  started s = true -> outcome s = stream_failed -> well_formed s cs [] ->
  catch (writeSse srv (sse_error e);; modify (record Ended))
    (fun _ => modify (record Destroyed)) s = (r, s') ->
  r = Ok () /\ outcome s' = stream_failed /\
  (well_formed s' cs [] \/ well_formed s' cs [Event (sse_error e)]).
Proof.
  intros Hst Ho Hwf. unfold catch, mbind, M_bind, modify.
  destruct (writeSse srv (sse_error e) s) as [rw s1] eqn:Hw.
  apply writeSse_paths in Hw as [_ [[Hr ->]|[w ->]]].
  - destruct rw; [|done]. intros [= <- <-]. split; [done|]. split; [done|]. left.
    by apply well_formed_record.
  - assert (well_formed (record (Sse (sse_error e)) (set_world w s)) cs [Event (sse_error e)])
      as Hwf' by (by apply well_formed_event).
    destruct rw as [x|[]]; intros [= <- <-]; (split; [done|]); (split; [done|]); right;
      by apply well_formed_record.
Qed.

(** After the [catch]. *)
Lemma stream_catch_paths w r s' :
  catch (stream_body srv req) (stream_failure srv) (enter w) = (r, s') ->
  exists cs closing, well_formed s' cs closing /\
    (is_Ok r = false -> started s' = false) /\
    (closing = [] \/ closing = [Event sse_done] \/ exists c, closing = [Event (sse_error c)]) /\
    (outcome s' = stream_completed -> closing = [Event sse_done]).
Proof.
  unfold catch at 1. destruct (stream_body srv req (enter w)) as [rb sb] eqn:Hb.
  apply stream_body_paths, stream_end_facts in Hb as (cs & closing & Hwf & Hcl & Hr).
  destruct rb as [e|[]].
  2: { intros [= <- <-]. exists cs, closing. split; [done|]. split; [done|]. tauto. }
  destruct Hr as [Ho Hne]. unfold stream_failure. destruct (_ || _) eqn:Ha.
  { intros [= <- <-]. exists cs, closing. split; [by apply well_formed_record|].
    split; [done|]. split; [tauto|done]. }
  assert (closing = []) as -> by (apply Hne; by intros ->).
  destruct (started sb) eqn:Hst; simpl.
  2: { intros [= <- <-]. exists cs, []. rewrite Ho. split; [done|]. split; [done|]. split; [auto|done]. }
  destruct (writableNeedDrain srv (world sb)).
  { intros [= <- <-]. exists cs, []. split; [by apply well_formed_record|].
    simpl. rewrite Ho. split; [done|]. split; [auto|done]. }
  intros H. apply (stream_error_paths _ _ cs) in H as (-> & Ho' & [Hw'|Hw']); [..|done|done|done].
  - exists cs, []. rewrite Ho'. split; [done|]. split; [done|]. split; [auto|done].
  - exists cs, [Event (sse_error (error_code e))]. rewrite Ho'. split; [done|]. split; [done|].
    split; [eauto|done].
Qed.

End Stream.

(** The shape of a streamed answer.  Whatever the provider, the client
    and the limiter do, a streaming request takes and gives back at most one
    permit around at most one provider call; on the wire it sends nothing, or
    the headers once, the deltas, and then at most one closing event, [done]
    or [error].  An error is thrown to the JSON error handler only while
    nothing has been sent, and the outcome [completed] is recorded exactly
    for a stream whose [done] event was written. *)
Theorem stream_protocol {W} (srv : services W) req w r s' :
  stream_handler srv req (enter w) = (r, s') ->
  permit s' = false /\
  (work (trace s') = [] \/ work (trace s') = [Acquired; Released] \/
   work (trace s') = [Acquired; Called (body req); Released]) /\
  (is_Ok r = false -> sent_view (trace s') = []) /\
  exists cs closing,
    sent_view (trace s') = (if started s' then Head :: deltas cs ++ closing else []) /\
    (closing = [] \/ closing = [Event sse_done] \/ exists c, closing = [Event (sse_error c)]) /\
    (outcome s' = stream_completed -> closing = [Event sse_done]).
Proof.
  unfold stream_handler, finally. destruct (catch _ _ _) as [rc s1] eqn:Hc. intros [= <- <-].
  apply stream_catch_paths in Hc as (cs & closing & [Hw Hv] & Hsent & Hcl & Ho).
  unfold stream_cleanup, release_if_held. simpl.
  destruct (permit s1) eqn:Hp; simpl; rewrite !work_app, !sent_view_app; simpl;
    rewrite !app_nil_r; (split; [done|]).
  - split; [destruct Hw as [->| ->]; auto|]. split; [by intros H%Hsent; rewrite Hv, H|].
    by exists cs, closing.
  - split; [by rewrite Hw; auto|]. split; [by intros H%Hsent; rewrite Hv, H|].
    by exists cs, closing.
Qed.

(** ** Concrete requests *)

Definition ex_store : ChatCache () :=
  mkCache () (fun _ _ w => (Err (PlainError "Chat cache timed out"), w))
    (fun _ _ _ w => (Err (PlainError "Chat cache timed out"), w)).
Definition ex_llm : LLMProvider () :=
  mkProvider (fun _ w => (Ok (mkChatResponse "Hi"), w))
    (Some (fun _ w => Delta "Hi" w (fun r w => Finish (Err (ProviderConnectionError "Ollama")) w))).
Definition ex_services : services () :=
  mkServices () ex_llm (Some ex_store) (fun w => (Ok (), w)) (fun w => w) (fun _ => false)
    (fun w => w) (fun _ => false) (fun _ => false) (fun _ w => (true, w)) (fun w => w).
Definition ex_http : HttpRequest :=
  mkHttpRequest "alice" (Some "use") (Some "max-age=0, private")
    (mkChatRequest "llama3" [mkChatMessage user "Hello"]).
Definition ex_reply := chat_handler ex_services ex_http (enter ()).
Definition ex_streamed := stream_handler ex_services ex_http (enter ()).

Lemma chat_permit_discipline_witness :
  permit ex_reply.2 = false /\
  work (trace ex_reply.2) = [CacheRead; Acquired; Called (body ex_http); Released].
Proof.
  destruct (chat_permit_discipline ex_services ex_http () ex_reply.1 ex_reply.2
    ltac:(by vm_compute)) as [H _].
  split; [exact H|by vm_compute].
Defined.

Lemma chat_answer_faithful_witness :
  sourced ex_services ex_http (mkChatResponse "Hi") BYPASS.
Proof.
  exact (proj1 (chat_answer_faithful ex_services ex_http () (Ok (Some (mkChatResponse "Hi")))
    (chat_answer ex_services ex_http (enter ())).2 ltac:(by vm_compute))).
Defined.

Lemma chat_cache_failures_harmless_witness : exists x, ex_reply.1 = Ok (Some x).
Proof.
  apply (chat_cache_failures_harmless ex_services ex_http ()); try done.
  intros store w [= <-]. done.
Defined.

Lemma stream_protocol_witness :
  permit ex_streamed.2 = false /\
  sent_view (trace ex_streamed.2) =
    [Head; Event (sse_delta "Hi"); Event (sse_error "PROVIDER_UNAVAILABLE")].
Proof.
  destruct (stream_protocol ex_services ex_http () ex_streamed.1 ex_streamed.2
    ltac:(by vm_compute)) as [H _].
  split; [exact H|by vm_compute].
Defined.

End ChatRoute.
