(* ===== verification/RedisCache.v ===== *)
(** * The Redis chat cache

    The class of [src/src/cache/redis-chat-cache.ts]: entries are the JSON
    text of a completed answer, under a key that hashes the deployment, the
    owner and the whole request, written with [SET ... EX ... NX] and read
    with [GETRANGE] up to one byte past the size limit.

    Redis is a parameter: a class of the two commands with their documented
    laws, and a concrete server that satisfies them.  A command may complete,
    be rejected, time out or be cancelled; a [SET] the caller has stopped
    waiting for may still reach the server later. *)

From Stdlib Require Import Ascii.
From S2P Require Import Prelude JsNumber Utf8 NumberText Errors Chat Json JsonParse CacheKey ChatRoute.
Import JsNumber Utf8 Errors Chat Json JsonParse CacheKey.

Module RedisCache.

(** ** The server *)

Class RedisStrings (R : Type) : Type := {
  (** [GETRANGE key start end], both ends included *)
  GETRANGE : string -> Z -> Z -> R -> text;
  (** [SET key value EX seconds NX] *)
  SET_EX_NX : string -> text -> Z -> R -> R;
  (** the server's clock, in seconds *)
  clock : R -> Q;
  (** the value of a key and the instant it expires *)
  entry : string -> R -> option (text * Q);
  (** the states reached by the mere passing of time *)
  elapses : R -> R -> Prop
}.

Class RedisStringsLaws (R : Type) `{RedisStrings R} : Prop := {
  getrange_entry k n (r : R) :
    0 <= n -> GETRANGE k 0 n r = firstn (Z.to_nat (n + 1)) (default [] (fst <$> entry k r));
  clock_set k v s (r : R) : clock (SET_EX_NX k v s r) = clock r;
  entry_set_other k k' v s (r : R) : k <> k' -> entry k' (SET_EX_NX k v s r) = entry k' r;
  entry_set_new k v s (r : R) :
    0 < s -> entry k r = None -> entry k (SET_EX_NX k v s r) = Some (v, (clock r + inject_Z s)%Q);
  entry_set_held k v s (r : R) e : entry k r = Some e -> entry k (SET_EX_NX k v s r) = Some e;
  entry_live k (r : R) v e : entry k r = Some (v, e) -> (clock r < e)%Q;
  elapses_clock (r r' : R) : elapses r r' -> (clock r <= clock r')%Q;
  elapses_entry k (r r' : R) :
    elapses r r' ->
    entry k r' = match entry k r with
                 | Some (v, e) => if clock r' <q e then Some (v, e) else None
                 | None => None
                 end
}.

(** ** The constructor *)

Record RedisChatCacheOptions : Type := mkCacheOptions {
  namespace : string;
  ttlSeconds : Z;
  maxEntryBytes : Z;
  timeoutMs : Z
}.

Definition positive_int32 (n : number) : bool :=
  negb (negb (isSafeInteger n) || ltb n (of_Z 1) || ltb (of_Z 2147483647) n).

Definition new_RedisChatCache (namespace : string) (ttlSeconds maxEntryBytes timeoutMs : number) :
    result error RedisChatCacheOptions :=
  if negb (positive_int32 ttlSeconds) then
    Err (PlainError "Cache ttlSeconds must be a positive integer")
  else if negb (positive_int32 maxEntryBytes) then
    Err (PlainError "Cache maxEntryBytes must be a positive integer")
  else if negb (positive_int32 timeoutMs) then
    Err (PlainError "Cache timeoutMs must be a positive integer")
  else if String.eqb namespace EmptyString then Err (PlainError "Cache namespace is required")
  else Ok (mkCacheOptions namespace (toZ ttlSeconds) (toZ maxEntryBytes) (toZ timeoutMs)).

Definition valid_options (o : RedisChatCacheOptions) : Prop :=
  1 <= ttlSeconds o <= 2147483647 /\ 1 <= maxEntryBytes o <= 2147483647.

(** ** Answers as JSON *)

Definition response_json (r : ChatResponse) : json Z :=
  JObj [("message", JObj [("role", JStr "assistant"); ("content", JStr (response_content r))])].

(** [isChatResponse], with the content it establishes to be a string. *)
Definition isChatResponse {N} (value : json N) : option string :=
  match field "message" value with
  | Some message =>
      match field "role" message, field "content" message with
      | Some (JStr r), Some (JStr c) => if String.eqb r "assistant" then Some c else None
      | _, _ => None
      end
  | None => None
  end.

(** ** Commands *)

(** How the command in flight ends. *)
Inductive fate : Type :=
| Completes
| Rejects (message : string)
| TimesOut
| Cancels.

(** [command(operation, parent)]: the operation starts unless the request is
    already cancelled, and is given up when the request is cancelled or the
    timer fires first. *)
Definition command {A} (parent_aborted : bool) (f : fate) (answer : A) : result error A :=
  throwIfCancelled parent_aborted;;
  match f with
  | Completes => Ok answer
  | Rejects m => Err (PlainError m)
  | TimesOut => Err (PlainError "Chat cache timed out")
  | Cancels => Err RequestAbortedError
  end.

(** The server and the writes sent to it by callers that no longer wait. *)
Record store (R : Type) : Type := mkStore { redis : R; inflight : list (string * text) }.
Arguments mkStore {R}.
Arguments redis {R}.
Arguments inflight {R}.

Section Cache.
  Context {R : Type} `{RedisStrings R} (sha256 : string -> string) (options : RedisChatCacheOptions).

Abbreviation key := (chatCacheKey sha256 (namespace options)).

Definition byteLength (t : text) : Z := Z.of_nat (length t).

(** What [get] makes of the bytes it received. *)
Definition read_entry (data : text) : option ChatResponse :=
  if (byteLength data =? 0) || (maxEntryBytes options <? byteLength data) then None
  else
    value ← decode_fatal data ≫= parse;
    content ← isChatResponse value;
    Some (mkChatResponse content).

Definition get (aborted : bool) (f : fate) (ownerId : string) (request : ChatRequest) (s : store R) :
    result error (option ChatResponse) :=
  data ← command aborted f (GETRANGE (key ownerId request) 0 (maxEntryBytes options) (redis s));
  Ok (read_entry data).

(** The server executes a [SET]. *)
Definition apply_set (k : string) (v : text) (s : store R) : store R :=
  mkStore (SET_EX_NX k v (ttlSeconds options) (redis s)) (inflight s).

Definition put (aborted : bool) (f : fate) (ownerId : string) (request : ChatRequest)
    (response : ChatResponse) (s : store R) : result error () * store R :=
  match throwIfCancelled aborted with
  | Err e => (Err e, s)
  | Ok _ =>
      match isChatResponse (response_json response) with
      | None => (Ok (), s)
      | Some content =>
          if maxEntryBytes options <? byteLength (chars content) then (Ok (), s)
          else
            let value := print (response_json (mkChatResponse content)) in
            if maxEntryBytes options <? byteLength value then (Ok (), s)
            else
              let k := key ownerId request in
              match f with
              | Completes => (command aborted f (), apply_set k value s)
              | _ => (command aborted f (), mkStore (redis s) ((k, value) :: inflight s))
              end
      end
  end.

(** The cache as the chat endpoint uses it, for a world [W] that contains the
    store, the request's signal and the fate of the next command. *)
Definition RedisChatCache {W} (view : W -> store R) (update : store R -> W -> W)
    (aborted : W -> bool) (next : W -> fate) : ChatRoute.ChatCache W :=
  ChatRoute.mkCache W
    (fun o q w => (get (aborted w) (next w) o q (view w), w))
    (fun o q a w =>
       let '(r, s) := put (aborted w) (next w) o q a (view w) in (r, update s w)).

(** ** Any number of requests against one server *)

Inductive label : Type :=
| Get (aborted : bool) (f : fate) (ownerId : string) (request : ChatRequest)
    (r : result error (option ChatResponse))
| Put (aborted : bool) (f : fate) (ownerId : string) (request : ChatRequest) (response : ChatResponse)
| Late (i : nat)
| Elapse.

Inductive step : store R -> label -> store R -> Prop :=
| step_get aborted f o q s r : get aborted f o q s = r -> step s (Get aborted f o q r) s
| step_put aborted f o q a s r s' :
    put aborted f o q a s = (r, s') -> step s (Put aborted f o q a) s'
| step_late i k v s :
    inflight s !! i = Some (k, v) -> step s (Late i) (apply_set k v s)
| step_elapse s r : elapses (redis s) r -> step s Elapse (mkStore r (inflight s)).

Definition empty_store (s : store R) : Prop :=
  inflight s = [] /\ forall k, entry k (redis s) = None.

End Cache.

(** ** The entry's text *)

Lemma isChatResponse_embed r : isChatResponse (embed (response_json r)) = Some (response_content r).
Proof. done. Qed.

Lemma isChatResponse_response r : isChatResponse (response_json r) = Some (response_content r).
Proof. done. Qed.

Lemma print_response r :
  exists c t, print (response_json r) = c :: t /\ is_ascii c = true /\
    (well_formed (chars (response_content r)) = true -> well_formed t = true).
Proof.
  eexists _, _. split; [reflexivity|]. split; [done|]. intros Hw.
  simpl. repeat (apply well_formed_cons; [done|]).
  repeat (apply well_formed_app; [|done]). by apply escape_all_well_formed.
Qed.

(** Text that decodes and does not start with a byte-order mark decodes to
    itself. *)
Lemma decode_fatal_same c t x :
  is_ascii c = true -> decode_fatal (c :: t) = Some x -> x = c :: t.
Proof.
  intros Hc H. unfold decode_fatal in H. apply bind_Some in H as ([d y] & H & Hf).
  apply bind_Some in Hf as (u & Hu & [= <-]). cbn [decode_stream] in H. unfold feed in H.
  cbn [partial_of new_decoder need fresh] in H. rewrite lead_ascii in H by done.
  apply bind_Some in H as ([d' z] & H & [= <- <-]). rewrite emit_ascii by done. simpl. f_equal.
  apply decode_stream_conserves in H as [H [Hn _]]; [|apply fresh_ok|done]. simpl in H.
  unfold decode_flush in Hu. destruct (need (partial_of d')) eqn:E; [|done].
  rewrite Hn in H by done. simpl in H. by rewrite app_nil_r in H.
Qed.

Section Properties.
  Context {R : Type} `{RedisStringsLaws R} (sha256 : string -> string)
    (options : RedisChatCacheOptions).
  Abbreviation key := (chatCacheKey sha256 (namespace options)).
  Abbreviation text_of := (fun a => print (response_json a)).

Lemma read_entry_print a :
  byteLength (text_of a) <= maxEntryBytes options ->
  well_formed (chars (response_content a)) = true ->
  read_entry options (text_of a) = Some a.
Proof.
  intros Hl Hw. unfold read_entry. destruct (print_response a) as (c & t & Ht & Hc & Hwt).
  rewrite (proj2 (Z.ltb_ge _ _)) by done. rewrite Ht. change (byteLength (c :: t) =? 0) with false.
  cbn [orb]. rewrite decode_fatal_text by auto. cbn [mbind option_bind]. rewrite <- Ht.
  rewrite parse_print by done. cbn [mbind option_bind]. rewrite isChatResponse_embed. by destruct a.
Qed.

Lemma read_entry_sound a b : read_entry options (text_of a) = Some b -> b = a.
Proof.
  unfold read_entry. destruct (print_response a) as (c & t & Ht & Hc & _).
  case_match; [done|]. intros (v & Hv & Hc1)%bind_Some. apply bind_Some in Hv as (x & Hx & Hp).
  rewrite Ht in Hx. apply decode_fatal_same in Hx as ->; [|done]. rewrite <- Ht, parse_print in Hp by done.
  assert (v = embed (response_json a)) as -> by congruence. rewrite isChatResponse_embed in Hc1. injection Hc1 as <-. by destruct a.
Qed.

(** [GETRANGE] returns the entry, or more bytes than [get] accepts. *)
Lemma read_entry_range k (r : R) :
  0 <= maxEntryBytes options ->
  read_entry options (GETRANGE k 0 (maxEntryBytes options) r) =
    match entry k r with
    | Some (v, _) => if byteLength v <=? maxEntryBytes options then read_entry options v else None
    | None => None
    end.
Proof.
  intros Hm. rewrite getrange_entry by done. destruct (entry k r) as [[v e]|]; [|by rewrite firstn_nil].
  change (default [] (fst <$> Some (v, e))) with v. unfold byteLength.
  destruct (Z.leb_spec (Z.of_nat (length v)) (maxEntryBytes options)).
  - by rewrite firstn_all2 by lia.
  - unfold read_entry, byteLength. rewrite length_firstn.
    rewrite (proj2 (Z.ltb_lt _ _)) by lia. by rewrite orb_true_r.
Qed.

(** What [put] does when nothing stands in its way. *)
Lemma put_stores f o q a (s : store R) :
  byteLength (text_of a) <= maxEntryBytes options ->
  byteLength (chars (response_content a)) <= maxEntryBytes options ->
  put sha256 options false f o q a s =
    (command false f (),
     match f with
     | Completes => apply_set options (key o q) (text_of a) s
     | _ => mkStore (redis s) ((key o q, text_of a) :: inflight s)
     end).
Proof.
  intros H1 H2. unfold put. cbn [throwIfCancelled]. rewrite isChatResponse_response.
  rewrite !(proj2 (Z.ltb_ge _ _)) by (by destruct a). by destruct a, f.
Qed.

(** Every [put] leaves the store as it is, or sends the answer's text. *)
Lemma put_cases aborted f o q a (s s' : store R) r :
  put sha256 options aborted f o q a s = (r, s') ->
  s' = s \/ s' = apply_set options (key o q) (text_of a) s \/
  s' = mkStore (redis s) ((key o q, text_of a) :: inflight s).
Proof.
  unfold put. destruct (throwIfCancelled aborted); [intros [= <- <-]; auto|].
  rewrite isChatResponse_response. do 2 (case_match; [intros [= <- <-]; auto|]).
  cbv zeta. destruct f; intros [= <- <-]; auto.
Qed.

(** ** Where entries come from *)

(** A value is the text of an answer put for a request with this key. *)
Definition from_put (ls : list label) (k : string) (v : text) : Prop :=
  exists aborted f o q a, Put aborted f o q a ∈ ls /\ k = key o q /\ v = text_of a.

Definition provenance (ls : list label) (s : store R) : Prop :=
  (forall k v e, entry k (redis s) = Some (v, e) -> from_put ls k v) /\
  (forall k v, (k, v) ∈ inflight s -> from_put ls k v).

Lemma provenance_mono ls l s : provenance ls s -> provenance (ls ++ [l]) s.
Proof.
  intros [He Hi]. split.
  - intros k v e Hk. destruct (He k v e Hk) as (? & ? & ? & ? & ? & Hin & ? & ?).
    eexists _, _, _, _, _. split; [|done]. apply elem_of_app. eauto.
  - intros k v Hk. destruct (Hi k v Hk) as (? & ? & ? & ? & ? & Hin & ? & ?).
    eexists _, _, _, _, _. split; [|done]. apply elem_of_app. eauto.
Qed.

Lemma provenance_set ls k v (s : store R) :
  0 < ttlSeconds options -> provenance ls s -> from_put ls k v ->
  provenance ls (apply_set options k v s).
Proof.
  intros Ht [He Hi] Hf. split; [|done]. intros k' v' e'. unfold apply_set. simpl.
  destruct (decide (k = k')) as [<-|Hne]; [|rewrite entry_set_other by done; apply He].
  destruct (entry k (redis s)) as [[v0 e0]|] eqn:E.
  - rewrite (entry_set_held _ _ _ _ _ E). intros [= <- <-]. eauto.
  - rewrite entry_set_new by done. intros [= <- _]. done.
Qed.

Lemma provenance_step ls (s : store R) l s' :
  0 < ttlSeconds options -> provenance ls s -> step sha256 options s l s' ->
  provenance (ls ++ [l]) s'.
Proof.
  intros Ht Hp Hs. apply (provenance_mono _ l) in Hp. inversion Hs; subst; try done.
  - assert (from_put (ls ++ [Put aborted f o q a]) (key o q) (text_of a)) as Hf.
    { eexists aborted, f, o, q, a. split; [|done]. apply elem_of_app. right. by left. }
    apply put_cases in H1 as [->|[-> | ->]]; [done|by apply provenance_set|].
    destruct Hp as [He Hi]. split; [done|]. simpl. intros k v [[= -> ->]|]%elem_of_cons; eauto.
  - apply provenance_set; [done|done|]. apply Hp. by eapply list_elem_of_lookup_2.
  - destruct Hp as [He Hi]. split; [|done]. simpl. intros k v e.
    rewrite (elapses_entry k _ _ H1). destruct (entry k (redis s)) as [[v0 e0]|] eqn:E; [|done].
    case_match; [|done]. intros [= <- <-]. eauto.
Qed.

Lemma provenance_run ls0 (s : store R) ls s' :
  0 < ttlSeconds options -> provenance ls0 s -> run (step sha256 options) s ls s' ->
  provenance (ls0 ++ ls) s'.
Proof.
  intros Ht Hp Hr. revert ls0 Hp. induction Hr as [|s l s1 ls s2 Hs _ IH]; intros ls0 Hp.
  - by rewrite app_nil_r.
  - replace (ls0 ++ l :: ls) with ((ls0 ++ [l]) ++ ls) by (by rewrite <- app_assoc).
    apply IH. by eapply provenance_step.
Qed.

Lemma get_hit f o q (s : store R) a :
  0 <= maxEntryBytes options -> get sha256 options false f o q s = Ok (Some a) ->
  exists v e, entry (key o q) (redis s) = Some (v, e) /\ read_entry options v = Some a.
Proof.
  intros Hm. unfold get, command. cbn [throwIfCancelled]. destruct f; try done.
  cbn [mbind result_mbind]. rewrite read_entry_range by done.
  destruct (entry _ _) as [[v e]|]; [|done]. case_match; [|done]. intros [= Hr]. eauto.
Qed.

(** ** Lifetimes *)

(** An entry stays what it is until it expires: no write replaces it and
    nothing extends its life. *)
Lemma entry_persists_step (s : store R) l s' k v e :
  step sha256 options s l s' -> entry k (redis s) = Some (v, e) -> (clock (redis s') < e)%Q ->
  entry k (redis s') = Some (v, e).
Proof.
  assert (forall k' v', entry k (redis s) = Some (v, e) ->
    entry k (SET_EX_NX k' v' (ttlSeconds options) (redis s)) = Some (v, e)) as Hset.
  { intros k' v' He. destruct (decide (k' = k)) as [->|Hne].
    - by apply entry_set_held.
    - by rewrite entry_set_other. }
  intros Hs He Hc. inversion Hs; subst; try done.
  - apply put_cases in H1 as [->|[-> | ->]]; simpl; auto.
  - by apply Hset.
  - simpl in *. rewrite (elapses_entry k _ _ H1), He. by rewrite (proj2 (Qltb_true _ _)).
Qed.

Lemma clock_step (s : store R) l s' :
  step sha256 options s l s' -> (clock (redis s) <= clock (redis s'))%Q.
Proof.
  intros Hs. inversion Hs; subst; try apply Qle_refl.
  - apply put_cases in H1 as [->|[-> | ->]]; simpl; rewrite ?clock_set; apply Qle_refl.
  - simpl. rewrite clock_set. apply Qle_refl.
  - by apply elapses_clock.
Qed.

Lemma clock_run (s : store R) ls s' :
  run (step sha256 options) s ls s' -> (clock (redis s) <= clock (redis s'))%Q.
Proof.
  induction 1 as [|? ? ? ? ? Hs _ IH]; [apply Qle_refl|]. apply clock_step in Hs. lra.
Qed.

Lemma entry_persists (s : store R) ls s' k v e :
  run (step sha256 options) s ls s' -> entry k (redis s) = Some (v, e) ->
  (clock (redis s') < e)%Q -> entry k (redis s') = Some (v, e).
Proof.
  induction 1 as [|s l s1 ls s2 Hs Hr IH]; [done|]. intros He Hc. apply IH; [|done].
  eapply entry_persists_step; [done|done|]. apply clock_run in Hr. lra.
Qed.

End Properties.

(** ** A concrete server *)

Record strings_server : Type := mkStrings { time : Q; db : gmap string (text * Q) }.

Definition live (k : string) (r : strings_server) : option (text * Q) :=
  db r !! k ≫= fun p => if time r <q p.2 then Some p else None.

#[global] Instance strings_server_redis : RedisStrings strings_server := {
  GETRANGE k a b r :=
    firstn (Z.to_nat (b - a + 1)) (skipn (Z.to_nat a) (default [] (fst <$> live k r)));
  SET_EX_NX k v s r :=
    match live k r with
    | Some _ => r
    | None => mkStrings (time r) (<[k := (v, (time r + inject_Z s)%Q)]> (db r))
    end;
  clock := time;
  entry := live;
  elapses r r' := db r' = db r /\ (time r <= time r')%Q
}.

Lemma live_alive k r v e : live k r = Some (v, e) -> (time r < e)%Q.
Proof.
  unfold live. intros ([v0 e0] & _ & Hp)%bind_Some. simpl in Hp. case_match eqn:E; [|done].
  injection Hp as <- <-. by apply Qltb_true.
Qed.

#[global] Instance strings_server_laws : RedisStringsLaws strings_server.
Proof.
  constructor; cbn [GETRANGE SET_EX_NX clock entry elapses strings_server_redis].
  - intros k n r Hn. by rewrite Z.sub_0_r.
  - intros k v s r. by case_match.
  - intros k k' v s r Hne. case_match; [done|]. unfold live. simpl. by rewrite lookup_insert_ne.
  - intros k v s r Hs Hn. rewrite Hn. unfold live. simpl. rewrite lookup_insert_eq. simpl.
    rewrite (proj2 (Qltb_true _ _)); [done|]. assert (0 < inject_Z s)%Q by (unfold Qlt; simpl; lia). lra.
  - intros k v s r e He. by rewrite He.
  - intros k r v e. apply live_alive.
  - by intros r r' [_ Ht].
  - intros k r r' [Hd Ht]. unfold live. rewrite Hd. destruct (db r !! k) as [[v e]|]; [|done]. simpl.
    destruct (time r <q e) eqn:E1, (time r' <q e) eqn:E2; try done. to_prop. lra.
Qed.

(** A hit was put for its owner and request. *)
Lemma hit_was_put `{RedisStringsLaws R} sha256 options (s0 s : store R) ls aborted f o q a :
  valid_options options -> empty_store s0 -> run (step sha256 options) s0 ls s ->
  get sha256 options aborted f o q s = Ok (Some a) ->
  (exists aborted' f', Put aborted' f' o q a ∈ ls) \/ collision sha256.
Proof.
  intros [Ht Hm] [Hi He] Hrun Hget. destruct aborted; [done|].
  assert (provenance sha256 options [] s0) as Hp.
  { split; [by intros k v e; rewrite He|]. rewrite Hi. by intros k v ?%elem_of_nil. }
  eapply provenance_run in Hp; [|lia|exact Hrun]. simpl in Hp.
  apply get_hit in Hget as (v & e & Hv & Hr); [|lia].
  apply Hp in Hv as (ab & f' & o' & q' & a' & Hin & Hk & ->).
  apply read_entry_sound in Hr as ->.
  unfold chatCacheKey in Hk. apply string_app_inj, hash_inj in Hk as [Hk|Hc]; [|by right].
  left. cbn [normal map] in Hk.
  assert (normal (chat_json q) = normal (chat_json q') /\ o = o') as [Hq ->] by (split; congruence).
  apply chat_json_inj in Hq as ->. eauto.
Qed.

(** ** The properties *)

(** C21: an answer written to the cache is read back as it was.  After a [put]
    that completes under a free key, of an answer of well-formed text that is
    no longer than an entry may be, every [get] of the same owner and
    request that completes within the entry's time to live returns the
    answer, whatever other requests do to the cache meanwhile. *)
Theorem cache_roundtrip `{RedisStringsLaws R} sha256 options o q a (s s1 s2 : store R) ls :
  valid_options options ->
  entry (chatCacheKey sha256 (namespace options) o q) (redis s) = None ->
  byteLength (print (response_json a)) <= maxEntryBytes options ->
  byteLength (chars (response_content a)) <= maxEntryBytes options ->
  well_formed (chars (response_content a)) = true ->
  put sha256 options false Completes o q a s = (Ok (), s1) ->
  run (step sha256 options) s1 ls s2 ->
  (clock (redis s2) < clock (redis s) + inject_Z (ttlSeconds options))%Q ->
  get sha256 options false Completes o q s2 = Ok (Some a).
Proof.
  intros [Ht Hm] Hfree Hl Hl' Hw Hput Hrun Hclock.
  rewrite put_stores in Hput by done. injection Hput as <-.
  assert (entry (chatCacheKey sha256 (namespace options) o q) (redis s2) =
    Some (print (response_json a), (clock (redis s) + inject_Z (ttlSeconds options))%Q)) as He.
  { eapply entry_persists; [exact Hrun| |done]. apply entry_set_new; [lia|done]. }
  unfold get. cbn [command throwIfCancelled mbind result_mbind]. f_equal.
  rewrite read_entry_range, He by lia. rewrite (proj2 (Z.leb_le _ _)) by done.
  by apply read_entry_print.
Qed.

(** A hit is an answer of the same tenant to the same request.  Whatever
    sequence of reads, writes, late writes and delays a cache that starts
    empty goes through, a [get] that returns an answer returns one that was
    put for that owner and that request, unless SHA-256 collides. *)
Theorem cache_hit_provenance `{RedisStringsLaws R} sha256 options (s0 s : store R) ls f o q a :
  valid_options options -> empty_store s0 -> run (step sha256 options) s0 ls s ->
  get sha256 options false f o q s = Ok (Some a) ->
  (exists aborted f', Put aborted f' o q a ∈ ls) \/ collision sha256.
Proof. apply hit_was_put. Qed.

(** C22: the first completed answer wins and its lifetime is fixed.  While an
    entry lives, no other answer, late write or hit changes its value or its
    expiry; once its instant has passed, the entry is gone. *)
Theorem cache_entry_fixed `{RedisStringsLaws R} sha256 options (s s' : store R) ls k v e :
  run (step sha256 options) s ls s' -> entry k (redis s) = Some (v, e) ->
  ((clock (redis s') < e)%Q -> entry k (redis s') = Some (v, e)) /\
  ((e <= clock (redis s'))%Q -> entry k (redis s') <> Some (v, e)).
Proof.
  intros Hr He. split; [by eapply entry_persists|].
  intros Hc Hx. apply entry_live in Hx. lra.
Qed.

(** A cache that does not answer is not mistaken for a cancelled request.
    A command fails with the cancellation error exactly when the request was
    cancelled before or while it ran; a rejected or late command fails with a
    plain error, and a [put] of a cancelled request sends nothing. *)
Theorem cache_failure_kind `{RedisStrings R} sha256 options aborted f o q a (s : store R) :
  (get sha256 options aborted f o q s = Err RequestAbortedError <-> aborted = true \/ f = Cancels) /\
  (aborted = true -> put sha256 options aborted f o q a s = (Err RequestAbortedError, s)) /\
  (forall s', put sha256 options aborted f o q a s = (Err RequestAbortedError, s') ->
     aborted = true \/ f = Cancels).
Proof.
  split; [|split].
  - unfold get, command. destruct aborted, f; cbn; split; naive_solver.
  - by intros ->.
  - unfold put. destruct aborted; [by left|]. intros s'. cbn [throwIfCancelled].
    rewrite isChatResponse_response. do 2 (case_match; [done|]). cbv zeta.
    destruct f; cbn [command throwIfCancelled mbind result_mbind]; intros [=]; auto.
Qed.

(** ** Scenarios *)

Definition ex_cache : RedisChatCacheOptions := mkCacheOptions "ns" 300 65536 100.
Definition ex_server : strings_server := mkStrings 0 ∅.
Definition ex_store : store strings_server := mkStore ex_server [].
Definition ex_answer : ChatResponse := mkChatResponse "four".
Definition ex_filled : store strings_server :=
  (put id ex_cache false Completes "alice" (ex_ask "hi") ex_answer ex_store).2.

Lemma ex_cache_valid : valid_options ex_cache.
Proof. split; simpl; lia. Qed.

Lemma ex_store_empty : empty_store ex_store.
Proof. by split. Qed.

Lemma ex_filled_run :
  run (step id ex_cache) ex_store [Put false Completes "alice" (ex_ask "hi") ex_answer] ex_filled.
Proof. eapply run_cons; [|apply run_nil]. by eapply step_put. Qed.

Lemma cache_roundtrip_witness :
  get id ex_cache false Completes "alice" (ex_ask "hi") ex_filled = Ok (Some ex_answer) /\
  get id ex_cache false Completes "bob" (ex_ask "hi") ex_filled = Ok None.
Proof.
  split; [|by vm_compute].
  apply (cache_roundtrip id ex_cache "alice" (ex_ask "hi") ex_answer ex_store ex_filled ex_filled []);
    (apply run_nil || by vm_compute).
Defined.

Lemma cache_hit_provenance_witness :
  get id ex_cache false Completes "alice" (ex_ask "hi") ex_filled = Ok (Some ex_answer) /\
  ((exists aborted f', Put aborted f' "alice" (ex_ask "hi") ex_answer ∈
      [Put false Completes "alice" (ex_ask "hi") ex_answer]) \/ collision id).
Proof.
  split; [by vm_compute|].
  apply (cache_hit_provenance id ex_cache ex_store ex_filled
    [Put false Completes "alice" (ex_ask "hi") ex_answer] Completes).
  - apply ex_cache_valid.
  - apply ex_store_empty.
  - apply ex_filled_run.
  - by vm_compute.
Defined.

Lemma cache_entry_fixed_witness :
  exists v e, entry (chatCacheKey id "ns" "alice" (ex_ask "hi")) (redis ex_filled) = Some (v, e) /\
  ((0 < e)%Q -> entry (chatCacheKey id "ns" "alice" (ex_ask "hi")) (redis ex_filled) = Some (v, e)).
Proof.
  eexists _, _. split; [by vm_compute|].
  refine (proj1 (cache_entry_fixed id ex_cache ex_filled ex_filled []
    (chatCacheKey id "ns" "alice" (ex_ask "hi")) _ _ _ _)).
  - apply run_nil.
  - by vm_compute.
Defined.

Lemma cache_failure_kind_witness :
  put id ex_cache true TimesOut "alice" (ex_ask "hi") ex_answer ex_store =
    (Err RequestAbortedError, ex_store).
Proof. by apply (cache_failure_kind id ex_cache true TimesOut "alice" (ex_ask "hi") ex_answer ex_store). Defined.

End RedisCache.
