(* ===== verification/Broker.v ===== *)
(** * The broker connection: deliveries, draining and publication

    [src/src/queue/rabbitmq-broker.ts].  A state has the fields of
    [RabbitMqBroker] the deliveries depend on, the handlers that are running,
    and the settlements sent to RabbitMQ.  The steps are the callbacks of the
    class: a delivery arrives, a handler ends, the connection reports an
    error or closes, [stopConsuming] and [close] are called, and the wait of
    [stopConsuming] ends.  The AMQP client is outside the model: it delivers
    each delivery tag once per connection. *)

From Stdlib Require Import Ascii.
From S2P Require Import Prelude JsNumber Errors Json JobStore JobWorker.
Import JsNumber Errors Json JobStore JobWorker.

Module Broker.

(** ** Envelopes *)

(** [/^[A-Za-z0-9_-]{1,128}$/] *)
Definition id_char (c : ascii) : bool :=
  let n := nat_of_ascii c in
  ((65 <=? n)%nat && (n <=? 90)%nat) || ((97 <=? n)%nat && (n <=? 122)%nat)
  || ((48 <=? n)%nat && (n <=? 57)%nat) || (n =? 95)%nat || (n =? 45)%nat.

Definition valid_id (id : string) : bool :=
  forallb id_char (chars id) && (1 <=? length (chars id))%nat && (length (chars id) <=? 128)%nat.

Definition valid_attempt (n : number) : bool :=
  isSafeInteger n && ltb (of_Z 0) n && leb n (of_Z 2147483647).

(** [isJobEnvelope], returning the envelope; [None] also stands for content
    that is not JSON. *)
Definition isJobEnvelope (value : option (json number)) : option JobEnvelope :=
  v ← value;
  match field "id" v, field "attempt" v with
  | Some (JStr id), Some (JNum attempt) =>
      if valid_id id && valid_attempt attempt then Some (mkEnvelope id (toZ attempt)) else None
  | _, _ => None
  end.

(** What [publish] sends: [JSON.stringify(message)], as a value. *)
Definition envelope_json (m : JobEnvelope) : json number :=
  JObj [("id", JStr (env_id m)); ("attempt", JNum (of_Z (env_attempt m)))].

(** ** publish *)

Inductive publish_event : Type :=
| Confirmed (e : option error)
| Returned (messageId : string)
| ChannelClosed
| ConfirmTimeout.

Definition message_id (m : JobEnvelope) : string := env_id m +:+ "/" +:+ pretty (env_attempt m).

(** The promise is settled by the first event that concerns the message; a
    [sendToQueue] that throws counts as a confirmation with an error. *)
Fixpoint publish_outcome (m : JobEnvelope) (es : list publish_event) : option (result error ()) :=
  match es with
  | [] => None
  | Confirmed None :: _ => Some (Ok ())
  | Confirmed (Some e) :: _ => Some (Err e)
  | Returned id :: es' =>
      if String.eqb id (message_id m) then Some (Err (PlainError "RabbitMQ could not route the job"))
      else publish_outcome m es'
  | ChannelClosed :: _ => Some (Err (PlainError "RabbitMQ channel closed before confirmation"))
  | ConfirmTimeout :: _ => Some (Err (PlainError "RabbitMQ publish confirmation timed out"))
  end.

(** ** Deliveries and the state *)

Inductive settlement : Type := Ack | Reject.

Record broker : Type := mkBroker {
  failure : option error;
  draining : bool;
  closing : bool;
  (** deliveries being handled, with the message given to the handler *)
  active : gmap nat JobEnvelope;
  (** the tasks [stopConsuming] waits for, once it has been called *)
  awaited : option (gset nat);
  consuming : bool;
  (** settlements sent, and delivery tags seen: what happened so far *)
  settled : list (nat * settlement);
  seen : gset nat
}.

Definition connected : broker := mkBroker None false false ∅ None true [] ∅.

Definition set_failure (e : error) (b : broker) : broker :=
  mkBroker (Some e) (draining b) (closing b) (active b) (awaited b) (consuming b) (settled b) (seen b).
Definition settle (n : nat) (s : settlement) (b : broker) : broker :=
  mkBroker (failure b) (draining b) (closing b) (active b) (awaited b) (consuming b)
    (settled b ++ [(n, s)]) (seen b).
Definition set_active (a : gmap nat JobEnvelope) (b : broker) : broker :=
  mkBroker (failure b) (draining b) (closing b) a (awaited b) (consuming b) (settled b) (seen b).
Definition see (n : nat) (b : broker) : broker :=
  mkBroker (failure b) (draining b) (closing b) (active b) (awaited b) (consuming b) (settled b)
    ({[n]} ∪ seen b).

(** The callback given to [channel.consume], up to the start of the handler. *)
Definition onMessage (message : option (nat * option (json number))) (b : broker) : broker :=
  match message with
  | None => if closing b then b else set_failure (PlainError "RabbitMQ cancelled the consumer") b
  | Some (n, content) =>
      let b := see n b in
      if draining b then b
      else match isJobEnvelope content with
      | None => settle n Reject b
      | Some m => set_active (<[n := m]> (active b)) b
      end
  end.

(** [handle] after the handler, and the [catch] of its task. *)
Definition onHandled (n : nat) (r : result error action) (b : broker) : broker :=
  let b' := set_active (delete n (active b)) b in
  match r with
  | Ok dead_letter => settle n Reject b'
  | Ok ack => settle n Ack b'
  | Err e => set_failure e b'
  end.

(** [observe] *)
Definition onError (e : error) (b : broker) : broker :=
  if closing b then b else set_failure e b.
Definition onClose (b : broker) : broker :=
  if closing b then b
  else match failure b with
  | Some _ => b
  | None => set_failure (PlainError "RabbitMQ connection or channel closed") b
  end.

(** [stopConsuming] up to the wait, the end of the wait, and [close] up to
    its call of [stopConsuming]. *)
Definition stopConsuming (b : broker) : broker :=
  mkBroker (failure b) true (closing b) (active b) (Some (dom (active b))) (consuming b)
    (settled b) (seen b).
Definition cancelConsumer (b : broker) : broker :=
  mkBroker (failure b) (draining b) (closing b) (active b) (awaited b) false (settled b) (seen b).
Definition close (b : broker) : broker :=
  stopConsuming (mkBroker (failure b) (draining b) true (active b) (awaited b) (consuming b)
    (settled b) (seen b)).

(** [publish] on a connected channel: refused once the connection failed. *)
Definition publish (m : JobEnvelope) (es : list publish_event) (b : broker) :
    option (result error ()) :=
  match failure b with
  | Some e => Some (Err e)
  | None => publish_outcome m es
  end.

Inductive label : Type :=
| Message (message : option (nat * option (json number)))
| Handled (n : nat) (r : result error action)
| ConnectionError (e : error)
| ConnectionClosed
| Stop
| Close
| WaitOver.

Inductive step : broker -> label -> broker -> Prop :=
| step_message b message :
    (forall n c, message = Some (n, c) -> n ∉ seen b) ->
    step b (Message message) (onMessage message b)
| step_handled b n m r :
    active b !! n = Some m -> step b (Handled n r) (onHandled n r b)
| step_error b e : step b (ConnectionError e) (onError e b)
| step_close b : step b ConnectionClosed (onClose b)
| step_stop b : step b Stop (stopConsuming b)
| step_shutdown b : step b Close (close b)
| step_wait_over b tasks :
    awaited b = Some tasks -> (forall n, n ∈ tasks -> active b !! n = None) ->
    step b WaitOver (cancelConsumer b).

(** ** The invariant *)

Record inv (b : broker) : Prop := {
  inv_once : NoDup (settled b).*1;
  inv_settled : forall n, n ∈ (settled b).*1 -> n ∈ seen b /\ active b !! n = None;
  inv_active : forall n, is_Some (active b !! n) -> n ∈ seen b;
  inv_awaited : forall tasks, awaited b = Some tasks -> draining b = true /\ dom (active b) ⊆ tasks;
  inv_cancelled : consuming b = false -> draining b = true /\ active b = ∅
}.

Lemma inv_connected : inv connected.
Proof.
  constructor; simpl; try done; [constructor|..].
  - by intros n ?%not_elem_of_nil.
  - intros n. rewrite lookup_empty. by intros [? ?].
Qed.

Lemma nodup_settle (l : list (nat * settlement)) n s :
  NoDup l.*1 -> n ∉ l.*1 -> NoDup (l ++ [(n, s)]).*1.
Proof.
  intros Hl Hn. rewrite fmap_app. simpl. apply NoDup_app. split; [done|].
  split; [|apply NoDup_singleton]. intros x Hx Hs. apply list_elem_of_singleton in Hs as ->. done.
Qed.

Lemma inv_failure e b : inv b -> inv (set_failure e b).
Proof. intros H. by constructor; simpl; apply H. Qed.

Lemma inv_message message b :
  inv b -> (forall n c, message = Some (n, c) -> n ∉ seen b) -> inv (onMessage message b).
Proof.
  intros H Hn. destruct message as [[n content]|]; simpl.
  2: { destruct (closing b); [done|]. by apply inv_failure. }
  specialize (Hn _ _ eq_refl).
  assert (n ∉ (settled b).*1) as Hns by (by intros [? _]%(inv_settled _ H)).
  assert (active b !! n = None) as Hna.
  { destruct (active b !! n) eqn:E; [|done]. exfalso. apply Hn, (inv_active _ H). by rewrite E. }
  destruct (draining b) eqn:Hd; [|destruct (isJobEnvelope content) as [m|]]; constructor; simpl;
    try apply H.
  - intros k [Hk ?]%(inv_settled _ H). set_solver.
  - intros k Hk%(inv_active _ H). set_solver.
  - intros k Hk. destruct (inv_settled _ H _ Hk) as [Hs Hka]. split; [set_solver|].
    rewrite lookup_insert_ne; [done|]. by intros ->.
  - intros k. rewrite lookup_insert_is_Some. intros [Hk|[_ Hk]];
      [set_solver|apply (inv_active _ H) in Hk; set_solver].
  - intros tasks [? _]%(inv_awaited _ H). congruence.
  - intros [? _]%(inv_cancelled _ H). congruence.
  - by apply nodup_settle; [apply H|].
  - intros k. rewrite fmap_app, elem_of_app. intros [Hk|Hk].
    + destruct (inv_settled _ H _ Hk). set_solver.
    + apply list_elem_of_singleton in Hk. set_solver.
  - intros k Hk%(inv_active _ H). set_solver.
Qed.

Lemma inv_finished n m b :
  inv b -> active b !! n = Some m ->
  inv (set_active (delete n (active b)) b) /\ (n ∉ (settled b).*1) /\ n ∈ seen b.
Proof.
  intros H Hm. split; [constructor; simpl; try apply H|].
  - intros k [Hk Hka]%(inv_settled _ H). split; [done|]. rewrite lookup_delete_None. by right.
  - intros k. rewrite lookup_delete_is_Some. intros [_ Hk]. by apply (inv_active _ H).
  - intros tasks [Hd Hs]%(inv_awaited _ H). split; [done|]. set_solver.
  - intros [Hd Ha]%(inv_cancelled _ H). by rewrite Ha, lookup_empty in Hm.
  - split; [|apply (inv_active _ H); by rewrite Hm]. intros [_ Hk]%(inv_settled _ H). congruence.
Qed.

Lemma inv_settle n s b :
  inv b -> active b !! n = None -> n ∉ (settled b).*1 -> n ∈ seen b -> inv (settle n s b).
Proof.
  intros H Ha Hn Hs. constructor; simpl; try apply H.
  - by apply nodup_settle; [apply H|].
  - intros k. rewrite fmap_app, elem_of_app. intros [Hk|Hk].
    + by apply (inv_settled _ H).
    + by apply list_elem_of_singleton in Hk as ->.
Qed.

Lemma broker_inv_step b l b' : inv b -> step b l b' -> inv b'.
Proof.
  intros H. destruct 1 as [b message Hn|b n m r Hm|b e|b|b|b|b tasks Ht Hw].
  - by apply inv_message.
  - destruct (inv_finished n m b H Hm) as (Hf & Hns & Hseen). unfold onHandled.
    destruct r as [e|[]]; [by apply inv_failure|..];
      (apply inv_settle; [done|simpl; apply lookup_delete_eq|done|done]).
  - unfold onError. destruct (closing b); [done|]. by apply inv_failure.
  - unfold onClose. destruct (closing b), (failure b); try done. by apply inv_failure.
  - constructor; simpl; try apply H; [by intros ? [= <-]|].
    intros [_ Ha]%(inv_cancelled _ H). done.
  - constructor; simpl; try apply H; [by intros ? [= <-]|].
    intros [_ Ha]%(inv_cancelled _ H). done.
  - constructor; simpl; try apply H. intros _. destruct (inv_awaited _ H _ Ht) as [Hd Hs].
    split; [done|]. apply map_empty. intros n. destruct (active b !! n) as [m|] eqn:E; [|done].
    rewrite <- E. apply Hw, Hs, elem_of_dom. by rewrite E.
Qed.

Lemma broker_inv_run b ls b' : run step b ls b' -> inv b -> inv b'.
Proof. apply run_invariant. intros s l s' H Hs. by eapply broker_inv_step. Qed.

(** ** Draining *)

(** While draining no handler starts. *)
Lemma draining_step b l b' :
  step b l b' -> draining b = true -> draining b' = true /\ active b' ⊆ active b.
Proof.
  destruct 1 as [b message Hn|b n m r Hm|b e|b|b|b|b tasks Ht Hw]; intros Hd; simpl; try done.
  - destruct message as [[n c]|]; simpl; [by rewrite Hd|]. by destruct (closing b).
  - unfold onHandled. destruct r as [e|[]]; simpl; (split; [done|apply delete_subseteq]).
  - unfold onError. by destruct (closing b).
  - unfold onClose. by destruct (closing b), (failure b).
Qed.

Lemma draining_run b ls b' :
  run step b ls b' -> draining b = true -> draining b' = true /\ active b' ⊆ active b.
Proof.
  intros Hr. induction Hr as [|b l b1 ls b2 Hs _ IH]; intros Hd; [done|].
  destruct (draining_step _ _ _ Hs Hd) as [Hd1 H1]. destruct (IH Hd1) as [Hd2 H2].
  split; [done|]. by etrans.
Qed.

(** ** What settles a delivery *)

Definition settles (n : nat) (s : settlement) (l : label) : Prop :=
  match l with
  | Message (Some (k, content)) => k = n /\ s = Reject /\ isJobEnvelope content = None
  | Handled k (Ok a) => k = n /\ s = match a with ack => Ack | dead_letter => Reject end
  | _ => False
  end.

Lemma settled_step b l b' n s :
  step b l b' -> (n, s) ∈ settled b' -> (n, s) ∈ settled b \/ settles n s l.
Proof.
  destruct 1 as [b message Hn|b k m r Hm|b e|b|b|b|b tasks Ht Hw]; simpl; auto.
  - destruct message as [[k c]|]; simpl; [|by destruct (closing b); auto].
    destruct (draining b); [by auto|]. destruct (isJobEnvelope c) eqn:E; simpl; [by auto|].
    rewrite elem_of_app. intros [?|Hk]; [by left|].
    apply list_elem_of_singleton in Hk as [= -> ->]. auto.
  - unfold onHandled. destruct r as [e|[]]; simpl; auto; rewrite elem_of_app;
      (intros [?|Hk]; [by left|]); apply list_elem_of_singleton in Hk as [= -> ->]; auto.
  - unfold onError. destruct (closing b); auto.
  - unfold onClose. destruct (closing b), (failure b); auto.
Qed.

Lemma settled_run b ls b' n s :
  run step b ls b' -> (n, s) ∈ settled b' -> (n, s) ∈ settled b \/ exists l, l ∈ ls /\ settles n s l.
Proof.
  intros Hr. induction Hr as [|b l b1 ls b2 Hs _ IH]; intros Hn; [by left|].
  destruct (IH Hn) as [Hn1|(l' & Hl' & Hse)]; [|right; exists l'; split; [by right|done]].
  destruct (settled_step _ _ _ _ _ Hs Hn1) as [?|?]; [by left|].
  right. exists l. split; [by left|done].
Qed.

(** ** The range of attempts *)

Lemma valid_attempt_range n : valid_attempt n = true -> 1 <= toZ n <= 2147483647.
Proof.
  unfold valid_attempt. intros [[Hs Hl]%andb_true_iff Hu]%andb_true_iff.
  apply isSafeInteger_isInteger in Hs. rewrite gtb_integer in Hl by done.
  rewrite leb_integer in Hu by done. to_prop. lia.
Qed.

Lemma valid_attempt_of_Z k : valid_attempt (of_Z k) = true <-> 1 <= k <= 2147483647.
Proof.
  split; [intros H%valid_attempt_range; by rewrite of_Z_toZ in H|]. intros Hk.
  unfold valid_attempt. rewrite of_Z_isSafeInteger by (unfold MAX_SAFE_INTEGER; lia).
  rewrite gtb_integer, leb_integer, of_Z_toZ by apply of_Z_isInteger.
  apply andb_true_iff. split; [apply Z.ltb_lt; lia|apply Z.leb_le; lia].
Qed.

(** ** The properties *)

(** C33: a delivery is settled at most once and only with a reason.  In every
    run each delivery is acknowledged or rejected at most once; it is
    acknowledged only after its handler returned [ack], and rejected only
    after the handler returned [dead-letter] or because its content is no
    envelope.  A handler that throws leaves it unsettled, to be redelivered. *)
Theorem delivery_settled_once ls b :
  run step connected ls b ->
  NoDup (settled b).*1 /\
  forall n s, (n, s) ∈ settled b -> exists l, l ∈ ls /\ settles n s l.
Proof.
  intros Hr. split; [apply (broker_inv_run _ _ _ Hr inv_connected)|].
  intros n s Hn. destruct (settled_run _ _ _ _ _ Hr Hn) as [H|H]; [|done].
  by apply not_elem_of_nil in H.
Qed.

(** Draining.  From the moment [stopConsuming] is called no handler is
    started, and when the consumer is cancelled none is running any more, so
    that a standby consumer never overlaps with this one. *)
Theorem drain_before_cancel ls b ls' b' :
  run step connected ls b -> run step (stopConsuming b) ls' b' ->
  active b' ⊆ active b /\ (consuming b' = false -> active b' = ∅).
Proof.
  intros Hr Hr'. pose proof (broker_inv_run _ _ _ Hr inv_connected) as Hinv.
  pose proof (broker_inv_step _ _ _ Hinv (step_stop b)) as Hinv1.
  pose proof (broker_inv_run _ _ _ Hr' Hinv1) as Hinv2.
  split; [by apply (draining_run _ _ _ Hr')|]. intros Hc. by apply (inv_cancelled _ Hinv2).
Qed.

(** The envelopes accepted.  An accepted envelope has an identifier of 1
    to 128 permitted characters and an attempt between 1 and 2147483647, so
    that it fits the table's integer column; and every such envelope, as
    [publish] writes it, is accepted unchanged. *)
Theorem envelope_accepted_exactly m :
  (forall v, isJobEnvelope v = Some m ->
     valid_id (env_id m) = true /\ 1 <= env_attempt m <= 2147483647) /\
  (valid_id (env_id m) = true -> 1 <= env_attempt m <= 2147483647 ->
     isJobEnvelope (Some (envelope_json m)) = Some m).
Proof.
  split.
  - intros [v|]; [|done]. unfold isJobEnvelope. cbn [mbind option_bind].
    destruct (field "id" v) as [[]|]; try done. destruct (field "attempt" v) as [[]|]; try done.
    destruct (_ && _) eqn:E; [|done]. intros [= <-]. apply andb_true_iff in E as [Hid Ha].
    split; [done|]. cbn [env_attempt]. by apply valid_attempt_range.
  - intros Hid Ha. destruct m as [id k]. cbn [env_id env_attempt] in *.
    unfold isJobEnvelope. cbn [mbind option_bind].
    change (field "id" (envelope_json (mkEnvelope id k))) with (Some (JStr id : json number)).
    change (field "attempt" (envelope_json (mkEnvelope id k))) with (Some (JNum (of_Z k))).
    cbv iota beta. by rewrite Hid, (proj2 (valid_attempt_of_Z k) Ha), of_Z_toZ.
Qed.

(** ** A concrete connection *)

Definition ex_envelope : JobEnvelope := mkEnvelope "job-1" 1.
Definition ex_labels : list label :=
  [Message (Some (1%nat, Some (envelope_json ex_envelope))); Message (Some (2%nat, None));
   Stop; Message (Some (3%nat, Some (envelope_json ex_envelope))); Handled 1%nat (Ok ack); WaitOver].

Definition exec_broker (b : broker) (l : label) : option broker :=
  match l with
  | Message (Some (n, c)) =>
      if bool_decide (n ∈ seen b) then None else Some (onMessage (Some (n, c)) b)
  | Handled n r => match active b !! n with Some _ => Some (onHandled n r b) | None => None end
  | Stop => Some (stopConsuming b)
  | WaitOver =>
      match awaited b with
      | Some tasks =>
          if bool_decide (set_Forall (fun n => active b !! n = None) tasks)
          then Some (cancelConsumer b) else None
      | None => None
      end
  | _ => None
  end.

Lemma exec_broker_sound b l b' : exec_broker b l = Some b' -> step b l b'.
Proof.
  destruct l as [[[n c]|]|n r| | | | |]; simpl; intros H; try done.
  - case_bool_decide as Hs; [done|]. simplify_eq. apply step_message. by intros ? ? [= <- <-].
  - destruct (active b !! n) eqn:E; [|done]. simplify_eq. by eapply step_handled.
  - simplify_eq. apply step_stop.
  - destruct (awaited b) as [tasks|] eqn:E; [|done]. case_bool_decide as Hs; [|done].
    simplify_eq. by eapply step_wait_over.
Qed.

Definition ex_end (b : broker) (ls : list label) : broker := default b (exec_run exec_broker b ls).

Lemma ex_end_run b ls :
  defined (exec_run exec_broker b ls) = true -> run step b ls (ex_end b ls).
Proof.
  unfold ex_end. destruct (exec_run _ _ ls) as [b'|] eqn:E; [|done]. intros _.
  eapply exec_run_sound; [apply exec_broker_sound|exact E].
Qed.

Lemma delivery_settled_once_witness :
  NoDup (settled (ex_end connected ex_labels)).*1 /\
  settled (ex_end connected ex_labels) = [(2%nat, Reject); (1%nat, Ack)].
Proof.
  split; [|by vm_compute].
  exact (proj1 (delivery_settled_once ex_labels (ex_end connected ex_labels)
    (ex_end_run connected ex_labels ltac:(by vm_compute)))).
Defined.

Lemma drain_before_cancel_witness :
  let b := ex_end connected (take 2 ex_labels) in
  active (ex_end (stopConsuming b) (drop 3 ex_labels)) ⊆ active b.
Proof.
  exact (proj1 (drain_before_cancel (take 2 ex_labels) (ex_end connected (take 2 ex_labels))
    (drop 3 ex_labels) _ (ex_end_run connected (take 2 ex_labels) ltac:(by vm_compute))
    (ex_end_run (stopConsuming (ex_end connected (take 2 ex_labels))) (drop 3 ex_labels)
       ltac:(by vm_compute)))).
Defined.

Lemma envelope_accepted_exactly_witness :
  isJobEnvelope (Some (envelope_json ex_envelope)) = Some ex_envelope.
Proof.
  exact (proj2 (envelope_accepted_exactly ex_envelope) ltac:(by vm_compute) ltac:(simpl; lia)).
Defined.

End Broker.
