(* ===== verification/Amqp.v ===== *)
(** * The broker connection on the wire

    The rest of [src/src/queue/rabbitmq-broker.ts]: the calls [connect] makes
    and the queues they declare, the bytes [publish] sends and [handle]
    reads, and how [stopConsuming] and [close] end.  The AMQP client is a
    parameter: any call may fail. *)

From Stdlib Require Import Ascii.
From S2P Require Import Prelude JsNumber Utf8 Errors Json JsonParse JobStore JobWorker Broker.
Import JsNumber Utf8 Errors Json JsonParse JobStore JobWorker.

Module Amqp.

(** ** connect *)

Record RabbitMqOptions : Type := mkOptions { url : string; name : string; concurrency : Z }.

Inductive argument : Type := AText (s : string) | ANumber (z : Z) | ABool (b : bool).

Record declaration : Type := mkQueue {
  queue : string;
  durable : bool;
  arguments : list (string * argument)
}.

Inductive call : Type :=
| Connect (url : string)
| CreateConfirmChannel
| CreateChannel
| AssertQueue (q : declaration)
| Prefetch (n : Z).

Definition failed_name (o : RabbitMqOptions) : string := name o +:+ ".failed".

Definition failed_queue (o : RabbitMqOptions) : declaration :=
  mkQueue (failed_name o) true [("x-queue-type", AText "quorum"); ("x-message-ttl", ANumber 86400000)].

Definition job_queue (o : RabbitMqOptions) : declaration :=
  mkQueue (name o) true
    [("x-queue-type", AText "quorum");
     ("x-single-active-consumer", ABool true);
     ("x-dead-letter-exchange", AText EmptyString);
     ("x-dead-letter-routing-key", AText (failed_name o));
     ("x-dead-letter-strategy", AText "at-least-once");
     ("x-overflow", AText "reject-publish");
     ("x-delivery-limit", ANumber (-1))].

Section Connect.
  (** [url.searchParams.has("heartbeat")], and the URL with it set to 10 *)
  Context (has_heartbeat : string -> bool) (with_heartbeat : string -> string).
  (** what a call rejects with, if it does *)
  Context (fails : call -> option error).

Definition connect_calls (o : RabbitMqOptions) : list call :=
  [Connect (if has_heartbeat (url o) then url o else with_heartbeat (url o));
   CreateConfirmChannel; CreateChannel;
   AssertQueue (failed_queue o); AssertQueue (job_queue o); Prefetch (concurrency o)].

(** Each call is awaited; the first failure ends [connect]. *)
Fixpoint perform (calls : list call) : list call * result error () :=
  match calls with
  | [] => ([], Ok ())
  | c :: rest =>
      match fails c with
      | Some e => ([], Err e)
      | None => let '(succeeded, r) := perform rest in (c :: succeeded, r)
      end
  end.

Definition connect (o : RabbitMqOptions) : list call * result error () := perform (connect_calls o).

End Connect.

(** The queues a sequence of successful calls has declared. *)
Definition declared (calls : list call) : list declaration :=
  omap (fun c => match c with AssertQueue q => Some q | _ => None end) calls.

Definition text_argument (k : string) (q : declaration) : option string :=
  match list_find (fun a => a.1 = k) (arguments q) with
  | Some (_, (_, AText s)) => Some s
  | _ => None
  end.

(** Where the default exchange routes the messages a queue rejects. *)
Definition dead_letters (q : declaration) : option string :=
  match text_argument "x-dead-letter-exchange" q with
  | Some EmptyString => text_argument "x-dead-letter-routing-key" q
  | _ => None
  end.

(** ** Messages *)

(** [Buffer.from(JSON.stringify(message))] *)
Definition message_bytes (m : JobEnvelope) : text :=
  print (JObj [("id", JStr (env_id m)); ("attempt", JNum (env_attempt m))]).

(** [delivery.content.toString("utf8")]: a byte-order mark is kept. *)
Definition content_text (content : text) : text := decode_lossy inside content.

(** The message [handle] gives to its handler; a delivery without one is
    rejected. *)
Definition read_message (content : text) : option JobEnvelope :=
  Broker.isJobEnvelope (parse (content_text content)).

(** A delivery as bytes. *)
Definition onDelivery (n : nat) (content : text) (b : Broker.broker) : Broker.broker :=
  Broker.onMessage (Some (n, parse (content_text content))) b.

(** ** The end of stopConsuming and close *)

(** A call to the client at the end; its failure is reported unless the
    connection had failed before. *)
Definition tolerate (failure : option error) (r : result error ()) : result error () :=
  match r, failure with
  | Err e, None => Err e
  | _, _ => Ok ()
  end.

(** [stopConsuming] after its wait: [tag] says whether there is a consumer. *)
Definition stop_outcome (failure : option error) (tag : bool) (cancel : result error ()) : result error () :=
  if tag then tolerate failure cancel else Ok ().

(** [close]: the connection is closed in any case, and a failure to close it
    replaces one of [stopConsuming]. *)
Definition close_outcome (failure : option error) (tag : bool) (cancel : result error ())
    (connection : option (result error ())) : result error () :=
  match default (Ok ()) (tolerate failure <$> connection) with
  | Err e => Err e
  | Ok _ => stop_outcome failure tag cancel
  end.

(** ** Lemmas *)

(** Text that is well formed is read as it is. *)
Lemma decode_lossy_strict d bytes d' t :
  decode_stream d bytes = Some (d', t) -> need (partial_of d') = O -> decode_lossy d bytes = t.
Proof.
  revert d t. induction bytes as [|b bytes IH]; intros d t H Hn; simpl in *.
  - injection H as <- <-. by rewrite Hn.
  - destruct (feed (partial_of d) b) as [p|c|]; [by apply IH| |done].
    apply bind_Some in H as ([d1 t1] & H & [= <- <-]). by rewrite (IH _ t1).
Qed.

Lemma content_text_well_formed t : well_formed t = true -> content_text t = t.
Proof. intros H%well_formed_decodes. by eapply decode_lossy_strict. Qed.

Lemma valid_id_well_formed i : Broker.valid_id i = true -> well_formed (chars i) = true.
Proof.
  unfold Broker.valid_id. intros [[H _]%andb_true_iff _]%andb_true_iff. apply well_formed_ascii.
  apply Forall_forall. intros c Hc. apply forallb_forall with (x := c) in H; [|by apply list_elem_of_In].
  clear Hc. destruct c as [[] [] [] [] [] [] [] []]; by vm_compute in H |- *.
Qed.

Lemma numeric_well_formed (z : Z) : well_formed (chars (pretty z)) = true.
Proof.
  apply well_formed_ascii. eapply Forall_impl; [apply pretty_numeric|]. clear. intros c Hc.
  destruct c as [[] [] [] [] [] [] [] []]; by vm_compute in Hc |- *.
Qed.

Lemma message_well_formed m : Broker.valid_id (env_id m) = true -> well_formed (message_bytes m) = true.
Proof.
  intros Hid. unfold message_bytes. cbn [print map fst snd join].
  repeat first
    [ apply well_formed_app | apply numeric_well_formed
    | (apply quote_well_formed; by apply valid_id_well_formed)
    | (apply well_formed_cons; [done|]) | done ].
Qed.

Lemma message_printable m :
  1 <= env_attempt m <= 2147483647 ->
  printable (JObj [("id", JStr (env_id m)); ("attempt", JNum (env_attempt m))]) = true.
Proof.
  intros Ha. cbn [printable forallb snd map fst].
  rewrite (bool_decide_eq_true_2 (NoDup ["id"; "attempt"])) by (apply (bool_decide_unpack _); by vm_compute).
  rewrite (proj2 (Z.leb_le _ _)), (proj2 (Z.leb_le _ _)) by lia. done.
Qed.

Lemma message_read m :
  Broker.valid_id (env_id m) = true -> 1 <= env_attempt m <= 2147483647 ->
  read_message (message_bytes m) = Some m.
Proof.
  intros Hid Ha. unfold read_message. rewrite content_text_well_formed by (by apply message_well_formed).
  unfold message_bytes. rewrite parse_print by (by apply message_printable).
  destruct m as [i k]. cbn [env_id env_attempt] in *.
  unfold Broker.isJobEnvelope. cbn [mbind option_bind embed map].
  change (field "id" _) with (Some (JStr i : json number)).
  change (field "attempt" _) with (Some (JNum (of_Z k))).
  cbv iota beta. by rewrite Hid, (proj2 (Broker.valid_attempt_of_Z k) Ha), of_Z_toZ.
Qed.

Lemma app_ne s : s +:+ ".failed" <> s.
Proof. induction s as [|c s IH]; [done|]. intros [= H]. by apply IH. Qed.

(** ** The properties *)

(** C30: a message survives the wire.  The bytes published for a job attempt
    are read by the consumer as that attempt, for a job identifier of the
    accepted form and an attempt number within 32 bits, and while the consumer
    is not draining the delivery starts its handler; a delivery that is not the text of an envelope is rejected, not
    handled. *)
Theorem message_roundtrip m n content b :
  Broker.valid_id (env_id m) = true -> 1 <= env_attempt m <= 2147483647 -> Broker.draining b = false ->
  read_message (message_bytes m) = Some m /\
  Broker.active (onDelivery n (message_bytes m) b) = <[n := m]> (Broker.active b) /\
  (read_message content = None ->
     Broker.active (onDelivery n content b) = Broker.active b /\
     Broker.settled (onDelivery n content b) = Broker.settled b ++ [(n, Broker.Reject)]).
Proof.
  intros Hid Ha Hd. pose proof (message_read m Hid Ha) as Hm. split; [done|].
  unfold onDelivery, Broker.onMessage. cbn [Broker.draining Broker.see]. rewrite Hd. split.
  - unfold read_message in Hm. by rewrite Hm.
  - unfold read_message. by intros ->.
Qed.

(** A rejected message always has a queue to go to.  Whichever call fails
    and at every point of [connect], a queue that dead-letters to another one
    exists only once that one has been declared, durably; and a connection
    that is established has both queues, distinct, and bounds the deliveries
    in flight by the configured concurrency. *)
Theorem dead_letters_kept has_heartbeat with_heartbeat fails o calls r k q :
  connect has_heartbeat with_heartbeat fails o = (calls, r) ->
  (forall target, q ∈ declared (take k calls) -> dead_letters q = Some target ->
     exists q', q' ∈ declared (take k calls) /\ queue q' = target /\ durable q' = true /\
       dead_letters q' = None) /\
  (r = Ok () -> declared calls = [failed_queue o; job_queue o] /\
     queue (failed_queue o) <> queue (job_queue o) /\ Prefetch (concurrency o) ∈ calls).
Proof.
  unfold connect, connect_calls. cbn [perform]. intros H.
  assert (forall target, dead_letters (job_queue o) = Some target -> target = failed_name o) as Hjob.
  { by intros target [= <-]. }
  assert (forall target, dead_letters (failed_queue o) <> Some target) as Hfailed by done.
  split.
  - intros target Hq Ht.
    assert (declared (take k calls) = [] \/ declared (take k calls) = [failed_queue o] \/
      declared (take k calls) = [failed_queue o; job_queue o]) as Hcases.
    { clear Hq. repeat case_match; simplify_eq/=; do 7 (destruct k as [|k]; [by auto|]);
        cbn; rewrite ?take_nil; cbn; auto. }
    assert (failed_queue o ∈ declared (take k calls) /\ q = job_queue o) as [Hin ->].
    { destruct Hcases as [Hc|[Hc|Hc]]; rewrite Hc in Hq |- *; [by apply elem_of_nil in Hq|..].
      - apply list_elem_of_singleton in Hq as ->. by apply Hfailed in Ht.
      - apply elem_of_cons in Hq as [->|Hq]; [by apply Hfailed in Ht|].
        apply list_elem_of_singleton in Hq as ->. split; [set_solver|done]. }
    exists (failed_queue o). by rewrite (Hjob target Ht).
  - intros ->. repeat case_match; simplify_eq/=; (split; [done|]); (split; [apply app_ne|set_solver]).
Qed.

(** A failed connection closes quietly; otherwise the first thing that goes
    wrong is reported, the connection before the consumer. *)
Lemma close_reports failure tag cancel connection :
  (failure <> None -> close_outcome failure tag cancel connection = Ok ()) /\
  (failure = None ->
     close_outcome failure tag cancel connection =
     match connection with Some (Err e) => Err e | _ => if tag then cancel else Ok () end).
Proof.
  split.
  - destruct failure as [e|]; [|done]. intros _. destruct connection as [[?|[]]|], tag, cancel as [?|[]]; done.
  - intros ->. destruct connection as [[?|[]]|], tag, cancel as [?|[]]; done.
Qed.

(** ** Scenarios *)

Lemma message_roundtrip_witness : read_message (chars (stringify (JObj [("id", JStr "job-1"); ("attempt", JNum 1)]))) =
  Some Broker.ex_envelope.
Proof.
  exact (proj1 (message_roundtrip Broker.ex_envelope 1%nat [] Broker.connected ltac:(by vm_compute)
    ltac:(simpl; lia) eq_refl)).
Defined.

Definition ex_options : RabbitMqOptions := mkOptions "amqp://localhost" "modelmux-inference" 2.

(** The second declaration fails: only the dead-letter queue exists. *)
Definition ex_fails (c : call) : option error :=
  match c with AssertQueue q => if String.eqb (queue q) "modelmux-inference" then Some (PlainError "refused") else None
  | _ => None end.

Lemma dead_letters_kept_witness :
  connect (fun _ => false) (fun u => u +:+ "?heartbeat=10") (fun _ => None) ex_options =
    (connect_calls (fun _ => false) (fun u => u +:+ "?heartbeat=10") ex_options, Ok ()) /\
  (connect (fun _ => false) id ex_fails ex_options).1 =
    [Connect "amqp://localhost"; CreateConfirmChannel; CreateChannel; AssertQueue (failed_queue ex_options)] /\
  exists q', q' ∈ declared (connect_calls (fun _ => false) (fun u => u +:+ "?heartbeat=10") ex_options) /\
    queue q' = "modelmux-inference.failed".
Proof.
  split; [by vm_compute|]. split; [by vm_compute|].
  destruct (proj1 (dead_letters_kept (fun _ => false) (fun u => u +:+ "?heartbeat=10") (fun _ => None) ex_options
    (connect_calls (fun _ => false) (fun u => u +:+ "?heartbeat=10") ex_options) (Ok ()) 6 (job_queue ex_options)
    ltac:(by vm_compute)) "modelmux-inference.failed") as (q' & Hq & Hn & _); [|by vm_compute|by exists q'].
  cbn. right. left.
Defined.

End Amqp.
