(* ===== verification/App.v ===== *)
(** * The application: routes, validation and the error handler

    [src/src/app.ts], [src/src/routes/jobs.ts] and
    [src/src/routes/providers.ts].  A request passes the hooks (the request
    identifier, then the API-key guard for everything but [/health]), its
    parts are validated against the route's schemas, its handler runs, and
    whatever is thrown on the way goes to the error handler.

    Fastify is a parameter where it computes: the validator, and what its
    content-type parser makes of the body.  Log lines are reduced to their
    level. *)

From S2P Require Import Prelude JsNumber Errors Chat Json JsonParse CacheKey TokenBucket Auth CircuitBreaker Router JobStore JobWorker RedisCache Schema.
Import JsNumber Errors Chat Telemetry Json JsonParse Schema.

Module App.

(** ** Replies *)

Inductive header_value : Type := HText (s : string) | HNumber (n : number).

Abbreviation headers_list := (list (string * header_value)).

Record reply : Type := mkReply {
  reply_status : Z;
  reply_headers : headers_list;
  reply_body : json number
}.

(** ** setErrorHandler *)

(** What can reach the error handler: a validation error, an error the
    application throws, or an error of Fastify with its status. *)
Inductive thrown : Type :=
| ValidationFailure (validationContext : option string) (violations : list (string * option string))
| Thrown (e : error)
| HttpFailure (status : Z) (failure_code : option string) (failure_message : string).

Inductive level : Type := LogWarn | LogError.

Definition error_body (code message : string) (details : option (json number)) (requestId : string) :
    json number :=
  JObj [("error", JObj ([("code", JStr code); ("message", JStr message)]
    ++ match details with Some d => [("details", d)] | None => [] end
    ++ [("requestId", JStr requestId)]))].

(** [value || fallback] on strings *)
Definition or_else (value : option string) (fallback : string) : string :=
  match value with Some EmptyString | None => fallback | Some s => s end.

Definition errorHandler (requestId : string) (t : thrown) : option level * reply :=
  match t with
  | ValidationFailure context violations =>
      (None, mkReply 400 []
         (error_body "VALIDATION_ERROR" ("Invalid request " +:+ default "body" context)
            (Some (JArr (map (fun v =>
               JObj [("path", JStr (or_else (Some v.1) "/"));
                     ("message", JStr (default "is invalid" v.2))]) violations)))
            requestId))
  | Thrown e =>
      match asAppError e with
      | Some a =>
          (Some (if 500 <=? statusCode a then LogError else LogWarn),
           mkReply (statusCode a) (map (fun h => (h.1, HText h.2)) (headers a))
             (error_body (Errors.code a) (message a) None requestId))
      | None =>
          (Some LogError,
           mkReply 500 [] (error_body "INTERNAL_SERVER_ERROR" "Internal server error" None requestId))
      end
  | HttpFailure s c m =>
      if (400 <=? s) && (s <? 500) then
        (Some LogWarn, mkReply s [] (error_body (or_else c "BAD_REQUEST") m None requestId))
      else
        (Some LogError,
         mkReply 500 [] (error_body "INTERNAL_SERVER_ERROR" "Internal server error" None requestId))
  end.

(** ** Requests *)

Record request : Type := mkRequest {
  id : string;
  authorization : option string;
  body : result thrown (json number);
  headers : json number;
  params : json number
}.

(** What a handler leaves: the headers it set, and its reply or what it
    threw. *)
Record outcome : Type := mkOutcome {
  set_headers : headers_list;
  answer : result thrown (Z * json number)
}.

Definition finish (req : request) (base : headers_list) (o : outcome) : reply :=
  match answer o with
  | Ok (status, b) => mkReply status (base ++ set_headers o) b
  | Err t =>
      let r := (errorHandler (id req) t).2 in
      mkReply (reply_status r) (base ++ set_headers o ++ reply_headers r) (reply_body r)
  end.

Section Application.
  Context {W : Type}.
  Context (validate : schema -> json number -> result (list (string * option string)) (json number)).
  Context (sha256 : string -> string)
    (table : result error (list Auth.ApiKeyRow))
    (consume : string -> TokenBucket.RateLimitPolicy -> W ->
      result error TokenBucket.RateLimitDecision * W).

Definition checked (context : string) (s : schema) (v : json number) : result thrown (json number) :=
  match validate s v with
  | Ok v' => Ok v'
  | Err violations => Err (ValidationFailure (Some context) violations)
  end.

(** The hooks of a protected route around its handler. *)
Definition guarded (handler : Auth.ApiKeyPrincipal -> request -> W -> outcome * W)
    (req : request) (w : W) : reply * W :=
  let '(a, w1) := Auth.onRequest sha256 consume table (authorization req) w in
  let base := ("x-request-id", HText (id req)) ::
    map (fun h => (h.1, HNumber h.2)) (Auth.reply_headers a) in
  match Auth.verdict a with
  | Err e => (finish req base (mkOutcome [] (Err (Thrown e))), w1)
  | Ok apiKey => let '(o, w2) := handler apiKey req w1 in (finish req base o, w2)
  end.

(** [GET /health] *)
Definition health (req : request) : reply :=
  mkReply 200 [("x-request-id", HText (id req))] (JObj [("status", JStr "ok")]).

(** ** The job routes *)

Record InferenceJobs : Type := mkJobs {
  enqueue : JobStore.JobSubmission ChatRequest -> W -> result error JobStore.JobReceipt * W;
  getJob : string -> string -> W ->
    result error (JobStore.JobStatus ChatResponse) * W
}.

Context (jobs : InferenceJobs).

Definition receipt_json (r : JobStore.JobReceipt) : json number :=
  JObj [("id", JStr (JobStore.receipt_id r)); ("requestId", JStr (JobStore.receipt_requestId r))].

Definition state_name (s : JobStore.JobState) : string :=
  match s with
  | JobStore.queued => "queued" | JobStore.active => "active" | JobStore.retrying => "retrying"
  | JobStore.completed => "completed" | JobStore.failed => "failed"
  end.

Definition status_json (s : JobStore.JobStatus ChatResponse) : json number :=
  JObj ([("id", JStr (JobStore.receipt_id (JobStore.st_receipt s)));
         ("requestId", JStr (JobStore.receipt_requestId (JobStore.st_receipt s)));
         ("status", JStr (state_name (JobStore.st_status s)));
         ("attemptsMade", JNum (of_Z (JobStore.st_attemptsMade s)))]
    ++ match JobStore.st_response s with
       | Some r => [("response", embed (RedisCache.response_json r))]
       | None => []
       end
    ++ match JobStore.st_error s with
       | Some (c, m) =>
           [("error", JObj [("code", JStr (JobErrorCode_name c)); ("message", JStr m)])]
       | None => []
       end).

(** The handler of [POST /v1/jobs], on validated input; [apiKey] is null when
    no hook has set it. *)
Definition submit (apiKey : option Auth.ApiKeyPrincipal) (requestId key : string)
    (data : ChatRequest) (w : W) : outcome * W :=
  match apiKey with
  | None => (mkOutcome [] (Err (Thrown AuthenticationError)), w)
  | Some p =>
      match enqueue jobs (JobStore.mkSubmission (Auth.principal_id p) requestId key data) w with
      | (Err e, w') => (mkOutcome [] (Err (Thrown e)), w')
      | (Ok job, w') =>
          (mkOutcome [("location", HText ("/v1/jobs/" +:+ JobStore.receipt_id job))]
             (Ok (202, receipt_json job)), w')
      end
  end.

(** The handler of [GET /v1/jobs/:id]. *)
Definition poll (apiKey : option Auth.ApiKeyPrincipal) (jobId : string) (w : W) : outcome * W :=
  match apiKey with
  | None => (mkOutcome [] (Err (Thrown AuthenticationError)), w)
  | Some p =>
      match getJob jobs jobId (Auth.principal_id p) w with
      | (Err e, w') => (mkOutcome [("cache-control", HText "no-store")] (Err (Thrown e)), w')
      | (Ok s, w') =>
          (mkOutcome [("cache-control", HText "no-store")] (Ok (200, status_json s)), w')
      end
  end.

(** A property the schema has established to be a string. *)
Definition text_field (key : string) (v : json number) : string :=
  match field key v with Some (JStr s) => s | _ => EmptyString end.

(** The routes: body and headers are validated, then the handler runs.  A
    validated body always reads as a request;
    the second branch is there because the validator is a parameter. *)
Definition post_jobs (p : Auth.ApiKeyPrincipal) (req : request) (w : W) : outcome * W :=
  match
    (b ← body req;
     data ← checked "body" chatRequestSchema b;
     hs ← checked "headers" jobHeadersSchema (headers req);
     Ok (to_request data, text_field "idempotency-key" hs))
  with
  | Ok (Some data, key) => submit (Some p) (id req) key data w
  | Ok (None, _) => (mkOutcome [] (Err (ValidationFailure (Some "body") [])), w)
  | Err t => (mkOutcome [] (Err t), w)
  end.

Definition get_jobs (p : Auth.ApiKeyPrincipal) (req : request) (w : W) : outcome * W :=
  match checked "params" jobParamsSchema (params req) with
  | Ok ps => poll (Some p) (text_field "id" ps) w
  | Err t => (mkOutcome [] (Err t), w)
  end.

(** ** [GET /v1/providers] *)

Definition circuit_state_name (s : CircuitBreaker.CircuitState) : string :=
  match s with
  | CircuitBreaker.closed => "closed" | CircuitBreaker.open => "open"
  | CircuitBreaker.half_open => "half-open"
  end.

Definition health_json (h : string * CircuitBreaker.CircuitSnapshot) : json number :=
  JObj [("name", JStr h.1);
        ("state", JStr (circuit_state_name (CircuitBreaker.snap_state h.2)));
        ("consecutiveFailures", JNum (of_Z (CircuitBreaker.snap_consecutiveFailures h.2)));
        ("retryAfterMs", JNum (Num (CircuitBreaker.snap_retryAfterMs h.2)))].

Definition get_providers (snapshot : W -> list (string * CircuitBreaker.CircuitSnapshot))
    (_ : Auth.ApiKeyPrincipal) (_ : request) (w : W) : outcome * W :=
  (mkOutcome [("cache-control", HText "no-store")]
     (Ok (200, JObj [("scope", JStr "process"); ("providers", JArr (map health_json (snapshot w)))])), w).

End Application.
Arguments InferenceJobs : clear implicits.

(** The queue of [RabbitMqJobQueue] over the job table: the instant and the
    identifier of a submission, and what other sessions commit between the
    two statements of [enqueue]. *)
Definition table_jobs (opts : JobStore.JobStoreOptions) (hash_key : string -> string)
    (hash_data : ChatRequest -> string) (now : Q) (fresh : string)
    (yield : gmap string (JobStore.JobRow ChatRequest ChatResponse) ->
             gmap string (JobStore.JobRow ChatRequest ChatResponse)) :
    InferenceJobs (gmap string (JobStore.JobRow ChatRequest ChatResponse)) :=
  mkJobs
    (fun sub t => let '(r, t') := JobStore.enqueue opts hash_key hash_data now fresh yield sub t in
                  (JobWorker.wrap r, t'))
    (fun jobId owner t => (JobWorker.wrap (JobStore.getJob opts jobId owner t), t)).

(** ** Lemmas *)

Lemma app_status e a : asAppError e = Some a -> 400 <= statusCode a <= 599.
Proof. destruct e; intros [= <-]; simpl; lia. Qed.

Lemma errorHandler_status requestId t : 400 <= reply_status (errorHandler requestId t).2 <= 599.
Proof.
  destruct t as [c vs|e|s c m]; cbn [errorHandler].
  - simpl. lia.
  - destruct (asAppError e) as [a|] eqn:E; simpl; [by eapply app_status|lia].
  - destruct (_ && _) eqn:E; simpl; [|lia]. to_prop. lia.
Qed.

(** After an accepted submission the job is in the table under the receipt's
    identifier, for its owner. *)
Lemma enqueue_row {TData TResult} opts hash_key hash_data now fresh
    (yield : gmap string (JobStore.JobRow TData TResult) -> _) sub t r t' :
  JobStore.enqueue opts hash_key hash_data now fresh yield sub t = (Ok r, t') ->
  exists row, t' !! JobStore.receipt_id r = Some row /\
    JobStore.owner_id row = JobStore.sub_ownerId sub /\
    JobStore.queue_name row = JobStore.name opts /\
    JobStore.request_id row = JobStore.receipt_requestId r.
Proof.
  unfold JobStore.enqueue, JobStore.insert_job.
  destruct (JobStore.select_by_key _ _ _ t) as [[i row]|] eqn:E.
  - destruct (JobStore.select_by_key _ _ _ (yield t)) as [[j row']|] eqn:E'; cbn; [|done].
    intros H. case_match; [|done]. injection H as <- <-.
    apply JobStore.select_by_key_Some in E' as (Hj & Hq & Ho & _). eauto.
  - destruct (t !! fresh) eqn:Hf; [done|]. cbn. intros H. case_match; [|done].
    injection H as <- <-. eexists. split; [apply lookup_insert_eq|]. done.
Qed.

Lemma valid_status s : valid jobStatusSchema (status_json s) = true.
Proof.
  destruct s as [[i r] st n resp err]. unfold status_json.
  cbn [JobStore.st_receipt JobStore.receipt_id JobStore.receipt_requestId JobStore.st_status
    JobStore.st_attemptsMade JobStore.st_response JobStore.st_error].
  assert (isInteger (of_Z n) = true) as Hn by apply of_Z_isInteger.
  generalize dependent (of_Z n). intros x Hx.
  destruct resp as [[c]|], err as [[ec em]|]; destruct st; lazy -[isInteger characters];
    rewrite Hx; reflexivity.
Qed.

Lemma valid_health h :
  0 <= CircuitBreaker.snap_consecutiveFailures h.2 -> (0 <= CircuitBreaker.snap_retryAfterMs h.2)%Q ->
  valid healthSchema
    (health_json h) = true.
Proof.
  destruct h as [name [st n ms]]. cbn [CircuitBreaker.snap_consecutiveFailures
    CircuitBreaker.snap_retryAfterMs snd]. intros Hn Hms. unfold health_json.
  cbn [fst snd CircuitBreaker.snap_state CircuitBreaker.snap_consecutiveFailures
    CircuitBreaker.snap_retryAfterMs].
  assert (isInteger (of_Z n) && at_least (Some 0) (of_Z n) = true) as H1.
  { rewrite of_Z_isInteger. cbn. apply Qle_bool_iff. unfold Qle. simpl. lia. }
  assert (isFinite (Num ms) && at_least (Some 0) (Num ms) = true) as H2.
  { cbn. by apply Qle_bool_iff. }
  generalize dependent (of_Z n). intros x [Hx Hx']%andb_true_iff.
  generalize dependent (Num ms). intros y [Hy Hy']%andb_true_iff.
  destruct st; lazy -[isInteger isFinite at_least characters]; rewrite Hx, Hx', Hy, Hy'; reflexivity.
Qed.

(** ** The properties *)

(** C36: clients see public errors only.  Every error reply has a client or
    server error status and names the request; what the application throws
    without meaning it for clients, and any failure of the framework outside
    the client range, is answered with one fixed body; and the reply to an
    error of a provider does not depend on the upstream status or detail. *)
Theorem error_replies_public requestId t :
  (400 <= reply_status (errorHandler requestId t).2 <= 599) /\
  (exists code message details,
     reply_body (errorHandler requestId t).2 = error_body code message details requestId) /\
  (forall e, t = Thrown e -> asAppError e = None ->
     (errorHandler requestId t).2 =
       mkReply 500 [] (error_body "INTERNAL_SERVER_ERROR" "Internal server error" None requestId)) /\
  (forall s c m, t = HttpFailure s c m -> ~ (400 <= s < 500) ->
     (errorHandler requestId t).2 =
       mkReply 500 [] (error_body "INTERNAL_SERVER_ERROR" "Internal server error" None requestId)) /\
  (forall p s d s' d', t = Thrown (ProviderHttpError p s d) ->
     errorHandler requestId t = errorHandler requestId (Thrown (ProviderHttpError p s' d'))).
Proof.
  split; [|split; [|split; [|split]]].
  - apply errorHandler_status.
  - destruct t as [c vs|e|s c m]; cbn [errorHandler]; [eauto| |]; case_match; eauto.
  - intros e -> He. cbn. by rewrite He.
  - intros s c m -> Hs. cbn [errorHandler]. destruct (_ && _) eqn:E; [|done]. to_prop. lia.
  - by intros p s d s' d' ->.
Qed.

(** Nothing runs behind a closed guard.  When the guard refuses a request,
    the reply and the state do not depend on the route's handler at all: the
    reply is the guard's error with the request's identifier, and the only
    state touched is the rate limiter's. *)
Theorem guard_protects_routes {W} sha256 table consume (f g : Auth.ApiKeyPrincipal -> request -> W -> outcome * W)
    req w a w1 e :
  Auth.onRequest sha256 consume table (authorization req) w = (a, w1) -> Auth.verdict a = Err e ->
  guarded sha256 table consume f req w = guarded sha256 table consume g req w /\
  (guarded sha256 table consume f req w).2 = w1 /\
  reply_status (guarded sha256 table consume f req w).1 =
    reply_status (errorHandler (id req) (Thrown e)).2.
Proof. intros Ha Hv. unfold guarded. by rewrite Ha, Hv. Qed.

(** C34: an accepted job can be polled by its owner and by nobody else.  A
    submission answered with 202 names, in its location and its body, a job
    that the same key can poll at once, with the receipt's request
    identifier, and that is not found with any other key. *)
Theorem submitted_job_pollable opts hash_key hash_data now fresh yield p key requestId data t o t' :
  let jobs := table_jobs opts hash_key hash_data now fresh yield in
  submit jobs (Some p) requestId key data t = (o, t') -> is_Ok (answer o) = true ->
  exists receipt,
    o = mkOutcome [("location", HText ("/v1/jobs/" +:+ JobStore.receipt_id receipt))]
          (Ok (202, receipt_json receipt)) /\
    (exists s, poll jobs (Some p) (JobStore.receipt_id receipt) t' =
       (mkOutcome [("cache-control", HText "no-store")] (Ok (200, status_json s)), t') /\
       JobStore.st_receipt s = receipt) /\
    (forall q, Auth.principal_id q <> Auth.principal_id p ->
       poll jobs (Some q) (JobStore.receipt_id receipt) t' =
       (mkOutcome [("cache-control", HText "no-store")] (Err (Thrown JobNotFoundError)), t')).
Proof.
  intros jobs Hs Hok. unfold submit in Hs. cbn [jobs table_jobs enqueue] in Hs.
  destruct (JobStore.enqueue _ _ _ _ _ _ _ _) as [[e|receipt] t1] eqn:E.
  { cbn [JobWorker.wrap] in Hs. destruct (isAppError e); by injection Hs as <- <-. }
  cbn [JobWorker.wrap] in Hs. injection Hs as <- <-. exists receipt. split; [done|].
  apply enqueue_row in E as (row & Hr & Ho & Hq & Hi). cbn [JobStore.sub_ownerId] in Ho.
  split.
  - unfold poll. cbn [jobs table_jobs getJob]. unfold JobStore.getJob.
    rewrite Hr, Ho, Hq, !String.eqb_refl. cbn [andb JobWorker.wrap]. eexists. split; [done|].
    cbn [JobStore.st_receipt]. rewrite Hi. by destruct receipt.
  - intros q Hne. unfold poll. cbn [jobs table_jobs getJob]. unfold JobStore.getJob.
    rewrite Hr, Ho. rewrite (proj2 (String.eqb_neq _ _)) by done. done.
Qed.

(** Replies have the shape they declare.  Every job status and every
    receipt satisfies the response schema of its route, and so does the list
    of provider states for circuits with a non-negative failure count. *)
Theorem replies_conform :
  (forall s, valid jobStatusSchema (status_json s) = true) /\
  (forall r, valid receiptSchema (receipt_json r) = true) /\
  (forall {env} (primary : @Router.ProviderTarget env) fallback g,
     CircuitBreaker.valid_options (Router.target_circuit primary) ->
     (forall f, fallback = Some f ->
        CircuitBreaker.valid_options (Router.target_circuit (Router.fallback_target f))) ->
     0 <= CircuitBreaker.consecutiveFailures (Router.primary_circuit g) ->
     0 <= CircuitBreaker.consecutiveFailures (Router.fallback_circuit g) ->
     valid providersSchema
       (JObj [("scope", JStr "process");
              ("providers", JArr (map health_json (Router.snapshot primary fallback g)))]) = true).
Proof.
  split; [apply valid_status|]. split; [by intros [i r]|].
  intros env primary fallback g Hp Hf H1 H2.
  assert (forall o c, CircuitBreaker.valid_options o -> 0 <= CircuitBreaker.consecutiveFailures c ->
    forall name now, valid healthSchema
      (health_json (name, CircuitBreaker.snapshot o now c)) = true) as Hone.
  { intros o c [_ Hr] Hc name now. apply valid_health; [done|]. unfold CircuitBreaker.snapshot. simpl.
    destruct (CircuitBreaker.state c); [apply Qle_refl|apply Qmaxb_spec|].
    unfold Qle. simpl. lia. }
  assert (forallb (valid healthSchema)
    (map health_json (Router.snapshot primary fallback g)) = true) as Hall.
  { unfold Router.snapshot. destruct fallback as [f|]; cbn [map forallb];
      rewrite !Hone by eauto; done. }
  generalize dependent (map health_json (Router.snapshot primary fallback g)). intros l Hl.
  change ((forallb (valid healthSchema) l && true) && true = true).
  by rewrite Hl.
Qed.

(** ** Scenarios *)

Definition ex_principal (i : string) : Auth.ApiKeyPrincipal :=
  Auth.mkPrincipal i i "mm_" (TokenBucket.mkPolicy (of_Z 10) (of_Z 1)).
Definition ex_opts : JobStore.JobStoreOptions := JobStore.mkStoreOptions "inference" 3 1000 180000.
Definition ex_jobs : InferenceJobs (gmap string (JobStore.JobRow ChatRequest ChatResponse)) :=
  table_jobs ex_opts Datatypes.id model 0 "job-1" (fun t => t).
Definition ex_submitted :=
  submit ex_jobs (Some (ex_principal "alice")) "req-1" "key" (CacheKey.ex_ask "hi") ∅.

Lemma error_replies_public_witness :
  (errorHandler "req-1" (Thrown (PlainError "password=secret"))).2 =
    mkReply 500 [] (error_body "INTERNAL_SERVER_ERROR" "Internal server error" None "req-1") /\
  (errorHandler "req-1" (HttpFailure 503 (Some "FST_ERR") "password=secret")).2 =
    mkReply 500 [] (error_body "INTERNAL_SERVER_ERROR" "Internal server error" None "req-1").
Proof.
  split.
  - by apply (error_replies_public "req-1" (Thrown (PlainError "password=secret")))
      with (e := PlainError "password=secret").
  - apply (error_replies_public "req-1" (HttpFailure 503 (Some "FST_ERR") "password=secret"))
      with (s := 503) (c := Some "FST_ERR") (m := "password=secret"); [done|lia].
Defined.

Definition ex_anonymous : request := mkRequest "req-1" None (Ok JNull) JNull JNull.
Definition ex_crash (p : Auth.ApiKeyPrincipal) (req : request) (n : nat) : outcome * nat :=
  (mkOutcome [] (Ok (200, JNull)), 99%nat).

Lemma guard_protects_routes_witness :
  guarded Datatypes.id (Ok [Auth.ex_key]) Auth.ex_consume ex_crash ex_anonymous 0%nat =
  guarded Datatypes.id (Ok [Auth.ex_key]) Auth.ex_consume
    (fun _ _ n => (mkOutcome [] (Ok (200, JNull)), n)) ex_anonymous 0%nat /\
  reply_status (guarded Datatypes.id (Ok [Auth.ex_key]) Auth.ex_consume ex_crash ex_anonymous 0%nat).1 = 401.
Proof.
  split; [|by vm_compute].
  apply (guard_protects_routes Datatypes.id (Ok [Auth.ex_key]) Auth.ex_consume ex_crash
    (fun _ _ n => (mkOutcome [] (Ok (200, JNull)), n)) ex_anonymous 0%nat
    (Auth.mkAdmission (Err AuthenticationError) [] []) 0%nat AuthenticationError);
    by vm_compute.
Defined.

Lemma submitted_job_pollable_witness :
  is_Ok (answer ex_submitted.1) = true /\
  exists receipt,
    poll ex_jobs (Some (ex_principal "bob")) (JobStore.receipt_id receipt) ex_submitted.2 =
      (mkOutcome [("cache-control", HText "no-store")] (Err (Thrown JobNotFoundError)), ex_submitted.2).
Proof.
  split; [by vm_compute|].
  destruct (submitted_job_pollable ex_opts Datatypes.id model 0 "job-1" (fun t => t)
    (ex_principal "alice") "key" "req-1" (CacheKey.ex_ask "hi") ∅ ex_submitted.1 ex_submitted.2
    (surjective_pairing _) ltac:(by vm_compute)) as (receipt & _ & _ & H).
  exists receipt. by apply H.
Defined.

Lemma replies_conform_witness :
  valid providersSchema
    (JObj [("scope", JStr "process");
           ("providers", JArr (map health_json
              (Router.snapshot Router.ex_primary (Some Router.ex_fallback)
                 (Router.proc Router.ex_pass))))]) = true.
Proof.
  apply (proj2 (proj2 replies_conform)).
  - by vm_compute.
  - intros f [= <-]. by vm_compute.
  - by vm_compute.
  - by vm_compute.
Defined.

End App.
