(* ===== verification/Metrics.v ===== *)
(** * Metrics and HTTP observation

    [src/src/observability/metrics.ts], [src/src/observability/http.ts] and
    [src/src/observability/server.ts].
    The metric library is not modelled: recording an event yields the
    operations performed on named metrics ([op]), and what a gauge or counter
    shows is read off the sequence of operations. *)

From S2P Require Import Prelude JsNumber Errors Chat ConcurrencyLimiter CircuitBreaker.
Import JsNumber Errors Chat Telemetry.

Module Metrics.

Abbreviation labels := (list (string * string)).

Inductive op : Type :=
| Inc (metric : string) (ls : labels)
| Dec (metric : string) (ls : labels)
| Observe (metric : string) (ls : labels) (value : Q)
| SetTo (metric : string) (ls : labels) (value : number)
| Reset (metric : string).

(** ** record *)

Definition routes : list string :=
  ["/health"; "/v1/chat"; "/v1/chat/stream"; "/v1/jobs"; "/v1/jobs/:id"; "/v1/providers"].
Definition methods : list string := ["GET"; "POST"; "HEAD"; "OPTIONS"].

Definition providerLabel (name : string) : string :=
  if bool_decide (name ∈ ["ollama"; "openai"]) then name else "other".

(** [Math.max(0, ms) / 1000] *)
Definition seconds (ms : Q) : Q := (Qmaxb 0 ms / 1000)%Q.

Definition mode_label (m : Mode) : string :=
  match m with mode_chat => "chat" | mode_stream => "stream" end.
Definition cache_label (s : CacheStatus) : string :=
  match s with HIT => "HIT" | MISS => "MISS" | BYPASS => "BYPASS" end.
Definition stream_label (o : StreamOutcome) : string :=
  match o with
  | stream_completed => "completed" | stream_failed => "failed" | stream_cancelled => "cancelled"
  end.
Definition admission_label (o : AdmissionOutcome) : string :=
  match o with
  | admitted_ => "admitted" | queue_full_ => "queue_full" | timeout_ => "timeout"
  | cancelled_ => "cancelled"
  end.
Definition provider_outcome_label (o : ProviderOutcome) : string :=
  match o with
  | success => "success" | transient_error => "transient_error"
  | permanent_error => "permanent_error" | cancelled => "cancelled"
  | consumer_error => "consumer_error"
  end.
Definition job_outcome_label (o : JobOutcome) : string :=
  match o with
  | job_success => "success" | job_retrying => "retrying" | job_failed => "failed"
  | job_obsolete => "obsolete" | infrastructure_error => "infrastructure_error"
  end.

Definition method_label (m : string) : string := if bool_decide (m ∈ methods) then m else "OTHER".
Definition route_label (r : string) : string := if bool_decide (r ∈ routes) then r else "unmatched".
Definition http_outcome_label (completed : bool) : string := if completed then "completed" else "aborted".
Definition status_label (s : option Z) : string :=
  match s with
  | Some n => if (100 <=? n) && (n <=? 599) then pretty n else "none"
  | None => "none"
  end.

Definition record (e : MetricEvent) : list op :=
  match e with
  | http_start => [Inc "http_active" []]
  | http_end method route status completed ms =>
      let ls := [("method", method_label method); ("route", route_label route);
                 ("outcome", http_outcome_label completed)] in
      [Dec "http_active" [];
       Inc "http_requests_total" (ls ++ [("status", status_label status)]);
       Observe "http_duration_seconds" ls (seconds ms)]
  | rate_limit_rejection => [Inc "rate_limit_rejections_total" []]
  | cache s => [Inc "cache_lookups_total" [("status", cache_label s)]]
  | stream_event o => [Inc "streams_total" [("outcome", stream_label o)]]
  | admission o ms =>
      [Inc "admissions_total" [("outcome", admission_label o)];
       Observe "queue_wait_seconds" [("outcome", admission_label o)] (seconds ms)]
  | provider_start p m =>
      [Inc "provider_active" [("provider", providerLabel p); ("mode", mode_label m)]]
  | provider_end p m o ms =>
      let ls := [("provider", providerLabel p); ("mode", mode_label m)] in
      let lo := ls ++ [("outcome", provider_outcome_label o)] in
      [Dec "provider_active" ls; Inc "provider_calls_total" lo;
       Observe "provider_duration_seconds" lo (seconds ms)]
  | circuit_rejection p m =>
      [Inc "circuit_rejections_total" [("provider", providerLabel p); ("mode", mode_label m)]]
  | fallback_event from to =>
      [Inc "fallbacks_total" [("from", providerLabel from); ("to", providerLabel to)]]
  | job_start retry wait =>
      Inc "job_attempts_active" [] ::
      (if retry : bool then [Inc "job_retries_started_total" []] else []) ++
      match wait with Some ms => [Observe "job_queue_wait_seconds" [] (seconds ms)] | None => [] end
  | job_end o ms =>
      [Dec "job_attempts_active" []; Inc "job_attempts_total" [("outcome", job_outcome_label o)];
       Observe "job_attempt_duration_seconds" [("outcome", job_outcome_label o)] (seconds ms)]
  end.

(** ** Collectors *)

Definition collectorUp (name : string) (up : bool) : op :=
  SetTo "collector_up" [("collector", name)] (of_Z (if up then 1 else 0)).

(** [bindConcurrency]; an [Err] snapshot stands for one that throws. *)
Definition collect_concurrency (snapshot : result error ConcurrencyLimiter.ConcurrencySnapshot) : list op :=
  match snapshot with
  | Ok v =>
      [SetTo "concurrency_active" [] (of_Z (ConcurrencyLimiter.snap_active v));
       SetTo "concurrency_queued" [] (of_Z (ConcurrencyLimiter.snap_queued v));
       collectorUp "concurrency" true]
  | Err _ =>
      [SetTo "concurrency_active" [] NaN; SetTo "concurrency_queued" [] NaN;
       collectorUp "concurrency" false]
  end.

Definition circuit_states : list (string * CircuitBreaker.CircuitState) :=
  [("closed", CircuitBreaker.closed); ("open", CircuitBreaker.open);
   ("half-open", CircuitBreaker.half_open)].

#[global] Instance CircuitState_eq_dec : EqDecision CircuitBreaker.CircuitState.
Proof. solve_decision. Defined.

Definition collect_provider (h : string * CircuitBreaker.CircuitSnapshot) : list op :=
  map (fun s => SetTo "circuit_state" [("provider", providerLabel h.1); ("state", s.1)]
                  (of_Z (if bool_decide (CircuitBreaker.snap_state h.2 = s.2) then 1 else 0)))
    circuit_states.

(** [bindProviders] *)
Definition collect_circuits
    (snapshot : result error (list (string * CircuitBreaker.CircuitSnapshot))) : list op :=
  Reset "circuit_state" ::
  match snapshot with
  | Ok hs => concat (map collect_provider hs) ++ [collectorUp "circuits" true]
  | Err _ => [collectorUp "circuits" false]
  end.

(** [bindQueueDepth]; the read may fail or lose the race against its timer. *)
Definition collect_depth (read : result error (Z * Z * Z)) : list op :=
  match read with
  | Ok (q, r, a) =>
      [SetTo "jobs_depth" [("status", "queued")] (of_Z q);
       SetTo "jobs_depth" [("status", "retrying")] (of_Z r);
       SetTo "jobs_depth" [("status", "active")] (of_Z a);
       collectorUp "jobs" true]
  | Err _ =>
      [SetTo "jobs_depth" [("status", "queued")] NaN;
       SetTo "jobs_depth" [("status", "retrying")] NaN;
       SetTo "jobs_depth" [("status", "active")] NaN;
       collectorUp "jobs" false]
  end.

(** ** scrape *)

(** The promise shared by concurrent scrapes: [None], or the number of the
    collection under way.  [scrape] joins it or starts the next one; when a
    collection ends, the slot is cleared. *)
Record scraper : Type := mkScraper { scraping : option nat; collections : nat }.

Definition scrape (s : scraper) : nat * scraper :=
  match scraping s with
  | Some n => (n, s)
  | None => (collections s, mkScraper (Some (collections s)) (S (collections s)))
  end.

Definition scrape_done (s : scraper) : scraper := mkScraper None (collections s).

(** ** The metrics server *)

(** A reply of [GET /metrics]; every one carries [cache-control: no-store]. *)
Inductive metrics_reply : Type :=
| Exposition (body : string)
| CollectionFailed.

Definition reply_status (r : metrics_reply) : Z :=
  match r with Exposition _ => 200 | CollectionFailed => 503 end.

Definition get_metrics (scraped : result error string) : metrics_reply :=
  match scraped with Ok body => Exposition body | Err _ => CollectionFailed end.

(** The clients of the server: each waits for one collection, and the end of
    a collection answers all who wait for it. *)
Record metrics_server : Type := mkServer {
  scraper_of : scraper;
  waiting : list (nat * nat);
  sent : list (nat * metrics_reply)
}.

Inductive scrape_event : Type :=
| Get (client : nat)
| Collected (scraped : result error string).

Definition server_step (s : metrics_server) (e : scrape_event) : metrics_server :=
  match e with
  | Get client =>
      let '(n, sc) := scrape (scraper_of s) in mkServer sc (waiting s ++ [(client, n)]) (sent s)
  | Collected scraped =>
      match scraping (scraper_of s) with
      | None => s
      | Some n =>
          mkServer (scrape_done (scraper_of s)) (filter (fun w => w.2 <> n) (waiting s))
            (sent s ++ map (fun w => (w.1, get_metrics scraped)) (filter (fun w => w.2 = n) (waiting s)))
      end
  end.

Definition new_server : metrics_server := mkServer (mkScraper None 0) [] [].

(** Everyone waits for the collection under way, and for nothing else. *)
Definition server_inv (s : metrics_server) : Prop :=
  match scraping (scraper_of s) with
  | Some n => collections (scraper_of s) = S n /\ waiting s <> [] /\ Forall (fun w => w.2 = n) (waiting s)
  | None => waiting s = []
  end.

(** 1 while a collection is under way. *)
Definition busy (s : metrics_server) : nat :=
  match scraping (scraper_of s) with Some _ => 1 | None => 0 end.

Definition asked (es : list scrape_event) : list nat :=
  omap (fun e => match e with Get c => Some c | Collected _ => None end) es.
Definition ended (es : list scrape_event) : nat :=
  length (omap (fun e => match e with Get _ => None | Collected _ => Some () end) es).

(** ** What the metrics show *)

(** A gauge that is only incremented and decremented, and a counter. *)
Definition delta (metric : string) (ls : labels) (o : op) : Z :=
  match o with
  | Inc m l => if bool_decide (m = metric /\ l = ls) then 1 else 0
  | Dec m l => if bool_decide (m = metric /\ l = ls) then -1 else 0
  | _ => 0
  end.
Definition level (metric : string) (ls : labels) (ops : list op) : Z :=
  foldr (fun o n => delta metric ls o + n) 0 ops.

(** A gauge that is set: its last value since the last reset. *)
Definition shown (metric : string) (ls : labels) (ops : list op) : option number :=
  foldl (fun v o =>
    match o with
    | SetTo m l x => if bool_decide (m = metric /\ l = ls) then Some x else v
    | Reset m => if String.eqb m metric then None else v
    | _ => v
    end) None ops.

Lemma level_app m ls a b : level m ls (a ++ b) = level m ls a + level m ls b.
Proof. unfold level. induction a as [|o a IH]; [done|]. cbn [app foldr]. lia. Qed.

(** ** observeHttp *)

(** The request's listeners: [Some true] once [finish] has run. *)
Record http_state : Type := mkHttp { requests : gmap nat bool; ops : list op }.

Record http_info : Type := mkInfo {
  info_method : string;
  info_route : option string;
  (** the status, when the headers have been sent *)
  info_status : option Z;
  info_durationMs : Q
}.

Definition onRequest (i : nat) (s : http_state) : http_state :=
  mkHttp (<[i := false]> (requests s)) (ops s ++ record http_start).

Definition finish (i : nat) (completed : bool) (info : http_info) (s : http_state) : http_state :=
  match requests s !! i with
  | Some false =>
      mkHttp (<[i := true]> (requests s))
        (ops s ++ record (http_end (info_method info) (default "unmatched" (info_route info))
                            (info_status info) completed (info_durationMs info)))
  | _ => s
  end.

Inductive http_event : Type :=
| Arrives (i : nat)
| Finishes (i : nat) (info : http_info)
| Closes (i : nat) (writableFinished : bool) (info : http_info).

Inductive http_step : http_state -> http_event -> http_state -> Prop :=
| http_arrives i s : requests s !! i = None -> http_step s (Arrives i) (onRequest i s)
| http_finishes i info s : http_step s (Finishes i info) (finish i true info s)
| http_closes i wf info s : http_step s (Closes i wf info) (finish i wf info s).

Definition http_initial : http_state := mkHttp ∅ [].

(** The requests in flight and the finished ones. *)
Definition in_flight (s : http_state) : nat := map_count negb (requests s).
Definition finished_requests (s : http_state) : nat := map_count Datatypes.id (requests s).

(** The finished requests as the counter has them, over all its labels. *)
Definition counted (ops : list op) : Z :=
  foldr (fun o n => (match o with Inc "http_requests_total" _ => 1 | _ => 0 end) + n) 0 ops.

Lemma counted_app a b : counted (a ++ b) = counted a + counted b.
Proof. unfold counted. induction a as [|o a IH]; [done|]. cbn [app foldr]. lia. Qed.

Definition http_inv (s : http_state) : Prop :=
  level "http_active" [] (ops s) = Z.of_nat (in_flight s) /\
  counted (ops s) = Z.of_nat (finished_requests s).

Lemma http_finish_inv i c info s : http_inv s -> http_inv (finish i c info s).
Proof.
  intros [Hl Hc]. unfold finish. destruct (requests s !! i) as [[]|] eqn:E; try done.
  unfold http_inv, in_flight, finished_requests in *. cbn [requests ops].
  rewrite level_app, counted_app, Hl, Hc.
  pose proof (map_count_replace negb (requests s) i true false E) as H1.
  pose proof (map_count_replace Datatypes.id (requests s) i true false E) as H2. simpl in H1, H2.
  assert (level "http_active" [] (record (http_end (info_method info) (default "unmatched" (info_route info))
    (info_status info) c (info_durationMs info))) = -1) as -> by done.
  assert (counted (record (http_end (info_method info) (default "unmatched" (info_route info))
    (info_status info) c (info_durationMs info))) = 1) as -> by done.
  unfold Datatypes.id in *. simpl in *. lia.
Qed.

Lemma http_step_inv s l s' : http_inv s -> http_step s l s' -> http_inv s'.
Proof.
  intros Hi Hs. inversion Hs; subst; [|by apply http_finish_inv..].
  destruct Hi as [Hl Hc]. unfold http_inv, in_flight, finished_requests, onRequest in *.
  cbn [requests ops]. rewrite level_app, counted_app, Hl, Hc, !map_count_fresh by done.
  change (level "http_active" [] (record http_start)) with 1.
  change (counted (record http_start)) with 0. unfold Datatypes.id. simpl. lia.
Qed.

(** ** Bounded label sets *)

Definition status_labels : list string := "none" :: map (fun n => pretty (100 + Z.of_nat n)) (seq 0 500).
Definition provider_labels : list string := ["ollama"; "openai"; "other"].

(** The values a label may take. *)
Definition label_domain (name : string) : list string :=
  if String.eqb name "method" then "OTHER" :: methods
  else if String.eqb name "route" then "unmatched" :: routes
  else if String.eqb name "status" then ["HIT"; "MISS"; "BYPASS"] ++ status_labels
  else if String.eqb name "outcome" then
    ["completed"; "aborted"; "failed"; "cancelled"; "admitted"; "queue_full"; "timeout"; "success";
     "transient_error"; "permanent_error"; "consumer_error"; "retrying"; "obsolete";
     "infrastructure_error"]
  else if String.eqb name "mode" then ["chat"; "stream"]
  else if String.eqb name "provider" || String.eqb name "from" || String.eqb name "to" then provider_labels
  else [].

Definition op_labels (o : op) : labels :=
  match o with Inc _ ls | Dec _ ls | Observe _ ls _ | SetTo _ ls _ => ls | Reset _ => [] end.

Lemma status_label_bounded s : status_label s ∈ status_labels.
Proof.
  unfold status_label, status_labels. destruct s as [n|]; [|by left].
  destruct (_ && _) eqn:E; [|by left]. right. to_prop.
  apply list_elem_of_In, in_map_iff. exists (Z.to_nat (n - 100)). split; [f_equal; lia|].
  apply in_seq. lia.
Qed.

Lemma providerLabel_bounded p : providerLabel p ∈ provider_labels.
Proof. unfold providerLabel, provider_labels. case_bool_decide; set_solver. Qed.

Lemma method_label_bounded m : method_label m ∈ "OTHER" :: methods.
Proof. unfold method_label. case_bool_decide; [by right|by left]. Qed.

Lemma route_label_bounded r : route_label r ∈ "unmatched" :: routes.
Proof. unfold route_label. case_bool_decide; [by right|by left]. Qed.

(** ** The values shown after a collection *)

Definition show (metric : string) (ls : labels) (v : option number) (o : op) : option number :=
  match o with
  | SetTo m l x => if bool_decide (m = metric /\ l = ls) then Some x else v
  | Reset m => if String.eqb m metric then None else v
  | _ => v
  end.

Lemma shown_app m ls a b : shown m ls (a ++ b) = foldl (show m ls) (shown m ls a) b.
Proof. unfold shown. by rewrite foldl_app. Qed.

(** Operations on other metrics or other labels show nothing new. *)
Lemma show_others m ls v l :
  Forall (fun o => match o with SetTo m' l' _ => m' <> m \/ l' <> ls | Reset m' => m' <> m | _ => True end) l ->
  foldl (show m ls) v l = v.
Proof.
  intros H. revert v. induction H as [|o l Ho _ IH]; intros v; [done|]. cbn [foldl]. rewrite IH.
  destruct o; try done; cbn [show].
  - rewrite bool_decide_false; [done|]. intros [-> ->]. by destruct Ho.
  - by rewrite (proj2 (String.eqb_neq _ _)).
Qed.

Definition state_labels (provider state : string) : labels := [("provider", provider); ("state", state)].

Lemma collect_provider_shows h s v :
  s ∈ circuit_states ->
  foldl (show "circuit_state" (state_labels (providerLabel h.1) s.1)) v (collect_provider h) =
    Some (of_Z (if bool_decide (CircuitBreaker.snap_state h.2 = s.2) then 1 else 0)).
Proof.
  intros Hs. unfold collect_provider, state_labels. generalize (providerLabel h.1). intros p.
  repeat (apply elem_of_cons in Hs as [->|Hs]); [..|by apply elem_of_nil in Hs].
  all: cbn [map circuit_states foldl show fst snd].
  all: repeat first [rewrite (bool_decide_true (_ /\ _)) by (by split)
                    |rewrite (bool_decide_false (_ /\ _)) by (by intros [_ [=]])].
  all: done.
Qed.

Lemma collect_provider_others h p s v :
  providerLabel h.1 <> p ->
  foldl (show "circuit_state" (state_labels p s)) v (collect_provider h) = v.
Proof.
  intros Hp. apply show_others. unfold collect_provider, state_labels.
  apply Forall_forall. intros o (x & -> & _)%list_elem_of_fmap. right. congruence.
Qed.

Lemma collect_providers_shows hs h s v :
  NoDup (map (fun h => providerLabel h.1) hs) -> h ∈ hs -> s ∈ circuit_states ->
  foldl (show "circuit_state" (state_labels (providerLabel h.1) s.1)) v (concat (map collect_provider hs)) =
    Some (of_Z (if bool_decide (CircuitBreaker.snap_state h.2 = s.2) then 1 else 0)).
Proof.
  intros Hd Hh Hs. revert v. induction hs as [|h' hs IH]; intros v; [by apply elem_of_nil in Hh|].
  cbn [map] in Hd. apply NoDup_cons in Hd as [Hn Hd]. cbn [map concat]. rewrite foldl_app.
  apply elem_of_cons in Hh as [<-|Hh]; [|by apply IH].
  rewrite collect_provider_shows by done. clear IH.
  generalize (Some (of_Z (if bool_decide (CircuitBreaker.snap_state h.2 = s.2) then 1 else 0))).
  intros x. induction hs as [|h' hs IH]; [done|]. cbn [map concat]. rewrite foldl_app.
  cbn [map] in Hn, Hd. rewrite not_elem_of_cons in Hn. apply NoDup_cons in Hd as [_ Hd].
  rewrite collect_provider_others by naive_solver. apply IH; tauto.
Qed.

Lemma filter_all {A} (P : A -> Prop) `{forall x, Decision (P x)} l : Forall P l -> filter P l = l.
Proof. induction 1 as [|x l Hx _ IH]; [done|]. by rewrite filter_cons_True, IH. Qed.

Lemma filter_none {A} (P : A -> Prop) `{forall x, Decision (P x)} l : Forall P l -> filter (fun x => ~ P x) l = [].
Proof. induction 1 as [|x l Hx _ IH]; [done|]. rewrite filter_cons_False; [done|]. intros Hn. by apply Hn. Qed.

Lemma server_step_inv s e :
  server_inv s ->
  server_inv (server_step s e) /\
  (map fst (sent (server_step s e)) ++ map fst (waiting (server_step s e)) =
     (map fst (sent s) ++ map fst (waiting s)) ++ asked [e]) /\
  (collections (scraper_of (server_step s e)) + busy s <=
     collections (scraper_of s) + busy (server_step s e) + ended [e])%nat.
Proof.
  unfold server_inv. destruct s as [[[n|] c] ws rs]; destruct e as [i|r]; cbn.
  - intros (-> & Hne & Hall). rewrite map_app, app_assoc. split; [|split; [done|cbn; lia]].
    split; [done|]. split; [by intros [_ ?]%app_nil|]. apply Forall_app_2; [done|by constructor].
  - intros (-> & Hne & Hall). rewrite (filter_all (fun w => w.2 = n)), (filter_none (fun w => w.2 = n)) by done.
    split; [done|]. split; [|cbn; lia]. by rewrite map_app, map_map, app_nil_r, app_nil_r.
  - intros ->. split; [repeat split; [done|by constructor]|]. split; [by rewrite app_nil_r|cbn; lia].
  - intros ->. rewrite !app_nil_r. repeat split; cbn; lia.
Qed.

Lemma server_run s es :
  server_inv s ->
  server_inv (foldl server_step s es) /\
  (map fst (sent (foldl server_step s es)) ++ map fst (waiting (foldl server_step s es)) =
     (map fst (sent s) ++ map fst (waiting s)) ++ asked es) /\
  (collections (scraper_of (foldl server_step s es)) + busy s <=
     collections (scraper_of s) + busy (foldl server_step s es) + ended es)%nat.
Proof.
  revert s. induction es as [|e es IH]; intros s Hs.
  { split; [done|]. split; [by rewrite app_nil_r|cbn; lia]. }
  destruct (server_step_inv s e Hs) as (Hi & Ha & Hc). destruct (IH _ Hi) as (Hi' & Ha' & Hc').
  cbn [foldl]. split; [done|]. split.
  - rewrite Ha', Ha, <- app_assoc. unfold asked. by rewrite <- omap_app.
  - assert (ended (e :: es) = (ended [e] + ended es)%nat) as -> by (unfold ended; destruct e; done). lia.
Qed.

(** ** The properties *)

(** Overlapping scrapes share one collection and are all answered.  At
    any point every waiting client waits for the one collection under way;
    clients are answered in the order they asked and each exactly once, all
    of them by the next end of a collection; and no more collections are
    started than have ended plus one. *)
Theorem scrapes_coalesce es :
  let s := foldl server_step new_server es in
  map fst (sent s) ++ map fst (waiting s) = asked es /\
  (collections (scraper_of s) <= ended es + 1)%nat /\
  Forall (fun w => scraping (scraper_of s) = Some w.2) (waiting s) /\
  (forall r, waiting (server_step s (Collected r)) = []).
Proof.
  intros s. destruct (server_run new_server es) as (Hi & Ha & Hc); [done|]. fold s in Hi, Ha, Hc.
  split; [done|]. split; [unfold busy in Hc; cbn in Hc; destruct (scraping (scraper_of s)); lia|].
  split; [unfold server_inv in Hi; destruct (scraping (scraper_of s)); [|by rewrite Hi]|].
  - destruct Hi as (_ & _ & Hall). eapply Forall_impl; [exact Hall|]. by intros w ->.
  - intros r. destruct (server_step_inv s (Collected r) Hi) as (Hi' & _). unfold server_inv in Hi'.
    cbn in *. by destruct (scraping (scraper_of s)) eqn:E; cbn in Hi'; rewrite ?E in Hi'.
Qed.

(** The in-flight gauge counts the requests in flight.  However the
    finish and close events of any number of responses interleave, repeat or
    fail to come, the gauge equals the requests observed and not yet over,
    and the counter of finished requests counts each of them once. *)
Theorem http_gauge_exact ls s :
  run http_step http_initial ls s ->
  level "http_active" [] (ops s) = Z.of_nat (in_flight s) /\
  counted (ops s) = Z.of_nat (finished_requests s).
Proof.
  intros Hr. apply (run_invariant http_step http_inv http_initial ls s); [apply http_step_inv|done|].
  split; unfold in_flight, finished_requests; cbn [http_initial requests ops];
    rewrite map_count_empty; done.
Qed.

(** Element by element. *)
Ltac forall_list := repeat first [apply Forall_nil_2 | apply Forall_cons_2].

(** Clients cannot grow the label sets.  Whatever methods, paths, statuses
    and provider names occur in events, every label recorded takes one of
    finitely many values fixed in advance. *)
Theorem metric_labels_bounded e :
  Forall (fun o => Forall (fun l => l.2 ∈ label_domain l.1) (op_labels o)) (record e).
Proof.
  destruct e as [|m r s c ms| |st|o|o ms|p m|p m o ms|p m|f t|retry wait|o ms]; cbn [record].
  all: try destruct retry; try destruct wait; forall_list; cbn [fst snd];
    first [apply providerLabel_bounded | apply method_label_bounded | apply route_label_bounded
          |apply (elem_of_app ["HIT"; "MISS"; "BYPASS"]); right; apply status_label_bounded
          |try (destruct c); try (destruct st); try (destruct o); try (destruct m); set_solver].
Qed.

(** Collectors never show a stale healthy value.  After a collection the
    gauges show the snapshot it read, one-hot for the circuit states of
    distinct providers, and [collector_up] is 1; after a failed one the
    values are [NaN] and [collector_up] is 0, whatever was shown before. *)
Theorem collectors_honest before :
  (forall r,
     shown "concurrency_active" [] (before ++ collect_concurrency r) =
       Some (match r with Ok v => of_Z (ConcurrencyLimiter.snap_active v) | Err _ => NaN end) /\
     shown "collector_up" [("collector", "concurrency")] (before ++ collect_concurrency r) =
       Some (of_Z (if is_Ok r then 1 else 0))) /\
  (forall r,
     shown "jobs_depth" [("status", "queued")] (before ++ collect_depth r) =
       Some (match r with Ok (q, _, _) => of_Z q | Err _ => NaN end) /\
     shown "collector_up" [("collector", "jobs")] (before ++ collect_depth r) =
       Some (of_Z (if is_Ok r then 1 else 0))) /\
  (forall hs h s, NoDup (map (fun h => providerLabel h.1) hs) -> h ∈ hs -> s ∈ circuit_states ->
     shown "circuit_state" (state_labels (providerLabel h.1) s.1) (before ++ collect_circuits (Ok hs)) =
       Some (of_Z (if bool_decide (CircuitBreaker.snap_state h.2 = s.2) then 1 else 0))) /\
  (forall e p s, shown "circuit_state" (state_labels p s) (before ++ collect_circuits (Err e)) = None).
Proof.
  split; [|split; [|split]].
  - intros [e|v]; rewrite !shown_app; done.
  - intros [e|[[q r] a]]; rewrite !shown_app; done.
  - intros hs h s Hd Hh Hs. rewrite shown_app. unfold collect_circuits. cbn [foldl].
    rewrite foldl_app, collect_providers_shows by done. done.
  - intros e p s. rewrite shown_app. done.
Qed.

(** ** Scenarios *)

Definition ex_info : http_info := mkInfo "GET" (Some "/health") (Some 200) 5.

Definition http_exec (s : http_state) (e : http_event) : option http_state :=
  match e with
  | Arrives i => match requests s !! i with None => Some (onRequest i s) | _ => None end
  | Finishes i info => Some (finish i true info s)
  | Closes i wf info => Some (finish i wf info s)
  end.

Lemma http_exec_sound s e s' : http_exec s e = Some s' -> http_step s e s'.
Proof.
  destruct e; simpl; [case_match; [done|]|..]; intros [= <-]; by constructor.
Qed.

(** Two requests; one finishes and closes, the other is still open. *)
Definition ex_http : list http_event :=
  [Arrives 0; Arrives 1; Finishes 0 ex_info; Closes 0 true ex_info].

Lemma http_gauge_exact_witness :
  exists s, run http_step http_initial ex_http s /\ level "http_active" [] (ops s) = 1 /\
    counted (ops s) = 1.
Proof.
  destruct (exec_run http_exec http_initial ex_http) as [s|] eqn:E; [|by vm_compute in E].
  exists s. pose proof (exec_run_sound _ _ http_exec_sound _ _ _ E) as Hr. split; [done|].
  destruct (http_gauge_exact ex_http s Hr) as [H1 H2]. rewrite H1, H2.
  vm_compute in E. injection E as <-. by vm_compute.
Defined.

Lemma collectors_honest_witness :
  shown "collector_up" [("collector", "jobs")] ([] ++ collect_depth (Err RequestAbortedError)) =
    Some (of_Z 0) /\
  shown "circuit_state" (state_labels "ollama" "open")
    ([] ++ collect_circuits (Ok [("ollama", CircuitBreaker.mkSnapshot CircuitBreaker.open 5 100)])) =
    Some (of_Z 1).
Proof.
  split; [apply (proj1 (proj2 (collectors_honest []))) with (r := Err RequestAbortedError)|].
  apply (proj1 (proj2 (proj2 (collectors_honest []))))
    with (hs := [("ollama", CircuitBreaker.mkSnapshot CircuitBreaker.open 5 100)])
         (h := ("ollama", CircuitBreaker.mkSnapshot CircuitBreaker.open 5 100))
         (s := ("open", CircuitBreaker.open)); [|set_solver|set_solver].
  apply (bool_decide_unpack _). by vm_compute.
Defined.

End Metrics.
