(* ===== verification/Registry.v ===== *)
(** * The metrics registry

    The metrics the class of [src/src/observability/metrics.ts] declares, and
    [recordMetric] of [src/src/observability/telemetry.ts].  [Metrics] says
    which operations an event or a collection performs; here they are
    performed, one after the other, on the registry of the metrics library,
    any of whose calls may throw.

    The library is a parameter with its documented behaviour: a metric is
    registered if its name is new, and an operation on a registered metric is
    carried out if the metric is of the right kind and the labels are its
    own.  The help texts are not kept. *)

From S2P Require Import Prelude JsNumber Errors Chat ConcurrencyLimiter CircuitBreaker Metrics.
Import JsNumber Errors Chat Telemetry Metrics.

Module Registry.

(** ** Declarations *)

Inductive metric_kind : Type :=
| Counter
| Gauge
| Histogram (buckets : list Q).

Record metric : Type := mkMetric {
  name : string;
  labelNames : list string;
  kind : metric_kind
}.

Definition durationBuckets : list Q :=
  [5 # 1000; 1 # 100; 25 # 1000; 5 # 100; 1 # 10; 25 # 100; 5 # 10; 1; 25 # 10; 5; 10; 30; 60; 120;
   180; 300]%Q.

Definition full_name (n : string) : string := "modelmux_" +:+ n.
Definition counter (n : string) (ls : list string) : metric := mkMetric (full_name n) ls Counter.
Definition gauge (n : string) (ls : list string) : metric := mkMetric (full_name n) ls Gauge.
Definition histogram (n : string) (ls : list string) : metric :=
  mkMetric (full_name n) ls (Histogram durationBuckets).

(** The fields of the class. *)
Definition fields : list metric :=
  [gauge "http_active" [];
   counter "http_requests_total" ["method"; "route"; "status"; "outcome"];
   histogram "http_duration_seconds" ["method"; "route"; "outcome"];
   counter "rate_limit_rejections_total" [];
   counter "cache_lookups_total" ["status"];
   counter "streams_total" ["outcome"];
   counter "admissions_total" ["outcome"];
   histogram "queue_wait_seconds" ["outcome"];
   gauge "provider_active" ["provider"; "mode"];
   counter "provider_calls_total" ["provider"; "mode"; "outcome"];
   histogram "provider_duration_seconds" ["provider"; "mode"; "outcome"];
   counter "circuit_rejections_total" ["provider"; "mode"];
   counter "fallbacks_total" ["from"; "to"];
   gauge "job_attempts_active" [];
   counter "job_attempts_total" ["outcome"];
   histogram "job_attempt_duration_seconds" ["outcome"];
   histogram "job_queue_wait_seconds" [];
   counter "job_retries_started_total" [];
   gauge "collector_up" ["collector"]].

(** The gauges of [bindConcurrency], [bindProviders] and [bindQueueDepth]. *)
Definition concurrency_gauges : list metric :=
  [gauge "concurrency_active" []; gauge "concurrency_queued" []].
Definition circuit_gauges : list metric := [gauge "circuit_state" ["provider"; "state"]].
Definition depth_gauges : list metric := [gauge "jobs_depth" ["status"]].

(** ** Operations on declared metrics *)

Definition op_metric (o : op) : string :=
  full_name match o with Inc m _ | Dec m _ | Observe m _ _ | SetTo m _ _ | Reset m => m end.

Definition suits (k : metric_kind) (o : op) : bool :=
  match o, k with
  | Inc _ _, (Counter | Gauge) | Dec _ _, Gauge | SetTo _ _ _, Gauge | Reset _, Gauge => true
  | Observe _ _ _, Histogram _ => true
  | _, _ => false
  end.

(** Exactly the declared labels, in any order. *)
Definition same_labels (names : list string) (ls : labels) : bool :=
  forallb (fun n => existsb (String.eqb n) (map fst ls)) names &&
  forallb (fun n => existsb (String.eqb n) names) (map fst ls).

Definition accepts (d : metric) (o : op) : bool :=
  String.eqb (name d) (op_metric o) && suits (kind d) o &&
  match o with Reset _ => true | _ => same_labels (labelNames d) (op_labels o) end.

Definition declared_in (ds : list metric) (o : op) : bool := existsb (fun d => accepts d o) ds.

(** What is done to the registry. *)
Inductive activity : Type :=
| Recorded (e : MetricEvent)
| CollectedConcurrency (snapshot : result error ConcurrencyLimiter.ConcurrencySnapshot)
| CollectedCircuits (snapshot : result error (list (string * CircuitBreaker.CircuitSnapshot)))
| CollectedDepth (read : result error (Z * Z * Z)).

Definition operations (a : activity) : list op :=
  match a with
  | Recorded e => record e
  | CollectedConcurrency r => collect_concurrency r
  | CollectedCircuits r => collect_circuits r
  | CollectedDepth r => collect_depth r
  end.

Section Library.
  Context {R : Type}.
  (** Register a metric, perform an operation: a thrown error, and the
      registry afterwards. *)
  Context (register : metric -> R -> result error () * R).
  Context (perform : op -> R -> result error () * R).

(** One call after the other, up to the first that throws. *)
Fixpoint in_order {A} (call : A -> R -> result error () * R) (l : list A) (r : R) : result error () * R :=
  match l with
  | [] => (Ok (), r)
  | x :: l' => match call x r with (Ok _, r') => in_order call l' r' | (Err e, r') => (Err e, r') end
  end.

Definition new_Metrics : R -> result error () * R := in_order register fields.
Definition bindConcurrency : R -> result error () * R := in_order register concurrency_gauges.
Definition bindProviders : R -> result error () * R := in_order register circuit_gauges.
Definition bindQueueDepth : R -> result error () * R := in_order register depth_gauges.

Definition and_then (m k : R -> result error () * R) (r : R) : result error () * R :=
  match m r with (Ok _, r') => k r' | (Err e, r') => (Err e, r') end.

(** The metrics of [server.ts] and of [worker.ts]. *)
Definition gateway_metrics : R -> result error () * R :=
  and_then new_Metrics (and_then bindConcurrency (and_then bindProviders bindQueueDepth)).
Definition worker_metrics : R -> result error () * R := and_then new_Metrics bindProviders.

(** [sink?.record(event)] with whatever it throws dropped. *)
Definition recordMetric (sink : option (MetricEvent -> R -> result error () * R)) (e : MetricEvent)
    (r : R) : R :=
  match sink with Some f => (f e r).2 | None => r end.

(** An event or a collection. *)
Definition act (a : activity) (r : R) : result error () * R := in_order perform (operations a) r.

(** ** The library's behaviour *)

  Context (known : R -> gmap string metric) (history : R -> list op).

Record library : Prop := {
  register_new d r : known r !! name d = None ->
    exists r', register d r = (Ok (), r') /\ known r' = <[name d := d]> (known r) /\
      history r' = history r;
  perform_declared d o r : known r !! op_metric o = Some d -> accepts d o = true ->
    exists r', perform o r = (Ok (), r') /\ known r' = known r /\ history r' = history r ++ [o]
}.

  Context (lib : library).

Definition table (ds : list metric) : gmap string metric :=
  foldl (fun t d => <[name d := d]> t) ∅ ds.

Lemma table_snoc ds d : table (ds ++ [d]) = <[name d := d]> (table ds).
Proof. unfold table. by rewrite foldl_app. Qed.

Lemma table_lookup_None ds n : n ∉ map name ds -> table ds !! n = None.
Proof.
  induction ds as [|d ds IH] using rev_ind; [done|]. rewrite map_app, table_snoc.
  intros [Hn Hd]%not_elem_of_app. cbn in Hd. rewrite lookup_insert_ne by set_solver. auto.
Qed.

Lemma table_lookup ds d : NoDup (map name ds) -> d ∈ ds -> table ds !! name d = Some d.
Proof.
  induction ds as [|x ds IH] using rev_ind; [by intros _ ?%elem_of_nil|].
  rewrite map_app, table_snoc. intros (Hd & Hn & _)%NoDup_app [Hin|Hin%list_elem_of_singleton]%elem_of_app.
  - rewrite lookup_insert_ne; [by apply IH|]. intros He. apply (Hn (name d)).
    + by apply list_elem_of_fmap_2.
    + rewrite <- He. by left.
  - subst. apply lookup_insert_eq.
Qed.

(** Metrics with new names are all registered. *)
Lemma register_all ds done r :
  NoDup (map name (done ++ ds)) -> known r = table done ->
  exists r', in_order register ds r = (Ok (), r') /\ known r' = table (done ++ ds) /\
    history r' = history r.
Proof.
  revert done r. induction ds as [|d ds IH]; intros done r Hd Hk.
  { exists r. by rewrite app_nil_r. }
  assert (known r !! name d = None) as Hn.
  { rewrite Hk. apply table_lookup_None. rewrite map_app in Hd.
    apply NoDup_app in Hd as (_ & Hd & _). intros Hin. apply (Hd _ Hin). by left. }
  destruct (register_new lib d r Hn) as (r1 & H1 & Hk1 & Hh1).
  destruct (IH (done ++ [d]) r1) as (r' & H' & Hk' & Hh').
  - by rewrite <- app_assoc.
  - by rewrite Hk1, Hk, table_snoc.
  - exists r'. cbn [in_order]. rewrite H1. rewrite <- app_assoc in Hk'. by rewrite Hh', Hh1.
Qed.

Lemma then_register ds ds' m r :
  NoDup (map name (ds ++ ds')) ->
  (exists r1, m r = (Ok (), r1) /\ known r1 = table ds /\ history r1 = history r) ->
  exists r', and_then m (in_order register ds') r = (Ok (), r') /\ known r' = table (ds ++ ds') /\
    history r' = history r.
Proof.
  intros Hd (r1 & Hm & Hk & Hh). unfold and_then. rewrite Hm.
  destruct (register_all ds' ds r1 Hd Hk) as (r' & H' & Hk' & Hh'). exists r'.
  by rewrite Hh', Hh.
Qed.

Lemma and_then_assoc m1 m2 m3 r : and_then m1 (and_then m2 m3) r = and_then (and_then m1 m2) m3 r.
Proof. unfold and_then. by destruct (m1 r) as [[] ?]. Qed.

(** Operations on declared metrics are all performed. *)
Lemma perform_all ds os r :
  NoDup (map name ds) -> known r = table ds -> Forall (fun o => declared_in ds o = true) os ->
  exists r', in_order perform os r = (Ok (), r') /\ known r' = table ds /\
    history r' = history r ++ os.
Proof.
  intros Hd. revert r. induction os as [|o os IH]; intros r Hk Ho.
  { exists r. by rewrite app_nil_r. }
  apply Forall_cons in Ho as [Hdo Ho]. apply existsb_exists in Hdo as (d & Hin & Hacc).
  apply list_elem_of_In in Hin. assert (name d = op_metric o) as Hname.
  { unfold accepts in Hacc. rewrite !andb_true_iff in Hacc. apply String.eqb_eq, Hacc. }
  destruct (perform_declared lib d o r) as (r1 & H1 & Hk1 & Hh1).
  { rewrite Hk, <- Hname. by apply table_lookup. }
  { done. }
  destruct (IH r1) as (r' & H' & Hk' & Hh'); [by rewrite Hk1|done|].
  exists r'. cbn [in_order]. rewrite H1, H'. rewrite Hh', Hh1, <- app_assoc. done.
Qed.

(** Any activities, each on declared metrics. *)
Lemma act_all ds acts r :
  NoDup (map name ds) -> known r = table ds ->
  Forall (fun a => Forall (fun o => declared_in ds o = true) (operations a)) acts ->
  exists r', in_order act acts r = (Ok (), r') /\ known r' = table ds /\
    history r' = history r ++ concat (map operations acts).
Proof.
  intros Hd. revert r. induction acts as [|a acts IH]; intros r Hk Ha.
  { exists r. by rewrite app_nil_r. }
  apply Forall_cons in Ha as [Ha1 Ha].
  destruct (perform_all ds (operations a) r Hd Hk Ha1) as (r1 & H1 & Hk1 & Hh1).
  destruct (IH r1 Hk1 Ha) as (r' & H' & Hk' & Hh').
  exists r'. cbn [in_order map concat]. unfold act at 1. rewrite H1, H'. split; [done|]. split; [done|].
  by rewrite Hh', Hh1, <- app_assoc.
Qed.

End Library.

(** ** What the code does is declared *)

(** Operation by operation. *)
Ltac by_cases := repeat first [apply Forall_nil_2 | apply Forall_cons_2 | by vm_compute].

Lemma record_declared e : Forall (fun o => declared_in fields o = true) (record e).
Proof.
  destruct e as [|m r s c ms| |st|o|o ms|p m|p m o ms|p m|f t|retry wait|o ms]; cbn [record];
    try destruct retry; try destruct wait; by_cases.
Qed.

Lemma declared_weaken ds ds' os :
  ds ⊆ ds' -> Forall (fun o => declared_in ds o = true) os -> Forall (fun o => declared_in ds' o = true) os.
Proof.
  intros Hs Ho. eapply Forall_impl; [exact Ho|]. intros o (d & Hin & Ha)%existsb_exists.
  apply existsb_exists. exists d. split; [|done]. apply list_elem_of_In, Hs. by apply list_elem_of_In.
Qed.

Lemma collect_circuits_declared r :
  Forall (fun o => declared_in (fields ++ circuit_gauges) o = true) (collect_circuits r).
Proof.
  destruct r as [e|hs]; unfold collect_circuits; [by_cases|]. constructor; [by vm_compute|].
  apply Forall_app_2; [|by_cases]. induction hs as [|h hs IH]; [constructor|]. cbn [map concat].
  apply Forall_app_2; [|done]. unfold collect_provider. generalize (providerLabel h.1). intros p.
  cbn [map circuit_states fst snd]. by_cases.
Qed.

Definition gateway_declared : list metric :=
  ((fields ++ concurrency_gauges) ++ circuit_gauges) ++ depth_gauges.
Definition worker_declared : list metric := fields ++ circuit_gauges.

Lemma gateway_activity_declared a :
  Forall (fun o => declared_in gateway_declared o = true) (operations a).
Proof.
  destruct a as [e|r|r|r]; cbn [operations].
  - eapply declared_weaken; [|apply record_declared]. unfold gateway_declared. set_solver.
  - destruct r; cbn [collect_concurrency]; by_cases.
  - eapply declared_weaken; [|apply collect_circuits_declared]. unfold gateway_declared. set_solver.
  - destruct r as [|[[]]]; cbn [collect_depth]; by_cases.
Qed.

(** What the worker does to its metrics. *)
Definition worker_activity (a : activity) : Prop :=
  match a with Recorded _ | CollectedCircuits _ => True | _ => False end.

Lemma worker_activity_declared a :
  worker_activity a -> Forall (fun o => declared_in worker_declared o = true) (operations a).
Proof.
  destruct a as [e|r|r|r]; cbn [operations worker_activity]; try done; intros _.
  - eapply declared_weaken; [|apply record_declared]. unfold worker_declared. set_solver.
  - apply collect_circuits_declared.
Qed.

Lemma gateway_names : NoDup (map name gateway_declared).
Proof. apply (bool_decide_unpack _). by vm_compute. Qed.

Lemma worker_names : NoDup (map name worker_declared).
Proof. apply (bool_decide_unpack _). by vm_compute. Qed.

Lemma names_prefix ds : ds `prefix_of` gateway_declared -> NoDup (map name ds).
Proof.
  intros [ds' Hds]. pose proof gateway_names as Hg. rewrite Hds, map_app in Hg.
  by apply NoDup_app in Hg as [Hg _].
Qed.

(** ** The properties *)

(** C40: telemetry works as it is declared.  On an empty registry of a library
    that behaves as documented, the metrics of the gateway and of the worker
    are all registered (no name twice), and from then on every event and
    every collection, whatever it reports and in whatever order they come,
    performs all its operations, each on a metric of the right kind with
    exactly its declared labels: nothing is thrown, so nothing is dropped. *)
Theorem telemetry_never_throws {R} register perform known history (empty : R) :
  library register perform known history -> known empty = ∅ -> history empty = [] ->
  (exists r, gateway_metrics register empty = (Ok (), r) /\
     forall acts, exists r', in_order (act perform) acts r = (Ok (), r') /\
       history r' = concat (map operations acts)) /\
  (exists r, worker_metrics register empty = (Ok (), r) /\
     forall acts, Forall worker_activity acts ->
       exists r', in_order (act perform) acts r = (Ok (), r') /\
         history r' = concat (map operations acts)).
Proof.
  intros lib Hk Hh. split.
  - assert (exists r, gateway_metrics register empty = (Ok (), r) /\ known r = table gateway_declared /\
      history r = history empty) as (r & Hr & Hkr & Hhr).
    { unfold gateway_metrics. rewrite !and_then_assoc.
      repeat (apply (then_register register perform known history lib); [apply names_prefix; by eexists|]).
      apply (register_all register perform known history lib fields []); [apply names_prefix; by eexists|done]. }
    exists r. split; [done|]. intros acts.
    destruct (act_all register perform known history lib gateway_declared acts r) as (r' & H' & _ & Hh');
      [apply gateway_names|done| |].
    { apply Forall_forall. intros a _. apply gateway_activity_declared. }
    exists r'. by rewrite Hh', Hhr, Hh.
  - assert (exists r, worker_metrics register empty = (Ok (), r) /\ known r = table worker_declared /\
      history r = history empty) as (r & Hr & Hkr & Hhr).
    { apply (then_register register perform known history lib); [apply worker_names|].
      apply (register_all register perform known history lib fields []); [apply names_prefix; by eexists|done]. }
    exists r. split; [done|]. intros acts Hacts.
    destruct (act_all register perform known history lib worker_declared acts r) as (r' & H' & _ & Hh');
      [apply worker_names|done| |].
    { eapply Forall_impl; [exact Hacts|]. apply worker_activity_declared. }
    exists r'. by rewrite Hh', Hhr, Hh.
Qed.

(** ** A registry *)

Definition ex_registry : Type := gmap string metric * list op.
Definition ex_empty : ex_registry := (∅, []).
Definition ex_register (d : metric) (r : ex_registry) : result error () * ex_registry :=
  match r.1 !! name d with
  | Some _ => (Err (PlainError "A metric with this name has already been registered"), r)
  | None => (Ok (), (<[name d := d]> r.1, r.2))
  end.
Definition ex_perform (o : op) (r : ex_registry) : result error () * ex_registry :=
  match r.1 !! op_metric o with
  | Some d => if accepts d o then (Ok (), (r.1, r.2 ++ [o])) else (Err (PlainError "Invalid labels"), r)
  | None => (Err (PlainError "No such metric"), r)
  end.

Lemma ex_library : library ex_register ex_perform fst snd.
Proof.
  split.
  - intros d r Hd. unfold ex_register. rewrite Hd. by eexists.
  - intros d o r Hd Ha. unfold ex_perform. rewrite Hd, Ha. by eexists.
Qed.

Lemma telemetry_never_throws_witness :
  exists r, in_order (act ex_perform) [Recorded http_start; CollectedDepth (Err RequestAbortedError)]
      (gateway_metrics ex_register ex_empty).2 = (Ok (), r) /\
    r.2 = Inc "http_active" [] :: collect_depth (Err RequestAbortedError).
Proof.
  destruct (telemetry_never_throws ex_register ex_perform fst snd ex_empty ex_library eq_refl eq_refl)
    as [(r & Hr & Hacts) _].
  rewrite Hr. destruct (Hacts [Recorded http_start; CollectedDepth (Err RequestAbortedError)]) as (r' & H1 & H2).
  exists r'. split; [exact H1|]. exact H2.
Defined.

End Registry.
