(* ===== verification/Startup.v ===== *)
(** * Assembly of the processes

    [createProvider] of [src/src/providers/create-provider.ts] and the
    construction of the components in [src/src/server.ts] and
    [src/src/worker.ts] from a loaded configuration: which settings become
    which constructor's options.  The theorem links the configuration to the
    components: a configuration that loads satisfies the constructors, and
    what they accept is what the theorems about the components assume. *)

From S2P Require Import Prelude JsNumber Utf8 Errors Chat Provider Json CacheKey Config StreamParser Adapters CircuitBreaker ConcurrencyLimiter JobStore Router RedisCache.
Import JsNumber Errors Config.

Module Startup.

(** ** createProvider *)

Section Assembly.
  Context {env : Type} (net : Adapters.network (@Router.process env)).
  Context (resolve : string -> string -> option string) (sha256 : string -> string).

Definition breaker_of (c : Config) : result error CircuitBreaker.CircuitBreakerOptions :=
  fst <$> CircuitBreaker.new_CircuitBreaker
    (of_Z (failureThreshold (circuitBreaker c))) (of_Z (resetTimeoutMs (circuitBreaker c))) None.

Definition createProvider (c : Config) :
    result error (@Router.ProviderTarget env * option (@Router.FallbackTarget env)) :=
  ollama ← Adapters.Ollama.new_OllamaProvider resolve (ollamaBaseUrl c) (of_Z (ollamaRequestTimeoutMs c));
  circuit ← breaker_of c;
  let primary := Router.mkTarget "ollama" (Adapters.Ollama.provider net ollama) circuit in
  match openai c with
  | Some o =>
      hosted ← Adapters.OpenAI.new_OpenAIProvider (apiKey o) (of_Z (openai_requestTimeoutMs o));
      circuit' ← breaker_of c;
      Ok (primary, Some (Router.mkFallback
            (Router.mkTarget "openai" (Adapters.OpenAI.provider net hosted) circuit')
            (list_to_map (modelMap o))))
  | None => Ok (primary, None)
  end.

(** ** server.ts *)

(** [ttlSeconds > 0 ? new RedisChatCache(...) : undefined] *)
Definition cache_of (c : Config) : result error (option RedisCache.RedisChatCacheOptions) :=
  if 0 <? ttlSeconds (chatCache c) then
    Some <$> RedisCache.new_RedisChatCache (chatCacheNamespace sha256 c)
      (of_Z (ttlSeconds (chatCache c))) (of_Z (maxEntryBytes (chatCache c)))
      (of_Z (cache_timeoutMs (chatCache c)))
  else Ok None.

Definition INFERENCE_QUEUE_NAME : string := "modelmux-inference".

Definition store_of (c : Config) : JobStore.JobStoreOptions :=
  JobStore.mkStoreOptions INFERENCE_QUEUE_NAME (jobMaxAttempts c) (jobBackoffMs c)
    (providerExecutionTimeoutMs c + 30000).

Record gateway : Type := mkGateway {
  gateway_cache : option RedisCache.RedisChatCacheOptions;
  gateway_store : JobStore.JobStoreOptions;
  gateway_limiter : ConcurrencyLimiter.LimiterOptions;
  gateway_primary : @Router.ProviderTarget env;
  gateway_fallback : option (@Router.FallbackTarget env)
}.

Definition assemble_gateway (c : Config) : result error gateway :=
  cache ← cache_of c;
  limiter ← ConcurrencyLimiter.validateOptions (of_Z (providerMaxConcurrency c))
    (of_Z (providerMaxQueueSize c)) (of_Z (providerQueueTimeoutMs c));
  '(primary, fallback) ← createProvider c;
  Ok (mkGateway cache (store_of c) limiter primary fallback).

(** ** worker.ts *)

Record worker : Type := mkWorker {
  worker_store : JobStore.JobStoreOptions;
  worker_concurrency : Z;
  worker_primary : @Router.ProviderTarget env;
  worker_fallback : option (@Router.FallbackTarget env)
}.

Definition assemble_worker (c : Config) : result error worker :=
  '(primary, fallback) ← createProvider c;
  Ok (mkWorker (store_of c) (jobConcurrency c) primary fallback).

End Assembly.

(** ** The constructors accept what loads *)

Lemma int32_safe z : int32_positive z -> isSafeInteger (of_Z z) = true /\ 1 <= z <= MAX_SAFE_INTEGER.
Proof.
  unfold int32_positive. intros H. assert (z <= MAX_SAFE_INTEGER) by (unfold MAX_SAFE_INTEGER; lia).
  split; [|lia]. apply of_Z_isSafeInteger. unfold MAX_SAFE_INTEGER in *. lia.
Qed.

Lemma ltb_of_Z a b : ltb (of_Z a) (of_Z b) = (a <? b).
Proof. rewrite ltb_integer by apply of_Z_isInteger. by rewrite of_Z_toZ. Qed.

Lemma timeout_accepted z : int32_positive z -> Adapters.timeout_ok (of_Z z) = true.
Proof.
  intros H. unfold Adapters.timeout_ok. rewrite of_Z_isInteger, !ltb_of_Z.
  destruct (Z.ltb_spec z 1), (Z.ltb_spec 2147483647 z); unfold int32_positive in H; lia || done.
Qed.

Lemma cache_accepted z : int32_positive z -> RedisCache.positive_int32 (of_Z z) = true.
Proof.
  intros H. destruct (int32_safe z H) as [Hs _]. unfold RedisCache.positive_int32.
  rewrite Hs, !ltb_of_Z.
  destruct (Z.ltb_spec z 1), (Z.ltb_spec 2147483647 z); unfold int32_positive in H; lia || done.
Qed.

Section Accepts.
  Context (url : string -> option string) (c : Config) (Hc : config_ok url c).

Lemma breaker_accepts :
  breaker_of c = Ok (CircuitBreaker.mkOptions (failureThreshold (circuitBreaker c))
                       (resetTimeoutMs (circuitBreaker c))).
Proof.
  destruct (int32_safe _ (ok_threshold _ _ Hc)) as [Ht ?], (int32_safe _ (ok_reset _ _ Hc)) as [Hr ?].
  unfold breaker_of, CircuitBreaker.new_CircuitBreaker. rewrite Ht, Hr, !ltb_of_Z.
  rewrite !(proj2 (Z.ltb_ge _ _)) by lia. cbn [negb orb fmap result_fmap fst]. by rewrite !of_Z_toZ.
Qed.

Lemma breaker_options_valid :
  CircuitBreaker.valid_options (CircuitBreaker.mkOptions (failureThreshold (circuitBreaker c))
    (resetTimeoutMs (circuitBreaker c))).
Proof.
  destruct (int32_safe _ (ok_threshold _ _ Hc)), (int32_safe _ (ok_reset _ _ Hc)). by split.
Qed.

Lemma limiter_accepts :
  ConcurrencyLimiter.validateOptions (of_Z (providerMaxConcurrency c))
    (of_Z (providerMaxQueueSize c)) (of_Z (providerQueueTimeoutMs c)) =
  Ok (ConcurrencyLimiter.mkLimiterOptions (providerMaxConcurrency c) (providerMaxQueueSize c)
        (providerQueueTimeoutMs c)).
Proof.
  pose proof (ok_concurrency _ _ Hc) as H1. pose proof (ok_queue_size _ _ Hc) as H2.
  pose proof (ok_queue_timeout _ _ Hc) as H3. unfold int32_positive in *.
  unfold ConcurrencyLimiter.validateOptions. rewrite !of_Z_isInteger, !ltb_of_Z.
  rewrite !(proj2 (Z.ltb_ge _ _)) by lia. cbn [negb orb]. by rewrite !of_Z_toZ.
Qed.

Lemma cache_accepts sha256 :
  chatCacheNamespace sha256 c <> EmptyString ->
  exists cache, cache_of sha256 c = Ok cache /\
    forall o, cache = Some o -> RedisCache.valid_options o.
Proof.
  intros Hn. unfold cache_of. destruct (Z.ltb_spec 0 (ttlSeconds (chatCache c))) as [Ht|Ht]; [|by exists None].
  pose proof (ok_ttl _ _ Hc) as H1. pose proof (ok_max_bytes _ _ Hc) as H2.
  pose proof (ok_cache_timeout _ _ Hc) as H3. unfold int32_positive in *.
  unfold RedisCache.new_RedisChatCache. rewrite !cache_accepted by (unfold int32_positive; lia).
  cbn [negb]. rewrite (proj2 (String.eqb_neq _ _)) by done.
  rewrite !of_Z_toZ. eexists. split; [done|]. intros o [= <-]. split; simpl; lia.
Qed.

Context {env : Type} (net : Adapters.network (@Router.process env)).
Context (resolve : string -> string -> option string).

(** A target as [createProvider] makes it, with its circuit's options. *)
Definition target_ok (t : @Router.ProviderTarget env) : Prop :=
  CircuitBreaker.valid_options (Router.target_circuit t) /\
  is_Some (Provider.provider_stream (Router.target_provider t)).

Lemma createProvider_accepts :
  is_Some (resolve "api/chat" (Adapters.Ollama.normalizedBaseUrl (ollamaBaseUrl c))) ->
  (forall o, openai c = Some o -> Adapters.OpenAI.token (apiKey o) = true) ->
  exists primary fallback, createProvider net resolve c = Ok (primary, fallback) /\ target_ok primary /\
    (forall f, fallback = Some f -> target_ok (Router.fallback_target f) /\
       forall m h, Router.modelMap f !! m = Some h -> m <> EmptyString /\ h <> EmptyString).
Proof.
  intros [u Hu] Ht. unfold createProvider, Adapters.Ollama.new_OllamaProvider.
  rewrite timeout_accepted by apply Hc. cbn [negb]. rewrite Hu. cbn [mbind result_mbind].
  rewrite breaker_accepts. cbn [mbind result_mbind]. pose proof breaker_options_valid as Hv.
  destruct (openai c) as [o|] eqn:Eo; [|by eexists _, None].
  pose proof (ok_openai _ _ Hc o Eo) as Ho. unfold Adapters.OpenAI.new_OpenAIProvider.
  rewrite (Ht o eq_refl), timeout_accepted by apply Ho. cbn [negb mbind result_mbind].
  eexists _, (Some _). split; [done|]. split; [done|]. intros f [= <-]. split; [done|].
  intros m h Hm%elem_of_list_to_map_2. pose proof (ok_models _ Ho) as Hf. rewrite Forall_forall in Hf.
  destruct (Hf _ Hm) as [[Ha _] [Hb _]]. done.
Qed.

End Accepts.

(** ** The properties *)

(** A configuration that loads starts.  The constructors of the gateway's
    and the worker's components accept every loaded configuration (given a
    base URL the URL parser can extend and a fallback key that is a token),
    and the options they get satisfy what the theorems about the breaker, the
    limiter, the cache, the job store and the router assume; a job's lease
    outlives one call to each provider. *)
Theorem loaded_config_starts {env} (net : Adapters.network (@Router.process env)) url resolve sha256 e c :
  loadConfig url e = Ok c ->
  (forall x, sha256 x <> EmptyString) ->
  is_Some (resolve "api/chat" (Adapters.Ollama.normalizedBaseUrl (ollamaBaseUrl c))) ->
  (forall o, openai c = Some o -> Adapters.OpenAI.token (apiKey o) = true) ->
  exists g w,
    assemble_gateway net resolve sha256 c = Ok g /\ assemble_worker net resolve c = Ok w /\
    ConcurrencyLimiter.valid_options (gateway_limiter g) /\
    (forall o, gateway_cache g = Some o -> RedisCache.valid_options o) /\
    target_ok (gateway_primary g) /\
    (forall f, gateway_fallback g = Some f -> target_ok (Router.fallback_target f)) /\
    worker_store w = gateway_store g /\ 1 <= JobStore.maxAttempts (gateway_store g) /\
    ollamaRequestTimeoutMs c + match openai c with Some o => openai_requestTimeoutMs o | None => 0 end
      < JobStore.leaseMs (gateway_store g).
Proof.
  intros Hl Hs Hr Ht. apply loadConfig_ok in Hl as Hc.
  destruct (cache_accepts url c Hc sha256 (Hs _)) as (cache & Hcache & Hcv).
  destruct (createProvider_accepts url c Hc net resolve Hr Ht) as (primary & fallback & Hp & Hpv & Hfv).
  eexists _, _. unfold assemble_gateway, assemble_worker.
  rewrite Hcache. cbn [mbind result_mbind]. rewrite (limiter_accepts url c Hc). cbn [mbind result_mbind].
  rewrite Hp. cbn [mbind result_mbind]. split; [done|]. split; [done|].
  cbn [gateway_limiter gateway_cache gateway_primary gateway_fallback gateway_store worker_store].
  pose proof (ok_concurrency _ _ Hc). pose proof (ok_queue_size _ _ Hc).
  pose proof (ok_queue_timeout _ _ Hc). pose proof (ok_attempts _ _ Hc). unfold int32_positive in *.
  split; [repeat split; simpl; lia|]. split; [done|]. split; [done|].
  split; [intros f Hf; by apply Hfv|]. split; [done|]. cbn. unfold providerExecutionTimeoutMs. lia.
Qed.

(** ** A concrete start *)

Definition ex_network : Adapters.network (@Router.process ()) :=
  Adapters.mkNetwork _ Router.aborted (fun _ g => g) (fun _ => None) (fun g => g)
    (fun _ g => (None, g)) (fun g => g).
Definition ex_resolve (path base : string) : option string := Some (base +:+ path).
Definition ex_sha (s : string) : string := "h" +:+ s.

Lemma loaded_config_starts_witness :
  is_Ok (assemble_gateway ex_network ex_resolve ex_sha ex_config) = true /\
  exists g, assemble_gateway ex_network ex_resolve ex_sha ex_config = Ok g /\
    ConcurrencyLimiter.valid_options (gateway_limiter g).
Proof.
  split; [by vm_compute|].
  destruct (loaded_config_starts ex_network ex_scheme ex_resolve ex_sha ex_env ex_config)
    as (g & w & Hg & _ & Hv & _).
  - by vm_compute.
  - by intros x.
  - by eexists.
  - intros o [= <-]. by vm_compute.
  - eauto.
Defined.

End Startup.
