(* ===== verification/Deadlines.v ===== *)
(** * Deadlines and leases

    The time a provider call may take, followed through
    [src/src/providers/http-request.ts], the adapters and
    [src/src/providers/router.ts] up to the lease of a job
    ([providerExecutionTimeoutMs] of [src/src/config.ts], [leaseMs] of
    [src/src/worker.ts]), and what the lease is for: an attempt that ends
    within it is recorded.

    Timers and abort signals are the platform's: a wait that races with the
    call's deadline ends no later than the deadline, up to a scheduling delay
    [lag], and whatever runs before an [await] resumes takes at most [lag]. *)

From S2P Require Import Prelude JsNumber Errors Chat Provider CircuitBreaker Router Adapters Config JobStore JobSystem JobWorker Startup.
Import JsNumber Errors Chat Telemetry Provider CircuitBreaker.

Module Deadlines.

(** ** A network with a clock *)

Section Timed.
  Context {W : Type} (net : Adapters.network W) (clock deadline : W -> Q) (lag : Q).

Record timed : Prop := {
  begin_clock ms w : (clock (Adapters.begin_call net ms w) == clock w)%Q;
  begin_deadline ms w : (deadline (Adapters.begin_call net ms w) == clock w + inject_Z ms)%Q;
  end_clock w : (clock (Adapters.end_call net w) == clock w)%Q;
  elapse_deadline w : deadline (Adapters.elapse net w) = deadline w;
  elapse_bound w : (clock (Adapters.elapse net w) <= Qmax (clock w) (deadline w + lag))%Q;
  fetch_deadline r w : deadline (Adapters.fetch net r w).2 = deadline w;
  fetch_bound r w : (clock (Adapters.fetch net r w).2 <= Qmax (clock w) (deadline w + lag))%Q
}.

Context (Ht : timed) (Hlag : (0 <= lag)%Q).

(** The call begun with deadline [d] is not past it by more than a delay. *)
Definition within (d : Q) (w : W) : Prop := (deadline w == d /\ clock w <= d + lag)%Q.

Lemma within_elapse d w : within d w -> within d (Adapters.elapse net w).
Proof.
  intros [Hd Hc]. split; [by rewrite (elapse_deadline Ht)|].
  eapply Qle_trans; [apply (elapse_bound Ht)|]. apply Q.max_lub; [done|]. lra.
Qed.

Lemma within_fetch d r w : within d w -> within d (Adapters.fetch net r w).2.
Proof.
  intros [Hd Hc]. split; [by rewrite (fetch_deadline Ht)|].
  eapply Qle_trans; [apply (fetch_bound Ht)|]. apply Q.max_lub; [done|]. lra.
Qed.

(** An operation that keeps the deadline makes a call of bounded length. *)
Lemma deadline_bounds {T} provider ms (operation : W -> result error T * W) w r w' :
  0 <= ms ->
  (forall d w r w', within d w -> operation w = (r, w') -> within d w') ->
  Adapters.withProviderDeadline net provider ms operation w = (r, w') ->
  (clock w' <= clock w + inject_Z ms + lag)%Q.
Proof.
  intros Hms Hop. assert (0 <= inject_Z ms)%Q by (by rewrite <- (Zle_Qle 0)).
  unfold Adapters.withProviderDeadline. destruct (throwIfCancelled _).
  { intros [= _ <-]. lra. }
  destruct (operation _) as [r1 w1] eqn:E. intros [= _ <-]. rewrite (end_clock Ht).
  apply (Hop (clock w + inject_Z ms)%Q) in E as [_ Hc]; [done|].
  split; [apply (begin_deadline Ht)|]. rewrite (begin_clock Ht). lra.
Qed.

Lemma await_fetch_within provider ms request d w r w' :
  within d w -> Adapters.await_fetch net provider ms request w = (r, w') -> within d w'.
Proof.
  intros Hw. unfold Adapters.await_fetch. destruct (Adapters.signal _ _ _ w); [by intros [= _ <-]|].
  pose proof (within_fetch d request w Hw) as Hf.
  destruct (Adapters.fetch net request w) as [[resp|] w1]; by intros [= _ <-].
Qed.

Lemma await_json_within provider ms response d w r w' :
  within d w -> Adapters.await_json net provider ms response w = (r, w') -> within d w'.
Proof.
  intros Hw%within_elapse. unfold Adapters.await_json. cbv zeta.
  destruct (Adapters.signal _ _ _ _), (Adapters.body_json response); by intros [= _ <-].
Qed.

Lemma ollama_send_within self request stream d w r w' :
  within d w -> Adapters.Ollama.send net self request stream w = (r, w') -> within d w'.
Proof.
  intros Hw. unfold Adapters.Ollama.send. destruct (Adapters.await_fetch _ _ _ _ _) as [r1 w1] eqn:E.
  apply (await_fetch_within _ _ _ d) in E; [|done].
  destruct r1 as [e|response]; [by intros [= _ <-]|]. destruct (Adapters.ok response); [by intros [= _ <-]|].
  cbv zeta. intros [= _ <-]. by apply within_elapse.
Qed.

Lemma openai_send_within self request stream d w r w' :
  within d w -> Adapters.OpenAI.send net self request stream w = (r, w') -> within d w'.
Proof.
  intros Hw. unfold Adapters.OpenAI.send. destruct (Adapters.await_fetch _ _ _ _ _) as [r1 w1] eqn:E.
  apply (await_fetch_within _ _ _ d) in E; [|done].
  destruct r1 as [e|response]; [by intros [= _ <-]|]. by destruct (Adapters.ok response); intros [= _ <-].
Qed.

Lemma ollama_chat_bound self request w r w' :
  0 <= Adapters.Ollama.requestTimeoutMs self ->
  Adapters.Ollama.chat net self request w = (r, w') ->
  (clock w' <= clock w + inject_Z (Adapters.Ollama.requestTimeoutMs self) + lag)%Q.
Proof.
  intros Hms. apply deadline_bounds; [done|]. intros d w0 r0 w0' Hw.
  destruct (Adapters.Ollama.send _ _ _ _ _) as [r1 w1] eqn:E. apply (ollama_send_within _ _ _ d) in E; [|done].
  destruct r1 as [e|response]; [by intros [= _ <-]|].
  destruct (Adapters.await_json _ _ _ _ _) as [r2 w2] eqn:E2. apply (await_json_within _ _ _ d) in E2; [|done].
  destruct r2; by intros [= _ <-].
Qed.

Lemma openai_chat_bound self request w r w' :
  0 <= Adapters.OpenAI.requestTimeoutMs self ->
  Adapters.OpenAI.chat net self request w = (r, w') ->
  (clock w' <= clock w + inject_Z (Adapters.OpenAI.requestTimeoutMs self) + lag)%Q.
Proof.
  intros Hms. apply deadline_bounds; [done|]. intros d w0 r0 w0' Hw.
  destruct (Adapters.OpenAI.send _ _ _ _ _) as [r1 w1] eqn:E. apply (openai_send_within _ _ _ d) in E; [|done].
  destruct r1 as [e|response]; [by intros [= _ <-]|].
  destruct (Adapters.await_json _ _ _ _ _) as [r2 w2] eqn:E2. apply (await_json_within _ _ _ d) in E2; [|done].
  destruct r2; by intros [= _ <-].
Qed.

End Timed.

(** ** A routing pass *)

Section Pass.
  Context {env : Type} (primary : @Router.ProviderTarget env) (fallback : option (@Router.FallbackTarget env)).
  Context (yield : @Router.process env -> @Router.process env) (lag : Q).
  Context (Hyield : forall g, (Router.clock (yield g) <= Router.clock g + lag)%Q).
  Import Router.

(** A provider whose chat calls take at most [ms] and a delay. *)
Definition bounded (ms : Q) (t : ProviderTarget env) : Prop :=
  forall request g r g', provider_chat (target_provider t) request g = (r, g') ->
    (clock g' <= clock g + ms + lag)%Q.

Lemma clock_put t c (g : process env) : clock (put_circuit t c g) = clock g.
Proof. by destruct t. Qed.

Lemma call_bound t request ms p r p' :
  (0 <= lag)%Q -> (0 <= ms)%Q -> bounded ms (target_of primary fallback t) ->
  call primary fallback yield t (invoke_chat primary fallback t request) mode_chat p = (r, p') ->
  (clock (proc p') <= clock (proc p) + ms + 4 * lag)%Q.
Proof.
  intros Hlag Hms Hb. unfold call. cbv zeta.
  destruct (execute _ _ _ _ _ _ _ _ _) as [r1 [p1 b]] eqn:E. intros H.
  assert (clock (proc p') = clock (yield (proc p1))) as ->.
  { destruct r1 as [cause|x]; injection H as _ <-; [destruct (isCircuitOpen cause)|]; by destruct b. }
  pose proof (Hyield (proc p1)) as Hy. clear H.
  enough (clock (proc p1) <= clock (proc p) + ms + 3 * lag)%Q by lra.
  unfold execute in E. destruct (execute_begin _ _ _) as [e|[gen c]]; [injection E as _ <- _; lra|].
  destruct (attempt _ _ _ _ _) as [r2 [p2 b2]] eqn:Ea. injection E as _ <- _. cbn [proc on_proc fst].
  rewrite clock_put. pose proof (Hyield (proc p2)) as Hy2.
  enough (clock (proc p2) <= clock (proc p) + ms + 2 * lag)%Q by lra.
  unfold attempt in Ea. cbn [fst] in Ea. destruct (throwIfCancelled _) in Ea.
  { injection Ea as _ <- _. cbn [proc on_proc]. rewrite clock_put. lra. }
  unfold invoke_chat in Ea. cbv zeta in Ea.
  destruct (provider_chat _ _ _) as [r3 g] eqn:Ep in Ea. injection Ea as _ <- _.
  cbn [proc on_proc with_proc]. pose proof (Hyield g). apply Hb in Ep.
  cbn [proc on_proc append recordMetric] in Ep. rewrite clock_put in Ep. lra.
Qed.

Lemma chat_bound request ms ms' p r p' :
  (0 <= lag)%Q -> (0 <= ms)%Q -> (0 <= ms')%Q -> bounded ms primary ->
  (forall f, fallback = Some f -> bounded ms' (fallback_target f)) ->
  chat primary fallback yield request p = (r, p') ->
  (clock (proc p') <= clock (proc p) + ms + ms' + 9 * lag)%Q.
Proof.
  intros Hlag Hms Hms' Hb Hb'. unfold chat, route. destruct (throwIfCancelled _).
  { intros [= _ <-]. lra. }
  destruct (call _ _ _ _ _ _ _) as [r1 p1] eqn:Ec. apply (call_bound _ _ ms) in Ec; [|done..].
  pose proof (Hyield (proc p1)) as Hy. cbn [proc on_proc].
  destruct r1 as [e|x]; [|intros [= _ <-]; cbn [proc on_proc]; lra].
  destruct (throwIfCancelled _); [intros [= _ <-]; cbn [proc on_proc]; lra|].
  destruct (negb _ || _); [intros [= _ <-]; cbn [proc on_proc]; lra|].
  destruct fallback as [f|] eqn:Hf; [|intros [= _ <-]; cbn [proc on_proc]; lra].
  destruct (modelMap f !! _) as [m|]; [|intros [= _ <-]; cbn [proc on_proc]; lra].
  destruct (String.eqb m _); [intros [= _ <-]; cbn [proc on_proc]; lra|].
  intros H. rewrite <- Hf in H. apply (call_bound _ _ ms') in H; [|done..|].
  - cbn [proc on_proc recordMetric append] in H. lra.
  - cbn [target_of]. rewrite Hf. by apply Hb'.
Qed.

End Pass.

(** ** The providers of a configuration *)

Section Created.
  Context {env : Type} (net : Adapters.network (@Router.process env)) (deadline : @Router.process env -> Q)
    (lag : Q) (Ht : timed net Router.clock deadline lag) (Hlag : (0 <= lag)%Q).
  Context (resolve : string -> string -> option string).

Lemma created_bounds url e c primary fallback :
  Config.loadConfig url e = Ok c -> Startup.createProvider net resolve c = Ok (primary, fallback) ->
  bounded lag (inject_Z (Config.ollamaRequestTimeoutMs c)) primary /\
  (forall f, fallback = Some f -> exists o, Config.openai c = Some o /\
     bounded lag (inject_Z (Config.openai_requestTimeoutMs o)) (Router.fallback_target f)).
Proof.
  intros Hc%Config.loadConfig_ok. pose proof (Config.ok_ollama_timeout _ _ Hc) as Hm.
  unfold Startup.createProvider, Adapters.Ollama.new_OllamaProvider.
  destruct (negb _); [done|]. destruct (resolve _ _) as [u|]; [|done]. cbn [mbind result_mbind].
  rewrite of_Z_toZ. destruct (Startup.breaker_of c) as [|b]; [done|]. cbn [mbind result_mbind].
  assert (bounded lag (inject_Z (Config.ollamaRequestTimeoutMs c)) (Router.mkTarget "ollama"
    (Adapters.Ollama.provider net (Adapters.Ollama.mkOllama u (Config.ollamaRequestTimeoutMs c))) b)) as Hp.
  { intros request g r g' H. eapply (ollama_chat_bound net Router.clock deadline lag Ht Hlag) in H; [done|].
    cbn. unfold Config.int32_positive in Hm. lia. }
  destruct (Config.openai c) as [o|] eqn:Eo; [|intros [= <- <-]; split; [exact Hp|done]].
  pose proof (Config.ok_openai_timeout _ (Config.ok_openai _ _ Hc o Eo)) as Hm'.
  unfold Adapters.OpenAI.new_OpenAIProvider. destruct (negb _); [done|]. destruct (negb _); [done|].
  cbn [mbind result_mbind]. rewrite of_Z_toZ. intros [= <- <-]. split; [exact Hp|].
  intros f [= <-]. exists o. split; [done|]. intros request g r g' H.
  eapply (openai_chat_bound net Router.clock deadline lag Ht Hlag) in H; [done|].
  cbn. unfold Config.int32_positive in Hm'. lia.
Qed.

End Created.

(** ** The properties *)

(** C13: an attempt ends within its lease.  With the providers of a loaded
    configuration, whatever the upstreams do, the inference of a job (one call
    to the primary and, when it fails over, one to the fallback) leaves thirty
    seconds of the job's lease, less nine times the delay by which the event
    loop may be late, for the database. *)
Theorem attempt_fits_lease {env} (net : Adapters.network (@Router.process env)) deadline lag resolve url e c w
    yield job p r p' :
  timed net Router.clock deadline lag -> (0 <= lag)%Q ->
  (forall g, (Router.clock (yield g) <= Router.clock g + lag)%Q) ->
  Config.loadConfig url e = Ok c -> Startup.assemble_worker net resolve c = Ok w ->
  JobWorker.inference_processor
    (Router.chat (Startup.worker_primary w) (Startup.worker_fallback w) yield) job p = (r, p') ->
  (Router.clock (Router.proc p') + (30000 - 9 * lag) <=
     Router.clock (Router.proc p) + inject_Z (JobStore.leaseMs (Startup.worker_store w)))%Q.
Proof.
  intros Ht Hlag Hy Hc Hw H. unfold Startup.assemble_worker in Hw.
  destruct (Startup.createProvider net resolve c) as [|[primary fallback]] eqn:Hp; [done|].
  injection Hw as <-. cbn [Startup.worker_primary Startup.worker_fallback Startup.worker_store] in *.
  destruct (created_bounds net deadline lag Ht Hlag resolve url e c primary fallback Hc Hp) as [H1 H2].
  apply Config.loadConfig_ok in Hc. pose proof (Config.ok_ollama_timeout _ _ Hc) as Hm.
  unfold JobWorker.inference_processor in H.
  destruct (Router.chat primary fallback yield _ p) as [r1 p1] eqn:E.
  assert (p' = p1) as -> by (by destruct r1; injection H).
  apply (chat_bound primary fallback yield lag Hy _ (inject_Z (Config.ollamaRequestTimeoutMs c))
    (inject_Z match Config.openai c with Some o => Config.openai_requestTimeoutMs o | None => 0 end)) in E;
    [|done|rewrite <- (Zle_Qle 0); unfold Config.int32_positive in Hm; lia| |done|].
  - cbn [Startup.store_of JobStore.leaseMs]. unfold Config.providerExecutionTimeoutMs.
    rewrite !inject_Z_plus. change (inject_Z 30000) with (30000%Q). lra.
  - rewrite <- (Zle_Qle 0). destruct (Config.openai c) as [o|] eqn:Eo; [|lia].
    pose proof (Config.ok_openai_timeout _ (Config.ok_openai _ _ Hc o Eo)) as Hm'.
    unfold Config.int32_positive in Hm'. lia.
  - intros f Hf. destruct (H2 f Hf) as (o & -> & Hb). done.
Qed.

(** ** A scenario: both upstreams hang until their deadlines *)

(** The process keeps the deadline of the call; [fetch] hangs. *)
Definition ex_hang (g : @Router.process Q) : @Router.process Q :=
  Router.mkProcess (Router.primary_circuit g) (Router.fallback_circuit g)
    (Qmax (Router.clock g) (Router.others g)) (Router.aborted g) (Router.others g).
Definition ex_net : Adapters.network (@Router.process Q) :=
  Adapters.mkNetwork _ Router.aborted
    (fun ms g => Router.mkProcess (Router.primary_circuit g) (Router.fallback_circuit g) (Router.clock g)
       (Router.aborted g) (Router.clock g + inject_Z ms)%Q)
    (fun g => if Router.others g <=q Router.clock g then Some Adapters.DeadlinePassed else None)
    (fun g => g) (fun _ g => (None, ex_hang g)) ex_hang.
Definition ex_start : @Router.pass Q :=
  Router.mkPass (Router.mkProcess CircuitBreaker.initial CircuitBreaker.initial 0 false 0%Q) false [].
Definition ex_job : JobStore.ProcessingJob ChatRequest :=
  JobStore.mkProcessing (JobStore.mkReceipt "job-1" "req-1") "alice"
    (mkChatRequest "llama3" [mkChatMessage user "hi"]) 1 None.

Lemma ex_net_timed : timed ex_net Router.clock Router.others 0.
Proof.
  split; intros; cbn; try reflexivity.
  - apply Q.max_lub; [apply Q.le_max_l|]. eapply Qle_trans; [|apply Q.le_max_r]. lra.
  - apply Q.max_lub; [apply Q.le_max_l|]. eapply Qle_trans; [|apply Q.le_max_r]. lra.
Qed.

Lemma attempt_fits_lease_witness :
  exists w, Startup.assemble_worker ex_net Startup.ex_resolve Config.ex_config = Ok w /\
    let p' := (JobWorker.inference_processor
      (Router.chat (Startup.worker_primary w) (Startup.worker_fallback w) id) ex_job ex_start).2 in
    Router.clock (Router.proc p') = 150000%Q /\
    (Router.clock (Router.proc p') + (30000 - 9 * 0) <=
       0 + inject_Z (JobStore.leaseMs (Startup.worker_store w)))%Q.
Proof.
  eexists. split; [reflexivity|]. cbv zeta. split; [by vm_compute|].
  eapply (attempt_fits_lease ex_net Router.others 0 Startup.ex_resolve Config.ex_scheme Config.ex_env
    Config.ex_config _ id ex_job ex_start).
  - apply ex_net_timed.
  - by vm_compute.
  - intros g. unfold id. lra.
  - by vm_compute.
  - reflexivity.
  - apply surjective_pairing.
Defined.

End Deadlines.
