(* ===== verification/Streaming.v ===== *)
(** * A streamed answer from end to end

    The composition of [src/src/routes/chat.ts] over
    [src/src/providers/router.ts] over the adapters of
    [src/src/providers/ollama.ts] and [src/src/providers/openai.ts]: what the
    bytes a model server sends become on the wire to the client.  The
    streaming endpoint of [ChatRoute] is run on the [ProviderRouter] of
    [RouterProvider], whose targets are the adapters of [Adapters].

    The requests followed here are undisturbed: the client stays, the
    response takes what is written, capacity is granted and no deadline
    passes ([undisturbed]); the router's circuits, the clock and all the rest
    of the process may change at every [await]. *)

From S2P Require Import Prelude JsNumber Utf8 Errors Chat Provider CircuitBreaker Router RouterProvider Json StreamParser Adapters ChatRoute.
Import JsNumber Utf8 Errors Chat Telemetry Provider CircuitBreaker Router RouterProvider Json StreamParser Adapters.

Module Streaming.

(** The non-empty pieces of a stream. *)
Definition pieces (cs : list string) : list string := filter (fun c => c <> EmptyString) cs.
Definition some_piece (cs : list string) : bool := match pieces cs with [] => false | _ => true end.

(** ** The router *)

Section Routed.
  Context {env : Type}.
  Abbreviation process := (Router.process env).
  Abbreviation pass := (Router.pass env).
  Context (primary : ProviderTarget env) (fallback : option (FallbackTarget env)).
  Context (yield : process -> process) (calm : process -> Prop).
  Context (calm_wanted : forall g, calm g -> aborted g = false).
  Context (calm_yield : forall g, calm g -> calm (yield g)).

Lemma consume_delivers s cs r :
  delivers calm s (cs, r) -> forall p k out,
  (forall p', calm (proc p') -> emitted p' = emitted p || some_piece cs -> delivers calm (k r p') out) ->
  delivers calm (consume_script yield s p k) (pieces cs ++ out.1, out.2).
Proof.
  intros Hs. remember (cs, r) as o eqn:Ho. revert cs r Ho.
  induction Hs as [r0 w Hw|c w next l r0 Hw _ IH]; intros cs r [= <- <-] p k out Hk;
    cbn [consume_script].
  - cbn [pieces filter list_filter app]. rewrite <- surjective_pairing. apply Hk; [done|].
    by rewrite orb_false_r.
  - unfold throwIfCancelled. cbn [proc with_proc on_proc]. rewrite calm_wanted by done.
    unfold pieces in *. destruct (String.eqb c EmptyString) eqn:Ec.
    + apply String.eqb_eq in Ec as ->. rewrite filter_cons_False by naive_solver.
      eapply IH; [by auto|done|]. intros p' Hp' He. apply Hk; [done|]. rewrite He. done.
    + apply String.eqb_neq in Ec. rewrite filter_cons_True by done. constructor; [done|].
      intros w' Hw'. eapply IH; [by auto|done|]. intros p' Hp' He. apply Hk; [done|].
      rewrite He. cbn. unfold some_piece, pieces. rewrite filter_cons_True by done.
      by rewrite orb_true_r.
Qed.

(** What the caller of [call] sees of a result. *)
Definition translated (t : which) (r : result error ()) : result error () :=
  match r with
  | Ok x => Ok x
  | Err e => Err (translate (target_name (target_of primary fallback t)) e)
  end.

Definition settled (t : which) (r : result error ()) (now : Q) (gen : Z) (g : process) : process :=
  put_circuit t (execute_settle (target_circuit (target_of primary fallback t))
    isRetryableProviderError isIgnoredError now gen r (get_circuit t g)) g.

Lemma put_get_circuit t (g : process) : put_circuit t (get_circuit t g) g = g.
Proof. by destruct t, g. Qed.

(** A call whose circuit is closed hands over the pieces of the provider. *)
Lemma call_delivers t request f cs r p k out :
  provider_stream (target_provider (target_of primary fallback t)) = Some f ->
  (forall g, calm g -> delivers calm (f request g) (cs, r)) ->
  (forall g now gen, calm g -> calm (settled t r now gen g)) ->
  calm (proc p) -> state (get_circuit t (proc p)) = closed ->
  (forall p', calm (proc p') -> emitted p' = emitted p || some_piece cs ->
     delivers calm (k (translated t r) p') out) ->
  delivers calm (call_script primary fallback yield t request p k) (pieces cs ++ out.1, out.2).
Proof.
  intros Hf Hd Hset Hp Hc Hk. unfold call_script. rewrite execute_begin_closed by done.
  cbv zeta. cbn [proc on_proc]. rewrite put_get_circuit. unfold throwIfCancelled at 1.
  rewrite calm_wanted, Hf by done. apply (consume_delivers _ cs r);
    [apply Hd; cbn; by rewrite put_get_circuit|].
  intros p' Hp' He. unfold after_attempt, throwIfCancelled. cbn [proc on_proc].
  rewrite calm_wanted by auto. unfold after_call, after_execute. cbn [proc on_proc].
  assert (forall g now gen, calm g -> calm (yield (settled t r now gen g))) as Hs by auto.
  unfold settled in Hs. cbv zeta. destruct r as [e|x]; apply Hk.
  - destruct (isCircuitOpen e); apply Hs; cbn; auto.
  - by destruct (isCircuitOpen e).
  - apply Hs. cbn. auto.
  - done.
Qed.

(** The primary's answer is the answer, unless it failed before any content
    in a way that allows the fallback. *)
Lemma route_delivers_primary request f cs r g :
  provider_stream (target_provider primary) = Some f ->
  (forall g, calm g -> delivers calm (f request g) (cs, r)) ->
  (forall g now gen, calm g -> calm (settled Primary r now gen g)) ->
  calm g -> state (primary_circuit g) = closed ->
  (forall e, r = Err e -> some_piece cs = true \/ isRetryableProviderError e = false /\ isCircuitOpen e = false) ->
  delivers calm (stream_script primary fallback yield request g) (pieces cs, translated Primary r).
Proof.
  intros Hf Hd Hset Hg Hc Hr. unfold stream_script, route_script, throwIfCancelled. cbn [proc].
  rewrite calm_wanted by done. rewrite <- (app_nil_r (pieces cs)).
  apply (call_delivers Primary request f cs r _ _ ([], translated Primary r)); try done.
  intros p' Hp' He. cbn [proc on_proc emitted] in *. destruct r as [e|x]; cbn [translated].
  - rewrite calm_wanted by auto. rewrite He.
    destruct (Hr e eq_refl) as [->|[Hn Ho]]; [constructor; auto|].
    replace (isRetryableProviderError (translate _ e)) with false by (by destruct e).
    rewrite orb_true_r. constructor. auto.
  - destruct x. constructor. auto.
Qed.

(** The fallback answers in place of a primary that failed so. *)
Lemma route_delivers_fallback request f f2 fb m e cs r g :
  provider_stream (target_provider primary) = Some f ->
  (forall g, calm g -> delivers calm (f request g) ([], Err e)) ->
  isRetryableProviderError e = true ->
  fallback = Some fb -> modelMap fb !! model request = Some m -> m <> EmptyString ->
  provider_stream (target_provider (fallback_target fb)) = Some f2 ->
  (forall g, calm g -> delivers calm (f2 (with_model m request) g) (cs, r)) ->
  (forall g now gen, calm g -> calm (settled Primary (Err e) now gen g)) ->
  (forall g now gen, calm g -> calm (settled Fallback r now gen g)) ->
  calm g -> state (primary_circuit g) = closed ->
  (forall g, calm g -> state (fallback_circuit g) = closed) ->
  delivers calm (stream_script primary fallback yield request g) (pieces cs, translated Fallback r).
Proof.
  intros Hf Hd He Hfb Hm Hne Hf2 Hd2 Hset Hset2 Hg Hc Hc2.
  unfold stream_script, route_script, throwIfCancelled. cbn [proc]. rewrite calm_wanted by done.
  apply (call_delivers Primary request f [] (Err e) _ _ (pieces cs, translated Fallback r)); try done.
  intros p' Hp' Hem. cbn [proc on_proc emitted translated] in *. rewrite calm_wanted by auto.
  replace (isRetryableProviderError (translate _ e)) with true by (by destruct e).
  rewrite Hem, Hfb, Hm. apply String.eqb_neq in Hne as ->. cbn [orb negb]. rewrite <- Hfb.
  rewrite <- (app_nil_r (pieces cs)).
  apply (call_delivers Fallback (with_model m request) f2 cs r _ _ ([], translated Fallback r)); try done.
  - by rewrite Hfb.
  - cbn. auto.
  - cbn. auto.
  - intros p2 Hp2 _. by constructor.
Qed.

End Routed.

(** ** The endpoint *)

(** In calm worlds the client stays and takes what is written, and capacity is
    granted. *)
Record undisturbed {W} (srv : ChatRoute.services W) (calm : W -> Prop) : Prop := {
  calm_present w : calm w -> ChatRoute.aborted srv w = false;
  calm_open w : calm w -> ChatRoute.destroyed srv w = false;
  calm_drained w : calm w -> ChatRoute.writableNeedDrain srv w = false;
  calm_resumed w : calm w -> calm (ChatRoute.yield srv w);
  calm_written e w : calm w -> exists w', ChatRoute.write srv e w = (true, w') /\ calm w';
  calm_acquired w : calm w -> exists w', ChatRoute.acquire srv w = (Ok (), w') /\ calm w'
}.

(** What has been sent when these pieces have been. *)
Definition shown (cs : list string) : list ChatRoute.sent :=
  match cs with [] => [] | _ => ChatRoute.Head :: ChatRoute.deltas cs end.

Section Endpoint.
  Context {W : Type} (srv : ChatRoute.services W) (calm : W -> Prop).
  Context (Hu : undisturbed srv calm).
  Abbreviation act := (ChatRoute.activation W).

(** The activation while it has sent exactly these pieces. *)
Definition wire (a : act) (cs : list string) : Prop :=
  calm (ChatRoute.world a) /\ ChatRoute.outcome a = stream_failed /\
  ChatRoute.sent_view (ChatRoute.trace a) = shown cs /\
  ChatRoute.started a = match cs with [] => false | _ => true end.

Lemma wire_world a cs w : wire a cs -> calm w -> wire (ChatRoute.set_world w a) cs.
Proof. intros (_ & H) Hw. by split. Qed.

Lemma writeSse_calm e a :
  calm (ChatRoute.world a) ->
  exists w, calm w /\
    ChatRoute.writeSse srv e a = (Ok (), ChatRoute.record (ChatRoute.Sse e) (ChatRoute.set_world w a)).
Proof.
  intros Ha. unfold ChatRoute.writeSse. rewrite (calm_present _ _ Hu), (calm_open _ _ Hu) by done.
  destruct (calm_written _ _ Hu e _ Ha) as (w & -> & Hw). eexists. split; [|done].
  by apply (calm_resumed _ _ Hu).
Qed.

Lemma start_calm a :
  calm (ChatRoute.world a) ->
  ChatRoute.start_response srv a =
    (Ok (), if ChatRoute.started a then a
            else ChatRoute.set_started (ChatRoute.record ChatRoute.HeadersSent a)).
Proof.
  intros Ha. unfold ChatRoute.start_response, ChatRoute.throw_if_cancelled, ChatRoute.modify,
    mbind, ChatRoute.M_bind. by rewrite (calm_present _ _ Hu).
Qed.

Lemma shown_snoc cs c :
  shown (cs ++ [c]) = (match cs with [] => [ChatRoute.Head] | _ => shown cs end)
    ++ [ChatRoute.Event (ChatRoute.sse_delta c)].
Proof. destruct cs as [|c0 cs]; [done|]. simpl. unfold ChatRoute.deltas. by rewrite map_app. Qed.

Lemma onDelta_wire c a cs :
  wire a cs -> exists a', ChatRoute.onDelta srv c a = (Ok (), a') /\ wire a' (cs ++ pieces [c]).
Proof.
  intros Ha. unfold ChatRoute.onDelta, pieces. destruct (String.eqb c EmptyString) eqn:Ec.
  { apply String.eqb_eq in Ec as ->. exists a. rewrite filter_cons_False by naive_solver.
    by rewrite app_nil_r. }
  apply String.eqb_neq in Ec. rewrite filter_cons_True by done. cbn [filter list_filter].
  destruct Ha as (Hw & Ho & Hv & Hst). unfold mbind, ChatRoute.M_bind. rewrite start_calm by done.
  unfold ChatRoute.catch.
  set (b := if ChatRoute.started a then a else _).
  assert (calm (ChatRoute.world b)) as Hb by (unfold b; by destruct (ChatRoute.started a)).
  destruct (writeSse_calm (ChatRoute.sse_delta c) b Hb) as (w & Hcw & ->).
  eexists. split; [done|]. split; [done|]. split; [unfold b; by destruct (ChatRoute.started a)|].
  cbn. rewrite ChatRoute.sent_view_app, shown_snoc. subst b. rewrite Hst.
  split; [|destruct cs; done]. destruct cs; [|by rewrite Hv].
  cbn. by rewrite ChatRoute.sent_view_app, Hv.
Qed.

(** A stream that delivers these pieces writes them. *)
Lemma run_wire s cs r :
  delivers calm s (cs, r) -> forall a cs0, wire a cs0 ->
  exists a', run_script ChatRoute.world ChatRoute.set_world (ChatRoute.yield srv)
               (ChatRoute.onDelta srv) s a = (r, a') /\ wire a' (cs0 ++ pieces cs).
Proof.
  intros Hs. remember (cs, r) as o eqn:Ho. revert cs r Ho.
  induction Hs as [r0 w Hw|c w next l r0 Hw _ IH]; intros cs r [= <- <-] a cs0 Ha; cbn [run_script].
  - eexists. split; [done|]. cbn. rewrite app_nil_r. by apply wire_world.
  - destruct (onDelta_wire c (ChatRoute.set_world w a) cs0) as (a1 & -> & H1); [by apply wire_world|].
    destruct (IH (ChatRoute.yield srv (ChatRoute.world a1)) (calm_resumed _ _ Hu _ (proj1 H1))
      l r0 eq_refl a1 _ H1) as (a' & -> & Ha').
    eexists. split; [done|]. unfold pieces in *. change (c :: l) with ([c] ++ l).
    by rewrite filter_app, app_assoc.
Qed.

(** What the client gets of a stream with these pieces and this end: the
    answer of the handler, what is on the wire, and the recorded outcome. *)
Definition told (cs : list string) (r : result error ()) :
    result error () * list ChatRoute.sent * StreamOutcome :=
  match r, cs with
  | Ok _, _ =>
      (Ok (), ChatRoute.Head :: ChatRoute.deltas cs ++ [ChatRoute.Event ChatRoute.sse_done],
       stream_completed)
  | Err e, [] => (Err e, [], stream_failed)
  | Err e, _ =>
      (Ok (), ChatRoute.Head :: ChatRoute.deltas cs ++
         [ChatRoute.Event (ChatRoute.sse_error (ChatRoute.error_code e))], stream_failed)
  end.

Definition observed (r : result error ()) (a : act) :
    result error () * list ChatRoute.sent * StreamOutcome :=
  (r, ChatRoute.sent_view (ChatRoute.trace a), ChatRoute.outcome a).

Lemma observed_cleanup r a : observed r (ChatRoute.stream_cleanup srv a) = observed r a.
Proof.
  unfold observed, ChatRoute.stream_cleanup, ChatRoute.release_if_held. cbn.
  destruct (ChatRoute.permit a); cbn; by rewrite !ChatRoute.sent_view_app, ?app_nil_r.
Qed.

Lemma finish_wire a cs :
  wire a cs -> exists a',
  (ChatRoute.start_response srv;; ChatRoute.writeSse srv ChatRoute.sse_done;;
   ChatRoute.modify (fun s => ChatRoute.record ChatRoute.Ended
     (ChatRoute.set_outcome stream_completed s))) a = (Ok (), a') /\
  observed (Ok ()) a' = told cs (Ok ()).
Proof.
  intros (Hw & Ho & Hv & Hst). unfold mbind, ChatRoute.M_bind, ChatRoute.modify. rewrite start_calm by done.
  set (b := if ChatRoute.started a then a else _).
  assert (calm (ChatRoute.world b)) as Hb by (unfold b; by destruct (ChatRoute.started a)).
  destruct (writeSse_calm ChatRoute.sse_done b Hb) as (w & Hcw & ->).
  eexists. split; [done|]. unfold observed, told. cbn.
  rewrite !ChatRoute.sent_view_app, ?app_nil_r. subst b. rewrite Hst.
  destruct cs; [|by rewrite Hv]. cbn. by rewrite ChatRoute.sent_view_app, Hv.
Qed.

Lemma failure_wire e a cs :
  wire a cs -> e <> RequestAbortedError ->
  exists r a', ChatRoute.stream_failure srv e a = (r, a') /\ observed r a' = told cs (Err e).
Proof.
  intros (Hw & Ho & Hv & Hst) He. unfold ChatRoute.stream_failure.
  replace (isRequestAborted e) with false by (by destruct e). rewrite (calm_present _ _ Hu) by done.
  unfold observed. rewrite Hst. destruct cs as [|c cs]; cbn [orb negb].
  { eexists _, _. split; [done|]. by rewrite Hv, Ho. }
  rewrite (calm_drained _ _ Hu) by done. unfold ChatRoute.catch, mbind, ChatRoute.M_bind.
  destruct (writeSse_calm (ChatRoute.sse_error (ChatRoute.error_code e)) a Hw) as (w & Hcw & ->).
  eexists _, _. split; [done|]. cbn. rewrite !ChatRoute.sent_view_app, Hv, Ho. cbn.
  by rewrite app_nil_r.
Qed.

(** The streaming endpoint on a provider that delivers these pieces. *)
Lemma handler_tells req f w cs r :
  ChatRoute.provider srv = f -> calm w ->
  (forall e, r = Err e -> e <> RequestAbortedError) ->
  (forall w', ChatRoute.acquire srv w = (Ok (), w') ->
     exists st, provider_stream f = Some st /\
       delivers calm (st (ChatRoute.body req) (ChatRoute.yield srv w')) (cs, r)) ->
  let '(out, a) := ChatRoute.stream_handler srv req (ChatRoute.enter w) in
  observed out a = told (pieces cs) r.
Proof.
  intros Hf Hw Hne Hd. unfold ChatRoute.stream_handler, ChatRoute.finally, ChatRoute.catch.
  unfold ChatRoute.stream_body, ChatRoute.acquire_permit, ChatRoute.await, mbind, ChatRoute.M_bind,
    ChatRoute.modify, ChatRoute.throw_if_cancelled. cbn.
  destruct (calm_acquired _ _ Hu w Hw) as (w' & Hacq & Hw'). rewrite Hacq. cbn.
  rewrite (calm_present _ _ Hu) by (by apply (calm_resumed _ _ Hu)). cbn.
  destruct (Hd w' Hacq) as (st & Hst & Hs). rewrite Hf, Hst. unfold ChatRoute.run_stream. cbn.
  match goal with |- context [run_script _ _ _ _ _ ?a0] =>
    destruct (run_wire _ cs r Hs a0 []) as (a1 & -> & Ha1) end.
  { repeat split; try done. cbn. by apply (calm_resumed _ _ Hu). }
  apply (wire_world _ _ (ChatRoute.yield srv (ChatRoute.world a1))) in Ha1;
    [|apply (calm_resumed _ _ Hu), (proj1 Ha1)].
  destruct r as [e|[]].
  - destruct (failure_wire e _ _ Ha1 (Hne e eq_refl)) as (r & a' & -> & Ho).
    by rewrite observed_cleanup.
  - destruct (finish_wire _ _ Ha1) as (a' & Hfin & Ho).
    unfold mbind, ChatRoute.M_bind, ChatRoute.modify in Hfin. rewrite Hfin. by rewrite observed_cleanup.
Qed.

End Endpoint.

(** ** The adapters *)

(** In calm worlds the caller stays and the deadline is not reached. *)
Record unhurried {W} (net : network W) (calm : W -> Prop) : Prop := {
  calm_parent w : calm w -> parent_aborted net w = false;
  calm_deadline w : calm w -> cause net w = None;
  calm_begin ms w : calm w -> calm (begin_call net ms w);
  calm_end w : calm w -> calm (end_call net w);
  calm_elapse w : calm w -> calm (elapse net w)
}.

(** The server answers every request with a body that arrives in these
    chunks, or refuses every connection. *)
Definition serves {W} (net : network W) (calm : W -> Prop) (chunks : list text) : Prop :=
  forall g, calm g -> exists g1, calm g1 /\ answers net g1 chunks g.
Definition refuses {W} (net : network W) (calm : W -> Prop) : Prop :=
  forall q g, calm g -> exists g1, calm g1 /\ fetch net q g = (None, g1).

(** What a body means, read as a stream of each kind. *)
Definition ollama_answer (t : text) : list string * result error () :=
  let '(lines, r) := reference "Ollama" t in Ollama.line_contents lines r.
Definition openai_answer (t : text) : list string * result error () :=
  let '(lines, r) := reference "OpenAI" t in
  let '(events, r') := sse_events "OpenAI" lines r [] 0 in
  OpenAI.event_contents events r' false.

(** Only pieces, and no failure but that the response is invalid or its
    finish reason has no text. *)
Definition answer_error (provider : string) (e : error) : Prop :=
  e = ProviderResponseError provider \/ e = OpenAI.conversion_error.
Definition answer_ok (provider : string) (out : list string * result error ()) : Prop :=
  pieces out.1 = out.1 /\ forall e, out.2 = Err e -> answer_error provider e.

Lemma pieces_app a b : pieces (a ++ b) = pieces a ++ pieces b.
Proof. apply filter_app. Qed.

Lemma answer_ok_piece provider content cs r :
  answer_ok provider (cs, r) ->
  answer_ok provider ((if String.eqb content EmptyString then [] else [content]) ++ cs, r).
Proof.
  intros [Hp He]. split; [|done]. cbn [fst snd] in *. rewrite pieces_app, Hp. f_equal.
  destruct (String.eqb content EmptyString) eqn:E; [done|]. unfold pieces.
  by rewrite filter_cons_True by by apply String.eqb_neq.
Qed.

Lemma check_error provider ls tail :
  (forall e, tail.2 = Err e -> e = ProviderResponseError provider) ->
  forall e, (check provider ls tail).2 = Err e -> e = ProviderResponseError provider.
Proof.
  intros Ht. induction ls as [|l ls IH]; [done|]. cbn [check].
  destruct (too_long l); [by intros e [= <-]|]. by destruct (check provider ls tail).
Qed.

Lemma reference_error provider t e :
  (reference provider t).2 = Err e -> e = ProviderResponseError provider.
Proof.
  unfold reference. destruct (split_lines [] t) as [ls rest]. apply check_error. clear.
  intros e. unfold final. destruct (too_long rest); [by intros [= <-]|]. by destruct rest.
Qed.

Lemma sse_events_error provider ls r data size :
  (forall e, r = Err e -> e = ProviderResponseError provider) ->
  forall e, (sse_events provider ls r data size).2 = Err e -> e = ProviderResponseError provider.
Proof.
  intros Hr. revert data size. induction ls as [|[|c l] ls IH]; intros data size; cbn [sse_events]; [done| |].
  - destruct data; [apply IH|]. pose proof (IH [] 0) as IH'.
    by destruct (sse_events provider ls r [] 0).
  - destruct (data_field (c :: l)); [|apply IH]. cbv zeta. case_match; [by intros e [= <-]|apply IH].
Qed.

Lemma ollama_answer_ok t : answer_ok "Ollama" (ollama_answer t).
Proof.
  unfold ollama_answer. pose proof (reference_error "Ollama" t) as Hr.
  destruct (reference "Ollama" t) as [lines r]. cbn [snd] in Hr.
  induction lines as [|l lines IH]; cbn [Ollama.line_contents].
  { split; [done|]. cbn. destruct r; [left; auto|by intros e [= <-]; left]. }
  destruct (blank l); [done|]. destruct (Ollama.read_line l) as [e|[content d]] eqn:El.
  { apply read_line_error in El as ->. split; [done|]. intros e [= <-]. by left. }
  cbv zeta. destruct d.
  - rewrite <- (app_nil_r (if String.eqb _ _ then _ else _)). by apply answer_ok_piece.
  - destruct (Ollama.line_contents lines r) as [cs r']. by apply answer_ok_piece.
Qed.

Lemma openai_answer_ok t : answer_ok "OpenAI" (openai_answer t).
Proof.
  unfold openai_answer. pose proof (reference_error "OpenAI" t) as Hr.
  destruct (reference "OpenAI" t) as [lines r]. cbn [snd] in Hr.
  pose proof (sse_events_error "OpenAI" lines r [] 0 (fun e H => Hr e H)) as Hs.
  destruct (sse_events "OpenAI" lines r [] 0) as [events r']. cbn [snd] in Hs.
  enough (forall f, answer_ok "OpenAI" (OpenAI.event_contents events r' f)) by auto.
  induction events as [|ev events IH]; intros f; cbn [OpenAI.event_contents].
  { split; [done|]. cbn. destruct r'; [left; auto|by intros e [= <-]; left]. }
  destruct (OpenAI.is_done ev).
  { split; [done|]. cbn. destruct f; [done|by intros e [= <-]; left]. }
  pose proof (read_event_error f ev) as He.
  destruct (OpenAI.read_event f ev) as [e|[[content finish]|]]; [|cbv zeta|apply IH].
  { subst e. split; [done|]. intros e [= <-]. by left. }
  destruct finish as [e|f'].
  - rewrite <- (app_nil_r (if String.eqb _ _ then _ else _)). apply answer_ok_piece.
    split; [done|]. by intros e' [= <-].
  - specialize (IH (f || f')). destruct (OpenAI.event_contents events r' (f || f')) as [cs r''].
    by apply answer_ok_piece.
Qed.

(** ** The composition *)

Section Composed.
  Context {env : Type}.
  Abbreviation process := (Router.process env).
  Context (primary : ProviderTarget env) (fallback : option (FallbackTarget env)).
  Context (srv : ChatRoute.services process) (calm : process -> Prop).
  Context (Hsrv : ChatRoute.provider srv = ProviderRouter primary fallback (ChatRoute.yield srv)).
  Context (Hu : undisturbed srv calm).
  Context (Hwanted : forall g, calm g -> aborted g = false).
  Context (Hprimary : forall g c, calm g -> calm (put_circuit Primary c g)).
  Context (req : ChatRoute.HttpRequest) (w : process).
  Context (Hw : calm w).
  Context (Hclosed : forall g, ChatRoute.acquire srv w = (Ok (), g) ->
    state (primary_circuit (ChatRoute.yield srv g)) = closed).

(** What the endpoint does with what the router delivers. *)
Lemma endpoint_tells cs r :
  (forall e, r = Err e -> e <> RequestAbortedError) ->
  (forall g, calm g -> state (primary_circuit g) = closed ->
     delivers calm (stream_script primary fallback (ChatRoute.yield srv) (ChatRoute.body req) g) (cs, r)) ->
  let '(out, a) := ChatRoute.stream_handler srv req (ChatRoute.enter w) in
  observed out a = told (pieces cs) r.
Proof.
  intros Hr Hd. apply (handler_tells srv calm Hu req _ w cs r Hsrv Hw Hr).
  intros g Hg. eexists. split; [done|]. apply Hd; [|by apply Hclosed].
  destruct (calm_acquired _ _ Hu w Hw) as (g' & Hg' & Hc). rewrite Hg in Hg'. injection Hg' as <-.
  by apply (calm_resumed _ _ Hu).
Qed.

Section Primary.
  Context (net : network process) (self : Ollama.OllamaProvider).
  Context (Htarget : target_provider primary = Ollama.provider net self).
  Context (Hnet : unhurried net calm).

Lemma ollama_serves_delivers chunks t g :
  serves net calm chunks -> decode_fatal (concat chunks) = Some t -> calm g ->
  delivers calm (Ollama.stream net self (ChatRoute.body req) g) (ollama_answer t).
Proof.
  intros Hs Hd Hg. destruct (Hs (begin_call net (Ollama.requestTimeoutMs self) g)) as (g1 & H1 & Ha).
  { by apply (calm_begin _ _ Hnet). }
  apply (ollama_stream_delivers net calm (calm_deadline _ _ Hnet) (calm_end _ _ Hnet)
    (calm_elapse _ _ Hnet) (ChatRoute.body req) g g1 chunks t); try done.
  - by apply (calm_parent _ _ Hnet).
  - by apply (calm_begin _ _ Hnet).
Qed.

Lemma ollama_refuses_delivers g :
  refuses net calm -> calm g ->
  delivers calm (Ollama.stream net self (ChatRoute.body req) g)
    ([], Err (ProviderConnectionError "Ollama")).
Proof.
  intros Hr Hg. unfold Ollama.stream, withProviderDeadline_stream, throwIfCancelled.
  rewrite (calm_parent _ _ Hnet) by done.
  apply (delivers_settle net calm (calm_deadline _ _ Hnet) (calm_end _ _ Hnet)).
  assert (calm (begin_call net (Ollama.requestTimeoutMs self) g)) as Hb by (by apply (calm_begin _ _ Hnet)).
  unfold Ollama.send, await_fetch.
  rewrite (quiet_signal net calm (calm_deadline _ _ Hnet)) by done.
  match goal with |- context [fetch net ?q ?g0] => destruct (Hr q g0 Hb) as (g1 & H1 & ->) end.
  rewrite (quiet_signal net calm (calm_deadline _ _ Hnet)) by done. by constructor.
Qed.

(** The primary's body, at the client. *)
Lemma primary_answer_told chunks t :
  serves net calm chunks -> decode_fatal (concat chunks) = Some t ->
  let '(cs, r) := ollama_answer t in
  let '(out, a) := ChatRoute.stream_handler srv req (ChatRoute.enter w) in
  observed out a = told cs r.
Proof.
  intros Hs Hd. pose proof (fun g => ollama_serves_delivers chunks t g Hs Hd) as Hdel.
  destruct (ollama_answer_ok t) as [Hp Hr]. destruct (ollama_answer t) as [cs r]. cbn [fst snd] in *.
  assert (translated primary fallback Primary r = r) as Htr.
  { destruct r as [e|]; [|done]. by destruct (Hr e eq_refl) as [-> | ->]. }
  pose proof (endpoint_tells cs r) as Ht. rewrite Hp in Ht. apply Ht.
  { intros e He. by destruct (Hr e He) as [-> | ->]. }
  intros g Hg Hc. pose proof
  (route_delivers_primary primary fallback (ChatRoute.yield srv) calm Hwanted
    (calm_resumed _ _ Hu) (ChatRoute.body req) (Ollama.stream net self) cs r g) as Hroute.
  rewrite Hp, Htr in Hroute. apply Hroute; try done.
  - by rewrite Htarget.
  - intros g0 now gen. apply Hprimary.
  - intros e He. right. by destruct (Hr e He) as [-> | ->].
Qed.

(** The fallback's body, when the primary's server is down. *)
Section Failover.
  Context (fb : FallbackTarget env) (m : string).
  Context (Hfallback : fallback = Some fb).
  Context (Hmodel : modelMap fb !! model (ChatRoute.body req) = Some m) (Hm : m <> EmptyString).
  Context (net2 : network process) (self2 : OpenAI.OpenAIProvider).
  Context (Htarget2 : target_provider (fallback_target fb) = OpenAI.provider net2 self2).
  Context (Hnet2 : unhurried net2 calm).
  Context (Hfb : forall g, calm g -> state (fallback_circuit g) = closed).
  Context (Hput : forall g c, calm g -> state c = closed -> calm (put_circuit Fallback c g)).

Lemma openai_serves_delivers chunks t g :
  serves net2 calm chunks -> decode_fatal (concat chunks) = Some t -> calm g ->
  delivers calm (OpenAI.stream net2 self2 (with_model m (ChatRoute.body req)) g) (openai_answer t).
Proof.
  intros Hs Hd Hg. destruct (Hs (begin_call net2 (OpenAI.requestTimeoutMs self2) g)) as (g1 & H1 & Ha).
  { by apply (calm_begin _ _ Hnet2). }
  apply (openai_stream_delivers net2 calm (calm_deadline _ _ Hnet2) (calm_end _ _ Hnet2)
    (calm_elapse _ _ Hnet2) _ g g1 chunks t); try done.
  - by apply (calm_parent _ _ Hnet2).
  - by apply (calm_begin _ _ Hnet2).
Qed.

(** Such an error is healthy for the circuit, so it stays closed. *)
Lemma settled_closed r now gen g :
  (forall e, r = Err e -> answer_error "OpenAI" e) -> calm g ->
  calm (settled primary fallback Fallback r now gen g).
Proof.
  intros Hr Hg. unfold settled, execute_settle. apply Hput; [done|]. pose proof (Hfb g Hg) as Hc.
  destruct (gen =? _); [|done]. destruct r as [e|]; [|done].
  by destruct (Hr e eq_refl) as [-> | ->].
Qed.

Lemma fallback_answer_told chunks t :
  refuses net calm -> serves net2 calm chunks -> decode_fatal (concat chunks) = Some t ->
  let '(cs, r) := openai_answer t in
  let '(out, a) := ChatRoute.stream_handler srv req (ChatRoute.enter w) in
  observed out a = told cs r.
Proof.
  intros Hdown Hs Hd. pose proof (fun g => openai_serves_delivers chunks t g Hs Hd) as Hdel.
  destruct (openai_answer_ok t) as [Hp Hr]. destruct (openai_answer t) as [cs r]. cbn [fst snd] in *.
  assert (translated primary fallback Fallback r = r) as Htr.
  { destruct r as [e|]; [|done]. by destruct (Hr e eq_refl) as [-> | ->]. }
  pose proof (endpoint_tells cs r) as Ht. rewrite Hp in Ht. apply Ht.
  { intros e He. by destruct (Hr e He) as [-> | ->]. }
  intros g Hg Hc. pose proof
  (route_delivers_fallback primary fallback (ChatRoute.yield srv) calm Hwanted (calm_resumed _ _ Hu)
    (ChatRoute.body req) (Ollama.stream net self) (OpenAI.stream net2 self2) fb m
    (ProviderConnectionError "Ollama") cs r g) as Hroute.
  rewrite Hp, Htr in Hroute. apply Hroute; try done.
  - by rewrite Htarget.
  - intros g0 Hg0. by apply ollama_refuses_delivers.
  - by rewrite Htarget2.
  - intros g0 now gen. apply Hprimary.
  - intros g0 now gen. by apply settled_closed.
Qed.

End Failover.

End Primary.

End Composed.

(** A gateway whose primary is an Ollama server, while nothing disturbs the
    request: calm worlds are those of the three layers, and the outcome of a
    call on the primary's circuit does not end the calm. *)
Record calm_gateway {env} (primary : ProviderTarget env) (fallback : option (FallbackTarget env))
    (srv : ChatRoute.services (Router.process env)) (net : network (Router.process env))
    (self : Ollama.OllamaProvider) (calm : Router.process env -> Prop) : Prop := {
  gateway_routes : ChatRoute.provider srv = ProviderRouter primary fallback (ChatRoute.yield srv);
  gateway_primary : target_provider primary = Ollama.provider net self;
  gateway_undisturbed : undisturbed srv calm;
  gateway_unhurried : unhurried net calm;
  gateway_wanted g : calm g -> aborted g = false;
  gateway_circuit g c : calm g -> calm (put_circuit Primary c g)
}.

(** The primary's circuit is closed when the request has its capacity. *)
Definition primary_closed {env} (srv : ChatRoute.services (Router.process env)) w : Prop :=
  forall g, ChatRoute.acquire srv w = (Ok (), g) ->
    state (primary_circuit (ChatRoute.yield srv g)) = closed.

(** C11: what the model server streams is what the client receives.  For an
    undisturbed streaming request, through the endpoint, the router and the
    Ollama adapter: however the server's body is cut into chunks, the client
    receives the headers, one event per non-empty content of the body's
    lines, in order, and then [done] if the body ends with a line marked as
    the last; a body that is invalid after some content ends with the error
    event INVALID_PROVIDER_RESPONSE, and one that is invalid before any
    content is thrown as an error with nothing sent. *)
Theorem stream_reaches_client {env} primary fallback srv net self (calm : Router.process env -> Prop)
    req w chunks t :
  calm_gateway primary fallback srv net self calm ->
  calm w -> primary_closed srv w ->
  serves net calm chunks -> decode_fatal (concat chunks) = Some t ->
  let '(cs, r) := ollama_answer t in
  let '(out, a) := ChatRoute.stream_handler srv req (ChatRoute.enter w) in
  observed out a = told cs r.
Proof.
  intros [Hr Hp Hu Hn Hw Hc] Hcw Hcl Hs Hd. by eapply primary_answer_told.
Qed.

(** C12: failover is invisible.  When the primary's server refuses
    connections, the fallback is configured with a model for the requested
    one and its circuit is closed, an undisturbed streaming request is
    answered with the fallback's stream alone: the client receives exactly
    the contents of the events of the OpenAI server's body and its end, and
    nothing of the failed attempt. *)
Theorem stream_fails_over {env} primary fb srv net self net2 self2 (calm : Router.process env -> Prop)
    req w m chunks t :
  calm_gateway primary (Some fb) srv net self calm ->
  target_provider (fallback_target fb) = OpenAI.provider net2 self2 ->
  unhurried net2 calm ->
  (forall g, calm g -> state (fallback_circuit g) = closed) ->
  (forall g c, calm g -> state c = closed -> calm (put_circuit Fallback c g)) ->
  modelMap fb !! model (ChatRoute.body req) = Some m -> m <> EmptyString ->
  calm w -> primary_closed srv w ->
  refuses net calm -> serves net2 calm chunks -> decode_fatal (concat chunks) = Some t ->
  let '(cs, r) := openai_answer t in
  let '(out, a) := ChatRoute.stream_handler srv req (ChatRoute.enter w) in
  observed out a = told cs r.
Proof.
  intros [Hr Hp Hu Hn Hw Hc] Ht2 Hn2 Hfc Hfp Hm Hne Hcw Hcl Hdown Hs Hd.
  by eapply (fallback_answer_told primary (Some fb)).
Qed.

(** ** A gateway at work *)

(** A server that answers with one body, or refuses connections. *)
Definition ex_server (body : option (list text)) : network (Router.process ()) :=
  mkNetwork _ aborted (fun _ g => g) (fun _ => None) (fun g => g)
    (fun _ g => ((fun chunks => mkHttpResponse 200 (Some (map Chunk chunks))) <$> body, g))
    (fun g => g).

Definition ex_circuit : circuit := mkCircuit closed 0 0 0.
Definition ex_process : Router.process () := mkProcess ex_circuit ex_circuit 0 false ().
Definition ex_primary (body : option (list text)) : ProviderTarget () :=
  mkTarget "Ollama" (Ollama.provider (ex_server body) ex_ollama) (mkOptions 3 1000).
Definition ex_fallback (chunks : list text) : FallbackTarget () :=
  mkFallback (mkTarget "OpenAI" (OpenAI.provider (ex_server (Some chunks)) ex_openai) (mkOptions 3 1000))
    {[ "llama3" := "gpt-4o-mini" ]}.

Definition ex_services (body : option (list text)) (fallback : option (FallbackTarget ())) :
    ChatRoute.services (Router.process ()) :=
  ChatRoute.mkServices _ (ProviderRouter (ex_primary body) fallback (fun g => g)) None
    (fun g => (Ok (), g)) (fun g => g) aborted (fun g => g) (fun _ => false) (fun _ => false)
    (fun _ g => (true, g)) (fun g => g).

Definition ex_calm (g : Router.process ()) : Prop :=
  aborted g = false /\ state (fallback_circuit g) = closed.

Lemma ex_gateway body fallback :
  calm_gateway (ex_primary body) fallback (ex_services body fallback) (ex_server body) ex_ollama ex_calm.
Proof.
  split; [done|done| | |by intros ? [? ?]|done]; split; try done; try (by intros ? [? ?]).
  - intros e g Hg. by exists g.
  - intros g Hg. by exists g.
Qed.

Lemma ex_unhurried body : unhurried (ex_server body) ex_calm.
Proof. split; try done; by intros ? [? ?]. Qed.

Lemma ex_serves chunks : serves (ex_server (Some chunks)) ex_calm chunks.
Proof. intros g Hg. by exists g. Qed.

Lemma stream_reaches_client_witness :
  let '(out, a) := ChatRoute.stream_handler (ex_services (Some ex_ollama_chunks) None)
    ChatRoute.ex_http (ChatRoute.enter ex_process) in
  observed out a = told ["Hello"; " there"] (Ok ()).
Proof.
  pose proof (stream_reaches_client _ None _ _ _ ex_calm ChatRoute.ex_http ex_process ex_ollama_chunks
    (concat ex_ollama_chunks) (ex_gateway (Some ex_ollama_chunks) None) ltac:(by split)
    ltac:(by intros g [= <-]) (ex_serves ex_ollama_chunks) ltac:(by vm_compute)) as H.
  assert (ollama_answer (concat ex_ollama_chunks) = (["Hello"; " there"], Ok ())) as E by by vm_compute.
  rewrite E in H. exact H.
Defined.

Lemma stream_fails_over_witness :
  let '(out, a) := ChatRoute.stream_handler
    (ex_services None (Some (ex_fallback ex_openai_chunks)))
    ChatRoute.ex_http (ChatRoute.enter ex_process) in
  observed out a = told ["Hi"] (Ok ()).
Proof.
  pose proof (stream_fails_over _ (ex_fallback ex_openai_chunks) _ _ _ (ex_server (Some ex_openai_chunks))
    ex_openai ex_calm ChatRoute.ex_http ex_process "gpt-4o-mini" ex_openai_chunks
    (concat ex_openai_chunks) (ex_gateway None (Some (ex_fallback ex_openai_chunks))) eq_refl
    (ex_unhurried _) ltac:(by intros g [_ H]) ltac:(by intros g c [Ha _] Hc; split) ltac:(by vm_compute)
    ltac:(done) ltac:(by split) ltac:(by intros g [= <-]) ltac:(intros q g Hg; by exists g)
    (ex_serves ex_openai_chunks) ltac:(by vm_compute)) as H.
  assert (openai_answer (concat ex_openai_chunks) = (["Hi"], Ok ())) as E by by vm_compute.
  rewrite E in H. exact H.
Defined.

End Streaming.
