(* ===== verification/Gateway.v ===== *)
(** * The chat endpoint behind its guard, over the shared cache

    How [buildApp] of [src/src/app.ts] puts [POST /v1/chat] together: the
    request guard, the validation of body and headers, the handler of
    [src/src/routes/chat.ts] and the Redis cache, in a world shared with every
    other request.  The handler's steps are followed with an invariant of that
    world, so that the result holds for any number of tenants and requests in
    any interleaving. *)

From S2P Require Import Prelude JsNumber Errors Chat Provider Json JsonParse CacheKey TokenBucket Auth Schema ChatRoute RedisCache App.
Import JsNumber Errors Chat Telemetry Provider Json JsonParse CacheKey Schema.

Module Gateway.

Section Routes.
  Context {W : Type}.
  Context (validate : schema -> json number -> result (list (string * option string)) (json number)).
  Context (sha256 : string -> string) (table : result error (list Auth.ApiKeyRow))
    (consume : string -> TokenBucket.RateLimitPolicy -> W ->
      result error TokenBucket.RateLimitDecision * W).
  Context (srv : ChatRoute.services W).

Definition header (name : string) (hs : json number) : option string :=
  match field name hs with Some (JStr s) => Some s | _ => None end.

Definition cache_status_name (c : CacheStatus) : string :=
  match c with HIT => "HIT" | MISS => "MISS" | BYPASS => "BYPASS" end.

(** The handler's input, once the body and the headers are valid. *)
Definition chat_request (p : Auth.ApiKeyPrincipal) (req : App.request) :
    result App.thrown ChatRoute.HttpRequest :=
  b ← App.body req;
  data ← App.checked validate "body" chatRequestSchema b;
  hs ← App.checked validate "headers" chatHeadersSchema (App.headers req);
  match to_request data with
  | Some q => Ok (ChatRoute.mkHttpRequest (Auth.principal_id p) (header "x-cache-mode" hs)
                    (header "cache-control" hs) q)
  | None => Err (App.ValidationFailure (Some "body") [])
  end.

(** [POST /v1/chat]; no outcome when the response was destroyed. *)
Definition post_chat (p : Auth.ApiKeyPrincipal) (req : App.request) (w : W) : option App.outcome * W :=
  match chat_request p req with
  | Err t => (Some (App.mkOutcome [] (Err t)), w)
  | Ok r =>
      let '(answer, s) := ChatRoute.chat_handler srv r (ChatRoute.enter w) in
      let hs := [("cache-control", App.HText "no-store");
                 ("x-cache", App.HText (cache_status_name (ChatRoute.cacheStatus s)))] in
      (match answer with
       | Ok (Some x) => Some (App.mkOutcome hs (Ok (200, embed (RedisCache.response_json x))))
       | Ok None => None
       | Err e => Some (App.mkOutcome hs (Err (App.Thrown e)))
       end, ChatRoute.world s)
  end.

(** The route behind the hooks. *)
Definition chat_route (req : App.request) (w : W) : option App.reply * W :=
  let '(a, w1) := Auth.onRequest sha256 consume table (App.authorization req) w in
  let base := ("x-request-id", App.HText (App.id req)) ::
    map (fun h => (h.1, App.HNumber h.2)) (Auth.reply_headers a) in
  match Auth.verdict a with
  | Err e => (Some (App.finish req base (App.mkOutcome [] (Err (App.Thrown e)))), w1)
  | Ok apiKey =>
      let '(o, w2) := post_chat apiKey req w1 in (App.finish req base <$> o, w2)
  end.

End Routes.

Lemma chat_request_owner validate p req r :
  chat_request validate p req = Ok r -> ChatRoute.ownerId r = Auth.principal_id p.
Proof.
  unfold chat_request. destruct (App.body req) as [t|b]; [done|]. cbn [mbind result_mbind].
  destruct (App.checked _ _ chatRequestSchema _) as [t|d]; [done|]. cbn [mbind result_mbind].
  destruct (App.checked _ _ _ _) as [t|hs]; [done|]. cbn [mbind result_mbind].
  destruct (to_request d); [|done]. by intros [= <-].
Qed.

Lemma finish_ok req base o :
  App.reply_status (App.finish req base o) = 200 -> is_Ok (App.answer o) = true.
Proof.
  unfold App.finish. destruct (App.answer o) as [t|]; [|done]. cbn [App.reply_status].
  pose proof (App.errorHandler_status (App.id req) t). lia.
Qed.

(** ** Handlers in a world with an invariant *)

Section Invariant.
  Context {W : Type} (srv : ChatRoute.services W) (req : ChatRoute.HttpRequest).
  Context (safe : W -> Prop).
  Import ChatRoute.

(** The provider gave this answer to the request, in a safe world. *)
Definition given (x : ChatResponse) : Prop :=
  exists w, safe w /\ (provider_chat (provider srv) (body req) w).1 = Ok x.

(** Everything the handler can do to the world keeps it safe; it only puts
    what the provider gave. *)
Record keeps : Prop := {
  keeps_yield w : safe w -> safe (yield srv w);
  keeps_acquire w : safe w -> safe (acquire srv w).2;
  keeps_release w : safe w -> safe (release srv w);
  keeps_abort w : safe w -> safe (abort srv w);
  keeps_provider w : safe w -> safe (provider_chat (provider srv) (body req) w).2;
  keeps_get store w : chatCache srv = Some store -> safe w ->
    safe (cache_get store (ownerId req) (body req) w).2;
  keeps_put store x w : chatCache srv = Some store -> given x -> safe w ->
    safe (cache_put store (ownerId req) (body req) x w).2
}.

Context (Hk : keeps).

Lemma await_safe {A} (op : W -> result error A * W) s r s' :
  await srv op s = (r, s') -> safe (world s) -> (safe (world s) -> safe (op (world s)).2) ->
  safe (world s') /\ (op (world s)).1 = r.
Proof.
  unfold await. intros H Hs Ho. specialize (Ho Hs). destruct (op (world s)) as [r0 w].
  injection H as <- <-. split; [|done]. by apply (keeps_yield Hk).
Qed.

Lemma read_cache_safe store s r s' :
  chatCache srv = Some store -> safe (world s) ->
  read_cache srv store (ownerId req) (body req) s = (r, s') ->
  safe (world s') /\
  (forall x u, r = Ok (Some x, u) ->
     exists w, safe w /\ (cache_get store (ownerId req) (body req) w).1 = Ok (Some x)).
Proof.
  intros Hc Hs. pose proof (keeps_get Hk store (world s) Hc Hs) as Hg. intros H.
  destruct (cache_get store (ownerId req) (body req) (world s)) as [g w] eqn:E.
  apply (keeps_yield Hk) in Hg.
  ChatRoute.handler_unfold. cbn in H, Hg. rewrite E in H. cbn in H.
  repeat (case_match; simplify_eq/=; try done).
  all: split; [done|]; intros x' u' [= <-]; exists (world s); by rewrite E.
Qed.

Lemma generate_safe s r s' :
  safe (world s) -> generate srv req s = (r, s') ->
  safe (world s') /\ (forall x, r = Ok x -> given x).
Proof.
  intros Hs H. pose proof (keeps_acquire Hk _ Hs) as Ha. apply (keeps_yield Hk) in Ha.
  unfold generate, acquire_permit in H. handler_unfold. cbn in H.
  destruct (acquire srv (world s)) as [[e|[]] w1]; cbn in H, Ha; [by simplify_eq/=|].
  destruct (aborted srv (yield srv w1)); cbn in H; [by simplify_eq/=|].
  pose proof (keeps_provider Hk _ Ha) as Hp. apply (keeps_yield Hk), (keeps_release Hk) in Hp.
  destruct (provider_chat (provider srv) (body req) (yield srv w1)) as [r0 w2] eqn:E. cbn in H, Hp.
  injection H as <- <-. split; [done|]. intros x ->. exists (yield srv w1). by rewrite E.
Qed.

Lemma write_cache_safe store x s r s' :
  chatCache srv = Some store -> given x -> safe (world s) ->
  write_cache srv store (ownerId req) (body req) x s = (r, s') -> safe (world s').
Proof.
  intros Hc Hx Hs H. pose proof (keeps_put Hk store x _ Hc Hx Hs) as Hp. apply (keeps_yield Hk) in Hp.
  ChatRoute.handler_unfold. cbn in H.
  destruct (cache_put store (ownerId req) (body req) x (world s)) as [g w] eqn:E. cbn in H, Hp.
  repeat (case_match; simplify_eq/=; try done).
Qed.

(** An answer comes from the cache or from the provider, in a safe world. *)
Definition from_cache (x : ChatResponse) : Prop :=
  exists store w, chatCache srv = Some store /\ safe w /\
    (cache_get store (ownerId req) (body req) w).1 = Ok (Some x).

Lemma chat_body_safe s r s' :
  safe (world s) -> chat_body srv req s = (r, s') ->
  safe (world s') /\ (forall x, r = Ok x -> from_cache x \/ given x).
Proof.
  intros Hs H. unfold chat_body in H. apply bind_inv in H as [(e & Hr & ->)|([cached u] & s1 & Hr & H)].
  { destruct (chatCache srv) as [store|] eqn:Hc; [|done]. destruct (wants_cache srv req); [|done].
    by apply (read_cache_safe store) in Hr as [? _]. }
  assert (safe (world s1) /\ (forall x, cached = Some x -> from_cache x)) as [Hs1 Hcached].
  { destruct (chatCache srv) as [store|] eqn:Hc; [destruct (wants_cache srv req)|].
    - apply (read_cache_safe store) in Hr as [? Hx]; [|done|done]. split; [done|]. intros x ->.
      destruct (Hx x u eq_refl) as (w & ? & ?). by exists store, w.
    - injection Hr as <- <- <-. by split.
    - injection Hr as <- <- <-. by split. }
  destruct cached as [x|]; [injection H as <- <-; split; [done|]; intros y [= <-]; auto|].
  apply bind_inv in H as [(e & Hg & ->)|(x & s2 & Hg & H)].
  { apply generate_safe in Hg as [? _]; done. }
  apply generate_safe in Hg as [Hs2 Hx]; [|done]. specialize (Hx x eq_refl).
  apply bind_inv in H as [(e & Hg & ->)|([] & s3 & Hg & H)].
  { by apply throw_if_cancelled_Err in Hg as [-> _]. }
  apply throw_if_cancelled_Ok in Hg as [-> _].
  apply bind_inv in H as [(e & Hg & ->)|([] & s4 & Hg & H)].
  { destruct (chatCache srv) as [store|] eqn:Hc; [|done]. destruct u; [|done].
    by apply (write_cache_safe store x) in Hg. }
  assert (safe (world s4)) as Hs4.
  { destruct (chatCache srv) as [store|] eqn:Hc; [destruct u|]; [by apply (write_cache_safe store x) in Hg|..];
      by injection Hg as <-. }
  apply bind_inv in H as [(e & Hg' & ->)|([] & s5 & Hg' & H)].
  { by apply throw_if_cancelled_Err in Hg' as [-> _]. }
  apply throw_if_cancelled_Ok in Hg' as [-> _]. injection H as <- <-. split; [done|].
  intros y [= <-]. auto.
Qed.

Lemma chat_handler_safe w r s' :
  safe w -> chat_handler srv req (enter w) = (r, s') ->
  safe (world s') /\ (forall x, r = Ok (Some x) -> from_cache x \/ given x).
Proof.
  intros Hs H. unfold chat_handler, finally in H.
  destruct (chat_answer srv req (enter w)) as [ra s1] eqn:Ha. injection H as <- <-.
  assert (safe (world s1) /\ (forall x, ra = Ok (Some x) -> from_cache x \/ given x)) as [Hs1 Hx].
  { unfold chat_answer, catch in Ha.
    match type of Ha with match ?t with _ => _ end = _ => destruct t as [r1 s2] eqn:Hb end.
    apply bind_inv in Hb as [(e & Hb & ->)|(y & s3 & Hb & He)];
      apply chat_body_safe in Hb as [Hs2 Hy]; try done.
    - destruct (_ || _); injection Ha as <- <-; by split.
    - injection He as <- <-. injection Ha as <- <-. split; [done|]. intros x [= <-]. auto. }
  split; [|done]. unfold chat_cleanup, release_if_held. cbn.
  apply (keeps_abort Hk) in Hs1. destruct (permit s1); cbn; [by apply (keeps_release Hk)|done].
Qed.

End Invariant.

(** ** Tenants over one cache *)

Section Tenants.
  Context {W R : Type} `{RedisCache.RedisStringsLaws R}.
  Context (sha256 : string -> string) (options : RedisCache.RedisChatCacheOptions).
  (** where the world keeps the cache, and the fate of a command *)
  Context (view : W -> RedisCache.store R) (update : RedisCache.store R -> W -> W)
    (aborted : W -> bool) (next : W -> RedisCache.fate).
  (** an answer a provider gave to a request of an owner *)
  Context (produced : string -> ChatRequest -> ChatResponse -> Prop).
  Import RedisCache.

(** The cache has only ever received answers produced for their keys. *)
Definition safe_cache (w : W) : Prop :=
  exists s0 ls, empty_store s0 /\ run (step sha256 options) s0 ls (view w) /\
    forall ab f o q a, Put ab f o q a ∈ ls -> produced o q a.

Lemma safe_hit w o q x :
  valid_options options -> safe_cache w ->
  (ChatRoute.cache_get (RedisChatCache sha256 options view update aborted next) o q w).1 = Ok (Some x) ->
  produced o q x \/ collision sha256.
Proof.
  intros Hv (s0 & ls & He & Hr & Hp) Hg. cbn in Hg.
  destruct (hit_was_put _ _ _ _ _ _ _ _ _ _ Hv He Hr Hg) as [(ab & f & Hin)|?]; [|by right].
  left. by eapply Hp.
Qed.

Lemma safe_put w o q x :
  (forall s w, view (update s w) = s) -> produced o q x -> safe_cache w ->
  safe_cache (ChatRoute.cache_put (RedisChatCache sha256 options view update aborted next) o q x w).2.
Proof.
  intros Hview Hx (s0 & ls & He & Hr & Hp). cbn.
  destruct (put sha256 options (aborted w) (next w) o q x (view w)) as [r s] eqn:E. cbn.
  exists s0, (ls ++ [Put (aborted w) (next w) o q x]). split; [done|]. rewrite Hview. split.
  - eapply run_app; [exact Hr|]. eapply run_cons; [|apply run_nil]. by eapply step_put.
  - intros ab f o' q' a [Hin|Hin]%elem_of_app; [by eapply Hp|].
    apply list_elem_of_singleton in Hin. by simplify_eq.
Qed.

(** What everything else does in the world (other requests, the limiters and
    the provider call) leaves the cache safe. *)
Record environment_keeps (srv : ChatRoute.services W)
    (consume : string -> TokenBucket.RateLimitPolicy -> W ->
      result error TokenBucket.RateLimitDecision * W) : Prop := {
  env_yield w : safe_cache w -> safe_cache (ChatRoute.yield srv w);
  env_acquire w : safe_cache w -> safe_cache (ChatRoute.acquire srv w).2;
  env_release w : safe_cache w -> safe_cache (ChatRoute.release srv w);
  env_abort w : safe_cache w -> safe_cache (ChatRoute.abort srv w);
  env_provider q w : safe_cache w -> safe_cache (provider_chat (ChatRoute.provider srv) q w).2;
  env_consume k policy w : safe_cache w -> safe_cache (consume k policy w).2
}.

Lemma handler_keeps srv consume r :
  (forall s w, view (update s w) = s) ->
  ChatRoute.chatCache srv = Some (RedisChatCache sha256 options view update aborted next) ->
  environment_keeps srv consume ->
  (forall w x, (provider_chat (ChatRoute.provider srv) (ChatRoute.body r) w).1 = Ok x ->
     produced (ChatRoute.ownerId r) (ChatRoute.body r) x) ->
  keeps srv r safe_cache.
Proof.
  intros Hview Hc Henv Hprod. split.
  - apply (env_yield _ _ Henv).
  - apply (env_acquire _ _ Henv).
  - apply (env_release _ _ Henv).
  - apply (env_abort _ _ Henv).
  - apply (env_provider _ _ Henv).
  - intros store w Hs Hw. rewrite Hc in Hs. by injection Hs as <-.
  - intros store x w Hs (w' & _ & Hx) Hw. rewrite Hc in Hs. injection Hs as <-.
    apply safe_put; [done| |done]. by eapply Hprod.
Qed.

Lemma onRequest_safe table consume srv h w a w1 :
  environment_keeps srv consume -> safe_cache w ->
  Auth.onRequest sha256 consume table h w = (a, w1) -> safe_cache w1.
Proof.
  intros Henv Hw. unfold Auth.onRequest. destruct (Auth.authenticate _ _ _) as [e|p]; [by intros [= _ <-]|].
  pose proof (env_consume _ _ Henv (Auth.principal_id p) (Auth.rateLimit p) w Hw) as H1.
  destruct (consume _ _ w) as [[e|d] w']; [|destruct (TokenBucket.allowed d)]; by intros [= _ <-].
Qed.

End Tenants.

(** ** The properties *)

(** C3: an answer belongs to its tenant and its request.  Behind the guard and
    the validation, whatever other requests do to the shared cache in
    between, a reply with status 200 carries an answer that a provider gave
    to exactly this request on behalf of the authenticated key, from the
    cache or fresh, unless SHA-256 collides; and the request leaves the cache
    as safe as it found it. *)
Theorem answers_stay_with_tenant {W R} `{RedisCache.RedisStringsLaws R} validate sha256 options
    (view : W -> RedisCache.store R) update aborted next produced table consume srv req w w' a w1 p reply :
  RedisCache.valid_options options -> (forall s w, view (update s w) = s) ->
  ChatRoute.chatCache srv = Some (RedisCache.RedisChatCache sha256 options view update aborted next) ->
  environment_keeps sha256 options view produced srv consume ->
  safe_cache sha256 options view produced w ->
  Auth.onRequest sha256 consume table (App.authorization req) w = (a, w1) -> Auth.verdict a = Ok p ->
  (forall q w x, (provider_chat (ChatRoute.provider srv) q w).1 = Ok x -> produced (Auth.principal_id p) q x) ->
  chat_route validate sha256 table consume srv req w = (Some reply, w') -> App.reply_status reply = 200 ->
  safe_cache sha256 options view produced w' /\
  exists r x, chat_request validate p req = Ok r /\ ChatRoute.ownerId r = Auth.principal_id p /\
    App.reply_body reply = embed (RedisCache.response_json x) /\
    (produced (Auth.principal_id p) (ChatRoute.body r) x \/ collision sha256).
Proof.
  intros Hv Hview Hc Henv Hw Hon Hp Hprod Hr H200. unfold chat_route in Hr. rewrite Hon, Hp in Hr.
  pose proof (onRequest_safe _ _ _ _ _ _ _ _ _ _ _ Henv Hw Hon) as Hw1.
  destruct (post_chat _ _ _ _ _) as [o w2] eqn:Ho. injection Hr as Ho' <-.
  destruct o as [o|]; [|done]. injection Ho' as <-. unfold post_chat in Ho.
  destruct (chat_request validate p req) as [t|r] eqn:Hreq.
  { injection Ho as <- <-. by apply finish_ok in H200. }
  assert (ChatRoute.ownerId r = Auth.principal_id p) as Howner by (by eapply chat_request_owner).
  destruct (ChatRoute.chat_handler srv r (ChatRoute.enter w1)) as [ans s] eqn:Hh.
  assert (keeps srv r (safe_cache sha256 options view produced)) as Hk.
  { eapply handler_keeps; try done. rewrite Howner. intros ? ?. apply Hprod. }
  apply (chat_handler_safe srv r _ Hk) in Hh as [Hs Hx]; [|done].
  destruct ans as [e|[x|]]; cbv zeta in Ho; injection Ho as Ho <-; [..|done].
  { subst o. by apply finish_ok in H200. }
  split; [done|]. exists r, x. subst o. split; [done|]. split; [done|]. split; [done|].
  destruct (Hx x eq_refl) as [(store & w3 & Hst & Hw3 & Hg)|(w3 & _ & Hg)].
  - rewrite Hc in Hst. injection Hst as <-. rewrite <- Howner. by eapply safe_hit.
  - left. by eapply Hprod.
Qed.

(** ** A scenario: Alice's second request is a hit *)

Abbreviation ex_world := (RedisCache.store RedisCache.strings_server).
Definition ex_validate (s : schema) (v : json number) : result (list (string * option string)) (json number) :=
  if valid s v then Ok v else Err [].
Definition ex_limit (k : string) (p : TokenBucket.RateLimitPolicy) (w : ex_world) :
    result error TokenBucket.RateLimitDecision * ex_world :=
  (Ok (TokenBucket.mkDecision true (of_Z 9) (of_Z 0)), w).
Definition ex_chat_cache : ChatRoute.ChatCache ex_world :=
  RedisCache.RedisChatCache id RedisCache.ex_cache (fun w => w) (fun s _ => s) (fun _ => false)
    (fun _ => RedisCache.Completes).
Definition ex_srv : ChatRoute.services ex_world :=
  ChatRoute.mkServices ex_world (mkProvider (fun _ w => (Ok RedisCache.ex_answer, w)) None) (Some ex_chat_cache)
    (fun w => (Ok (), w)) (fun w => w) (fun _ => false)
    (fun w => w) (fun _ => false) (fun _ => false) (fun _ w => (true, w)) (fun w => w).
Definition ex_ask_chat : App.request :=
  App.mkRequest "req-2" (Some "Bearer secret") (Ok (embed (chat_json (ex_ask "hi"))))
    (JObj [("x-cache-mode", JStr "use")]) JNull.
Definition ex_first : option App.reply * ex_world :=
  chat_route ex_validate id (Ok [Auth.ex_key]) ex_limit ex_srv ex_ask_chat RedisCache.ex_store.
Definition ex_second : option App.reply * ex_world :=
  chat_route ex_validate id (Ok [Auth.ex_key]) ex_limit ex_srv ex_ask_chat ex_first.2.
Definition ex_hit : App.reply :=
  App.mkReply 200 [("x-request-id", App.HText "req-2"); ("x-ratelimit-limit", App.HNumber (of_Z 10));
                   ("x-ratelimit-remaining", App.HNumber (of_Z 9));
                   ("cache-control", App.HText "no-store"); ("x-cache", App.HText "HIT")]
    (embed (RedisCache.response_json RedisCache.ex_answer)).
Definition ex_produced (o : string) (q : ChatRequest) (x : ChatResponse) : Prop :=
  o = "k1" /\ x = RedisCache.ex_answer.

Lemma ex_first_safe : safe_cache id RedisCache.ex_cache (fun w => w) ex_produced ex_first.2.
Proof.
  assert (ex_first.2 = (ChatRoute.cache_put ex_chat_cache "k1" (ex_ask "hi") RedisCache.ex_answer
    RedisCache.ex_store).2) as -> by (by vm_compute).
  apply safe_put; [done|done|]. exists RedisCache.ex_store, []. split; [|split; [apply run_nil|]].
  - split; [done|]. intros k. done.
  - by intros ab f o q a ?%elem_of_nil.
Qed.

Lemma answers_stay_with_tenant_witness :
  ex_second = (Some ex_hit, ex_first.2) /\
  safe_cache id RedisCache.ex_cache (fun w => w) ex_produced ex_second.2.
Proof.
  split; [by vm_compute|].
  refine (proj1 (answers_stay_with_tenant ex_validate id RedisCache.ex_cache (fun w => w) (fun s _ => s)
    (fun _ => false) (fun _ => RedisCache.Completes) ex_produced (Ok [Auth.ex_key]) ex_limit ex_srv
    ex_ask_chat ex_first.2 ex_second.2
    (Auth.onRequest id ex_limit (Ok [Auth.ex_key]) (Some "Bearer secret") ex_first.2).1 ex_first.2
    (Auth.principal_of Auth.ex_key) ex_hit _ _ _ _ ex_first_safe _ _ _ _ _)).
  - by vm_compute.
  - intros s w. reflexivity.
  - reflexivity.
  - split; intros; assumption.
  - reflexivity.
  - reflexivity.
  - intros q w x Hx. injection Hx as <-. by split.
  - by vm_compute.
  - reflexivity.
Defined.

End Gateway.
