(* ===== verification/Application.v ===== *)
(** * The whole application

    [buildApp] of [src/src/app.ts]: the table of routes, what each runs behind
    which hooks, and what a request is answered with.  Which route a path
    belongs to is the web framework's business: a request arrives here with
    the method and the pattern it has matched.  The framework also derives a
    HEAD route from every GET route when its option [exposeHeadRoutes] is on;
    the sources leave the option at its documented default, on, and the model
    has it as a parameter. *)

From S2P Require Import Prelude JsNumber Errors Chat Provider Json JsonParse TokenBucket Auth CircuitBreaker Schema ChatRoute App Metrics Gateway.
Import JsNumber Errors Chat Telemetry Provider Json JsonParse Schema.

Module Application.

(** [requestIdHeader: "x-request-id", genReqId: () => randomUUID()] *)
Definition request_id (header : option string) (randomUUID : string) : string :=
  App.or_else header randomUUID.

(** How a request ends: with a JSON reply, with the status and headers of one
    and no body, with a stream that has begun, or with a response destroyed
    before anything was sent. *)
Inductive response : Type :=
| Answered (r : App.reply)
| Headed (status : Z) (hs : App.headers_list)
| Streamed (hs : App.headers_list) (sent : list ChatRoute.sent)
| Dropped.

(** What is left of a response to a HEAD request. *)
Definition headers_only (r : response) : response :=
  match r with
  | Answered a => Headed (App.reply_status a) (App.reply_headers a)
  | _ => r
  end.

Section BuildApp.
  Context {W : Type}.
  Context (validate : schema -> json number -> result (list (string * option string)) (json number)).
  Context (sha256 : string -> string) (table : result error (list Auth.ApiKeyRow))
    (consume : string -> TokenBucket.RateLimitPolicy -> W ->
      result error TokenBucket.RateLimitDecision * W).
  Context (srv : ChatRoute.services W) (jobs : App.InferenceJobs W).
  Context (providerHealth : option (W -> list (string * CircuitBreaker.CircuitSnapshot))).

(** A handler behind the hooks: the headers set so far, the request and the
    key the guard has found. *)
Abbreviation handler := (App.headers_list -> Auth.ApiKeyPrincipal -> App.request -> W -> response * W).

(** The two hooks: the request identifier, then the guard. *)
Definition behind (h : handler) (req : App.request) (w : W) : response * W :=
  let '(a, w1) := Auth.onRequest sha256 consume table (App.authorization req) w in
  let base := ("x-request-id", App.HText (App.id req)) ::
    map (fun h => (h.1, App.HNumber h.2)) (Auth.reply_headers a) in
  match Auth.verdict a with
  | Err e => (Answered (App.finish req base (App.mkOutcome [] (Err (App.Thrown e)))), w1)
  | Ok apiKey => h base apiKey req w1
  end.

(** A handler that always answers. *)
Definition answering (f : Auth.ApiKeyPrincipal -> App.request -> W -> App.outcome * W) : handler :=
  fun base p req w => let '(o, w') := f p req w in (Answered (App.finish req base o), w').

Definition chat : handler := fun base p req w =>
  let '(o, w') := Gateway.post_chat validate srv p req w in
  (match o with Some o => Answered (App.finish req base o) | None => Dropped end, w').

(** [POST /v1/chat/stream] *)

Definition stream_request (p : Auth.ApiKeyPrincipal) (req : App.request) :
    result App.thrown ChatRoute.HttpRequest :=
  b ← App.body req;
  data ← App.checked validate "body" chatRequestSchema b;
  match to_request data with
  | Some q => Ok (ChatRoute.mkHttpRequest (Auth.principal_id p) None None q)
  | None => Err (App.ValidationFailure (Some "body") [])
  end.

Definition sse_headers : App.headers_list :=
  [("content-type", App.HText "text/event-stream; charset=utf-8");
   ("cache-control", App.HText "no-cache, no-transform"); ("x-accel-buffering", App.HText "no")].

Definition stream : handler := fun base p req w =>
  match stream_request p req with
  | Err t => (Answered (App.finish req base (App.mkOutcome [] (Err t))), w)
  | Ok r =>
      let '(out, s) := ChatRoute.stream_handler srv r (ChatRoute.enter w) in
      (match out with
       | Err e => Answered (App.finish req base (App.mkOutcome [] (Err (App.Thrown e))))
       | Ok _ =>
           if ChatRoute.started s
           then Streamed (base ++ sse_headers) (ChatRoute.sent_view (ChatRoute.trace s))
           else Dropped
       end, ChatRoute.world s)
  end.

(** The routes registered in the protected part. *)
Definition protected_routes : list (string * string * handler) :=
  [("POST", "/v1/chat", chat); ("POST", "/v1/chat/stream", stream);
   ("POST", "/v1/jobs", answering (App.post_jobs validate jobs));
   ("GET", "/v1/jobs/:id", answering (App.get_jobs validate jobs))]
  ++ match providerHealth with
     | Some snapshot => [("GET", "/v1/providers", answering (App.get_providers snapshot))]
     | None => []
     end.

Definition is_route (method pattern : string) (r : string * string * handler) : bool :=
  String.eqb r.1.1 method && String.eqb r.1.2 pattern.

(** The routes the sources register; [None]: no such route. *)
Definition registered (method pattern : string) : option (App.request -> W -> response * W) :=
  if String.eqb method "GET" && String.eqb pattern "/health" then
    Some (fun req w => (Answered (App.health req), w))
  else (fun r => behind r.2) <$> List.find (is_route method pattern) protected_routes.

(** [exposeHeadRoutes] *)
Context (exposeHeadRoutes : bool).

(** The registered routes, and the HEAD routes derived from those for GET:
    the same hooks and the same handler, the payload dropped. *)
Definition buildApp (method pattern : string) : option (App.request -> W -> response * W) :=
  if String.eqb method "HEAD" && exposeHeadRoutes then
    (fun serve req w => let '(r, w') := serve req w in (headers_only r, w'))
      <$> registered "GET" pattern
  else registered method pattern.

(** The patterns under which something is served. *)
Definition patterns : list string := "/health" :: map (fun r => r.1.2) protected_routes.

(** ** Lemmas *)

(** The chat endpoint of [Gateway] is this one. *)
Lemma chat_route_served req w :
  behind chat req w =
    let '(o, w') := Gateway.chat_route validate sha256 table consume srv req w in
    (match o with Some r => Answered r | None => Dropped end, w').
Proof.
  unfold behind, chat, Gateway.chat_route. destruct (Auth.onRequest _ _ _ _ _) as [a w1].
  destruct (Auth.verdict a) as [e|p]; [done|]. by destruct (Gateway.post_chat _ _ _ _ _) as [[] w'].
Qed.

(** Every reply names the request first. *)
Definition names_request (req : App.request) (r : response) : Prop :=
  match r with
  | Answered a => exists hs, App.reply_headers a = ("x-request-id", App.HText (App.id req)) :: hs
  | Headed _ hs | Streamed hs _ => exists hs', hs = ("x-request-id", App.HText (App.id req)) :: hs'
  | Dropped => True
  end.

Lemma finish_names req hs o : names_request req
  (Answered (App.finish req (("x-request-id", App.HText (App.id req)) :: hs) o)).
Proof. unfold App.finish. destruct (App.answer o) as [t|[s b]]; cbn; eauto. Qed.

Lemma protected_names r req w :
  r ∈ protected_routes -> names_request req (behind r.2 req w).1.
Proof.
  intros Hr. unfold behind. destruct (Auth.onRequest _ _ _ _ _) as [a w1]. cbv zeta.
  destruct (Auth.verdict a) as [e|p]; [apply finish_names|].
  unfold protected_routes in Hr. rewrite elem_of_app in Hr.
  assert (forall f base, names_request req (answering f (("x-request-id", App.HText (App.id req)) :: base) p req w1).1)
    as Ha by (intros f base; unfold answering; destruct (f p req w1); apply finish_names).
  destruct Hr as [Hr|Hr]; [|destruct providerHealth; [apply list_elem_of_singleton in Hr as ->; apply Ha|
    by apply elem_of_nil in Hr]].
  repeat apply elem_of_cons in Hr as [->|Hr]; [| |apply Ha|apply Ha|by apply elem_of_nil in Hr].
  - cbn [snd]. unfold chat. destruct (Gateway.post_chat _ _ _ _ _) as [[o|] w2]; [apply finish_names|done].
  - cbn [snd]. unfold stream. destruct (stream_request p req) as [t|r']; [apply finish_names|].
    destruct (ChatRoute.stream_handler _ _ _) as [[e|[]] s]; [apply finish_names|].
    destruct (ChatRoute.started s); cbn; eauto.
Qed.

Lemma headers_only_names req r : names_request req r -> names_request req (headers_only r).
Proof. by destruct r. Qed.

(** A route the sources register: the health check, or one behind the guard. *)
Lemma registered_spec method pattern serve :
  registered method pattern = Some serve ->
  (method = "GET" /\ pattern = "/health" /\ serve = fun req w => (Answered (App.health req), w)) \/
  (pattern <> "/health" /\ exists r, r ∈ protected_routes /\ r.1 = (method, pattern) /\
     serve = behind r.2).
Proof.
  unfold registered. destruct (_ && _) eqn:Eh.
  - apply andb_true_iff in Eh as [->%String.eqb_eq ->%String.eqb_eq]. intros [= <-]. by left.
  - intros (r & Hf & ->)%fmap_Some. apply List.find_some in Hf as [Hin Hr]. apply list_elem_of_In in Hin.
    unfold is_route in Hr. apply andb_true_iff in Hr as [Hm%String.eqb_eq Hp%String.eqb_eq].
    right. destruct r as [[m' p'] h]. simpl in *. subst. split; [|eauto].
    intros ->. unfold protected_routes in Hin. rewrite elem_of_app in Hin.
    destruct Hin as [Hin|Hin]; [|destruct providerHealth]; set_solver.
Qed.

End BuildApp.

(** ** The properties *)

(** C39: the surface of the application.  A path is served without a key only
    if it is [/health], under GET and, where the framework derives HEAD
    routes, under HEAD, and that touches nothing; under every other route,
    derived ones included, a request the guard refuses is answered with the
    guard's error (its status and headers alone for HEAD), and neither the
    reply nor the state depends on the handler, the provider, the cache or the
    jobs; every reply and every stream carries the request's identifier as its
    first header; and the patterns served are exactly those the metrics know
    as routes. *)
Theorem application_surface {W} validate sha256 table consume (srv : ChatRoute.services W) jobs health
    exposeHeadRoutes method pattern serve req w :
  buildApp validate sha256 table consume srv jobs (Some health) exposeHeadRoutes method pattern
    = Some serve ->
  let shown r := if String.eqb method "HEAD" then headers_only (Answered r) else Answered r in
  ((method = "GET" \/ method = "HEAD" /\ exposeHeadRoutes = true) /\ pattern = "/health" /\
     serve req w = (shown (App.health req), w) \/
   pattern <> "/health" /\
   forall a w1 e, Auth.onRequest sha256 consume table (App.authorization req) w = (a, w1) ->
     Auth.verdict a = Err e ->
     exists r, serve req w = (shown r, w1) /\
       App.reply_status r = App.reply_status (App.errorHandler (App.id req) (App.Thrown e)).2 /\
       App.reply_body r = App.reply_body (App.errorHandler (App.id req) (App.Thrown e)).2) /\
  names_request req (serve req w).1 /\
  pattern ∈ Metrics.routes /\
  Metrics.routes ≡ₚ patterns validate srv jobs (Some health).
Proof.
  intros H shown.
  assert (Metrics.routes ≡ₚ patterns validate srv jobs (Some health)) as Hp by reflexivity.
  assert (forall m r, r ∈ protected_routes validate srv jobs (Some health) -> r.1 = (m, pattern) ->
    pattern ∈ Metrics.routes) as Hroute.
  { intros m r Hr Hm. rewrite Hp. right. replace pattern with r.1.2 by by rewrite Hm.
    by apply (list_elem_of_fmap_2 (fun r => r.1.2)). }
  unfold buildApp in H. destruct (String.eqb method "HEAD" && exposeHeadRoutes) eqn:Eh.
  - apply andb_true_iff in Eh as [->%String.eqb_eq ->]. apply fmap_Some in H as (s0 & H & ->).
    apply registered_spec in H as [(_ & -> & ->)|(Hne & r & Hin & Hr & ->)].
    { split; [by left; auto|]. split; [cbn; eauto|]. split; [by left|done]. }
    split; [right; split; [done|]|split; [|split; [by eapply Hroute|done]]].
    + intros a w1 e Ha Hv. unfold behind. rewrite Ha, Hv. by eexists.
    + pose proof (protected_names validate sha256 table consume srv jobs (Some health) r req w Hin) as Hn.
      destruct (behind _ _ _ _ req w) as [r0 w0]. by apply headers_only_names.
  - apply registered_spec in H as [(-> & -> & ->)|(Hne & r & Hin & Hr & ->)].
    { split; [by left; auto|]. split; [cbn; eauto|]. split; [by left|done]. }
    assert (String.eqb method "HEAD" = false) as Hm.
    { unfold protected_routes in Hin. apply String.eqb_neq. intros ->. set_solver. }
    subst shown. cbv beta. rewrite Hm.
    split; [right; split; [done|]|split; [|split; [by eapply Hroute|done]]].
    + intros a w1 e Ha Hv. unfold behind. rewrite Ha, Hv. by eexists.
    + by apply (protected_names validate sha256 table consume srv jobs (Some health)).
Qed.

(** ** A request without a key *)

Definition ex_app :=
  buildApp (fun _ v => Ok v) Datatypes.id (Ok [Auth.ex_key]) (fun _ _ w => (Err RequestAbortedError, w))
    ChatRoute.ex_services (App.mkJobs (fun _ w => (Err RequestAbortedError, w)) (fun _ _ w => (Err RequestAbortedError, w)))
    (Some (fun _ => [])) true.

Lemma application_surface_witness :
  exists serve hs, ex_app "HEAD" "/v1/jobs/:id" = Some serve /\
    serve App.ex_anonymous () = (Headed 401 hs, ()).
Proof.
  destruct (ex_app "HEAD" "/v1/jobs/:id") as [serve|] eqn:E; [|done].
  destruct (application_surface _ _ _ _ _ _ _ _ _ _ serve App.ex_anonymous () E)
    as ([(_ & [=] & _)|[_ H]] & _).
  destruct (H (Auth.mkAdmission (Err AuthenticationError) [] []) () AuthenticationError eq_refl eq_refl)
    as (r & Hs & Hr & _).
  exists serve, (App.reply_headers r). split; [done|]. rewrite Hs. cbn. by rewrite Hr.
Defined.

End Application.
