(* ===== verification/Lifecycle.v ===== *)
(** * Process lifecycle

    [start] and [shutdown] of [src/src/server.ts] and [src/src/worker.ts], and
    [run], [close] and [drain] of the worker class in
    [src/src/queue/rabbitmq.ts].  A process is the trace of what it asked of
    its resources, its exit code and the flags of the code; which requests
    fail is an arbitrary predicate. *)

From S2P Require Import Prelude Errors.
Import Errors.

Module Lifecycle.

Inductive action : Type :=
| ConnectCache | QueryDatabase | ConnectRedis | Listen | ListenMetrics
| CloseApp | DisconnectRedis | DisconnectCache | CloseMetrics | EndPool
| RunWorker | CloseWorker
| ConnectBroker | Consume | StopConsuming | AwaitLoop | CloseBroker.

#[global] Instance action_eq_dec : EqDecision action.
Proof. solve_decision. Defined.

Record process : Type := mkProcess {
  trace : list action;
  exitCode : bool;
  isShuttingDown : bool
}.

Definition booted : process := mkProcess [] false false.

Definition perform (a : action) (p : process) : process :=
  mkProcess (trace p ++ [a]) (exitCode p) (isShuttingDown p).
Definition exit_failure (p : process) : process := mkProcess (trace p) true (isShuttingDown p).
Definition begin_shutdown (p : process) : process := mkProcess (trace p) (exitCode p) true.

Section Processes.
  Context (fails : action -> bool).

(** Await a request whose failure sets the exit code. *)
Definition attempt (a : action) (p : process) : process :=
  let p := perform a p in if fails a then exit_failure p else p.

(** ** The gateway *)

  (** whether the cache has a connection of its own *)
  Context (cacheRedis : bool).

Definition if_cache (a : action) (p : process) : process := if cacheRedis then perform a p else p.

(** The [catch] of [start]. *)
Definition start_failed (p : process) : process :=
  exit_failure (perform EndPool (if_cache DisconnectCache (perform DisconnectRedis (perform CloseMetrics p)))).

Definition gateway_start (p : process) : process :=
  let p := perform ConnectRedis (perform QueryDatabase (if_cache ConnectCache p)) in
  if fails QueryDatabase || fails ConnectRedis then start_failed p
  else
    let p := perform Listen p in
    if fails Listen then start_failed p else perform ListenMetrics p.

Definition gateway_shutdown (p : process) : process :=
  if isShuttingDown p then p
  else
    let p := attempt CloseApp (begin_shutdown p) in
    let p := if_cache DisconnectCache (perform DisconnectRedis p) in
    attempt EndPool (perform CloseMetrics p).

(** ** The worker process *)

Definition worker_shutdown (p : process) : process :=
  if isShuttingDown p then p
  else
    let p := attempt CloseWorker (begin_shutdown p) in
    attempt EndPool (perform CloseMetrics p).

(** [signalled]: a signal arrives while the metrics listener starts. *)
Definition worker_start (signalled : bool) (p : process) : process :=
  let p := perform ListenMetrics p in
  let p := if signalled then worker_shutdown p else p in
  if isShuttingDown p then p
  else
    let p := perform RunWorker p in
    if fails RunWorker then worker_shutdown (exit_failure p) else p.

(** ** RabbitMqJobWorker *)

Record job_worker : Type := mkJobWorker {
  stopped : bool;
  running : bool;
  closing : bool;
  calls : list action
}.

Definition new_job_worker : job_worker := mkJobWorker false false false [].

Definition call (a : action) (w : job_worker) : job_worker :=
  mkJobWorker (stopped w) (running w) (closing w) (calls w ++ [a]).

(** The start of [loop]: connect, and consume unless stopped meanwhile. *)
Definition loop_start (stopped_meanwhile : bool) (w : job_worker) : job_worker :=
  let w := call ConnectBroker w in
  if fails ConnectBroker then w
  else if stopped w || stopped_meanwhile then w else call Consume w.

(** [this.running ??= this.loop()] *)
Definition run_worker (stopped_meanwhile : bool) (w : job_worker) : job_worker :=
  if running w then w
  else loop_start stopped_meanwhile (mkJobWorker (stopped w) true (closing w) (calls w)).

Definition drain (w : job_worker) : job_worker :=
  let w := call StopConsuming (mkJobWorker true (running w) (closing w) (calls w)) in
  let w := if fails StopConsuming then w else if running w then call AwaitLoop w else w in
  call CloseBroker w.

(** [this.closing ??= this.drain()] *)
Definition close_worker (w : job_worker) : job_worker :=
  if closing w then w else drain (mkJobWorker (stopped w) (running w) true (calls w)).

(** ** Lemmas *)

Lemma gateway_shutdown_trace p :
  isShuttingDown p = false ->
  gateway_shutdown p =
    mkProcess (trace p ++ [CloseApp; DisconnectRedis] ++ (if cacheRedis then [DisconnectCache] else [])
               ++ [CloseMetrics; EndPool])
      (exitCode p || fails CloseApp || fails EndPool) true.
Proof.
  destruct p as [t x s]. simpl. intros ->. unfold gateway_shutdown, attempt, if_cache, perform, exit_failure, begin_shutdown.
  simpl. destruct (fails CloseApp), (fails EndPool), cacheRedis, x; simpl; f_equal;
    rewrite <- ?app_assoc; done.
Qed.

(** The trace of a start, step by step. *)
Definition start_trace : list action :=
  let released := [CloseMetrics; DisconnectRedis] ++ (if cacheRedis then [DisconnectCache] else []) ++ [EndPool] in
  (if cacheRedis then [ConnectCache] else []) ++ [QueryDatabase; ConnectRedis] ++
  (if fails QueryDatabase || fails ConnectRedis then released
   else Listen :: if fails Listen then released else [ListenMetrics]).

Lemma gateway_start_trace :
  gateway_start booted =
    mkProcess start_trace (fails QueryDatabase || fails ConnectRedis || fails Listen) false.
Proof.
  unfold gateway_start, start_trace, start_failed, if_cache.
  destruct (fails QueryDatabase), (fails ConnectRedis), (fails Listen), cacheRedis; reflexivity.
Qed.

Lemma worker_shutdown_trace p :
  isShuttingDown p = false ->
  worker_shutdown p =
    mkProcess (trace p ++ [CloseWorker; CloseMetrics; EndPool])
      (exitCode p || fails CloseWorker || fails EndPool) true.
Proof.
  destruct p as [t x s]. simpl. intros ->. unfold worker_shutdown, attempt, perform, exit_failure, begin_shutdown.
  simpl. destruct (fails CloseWorker), (fails EndPool), x; simpl; f_equal;
    rewrite <- ?app_assoc; done.
Qed.

Lemma shutdown_again p n :
  isShuttingDown p = true -> Nat.iter n gateway_shutdown p = p /\ Nat.iter n worker_shutdown p = p.
Proof.
  intros H. induction n as [|n [IH1 IH2]]; [done|]. simpl. rewrite IH1, IH2.
  unfold gateway_shutdown, worker_shutdown. by rewrite H.
Qed.

Lemma iter_first {A} (f : A -> A) n x : Nat.iter (S n) f x = Nat.iter n f (f x).
Proof. induction n as [|n IH]; [done|]. simpl in *. by rewrite IH. Qed.

End Processes.

(** ** The properties *)

(** The gateway serves only when it can, and lets go of what it has.
    Startup opens the public port only after the database and Redis have
    answered; the cache and the metrics listener never decide; if a mandatory
    step fails, every connection is released and the exit code says so.  Any
    positive number of signals after it shuts down exactly once: the server drains
    before its connections are closed, the pool is ended last and in any
    case, and the exit code reports a failed drain or pool. *)
Theorem gateway_lifecycle fails cacheRedis n :
  let p := gateway_start fails cacheRedis booted in
  let q := Nat.iter (S n) (gateway_shutdown fails cacheRedis) p in
  (Listen ∈ trace p -> fails QueryDatabase = false /\ fails ConnectRedis = false) /\
  exitCode p = fails QueryDatabase || fails ConnectRedis || fails Listen /\
  (exitCode p = true -> DisconnectRedis ∈ trace p /\ EndPool ∈ trace p) /\
  trace q = trace p ++ [CloseApp; DisconnectRedis] ++
    (if cacheRedis then [DisconnectCache] else []) ++ [CloseMetrics; EndPool] /\
  exitCode q = exitCode p || fails CloseApp || fails EndPool.
Proof.
  intros p q. assert (p = mkProcess (start_trace fails cacheRedis)
    (fails QueryDatabase || fails ConnectRedis || fails Listen) false) as Hp by apply gateway_start_trace.
  assert (q = gateway_shutdown fails cacheRedis p) as ->.
  { unfold q. rewrite iter_first. apply (shutdown_again fails cacheRedis).
    rewrite gateway_shutdown_trace; [done|by rewrite Hp]. }
  rewrite gateway_shutdown_trace by (by rewrite Hp). rewrite Hp. clear.
  cbn [trace exitCode]. unfold start_trace.
  destruct (fails QueryDatabase), (fails ConnectRedis), (fails Listen), cacheRedis; cbn [orb app];
    (split; [intros H; try done; apply (bool_decide_pack _) in H; by vm_compute in H|]);
    (split; [done|]); (split; [|done]); intros Hx; try done;
    split; apply (bool_decide_unpack _); by vm_compute.
Qed.

(** The worker drains before it lets go, once.  Whether the signal comes
    during startup, later or after the loop has failed, the process closes
    the worker, then the metrics listener, then the pool, each exactly once
    and even if the worker fails to close; a signal during startup keeps the
    loop from starting; the exit code reports every failure. *)
Theorem worker_lifecycle fails signalled n :
  let p := worker_start fails signalled booted in
  let q := Nat.iter (S n) (worker_shutdown fails) p in
  trace q = ListenMetrics :: (if signalled then [] else [RunWorker]) ++ [CloseWorker; CloseMetrics; EndPool] /\
  exitCode q = (negb signalled && fails RunWorker) || fails CloseWorker || fails EndPool.
Proof.
  intros p q. assert (q = worker_shutdown fails p) as ->.
  { unfold q. rewrite iter_first. apply (shutdown_again fails false).
    destruct (isShuttingDown p) eqn:E; [unfold worker_shutdown; by rewrite E|].
    by rewrite worker_shutdown_trace. }
  destruct signalled.
  - unfold p, worker_start.
    rewrite (worker_shutdown_trace fails (perform ListenMetrics booted)) by done. cbn [isShuttingDown].
    unfold worker_shutdown. by cbn.
  - unfold p, worker_start. cbn [isShuttingDown perform booted].
    destruct (fails RunWorker) eqn:E.
    + rewrite (worker_shutdown_trace fails (exit_failure _)) by done.
      unfold worker_shutdown. by cbn.
    + rewrite worker_shutdown_trace by done. by cbn.
Qed.

(** Closing the job worker stops deliveries first.  However often and in
    whatever state [close] is called, it stops the loop, stops consuming,
    waits for a loop that was started, and closes the broker last, exactly
    once and also when consuming cannot be stopped. *)
Theorem job_worker_close fails meanwhile (started : bool) n :
  let w := if started then run_worker fails meanwhile new_job_worker else new_job_worker in
  let v := Nat.iter (S n) (close_worker fails) w in
  stopped v = true /\
  calls v = calls w ++ StopConsuming ::
    (if negb (fails StopConsuming) && started then [AwaitLoop] else []) ++ [CloseBroker] /\
  run_worker fails meanwhile v = (if started then v else loop_start fails meanwhile
    (mkJobWorker true true true (calls v))).
Proof.
  intros w v. assert (v = close_worker fails w) as ->.
  { unfold v. rewrite iter_first. generalize (closing w) as b. intros _.
    assert (closing (close_worker fails w) = true) as H.
    { unfold close_worker. destruct (closing w) eqn:E; [done|]. unfold drain, call. by repeat case_match. }
    clear -H. induction n as [|n IH]; [done|]. simpl. rewrite IH. unfold close_worker at 1. by rewrite H. }
  assert (closing w = false /\ running w = started) as [Hc Hr].
  { unfold w. destruct started; [|done]. unfold run_worker, loop_start, call. by repeat case_match. }
  unfold close_worker. rewrite Hc. unfold drain, call. cbn [stopped running closing calls]. rewrite Hr.
  destruct (fails StopConsuming), started; cbn; (split; [done|]); rewrite <- ?app_assoc;
    (split; [done|]); unfold run_worker; by cbn.
Qed.

End Lifecycle.
