(* ===== verification/GatewayProcess.v ===== *)
(** * The gateway process: starting and stopping at once

    [start] and [shutdown] of [src/src/server.ts] as the two coroutines they
    are.  A signal may arrive while [start] is still awaiting something; from
    then on the two interleave, each resuming when what it awaits settles, in
    any order and with any outcome.

    The clients are reduced to whether they are in use.  What is assumed of
    them is documented: a server that has been told to close does not listen
    afterwards (a call to [listen] is then rejected), and ending the pool a
    second time is rejected.  Log lines are not kept. *)

From S2P Require Import Prelude Errors Lifecycle.
Import Errors.

Module GatewayProcess.

Inductive server : Type := Fresh | Listening | Closed.

(** What [start] is awaiting: the two connections, [app.listen] (which is
    sure to be rejected when the application was closed before), the metrics
    listener, and the two awaits of its [catch]. *)
Inductive start_point : Type :=
| Connecting
| Opening (refused : bool)
| OpeningMetrics
| ClosingMetrics
| EndingPool (again : bool)
| Started.

(** What [shutdown] is awaiting. *)
Inductive stop_point : Type :=
| Running
| DrainingApp
| StoppingMetrics
| StoppingPool (again : bool)
| Stopped.

Record gateway : Type := mkGateway {
  app : server;
  redis : bool;
  cacheRedis : bool;
  metricsServer : server;
  pool : bool;
  exitCode : bool;
  starting : start_point;
  stopping : stop_point
}.

(** The first part of [start] runs before any signal can be delivered. *)
Definition boot (cache : bool) : gateway :=
  mkGateway Fresh true cache Fresh true false Connecting Running.

(** ** The calls *)

Definition close_app (g : gateway) : gateway :=
  mkGateway Closed (redis g) (cacheRedis g) (metricsServer g) (pool g) (exitCode g) (starting g) (stopping g).
Definition close_metrics (g : gateway) : gateway :=
  mkGateway (app g) (redis g) (cacheRedis g) Closed (pool g) (exitCode g) (starting g) (stopping g).
Definition disconnect (g : gateway) : gateway :=
  mkGateway (app g) false false (metricsServer g) (pool g) (exitCode g) (starting g) (stopping g).
Definition end_pool (g : gateway) : gateway :=
  mkGateway (app g) (redis g) (cacheRedis g) (metricsServer g) false (exitCode g) (starting g) (stopping g).
Definition set_exit (failed : bool) (g : gateway) : gateway :=
  mkGateway (app g) (redis g) (cacheRedis g) (metricsServer g) (pool g) (exitCode g || failed)
    (starting g) (stopping g).
Definition at_start (p : start_point) (g : gateway) : gateway :=
  mkGateway (app g) (redis g) (cacheRedis g) (metricsServer g) (pool g) (exitCode g) p (stopping g).
Definition at_stop (p : stop_point) (g : gateway) : gateway :=
  mkGateway (app g) (redis g) (cacheRedis g) (metricsServer g) (pool g) (exitCode g) (starting g) p.

(** A listener comes up unless it was told to close meanwhile. *)
Definition up (s : server) : server := match s with Fresh => Listening | s => s end.
Definition app_up (g : gateway) : gateway :=
  mkGateway (up (app g)) (redis g) (cacheRedis g) (metricsServer g) (pool g) (exitCode g)
    (starting g) (stopping g).
Definition metrics_up (g : gateway) : gateway :=
  mkGateway (app g) (redis g) (cacheRedis g) (up (metricsServer g)) (pool g) (exitCode g)
    (starting g) (stopping g).

Definition is_closed (s : server) : bool := match s with Closed => true | _ => false end.

(** ** The steps *)

(** The [catch] of [start] up to its first [await]. *)
Definition start_fails (g : gateway) : gateway := at_start ClosingMetrics (close_metrics g).

(** What [start] awaits settles; [None] when it cannot settle so. *)
Definition start_resumes (ok : bool) (g : gateway) : option gateway :=
  match starting g with
  | Connecting => Some (if ok then at_start (Opening (is_closed (app g))) g else start_fails g)
  | Opening refused =>
      if ok then if refused then None else Some (at_start OpeningMetrics (app_up g))
      else Some (start_fails g)
  | OpeningMetrics => Some (at_start Started (if ok then metrics_up g else g))
  | ClosingMetrics => Some (at_start (EndingPool (negb (pool g))) (end_pool (disconnect g)))
  | EndingPool again => if ok && again then None else Some (at_start Started (set_exit true g))
  | Started => None
  end.

(** What [shutdown] awaits settles. *)
Definition stop_resumes (ok : bool) (g : gateway) : option gateway :=
  match stopping g with
  | Running | Stopped => None
  | DrainingApp =>
      Some (at_stop StoppingMetrics (close_metrics (disconnect (set_exit (negb ok) g))))
  | StoppingMetrics => Some (at_stop (StoppingPool (negb (pool g))) (end_pool g))
  | StoppingPool again =>
      if ok && again then None else Some (at_stop Stopped (set_exit (negb ok) g))
  end.

(** [if (isShuttingDown) return; isShuttingDown = true; ... app.close()] *)
Definition signalled (g : gateway) : gateway :=
  match stopping g with Running => at_stop DrainingApp (close_app g) | _ => g end.

Inductive occurrence : Type :=
| Signal
| StartResumes (ok : bool)
| StopResumes (ok : bool).

Definition step (g : gateway) (o : occurrence) : option gateway :=
  match o with
  | Signal => Some (signalled g)
  | StartResumes ok => start_resumes ok g
  | StopResumes ok => stop_resumes ok g
  end.

Definition moves (g : gateway) (o : occurrence) (g' : gateway) : Prop := step g o = Some g'.

(** ** The invariant *)

(** Nothing is in use any more. *)
Definition released (g : gateway) : Prop :=
  redis g = false /\ cacheRedis g = false /\ metricsServer g = Closed /\ pool g = false.

(** Serving: the public port is open, and so is all it needs. *)
Definition serving (g : gateway) : Prop :=
  app g = Listening /\ redis g = true /\ pool g = true /\ exitCode g = false.

Definition start_inv (g : gateway) : Prop :=
  match starting g, stopping g with
  | (Connecting | Opening _), Running =>
      app g = Fresh /\ redis g = true /\ pool g = true /\ exitCode g = false
  | OpeningMetrics, Running => serving g
  | ClosingMetrics, Running => app g = Fresh /\ metricsServer g = Closed /\ pool g = true
  | EndingPool again, Running => again = false /\ app g = Fresh /\ released g
  | Started, Running => serving g \/ (app g = Fresh /\ released g /\ exitCode g = true)
  | _, _ => app g = Closed
  end /\
  match starting g with Opening true => app g = Closed | _ => True end.

Definition stop_inv (g : gateway) : Prop :=
  match stopping g with
  | Running | DrainingApp => True
  | StoppingMetrics => redis g = false /\ cacheRedis g = false /\ metricsServer g = Closed
  | StoppingPool _ | Stopped => released g
  end.

Definition gateway_inv (g : gateway) : Prop := start_inv g /\ stop_inv g.

Lemma boot_inv cache : gateway_inv (boot cache).
Proof. done. Qed.

(** Case by case on the points of the two coroutines and on the servers. *)
Ltac by_points :=
  cbn in *; rewrite ?orb_true_r in *; destruct_and?; simplify_eq/=; try done;
  repeat match goal with s : server |- _ => destruct s end; naive_solver.

Lemma start_resumes_inv ok g g' : gateway_inv g -> start_resumes ok g = Some g' -> gateway_inv g'.
Proof.
  destruct g as [a r c m p x st sp]. unfold gateway_inv, start_inv, stop_inv, start_resumes, released, serving.
  destruct st as [|[]| | |[]|]; try done; destruct ok; cbn; try done; intros Hi [= <-]; destruct sp; by_points.
Qed.

Lemma stop_resumes_inv ok g g' : gateway_inv g -> stop_resumes ok g = Some g' -> gateway_inv g'.
Proof.
  destruct g as [a r c m p x st sp]. unfold gateway_inv, start_inv, stop_inv, stop_resumes, released, serving.
  destruct sp as [| | |[]|]; try done; destruct ok; cbn; try done; intros Hi [= <-];
    destruct st as [|[]| | | |]; by_points.
Qed.

Lemma signalled_inv g : gateway_inv g -> gateway_inv (signalled g).
Proof.
  destruct g as [a r c m p x st sp]. unfold gateway_inv, start_inv, stop_inv, signalled, released, serving.
  intros Hi. destruct sp; try done; destruct st as [|[]| | | |]; by_points.
Qed.

Lemma moves_inv g o g' : gateway_inv g -> moves g o g' -> gateway_inv g'.
Proof.
  intros Hi Hm. destruct o as [|ok|ok].
  - injection Hm as <-. by apply signalled_inv.
  - by eapply start_resumes_inv.
  - by eapply stop_resumes_inv.
Qed.

(** ** Termination *)

Definition start_left (p : start_point) : nat :=
  match p with
  | Connecting => 4 | Opening _ => 3 | OpeningMetrics => 1
  | ClosingMetrics => 2 | EndingPool _ => 1 | Started => 0
  end.
Definition stop_left (p : stop_point) : nat :=
  match p with
  | Running => 4 | DrainingApp => 3 | StoppingMetrics => 2 | StoppingPool _ => 1 | Stopped => 0
  end.
Definition left (g : gateway) : nat := start_left (starting g) + stop_left (stopping g).

(** A first signal, or something awaited that settles. *)
Definition advances (g : gateway) (o : occurrence) : bool :=
  match o, stopping g with Signal, Running => true | Signal, _ => false | _, _ => true end.

Fixpoint advanced (g : gateway) (os : list occurrence) : nat :=
  match os with
  | [] => 0
  | o :: os' =>
      (if advances g o then 1 else 0) + match step g o with Some g' => advanced g' os' | None => 0 end
  end.

Lemma moves_left g o g' :
  moves g o g' -> ((if advances g o then 1 else 0) + left g' <= left g)%nat.
Proof.
  destruct g as [a r c m p x st sp]. unfold moves, step, left, start_resumes, stop_resumes, signalled.
  destruct o as [|ok|ok]; [destruct sp|destruct st as [|[]| | |[]|], ok|destruct sp as [| | |[]|], ok];
    cbn; intros [=]; subst; cbn; lia.
Qed.

Lemma run_left g os g' : run moves g os g' -> (advanced g os + left g' <= left g)%nat.
Proof.
  induction 1 as [g|g o g1 os g' Hm _ IH]; [done|]. cbn [advanced].
  pose proof (moves_left _ _ _ Hm). unfold moves in Hm. rewrite Hm. lia.
Qed.

(** Something can settle as long as either coroutine is at work. *)
Lemma resumes_progress g :
  (starting g <> Started -> is_Some (step g (StartResumes false))) /\
  (stopping g <> Running -> stopping g <> Stopped -> is_Some (step g (StopResumes false))).
Proof.
  destruct g as [a r c m p x st sp]. unfold step, start_resumes, stop_resumes.
  destruct st, sp; cbn; split; intros; by eauto.
Qed.

(** ** The properties *)

(** C38: a signal at any moment leaves nothing behind.  However the signals,
    the resumptions of [start] and those of [shutdown] interleave and
    whatever fails: the public port is open only while Redis and the pool
    are; once a signal has come the port never opens again; when [start] is
    over and no signal has come, the gateway serves, or nothing is in use and
    the exit code says that it failed; when [shutdown] is over, the server is
    closed and every client is released; and all this takes at most eight
    steps, whatever number of signals comes. *)
Theorem gateway_signals_safe cache os g :
  run moves (boot cache) os g ->
  (app g = Listening -> redis g = true /\ pool g = true) /\
  (stopping g <> Running -> app g = Closed) /\
  (starting g = Started -> stopping g = Running ->
     serving g \/ (app g = Fresh /\ released g /\ exitCode g = true)) /\
  (stopping g = Stopped -> app g = Closed /\ released g) /\
  (advanced (boot cache) os <= 8)%nat.
Proof.
  intros Hr. pose proof (run_left _ _ _ Hr) as Hl.
  pose proof (run_invariant _ gateway_inv _ _ _ moves_inv Hr (boot_inv cache)) as [[Hs _] Ht].
  assert (left (boot cache) = 8%nat) as H8 by done.
  unfold stop_inv in Ht. destruct g as [a r c m p x st sp]. unfold serving, released in *. cbn in *.
  repeat split; try lia; destruct sp, st; naive_solver.
Qed.

(** ** Sequential runs *)

(** The schedule in which [start] is over before the signal comes, and each
    request fails as [fails] says. *)
Definition start_schedule (fails : Lifecycle.action -> bool) : list occurrence :=
  let caught := [StartResumes (negb (fails Lifecycle.CloseMetrics)); StartResumes (negb (fails Lifecycle.EndPool))] in
  if fails Lifecycle.QueryDatabase || fails Lifecycle.ConnectRedis then StartResumes false :: caught
  else StartResumes true ::
    if fails Lifecycle.Listen then StartResumes false :: caught
    else [StartResumes true; StartResumes (negb (fails Lifecycle.ListenMetrics))].

Definition stop_schedule (fails : Lifecycle.action -> bool) (started : bool) : list occurrence :=
  [Signal; StopResumes (negb (fails Lifecycle.CloseApp)); StopResumes (negb (fails Lifecycle.CloseMetrics));
   StopResumes (started && negb (fails Lifecycle.EndPool))].

(** Where they lead. *)
Definition started_gateway (failed cache metrics : bool) : gateway :=
  if failed then mkGateway Fresh false false Closed false true Started Running
  else mkGateway Listening true cache (if metrics then Listening else Fresh) true false Started Running.

Lemma start_sequential fails cache :
  exec_run step (boot cache) (start_schedule fails) =
    Some (started_gateway
      (fails Lifecycle.QueryDatabase || fails Lifecycle.ConnectRedis || fails Lifecycle.Listen) cache
      (negb (fails Lifecycle.ListenMetrics))).
Proof.
  unfold start_schedule. generalize (fails Lifecycle.QueryDatabase || fails Lifecycle.ConnectRedis).
  intros [].
  - cbn [orb]. by destruct (fails Lifecycle.EndPool).
  - cbn [orb]. destruct (fails Lifecycle.Listen); [by destruct (fails Lifecycle.EndPool)|].
    by destruct (fails Lifecycle.ListenMetrics).
Qed.

Lemma stop_sequential fails failed cache metrics :
  (fun g => (stopping g, exitCode g)) <$>
    exec_run step (started_gateway failed cache metrics) (stop_schedule fails (negb failed)) =
  Some (Stopped, failed || fails Lifecycle.CloseApp || fails Lifecycle.EndPool).
Proof.
  unfold stop_schedule. destruct failed; cbn [negb andb orb].
  - by destruct (fails Lifecycle.CloseApp).
  - by destruct (fails Lifecycle.CloseApp), (fails Lifecycle.EndPool).
Qed.

(** There the coroutines are the sequential functions of [Lifecycle]: the
    same exit code after the start and after the shutdown. *)
Lemma sequential_exit fails cache :
  let p := Lifecycle.gateway_start fails cache Lifecycle.booted in
  exists g, exec_run step (boot cache) (start_schedule fails) = Some g /\ starting g = Started /\
    exitCode g = Lifecycle.exitCode p /\
    (fun g => (stopping g, exitCode g)) <$> exec_run step g (stop_schedule fails (negb (exitCode g))) =
      Some (Stopped, Lifecycle.exitCode (Lifecycle.gateway_shutdown fails cache p)).
Proof.
  intros p. unfold p. rewrite Lifecycle.gateway_shutdown_trace by (by rewrite Lifecycle.gateway_start_trace).
  rewrite Lifecycle.gateway_start_trace, start_sequential. cbn [Lifecycle.exitCode].
  generalize (fails Lifecycle.QueryDatabase || fails Lifecycle.ConnectRedis || fails Lifecycle.Listen).
  intros failed. eexists. split; [done|]. rewrite <- (stop_sequential fails failed cache
    (negb (fails Lifecycle.ListenMetrics))). by destruct failed.
Qed.

(** ** A signal during startup *)

(** The signal comes while the connections are being made; the connections
    succeed, [listen] is then rejected, and both coroutines clean up. *)
Definition ex_interleaving : list occurrence :=
  [Signal; StartResumes true; StopResumes true; StartResumes false; StopResumes true; StartResumes true;
   Signal; StopResumes true; StartResumes false].

Lemma gateway_signals_safe_witness :
  exists g, run moves (boot true) ex_interleaving g /\ stopping g = Stopped /\ starting g = Started /\
    app g = Closed /\ released g.
Proof.
  destruct (exec_run step (boot true) ex_interleaving) as [g|] eqn:E; [|by vm_compute in E].
  pose proof (exec_run_sound moves step (fun _ _ _ H => H) _ _ _ E) as Hr.
  destruct (gateway_signals_safe true ex_interleaving g Hr) as (_ & _ & _ & Hstop & _).
  vm_compute in E. injection E as <-. exists (mkGateway Closed false false Closed false true Started Stopped).
  repeat split; try done; by apply Hstop.
Defined.

End GatewayProcess.
