(* ===== verification/Scripts.v ===== *)
(** * One-off scripts

    [src/src/scripts/create-api-key.ts] and [src/src/scripts/migrate.ts].
    The random token, the new identifier and the outcome of each database
    statement are arguments. *)

From stdpp Require Import sorting.
From Stdlib Require Import Ascii.
From S2P Require Import Prelude JsNumber JsString Utf8 NumberText Errors Json JsonParse TokenBucket Auth Config.
Import JsNumber NumberText Errors Json JsonParse.

Module Scripts.

(** ** create-api-key.ts *)

Definition parseCapacity (value : string) : result error number :=
  let parsed := Number (chars value) in
  if negb (isInteger parsed) || ltb parsed (of_Z 1) then
    Err (PlainError ("Capacity must be a positive integer; received " +:+ value))
  else Ok parsed.

Definition parseRefillRate (value : string) : result error number :=
  let parsed := Number (chars value) in
  if negb (isFinite parsed) || leb parsed (of_Z 0) then
    Err (PlainError ("Refill rate must be positive; received " +:+ value))
  else Ok parsed.

(** What the script did: nothing but print its usage, fail, or insert a row
    and print the key once. *)
Inductive script_outcome : Type :=
| Usage
| Failed (e : error)
| Created (row : Auth.ApiKeyRow) (rawApiKey : string).

Section CreateKey.
  Context (sha256 : string -> string).

(** [main] after [loadConfig]; [token] is the random part of the key and
    [inserted] the outcome of the INSERT. *)
Definition create_api_key (argv : list string) (id token : string) (inserted : result error ()) :
    script_outcome :=
  match argv with
  | [] => Usage
  | name :: options =>
      if String.eqb (Config.trim_string name) EmptyString then Usage
      else
        let capacityInput := default "10" (options !! 0%nat) in
        let refillInput := default "1" (options !! 1%nat) in
        match
          (capacity ← parseCapacity capacityInput;
           refillPerSecond ← parseRefillRate refillInput;
           let rawApiKey := "mm_" +:+ token in
           inserted;;
           Ok (Auth.mkKeyRow id (Config.trim_string name) (String.substring 0 12 rawApiKey)
                 (Auth.hashApiKey sha256 rawApiKey) capacity refillPerSecond true, rawApiKey))
        with
        | Ok (row, raw) => Created row raw
        | Err e => Failed e
        end
  end.

End CreateKey.

(** ** migrate.ts *)

Definition is_sql (file : string) : bool :=
  match expect (rev (chars ".sql")) (rev (chars file)) with Some _ => true | None => false end.

(** [readdir(directory).filter(...).sort()] *)
Definition migration_files (files : list string) : list string :=
  merge_sort String.le (filter (fun f => is_sql f = true) files).

(** The loop: files are applied in turn until one fails. *)
Fixpoint apply_migrations (fails : string -> bool) (files : list string) : list string * bool :=
  match files with
  | [] => ([], true)
  | f :: rest =>
      if fails f then ([f], false)
      else let '(done, ok) := apply_migrations fails rest in (f :: done, ok)
  end.

(** [main]: [listing] is what [readdir] gives, if it succeeds. *)
Definition migrate (fails : string -> bool) (listing : option (list string)) : list string * bool :=
  match listing with
  | None => ([], false)
  | Some files => apply_migrations fails (migration_files files)
  end.

(** ** Lemmas *)

Lemma parse_limits c r capacity refill :
  parseCapacity c = Ok capacity -> parseRefillRate r = Ok refill ->
  isInteger capacity && negb (ltb capacity (of_Z 1)) && isFinite refill && negb (leb refill (of_Z 0)) = true.
Proof.
  unfold parseCapacity, parseRefillRate. cbv zeta. intros H1 H2.
  destruct (negb (isInteger (Number (chars c))) || _) eqn:E1; [done|].
  destruct (negb (isFinite (Number (chars r))) || _) eqn:E2; [done|].
  injection H1 as <-. injection H2 as <-. apply orb_false_iff in E1 as [Ea Eb], E2 as [Ec Ed].
  apply negb_false_iff in Ea, Ec. by rewrite Ea, Eb, Ec, Ed.
Qed.

Lemma list_find_app_new {A} (P : A -> Prop) `{forall x, Decision (P x)} l x :
  Forall (fun y => ~ P y) l -> P x -> list_find P (l ++ [x]) = Some (length l, x).
Proof.
  intros Hl Hx. apply list_find_Some. split; [by rewrite lookup_app_r, Nat.sub_diag by lia|].
  split; [done|]. intros j y Hy Hj. rewrite lookup_app_l in Hy by lia.
  rewrite Forall_forall in Hl. apply Hl. by eapply list_elem_of_lookup_2.
Qed.

Lemma substring_length n s : (String.length (String.substring 0 n s) <= n)%nat.
Proof. revert s. induction n as [|n IH]; intros [|c s]; simpl; try lia. specialize (IH s). lia. Qed.

(** A token without white space after the scheme is read as it is. *)
Lemma bearer_roundtrip t :
  t <> EmptyString -> JsString.no_space t = true -> Auth.parseBearerToken (Some ("Bearer " +:+ t)) = Ok t.
Proof.
  intros Hne Hs. unfold Auth.parseBearerToken. cbn [mbind option_bind].
  change ("Bearer " +:+ t) with ("Bearer" +:+ String " " t).
  rewrite (JsString.strip_prefix_app "Bearer" "Bearer") by done. cbn [JsString.skip_spaces].
  change (JsString.is_space " ") with true.
  rewrite JsString.skip_spaces_token, Hs by done. by rewrite (proj2 (String.eqb_neq _ _) Hne).
Qed.

Lemma apply_migrations_prefix fails files done ok :
  apply_migrations fails files = (done, ok) ->
  exists rest, files = done ++ rest /\ (ok = true -> rest = []) /\
    (ok = false -> exists f, last done = Some f /\ fails f = true) /\
    Forall (fun f => fails f = false) (if ok then done else removelast done).
Proof.
  revert done ok. induction files as [|f files IH]; intros done ok; simpl.
  - intros [= <- <-]. exists []. repeat split; [done|]. constructor.
  - destruct (fails f) eqn:E.
    + intros [= <- <-]. exists files. repeat split; [done|by exists f|constructor].
    + destruct (apply_migrations fails files) as [d o] eqn:Ed. intros [= <- <-].
      destruct (IH d o eq_refl) as (rest & -> & Ht & Hf & Hall). exists rest.
      split; [done|]. split; [done|]. destruct o.
      * split; [done|]. by constructor.
      * destruct (Hf eq_refl) as (x & Hx & Hfx). destruct d as [|y d]; [done|].
        split; [by exists x|]. by constructor.
Qed.

#[global] Instance string_le_total : Total String.le := _.

(** ** The properties *)

(** A created key works.  When the script reports a key, presenting that
    key as a bearer token authenticates as exactly the row it inserted, with
    the limits given on the command line, which the guard finds usable; the
    stored row holds the hash and a short prefix, not the key. *)
Theorem created_key_authenticates sha256 argv id token inserted row raw rows :
  create_api_key sha256 argv id token inserted = Created row raw ->
  JsString.no_space token = true ->
  Forall (fun r => Auth.key_hash r <> sha256 raw) rows ->
  Auth.authenticate sha256 (Ok (rows ++ [row])) (Some ("Bearer " +:+ raw)) = Ok (Auth.principal_of row) /\
  Auth.valid_limits row = true /\ Auth.key_hash row = sha256 raw /\
  (String.length (Auth.key_prefix row) <= 12)%nat.
Proof.
  unfold create_api_key. intros H Hs Hf. destruct argv as [|name options]; [done|].
  case_match; [done|]. cbv zeta in H.
  destruct (parseCapacity _) as [|capacity] eqn:Ec; [done|].
  destruct (parseRefillRate _) as [|refill] eqn:Er; [done|]. cbn [mbind result_mbind] in H.
  destruct inserted as [|[]]; [done|]. cbn [mbind result_mbind] in H. injection H as <- <-.
  assert (forall prefix hash, Auth.valid_limits (Auth.mkKeyRow id (Config.trim_string name)
    prefix hash capacity refill true) = true) as Hv by (intros; by eapply parse_limits).
  split; [|split; [apply Hv|split; [done|]]].
  - unfold Auth.authenticate. rewrite bearer_roundtrip; [|done|exact Hs].
    cbn [mbind result_mbind]. unfold Auth.findEnabledByHash. rewrite list_find_app_new.
    + cbv iota beta. by rewrite Hv.
    + eapply Forall_impl; [exact Hf|]. simpl. intros r Hr [He _]. by apply Hr.
    + done.
  - exact (substring_length 12 ("mm_" +:+ token)).
Qed.

(** Migrations are applied in name order and stop at the first failure.
    The files applied are an initial part of the sorted SQL files of the
    directory, each once; all of them on success, and otherwise exactly up to
    the one that failed. *)
Theorem migrations_in_order fails files done ok :
  migrate fails (Some files) = (done, ok) ->
  exists rest, Sorted String.le (done ++ rest) /\
    Permutation (done ++ rest) (filter (fun f => is_sql f = true) files) /\
    (ok = true -> rest = []) /\ (ok = false -> exists f, last done = Some f /\ fails f = true).
Proof.
  unfold migrate. intros H. destruct (apply_migrations_prefix _ _ _ _ H) as (rest & He & Ht & Hf & _).
  exists rest. rewrite <- He. unfold migration_files. split; [apply Sorted_merge_sort; apply _|].
  split; [apply merge_sort_Permutation|]. done.
Qed.

(** ** Scenarios *)

Lemma created_key_authenticates_witness :
  exists row, create_api_key id ["ci "; "20"] "k9" "c2VjcmV0" (Ok ()) = Created row "mm_c2VjcmV0" /\
    Auth.authenticate id (Ok [Auth.ex_key; row]) (Some "Bearer mm_c2VjcmV0") = Ok (Auth.principal_of row).
Proof.
  eexists. split; [by vm_compute|].
  apply (created_key_authenticates id ["ci "; "20"] "k9" "c2VjcmV0" (Ok ()) _ "mm_c2VjcmV0" [Auth.ex_key]);
    [by vm_compute|done|]. by repeat constructor.
Defined.

Lemma migrations_in_order_witness :
  migrate (String.eqb "002.sql") (Some ["002.sql"; "notes.md"; "001.sql"; "003.sql"]) =
    (["001.sql"; "002.sql"], false) /\
  exists rest, Sorted String.le (["001.sql"; "002.sql"] ++ rest).
Proof.
  split; [by vm_compute|].
  destruct (migrations_in_order (String.eqb "002.sql") ["002.sql"; "notes.md"; "001.sql"; "003.sql"]
    ["001.sql"; "002.sql"] false) as (rest & H & _); [by vm_compute|eauto].
Defined.

End Scripts.
